(* ===== verification/_CoqProject ===== *)
-Q . S2P
Prelude.v
Status.v
FileNames.v
World.v
Wp.v
Encoding.v
Record.v
Hint.v
Bloom.v
SortedMap.v
Memtable.v
SSTableFormat.v
LogFile.v
Power.v
MappedFile.v
Manifest.v
LogScan.v
SSTableLayout.v
LsmStats.v
SSTable.v
SSTableBuild.v
SSTableRead.v
SSTableOpen.v
SSTableProps.v
Iterator.v
IteratorSource.v
IteratorMerge.v
IteratorTables.v
Wal.v
LsmState.v
LsmCompact.v
Lsm.v
LsmLevels.v
LsmGet.v
LsmDisk.v
LsmPick.v
LsmMerge.v
LsmCommit.v
LsmServe.v
LsmReads.v
LsmFlush.v
LsmCompacted.v
LsmBackground.v
LsmWrite.v
LsmCalls.v
LsmOpen.v
LsmRecover.v
LsmRestart.v
LsmOpened.v
LsmSession.v
LsmPower.v
LsmProps.v
LsmExamples.v
Bitcask.v
BitcaskCompact.v
BitcaskState.v
BitcaskSteps.v
BitcaskServe.v
BitcaskDisk.v
BitcaskRecover.v
BitcaskCompactDisk.v
BitcaskCompaction.v
BitcaskSession.v
BitcaskPower.v
BitcaskExamples.v
Protocol.v
Net.v
Frames.v
FrameSpec.v
Stores.v
Server.v
Client.v
ServerSpec.v
ServerRun.v
Remote.v
Apps.v
AppsSpec.v
Bench.v
BenchSpec.v
NetExamples.v
