(* ===== verification/Prelude.v ===== *)
(** * Verification of kvstore

    kvstore is a key-value store in C++: two storage engines, Bitcask and an LSM tree, behind
    one interface, a server that serves a store over TCP, a client that is itself a store,
    two command line programs and two benchmarks.  This library models them and proves them
    correct.

    ** The parts of the program and where they are modelled

    Every definition is a translation of the code named in its comment; paths are those of
    the repository.

    - Results and errors ([include/kvstore/status.hpp], [result.hpp]): Status.  A pure
      function that can fail returns a [result]; [Stuck] is behaviour C++ leaves undefined,
      and every theorem about an operation excludes it.
    - The operating system ([src/platform_file.cpp], parts of [<filesystem>]): World.  A
      world is one directory (file names to bytes, with the length that has been synced), a
      clock, and a script with one event per system call: it succeeds, fails, transfers
      fewer bytes, or the process dies there.  A method of a class with members [S] is a
      computation [M S A], which returns, fails with a status, dies, or is stuck.
    - Weakest preconditions for [M] and the proof automation: Wp.
    - Formats: FileNames ([file_names.hpp]), Encoding ([encoding.hpp], [wire.hpp]), Record
      ([record.cpp]), Hint ([hint.cpp]), Bloom ([bloom.cpp], [hash.hpp]), SSTableFormat and
      SSTableLayout ([sstable.cpp]), Manifest ([manifest.cpp]).
    - Files: LogFile ([log_file.cpp]), LogScan ([log_scan.cpp]), MappedFile
      ([mapped_file.cpp]), Wal ([wal.cpp]).
    - Bitcask ([bitcask.cpp], [index.hpp], [compaction.cpp]): Bitcask and BitcaskCompact;
      the record [Bitcask] has the members of the class.  BitcaskState says what a history
      of writes means, BitcaskDisk what a directory holds, and the files after them follow
      each operation.
    - LSM tree: SortedMap and Memtable ([memtable.cpp]), SSTable and its lemma files
      ([sstable.cpp]), Iterator and its lemma files ([lsm_iterator.cpp]), LsmStats, LsmState
      ([lsm.hpp]), LsmCompact ([lsm_compaction.cpp]), Lsm and LsmOpen ([lsm.cpp]).  Methods
      are split where the code releases its lock; a wait on the condition variable runs
      rounds of the background thread.  LsmServe has the invariants of a directory
      and of a running engine; LsmCalls bounds what the engine computes with by the
      bytes in the directory.
    - Stores ([kvstore.hpp], [memory_store.cpp], [locked_store.cpp]): Stores.  The interface
      is the class [KVStore], what it promises the class [Contract]; the store in memory,
      the lock around a store, both engines, and (in Remote) the client are instances, and
      the server is verified against the contract alone.
    - Network: Protocol and Frames ([protocol.cpp]), Net ([socket.cpp],
      [platform_socket.cpp], with addresses, listening and connecting over what the system
      answers, the record [NetSystem]), Server ([server.cpp]), Client ([client.cpp]).  The
      other end of a socket is a function of what it has been sent; a script cuts the stream into
      transfers, makes calls fail and waits time out.  A pass of the accept loop or of a
      connection's loop is one step; the steps of all threads interleave freely, with the
      rounds of a thread the store itself may have (the class [Background]).
    - Programs ([apps/cli_main.cpp], [apps/server_main.cpp]): Apps, from the arguments to the
      output streams and the exit code.
    - Benchmarks ([bench/benchsuite_main.cpp], [bench/bench_main.cpp]): Bench, both programs
      as a whole.  The clock, the draws of the random number generator and what the machine
      reports of itself are arguments; the engine's thread works while the program waits for
      it.

    ** What the theorems show

    - Sessions.  BitcaskSession and LsmSession: every sequence of calls, crashes at any system
      call, restarts and, for the LSM tree, background rounds and open cursors, is a sequence
      of steps of a finite map (an ordered one, with cursors that show the snapshot of their
      opening); an interrupted write has happened entirely or not at all.
    - Power.  BitcaskPower and LsmPower: with [SyncMode::Always] the same holds when a power
      failure takes, of every file, any part of what has not been synced.  Power says what a
      failure leaves, and has the rules that show which files a method leaves unsynced.
    - Operations.  BitcaskServe, BitcaskRecover, BitcaskCompaction and LsmProps: what each
      operation does on every outcome, opening after a crash and compaction included, and
      that a wait for the background thread ends.
    - Building blocks.  Round trips of the formats and their safety on arbitrary bytes, the
      scan of a log, the append to a file, the Bloom filter, the memtable, tables, the
      merge, the write-ahead log, the atomic replacement of the manifest.
    - Network.  FrameSpec: frames come out of the stream as they went in, however it is cut.
      ServerSpec: stores are interchangeable behind the server's handler.  ServerRun: with any
      interleaving of its threads the server answers as one store would, and it stops.
      Remote: a client with a server at the other end is a store.
    - Programs.  AppsSpec: the arguments, one command of kv-cli against a server, and the life
      of kvstore_server from a directory to the same directory with the writes its clients
      were told of.
    - Benchmarks.  BenchSpec: what kv-benchsuite loads, and that every read of it is answered
      as it expects; the rows it writes are read back.
    - Behaviours the comments of the code rule out are theorems as well, by evaluation:
      BitcaskExamples, LsmExamples and Manifest.  The Examples files also hold the witnesses,
      runs of the model on concrete inputs.

    ** Parameters, bounds and fuel

    zlib's [crc32] and the text of system errors are the class [Platform], about which the
    theorems assume nothing; [reference_platform] is an instance to evaluate with.  What the
    system answers to connecting and binding a socket is an argument.

    Integers are [Z] with [u8], [u32] and [u64] written where C++ wraps.  Loops that are not
    structural take fuel that the definitions compute from their input (bytes left to scan,
    to send or to receive, entries to merge), and that the theorems show to be enough, since
    they exclude [Stuck], which is what running out of it gives.  [wait_rounds] is 2, the
    number of background rounds after which every wait of the code has been woken
    ([lsm_wait_returns]).  [kRoundSteps] is the code's own limit on the steps of a forced
    compaction.  Theorems about the LSM tree assume that the directory holds at most 2^59
    bytes and that enough of the 2^32 file ids are left ([room_for]).

    Some theorems assume that system calls do not fail, though the process may die at any of
    them ([reliable]): after a failed call the code can lose the promise, as the Examples
    files show.

    ** Not modelled

    - The Windows branches and the socket options of [platform_socket.cpp]; the system's
      answer stands for them.
    - Move constructors, which transfer ownership, and the closing of files by destructors,
      which changes no contents.
    - Memory: allocation succeeds, and null out-parameters are not passed.
    - Data races: Bitcask is only called under [LockedStore]; for the LSM engine the critical
      sections are steps, and a call of the store by a connection's thread is one step of the
      server.
    - Of power failures: they keep the directory's entries, and the unsynced bytes they leave
      are a prefix.  In the sessions of BitcaskPower and LsmPower the engine only goes down by
      a power failure, so that no data that a crash of the process left unsynced is read
      before one happens; [answered_then_lost] is what would come of it for Bitcask. *)

From Stdlib Require Import ZArith Lia String Strings.Byte.
From Stdlib Require Import Orders OrdersTac.
From coqutil Require Export Byte Word.LittleEndianList.
From stdpp Require Export base gmap list sorting strings.

#[global] Open Scope Z_scope.
#[global] Set Default Goal Selector "!".

(** * Bytes and byte strings

    [std::uint8_t], [char] and the elements of every [std::vector<std::uint8_t>]
    and [std::string] are bytes; strings are byte sequences (they may hold NULs). *)

Abbreviation byte := Init.Byte.byte.
Abbreviation bytes := (list byte).

(** A C++ string literal. *)
Definition lit (s : string) : bytes := list_byte_of_string s.
Arguments lit s%_string.

(** What a C function makes of [c_str()]: the bytes up to the first NUL. *)
Fixpoint c_str (s : bytes) : bytes :=
  match s with
  | b :: rest => if byte.unsigned b =? 0 then [] else b :: c_str rest
  | [] => []
  end.

#[export] Instance byte_eq_dec : EqDecision byte.
Proof. intros a b. destruct (Byte.byte_eq_dec a b); [by left | by right]. Defined.

#[export] Instance byte_countable : Countable byte :=
  inj_countable Byte.to_N Byte.of_N Byte.of_to_N.

(** * Sizes and machine integers *)

(** [container.size()]. *)
Definition sz {A} (l : list A) : Z := Z.of_nat (length l).

Definition UINT32_MAX : Z := 4294967295.
Definition UINT64_MAX : Z := 18446744073709551615.
Definition INT64_MAX : Z := 9223372036854775807.

(** Conversions to the unsigned types, wrap-around included. *)
Definition u8 (z : Z) : Z := z mod 256.
Definition u32 (z : Z) : Z := z mod 4294967296.
Definition u64 (z : Z) : Z := z mod 18446744073709551616.

(** [subspan(at, len)] / [substr(at, len)] of a range the caller has bounded. *)
Definition slice (l : bytes) (at_ len : Z) : bytes :=
  take (Z.to_nat len) (drop (Z.to_nat at_) l).

(** In-place write of [src] over [dst] from index [at_] on ([memcpy] into a
    vector that is long enough). *)
Definition splice (dst : bytes) (at_ : Z) (src : bytes) : bytes :=
  take (Z.to_nat at_) dst ++ src ++ drop (Z.to_nat at_ + length src) dst.

(** A zero-initialised vector. *)
Definition zeros (n : Z) : bytes := replicate (Z.to_nat n) Byte.x00.

Create Rewrite HintDb len.
#[export] Hint Rewrite @length_app @length_cons @length_nil @length_take @length_drop
  @length_replicate @length_insert @length_fmap @length_reverse length_le_split : len.

(** Solves goals about lengths of concatenations, slices and updates. *)
Ltac len := unfold sz, slice, splice, zeros in *; autorewrite with len in *; lia.

(** Case analysis on every [match] and [if] in the goal or the hypotheses. *)
Ltac crunch := repeat (case_match || case_decide || simplify_eq/=); try done.

Lemma sz_nonneg {A} (l : list A) : 0 ≤ sz l.
Proof. unfold sz. lia. Qed.

Lemma sz_app {A} (l k : list A) : sz (l ++ k) = sz l + sz k.
Proof. len. Qed.

Lemma sz_nil {A} : sz (@nil A) = 0.
Proof. done. Qed.

Lemma sz_cons {A} (x : A) l : sz (x :: l) = 1 + sz l.
Proof. len. Qed.

Lemma sz_zero_nil {A} (l : list A) : sz l = 0 → l = [].
Proof. destruct l; [done | len]. Qed.

Lemma u32_id z : 0 ≤ z ≤ UINT32_MAX → u32 z = z.
Proof. unfold u32, UINT32_MAX. intros. by apply Z.mod_small; lia. Qed.

Lemma u64_id z : 0 ≤ z ≤ UINT64_MAX → u64 z = z.
Proof. unfold u64, UINT64_MAX. intros. by apply Z.mod_small; lia. Qed.

Lemma u32_range z : 0 ≤ u32 z ≤ UINT32_MAX.
Proof. unfold u32, UINT32_MAX. pose proof (Z.mod_pos_bound z 4294967296). lia. Qed.

Lemma u64_range z : 0 ≤ u64 z ≤ UINT64_MAX.
Proof. unfold u64, UINT64_MAX. pose proof (Z.mod_pos_bound z 18446744073709551616). lia. Qed.

Lemma u32_wrap z : 4294967296 ≤ z < 2 * 4294967296 → z - 4294967296 = u32 z.
Proof. intros. unfold u32. apply (Zmod_unique _ _ 1); lia. Qed.

(** ** Slices of concatenations *)

Lemma slice_app_l (a b : bytes) at_ len :
  0 ≤ at_ → 0 ≤ len → at_ + len ≤ sz a → slice (a ++ b) at_ len = slice a at_ len.
Proof.
  intros. unfold slice, sz in *. rewrite drop_app_le by lia.
  by rewrite take_app_le by (rewrite length_drop; lia).
Qed.

Lemma slice_app_r (a b : bytes) at_ len :
  sz a ≤ at_ → slice (a ++ b) at_ len = slice b (at_ - sz a) len.
Proof.
  intros. unfold slice, sz in *. rewrite drop_app_ge by lia.
  do 2 f_equal. lia.
Qed.

Lemma slice_all (a : bytes) : slice a 0 (sz a) = a.
Proof. unfold slice, sz. rewrite drop_0. by apply take_ge; lia. Qed.

Lemma slice_prefix (a b : bytes) n : n = sz a → slice (a ++ b) 0 n = a.
Proof. intros ->. by rewrite slice_app_l, slice_all by (pose proof (sz_nonneg a); lia). Qed.

Lemma slice_suffix (a b : bytes) at_ n : at_ = sz a → n = sz b → slice (a ++ b) at_ n = b.
Proof. intros -> ->. by rewrite slice_app_r, Z.sub_diag, slice_all by lia. Qed.

Lemma slice_mid (a b c : bytes) at_ n : at_ = sz a → n = sz b → slice (a ++ b ++ c) at_ n = b.
Proof. intros -> ->. by rewrite slice_app_r, Z.sub_diag, slice_prefix by lia. Qed.

Lemma sz_slice (a : bytes) at_ n :
  0 ≤ at_ → 0 ≤ n → at_ + n ≤ sz a → sz (slice a at_ n) = n.
Proof. intros. len. Qed.

Lemma slice_slice (a : bytes) at1 n1 at2 n2 :
  0 ≤ at1 → 0 ≤ at2 → 0 ≤ n2 → at2 + n2 ≤ n1 →
  slice (slice a at1 n1) at2 n2 = slice a (at1 + at2) n2.
Proof.
  intros. unfold slice. rewrite skipn_firstn_comm, take_take, drop_drop.
  f_equal; [lia | f_equal; lia].
Qed.

Lemma slice_split (a : bytes) at_ n m :
  0 ≤ at_ → 0 ≤ n → 0 ≤ m → slice a at_ (n + m) = slice a at_ n ++ slice a (at_ + n) m.
Proof.
  intros. unfold slice. rewrite !Z2Nat.inj_add by lia.
  rewrite <-drop_drop, take_take_drop. done.
Qed.

Lemma splice_prefix (a b c : bytes) n : n = sz a → sz b ≤ sz c →
  splice (a ++ c) n b = a ++ b ++ drop (length b) c.
Proof.
  intros -> ?. unfold splice, sz in *. rewrite Nat2Z.id, take_app_length.
  by rewrite <-drop_drop, drop_app_length.
Qed.

(** * The order of keys

    [std::string] and [std::string_view] compare with [memcmp] on the common
    prefix and then by length: the lexicographic order of unsigned bytes. *)

Fixpoint ltb (a b : bytes) : bool :=
  match a, b with
  | _, [] => false
  | [], _ :: _ => true
  | x :: a, y :: b =>
      if byte.unsigned x <? byte.unsigned y then true
      else if byte.unsigned y <? byte.unsigned x then false
      else ltb a b
  end.

(** [a <= b] is [!(b < a)]. *)
Definition leb (a b : bytes) : bool := negb (ltb b a).

Definition key_eqb (a b : bytes) : bool := bool_decide (a = b).

Lemma ltb_irrefl a : ltb a a = false.
Proof. induction a as [|x a IH]; simpl; [done|]. by rewrite Z.ltb_irrefl. Qed.

Lemma ltb_trans a b c : ltb a b = true → ltb b c = true → ltb a c = true.
Proof.
  revert b c. induction a as [|x a IH]; intros [|y b] [|z c]; simpl; try done.
  destruct (Z.ltb_spec (byte.unsigned x) (byte.unsigned y)),
    (Z.ltb_spec (byte.unsigned y) (byte.unsigned x)),
    (Z.ltb_spec (byte.unsigned y) (byte.unsigned z)),
    (Z.ltb_spec (byte.unsigned z) (byte.unsigned y)),
    (Z.ltb_spec (byte.unsigned x) (byte.unsigned z)),
    (Z.ltb_spec (byte.unsigned z) (byte.unsigned x)); try done; try lia.
  apply IH.
Qed.

Lemma ltb_total a b : ltb a b = false → ltb b a = false → a = b.
Proof.
  revert b. induction a as [|x a IH]; intros [|y b]; simpl; try done.
  destruct (Z.ltb_spec (byte.unsigned x) (byte.unsigned y)),
    (Z.ltb_spec (byte.unsigned y) (byte.unsigned x)); try done; try lia.
  intros. f_equal; [apply byte.unsigned_inj; lia | by apply IH].
Qed.

(** Keys as a total order, for the [order] decision procedure. *)
Module KeyOrder <: EqLtLe.
Definition t := bytes.
Definition eq := @Logic.eq bytes.
Definition lt (a b : bytes) : Prop := ltb a b = true.
Definition le (a b : bytes) : Prop := ltb b a = false.
End KeyOrder.

Module KeyOrderFacts <: IsTotalOrder KeyOrder.
Definition eq_equiv : Equivalence KeyOrder.eq := eq_equivalence.
Lemma lt_strorder : StrictOrder KeyOrder.lt.
Proof.
  split; [intros a H; unfold KeyOrder.lt in H; by rewrite ltb_irrefl in H | exact ltb_trans].
Qed.
Lemma lt_compat : Proper (KeyOrder.eq ==> KeyOrder.eq ==> iff) KeyOrder.lt.
Proof. by intros ? ? -> ? ? ->. Qed.
Lemma le_lteq a b : KeyOrder.le a b ↔ KeyOrder.lt a b ∨ KeyOrder.eq a b.
Proof.
  unfold KeyOrder.le, KeyOrder.lt, KeyOrder.eq. split.
  - intros. destruct (ltb a b) eqn:E; [by left | right; by apply ltb_total].
  - intros [?| ->]; [|apply ltb_irrefl].
    destruct (ltb b a) eqn:E; [|done].
    rewrite <-(ltb_irrefl a). symmetry. by eapply ltb_trans.
Qed.
Lemma lt_total a b : KeyOrder.lt a b ∨ KeyOrder.eq a b ∨ KeyOrder.lt b a.
Proof.
  unfold KeyOrder.lt, KeyOrder.eq. destruct (ltb a b) eqn:E1; [by left|].
  destruct (ltb b a) eqn:E2; [by right; right|]. right; left. by apply ltb_total.
Qed.
End KeyOrderFacts.

Module KeyOrderTac := !MakeOrderTac KeyOrder KeyOrderFacts.

Abbreviation klt := KeyOrder.lt.
Abbreviation kle := KeyOrder.le.

(** Decides goals over [klt], [kle] and equality of keys. *)
Ltac korder :=
  repeat match goal with
  | H : leb _ _ = true |- _ => apply negb_true_iff in H
  | H : leb _ _ = false |- _ => apply negb_false_iff in H
  | |- leb _ _ = true => apply negb_true_iff
  | |- leb _ _ = false => apply negb_false_iff
  end;
  repeat match goal with
  | H : ltb ?a ?b = true |- _ => change (klt a b) in H
  | H : ltb ?a ?b = false |- _ => change (kle b a) in H
  | H : ~ (ltb ?a ?b = true) |- _ => change (~ klt a b) in H
  | |- ltb ?a ?b = true => change (klt a b)
  | |- ltb ?a ?b = false => change (kle b a)
  end; change (@Logic.eq bytes) with KeyOrder.eq in *; KeyOrderTac.order.

#[export] Instance klt_dec a b : Decision (klt a b).
Proof. unfold klt. apply _. Defined.
#[export] Instance kle_dec a b : Decision (kle a b).
Proof. unfold kle. apply _. Defined.

Lemma klt_trans a b c : klt a b → klt b c → klt a c.
Proof. intros. korder. Qed.

#[export] Instance klt_transitive : Transitive klt.
Proof. intros a b c. apply klt_trans. Qed.

Lemma klt_irrefl a : ¬ klt a a.
Proof. intros ?. korder. Qed.

Lemma ltb_spec a b : BoolSpec (klt a b) (kle b a) (ltb a b).
Proof. destruct (ltb a b) eqn:E; by constructor. Qed.

(** * [std::lower_bound]

    The binary search of the standard library, on a range of [len] elements from
    [first] on, with [comp] the partially applied comparison "element < value". *)

Section LowerBound.
Context {A : Type} (comp : A → bool).

Fixpoint lower_bound_loop (fuel : nat) (l : list A) (first len : nat) : nat :=
  match fuel with
  | O => first
  | S fuel =>
      match len with
      | O => first
      | _ =>
          let half := Nat.div2 len in
          match l !! (first + half)%nat with
          | Some x =>
              if comp x then lower_bound_loop fuel l (first + half + 1) (len - half - 1)
              else lower_bound_loop fuel l first half
          | None => first
          end
      end
  end.

Definition lower_bound (l : list A) : nat := lower_bound_loop (S (length l)) l 0 (length l).

Lemma lower_bound_loop_spec l1 l2 fuel first n :
  Forall (λ x, comp x = true) l1 → Forall (λ x, comp x = false) l2 →
  (first ≤ length l1)%nat → (length l1 ≤ first + n)%nat →
  (first + n ≤ length (l1 ++ l2))%nat → (n < fuel)%nat →
  lower_bound_loop fuel (l1 ++ l2) first n = length l1.
Proof.
  intros H1 H2. revert first n.
  induction fuel as [|fuel IH]; intros first n Hf Hn Hb Hfuel; [lia|]. simpl.
  destruct n as [|n]; [lia|].
  assert (Hhalf : (Nat.div2 (S n) < S n)%nat) by (apply Nat.lt_div2; lia).
  set (half := Nat.div2 (S n)) in *.
  destruct (lookup_lt_is_Some_2 (l1 ++ l2) (first + half)) as [x Hx]; [lia|].
  rewrite Hx. destruct (decide (first + half < length l1)%nat) as [Hlt|Hge].
  - rewrite lookup_app_l in Hx by done.
    rewrite (Forall_lookup_1 _ _ _ _ H1 Hx). apply IH; lia.
  - rewrite lookup_app_r in Hx by lia.
    rewrite (Forall_lookup_1 _ _ _ _ H2 Hx). apply IH; lia.
Qed.

(** On a partitioned range the binary search returns the partition point. *)
Lemma lower_bound_partition l1 l2 :
  Forall (λ x, comp x = true) l1 → Forall (λ x, comp x = false) l2 →
  lower_bound (l1 ++ l2) = length l1.
Proof. intros. apply lower_bound_loop_spec; auto; rewrite ?length_app; lia. Qed.
End LowerBound.

(** [lower_bound] on a range strictly sorted by [f]: the split it finds. *)
Lemma lower_bound_sorted {A} (f : A → bytes) (l : list A) (k : bytes) :
  StronglySorted (λ a b, klt (f a) (f b)) l →
  ∃ l1 l2, l = l1 ++ l2 ∧ lower_bound (λ a, ltb (f a) k) l = length l1 ∧
    Forall (λ a, klt (f a) k) l1 ∧ Forall (λ a, kle k (f a)) l2.
Proof.
  intros Hs.
  assert (∃ l1 l2, l = l1 ++ l2 ∧
    Forall (λ a, klt (f a) k) l1 ∧ Forall (λ a, kle k (f a)) l2) as (l1 & l2 & -> & H1 & H2).
  { induction Hs as [|x l Hs IH Hx].
    - exists [], []. by repeat constructor.
    - destruct IH as (l1 & l2 & -> & H1 & H2). destruct (ltb_spec (f x) k).
      + exists (x :: l1), l2. by repeat constructor.
      + exists [], (x :: l1 ++ l2). split_and!; [done|constructor|].
        constructor; [done|]. eapply Forall_impl; [exact Hx|].
        intros b Hb. simpl in Hb. korder. }
  exists l1, l2. split_and!; [done| |done|done].
  apply lower_bound_partition; [done|].
  eapply Forall_impl; [exact H2|]. intros a Ha. exact Ha.
Qed.

(** [std::binary_search] on a range of integers. *)
Definition binary_search (l : list Z) (v : Z) : bool :=
  match l !! lower_bound (λ x, x <? v) l with
  | Some x => negb (v <? x)
  | None => false
  end.

(** [std::sort]. *)
Definition std_sort (l : list Z) : list Z := merge_sort Z.le l.

(** Sorting a duplicate-free enumeration of a strictly sorted list gives the list. *)
Lemma std_sort_enum (l ids : list Z) : NoDup l → (∀ x, x ∈ l ↔ x ∈ ids) →
  StronglySorted Z.lt ids → std_sort l = ids.
Proof.
  intros Hl He Hs. unfold std_sort.
  assert (Hle : StronglySorted Z.le ids).
  { clear -Hs. induction Hs as [|x l Hs IH Hall]; constructor; [done|].
    eapply Forall_impl; [exact Hall|]. intros y Hy. simpl in Hy. lia. }
  assert (Hnd : NoDup ids).
  { clear -Hs. induction Hs as [|x l Hs IH Hall]; constructor; [|done]. intros Hin.
    rewrite Forall_forall in Hall. specialize (Hall _ Hin). lia. }
  apply (StronglySorted_unique Z.le); [by apply StronglySorted_merge_sort; apply _|done|].
  rewrite merge_sort_Permutation. by apply NoDup_Permutation.
Qed.

Lemma NoDup_omap {A B} (f : A → option B) (l : list A) : NoDup l →
  (∀ x y a, x ∈ l → y ∈ l → f x = Some a → f y = Some a → x = y) → NoDup (omap f l).
Proof.
  intros Hl Hinj. induction Hl as [|x l Hx Hl IH]; [constructor|]. simpl.
  assert (Hrest : NoDup (omap f l)) by (apply IH; intros; eapply Hinj; eauto using list_elem_of_further).
  destruct (f x) as [a|] eqn:E; [|done]. constructor; [|done].
  intros (y & Hy & E2)%list_elem_of_omap. apply Hx.
  by rewrite (Hinj x y a) by eauto using list_elem_of_here, list_elem_of_further.
Qed.

Lemma elem_of_concat {A} (x : A) (ls : list (list A)) : x ∈ concat ls ↔ ∃ l, l ∈ ls ∧ x ∈ l.
Proof.
  induction ls as [|l ls IH]; simpl.
  - split; [by intros ?%elem_of_nil|by intros (l & ?%elem_of_nil & _)].
  - rewrite elem_of_app, IH. setoid_rewrite elem_of_cons. naive_solver.
Qed.
