(* ===== verification/Status.v ===== *)
(** Status and Result: [include/kvstore/status.hpp], [include/kvstore/result.hpp].

    Errors are values.  A fallible pure function returns a [result]: a value, a
    failed [Status], or [Stuck], which marks an execution the C++ standard gives
    no meaning to (an index outside the buffer) and exhausted loop fuel.  A
    theorem that a function is never [Stuck] is therefore at once a memory-safety
    and a termination theorem. *)

From S2P Require Import Prelude.

(** [enum class StatusCode]. *)
Inductive StatusCode : Type :=
| COk | NotFound | IOError | Corruption | InvalidArgument.

#[export] Instance StatusCode_eq_dec : EqDecision StatusCode.
Proof. solve_decision. Defined.

(** [class Status]. *)
Record Status : Type := mkStatus { code_ : StatusCode; message_ : bytes }.

#[export] Instance Status_eq_dec : EqDecision Status.
Proof. solve_decision. Defined.

Definition ok : Status := mkStatus COk [].
Definition not_found (m : bytes) : Status := mkStatus NotFound m.
Definition io_error (m : bytes) : Status := mkStatus IOError m.
Definition corruption (m : bytes) : Status := mkStatus Corruption m.
Definition invalid_argument (m : bytes) : Status := mkStatus InvalidArgument m.

Definition is_ok (s : Status) : bool := bool_decide (code_ s = COk).

(** [Status::code_to_string]. *)
Definition code_to_string (c : StatusCode) : bytes :=
  match c with
  | COk => lit "OK"
  | NotFound => lit "NotFound"
  | IOError => lit "IOError"
  | Corruption => lit "Corruption"
  | InvalidArgument => lit "InvalidArgument"
  end.

(** [Status::to_string]. *)
Definition to_string (s : Status) : bytes :=
  match message_ s with
  | [] => code_to_string (code_ s)
  | m => code_to_string (code_ s) ++ lit ": " ++ m
  end.

(** [Result<T>], with [Stuck] for undefined behaviour. *)
Inductive result (A : Type) : Type :=
| ROk (a : A)
| RErr (s : Status)
| Stuck.
Arguments ROk {A} a.
Arguments RErr {A} s.
Arguments Stuck {A}.

#[export] Instance result_ret : MRet result := λ A a, ROk a.
#[export] Instance result_bind : MBind result := λ A B f m,
  match m with ROk a => f a | RErr s => RErr s | Stuck => Stuck end.

(** A check that returns a failed status when the condition holds
    ([if (cond) return Status::...;]). *)
Definition fail_if (c : bool) (s : Status) : result unit :=
  if c then RErr s else ROk tt.

(** A memory access that is defined only when [c] holds. *)
Definition require {A} (c : bool) (a : A) : result A :=
  if c then ROk a else Stuck.

(** A run with no undefined behaviour that fails only with code [c]. *)
Definition safe {A} (c : StatusCode) (r : result A) : Prop :=
  match r with ROk _ => True | RErr s => code_ s = c | Stuck => False end.

Lemma bind_ok_inv {A B} (m : result A) (f : A → result B) b :
  m ≫= f = ROk b → ∃ a, m = ROk a ∧ f a = ROk b.
Proof. destruct m; simpl; [by eauto|done|done]. Qed.

Lemma fail_if_ok_inv c s u : fail_if c s = ROk u → c = false.
Proof. by destruct c. Qed.

Lemma require_true {A} (c : bool) (a : A) : c = true → require c a = ROk a.
Proof. by intros ->. Qed.

Lemma require_ok_inv {A} (c : bool) (a b : A) : require c a = ROk b → c = true ∧ a = b.
Proof. destruct c; simpl; by intros; simplify_eq. Qed.

(** Decomposes a successful run of a [result] computation into its steps. *)
Ltac rinv :=
  repeat match goal with
  | H : (_ ≫= _) = ROk _ |- _ => apply bind_ok_inv in H as (? & ? & ?)
  | H : fail_if _ _ = ROk _ |- _ => apply fail_if_ok_inv in H
  | H : require _ _ = ROk _ |- _ => apply require_ok_inv in H as [? ?]
  | H : ROk _ = ROk _ |- _ => injection H as H
  | H : mret _ = ROk _ |- _ => injection H as H
  end; subst.

(** * Safety of composed computations *)

Lemma safe_ok {A} c (a : A) : safe c (ROk a).
Proof. done. Qed.

Lemma safe_err {A} c s : code_ s = c → safe c (RErr (A:=A) s).
Proof. done. Qed.

Lemma safe_fail_if c b s : code_ s = c → safe c (fail_if b s).
Proof. by destruct b. Qed.

Lemma safe_require {A} c (b : bool) (a : A) : b = true → safe c (require b a).
Proof. by intros ->. Qed.

Lemma safe_bind {A B} c (m : result A) (f : A → result B) :
  safe c m → (∀ a, m = ROk a → safe c (f a)) → safe c (m ≫= f).
Proof. destruct m; simpl; [by eauto|done|done]. Qed.

Create HintDb safe.
#[export] Hint Resolve safe_ok : safe.
#[export] Hint Extern 1 (safe _ (RErr _)) => apply safe_err; reflexivity : safe.
#[export] Hint Extern 1 (safe _ (fail_if _ _)) => apply safe_fail_if; reflexivity : safe.

(** Walks a computation step by step, keeping what each step established. *)
Ltac safe_step :=
  match goal with
  | |- safe _ (_ ≫= _) => apply safe_bind; [|intros ? ?; cbv beta zeta]
  | |- safe _ (if ?b then _ else _) => destruct b eqn:?
  | |- safe _ _ => solve [auto with safe]
  end.
Ltac safe := repeat safe_step.

(** Turns the boolean tests in the hypotheses into arithmetic facts. *)
Ltac arith_hyps :=
  repeat match goal with
  | H : fail_if _ _ = ROk _ |- _ => apply fail_if_ok_inv in H
  | H : (_ <? _) = true |- _ => apply Z.ltb_lt in H
  | H : (_ <? _) = false |- _ => apply Z.ltb_ge in H
  | H : (_ <=? _) = true |- _ => apply Z.leb_le in H
  | H : (_ <=? _) = false |- _ => apply Z.leb_gt in H
  | H : (_ =? _) = true |- _ => apply Z.eqb_eq in H
  | H : (_ =? _) = false |- _ => apply Z.eqb_neq in H
  | H : negb _ = false |- _ => apply negb_false_iff in H
  | H : negb _ = true |- _ => apply negb_true_iff in H
  | H : (_ || _) = false |- _ => apply orb_false_iff in H as [? ?]
  | H : (_ && _) = true |- _ => apply andb_true_iff in H as [? ?]
  end.
