(* ===== verification/FileNames.v ===== *)
(** File names: [include/kvstore/file_names.hpp].

    A file's name is its id; recovery decides what belongs to the database by
    parsing names, so printing and parsing have to agree. *)

From S2P Require Import Prelude.

Definition kLogSuffix : bytes := lit ".log".
Definition kHintSuffix : bytes := lit ".hint".
Definition kTableSuffix : bytes := lit ".sst".
Definition kWalSuffix : bytes := lit ".wal".
Definition kTempSuffix : bytes := lit ".tmp".
Definition kManifestName : bytes := lit "MANIFEST".
Definition kFileIdDigits : Z := 6.
Definition kFirstFileId : Z := 1.

(** [std::to_string] of an unsigned integer: its decimal digits, at most twenty of
    them for 64 bits. *)
Fixpoint to_string_loop (fuel : nat) (n : Z) (acc : bytes) : bytes :=
  match fuel with
  | O => acc
  | S fuel =>
      let acc := byte.of_Z (48 + n mod 10) :: acc in
      if n / 10 =? 0 then acc else to_string_loop fuel (n / 10) acc
  end.
Definition std_to_string (n : Z) : bytes := to_string_loop 20 n [].

Module detail.

(** [detail::pad_file_id]. *)
Definition pad_file_id (id : Z) : bytes :=
  let digits := std_to_string id in
  if sz digits <? kFileIdDigits
  then replicate (Z.to_nat (kFileIdDigits - sz digits)) (byte.of_Z 48) ++ digits
  else digits.

(** The digit loop of [detail::parse_id_with_suffix]. *)
Fixpoint parse_digits (id : Z) (digits : bytes) : option Z :=
  match digits with
  | [] => Some id
  | c :: digits =>
      let c := byte.unsigned c in
      if (c <? 48) || (57 <? c) then None
      else
        let id := u64 (u64 (id * 10) + (c - 48)) in
        if UINT32_MAX <? id then None else parse_digits id digits
  end.

(** [detail::parse_id_with_suffix]. *)
Definition parse_id_with_suffix (filename suffix : bytes) : option Z :=
  if sz filename <=? sz suffix then None
  else if negb (key_eqb (drop (Z.to_nat (sz filename - sz suffix)) filename) suffix) then None
  else
    id ← parse_digits 0 (take (Z.to_nat (sz filename - sz suffix)) filename);
    if id <? kFirstFileId then None else Some id.

End detail.

Definition log_file_name (id : Z) : bytes := detail.pad_file_id id ++ kLogSuffix.
Definition hint_file_name (id : Z) : bytes := detail.pad_file_id id ++ kHintSuffix.
Definition sst_file_name (id : Z) : bytes := detail.pad_file_id id ++ kTableSuffix.
Definition wal_file_name (id : Z) : bytes := detail.pad_file_id id ++ kWalSuffix.
Definition temp_name (final_name : bytes) : bytes := final_name ++ kTempSuffix.

Definition parse_log_file_id (filename : bytes) : option Z :=
  detail.parse_id_with_suffix filename kLogSuffix.
Definition parse_hint_file_id (filename : bytes) : option Z :=
  detail.parse_id_with_suffix filename kHintSuffix.
Definition parse_sst_file_id (filename : bytes) : option Z :=
  detail.parse_id_with_suffix filename kTableSuffix.
Definition parse_wal_file_id (filename : bytes) : option Z :=
  detail.parse_id_with_suffix filename kWalSuffix.

(** [is_temp_name]. *)
Definition is_temp_name (filename : bytes) : bool :=
  if sz filename <=? sz kTempSuffix then false
  else if negb (key_eqb (drop (Z.to_nat (sz filename - sz kTempSuffix)) filename) kTempSuffix)
  then false
  else
    let stem := take (Z.to_nat (sz filename - sz kTempSuffix)) filename in
    key_eqb stem kManifestName || bool_decide (is_Some (parse_log_file_id stem)) ||
    bool_decide (is_Some (parse_hint_file_id stem)) ||
    bool_decide (is_Some (parse_sst_file_id stem)) ||
    bool_decide (is_Some (parse_wal_file_id stem)).

(** * Printing and parsing agree *)

(** The ids a file can have. *)
Definition valid_id (id : Z) : Prop := kFirstFileId ≤ id ≤ UINT32_MAX.

Lemma parse_digit_step id n rest : 0 ≤ id → 0 ≤ n < 10 → id * 10 + n ≤ UINT32_MAX →
  detail.parse_digits id (byte.of_Z (48 + n) :: rest) = detail.parse_digits (id * 10 + n) rest.
Proof.
  intros Hid Hn Hle. cbn [detail.parse_digits]. rewrite byte.unsigned_of_Z. unfold byte.wrap.
  rewrite Z.mod_small by lia.
  rewrite (proj2 (Z.ltb_ge _ 48)), (proj2 (Z.ltb_ge 57 _)) by lia. simpl orb. cbv iota.
  unfold UINT32_MAX in *. rewrite (u64_id (id * 10)), u64_id by (unfold UINT64_MAX; lia).
  rewrite (proj2 (Z.ltb_ge _ _)) by lia. f_equal. lia.
Qed.

Lemma parse_to_string fuel n rest : 0 ≤ n ≤ UINT32_MAX → n < 10 ^ Z.of_nat fuel →
  detail.parse_digits 0 (to_string_loop fuel n rest) = detail.parse_digits n rest.
Proof.
  revert n rest. induction fuel as [|fuel IH]; intros n rest Hn Hf.
  { replace n with 0 by (simpl in Hf; lia). done. }
  cbn [to_string_loop]. pose proof (Z.mod_pos_bound n 10 eq_refl).
  pose proof (Z.div_mod n 10 ltac:(done)).
  destruct (Z.eqb_spec (n / 10) 0) as [E|E].
  - rewrite parse_digit_step by lia. f_equal. lia.
  - rewrite IH.
    + rewrite parse_digit_step by lia. f_equal. lia.
    + lia.
    + rewrite Nat2Z.inj_succ, Z.pow_succ_r in Hf by lia. lia.
Qed.

Lemma parse_zeros k rest :
  detail.parse_digits 0 (replicate k (byte.of_Z 48) ++ rest) = detail.parse_digits 0 rest.
Proof. induction k as [|k IH]; [done|]. simpl replicate. rewrite <-app_comm_cons. exact IH. Qed.

Lemma parse_pad id : 0 ≤ id ≤ UINT32_MAX →
  detail.parse_digits 0 (detail.pad_file_id id) = Some id.
Proof.
  intros Hid. unfold detail.pad_file_id, std_to_string.
  assert (E : detail.parse_digits 0 (to_string_loop 20 id []) = Some id).
  { rewrite parse_to_string; [done|done|]. unfold UINT32_MAX in *. lia. }
  destruct (_ <? _); [by rewrite parse_zeros|done].
Qed.

Lemma to_string_nonempty fuel n acc : (0 < length acc)%nat → (0 < length (to_string_loop fuel n acc))%nat.
Proof.
  revert n acc. induction fuel as [|fuel IH]; intros n acc Hl; [done|]. cbn [to_string_loop].
  destruct (_ =? _); [simpl; lia|]. apply IH. simpl. lia.
Qed.

Lemma pad_nonempty id : 0 < sz (detail.pad_file_id id).
Proof.
  unfold detail.pad_file_id. unfold kFileIdDigits.
  destruct (Z.ltb_spec (sz (std_to_string id)) 6) as [Hlt|]; [|lia].
  rewrite sz_app. pose proof (sz_nonneg (std_to_string id)). unfold sz at 1. rewrite length_replicate. lia.
Qed.

Lemma parse_suffix_app digits suffix id : 0 < sz digits →
  detail.parse_digits 0 digits = Some id → kFirstFileId ≤ id →
  detail.parse_id_with_suffix (digits ++ suffix) suffix = Some id.
Proof.
  intros Hd Hp Hid. unfold detail.parse_id_with_suffix.
  rewrite (proj2 (Z.leb_gt _ _)) by (rewrite sz_app; lia).
  rewrite sz_app. replace (sz digits + sz suffix - sz suffix) with (sz digits) by lia.
  unfold sz. rewrite Nat2Z.id, drop_app_length, take_app_length.
  unfold key_eqb. rewrite bool_decide_eq_true_2 by done. simpl negb. cbv iota.
  rewrite Hp. simpl. by rewrite (proj2 (Z.ltb_ge _ _)).
Qed.

(** A name that parses ends in the suffix, behind digits only. *)
Lemma parse_suffix_inv filename suffix id : detail.parse_id_with_suffix filename suffix = Some id →
  ∃ digits, filename = digits ++ suffix ∧ detail.parse_digits 0 digits = Some id ∧ kFirstFileId ≤ id.
Proof.
  unfold detail.parse_id_with_suffix. destruct (Z.leb_spec (sz filename) (sz suffix)); [done|].
  unfold key_eqb. destruct (bool_decide_reflect (drop (Z.to_nat (sz filename - sz suffix)) filename = suffix))
    as [E|]; [|done].
  simpl negb. cbv iota. destruct (detail.parse_digits 0 _) as [id'|] eqn:Hp; [|done]. simpl.
  destruct (Z.ltb_spec id' kFirstFileId); [done|]. intros [= <-].
  exists (take (Z.to_nat (sz filename - sz suffix)) filename). split_and!; [|done|done].
  rewrite <-E at 2. by rewrite take_drop.
Qed.

Lemma parse_other_suffix a s1 s2 x y : last s1 = Some x → last s2 = Some y → x ≠ y →
  detail.parse_id_with_suffix (a ++ s1) s2 = None.
Proof.
  intros H1 H2 Hne. destruct (detail.parse_id_with_suffix _ _) as [id|] eqn:E; [|done]. exfalso.
  apply parse_suffix_inv in E as (digits & E & _). apply (f_equal last) in E.
  rewrite !last_app, H1, H2 in E. congruence.
Qed.

Lemma parse_log_name id : valid_id id → parse_log_file_id (log_file_name id) = Some id.
Proof.
  intros [? ?]. apply parse_suffix_app; [apply pad_nonempty| |done].
  apply parse_pad. unfold kFirstFileId in *. lia.
Qed.

Lemma parse_hint_name id : valid_id id → parse_hint_file_id (hint_file_name id) = Some id.
Proof.
  intros [? ?]. apply parse_suffix_app; [apply pad_nonempty| |done].
  apply parse_pad. unfold kFirstFileId in *. lia.
Qed.

Lemma parse_sst_name id : valid_id id → parse_sst_file_id (sst_file_name id) = Some id.
Proof.
  intros [? ?]. apply parse_suffix_app; [apply pad_nonempty| |done].
  apply parse_pad. unfold kFirstFileId in *. lia.
Qed.

Lemma parse_wal_name id : valid_id id → parse_wal_file_id (wal_file_name id) = Some id.
Proof.
  intros [? ?]. apply parse_suffix_app; [apply pad_nonempty| |done].
  apply parse_pad. unfold kFirstFileId in *. lia.
Qed.

(** A name in progress is not a name of the database. *)
Lemma parse_temp name suffix y : last suffix = Some y → Byte.x70 ≠ y →
  detail.parse_id_with_suffix (temp_name name) suffix = None.
Proof. intros. by apply (parse_other_suffix name kTempSuffix suffix Byte.x70 y). Qed.

Lemma parse_log_temp name : parse_log_file_id (temp_name name) = None.
Proof. by eapply parse_temp; [reflexivity|]. Qed.
Lemma parse_hint_temp name : parse_hint_file_id (temp_name name) = None.
Proof. by eapply parse_temp; [reflexivity|]. Qed.
Lemma parse_sst_temp name : parse_sst_file_id (temp_name name) = None.
Proof. by eapply parse_temp; [reflexivity|]. Qed.
Lemma parse_wal_temp name : parse_wal_file_id (temp_name name) = None.
Proof. by eapply parse_temp; [reflexivity|]. Qed.

Lemma parse_log_hint id : parse_log_file_id (hint_file_name id) = None.
Proof. by eapply (parse_other_suffix _ kHintSuffix); [reflexivity|reflexivity|]. Qed.
Lemma parse_hint_log id : parse_hint_file_id (log_file_name id) = None.
Proof. by eapply (parse_other_suffix _ kLogSuffix); [reflexivity|reflexivity|]. Qed.
Lemma parse_sst_wal id : parse_sst_file_id (wal_file_name id) = None.
Proof. by eapply (parse_other_suffix _ kWalSuffix); [reflexivity|reflexivity|]. Qed.
Lemma parse_wal_sst id : parse_wal_file_id (sst_file_name id) = None.
Proof. by eapply (parse_other_suffix _ kTableSuffix); [reflexivity|reflexivity|]. Qed.

(** Which names [is_temp_name] claims. *)
Lemma is_temp_name_temp stem : 0 < sz stem → is_temp_name (temp_name stem) =
  key_eqb stem kManifestName || bool_decide (is_Some (parse_log_file_id stem)) ||
  bool_decide (is_Some (parse_hint_file_id stem)) ||
  bool_decide (is_Some (parse_sst_file_id stem)) ||
  bool_decide (is_Some (parse_wal_file_id stem)).
Proof.
  intros Hs. unfold is_temp_name, temp_name. rewrite sz_app.
  rewrite (proj2 (Z.leb_gt _ _)) by lia.
  replace (sz stem + sz kTempSuffix - sz kTempSuffix) with (sz stem) by lia.
  assert (Htake : take (Z.to_nat (sz stem)) (stem ++ kTempSuffix) = stem)
    by (unfold sz; by rewrite Nat2Z.id, take_app_length).
  assert (Hdrop : drop (Z.to_nat (sz stem)) (stem ++ kTempSuffix) = kTempSuffix)
    by (unfold sz; by rewrite Nat2Z.id, drop_app_length).
  rewrite Htake, Hdrop. unfold key_eqb at 1. by rewrite (bool_decide_eq_true_2 (kTempSuffix = kTempSuffix)).
Qed.

Lemma is_temp_name_inv name : is_temp_name name = true → ∃ stem, name = temp_name stem.
Proof.
  unfold is_temp_name. destruct (_ <=? _); [done|]. unfold key_eqb at 1.
  destruct (bool_decide_reflect (drop (Z.to_nat (sz name - sz kTempSuffix)) name = kTempSuffix))
    as [E|]; [|done].
  intros _. exists (take (Z.to_nat (sz name - sz kTempSuffix)) name).
  pose proof (take_drop (Z.to_nat (sz name - sz kTempSuffix)) name) as Hsplit.
  rewrite E in Hsplit. by symmetry.
Qed.

Lemma is_temp_name_log id : is_temp_name (log_file_name id) = false.
Proof.
  destruct (is_temp_name _) eqn:E; [|done]. apply is_temp_name_inv in E as [stem E].
  apply (f_equal last) in E. unfold log_file_name, temp_name in E. by rewrite !last_app in E.
Qed.

Lemma hint_log_name_ne i j : hint_file_name i ≠ log_file_name j.
Proof.
  intros E. apply (f_equal last) in E. unfold hint_file_name, log_file_name in E.
  by rewrite !last_app in E.
Qed.

Lemma is_temp_name_hint id : is_temp_name (hint_file_name id) = false.
Proof.
  destruct (is_temp_name _) eqn:E; [|done]. apply is_temp_name_inv in E as [stem E].
  apply (f_equal last) in E. unfold hint_file_name, temp_name in E. by rewrite !last_app in E.
Qed.

Lemma hint_file_name_inj id1 id2 : valid_id id1 → valid_id id2 →
  hint_file_name id1 = hint_file_name id2 → id1 = id2.
Proof. intros H1 H2 E. apply (f_equal parse_hint_file_id) in E. rewrite !parse_hint_name in E by done. congruence. Qed.

Lemma log_file_name_inj id1 id2 : valid_id id1 → valid_id id2 →
  log_file_name id1 = log_file_name id2 → id1 = id2.
Proof. intros H1 H2 E. apply (f_equal parse_log_file_id) in E. rewrite !parse_log_name in E by done. congruence. Qed.

Lemma is_temp_name_known stem : 0 < sz stem →
  stem = kManifestName ∨ is_Some (parse_log_file_id stem) ∨ is_Some (parse_hint_file_id stem) ∨
  is_Some (parse_sst_file_id stem) ∨ is_Some (parse_wal_file_id stem) →
  is_temp_name (temp_name stem) = true.
Proof.
  intros Hs Hn. rewrite is_temp_name_temp by done. rewrite !orb_true_iff.
  unfold key_eqb. rewrite !bool_decide_eq_true. tauto.
Qed.

Lemma sz_named id suffix : 0 < sz (detail.pad_file_id id ++ suffix).
Proof. rewrite sz_app. pose proof (pad_nonempty id). pose proof (sz_nonneg suffix). lia. Qed.

(** Every file name the engines write parses back to the id it was made from,
    under its own suffix; the name of a file still being written parses under no
    suffix and is recognised as such. *)
Theorem file_names_roundtrip id : valid_id id →
  parse_log_file_id (log_file_name id) = Some id ∧
  parse_hint_file_id (hint_file_name id) = Some id ∧
  parse_sst_file_id (sst_file_name id) = Some id ∧
  parse_wal_file_id (wal_file_name id) = Some id ∧
  Forall (λ name, is_temp_name (temp_name name) = true ∧
      parse_log_file_id (temp_name name) = None ∧ parse_hint_file_id (temp_name name) = None ∧
      parse_sst_file_id (temp_name name) = None ∧ parse_wal_file_id (temp_name name) = None)
    [log_file_name id; hint_file_name id; sst_file_name id; wal_file_name id; kManifestName].
Proof.
  intros Hid. split_and!; [by apply parse_log_name|by apply parse_hint_name
    |by apply parse_sst_name|by apply parse_wal_name|].
  assert (Hall : ∀ name, 0 < sz name →
    name = kManifestName ∨ is_Some (parse_log_file_id name) ∨ is_Some (parse_hint_file_id name) ∨
    is_Some (parse_sst_file_id name) ∨ is_Some (parse_wal_file_id name) →
    is_temp_name (temp_name name) = true ∧
      parse_log_file_id (temp_name name) = None ∧ parse_hint_file_id (temp_name name) = None ∧
      parse_sst_file_id (temp_name name) = None ∧ parse_wal_file_id (temp_name name) = None).
  { intros name Hs Hn. split_and!; [|apply parse_log_temp|apply parse_hint_temp
      |apply parse_sst_temp|apply parse_wal_temp]. by apply is_temp_name_known. }
  rewrite !Forall_cons. split_and!; [..|by apply Forall_nil]; apply Hall;
    rewrite ?parse_log_name, ?parse_hint_name, ?parse_sst_name, ?parse_wal_name by done;
    first [apply sz_named | by eauto 8 | by vm_compute].
Qed.

Lemma file_names_roundtrip_witness :
  parse_log_file_id (lit "000042.log") = Some 42 ∧ is_temp_name (lit "000042.log.tmp") = true.
Proof.
  destruct (file_names_roundtrip 42) as (Hl & _ & _ & _ & Ht); [split; by vm_compute|].
  split; [exact Hl|]. inversion Ht as [|? ? [Hx _]]. exact Hx.
Defined.
