(* ===== verification/World.v ===== *)
(** The outside world: [src/platform_file.hpp], [src/platform_file.cpp], and the
    parts of [<filesystem>] the engines call.

    One database directory, its files by name, and a script of what the operating
    system does at each call: succeed, fail, transfer fewer bytes than asked, or
    never return because the process dies there.  A theorem that quantifies over
    the script covers every fault and every crash point.  When the script has run
    out, calls succeed.

    A file remembers how much of it has been forced to the device ([fsync]).

    Methods of a C++ object with state [S] are computations [M S A]: they read and
    update the object and the world, and end by returning a value, by returning a
    failed [Status] (with the object and the world as they are then), by the death
    of the process (only the world remains), or stuck in undefined behaviour. *)

From S2P Require Import Prelude Status.

(** Code that is not part of the repository: zlib, and the text of [errno]. *)
Class Platform := {
  zlib_crc32_init : Z;                (* crc32(0L, Z_NULL, 0) *)
  zlib_crc32 : Z → bytes → Z;         (* crc32(crc, buf, len) *)
  os_error_text : bytes;              (* strerror of the last failed call *)
}.

(** An instance to evaluate examples with: CRC-32 as zlib documents it (the
    reflected polynomial 0xEDB88320, initial and final complement). *)
Definition crc32_bit (c : Z) : Z :=
  if Z.odd c then Z.lxor (Z.shiftr c 1) 3988292384 else Z.shiftr c 1.

Definition crc32_byte (c : Z) (b : byte) : Z :=
  Nat.iter 8 crc32_bit (Z.lxor c (byte.unsigned b)).

Definition reference_platform : Platform := {|
  zlib_crc32_init := 0;
  zlib_crc32 := λ c bs, Z.lxor (foldl crc32_byte (Z.lxor c 4294967295) bs) 4294967295;
  os_error_text := lit "Input/output error"
|}.

(** The check value published for CRC-32. *)
Example reference_crc32_check :
  @zlib_crc32 reference_platform 0 (lit "123456789") = 3421780262.
Proof. vm_compute. reflexivity. Qed.

(** What the operating system does at one call. *)
Inductive event : Type :=
| EvOk
| EvFail
| EvShort (n : nat)
| EvCrash.

Record file : Type := mkFile { f_data : bytes; f_synced : nat }.

Record World : Type := mkWorld {
  w_files : gmap bytes file;
  w_script : list event;
  w_times : list Z;   (* successive readings of the system clock *)
}.

Inductive out (S A : Type) : Type :=
| Ok (a : A) (s : S) (w : World)
| Err (e : Status) (s : S) (w : World)
| Died (w : World)
| MStuck.
Arguments Ok {S A} a s w.
Arguments Err {S A} e s w.
Arguments Died {S A} w.
Arguments MStuck {S A}.

Definition M (S A : Type) : Type := S → World → out S A.

#[export] Instance M_ret S : MRet (M S) := λ A a s w, Ok a s w.
#[export] Instance M_bind S : MBind (M S) := λ A B f m s w,
  match m s w with
  | Ok a s' w' => f a s' w'
  | Err e s' w' => Err e s' w'
  | Died w' => Died w'
  | MStuck => MStuck
  end.

(** [return status;] *)
Definition fail {S A : Type} (e : Status) : M S A := λ s w, Err e s w.
Definition get {S : Type} : M S S := λ s w, Ok s s w.
Definition put {S : Type} (s' : S) : M S unit := λ _ w, Ok tt s' w.
Definition modify {S : Type} (f : S → S) : M S unit := λ s w, Ok tt (f s) w.
Definition stuck {S A : Type} : M S A := λ _ _, MStuck.
Definition fail_when {S : Type} (c : bool) (e : Status) : M S unit := if c then fail e else mret tt.

(** A pure fallible computation as a method body. *)
Definition liftR {S A : Type} (r : result A) : M S A := λ s w,
  match r with ROk a => Ok a s w | RErr e => Err e s w | Stuck => MStuck end.

(** Runs [m] and hands its status to the continuation instead of returning it
    ([auto r = m(); if (!r.is_ok()) ...]). *)
Definition attempt {S A : Type} (m : M S A) : M S (A + Status) := λ s w,
  match m s w with
  | Ok a s' w' => Ok (inl a) s' w'
  | Err e s' w' => Ok (inr e) s' w'
  | Died w' => Died w'
  | MStuck => MStuck
  end.

(** A method of a member object: [get_] reads the member, [set_] stores it. *)
Definition zoom {S T A : Type} (get_ : S → T) (set_ : T → S → S) (m : M T A) : M S A := λ s w,
  match m (get_ s) w with
  | Ok a t w' => Ok a (set_ t s) w'
  | Err e t w' => Err e (set_ t s) w'
  | Died w' => Died w'
  | MStuck => MStuck
  end.

(** A call on a fresh local object [t]; the object is handed back. *)
Definition with_local {S T A : Type} (t : T) (m : M T A) : M S (A * T) := λ s w,
  match m t w with
  | Ok a t' w' => Ok (a, t') s w'
  | Err e _ w' => Err e s w'
  | Died w' => Died w'
  | MStuck => MStuck
  end.

(** A static function, or a method that leaves its object alone. *)
Definition static {S A : Type} (m : M unit A) : M S A := λ s w,
  match m tt w with
  | Ok a _ w' => Ok a s w'
  | Err e _ w' => Err e s w'
  | Died w' => Died w'
  | MStuck => MStuck
  end.

(** * System calls *)

Definition set_files (f : gmap bytes file → gmap bytes file) (w : World) : World :=
  mkWorld (f (w_files w)) (w_script w) (w_times w).

(** The next event; a crash ends the run. *)
Definition next_event {S : Type} : M S event := λ s w,
  match w_script w with
  | [] => Ok EvOk s w
  | EvCrash :: _ => Died w
  | e :: rest => Ok e s (mkWorld (w_files w) rest (w_times w))
  end.

Definition files {S : Type} : M S (gmap bytes file) := λ s w, Ok (w_files w) s w.
Definition update_files {S : Type} (f : gmap bytes file → gmap bytes file) : M S unit :=
  λ s w, Ok tt s (set_files f w).

(** [now_nanos()]. *)
Definition now_nanos {S : Type} : M S Z := λ s w,
  match w_times w with
  | [] => Ok 0 s w
  | t :: rest => Ok (u64 t) s (mkWorld (w_files w) (w_script w) rest)
  end.

Module platform.

(** [platform::open_read_write]: creates what it cannot find. True on success. *)
Definition open_read_write {S : Type} (path : bytes) : M S bool :=
  e ← next_event;
  match e with
  | EvFail => mret false
  | _ =>
      update_files (λ fs, match fs !! path with
                          | Some _ => fs
                          | None => <[path := mkFile [] 0]> fs
                          end);;
      mret true
  end.

(** [platform::file_size], -1 on failure. *)
Definition file_size {S : Type} (path : bytes) : M S Z :=
  e ← next_event;
  match e with
  | EvFail => mret (-1)
  | _ => fs ← files; mret (match fs !! path with Some f => sz (f_data f) | None => -1 end)
  end.

(** [platform::close_fd]: 0 or -1. *)
Definition close_fd {S : Type} (path : bytes) : M S Z :=
  e ← next_event; mret (match e with EvFail => -1 | _ => 0 end).

(** [platform::pread_at]: at most [count] bytes from [offset] on, none at or past
    the end of the file; [None] is -1. *)
Definition pread_at {S : Type} (path : bytes) (count offset : Z) : M S (option bytes) :=
  e ← next_event;
  fs ← files;
  match fs !! path with
  | None => mret None
  | Some f =>
      match e with
      | EvFail => mret None
      | EvShort n => mret (Some (slice (f_data f) offset (Z.min count (Z.max 1 (Z.of_nat n)))))
      | _ => mret (Some (slice (f_data f) offset count))
      end
  end.

(** What a write of [bs] at [offset] leaves in the file; bytes between the end of
    the file and [offset] read as zero. *)
Definition write_data (data : bytes) (offset : Z) (bs : bytes) : bytes :=
  splice (data ++ zeros (offset - sz data)) offset bs.

Definition write_file (f : file) (offset : Z) (bs : bytes) : file :=
  mkFile (write_data (f_data f) offset bs) (Nat.min (f_synced f) (Z.to_nat offset)).

(** [platform::pwrite_at]: the number of bytes written, possibly fewer than asked;
    -1 on failure. *)
Definition pwrite_at {S : Type} (path : bytes) (bs : bytes) (offset : Z) : M S Z :=
  e ← next_event;
  fs ← files;
  match fs !! path with
  | None => mret (-1)
  | Some f =>
      match e with
      | EvFail => mret (-1)
      | EvShort n =>
          update_files <[path := write_file f offset (take n bs)]>;;
          mret (sz (take n bs))
      | _ => update_files <[path := write_file f offset bs]>;; mret (sz bs)
      end
  end.

(** [platform::fsync_fd]. *)
Definition fsync_fd {S : Type} (path : bytes) : M S Z :=
  e ← next_event;
  match e with
  | EvFail => mret (-1)
  | _ => update_files (alter (λ f, mkFile (f_data f) (length (f_data f))) path);; mret 0
  end.

Definition truncate_file (length_ : Z) (f : file) : file :=
  mkFile (take (Z.to_nat length_) (f_data f) ++ zeros (length_ - sz (f_data f)))
         (Nat.min (f_synced f) (Z.to_nat length_)).

(** [platform::ftruncate_fd] (only ever to a length within the file). *)
Definition ftruncate_fd {S : Type} (path : bytes) (length_ : Z) : M S Z :=
  e ← next_event;
  match e with
  | EvFail => mret (-1)
  | _ =>
      update_files (alter (truncate_file length_) path);;
      mret 0
  end.

(** [platform::sync_directory]. *)
Definition sync_directory {S : Type} : M S Z :=
  e ← next_event; mret (match e with EvFail => -1 | _ => 0 end).

(** [platform::rename_file]: atomic, replaces the destination. *)
Definition rename_file {S : Type} (from to : bytes) : M S Z :=
  e ← next_event;
  fs ← files;
  match e, fs !! from with
  | EvFail, _ | _, None => mret (-1)
  | _, Some f => update_files (λ fs, <[to := f]> (delete from fs));; mret 0
  end.

(** [std::filesystem::remove(path, ec)]: true when [ec] is set. Removing what is
    not there is not an error. *)
Definition remove {S : Type} (path : bytes) : M S bool :=
  e ← next_event;
  match e with
  | EvFail => mret true
  | _ => update_files (delete path);; mret false
  end.

(** [std::filesystem::exists(path, ec)]: false on an error. *)
Definition exists_ {S : Type} (path : bytes) : M S bool :=
  e ← next_event;
  fs ← files;
  mret (match e, fs !! path with EvFail, _ => false | _, Some _ => true | _, None => false end).

(** [std::filesystem::file_size(path, ec)]: [None] when [ec] is set. *)
Definition path_size {S : Type} (path : bytes) : M S (option Z) :=
  e ← next_event;
  fs ← files;
  mret (match e, fs !! path with
        | EvFail, _ | _, None => None
        | _, Some f => Some (sz (f_data f))
        end).

(** [platform::map_readonly]: the bytes of the mapping, [None] for -1.  What is
    mapped here is never written again, so the view is the bytes it has now. *)
Definition map_readonly {S : Type} (path : bytes) (size : Z) : M S (option bytes) :=
  if size =? 0 then mret None
  else
    e ← next_event;
    fs ← files;
    mret (match e, fs !! path with
          | EvFail, _ | _, None => None
          | _, Some f => Some (slice (f_data f) 0 size)
          end).

(** [platform::unmap] and [platform::advise_random] of a valid mapping. *)
Definition unmap {S : Type} : M S Z :=
  e ← next_event; mret (match e with EvFail => -1 | _ => 0 end).
Definition advise_random {S : Type} : M S Z :=
  e ← next_event; mret (match e with EvFail => -1 | _ => 0 end).

(** A full pass of [std::filesystem::directory_iterator]: the names in the
    directory, in no particular order, or [None] when [ec] is set. *)
Definition list_directory {S : Type} : M S (option (list bytes)) :=
  e ← next_event;
  fs ← files;
  mret (match e with EvFail => None | _ => Some (map_to_list fs).*1 end).

End platform.
