(* ===== verification/Wp.v ===== *)
(** Reasoning about methods: weakest preconditions over every outcome.

    [wp m s w Q E D] says that running [m] on object [s] in world [w] has no
    undefined behaviour and ends in [Q] when it returns a value, in [E] when it
    returns a failed status, and in [D] when the process dies.  A world is [quiet]
    when nothing is scripted any more, and [reliable] when no call fails although
    transfers may be short and the process may still die at any call.  Both are preserved by every call, a
    specification says of each error whether it needs an unreliable world, and the
    process only dies in a world that is not quiet: one specification gives the
    behaviour under every fault, the behaviour under crashes alone, and the success
    of an undisturbed run. *)

From S2P Require Import Prelude Status World.

Definition quiet (w : World) : Prop := w_script w = [].

Definition reliable (w : World) : Prop := Forall (λ e, e ≠ EvFail ∧ e ≠ EvShort 0) (w_script w).

Lemma quiet_reliable w : quiet w → reliable w.
Proof. unfold quiet, reliable. intros ->. constructor. Qed.

Definition calm (w w' : World) : Prop := (quiet w → quiet w') ∧ (reliable w → reliable w').

#[export] Instance calm_preorder : PreOrder calm.
Proof. split; unfold calm; [intros ?; done | intros ? ? ? [] []; split; auto]. Qed.

Lemma calm_quiet w w' : calm w w' → quiet w → quiet w'.
Proof. by intros [? _]. Qed.
Lemma calm_reliable w w' : calm w w' → reliable w → reliable w'.
Proof. by intros [_ ?]. Qed.
Lemma calm_unreliable w w' : calm w w' → ¬ reliable w' → ¬ reliable w.
Proof. intros [_ ?]. tauto. Qed.
Lemma calm_disturbed w w' : calm w w' → ¬ quiet w' → ¬ quiet w.
Proof. intros [? _]. tauto. Qed.

Definition wp {S A : Type} (m : M S A) (s : S) (w : World)
    (Q : A → S → World → Prop) (E : Status → S → World → Prop) (D : World → Prop) : Prop :=
  match m s w with
  | Ok a s' w' => calm w w' ∧ Q a s' w'
  | Err e s' w' => calm w w' ∧ E e s' w'
  | Died w' => ¬ quiet w ∧ D w'
  | MStuck => False
  end.

Create HintDb wp.
#[export] Hint Extern 1 (calm _ _) => exact (conj (λ Hq, Hq) (λ Hq, Hq)) : wp.
#[export] Hint Resolve quiet_reliable calm_unreliable calm_disturbed calm_reliable calm_quiet : wp.

Section rules.
Context {S A : Type}.
Implicit Types (s : S) (w : World).

Lemma wp_ret (a : A) s w Q E D : Q a s w → wp (mret a) s w Q E D.
Proof. by split. Qed.

Lemma wp_fail e s w (Q : A → S → World → Prop) E D : E e s w → wp (fail e) s w Q E D.
Proof. by split. Qed.

Lemma wp_bind {B} (m : M S A) (f : A → M S B) s w Q1 E1 D1 Q E (D : World → Prop) :
  wp m s w Q1 E1 D1 →
  (∀ a s1 w1, calm w w1 → Q1 a s1 w1 → wp (f a) s1 w1 Q E D) →
  (∀ e s1 w1, calm w w1 → E1 e s1 w1 → E e s1 w1) →
  (∀ w1, ¬ quiet w → D1 w1 → D w1) →
  wp (m ≫= f) s w Q E D.
Proof.
  unfold wp, mbind, M_bind. intros Hm Hf HE HD.
  destruct (m s w) as [a s1 w1|e s1 w1|w1|]; [| |naive_solver|done].
  - destruct Hm as [Hc Hq]. specialize (Hf a s1 w1 Hc Hq).
    destruct (f a s1 w1); [| | |done].
    + destruct Hf. split; [by etrans|done].
    + destruct Hf. split; [by etrans|done].
    + destruct Hf. split; [by eapply calm_disturbed|done].
  - destruct Hm as [Hc He]. split; [done|]. by apply HE.
Qed.

Lemma wp_mono (m : M S A) s w Q1 (E1 : Status → S → World → Prop) (D1 : World → Prop) Q E D :
  wp m s w Q1 E1 D1 →
  (∀ a s1 w1, calm w w1 → Q1 a s1 w1 → Q a s1 w1) →
  (∀ e s1 w1, calm w w1 → E1 e s1 w1 → E e s1 w1) →
  (∀ w1, ¬ quiet w → D1 w1 → D w1) →
  wp m s w Q E D.
Proof. unfold wp. destruct (m s w); naive_solver. Qed.

Lemma wp_modify (f : S → S) s w (Q : unit → S → World → Prop) E D :
  Q tt (f s) w → wp (modify f) s w Q E D.
Proof. by split. Qed.

Lemma wp_get s w (Q : S → S → World → Prop) E D : Q s s w → wp get s w Q E D.
Proof. by split. Qed.

Lemma wp_put s' s w (Q : unit → S → World → Prop) E D : Q tt s' w → wp (put s') s w Q E D.
Proof. by split. Qed.

Lemma wp_fail_when c e s w (Q : unit → S → World → Prop) (E : Status → S → World → Prop) D :
  (c = true → E e s w) → (c = false → Q tt s w) → wp (fail_when c e) s w Q E D.
Proof. destruct c; split; auto with wp. Qed.

Lemma wp_liftR (r : result A) s w (Q : A → S → World → Prop) (E : Status → S → World → Prop) D :
  match r with ROk a => Q a s w | RErr e => E e s w | Stuck => False end →
  wp (liftR r) s w Q E D.
Proof. unfold wp, liftR. destruct r; [by split|by split|done]. Qed.

Lemma wp_attempt (m : M S A) s w Q E (D : World → Prop) :
  wp m s w (λ a s' w', Q (inl a) s' w') (λ e s' w', Q (inr e) s' w') D →
  wp (attempt m) s w Q E D.
Proof. unfold wp, attempt. by destruct (m s w). Qed.

Lemma wp_zoom {T} (g : S → T) (st : T → S → S) (m : M T A) s w Q E (D : World → Prop) :
  wp m (g s) w (λ a t w', Q a (st t s) w') (λ e t w', E e (st t s) w') D →
  wp (zoom g st m) s w Q E D.
Proof. unfold wp, zoom. by destruct (m (g s) w). Qed.

Lemma wp_with_local {T} (t : T) (m : M T A) s w Q E (D : World → Prop) :
  wp m t w (λ a t' w', Q (a, t') s w') (λ e _ w', E e s w') D →
  wp (with_local t m) s w Q E D.
Proof. unfold wp, with_local. by destruct (m t w). Qed.

Lemma wp_static (m : M unit A) s w Q E (D : World → Prop) :
  wp m tt w (λ a _ w', Q a s w') (λ e _ w', E e s w') D →
  wp (static m) s w Q E D.
Proof. unfold wp, static. by destruct (m tt w). Qed.

(** Binds whose first step needs no specification. *)
Lemma wp_bind_ret {B} (a : B) (f : B → M S A) s w Q E D :
  wp (f a) s w Q E D → wp (mret a ≫= f) s w Q E D.
Proof. done. Qed.

Lemma wp_bind_eq {B} (m : M S B) (k : B → M S A) a s s' w Q E D : m s w = Ok a s' w →
  wp (k a) s' w Q E D → wp (m ≫= k) s w Q E D.
Proof. intros Em. unfold wp, mbind, M_bind. by rewrite Em. Qed.

Lemma wp_bind_get (f : S → M S A) s w Q E D :
  wp (f s) s w Q E D → wp (get ≫= f) s w Q E D.
Proof. done. Qed.

Lemma wp_bind_put s' (f : unit → M S A) s w Q E D :
  wp (f tt) s' w Q E D → wp (put s' ≫= f) s w Q E D.
Proof. done. Qed.

Lemma wp_bind_modify g (f : unit → M S A) s w Q E D :
  wp (f tt) (g s) w Q E D → wp (modify g ≫= f) s w Q E D.
Proof. done. Qed.

Lemma wp_bind_fail {B} e (f : B → M S A) s w Q (E : Status → S → World → Prop) D :
  E e s w → wp (fail e ≫= f) s w Q E D.
Proof. by split. Qed.

Lemma wp_bind_assoc {B C} (m : M S B) (g : B → M S C) (f : C → M S A) s w Q E D :
  wp (m ≫= λ b, g b ≫= f) s w Q E D → wp ((m ≫= g) ≫= f) s w Q E D.
Proof. unfold wp, mbind, M_bind. by destruct (m s w). Qed.

Lemma wp_bind_assoc_rev {B C} (m : M S B) (g : B → M S C) (f : C → M S A) s w Q E D :
  wp ((m ≫= g) ≫= f) s w Q E D → wp (m ≫= λ b, g b ≫= f) s w Q E D.
Proof. unfold wp, mbind, M_bind. by destruct (m s w). Qed.

(** Two computations with the same outcome here are interchangeable here. *)
Lemma wp_bind_run {B} (m m' : M S B) (f : B → M S A) s w Q E D : m s w = m' s w →
  wp (m' ≫= f) s w Q E D → wp (m ≫= f) s w Q E D.
Proof. unfold wp, mbind, M_bind. by intros ->. Qed.

Lemma wp_bind_fail_when c e (f : unit → M S A) s w Q (E : Status → S → World → Prop) D :
  (c = true → E e s w) → (c = false → wp (f tt) s w Q E D) →
  wp (fail_when c e ≫= f) s w Q E D.
Proof. destruct c; intros HE HQ; [split; auto with wp | by apply HQ]. Qed.

Lemma wp_bind_ok {B} (b : B) (f : B → M S A) s w Q E D :
  wp (f b) s w Q E D → wp (liftR (ROk b) ≫= f) s w Q E D.
Proof. done. Qed.

Lemma wp_bind_err {B} e (f : B → M S A) s w Q (E : Status → S → World → Prop) D :
  E e s w → wp (liftR (RErr e) ≫= f) s w Q E D.
Proof. by split. Qed.

Lemma wp_bind_attempt_ok {B} (b : B) (f : B + Status → M S A) s w Q E D :
  wp (f (inl b)) s w Q E D → wp (attempt (liftR (ROk b)) ≫= f) s w Q E D.
Proof. done. Qed.

Lemma wp_bind_attempt_err {B} e (f : B + Status → M S A) s w Q E D :
  wp (f (inr e)) s w Q E D → wp (attempt (liftR (RErr e)) ≫= f) s w Q E D.
Proof. done. Qed.

(** A fault-free run of a method that only fails under faults returns. *)
Lemma wp_quiet (m : M S A) s w Q (E : Status → S → World → Prop) (D : World → Prop) :
  wp m s w Q E D → quiet w → (∀ e s' w', ¬ E e s' w') →
  ∃ a s' w', m s w = Ok a s' w' ∧ quiet w' ∧ Q a s' w'.
Proof.
  unfold wp. destruct (m s w) as [a s' w'|e s' w'|w'|]; intros Hm Hq HE; [|naive_solver|naive_solver|done].
  destruct Hm as [Hc HQ]. eauto 10 with wp.
Qed.

End rules.

Section combinators.
Context {S A : Type}.
Implicit Types (s : S) (w : World).

(** Binds through the combinators. *)
Lemma wp_bind_attempt {B} (m : M S B) (k : B + Status → M S A) s w Q1 E1 D1 Q E (D : World → Prop) :
  wp m s w Q1 E1 D1 →
  (∀ a s1 w1, calm w w1 → Q1 a s1 w1 → wp (k (inl a)) s1 w1 Q E D) →
  (∀ e s1 w1, calm w w1 → E1 e s1 w1 → wp (k (inr e)) s1 w1 Q E D) →
  (∀ w1, ¬ quiet w → D1 w1 → D w1) →
  wp (attempt m ≫= k) s w Q E D.
Proof.
  intros Hm Hok Herr Hd.
  eapply (wp_bind _ _ _ _ (λ r s1 w1, match r with inl a => Q1 a s1 w1 | inr e => E1 e s1 w1 end)
    (λ _ _ _, False) D1); [by apply wp_attempt| |done|done].
  intros [a|e] s1 w1 Hc Hr; auto.
Qed.

Lemma wp_bind_local {T B} (t : T) (m : M T B) (k : B * T → M S A) s w Q1 E1 D1 Q
    (E : Status → S → World → Prop) (D : World → Prop) :
  wp m t w Q1 E1 D1 →
  (∀ a t1 w1, calm w w1 → Q1 a t1 w1 → wp (k (a, t1)) s w1 Q E D) →
  (∀ e t1 w1, calm w w1 → E1 e t1 w1 → E e s w1) →
  (∀ w1, ¬ quiet w → D1 w1 → D w1) →
  wp (with_local t m ≫= k) s w Q E D.
Proof.
  intros Hm Hok Herr Hd.
  eapply (wp_bind _ _ _ _ (λ r s1 w1, s1 = s ∧ Q1 r.1 r.2 w1)
    (λ e s1 w1, s1 = s ∧ ∃ t1, E1 e t1 w1) D1);
    [apply wp_with_local; eapply wp_mono; [done|naive_solver..]| | |done].
  - intros [a t1] s1 w1 Hc [-> Hr]. auto.
  - intros e s1 w1 Hc [-> [t1 Hr]]. eauto.
Qed.

Lemma wp_bind_attempt_local {T B} (t : T) (m : M T B) (k : (B * T) + Status → M S A) s w Q1 E1 D1
    Q E (D : World → Prop) :
  wp m t w Q1 E1 D1 →
  (∀ a t1 w1, calm w w1 → Q1 a t1 w1 → wp (k (inl (a, t1))) s w1 Q E D) →
  (∀ e t1 w1, calm w w1 → E1 e t1 w1 → wp (k (inr e)) s w1 Q E D) →
  (∀ w1, ¬ quiet w → D1 w1 → D w1) →
  wp (attempt (with_local t m) ≫= k) s w Q E D.
Proof.
  intros Hm Hok Herr Hd.
  eapply (wp_bind_attempt _ _ _ _ (λ r s1 w1, s1 = s ∧ Q1 r.1 r.2 w1)
    (λ e s1 w1, s1 = s ∧ ∃ t1, E1 e t1 w1) D1);
    [apply wp_with_local; eapply wp_mono; [done|naive_solver..]| | |done].
  - intros [a t1] s1 w1 Hc [-> Hr]. auto.
  - intros e s1 w1 Hc [-> [t1 Hr]]. eauto.
Qed.

Lemma wp_bind_zoom {T B} (g : S → T) (st : T → S → S) (m : M T B) (k : B → M S A) s w Q1 E1 D1 Q
    (E : Status → S → World → Prop) (D : World → Prop) :
  wp m (g s) w Q1 E1 D1 →
  (∀ a t1 w1, calm w w1 → Q1 a t1 w1 → wp (k a) (st t1 s) w1 Q E D) →
  (∀ e t1 w1, calm w w1 → E1 e t1 w1 → E e (st t1 s) w1) →
  (∀ w1, ¬ quiet w → D1 w1 → D w1) →
  wp (zoom g st m ≫= k) s w Q E D.
Proof.
  intros Hm Hok Herr Hd. apply (wp_bind _ _ _ _
    (λ a s1 w1, ∃ t1, s1 = st t1 s ∧ Q1 a t1 w1) (λ e s1 w1, ∃ t1, s1 = st t1 s ∧ E1 e t1 w1) D1).
  - apply wp_zoom. eapply wp_mono; [done|..]; eauto.
  - intros a s1 w1 Hc (t1 & -> & Hr). auto.
  - intros e s1 w1 Hc (t1 & -> & Hr). eauto.
  - done.
Qed.

Lemma wp_bind_attempt_zoom {T B} (g : S → T) (st : T → S → S) (m : M T B) (k : B + Status → M S A) s w Q1 E1 D1 Q
    E (D : World → Prop) :
  wp m (g s) w Q1 E1 D1 →
  (∀ b t w', calm w w' → Q1 b t w' → wp (k (inl b)) (st t s) w' Q E D) →
  (∀ e t w', calm w w' → E1 e t w' → wp (k (inr e)) (st t s) w' Q E D) →
  (∀ w', ¬ quiet w → D1 w' → D w') →
  wp (attempt (zoom g st m) ≫= k) s w Q E D.
Proof.
  intros Hm Hok Herr Hd. apply (wp_bind_attempt _ _ _ _
    (λ a s1 w1, ∃ t1, s1 = st t1 s ∧ Q1 a t1 w1) (λ e s1 w1, ∃ t1, s1 = st t1 s ∧ E1 e t1 w1) D1).
  - apply wp_zoom. eapply wp_mono; [done|..]; eauto.
  - intros a s1 w1 Hc (t1 & -> & Hr). auto.
  - intros e s1 w1 Hc (t1 & -> & Hr). eauto.
  - done.
Qed.

End combinators.

(** * System calls *)

(** What a call leaves alone. *)
Definition same_files (w w' : World) : Prop := w_files w' = w_files w ∧ w_times w' = w_times w.

Definition files_are (fs : gmap bytes file) (w w' : World) : Prop :=
  w_files w' = fs ∧ w_times w' = w_times w.

#[export] Instance same_files_preorder : PreOrder same_files.
Proof. split; [done|]. intros w1 w2 w3 [H1 H2] [H3 H4]. split; congruence. Qed.

(** Only the file [path] may have changed. *)
Definition touched (path : bytes) (w w' : World) : Prop :=
  ∀ name, name ≠ path → w_files w' !! name = w_files w !! name.

#[export] Instance touched_preorder path : PreOrder (touched path).
Proof.
  split; [by intros w name|]. intros w1 w2 w3 H1 H2 name Hne. by rewrite H2, H1.
Qed.

Lemma touched_insert path w w' f : w_files w' = <[path := f]> (w_files w) → touched path w w'.
Proof. intros E name Hne. by rewrite E, lookup_insert_ne. Qed.

Lemma touched_same path w w' : same_files w w' → touched path w w'.
Proof. intros [E _] name _. by rewrite E. Qed.

#[export] Hint Resolve touched_insert touched_same : wp.

Section syscalls.
Context {S : Type}.
Implicit Types (s : S) (w : World).

Lemma wp_next_event s w :
  wp next_event s w
    (λ e s' w', s' = s ∧ same_files w w' ∧ e ≠ EvCrash ∧
      (reliable w → e ≠ EvFail ∧ e ≠ EvShort 0))
    (λ _ _ _, False) (λ w', w' = w).
Proof.
  unfold wp, next_event, same_files, calm, reliable, quiet.
  destruct w as [fs [|[]] ts]; simpl; split_and?; try done; rewrite Forall_cons;
    by intros [[??] ?].
Qed.

Lemma wp_now_nanos s w :
  wp now_nanos s w
    (λ t s' w', s' = s ∧ w_files w' = w_files w ∧ 0 ≤ t ≤ UINT64_MAX)
    (λ _ _ _, False) (λ _, False).
Proof.
  unfold wp, now_nanos. destruct (w_times w) as [|t ?]; simpl.
  - by split.
  - pose proof (u64_range t). by split.
Qed.

(** Every call starts by asking what the operating system does. *)
Ltac syscall :=
  eapply wp_bind; [apply wp_next_event| |by intros|by intros; subst];
  let e := fresh "e" in let Hc := fresh "Hc" in
  intros e ? ? Hc (-> & [Hfs Hts] & Hnc & Hok);
  unfold wp, mbind, M_bind, mret, M_ret, files, update_files; cbn beta iota;
  rewrite ?Hfs.

Lemma wp_open_read_write path s w :
  wp (platform.open_read_write path) s w
    (λ ok s' w', s' = s ∧ (reliable w → ok = true) ∧
      files_are (if ok then match w_files w !! path with
                            | Some _ => w_files w
                            | None => <[path := mkFile [] 0]> (w_files w)
                            end else w_files w) w w')
    (λ _ _ _, False) (λ w', w' = w).
Proof.
  unfold platform.open_read_write, files_are. syscall.
  destruct e; simpl; rewrite ?Hfs; split; auto with wp; split_and!; auto; by intros [??]%Hok.
Qed.

Lemma wp_file_size path s w f : w_files w !! path = Some f →
  wp (platform.file_size path) s w
    (λ n s' w', s' = s ∧ same_files w w' ∧ (n = sz (f_data f) ∨ n = -1 ∧ ¬ reliable w))
    (λ _ _ _, False) (λ w', w' = w).
Proof.
  intros Hf. unfold platform.file_size, same_files. syscall.
  destruct e; simpl; rewrite ?Hfs, ?Hf; split; auto with wp; split_and!; auto; right; split; [done|];
    by intros [??]%Hok.
Qed.

Lemma wp_close_fd path s w :
  wp (platform.close_fd path) s w
    (λ n s' w', s' = s ∧ same_files w w' ∧ (n = 0 ∨ n = -1 ∧ ¬ reliable w))
    (λ _ _ _, False) (λ w', w' = w).
Proof.
  unfold platform.close_fd, same_files. syscall.
  destruct e; split; auto with wp; split_and!; auto; right; split; [done|]; by intros [??]%Hok.
Qed.

(** A read returns some bytes of what was asked for, and none only at the end. *)
Lemma wp_pread_at path count offset s w f : w_files w !! path = Some f → 0 < count →
  wp (platform.pread_at path count offset) s w
    (λ r s' w', s' = s ∧ same_files w w' ∧
      match r with
      | Some bs => ∃ n, 0 < n ≤ count ∧ bs = slice (f_data f) offset n
      | None => ¬ reliable w
      end)
    (λ _ _ _, False) (λ w', w' = w).
Proof.
  intros Hf Hpos. unfold platform.pread_at, same_files. syscall. rewrite Hf.
  destruct e as [| |n|]; [| | |done]; split; auto with wp; split_and!; auto.
  - exists count. split_and!; [lia|lia|done].
  - by intros [??]%Hok.
  - eexists. split_and!; [..|done]; lia.
Qed.

Lemma wp_pwrite_at path bs offset s w f : w_files w !! path = Some f →
  wp (platform.pwrite_at path bs offset) s w
    (λ n s' w', s' = s ∧
      (n = -1 ∧ ¬ reliable w ∧ same_files w w' ∨
       ∃ k, n = sz (take k bs) ∧ (reliable w → 0 < sz bs → 0 < n) ∧
         files_are (<[path := platform.write_file f offset (take k bs)]> (w_files w)) w w'))
    (λ _ _ _, False) (λ w', w' = w).
Proof.
  intros Hf. unfold platform.pwrite_at, same_files, files_are. syscall. rewrite Hf.
  destruct e as [| |n|]; [| | |done]; split; auto with wp; split; auto; simpl; rewrite ?Hfs.
  - right. exists (length bs). rewrite !take_ge by lia. done.
  - left. split_and!; auto. by intros [??]%Hok.
  - right. exists n. split_and!; auto. intros [_ Hn]%Hok. unfold sz. rewrite length_take.
    destruct n; [done|lia].
Qed.

Lemma wp_fsync_fd path s w :
  wp (platform.fsync_fd path) s w
    (λ n s' w', s' = s ∧
      (n = 0 ∧ files_are (alter (λ f, mkFile (f_data f) (length (f_data f))) path (w_files w)) w w' ∨
       n = -1 ∧ ¬ reliable w ∧ same_files w w'))
    (λ _ _ _, False) (λ w', w' = w).
Proof.
  unfold platform.fsync_fd, same_files, files_are. syscall.
  destruct e; [| | |done]; simpl; rewrite ?Hfs; split; auto with wp; split; auto.
  right. split_and!; auto. by intros [??]%Hok.
Qed.

Lemma wp_ftruncate_fd path len s w :
  wp (platform.ftruncate_fd path len) s w
    (λ n s' w', s' = s ∧
      (n = 0 ∧ files_are (alter (platform.truncate_file len) path (w_files w)) w w' ∨
       n = -1 ∧ ¬ reliable w ∧ same_files w w'))
    (λ _ _ _, False) (λ w', w' = w).
Proof.
  unfold platform.ftruncate_fd, same_files, files_are. syscall.
  destruct e; [| | |done]; simpl; rewrite ?Hfs; split; auto with wp; split; auto.
  right. split_and!; auto. by intros [??]%Hok.
Qed.

Lemma wp_sync_directory s w :
  wp platform.sync_directory s w
    (λ n s' w', s' = s ∧ same_files w w' ∧ (n = 0 ∨ n = -1 ∧ ¬ reliable w))
    (λ _ _ _, False) (λ w', w' = w).
Proof.
  unfold platform.sync_directory, same_files. syscall.
  destruct e; split; auto with wp; split_and!; auto; right; split; [done|]; by intros [??]%Hok.
Qed.

Lemma wp_rename_file from to s w f : w_files w !! from = Some f →
  wp (platform.rename_file from to) s w
    (λ n s' w', s' = s ∧
      (n = 0 ∧ files_are (<[to := f]> (delete from (w_files w))) w w' ∨
       n = -1 ∧ ¬ reliable w ∧ same_files w w'))
    (λ _ _ _, False) (λ w', w' = w).
Proof.
  intros Hf. unfold platform.rename_file, same_files, files_are. syscall. rewrite Hf.
  destruct e; [| | |done]; simpl; rewrite ?Hfs; split; auto with wp; split; auto.
  right. split_and!; auto. by intros [??]%Hok.
Qed.

Lemma wp_remove path s w :
  wp (platform.remove path) s w
    (λ ec s' w', s' = s ∧
      (ec = false ∧ files_are (delete path (w_files w)) w w' ∨
       ec = true ∧ ¬ reliable w ∧ same_files w w'))
    (λ _ _ _, False) (λ w', w' = w).
Proof.
  unfold platform.remove, same_files, files_are. syscall.
  destruct e; [| | |done]; simpl; rewrite ?Hfs; split; auto with wp; split; auto.
  right. split_and!; auto. by intros [??]%Hok.
Qed.

Lemma wp_exists path s w :
  wp (platform.exists_ path) s w
    (λ b s' w', s' = s ∧ same_files w w' ∧
      (b = bool_decide (is_Some (w_files w !! path)) ∨ b = false ∧ ¬ reliable w))
    (λ _ _ _, False) (λ w', w' = w).
Proof.
  unfold platform.exists_, same_files. syscall.
  assert (∀ f : option file, bool_decide (is_Some f) = match f with Some _ => true | None => false end)
    as Hb by (intros [?|]; [apply bool_decide_eq_true | apply bool_decide_eq_false]; by eauto using is_Some_None).
  rewrite Hb. destruct e; [| | |done]; simpl; split; auto with wp; split_and!; auto.
  right; split; [done|by intros [??]%Hok].
Qed.

Lemma wp_path_size path s w :
  wp (platform.path_size path) s w
    (λ r s' w', s' = s ∧ same_files w w' ∧
      (r = (λ f, sz (f_data f)) <$> w_files w !! path ∨ r = None ∧ ¬ reliable w))
    (λ _ _ _, False) (λ w', w' = w).
Proof.
  unfold platform.path_size, same_files. syscall.
  destruct e, (w_files w !! path) as [f|]; try done; simpl; split; auto with wp; split_and!; auto;
    right; split; [done|by intros [??]%Hok].
Qed.

Lemma wp_map_readonly path size s w f : w_files w !! path = Some f → size ≠ 0 →
  wp (platform.map_readonly path size) s w
    (λ r s' w', s' = s ∧ same_files w w' ∧
      (r = Some (slice (f_data f) 0 size) ∨ r = None ∧ ¬ reliable w))
    (λ _ _ _, False) (λ w', w' = w).
Proof.
  intros Hf Hn. unfold platform.map_readonly, same_files. rewrite (proj2 (Z.eqb_neq _ _) Hn).
  syscall. rewrite Hf. destruct e; [| | |done]; simpl; split; auto with wp; split_and!; auto;
    right; split; [done|by intros [??]%Hok].
Qed.

Lemma wp_unmap s w :
  wp platform.unmap s w
    (λ n s' w', s' = s ∧ same_files w w' ∧ (n = 0 ∨ n = -1 ∧ ¬ reliable w))
    (λ _ _ _, False) (λ w', w' = w).
Proof.
  unfold platform.unmap, same_files. syscall.
  destruct e; split; auto with wp; split_and!; auto; right; split; [done|]; by intros [??]%Hok.
Qed.

Lemma wp_advise_random s w :
  wp platform.advise_random s w
    (λ n s' w', s' = s ∧ same_files w w' ∧ (n = 0 ∨ n = -1 ∧ ¬ reliable w))
    (λ _ _ _, False) (λ w', w' = w).
Proof. apply wp_unmap. Qed.

Lemma wp_list_directory s w :
  wp platform.list_directory s w
    (λ r s' w', s' = s ∧ same_files w w' ∧
      (r = Some (map_to_list (w_files w)).*1 ∨ r = None ∧ ¬ reliable w))
    (λ _ _ _, False) (λ w', w' = w).
Proof.
  unfold platform.list_directory, same_files. syscall.
  destruct e; [| | |done]; simpl; split; auto with wp; split_and!; auto.
  right; split; [done|by intros [??]%Hok].
Qed.

End syscalls.

(** Steps over administrative binds. *)
Ltac wp_pure :=
  repeat (match goal with
  | |- wp (get ≫= _) _ _ _ _ _ => apply wp_bind_get
  | |- wp (put _ ≫= _) _ _ _ _ _ => apply wp_bind_put
  | |- wp (modify _ ≫= _) _ _ _ _ _ => apply wp_bind_modify
  | |- wp (mret _ ≫= _) _ _ _ _ _ => apply wp_bind_ret
  | |- wp (liftR (ROk _) ≫= _) _ _ _ _ _ => apply wp_bind_ok
  | |- wp (attempt (liftR (ROk _)) ≫= _) _ _ _ _ _ => apply wp_bind_attempt_ok
  | |- wp (attempt (liftR (RErr _)) ≫= _) _ _ _ _ _ => apply wp_bind_attempt_err
  | |- wp ((_ ≫= _) ≫= _) _ _ _ _ _ => apply wp_bind_assoc
  | |- wp (let _ := _ in _) _ _ _ _ _ => cbv zeta
  end; cbn beta).

(** Steps through a call whose specification is [lem], leaving the continuation
    and, where they are not immediate, the failure and crash cases. *)
Tactic Notation "wp_call" uconstr(lem) :=
  eapply wp_bind; [eapply lem | cbn beta | try by intros | try by (cbn beta; intros; subst)].
