(* ===== verification/Encoding.v ===== *)
(** Integer codecs: [src/encoding.hpp] (little-endian, the on-disk formats) and
    [src/wire.hpp] (big-endian, the network protocol), with the append helpers of
    [src/sstable.cpp] and [src/manifest.cpp]. *)

From S2P Require Import Prelude Status.

(** [in[i]], defined only inside the span. *)
Definition index (l : bytes) (i : Z) : result Z :=
  if i <? 0 then Stuck
  else match l !! Z.to_nat i with Some b => ROk (byte.unsigned b) | None => Stuck end.

Lemma index_app_r (a b : bytes) i :
  sz a ≤ i → index (a ++ b) i = index b (i - sz a).
Proof.
  intros. unfold index, sz in *. rewrite !(proj2 (Z.ltb_ge _ 0)) by lia.
  rewrite lookup_app_r by lia. by replace (Z.to_nat i - length a)%nat with
    (Z.to_nat (i - Z.of_nat (length a))) by lia.
Qed.

Lemma index_ok (l : bytes) i : 0 ≤ i < sz l → ∃ b, l !! Z.to_nat i = Some b ∧
  index l i = ROk (byte.unsigned b).
Proof.
  intros. unfold index, sz in *. rewrite (proj2 (Z.ltb_ge _ 0)) by lia.
  destruct (lookup_lt_is_Some_2 l (Z.to_nat i)) as [b Hb]; [lia|].
  rewrite Hb. eauto.
Qed.

Lemma index_range (l : bytes) i v : index l i = ROk v → 0 ≤ v ≤ 255.
Proof.
  unfold index. destruct (i <? 0); [done|]. destruct (l !! Z.to_nat i) as [b|]; [|done].
  intros [= <-]. pose proof (byte.unsigned_range b). lia.
Qed.

Lemma index_app_l (a b : bytes) i : i < sz a → index (a ++ b) i = index a i.
Proof.
  intros. unfold index, sz in *. destruct (Z.ltb_spec i 0); [done|].
  by rewrite lookup_app_l by lia.
Qed.

Module encoding.

(** [encoding::put_u32]. *)
Definition put_u32 (out : bytes) (at_ v : Z) : bytes :=
  let out := <[Z.to_nat (at_ + 0) := byte.of_Z v]> out in
  let out := <[Z.to_nat (at_ + 1) := byte.of_Z (Z.shiftr v 8)]> out in
  let out := <[Z.to_nat (at_ + 2) := byte.of_Z (Z.shiftr v 16)]> out in
  <[Z.to_nat (at_ + 3) := byte.of_Z (Z.shiftr v 24)]> out.

(** [encoding::put_u64]. *)
Definition put_u64 (out : bytes) (at_ v : Z) : bytes :=
  foldl (λ out i, <[Z.to_nat (at_ + i) := byte.of_Z (Z.shiftr v (8 * i))]> out)
    out (seqZ 0 8).

(** [encoding::get_u32]. *)
Definition get_u32 (l : bytes) (at_ : Z) : result Z :=
  b0 ← index l (at_ + 0);
  b1 ← index l (at_ + 1);
  b2 ← index l (at_ + 2);
  b3 ← index l (at_ + 3);
  ROk (Z.lor (Z.lor (Z.lor b0 (Z.shiftl b1 8)) (Z.shiftl b2 16)) (Z.shiftl b3 24)).

(** [encoding::get_u64]. *)
Definition get_u64 (l : bytes) (at_ : Z) : result Z :=
  foldl (λ acc i, v ← acc; b ← index l (at_ + i); ROk (Z.lor v (Z.shiftl b (8 * i))))
    (ROk 0) (seqZ 0 8).

End encoding.

Module wire.

(** [wire::put_u32], into a buffer of sufficient size. *)
Definition put_u32 (out : bytes) (at_ v : Z) : bytes :=
  let out := <[Z.to_nat (at_ + 0) := byte.of_Z (Z.shiftr v 24)]> out in
  let out := <[Z.to_nat (at_ + 1) := byte.of_Z (Z.shiftr v 16)]> out in
  let out := <[Z.to_nat (at_ + 2) := byte.of_Z (Z.shiftr v 8)]> out in
  <[Z.to_nat (at_ + 3) := byte.of_Z v]> out.

(** [wire::append_u32]. *)
Definition append_u32 (out : bytes) (v : Z) : bytes :=
  (((out ++ [byte.of_Z (Z.shiftr v 24)]) ++ [byte.of_Z (Z.shiftr v 16)])
    ++ [byte.of_Z (Z.shiftr v 8)]) ++ [byte.of_Z v].

(** [wire::get_u32]. *)
Definition get_u32 (l : bytes) (at_ : Z) : result Z :=
  b0 ← index l (at_ + 0);
  b1 ← index l (at_ + 1);
  b2 ← index l (at_ + 2);
  b3 ← index l (at_ + 3);
  ROk (Z.lor (Z.lor (Z.lor (Z.shiftl b0 24) (Z.shiftl b1 16)) (Z.shiftl b2 8)) b3).

End wire.

(** The helpers [append_u32], [append_u64] and [append_bytes] of the table and
    manifest writers. *)
Definition append_u32 (out : bytes) (v : Z) : bytes :=
  let at_ := sz out in encoding.put_u32 (out ++ zeros 4) at_ v.

Definition append_u64 (out : bytes) (v : Z) : bytes :=
  let at_ := sz out in encoding.put_u64 (out ++ zeros 8) at_ v.

Definition append_bytes (out s : bytes) : bytes := out ++ s.

(** * Closed forms *)

Abbreviation le32 := (le_split 4).
Abbreviation le64 := (le_split 8).

Lemma insert_at_app (a b : bytes) n i x : n = sz a → 0 ≤ i →
  <[Z.to_nat (n + i) := x]> (a ++ b) = a ++ <[Z.to_nat i := x]> b.
Proof.
  intros -> ?. unfold sz. rewrite Z2Nat.inj_add, Nat2Z.id by lia.
  by rewrite insert_app_r.
Qed.

Lemma put_u32_app (a b c : bytes) n v : n = sz a → sz b = 4 →
  encoding.put_u32 (a ++ b ++ c) n v = a ++ le32 v ++ c.
Proof.
  intros -> Hb. destruct b as [|? [|? [|? [|? [|]]]]]; unfold sz in Hb; simpl in Hb; try lia.
  unfold encoding.put_u32. rewrite !insert_at_app by lia.
  unfold le_split. by rewrite !Z.shiftr_shiftr by lia.
Qed.

Lemma put_u64_app (a b c : bytes) n v : n = sz a → sz b = 8 →
  encoding.put_u64 (a ++ b ++ c) n v = a ++ le64 v ++ c.
Proof.
  intros -> Hb.
  destruct b as [|? [|? [|? [|? [|? [|? [|? [|? [|]]]]]]]]]; unfold sz in Hb; simpl in Hb; try lia.
  unfold encoding.put_u64. change (seqZ 0 8) with [0;1;2;3;4;5;6;7]. cbn [foldl].
  rewrite !insert_at_app by lia.
  unfold le_split. rewrite !Z.shiftr_shiftr by lia. by rewrite Z.shiftr_0_r.
Qed.

Lemma le32_u32 v : le32 (u32 v) = le32 v.
Proof. symmetry. apply le_split_mod. Qed.

Lemma append_u32_eq out v : append_u32 out v = out ++ le32 v.
Proof.
  unfold append_u32. rewrite <-(app_nil_r (zeros 4)).
  by rewrite put_u32_app, app_nil_r.
Qed.

Lemma append_u64_eq out v : append_u64 out v = out ++ le64 v.
Proof.
  unfold append_u64. rewrite <-(app_nil_r (zeros 8)).
  by rewrite put_u64_app, app_nil_r.
Qed.

Lemma get_u32_slice l at_ : 0 ≤ at_ → at_ + 4 ≤ sz l →
  encoding.get_u32 l at_ = ROk (le_combine (slice l at_ 4)).
Proof.
  intros. unfold encoding.get_u32.
  destruct (index_ok l (at_ + 0)) as (b0 & E0 & ->); [lia|].
  destruct (index_ok l (at_ + 1)) as (b1 & E1 & ->); [lia|].
  destruct (index_ok l (at_ + 2)) as (b2 & E2 & ->); [lia|].
  destruct (index_ok l (at_ + 3)) as (b3 & E3 & ->); [lia|].
  assert (slice l at_ 4 = [b0; b1; b2; b3]) as ->.
  { unfold slice. rewrite !Z2Nat.inj_add in * by lia. simpl in *.
    rewrite Nat.add_0_r in E0.
    rewrite (drop_S _ _ _ E0), (drop_S _ b1), (drop_S _ b2), (drop_S _ b3);
      [done|..]; rewrite <-?E1, <-?E2, <-?E3; f_equal; lia. }
  simpl. f_equal. unfold le_combine.
  rewrite !Z.shiftl_lor, !Z.shiftl_shiftl, Z.shiftl_0_l, Z.lor_0_r by lia.
  by rewrite !Z.lor_assoc.
Qed.

Lemma get_u64_slice l at_ : 0 ≤ at_ → at_ + 8 ≤ sz l →
  encoding.get_u64 l at_ = ROk (le_combine (slice l at_ 8)).
Proof.
  intros. unfold encoding.get_u64. change (seqZ 0 8) with [0;1;2;3;4;5;6;7]. cbn [foldl].
  destruct (index_ok l (at_ + 0)) as (b0 & E0 & ->); [lia|].
  destruct (index_ok l (at_ + 1)) as (b1 & E1 & ->); [lia|].
  destruct (index_ok l (at_ + 2)) as (b2 & E2 & ->); [lia|].
  destruct (index_ok l (at_ + 3)) as (b3 & E3 & ->); [lia|].
  destruct (index_ok l (at_ + 4)) as (b4 & E4 & ->); [lia|].
  destruct (index_ok l (at_ + 5)) as (b5 & E5 & ->); [lia|].
  destruct (index_ok l (at_ + 6)) as (b6 & E6 & ->); [lia|].
  destruct (index_ok l (at_ + 7)) as (b7 & E7 & ->); [lia|].
  assert (slice l at_ 8 = [b0; b1; b2; b3; b4; b5; b6; b7]) as ->.
  { unfold slice. rewrite !Z2Nat.inj_add in * by lia. simpl in *.
    rewrite Nat.add_0_r in E0.
    rewrite (drop_S _ _ _ E0), (drop_S _ b1), (drop_S _ b2), (drop_S _ b3),
      (drop_S _ b4), (drop_S _ b5), (drop_S _ b6), (drop_S _ b7);
      [done|..]; rewrite <-?E1, <-?E2, <-?E3, <-?E4, <-?E5, <-?E6, <-?E7; f_equal; lia. }
  cbn [mbind result_bind]. f_equal. unfold le_combine.
  rewrite !Z.shiftl_lor, !Z.shiftl_shiftl, Z.shiftl_0_l, Z.lor_0_r by lia.
  rewrite Z.lor_0_l, Z.shiftl_0_r. by rewrite !Z.lor_assoc.
Qed.

Lemma le_combine_le32 v : 0 ≤ v ≤ UINT32_MAX → le_combine (le32 v) = v.
Proof. intros. rewrite le_combine_split. apply Z.mod_small. unfold UINT32_MAX in *. lia. Qed.

Lemma le_combine_le64 v : 0 ≤ v ≤ UINT64_MAX → le_combine (le64 v) = v.
Proof. intros. rewrite le_combine_split. apply Z.mod_small. unfold UINT64_MAX in *. lia. Qed.

Lemma sz_le32 v : sz (le32 v) = 4.
Proof. unfold sz. by rewrite length_le_split. Qed.
Lemma sz_le64 v : sz (le64 v) = 8.
Proof. unfold sz. by rewrite length_le_split. Qed.

(** Reading back, at a known position, what was written. *)
Lemma get_u32_app a b v n : n = sz a → 0 ≤ v ≤ UINT32_MAX →
  encoding.get_u32 (a ++ le32 v ++ b) n = ROk v.
Proof.
  intros -> ?. rewrite get_u32_slice.
  - by rewrite slice_mid, le_combine_le32 by (rewrite ?sz_le32; done).
  - apply sz_nonneg.
  - rewrite !sz_app, sz_le32. pose proof (sz_nonneg b). lia.
Qed.

Lemma get_u64_app a b v n : n = sz a → 0 ≤ v ≤ UINT64_MAX →
  encoding.get_u64 (a ++ le64 v ++ b) n = ROk v.
Proof.
  intros -> ?. rewrite get_u64_slice.
  - by rewrite slice_mid, le_combine_le64 by (rewrite ?sz_le64; done).
  - apply sz_nonneg.
  - rewrite !sz_app, sz_le64. pose proof (sz_nonneg b). lia.
Qed.

Lemma get_u32_range l at_ v : encoding.get_u32 l at_ = ROk v → 0 ≤ v ≤ UINT32_MAX.
Proof.
  intros H. destruct (decide (0 ≤ at_ ∧ at_ + 4 ≤ sz l)) as [[? ?]|Hn].
  - rewrite get_u32_slice in H by done. injection H as <-.
    assert (length (slice l at_ 4) = 4%nat) as E by len.
    pose proof (le_combine_bound (slice l at_ 4)) as Hb. unfold UINT32_MAX.
    rewrite E in Hb. simpl in Hb. lia.
  - exfalso. unfold encoding.get_u32, index in H.
    destruct (Z.ltb_spec (at_ + 0) 0); [done|].
    rewrite !(proj2 (Z.ltb_ge _ 0)) in H by lia.
    destruct (l !! Z.to_nat (at_ + 0)); [|done]. simpl in H.
    destruct (l !! Z.to_nat (at_ + 1)); [|done]. simpl in H.
    destruct (l !! Z.to_nat (at_ + 2)); [|done]. simpl in H.
    destruct (l !! Z.to_nat (at_ + 3)) eqn:E; [|done].
    apply lookup_lt_Some in E. unfold sz in Hn. lia.
Qed.

Lemma get_u64_range l at_ v : 0 ≤ at_ → at_ + 8 ≤ sz l → encoding.get_u64 l at_ = ROk v →
  0 ≤ v ≤ UINT64_MAX.
Proof.
  intros ? ? H. rewrite get_u64_slice in H by done. injection H as <-.
  assert (length (slice l at_ 8) = 8%nat) as E by len.
  pose proof (le_combine_bound (slice l at_ 8)) as Hb. unfold UINT64_MAX.
  rewrite E in Hb. simpl in Hb. lia.
Qed.

Lemma get_u32_not_stuck l at_ : 0 ≤ at_ → at_ + 4 ≤ sz l → ∃ v, encoding.get_u32 l at_ = ROk v.
Proof. intros. rewrite get_u32_slice by done. eauto. Qed.

Lemma get_u64_not_stuck l at_ : 0 ≤ at_ → at_ + 8 ≤ sz l → ∃ v, encoding.get_u64 l at_ = ROk v.
Proof. intros. rewrite get_u64_slice by done. eauto. Qed.

(** * Reading fields of a concatenation

    The rewrite database [rd] walks a right-nested concatenation of fields down
    to the one at the requested offset. *)

Lemma get_u32_skip (a b : bytes) n : sz a ≤ n →
  encoding.get_u32 (a ++ b) n = encoding.get_u32 b (n - sz a).
Proof.
  intros. unfold encoding.get_u32.
  rewrite !index_app_r by lia.
  by rewrite <-!Z.add_sub_swap.
Qed.

Lemma get_u64_skip (a b : bytes) n : sz a ≤ n →
  encoding.get_u64 (a ++ b) n = encoding.get_u64 b (n - sz a).
Proof.
  intros. unfold encoding.get_u64. change (seqZ 0 8) with [0;1;2;3;4;5;6;7]. cbn [foldl].
  rewrite !index_app_r by lia.
  by rewrite <-!Z.add_sub_swap.
Qed.

Lemma rd_u32_u32 v b n : 4 ≤ n → encoding.get_u32 (le32 v ++ b) n = encoding.get_u32 b (n - 4).
Proof. intros. rewrite get_u32_skip; rewrite sz_le32; [done|lia]. Qed.
Lemma rd_u32_u64 v b n : 8 ≤ n → encoding.get_u32 (le64 v ++ b) n = encoding.get_u32 b (n - 8).
Proof. intros. rewrite get_u32_skip; rewrite sz_le64; [done|lia]. Qed.
Lemma rd_u64_u32 v b n : 4 ≤ n → encoding.get_u64 (le32 v ++ b) n = encoding.get_u64 b (n - 4).
Proof. intros. rewrite get_u64_skip; rewrite sz_le32; [done|lia]. Qed.
Lemma rd_u64_u64 v b n : 8 ≤ n → encoding.get_u64 (le64 v ++ b) n = encoding.get_u64 b (n - 8).
Proof. intros. rewrite get_u64_skip; rewrite sz_le64; [done|lia]. Qed.
Lemma rd_u32_cons (x : byte) b n : 1 ≤ n →
  encoding.get_u32 (x :: b) n = encoding.get_u32 b (n - 1).
Proof. intros. change (x :: b) with ([x] ++ b). by rewrite get_u32_skip. Qed.
Lemma rd_u64_cons (x : byte) b n : 1 ≤ n →
  encoding.get_u64 (x :: b) n = encoding.get_u64 b (n - 1).
Proof. intros. change (x :: b) with ([x] ++ b). by rewrite get_u64_skip. Qed.
Lemma rd_idx_u32 v b n : 4 ≤ n → index (le32 v ++ b) n = index b (n - 4).
Proof. intros. rewrite index_app_r; rewrite sz_le32; [done|lia]. Qed.
Lemma rd_idx_u64 v b n : 8 ≤ n → index (le64 v ++ b) n = index b (n - 8).
Proof. intros. rewrite index_app_r; rewrite sz_le64; [done|lia]. Qed.

Lemma rd_u32_single (x : byte) b n : 1 ≤ n →
  encoding.get_u32 ([x] ++ b) n = encoding.get_u32 b (n - 1).
Proof. apply rd_u32_cons. Qed.
Lemma rd_u64_single (x : byte) b n : 1 ≤ n →
  encoding.get_u64 ([x] ++ b) n = encoding.get_u64 b (n - 1).
Proof. apply rd_u64_cons. Qed.

(** ... and reads it. *)
Lemma rd_u32_here v b n : n = 0 → 0 ≤ v ≤ UINT32_MAX →
  encoding.get_u32 (le32 v ++ b) n = ROk v.
Proof. intros -> ?. by apply (get_u32_app [] b). Qed.
Lemma rd_u64_here v b n : n = 0 → 0 ≤ v ≤ UINT64_MAX →
  encoding.get_u64 (le64 v ++ b) n = ROk v.
Proof. intros -> ?. by apply (get_u64_app [] b). Qed.
Lemma rd_idx_here (x : byte) b n : n = 0 → index (x :: b) n = ROk (byte.unsigned x).
Proof. by intros ->. Qed.
Lemma rd_idx_single (x : byte) b n : n = 0 → index ([x] ++ b) n = ROk (byte.unsigned x).
Proof. by intros ->. Qed.

Create Rewrite HintDb rd.
#[export] Hint Rewrite rd_u32_u32 rd_u32_u64 rd_u64_u32 rd_u64_u64 rd_u32_cons rd_u64_cons
  rd_u32_single rd_u64_single
  rd_idx_u32 rd_idx_u64 using lia : rd.

(** Evaluates the field read at the head of the goal. *)
Ltac rd :=
  autorewrite with rd;
  first [rewrite rd_u32_here by first [lia | done]
        | rewrite rd_u64_here by first [lia | done]
        | rewrite rd_idx_here by lia | rewrite rd_idx_single by lia];
  cbn [mbind result_bind].

Lemma safe_get_u32 c l at_ : 0 ≤ at_ → at_ + 4 ≤ sz l → safe c (encoding.get_u32 l at_).
Proof. intros. by rewrite get_u32_slice. Qed.

Lemma safe_get_u64 c l at_ : 0 ≤ at_ → at_ + 8 ≤ sz l → safe c (encoding.get_u64 l at_).
Proof. intros. by rewrite get_u64_slice. Qed.

Lemma safe_index c l at_ : 0 ≤ at_ < sz l → safe c (index l at_).
Proof. intros. by destruct (index_ok l at_) as (? & _ & ->). Qed.

(** A field read inside the bounds the context knows. *)
#[export] Hint Extern 1 (safe _ (encoding.get_u32 _ _)) => apply safe_get_u32; lia : safe.
#[export] Hint Extern 1 (safe _ (encoding.get_u64 _ _)) => apply safe_get_u64; lia : safe.
#[export] Hint Extern 1 (safe _ (index _ _)) => apply safe_index; lia : safe.
