(* ===== verification/Record.v ===== *)
(** The on-disk record: [include/kvstore/record.hpp], [src/record.cpp].

    Bitcask data files and LSM write-ahead logs are sequences of these records. *)

From S2P Require Import Prelude Status World Encoding.

Module record.
Section Record.
Context `{Platform}.

Definition kCrcSize : Z := 4.
Definition kHeaderSize : Z := 21.
Definition kFlagTombstone : Z := 1.
Definition kMaxRecordSize : Z := UINT32_MAX.

Record Header : Type := mkHeader {
  h_crc : Z; h_timestamp : Z; h_flags : Z; h_key_size : Z; h_value_size : Z }.

(** [Header::is_tombstone]. *)
Definition is_tombstone (h : Header) : bool := negb (Z.land (h_flags h) kFlagTombstone =? 0).

(** [Header::total_size]. *)
Definition total_size (h : Header) : Z := u64 (u64 (kHeaderSize + h_key_size h) + h_value_size h).

Record Record_ : Type := mkRecord {
  r_timestamp : Z; r_is_tombstone : bool; r_key : bytes; r_value : bytes; r_total_size : Z }.

(** [crc32_of]: zlib's length parameter is a 32-bit [uInt], its result a [uLong]. *)
Definition crc32_of (bs : bytes) : Z :=
  u32 (zlib_crc32 zlib_crc32_init (slice bs 0 (u32 (sz bs)))).

(** [record::encode]. *)
Definition encode (key value : bytes) (timestamp : Z) (is_tombstone : bool) : bytes :=
  let key_size := u32 (sz key) in
  let value_size := if is_tombstone then 0 else u32 (sz value) in
  let out := zeros (kHeaderSize + key_size + value_size) in
  let out := encoding.put_u64 out 4 timestamp in
  let out := <[12%nat := byte.of_Z (if is_tombstone then kFlagTombstone else 0)]> out in
  let out := encoding.put_u32 out 13 key_size in
  let out := encoding.put_u32 out 17 value_size in
  let out := if 0 <? key_size then splice out 21 (slice key 0 key_size) else out in
  let out := if 0 <? value_size
             then splice out (21 + key_size) (slice value 0 value_size) else out in
  encoding.put_u32 out 0 (crc32_of (drop (Z.to_nat kCrcSize) out)).

(** [record::decode_header]. *)
Definition decode_header (bs : bytes) : result Header :=
  fail_if (sz bs <? kHeaderSize) (corruption (lit "record header truncated"));;
  crc ← encoding.get_u32 bs 0;
  timestamp ← encoding.get_u64 bs 4;
  flags ← index bs 12;
  key_size ← encoding.get_u32 bs 13;
  value_size ← encoding.get_u32 bs 17;
  let h := mkHeader crc timestamp flags key_size value_size in
  fail_if (h_key_size h =? 0)
    (corruption (lit "record header declares a zero-length key"));;
  fail_if (is_tombstone h && negb (h_value_size h =? 0))
    (corruption (lit "tombstone record declares a non-zero value size"));;
  fail_if (kMaxRecordSize <? total_size h)
    (corruption (lit "record header declares a size larger than a record may be"));;
  ROk h.

(** [record::decode]. *)
Definition decode (bs : bytes) : result Record_ :=
  h ← decode_header bs;
  let total := total_size h in
  fail_if (sz bs <? total) (corruption (lit "record body truncated"));;
  covered ← require (total <=? sz bs) (slice bs kCrcSize (total - kCrcSize));
  fail_if (negb (crc32_of covered =? h_crc h)) (corruption (lit "record crc mismatch"));;
  key ← require (kHeaderSize + h_key_size h <=? sz bs) (slice bs kHeaderSize (h_key_size h));
  value ← require (kHeaderSize + h_key_size h + h_value_size h <=? sz bs)
            (slice bs (kHeaderSize + h_key_size h) (h_value_size h));
  ROk (mkRecord (h_timestamp h) (is_tombstone h) key value (u32 total)).

(** * The shape of an encoded record *)

(** Everything after the crc. *)
Definition body (key value : bytes) (timestamp : Z) (tomb : bool) : bytes :=
  le64 timestamp ++ [byte.of_Z (if tomb then kFlagTombstone else 0)] ++
  le32 (sz key) ++ le32 (sz value) ++ key ++ value.

(** A tombstone stores no value. *)
Definition stored (value : bytes) (tomb : bool) : bytes := if tomb then [] else value.

(** A write the engine accepts: non-empty key, total size within the cap. *)
Definition fits (key value : bytes) (tomb : bool) : Prop :=
  key ≠ [] ∧ kHeaderSize + sz key + sz (stored value tomb) ≤ kMaxRecordSize.

Lemma sz_body key value ts tomb : sz (body key value ts tomb) = 17 + sz key + sz value.
Proof. unfold body. len. Qed.

Lemma crc32_of_range bs : 0 ≤ crc32_of bs ≤ UINT32_MAX.
Proof. apply u32_range. Qed.

(** The closed form of [encode]: the crc of the body, then the body. *)
Lemma encode_eq key value ts tomb : fits key value tomb →
  encode key value ts tomb =
    le32 (crc32_of (body key (stored value tomb) ts tomb)) ++ body key (stored value tomb) ts tomb.
Proof.
  intros [Hk Hf]. unfold encode.
  set (val := stored value tomb) in *.
  assert (Hk0 : 0 < sz key) by (destruct key; [done|]; rewrite sz_cons; pose proof (sz_nonneg key); lia).
  pose proof (sz_nonneg val) as Hv0. unfold kHeaderSize, kMaxRecordSize in Hf.
  rewrite (u32_id (sz key)) by (unfold UINT32_MAX in *; lia).
  assert ((if tomb then 0 else u32 (sz value)) = sz val) as ->.
  { unfold val, stored in *. destruct tomb; [done|]. rewrite u32_id; [done|].
    unfold UINT32_MAX in *. lia. }
  rewrite (proj2 (Z.ltb_lt 0 (sz key)) Hk0).
  assert (Hz : zeros (kHeaderSize + sz key + sz val) =
    zeros 4 ++ zeros 8 ++ [Byte.x00] ++ zeros 4 ++ zeros 4 ++ zeros (sz key) ++ zeros (sz val)).
  { unfold zeros, kHeaderSize. rewrite !Z2Nat.inj_add, !replicate_add by lia. done. }
  rewrite Hz. rewrite put_u64_app by done.
  rewrite (insert_at_app (zeros 4) _ 4 8) by done.
  rewrite (insert_at_app (le64 ts) _ 8 0) by done.
  change (<[Z.to_nat 0 := ?x]> ([?y] ++ ?r)) with ([x] ++ r).
  rewrite (app_assoc (zeros 4)), (app_assoc (zeros 4 ++ le64 ts)).
  rewrite put_u32_app by len.
  rewrite (app_assoc _ (le32 (sz key))).
  rewrite put_u32_app by len.
  set (hdr := ((zeros 4 ++ le64 ts) ++ _) ++ _).
  rewrite (app_assoc hdr).
  rewrite (splice_prefix (hdr ++ _)) by (unfold hdr; len).
  rewrite slice_all.
  assert (drop (length key) (zeros (sz key) ++ zeros (sz val)) = zeros (sz val)) as ->.
  { rewrite drop_app_length'; [done|]. len. }
  assert (H2 : (if 0 <? sz val
    then splice ((hdr ++ le32 (sz val)) ++ key ++ zeros (sz val)) (21 + sz key) (slice value 0 (sz val))
    else (hdr ++ le32 (sz val)) ++ key ++ zeros (sz val)) =
    (hdr ++ le32 (sz val)) ++ key ++ val).
  { destruct (Z.ltb_spec 0 (sz val)).
    - rewrite (app_assoc _ key). rewrite splice_prefix by (unfold hdr; len).
      assert (slice value 0 (sz val) = val) as ->.
      { unfold val, stored in *. destruct tomb; [done|]. apply slice_all. }
      rewrite drop_ge by len. by rewrite app_nil_r, app_assoc.
    - assert (val = []) as -> by (apply sz_zero_nil; lia). done. }
  rewrite H2. unfold hdr.
  assert (Hb : (((((zeros 4 ++ le64 ts) ++ [byte.of_Z (if tomb then kFlagTombstone else 0)])
     ++ le32 (sz key)) ++ le32 (sz val)) ++ key ++ val) =
     [] ++ zeros 4 ++ body key val ts tomb).
  { unfold body. by rewrite <-!app_assoc. }
  rewrite Hb. rewrite put_u32_app by done. done.
Qed.

Lemma sz_encode key value ts tomb : fits key value tomb →
  sz (encode key value ts tomb) = kHeaderSize + sz key + sz (stored value tomb).
Proof. intros Hf. rewrite encode_eq by done. rewrite sz_app, sz_le32, sz_body. unfold kHeaderSize. lia. Qed.

(** The total size of a header read off disk never wraps. *)
Lemma total_size_eq h : 0 ≤ h_key_size h ≤ UINT32_MAX → 0 ≤ h_value_size h ≤ UINT32_MAX →
  total_size h = kHeaderSize + h_key_size h + h_value_size h.
Proof.
  unfold total_size, kHeaderSize. intros.
  rewrite (u64_id (21 + _)) by (unfold UINT32_MAX, UINT64_MAX in *; lia).
  apply u64_id. unfold UINT32_MAX, UINT64_MAX in *. lia.
Qed.

(** The header an encoded record carries. *)
Definition header_of (key value : bytes) (ts : Z) (tomb : bool) : Header :=
  mkHeader (crc32_of (body key (stored value tomb) ts tomb)) ts
    (if tomb then kFlagTombstone else 0) (sz key) (sz (stored value tomb)).

Lemma header_of_tombstone key value ts tomb : is_tombstone (header_of key value ts tomb) = tomb.
Proof. by destruct tomb. Qed.

Lemma fits_bounds key value tomb : fits key value tomb →
  0 < sz key ≤ UINT32_MAX ∧ 0 ≤ sz (stored value tomb) ≤ UINT32_MAX.
Proof.
  intros [Hk Hf]. unfold kHeaderSize, kMaxRecordSize in Hf.
  pose proof (sz_nonneg (stored value tomb)). pose proof (sz_nonneg key).
  destruct key; [done|]. rewrite sz_cons in *. pose proof (sz_nonneg key). lia.
Qed.

Lemma header_total key value ts tomb : fits key value tomb →
  total_size (header_of key value ts tomb) = kHeaderSize + sz key + sz (stored value tomb).
Proof. intros Hf. apply fits_bounds in Hf as [? ?]. apply total_size_eq; simpl; lia. Qed.

(** The 21 header bytes of an encoded record. *)
Definition header_bytes (h : Header) : bytes :=
  le32 (h_crc h) ++ le64 (h_timestamp h) ++ [byte.of_Z (h_flags h)] ++
  le32 (h_key_size h) ++ le32 (h_value_size h).

Lemma sz_header_bytes h : sz (header_bytes h) = 21.
Proof. unfold header_bytes. len. Qed.

Lemma encode_split key value ts tomb : fits key value tomb →
  encode key value ts tomb =
    header_bytes (header_of key value ts tomb) ++ key ++ stored value tomb.
Proof.
  intros. rewrite encode_eq by done. unfold body, header_bytes.
  by destruct tomb; rewrite <-!app_assoc.
Qed.

(** [decode_header] on header bytes, whatever follows them. *)
Lemma decode_header_bytes h tl :
  0 ≤ h_crc h ≤ UINT32_MAX → 0 ≤ h_timestamp h ≤ UINT64_MAX → 0 ≤ h_flags h < 256 →
  0 < h_key_size h ≤ UINT32_MAX → 0 ≤ h_value_size h ≤ UINT32_MAX →
  (is_tombstone h = true → h_value_size h = 0) → total_size h ≤ kMaxRecordSize →
  decode_header (header_bytes h ++ tl) = ROk h.
Proof.
  intros Hc Ht Hfl Hk Hv Htomb Htot. unfold decode_header, kHeaderSize.
  pose proof (sz_nonneg tl).
  rewrite (proj2 (Z.ltb_ge _ 21)) by (rewrite sz_app, sz_header_bytes; lia).
  cbn [fail_if mbind result_bind].
  assert (Hk' : 0 ≤ h_key_size h ≤ UINT32_MAX) by lia.
  unfold header_bytes. rewrite <-!app_assoc. do 5 rd.
  rewrite byte.unsigned_of_Z. unfold byte.wrap. rewrite (Z.mod_small (h_flags h)) by lia.
  replace (mkHeader _ _ _ _ _) with h by (by destruct h).
  rewrite (proj2 (Z.eqb_neq (h_key_size h) 0)) by lia. cbn [fail_if mbind result_bind].
  assert (is_tombstone h && negb (h_value_size h =? 0) = false) as ->.
  { destruct (is_tombstone h); [|done]. by rewrite Htomb. }
  cbn [fail_if mbind result_bind].
  by rewrite (proj2 (Z.ltb_ge _ _)).
Qed.

(** A header can be read from the front of an encoded record, whatever follows. *)
Lemma decode_header_encode key value ts tomb rest : fits key value tomb →
  0 ≤ ts ≤ UINT64_MAX →
  decode_header (encode key value ts tomb ++ rest) = ROk (header_of key value ts tomb).
Proof.
  intros Hf Hts. pose proof (fits_bounds _ _ _ Hf) as [Hk Hv].
  rewrite encode_split, <-!app_assoc by done. apply decode_header_bytes; simpl; try lia.
  - apply crc32_of_range.
  - destruct tomb; unfold kFlagTombstone; lia.
  - destruct tomb; done.
  - rewrite header_total by done. by destruct Hf.
Qed.

(** The record an encoded write decodes to. *)
Definition record_of (key value : bytes) (ts : Z) (tomb : bool) : Record_ :=
  mkRecord ts tomb key (stored value tomb) (kHeaderSize + sz key + sz (stored value tomb)).

Lemma decode_encoded key value ts tomb rest : fits key value tomb → 0 ≤ ts ≤ UINT64_MAX →
  decode (encode key value ts tomb ++ rest) = ROk (record_of key value ts tomb).
Proof.
  intros Hf Hts. pose proof (fits_bounds _ _ _ Hf) as [Hk Hv].
  unfold decode. rewrite decode_header_encode by done.
  cbn [mbind result_bind]. rewrite header_total, header_of_tombstone by done.
  pose proof (sz_nonneg rest). pose proof (sz_encode _ _ ts _ Hf) as Hsz.
  unfold kHeaderSize, kCrcSize in *.
  rewrite (proj2 (Z.ltb_ge _ _)) by (rewrite sz_app; lia). cbn [fail_if mbind result_bind].
  change (h_key_size (header_of key value ts tomb)) with (sz key).
  change (h_value_size (header_of key value ts tomb)) with (sz (stored value tomb)).
  rewrite !require_true by (rewrite sz_app; apply Z.leb_le; lia). cbn [mbind result_bind].
  assert (slice (encode key value ts tomb ++ rest) 4
    (21 + sz key + sz (stored value tomb) - 4) = body key (stored value tomb) ts tomb) as ->.
  { rewrite encode_eq, <-app_assoc by done. apply slice_mid; [done|]. rewrite sz_body. lia. }
  change (h_crc _) with (crc32_of (body key (stored value tomb) ts tomb)).
  rewrite Z.eqb_refl. cbn [fail_if negb mbind result_bind].
  rewrite encode_split, <-!app_assoc by done.
  rewrite (slice_mid (header_bytes _)) by (rewrite ?sz_header_bytes; done).
  rewrite (app_assoc (header_bytes _)), slice_mid
    by (rewrite ?sz_app, ?sz_header_bytes; done).
  rewrite u32_id by (destruct Hf; unfold kHeaderSize, kMaxRecordSize in *; lia). done.
Qed.

(** C21: A write that fits decodes from its encoding to exactly what was written
    (a tombstone to an empty value), with the size that leads to the next record,
    whatever bytes follow it. *)
Theorem decode_encode key value ts tomb rest : fits key value tomb → 0 ≤ ts ≤ UINT64_MAX →
  decode (encode key value ts tomb ++ rest) = ROk (record_of key value ts tomb).
Proof. apply decode_encoded. Qed.

(** The header decoder never reads outside its input. *)
Lemma decode_header_safe bs : safe Corruption (decode_header bs).
Proof.
  unfold decode_header, kHeaderSize. apply safe_bind; [auto with safe|]. intros [] ?; arith_hyps.
  safe.
Qed.

(** What [decode_header] accepts. *)
Lemma decode_header_sound bs h : decode_header bs = ROk h →
  kHeaderSize ≤ sz bs ∧ 0 < h_key_size h ∧ 0 ≤ h_value_size h ∧
  (is_tombstone h = true → h_value_size h = 0) ∧
  total_size h = kHeaderSize + h_key_size h + h_value_size h ∧
  total_size h ≤ kMaxRecordSize ∧ encoding.get_u32 bs 0 = ROk (h_crc h).
Proof.
  unfold decode_header. intros Hd. rinv. simpl in *. arith_hyps.
  repeat match goal with H : encoding.get_u32 _ _ = ROk _ |- _ =>
    pose proof (get_u32_range _ _ _ H); revert H end. intros.
  rewrite total_size_eq in * by (simpl; lia). simpl in *. unfold kHeaderSize, kMaxRecordSize in *.
  split_and!; try done; try lia.
  intros E. rewrite E in *. simpl in *. by arith_hyps.
Qed.

Lemma decode_any bs : safe Corruption (decode bs).
Proof.
  unfold decode. apply safe_bind; [apply decode_header_safe|]. intros h Hh.
  apply decode_header_sound in Hh as (? & ? & ? & ? & Ht & ? & _). cbn zeta.
  apply safe_bind; [auto with safe|]. intros [] ?; arith_hyps.
  repeat (apply safe_bind; [first [apply safe_require, Z.leb_le; lia | auto with safe]|intros ? ?]).
  auto with safe.
Qed.

(** [decode] never reads outside the buffer it is given, whatever bytes the
    buffer holds: it returns a record or a [Corruption] status. *)
Theorem decode_safe bs : safe Corruption (decode bs).
Proof. apply decode_any. Qed.

Lemma decode_ok_inv bs r : decode bs = ROk r →
  r_key r ≠ [] ∧ (r_is_tombstone r = true → r_value r = []) ∧
  r_total_size r = kHeaderSize + sz (r_key r) + sz (r_value r) ∧ r_total_size r ≤ sz bs ∧
  slice bs kHeaderSize (sz (r_key r) + sz (r_value r)) = r_key r ++ r_value r ∧
  encoding.get_u32 bs 0 = ROk (crc32_of (slice bs kCrcSize (r_total_size r - kCrcSize))).
Proof.
  unfold decode. intros Hd. apply bind_ok_inv in Hd as (h & Hh & Hd).
  apply decode_header_sound in Hh as (? & ? & ? & Htomb & Ht & Hmax & Hcrc). cbn zeta in Hd.
  rinv. cbn [r_key r_value r_is_tombstone r_total_size]. arith_hyps.
  rewrite Ht in *. unfold kHeaderSize, kMaxRecordSize in *.
  rewrite (u32_id (21 + _ + _)) by lia. rewrite !sz_slice by lia.
  split_and!; try done.
  - intros E. apply (f_equal sz) in E. rewrite sz_slice, sz_nil in E by lia. lia.
  - intros E. rewrite Htomb by done. done.
  - by rewrite slice_split by lia.
  - congruence.
Qed.

(** Whatever [decode] accepts is a well-formed record of the buffer: a
    non-empty key and a value that lie in it back to back, no value under a
    tombstone, a size that stays inside the buffer, and a checksum that matches
    every byte after the checksum field. *)
Theorem decode_sound bs r : decode bs = ROk r →
  r_key r ≠ [] ∧ (r_is_tombstone r = true → r_value r = []) ∧
  r_total_size r = kHeaderSize + sz (r_key r) + sz (r_value r) ∧ r_total_size r ≤ sz bs ∧
  slice bs kHeaderSize (sz (r_key r) + sz (r_value r)) = r_key r ++ r_value r ∧
  encoding.get_u32 bs 0 = ROk (crc32_of (slice bs kCrcSize (r_total_size r - kCrcSize))).
Proof. apply decode_ok_inv. Qed.

(** * The header alone decides the size *)

Lemma decode_header_app a b : kHeaderSize ≤ sz a → decode_header (a ++ b) = decode_header a.
Proof.
  unfold kHeaderSize. intros Ha. unfold decode_header, kHeaderSize. pose proof (sz_nonneg b).
  rewrite !(proj2 (Z.ltb_ge _ 21)) by (rewrite ?sz_app; lia).
  cbn [fail_if mbind result_bind].
  rewrite !get_u32_slice, !get_u64_slice by (rewrite ?sz_app; lia).
  rewrite !slice_app_l, index_app_l by lia. done.
Qed.

Lemma decode_header_take d : kHeaderSize ≤ sz d → decode_header (take 21 d) = decode_header d.
Proof.
  intros Hd. rewrite <-(take_drop 21 d) at 2. rewrite decode_header_app; [done|].
  unfold kHeaderSize in *. len.
Qed.

Lemma decode_header_of_record bs r : decode bs = ROk r →
  ∃ h, decode_header bs = ROk h ∧ total_size h = r_total_size r.
Proof.
  unfold decode. intros Hd. apply bind_ok_inv in Hd as (h & Hh & Hd). exists h. split; [done|].
  apply decode_header_sound in Hh as (? & ? & ? & _ & Ht & Hmax & _). cbn zeta in Hd.
  rinv. simpl. rewrite u32_id; [done|]. unfold kHeaderSize, kMaxRecordSize in *. lia.
Qed.

End Record.

Lemma decode_encode_witness :
  @decode reference_platform (@encode reference_platform (lit "ab") (lit "xyz") 7 false ++ lit "tail")
    = ROk (mkRecord 7 false (lit "ab") (lit "xyz") 26).
Proof.
  apply (@decode_encode reference_platform (lit "ab") (lit "xyz") 7 false (lit "tail")).
  - split; [done | by vm_compute].
  - by vm_compute.
Defined.

Lemma decode_sound_witness :
  let r := mkRecord 7 true (lit "ab") [] 23 in
  @decode reference_platform (@encode reference_platform (lit "ab") (lit "xyz") 7 true) = ROk r ∧
  r_key r ≠ [].
Proof.
  assert (E : @decode reference_platform (@encode reference_platform (lit "ab") (lit "xyz") 7 true) =
    ROk (mkRecord 7 true (lit "ab") [] 23)) by (vm_compute; reflexivity).
  split; [exact E|].
  exact (proj1 (@decode_sound reference_platform _ _ E)).
Defined.

End record.
