(* ===== verification/Hint.v ===== *)
(** The hint format: [include/kvstore/hint.hpp], [src/hint.cpp]. *)

From S2P Require Import Prelude Status World Encoding Record.

Module hint.
Section Hint.
Context `{Platform}.

Definition kCrcSize : Z := 4.
Definition kEntryHeaderSize : Z := 28.
Definition kFooterSize : Z := 24.
Definition kMagic : bytes := lit "KVHT".

Record Entry : Type := mkEntry {
  e_timestamp : Z; e_record_offset : Z; e_record_size : Z; e_key : bytes }.

Record Footer : Type := mkFooter { f_data_file_size : Z; f_entry_count : Z }.

(** [hint::encode_entry]. *)
Definition encode_entry (key : bytes) (timestamp record_offset record_size : Z) : bytes :=
  let key_size := u32 (sz key) in
  let out := zeros (kEntryHeaderSize + key_size) in
  let out := encoding.put_u64 out 4 timestamp in
  let out := encoding.put_u64 out 12 record_offset in
  let out := encoding.put_u32 out 20 record_size in
  let out := encoding.put_u32 out 24 key_size in
  let out := if 0 <? key_size then splice out 28 (slice key 0 key_size) else out in
  encoding.put_u32 out 0 (record.crc32_of (drop (Z.to_nat kCrcSize) out)).

(** [hint::decode_entry]. *)
Definition decode_entry (bs : bytes) : result Entry :=
  fail_if (sz bs <? kEntryHeaderSize) (corruption (lit "hint entry header truncated"));;
  crc ← encoding.get_u32 bs 0;
  timestamp ← encoding.get_u64 bs 4;
  record_offset ← encoding.get_u64 bs 12;
  record_size ← encoding.get_u32 bs 20;
  key_size ← encoding.get_u32 bs 24;
  fail_if (key_size =? 0) (corruption (lit "hint entry declares a zero-length key"));;
  fail_if (record_size <? record.kHeaderSize)
    (corruption (lit "hint entry declares an impossibly small record"));;
  let total := u64 (kEntryHeaderSize + key_size) in
  fail_if (sz bs <? total) (corruption (lit "hint entry key truncated"));;
  covered ← require (total <=? sz bs) (slice bs kCrcSize (total - kCrcSize));
  fail_if (negb (record.crc32_of covered =? crc)) (corruption (lit "hint entry crc mismatch"));;
  key ← require (kEntryHeaderSize + key_size <=? sz bs) (slice bs kEntryHeaderSize key_size);
  ROk (mkEntry timestamp record_offset record_size key).

(** [hint::encode_footer]. *)
Definition encode_footer (data_file_size entry_count : Z) : bytes :=
  let out := zeros kFooterSize in
  let out := splice out 0 kMagic in
  let out := encoding.put_u64 out 4 data_file_size in
  let out := encoding.put_u64 out 12 entry_count in
  encoding.put_u32 out 20 (record.crc32_of (slice out 0 20)).

(** [hint::decode_footer]. *)
Definition decode_footer (bs : bytes) : result Footer :=
  fail_if (negb (sz bs =? kFooterSize)) (corruption (lit "hint footer is the wrong size"));;
  magic ← require (sz kMagic <=? sz bs) (slice bs 0 (sz kMagic));
  fail_if (negb (key_eqb magic kMagic)) (corruption (lit "hint footer magic missing"));;
  data_file_size ← encoding.get_u64 bs 4;
  entry_count ← encoding.get_u64 bs 12;
  covered ← require (20 <=? sz bs) (slice bs 0 20);
  stored ← encoding.get_u32 bs 20;
  fail_if (negb (record.crc32_of covered =? stored)) (corruption (lit "hint footer crc mismatch"));;
  ROk (mkFooter data_file_size entry_count).

(** * Closed forms *)

Definition entry_body (key : bytes) (timestamp record_offset record_size : Z) : bytes :=
  le64 timestamp ++ le64 record_offset ++ le32 record_size ++ le32 (sz key) ++ key.

Lemma sz_entry_body key ts off rs : sz (entry_body key ts off rs) = 24 + sz key.
Proof. unfold entry_body. len. Qed.

Lemma encode_entry_eq key ts off rs : sz key ≤ UINT32_MAX →
  encode_entry key ts off rs =
    le32 (record.crc32_of (entry_body key ts off rs)) ++ entry_body key ts off rs.
Proof.
  intros Hk. unfold encode_entry. pose proof (sz_nonneg key). rewrite (u32_id (sz key)) by lia.
  assert (Hz : zeros (kEntryHeaderSize + sz key) =
    zeros 4 ++ zeros 8 ++ zeros 8 ++ zeros 4 ++ zeros 4 ++ zeros (sz key)).
  { unfold zeros, kEntryHeaderSize. rewrite !Z2Nat.inj_add, !replicate_add by lia. done. }
  rewrite Hz, put_u64_app by done.
  rewrite (app_assoc (zeros 4)), put_u64_app by len.
  rewrite (app_assoc (zeros 4 ++ _)), put_u32_app by len.
  rewrite (app_assoc ((zeros 4 ++ _) ++ _)), put_u32_app by len.
  rewrite (app_assoc (((zeros 4 ++ _) ++ _) ++ _)).
  set (hdr := (((zeros 4 ++ _) ++ _) ++ _) ++ _).
  assert (Hcopy : (if 0 <? sz key then splice (hdr ++ zeros (sz key)) 28 (slice key 0 (sz key))
    else hdr ++ zeros (sz key)) = hdr ++ key).
  { destruct (Z.ltb_spec 0 (sz key)).
    - rewrite slice_all, splice_prefix by (unfold hdr; len).
      rewrite drop_ge by len. by rewrite app_nil_r.
    - assert (key = []) as -> by (apply sz_zero_nil; lia). done. }
  rewrite Hcopy. unfold hdr. rewrite <-!app_assoc.
  change (zeros 4 ++ ?r) with ([] ++ zeros 4 ++ r). by rewrite put_u32_app.
Qed.

Lemma sz_encode_entry key ts off rs : sz key ≤ UINT32_MAX →
  sz (encode_entry key ts off rs) = kEntryHeaderSize + sz key.
Proof. intros. rewrite encode_entry_eq by done. rewrite sz_app, sz_le32, sz_entry_body. unfold kEntryHeaderSize. lia. Qed.

(** The fixed-size part of an encoded entry. *)
Definition entry_header (key : bytes) (ts off rs : Z) : bytes :=
  le32 (record.crc32_of (entry_body key ts off rs)) ++ le64 ts ++ le64 off ++ le32 rs ++ le32 (sz key).

Lemma sz_entry_header key ts off rs : sz (entry_header key ts off rs) = 28.
Proof. unfold entry_header. len. Qed.

Lemma encode_entry_split key ts off rs : sz key ≤ UINT32_MAX →
  encode_entry key ts off rs = entry_header key ts off rs ++ key.
Proof. intros. rewrite encode_entry_eq by done. unfold entry_header, entry_body. by rewrite <-!app_assoc. Qed.

(** An entry decodes from its encoding, whatever follows it. *)
Lemma decode_encoded_entry key ts off rs rest :
  key ≠ [] → sz key ≤ UINT32_MAX → 0 ≤ ts ≤ UINT64_MAX → 0 ≤ off ≤ UINT64_MAX →
  record.kHeaderSize ≤ rs ≤ UINT32_MAX →
  decode_entry (encode_entry key ts off rs ++ rest) = ROk (mkEntry ts off rs key).
Proof.
  intros Hne Hk Hts Hoff Hrs. pose proof (sz_nonneg rest).
  assert (0 < sz key) by (destruct key; [done|]; rewrite sz_cons; pose proof (sz_nonneg key); lia).
  unfold decode_entry. pose proof (sz_encode_entry key ts off rs Hk) as Hsz.
  unfold kEntryHeaderSize, kCrcSize, record.kHeaderSize in *.
  rewrite (proj2 (Z.ltb_ge _ 28)) by (rewrite sz_app; lia). cbn [fail_if mbind result_bind].
  assert (Hcov : slice (encode_entry key ts off rs ++ rest) 4 (28 + sz key - 4) =
    entry_body key ts off rs).
  { rewrite encode_entry_eq, <-app_assoc by done. apply slice_mid; [done|]. rewrite sz_entry_body. lia. }
  assert (Hkey : slice (encode_entry key ts off rs ++ rest) 28 (sz key) = key).
  { rewrite encode_entry_split, <-app_assoc by done. apply slice_mid; [|done].
    by rewrite sz_entry_header. }
  assert (Hcrc : encoding.get_u32 (encode_entry key ts off rs ++ rest) 0 =
    ROk (record.crc32_of (entry_body key ts off rs))).
  { rewrite encode_entry_eq, <-app_assoc by done. apply rd_u32_here; [done|]. apply record.crc32_of_range. }
  assert (Hf : encoding.get_u64 (encode_entry key ts off rs ++ rest) 4 = ROk ts ∧
    encoding.get_u64 (encode_entry key ts off rs ++ rest) 12 = ROk off ∧
    encoding.get_u32 (encode_entry key ts off rs ++ rest) 20 = ROk rs ∧
    encoding.get_u32 (encode_entry key ts off rs ++ rest) 24 = ROk (sz key)).
  { rewrite encode_entry_eq by done. unfold entry_body. rewrite <-!app_assoc.
    split_and!; autorewrite with rd; first [apply rd_u64_here | apply rd_u32_here]; lia. }
  destruct Hf as (E1 & E2 & E3 & E4). rewrite Hcrc, E1, E2, E3, E4. cbn [mbind result_bind].
  rewrite (proj2 (Z.eqb_neq (sz key) 0)), (proj2 (Z.ltb_ge rs 21)) by lia.
  cbn [fail_if mbind result_bind]. rewrite u64_id by (unfold UINT64_MAX, UINT32_MAX in *; lia).
  rewrite (proj2 (Z.ltb_ge _ _)) by (rewrite sz_app; lia). cbn [fail_if mbind result_bind].
  rewrite !require_true by (rewrite sz_app; apply Z.leb_le; lia). cbn [mbind result_bind].
  rewrite Hcov, Z.eqb_refl, Hkey. done.
Qed.

Definition footer_body (size count : Z) : bytes := kMagic ++ le64 size ++ le64 count.

Lemma sz_footer_body size count : sz (footer_body size count) = 20.
Proof. unfold footer_body. rewrite !sz_app, !sz_le64. done. Qed.

Lemma encode_footer_eq size count :
  encode_footer size count = footer_body size count ++ le32 (record.crc32_of (footer_body size count)).
Proof.
  unfold encode_footer, kFooterSize.
  change (splice (zeros 24) 0 kMagic) with (kMagic ++ zeros 8 ++ zeros 8 ++ zeros 4).
  rewrite put_u64_app by done.
  rewrite (app_assoc kMagic), put_u64_app by (rewrite ?sz_app, ?sz_le64; done).
  rewrite <-app_assoc, (app_assoc (le64 size)), (app_assoc kMagic).
  fold (footer_body size count). rewrite slice_prefix by (by rewrite sz_footer_body).
  rewrite <-(app_nil_r (zeros 4)), put_u32_app by (rewrite ?sz_footer_body; done).
  by rewrite app_nil_r.
Qed.

Lemma sz_encode_footer size count : sz (encode_footer size count) = kFooterSize.
Proof. rewrite encode_footer_eq, sz_app, sz_footer_body, sz_le32. done. Qed.

Lemma decode_encoded_footer size count : 0 ≤ size ≤ UINT64_MAX → 0 ≤ count ≤ UINT64_MAX →
  decode_footer (encode_footer size count) = ROk (mkFooter size count).
Proof.
  intros Hs Hc. unfold decode_footer. rewrite sz_encode_footer, Z.eqb_refl.
  cbn [fail_if negb mbind result_bind]. rewrite !require_true by done. cbn [mbind result_bind].
  rewrite encode_footer_eq. set (crc := le32 _).
  assert (E1 : slice (footer_body size count ++ crc) 0 (sz kMagic) = kMagic).
  { unfold footer_body. rewrite <-app_assoc. by apply slice_prefix. }
  assert (E2 : encoding.get_u64 (footer_body size count ++ crc) 4 = ROk size).
  { unfold footer_body. rewrite <-!app_assoc. by apply get_u64_app. }
  assert (E3 : encoding.get_u64 (footer_body size count ++ crc) 12 = ROk count).
  { unfold footer_body. rewrite <-!app_assoc, (app_assoc kMagic). apply get_u64_app; [|done].
    rewrite sz_app, sz_le64. done. }
  rewrite E1, E2, E3. unfold key_eqb. rewrite bool_decide_eq_true_2 by done.
  cbn [fail_if negb mbind result_bind].
  rewrite slice_prefix by (by rewrite sz_footer_body).
  unfold crc. rewrite <-(app_nil_r (le32 _)), get_u32_app
    by (rewrite ?sz_footer_body; first [done | apply record.crc32_of_range]).
  cbn [mbind result_bind]. by rewrite Z.eqb_refl.
Qed.

(** Hint entries and footers decode from their encodings: an entry gives back
    the key, timestamp, offset and size it was made from whatever bytes follow it,
    the footer the file size and entry count. *)
Theorem hint_roundtrip key ts off rs rest size count :
  key ≠ [] → sz key ≤ UINT32_MAX → 0 ≤ ts ≤ UINT64_MAX → 0 ≤ off ≤ UINT64_MAX →
  record.kHeaderSize ≤ rs ≤ UINT32_MAX → 0 ≤ size ≤ UINT64_MAX → 0 ≤ count ≤ UINT64_MAX →
  decode_entry (encode_entry key ts off rs ++ rest) = ROk (mkEntry ts off rs key) ∧
  decode_footer (encode_footer size count) = ROk (mkFooter size count).
Proof. intros. split; [by apply decode_encoded_entry | by apply decode_encoded_footer]. Qed.

Lemma decode_entry_short bs : sz bs < kEntryHeaderSize →
  decode_entry bs = RErr (corruption (lit "hint entry header truncated")).
Proof. intros Hs. unfold decode_entry. by rewrite (proj2 (Z.ltb_lt _ _) Hs). Qed.

(** Decoding arbitrary bytes reads nothing outside them. *)
Lemma decode_entry_safe bs : safe Corruption (decode_entry bs).
Proof.
  unfold decode_entry, kEntryHeaderSize, kCrcSize.
  apply safe_bind; [auto with safe|]. intros [] ?; arith_hyps.
  do 7 (apply safe_bind; [auto with safe|]; intros ? ?). cbv zeta.
  match goal with H : encoding.get_u32 bs 24 = ROk ?k |- _ => pose proof (get_u32_range _ _ _ H) end.
  rewrite u64_id by (unfold UINT64_MAX, UINT32_MAX in *; lia).
  apply safe_bind; [auto with safe|]. intros [] ?; arith_hyps.
  repeat (apply safe_bind; [first [apply safe_require, Z.leb_le; lia | auto with safe]|intros ? ?]).
  auto with safe.
Qed.

Lemma decode_footer_safe bs : safe Corruption (decode_footer bs).
Proof.
  unfold decode_footer, kFooterSize. apply safe_bind; [auto with safe|]. intros [] ?; arith_hyps.
  repeat (apply safe_bind; [first [apply safe_require, Z.leb_le; change (sz kMagic) with 4; lia
    | auto with safe]|intros ? ?]).
  auto with safe.
Qed.

End Hint.

Lemma hint_roundtrip_witness :
  @decode_entry reference_platform (@encode_entry reference_platform (lit "k") 9 100 30 ++ lit "x")
    = ROk (mkEntry 9 100 30 (lit "k")) ∧
  @decode_footer reference_platform (@encode_footer reference_platform 7 2) = ROk (mkFooter 7 2).
Proof. apply (@hint_roundtrip reference_platform); by vm_compute. Defined.

End hint.
