(* ===== verification/Bloom.v ===== *)
(** The bloom filter: [src/hash.hpp], [include/kvstore/bloom.hpp], [src/bloom.cpp].

    A filter that is built, encoded and decoded never denies a key that was added,
    and reading a decoded filter never leaves its bit array, whatever the block was. *)

From Stdlib Require Import Floats.SpecFloat.
From S2P Require Import Prelude Status World Encoding Record.

Module hashing.

Definition kFnvOffsetBasis : Z := 14695981039346656037.
Definition kFnvPrime : Z := 1099511628211.

(** [hashing::hash64]: FNV-1a. *)
Definition hash64 (data : bytes) : Z :=
  foldl (λ hash c, u64 (Z.lxor hash (byte.unsigned c) * kFnvPrime)) kFnvOffsetBasis data.

End hashing.

(** * Probe counts *)

Module bloom.

Definition kDefaultBitsPerKey : Z := 10.
Definition kHeaderSize : Z := 5.
Definition kTrailerSize : Z := 4.
Definition kMinBits : Z := 64.
Definition kMaxBits : Z := 4294967288.

(** [static_cast<double>] of a 32-bit integer, and the literal 0.69314718055994531. *)
Definition double_of_u32 (n : Z) : spec_float := binary_normalize 53 1024 n 0 false.
Definition ln2 : spec_float := S754_finite false 6243314768165359 (-53).

(** [std::lround] of a non-negative double: halves away from zero. *)
Definition lround (x : spec_float) : Z :=
  match x with
  | S754_finite false m e =>
      if 0 <=? e then Z.pos m * 2 ^ e else (Z.pos m + 2 ^ (- e - 1)) / 2 ^ (- e)
  | _ => 0
  end.

(** [bloom::probes_for]. *)
Definition probes_for (bits_per_key : Z) : Z :=
  let ideal := SFmul 53 1024 (double_of_u32 bits_per_key) ln2 in
  let probes := lround ideal in
  let probes := if probes <? 1 then 1 else probes in
  let probes := if 30 <? probes then 30 else probes in
  u8 probes.

Lemma probes_for_range n : 1 ≤ probes_for n ≤ 30.
Proof.
  unfold probes_for. cbv zeta. set (p := lround _). unfold u8.
  destruct (Z.ltb_spec p 1); [done|]. destruct (Z.ltb_spec 30 p); [done|].
  rewrite Z.mod_small by lia. lia.
Qed.

(** The default: seven probes at ten bits per key. *)
Example probes_for_default : probes_for kDefaultBitsPerKey = 7.
Proof. vm_compute. reflexivity. Qed.

End bloom.

(** * Building and reading *)

Record Probe : Type := mkProbe { p_position : Z; p_delta : Z }.

(** [probe_for_hash]; [probe_for] is this of the key's hash. *)
Definition probe_for_hash (hash : Z) : Probe :=
  let delta := u32 (Z.shiftr hash 32) in
  let delta := if delta =? 0 then 2654435769 else delta in
  mkProbe (u32 hash) delta.

Definition probe_for (key : bytes) : Probe := probe_for_hash (hashing.hash64 key).

Record BloomBuilder : Type := mkBloomBuilder { bits_per_key_ : Z; hashes_ : list Z }.
Record BloomFilter : Type := mkBloomFilter { bits_ : bytes; num_bits_ : Z; num_probes_ : Z }.

Module BloomOps.
Section BloomOps.
Context `{Platform}.

(** The constructor of [BloomBuilder]. *)
Definition new_builder (bits_per_key : Z) : BloomBuilder :=
  mkBloomBuilder (if bits_per_key =? 0 then bloom.kDefaultBitsPerKey else bits_per_key) [].

(** [BloomBuilder::add]. *)
Definition add (key : bytes) (b : BloomBuilder) : BloomBuilder :=
  mkBloomBuilder (bits_per_key_ b) (hashes_ b ++ [hashing.hash64 key]).

(** [out[kHeaderSize + position / 8] |= 1 << (position % 8)]. *)
Definition set_bit (position : Z) (out : bytes) : bytes :=
  alter (λ b, byte.of_Z (Z.lor (byte.unsigned b) (Z.shiftl 1 (position mod 8))))
    (Z.to_nat (bloom.kHeaderSize + position / 8)) out.

(** The inner loop of [finish]. *)
Fixpoint set_probes (probes : nat) (modulus : Z) (probe : Probe) (out : bytes) : bytes :=
  match probes with
  | O => out
  | S probes =>
      set_probes probes modulus
        (mkProbe (u32 (p_position probe + p_delta probe)) (p_delta probe))
        (set_bit (p_position probe mod modulus) out)
  end.

(** The size of the bit array, in bits. *)
Definition bit_count (b : BloomBuilder) : Z :=
  let bits := u64 (sz (hashes_ b) * bits_per_key_ b) in
  let bits := if bits <? bloom.kMinBits then bloom.kMinBits else bits in
  let bits := if bloom.kMaxBits <? bits then bloom.kMaxBits else bits in
  (bits + 7) / 8 * 8.

(** [BloomBuilder::finish]. *)
Definition finish (b : BloomBuilder) : bytes :=
  let bits := bit_count b in
  let byte_count := bits / 8 in
  let probes := bloom.probes_for (bits_per_key_ b) in
  let modulus := u32 bits in
  let out := zeros (bloom.kHeaderSize + byte_count) in
  let out := encoding.put_u32 out 0 modulus in
  let out := <[4%nat := byte.of_Z probes]> out in
  let out := foldl (λ out hash, set_probes (Z.to_nat probes) modulus (probe_for_hash hash) out)
               out (hashes_ b) in
  let crc := record.crc32_of out in
  let at_ := sz out in
  encoding.put_u32 (out ++ zeros bloom.kTrailerSize) at_ crc.

(** [BloomFilter::decode]. *)
Definition decode (block : bytes) : result BloomFilter :=
  fail_if (sz block <? bloom.kHeaderSize + bloom.kTrailerSize)
    (corruption (lit "bloom filter block is too small to be one"));;
  let payload_size := sz block - bloom.kTrailerSize in
  crc ← encoding.get_u32 block payload_size;
  fail_if (negb (crc =? record.crc32_of (slice block 0 payload_size)))
    (corruption (lit "bloom filter block fails its crc"));;
  num_bits ← encoding.get_u32 block 0;
  num_probes ← index block 4;
  fail_if ((num_bits =? 0) || (num_probes =? 0))
    (corruption (lit "bloom filter declares no bits or no probes"));;
  let bit_bytes := payload_size - bloom.kHeaderSize in
  fail_if (negb ((num_bits + 7) / 8 =? bit_bytes))
    (corruption (lit "bloom filter bit count disagrees with its block size"));;
  ROk (mkBloomFilter (slice block bloom.kHeaderSize bit_bytes) num_bits num_probes).

(** The loop of [maybe_contains]. *)
Fixpoint test_probes (probes : nat) (f : BloomFilter) (probe : Probe) : result bool :=
  match probes with
  | O => ROk true
  | S probes =>
      let position := p_position probe mod num_bits_ f in
      b ← index (bits_ f) (position / 8);
      if Z.land b (Z.shiftl 1 (position mod 8)) =? 0 then ROk false
      else test_probes probes f
             (mkProbe (u32 (p_position probe + p_delta probe)) (p_delta probe))
  end.

(** [BloomFilter::maybe_contains]. *)
Definition maybe_contains (key : bytes) (f : BloomFilter) : result bool :=
  test_probes (Z.to_nat (num_probes_ f)) f (probe_for key).

(** * Bits *)

(** [set_bit] on the bit array alone. *)
Definition mark (position : Z) (arr : bytes) : bytes :=
  alter (λ b, byte.of_Z (Z.lor (byte.unsigned b) (Z.shiftl 1 (position mod 8))))
    (Z.to_nat (position / 8)) arr.

Definition has (arr : bytes) (position : Z) : Prop :=
  ∃ b, arr !! Z.to_nat (position / 8) = Some b ∧ Z.testbit (byte.unsigned b) (position mod 8) = true.

Lemma set_bit_app (hdr arr : bytes) position : sz hdr = bloom.kHeaderSize → 0 ≤ position →
  set_bit position (hdr ++ arr) = hdr ++ mark position arr.
Proof.
  intros Hh Hp. unfold set_bit, mark, sz, bloom.kHeaderSize in *.
  assert (0 ≤ position / 8) by (apply Z.div_pos; lia).
  rewrite alter_app_r_alt by lia. f_equal. f_equal. lia.
Qed.

Lemma unsigned_or b k : 0 ≤ k < 8 →
  byte.unsigned (byte.of_Z (Z.lor (byte.unsigned b) (Z.shiftl 1 k))) = Z.lor (byte.unsigned b) (Z.shiftl 1 k).
Proof.
  intros Hk. rewrite byte.unsigned_of_Z. unfold byte.wrap. apply Z.mod_small.
  pose proof (byte.unsigned_range b). rewrite Z.shiftl_1_l.
  assert (2 ^ k < 2 ^ 8) by (apply Z.pow_lt_mono_r; lia).
  assert (0 ≤ Z.lor (byte.unsigned b) (2 ^ k)) by (apply Z.lor_nonneg; lia).
  split; [done|]. destruct (decide (Z.lor (byte.unsigned b) (2 ^ k) = 0)) as [->|]; [done|].
  apply Z.log2_lt_pow2; [lia|]. rewrite Z.log2_lor by lia.
  apply Z.max_lub_lt.
  - destruct (decide (byte.unsigned b = 0)) as [->|]; [done|]. apply Z.log2_lt_pow2; lia.
  - rewrite Z.log2_pow2; lia.
Qed.

Lemma has_mark arr p : 0 ≤ p → p / 8 < sz arr → has (mark p arr) p.
Proof.
  intros Hp Hlt. unfold has, mark, sz in *. assert (0 ≤ p / 8) by (apply Z.div_pos; lia).
  destruct (lookup_lt_is_Some_2 arr (Z.to_nat (p / 8))) as [b Hb]; [lia|].
  rewrite list_lookup_alter_eq, Hb. eexists. split; [done|].
  pose proof (Z.mod_pos_bound p 8). rewrite unsigned_or by lia.
  rewrite Z.lor_spec, Z.shiftl_1_l, Z.pow2_bits_true by lia. apply orb_true_r.
Qed.

Lemma has_mono arr p q : has arr q → has (mark p arr) q.
Proof.
  intros (b & Hb & Ht). unfold has, mark. pose proof (Z.mod_pos_bound p 8).
  destruct (decide (Z.to_nat (p / 8) = Z.to_nat (q / 8))) as [E|E].
  - rewrite E, list_lookup_alter_eq, Hb. eexists. split; [done|].
    rewrite unsigned_or, Z.lor_spec, Ht by lia. done.
  - rewrite list_lookup_alter_ne by done. eauto.
Qed.

Lemma sz_mark p arr : sz (mark p arr) = sz arr.
Proof. unfold sz, mark. by rewrite length_alter. Qed.

(** Every bit of a probe sequence. *)
Fixpoint has_probes (n : nat) (modulus : Z) (probe : Probe) (arr : bytes) : Prop :=
  match n with
  | O => True
  | S n => has arr (p_position probe mod modulus) ∧
      has_probes n modulus (mkProbe (u32 (p_position probe + p_delta probe)) (p_delta probe)) arr
  end.

Fixpoint mark_probes (n : nat) (modulus : Z) (probe : Probe) (arr : bytes) : bytes :=
  match n with
  | O => arr
  | S n => mark_probes n modulus
      (mkProbe (u32 (p_position probe + p_delta probe)) (p_delta probe))
      (mark (p_position probe mod modulus) arr)
  end.

Lemma set_probes_app n modulus probe hdr arr : sz hdr = bloom.kHeaderSize → 0 < modulus →
  set_probes n modulus probe (hdr ++ arr) = hdr ++ mark_probes n modulus probe arr.
Proof.
  intros Hh Hm. revert probe arr. induction n as [|n IH]; intros probe arr; simpl; [done|].
  pose proof (Z.mod_pos_bound (p_position probe) modulus Hm). rewrite set_bit_app by (done || lia). apply IH.
Qed.

Lemma sz_mark_probes n modulus probe arr : sz (mark_probes n modulus probe arr) = sz arr.
Proof.
  revert probe arr. induction n as [|n IH]; intros probe arr; simpl; [done|]. by rewrite IH, sz_mark.
Qed.

Lemma mark_probes_mono n modulus probe arr q : has arr q → has (mark_probes n modulus probe arr) q.
Proof. revert probe arr. induction n as [|n IH]; intros probe arr Hq; simpl; [done|]. by apply IH, has_mono. Qed.

Lemma has_probes_mono n modulus probe arr arr' : (∀ q, has arr q → has arr' q) →
  has_probes n modulus probe arr → has_probes n modulus probe arr'.
Proof.
  intros Hm. revert probe. induction n as [|n IH]; intros probe; simpl; [done|]. intros [? ?]. auto.
Qed.

Lemma mark_probes_has n modulus probe arr : 0 < modulus → modulus ≤ 8 * sz arr →
  has_probes n modulus probe (mark_probes n modulus probe arr).
Proof.
  intros Hm. revert probe arr. induction n as [|n IH]; intros probe arr Hle; simpl; [done|].
  pose proof (Z.mod_pos_bound (p_position probe) modulus Hm). split.
  - apply mark_probes_mono, has_mark; [lia|]. apply Z.div_lt_upper_bound; lia.
  - apply IH. by rewrite sz_mark.
Qed.

(** All keys. *)
Definition mark_all (n : nat) (modulus : Z) (hashes : list Z) (arr : bytes) : bytes :=
  foldl (λ arr hash, mark_probes n modulus (probe_for_hash hash) arr) arr hashes.

Lemma set_all_app n modulus hashes hdr arr : sz hdr = bloom.kHeaderSize → 0 < modulus →
  foldl (λ out hash, set_probes n modulus (probe_for_hash hash) out) (hdr ++ arr) hashes =
  hdr ++ mark_all n modulus hashes arr.
Proof.
  intros Hh Hm. revert arr. induction hashes as [|hash hashes IH]; intros arr; simpl; [done|].
  by rewrite set_probes_app, IH.
Qed.

Lemma sz_mark_all n modulus hashes arr : sz (mark_all n modulus hashes arr) = sz arr.
Proof.
  revert arr. induction hashes as [|hash hashes IH]; intros arr; simpl; [done|].
  by rewrite IH, sz_mark_probes.
Qed.

Lemma mark_all_mono n modulus hashes arr q : has arr q → has (mark_all n modulus hashes arr) q.
Proof.
  revert arr. induction hashes as [|hash hashes IH]; intros arr Hq; simpl; [done|].
  by apply IH, mark_probes_mono.
Qed.

Lemma mark_all_has n modulus hashes arr hash : 0 < modulus → modulus ≤ 8 * sz arr → hash ∈ hashes →
  has_probes n modulus (probe_for_hash hash) (mark_all n modulus hashes arr).
Proof.
  intros Hm. revert arr. induction hashes as [|h hashes IH]; intros arr Hle; [by intros ?%elem_of_nil|].
  intros [->|Hin]%elem_of_cons; simpl.
  - eapply has_probes_mono; [apply mark_all_mono|]. by apply mark_probes_has.
  - apply IH; [by rewrite sz_mark_probes|done].
Qed.

(** * The encoded filter *)

Definition header (b : BloomBuilder) : bytes :=
  le32 (u32 (bit_count b)) ++ [byte.of_Z (bloom.probes_for (bits_per_key_ b))].

Definition bit_array (b : BloomBuilder) : bytes :=
  mark_all (Z.to_nat (bloom.probes_for (bits_per_key_ b))) (bit_count b) (hashes_ b)
    (zeros (bit_count b / 8)).

Lemma bit_count_range b : bloom.kMinBits ≤ bit_count b ≤ bloom.kMaxBits ∧ bit_count b mod 8 = 0.
Proof.
  unfold bit_count, bloom.kMinBits, bloom.kMaxBits. cbv zeta. set (n := u64 _).
  assert (∀ m, 64 ≤ m ≤ 4294967288 →
    (64 ≤ (m + 7) / 8 * 8 ≤ 4294967288) ∧ ((m + 7) / 8 * 8) mod 8 = 0) as Hr.
  { intros m ?. split; [|apply Z.mod_mul; lia].
    pose proof (Z.div_mod (m + 7) 8). pose proof (Z.mod_pos_bound (m + 7) 8). lia. }
  destruct (Z.ltb_spec n 64); [by apply Hr|]. destruct (Z.ltb_spec 4294967288 n); apply Hr; lia.
Qed.

Lemma bit_count_u32 b : u32 (bit_count b) = bit_count b.
Proof.
  pose proof (bit_count_range b) as [Hr _]. unfold bloom.kMinBits, bloom.kMaxBits in Hr.
  apply u32_id. unfold UINT32_MAX. lia.
Qed.

Lemma sz_header b : sz (header b) = bloom.kHeaderSize.
Proof. unfold header. by rewrite sz_app, sz_le32. Qed.

Lemma sz_bit_array b : sz (bit_array b) = bit_count b / 8.
Proof.
  pose proof (bit_count_range b) as [Hr _]. unfold bloom.kMinBits in Hr.
  assert (0 ≤ bit_count b / 8) by (apply Z.div_pos; lia).
  unfold bit_array. rewrite sz_mark_all. len.
Qed.

(** [finish] writes the header, the bits of every added key, and the checksum. *)
Lemma finish_eq b :
  finish b = (header b ++ bit_array b) ++ le32 (record.crc32_of (header b ++ bit_array b)).
Proof.
  pose proof (bit_count_range b) as [Hr _]. unfold bloom.kMinBits in Hr.
  assert (0 ≤ bit_count b / 8) by (apply Z.div_pos; lia).
  unfold finish. cbv zeta.
  replace (zeros (bloom.kHeaderSize + bit_count b / 8)) with
    ([] ++ zeros 4 ++ zeros 1 ++ zeros (bit_count b / 8)).
  2: { unfold zeros, bloom.kHeaderSize. rewrite app_nil_l, <-!replicate_add. f_equal. lia. }
  rewrite put_u32_app by done. rewrite app_nil_l.
  rewrite insert_app_r_alt by (by rewrite length_le_split).
  replace (<[_ := _]> (zeros 1 ++ _)) with
    ([byte.of_Z (bloom.probes_for (bits_per_key_ b))] ++ zeros (bit_count b / 8))
    by (by rewrite length_le_split).
  rewrite (app_assoc (le32 _)). fold (header b).
  rewrite set_all_app by (apply sz_header || rewrite bit_count_u32; lia).
  rewrite bit_count_u32. fold (bit_array b).
  rewrite <-(app_nil_r (zeros bloom.kTrailerSize)). rewrite put_u32_app by done.
  by rewrite app_nil_r.
Qed.

(** * Decoding *)

Definition filter_of (b : BloomBuilder) : BloomFilter :=
  mkBloomFilter (bit_array b) (bit_count b) (bloom.probes_for (bits_per_key_ b)).

Lemma decode_finish b : decode (finish b) = ROk (filter_of b).
Proof.
  pose proof (bit_count_range b) as [Hr Hm]. unfold bloom.kMinBits, bloom.kMaxBits in Hr.
  pose proof (bloom.probes_for_range (bits_per_key_ b)) as Hp.
  pose proof (sz_header b) as Hh. pose proof (sz_bit_array b) as Ha.
  assert (0 ≤ bit_count b / 8) by (apply Z.div_pos; lia).
  unfold bloom.kHeaderSize in Hh.
  rewrite finish_eq. unfold decode, bloom.kHeaderSize, bloom.kTrailerSize. cbv zeta.
  rewrite !sz_app, sz_le32, Hh, Ha.
  rewrite (proj2 (Z.ltb_ge _ _)) by lia. cbn [fail_if mbind result_bind].
  replace (5 + bit_count b / 8 + 4 - 4) with (sz (header b ++ bit_array b)) by (rewrite sz_app; lia).
  rewrite <-(app_nil_r (le32 (record.crc32_of _))).
  rewrite (get_u32_app (header b ++ bit_array b) [] _ (sz _)) by (done || apply record.crc32_of_range).
  cbn [mbind result_bind]. rewrite slice_prefix by done. rewrite Z.eqb_refl. cbn [negb fail_if mbind result_bind].
  assert (encoding.get_u32 ((header b ++ bit_array b) ++ le32 (record.crc32_of (header b ++ bit_array b)) ++ []) 0
    = ROk (bit_count b)) as ->.
  { unfold header. rewrite <-!app_assoc. rewrite bit_count_u32.
    apply rd_u32_here; [done|]. unfold UINT32_MAX. lia. }
  assert (index ((header b ++ bit_array b) ++ le32 (record.crc32_of (header b ++ bit_array b)) ++ []) 4
    = ROk (bloom.probes_for (bits_per_key_ b))) as ->.
  { unfold header. rewrite <-!app_assoc, rd_idx_u32, rd_idx_single by lia.
    f_equal. rewrite byte.unsigned_of_Z. apply Z.mod_small. lia. }
  cbn [mbind result_bind].
  rewrite (proj2 (Z.eqb_neq _ 0)) by lia. rewrite (proj2 (Z.eqb_neq _ 0)) by lia.
  cbn [orb fail_if mbind result_bind].
  replace (sz (header b ++ bit_array b) - 5) with (bit_count b / 8) by (rewrite sz_app; lia).
  assert ((bit_count b + 7) / 8 = bit_count b / 8) as ->.
  { apply Z.mod_divide in Hm as [q Hq]; [|lia]. rewrite Hq, Z.div_mul by lia.
    rewrite Z.div_add_l by lia. apply Z.add_0_r. }
  rewrite Z.eqb_refl. cbn [negb fail_if mbind result_bind]. unfold filter_of.
  by rewrite <-app_assoc, slice_mid.
Qed.

(** A set bit is a bit the reader sees. *)
Lemma test_has (arr : bytes) p : 0 ≤ p → has arr p →
  ∃ v, index arr (p / 8) = ROk v ∧ (Z.land v (Z.shiftl 1 (p mod 8)) =? 0) = false.
Proof.
  intros Hp (b & Hb & Ht). assert (0 ≤ p / 8) by (apply Z.div_pos; lia).
  pose proof (lookup_lt_Some _ _ _ Hb). exists (byte.unsigned b). split.
  - destruct (index_ok arr (p / 8)) as (b' & Hb' & ->); [unfold sz; lia|]. by simplify_eq.
  - apply Z.eqb_neq. intros E. pose proof (Z.mod_pos_bound p 8).
    assert (Z.testbit (Z.land (byte.unsigned b) (Z.shiftl 1 (p mod 8))) (p mod 8) = true) as Hl.
    { rewrite Z.land_spec, Ht, Z.shiftl_1_l, Z.pow2_bits_true by lia. done. }
    by rewrite E, Z.bits_0 in Hl.
Qed.

Lemma test_probes_has f n probe : 0 < num_bits_ f → has_probes n (num_bits_ f) probe (bits_ f) →
  test_probes n f probe = ROk true.
Proof.
  intros Hn. revert probe. induction n as [|n IH]; intros probe; cbn [test_probes has_probes]; [done|].
  intros [Hb Hr]. pose proof (Z.mod_pos_bound (p_position probe) (num_bits_ f) Hn).
  apply test_has in Hb as (v & -> & Ht); [|lia]. cbn [mbind result_bind]. rewrite Ht. by apply IH.
Qed.

Lemma hashes_add keys b : hashes_ (foldl (flip add) b keys) = hashes_ b ++ (hashing.hash64 <$> keys).
Proof.
  revert b. induction keys as [|k keys IH]; intros b; simpl; [by rewrite app_nil_r|].
  rewrite IH. simpl. by rewrite <-app_assoc.
Qed.

Lemma filter_contains b key : hashing.hash64 key ∈ hashes_ b →
  maybe_contains key (filter_of b) = ROk true.
Proof.
  intros Hin. pose proof (bit_count_range b) as [Hr Hm]. unfold bloom.kMinBits in Hr.
  apply test_probes_has; cbn; [lia|]. apply mark_all_has; [lia| |done].
  pose proof (sz_bit_array b) as Hs. unfold bit_array in Hs. rewrite sz_mark_all in Hs. rewrite Hs.
  apply Z.mod_divide in Hm as [q Hq]; [|lia]. rewrite Hq, Z.div_mul by lia. lia.
Qed.

(** * Safety of the reader *)

Lemma decode_in_bounds block f : decode block = ROk f →
  0 < num_bits_ f ≤ 8 * sz (bits_ f) ∧ 0 < num_probes_ f ≤ 255.
Proof.
  unfold decode. cbv zeta. intros Hd. rinv. arith_hyps.
  repeat match goal with
  | H : encoding.get_u32 _ _ = ROk _ |- _ => apply get_u32_range in H
  | H : index _ _ = ROk _ |- _ => apply index_range in H
  end.
  unfold bloom.kHeaderSize, bloom.kTrailerSize in *. cbn.
  match goal with Hd : (?n + 7) / 8 = _ |- _ =>
    pose proof (Z.div_mod (n + 7) 8); pose proof (Z.mod_pos_bound (n + 7) 8) end.
  rewrite sz_slice by lia. lia.
Qed.

Lemma test_probes_bool f n probe : 0 < num_bits_ f ≤ 8 * sz (bits_ f) →
  ∃ b, test_probes n f probe = ROk b.
Proof.
  intros Hn. revert probe. induction n as [|n IH]; intros probe; cbn [test_probes]; [by eexists|].
  pose proof (Z.mod_pos_bound (p_position probe) (num_bits_ f) ltac:(lia)).
  set (p := p_position probe mod num_bits_ f) in *.
  assert (0 ≤ p / 8 < sz (bits_ f)) by (split; [apply Z.div_pos|apply Z.div_lt_upper_bound]; lia).
  destruct (index_ok (bits_ f) (p / 8)) as (b & _ & ->); [done|]. cbn [mbind result_bind].
  destruct (_ =? 0); eauto.
Qed.

Lemma bloom_decode_safe block : safe Corruption (decode block).
Proof.
  unfold decode, bloom.kHeaderSize, bloom.kTrailerSize. safe; arith_hyps; auto with safe.
Qed.

Lemma decode_answers block f key : decode block = ROk f → ∃ b, maybe_contains key f = ROk b.
Proof. intros [? _]%decode_in_bounds. by apply test_probes_bool. Qed.

(** * The properties *)

(** C26: A filter never denies a key that was added, and decoding what [finish] wrote
    always succeeds. *)
Theorem bloom_no_false_negatives bits_per_key keys key : key ∈ keys →
  ∃ f, decode (finish (foldl (flip add) (new_builder bits_per_key) keys)) = ROk f ∧
    maybe_contains key f = ROk true.
Proof.
  intros Hin. eexists. split; [apply decode_finish|]. apply filter_contains.
  rewrite hashes_add. by apply list_elem_of_fmap_2.
Qed.

(** C27: Whatever bytes a block holds, decoding it returns a filter or Corruption, and a
    decoded filter answers every question without leaving its bit array. *)
Theorem bloom_reads_in_bounds block :
  safe Corruption (decode block) ∧
  ∀ f, decode block = ROk f → ∀ key, ∃ b, maybe_contains key f = ROk b.
Proof.
  split; [apply bloom_decode_safe|]. intros f Hf key. by eapply decode_answers.
Qed.

End BloomOps.

Lemma bloom_no_false_negatives_witness :
  ∃ f, @decode reference_platform
    (@finish reference_platform (foldl (flip add) (new_builder 10) [lit "apple"; lit "pear"])) = ROk f ∧
    maybe_contains (lit "pear") f = ROk true.
Proof.
  apply (@bloom_no_false_negatives reference_platform 10 [lit "apple"; lit "pear"] (lit "pear")).
  apply elem_of_cons. right. by apply elem_of_cons; left.
Defined.

(** A key that was not added is denied. *)
Example bloom_denies :
  (f ← @decode reference_platform
         (@finish reference_platform (foldl (flip add) (new_builder 10) [lit "apple"; lit "pear"]));
   maybe_contains (lit "plum") f) = ROk false.
Proof. vm_compute. reflexivity. Qed.

End BloomOps.
