(* ===== verification/SortedMap.v ===== *)
(** Association lists in key order: what [std::map] iterates over, what a sorted
    table stores, and what a merge produces.

    A strictly sorted list is determined by the finite map it denotes, so the
    components below are specified by finite maps and implemented by such lists. *)

From S2P Require Import Prelude.

Section KSorted.
Context {A : Type}.
Implicit Types (l : list (bytes * A)) (k : bytes) (x : A).

(** Keys in strictly increasing order. *)
Definition ksorted l : Prop := StronglySorted (λ a b, klt a.1 b.1) l.

(** The finite map a list denotes. *)
Definition as_map l : gmap bytes A := list_to_map l.
Arguments as_map l : simpl never.

Lemma ksorted_nil : ksorted [].
Proof. constructor. Qed.

Lemma ksorted_cons k x l : ksorted ((k, x) :: l) ↔ Forall (λ e, klt k e.1) l ∧ ksorted l.
Proof. split; [by inversion 1|intros [? ?]; by constructor]. Qed.

Lemma ksorted_app l1 l2 : ksorted (l1 ++ l2) ↔
  ksorted l1 ∧ ksorted l2 ∧ ∀ a b, a ∈ l1 → b ∈ l2 → klt a.1 b.1.
Proof.
  unfold ksorted. rewrite StronglySorted_app. naive_solver.
Qed.

Lemma ksorted_NoDup l : ksorted l → NoDup l.*1.
Proof.
  induction 1 as [|[k x] l Hs IH Hall]; simpl; constructor; [|done].
  intros (e & E & Hin)%list_elem_of_fmap. rewrite Forall_forall in Hall.
  specialize (Hall _ Hin). simpl in *. subst. by eapply klt_irrefl.
Qed.

Lemma as_map_nil : as_map [] = ∅.
Proof. done. Qed.

Lemma as_map_cons k x l : as_map ((k, x) :: l) = <[k := x]> (as_map l).
Proof. done. Qed.

Lemma as_map_app l1 l2 : as_map (l1 ++ l2) = as_map l1 ∪ as_map l2.
Proof. apply list_to_map_app. Qed.

Lemma as_map_elem l k x : ksorted l → as_map l !! k = Some x ↔ (k, x) ∈ l.
Proof. intros Hs. symmetry. apply elem_of_list_to_map. by apply ksorted_NoDup. Qed.

Lemma as_map_elem_1 l k x : as_map l !! k = Some x → (k, x) ∈ l.
Proof. apply elem_of_list_to_map_2. Qed.

Lemma as_map_none l k : as_map l !! k = None ↔ k ∉ l.*1.
Proof. unfold as_map. symmetry. apply not_elem_of_list_to_map. Qed.

(** Keys outside the range of a list are not in it. *)
Lemma as_map_none_lt l k : Forall (λ e, klt k e.1) l → as_map l !! k = None.
Proof.
  intros Hall. apply as_map_none. intros (e & -> & Hin)%list_elem_of_fmap.
  rewrite Forall_forall in Hall. apply Hall in Hin. by eapply klt_irrefl.
Qed.

Lemma as_map_none_gt l k : Forall (λ e, klt e.1 k) l → as_map l !! k = None.
Proof.
  intros Hall. apply as_map_none. intros (e & -> & Hin)%list_elem_of_fmap.
  rewrite Forall_forall in Hall. apply Hall in Hin. by eapply klt_irrefl.
Qed.

(** A sorted list is determined by its map. *)
Lemma ksorted_unique l1 l2 : ksorted l1 → ksorted l2 → as_map l1 = as_map l2 → l1 = l2.
Proof.
  intros H1 H2 E. apply (StronglySorted_unique_strong (λ a b, klt a.1 b.1) l1 l2).
  - intros a b _ _ ? ?. korder.
  - done.
  - done.
  - rewrite <-(map_to_list_to_map l1), <-(map_to_list_to_map l2) by by apply ksorted_NoDup.
    fold (as_map l1) (as_map l2). by rewrite E.
Qed.

(** The entries of a sorted list that the maps of two others split. *)
Lemma ksorted_filter (P : bytes * A → Prop) `{∀ e, Decision (P e)} l :
  ksorted l → ksorted (filter P l).
Proof.
  induction 1 as [|e l Hs IH Hall]; [constructor|]. rewrite filter_cons. case_decide; [|done].
  constructor; [done|]. rewrite Forall_forall in *. intros e' [_ ?]%list_elem_of_filter. auto.
Qed.

Lemma as_map_filter_key (P : bytes → Prop) `{∀ k, Decision (P k)} l k :
  as_map (filter (λ e, P e.1) l) !! k = if decide (P k) then as_map l !! k else None.
Proof.
  induction l as [|[k' x] l IH]; [by case_decide|]. rewrite filter_cons. simpl.
  destruct (decide (P k')) as [Hp|Hp].
  - rewrite !as_map_cons. destruct (decide (k = k')) as [->|Hne].
    + rewrite !lookup_insert_eq. by rewrite decide_True.
    + by rewrite !lookup_insert_ne.
  - rewrite IH, as_map_cons. destruct (decide (k = k')) as [->|Hne].
    + by rewrite !decide_False.
    + by rewrite lookup_insert_ne.
Qed.

(** * [std::map] *)

(** [find]. *)
Fixpoint map_find k l : option A :=
  match l with
  | [] => None
  | (k', x) :: l => if key_eqb k k' then Some x else map_find k l
  end.

(** [it->second = x] for an iterator [find] returned. *)
Fixpoint map_assign k x l : list (bytes * A) :=
  match l with
  | [] => []
  | (k', x') :: l => if key_eqb k k' then (k', x) :: l else (k', x') :: map_assign k x l
  end.

(** [emplace] of a key that is not in the map: before the first greater key. *)
Fixpoint map_emplace k x l : list (bytes * A) :=
  match l with
  | [] => [(k, x)]
  | (k', x') :: l' => if ltb k k' then (k, x) :: l else (k', x') :: map_emplace k x l'
  end.

(** [lower_bound]: the rest of the map from the first key [>= k] on. *)
Fixpoint map_lower_bound k l : list (bytes * A) :=
  match l with
  | [] => []
  | (k', x') :: l' => if ltb k' k then map_lower_bound k l' else l
  end.

Lemma map_find_eq k l : map_find k l = as_map l !! k.
Proof.
  induction l as [|[k' x] l IH]; simpl; [done|]. unfold key_eqb.
  case_bool_decide as E; [subst; by rewrite as_map_cons, lookup_insert_eq|].
  by rewrite as_map_cons, lookup_insert_ne by done.
Qed.

Lemma map_assign_keys k x l : (map_assign k x l).*1 = l.*1.
Proof. induction l as [|[k' x'] l IH]; simpl; [done|]. destruct (key_eqb k k'); csimpl; by rewrite ?IH. Qed.

Lemma ksorted_keys l l' : l'.*1 = l.*1 → ksorted l → ksorted l'.
Proof.
  intros E Hs. revert l' E. induction Hs as [|[k x] l Hs IH Hall]; intros [|[k' x'] l'] E; simplify_eq/=;
    [constructor|]. constructor; [by apply IH|]. simpl. apply (Forall_fmap fst (klt k)).
  rewrite H0. by apply Forall_fmap.
Qed.

Lemma map_assign_sorted k x l : ksorted l → ksorted (map_assign k x l).
Proof. apply ksorted_keys, map_assign_keys. Qed.

Lemma map_assign_map k x y l : map_find k l = Some y → as_map (map_assign k x l) = <[k := x]> (as_map l).
Proof.
  induction l as [|[k' x'] l IH]; simpl; [done|]. unfold key_eqb. case_bool_decide as E.
  - subst. intros _. by rewrite !as_map_cons, insert_insert_eq.
  - intros Hf. rewrite !as_map_cons, IH by done. by rewrite insert_insert_ne by done.
Qed.

Lemma map_emplace_elem k x l e : e ∈ map_emplace k x l ↔ e = (k, x) ∨ e ∈ l.
Proof.
  induction l as [|[k' x'] l IH]; simpl.
  - rewrite elem_of_cons. done.
  - destruct (ltb k k'); rewrite ?elem_of_cons, ?IH; rewrite ?elem_of_cons; tauto.
Qed.

Lemma map_emplace_sorted k x l : ksorted l → map_find k l = None → ksorted (map_emplace k x l).
Proof.
  induction l as [|[k' x'] l IH]; simpl; intros Hs Hf; [repeat constructor|].
  unfold key_eqb in Hf. case_bool_decide as E; [done|]. apply ksorted_cons in Hs as [Hall Hs].
  destruct (ltb_spec k k') as [Hlt|Hge].
  - apply ksorted_cons. split; [|by apply ksorted_cons]. constructor; [done|].
    eapply Forall_impl; [exact Hall|]. intros e He. simpl in He. korder.
  - apply ksorted_cons. split; [|by apply IH]. apply Forall_forall. intros e He%map_emplace_elem.
    rewrite Forall_forall in Hall. destruct He as [->|He]; [|by apply Hall]. simpl. korder.
Qed.

Lemma map_emplace_map k x l : map_find k l = None → as_map (map_emplace k x l) = <[k := x]> (as_map l).
Proof.
  induction l as [|[k' x'] l IH]; simpl; intros Hf; [done|]. unfold key_eqb in Hf.
  case_bool_decide as E; [done|]. destruct (ltb k k'); [done|].
  rewrite !as_map_cons, IH by done. by rewrite insert_insert_ne by done.
Qed.

Lemma map_lower_bound_split k l : ksorted l → ∃ l1, l = l1 ++ map_lower_bound k l ∧
  Forall (λ e, klt e.1 k) l1 ∧ Forall (λ e, kle k e.1) (map_lower_bound k l).
Proof.
  induction 1 as [|[k' x] l Hs (l1 & IH & H1 & H2) Hall]; simpl; [exists []; by repeat constructor|].
  destruct (ltb_spec k' k) as [Hlt|Hge].
  - exists ((k', x) :: l1). split_and!; [simpl; congruence|by constructor|done].
  - exists []. split_and!; [done|constructor|]. constructor; [done|].
    eapply Forall_impl; [exact Hall|]. intros e He. simpl in *. korder.
Qed.

(** Every finite map is denoted by a sorted list. *)
Lemma ksorted_of (m : gmap bytes A) : ∃ l, ksorted l ∧ as_map l = m.
Proof.
  induction m as [|k x m Hk (l & Hs & <-)] using map_ind; [exists []; split; [apply ksorted_nil|apply as_map_nil]|].
  exists (map_emplace k x l). rewrite <-map_find_eq in Hk. split; [by apply map_emplace_sorted|by apply map_emplace_map].
Qed.

End KSorted.

Arguments as_map {A} l : simpl never.
#[export] Hint Resolve ksorted_nil : core.
