(* ===== verification/Memtable.v ===== *)
(** The memtable: [include/kvstore/memtable.hpp], [src/memtable.cpp].

    A [std::map] is the list of its entries in key order.  The memtable refines a
    finite map from keys to entries, tombstones included, and its byte count is the
    sum over the entries it holds, whatever was overwritten on the way. *)

From S2P Require Import Prelude SortedMap.

Record MemEntry : Type := mkMemEntry { me_value : bytes; me_tombstone : bool }.

#[export] Instance MemEntry_eq_dec : EqDecision MemEntry.
Proof. solve_decision. Defined.

Record Memtable : Type := mkMemtable { map_ : list (bytes * MemEntry); bytes_ : Z }.

Module MemtableOps.

Definition kEntryOverhead : Z := 64.

Definition empty_table : Memtable := mkMemtable [] 0.

(** [entry_bytes]. *)
Definition entry_bytes (key value : bytes) : Z := u64 (sz key + sz value + kEntryOverhead).

(** [Memtable::insert]. *)
Definition insert (key value : bytes) (tombstone : bool) (m : Memtable) : Memtable :=
  match map_find key (map_ m) with
  | Some e =>
      let b := u64 (bytes_ m - entry_bytes key (me_value e)) in
      mkMemtable (map_assign key (mkMemEntry value tombstone) (map_ m))
        (u64 (b + entry_bytes key value))
  | None =>
      mkMemtable (map_emplace key (mkMemEntry value tombstone) (map_ m))
        (u64 (bytes_ m + entry_bytes key value))
  end.

(** [Memtable::put]. *)
Definition put (key value : bytes) (m : Memtable) : Memtable := insert key value false m.

(** [Memtable::remove]. *)
Definition remove (key : bytes) (m : Memtable) : Memtable := insert key [] true m.

(** [Memtable::get]. *)
Definition get (key : bytes) (m : Memtable) : option MemEntry := map_find key (map_ m).

(** [Memtable::clear]. *)
Definition clear (m : Memtable) : Memtable := mkMemtable [] 0.

Definition empty (m : Memtable) : bool := match map_ m with [] => true | _ => false end.
Definition size (m : Memtable) : Z := sz (map_ m).
Definition approximate_bytes (m : Memtable) : Z := bytes_ m.

(** * The finite map a memtable holds *)

Definition contents (m : Memtable) : gmap bytes MemEntry := as_map (map_ m).

(** What the byte count should be. *)
Definition footprint (l : list (bytes * MemEntry)) : Z :=
  foldr (λ e n, entry_bytes e.1 (me_value e.2) + n) 0 l.

(** A well-formed memtable: keys in order, an exact byte count (modulo 2{^64}). *)
Definition wf (m : Memtable) : Prop := ksorted (map_ m) ∧ bytes_ m = u64 (footprint (map_ m)).

Lemma wf_empty : wf empty_table.
Proof. by split. Qed.

Lemma get_contents key m : get key m = contents m !! key.
Proof. apply map_find_eq. Qed.

Lemma empty_contents m : empty m = true ↔ contents m = ∅.
Proof.
  unfold empty, contents. destruct (map_ m) as [|[k e] l]; [done|]. split; [done|].
  rewrite as_map_cons. intros E. apply (f_equal (lookup k)) in E. by rewrite lookup_insert_eq in E.
Qed.

Lemma contents_insert key value tombstone m :
  contents (insert key value tombstone m) = <[key := mkMemEntry value tombstone]> (contents m).
Proof.
  unfold contents, insert. destruct (map_find key (map_ m)) as [e|] eqn:E; simpl.
  - by eapply map_assign_map.
  - by apply map_emplace_map.
Qed.

Lemma footprint_assign key e e' l : map_find key l = Some e →
  footprint (map_assign key e' l) =
    footprint l - entry_bytes key (me_value e) + entry_bytes key (me_value e').
Proof.
  induction l as [|[k x] l IH]; simpl; [done|]. unfold key_eqb. case_bool_decide as E; simpl.
  - intros [= ->]. subst. lia.
  - intros Hf. rewrite IH by done. lia.
Qed.

Lemma footprint_emplace key e l :
  footprint (map_emplace key e l) = footprint l + entry_bytes key (me_value e).
Proof.
  induction l as [|[k x] l IH]; simpl; [lia|]. destruct (ltb key k); simpl; [lia|]. rewrite IH. lia.
Qed.

Lemma u64_add_l a b : u64 (u64 a + b) = u64 (a + b).
Proof. unfold u64. by rewrite Z.add_mod_idemp_l by lia. Qed.

Lemma u64_sub_l a b : u64 (u64 a - b) = u64 (a - b).
Proof. unfold u64. by rewrite Zminus_mod_idemp_l. Qed.

Lemma wf_insert key value tombstone m : wf m → wf (insert key value tombstone m).
Proof.
  intros [Hs Hb]. unfold wf, insert. destruct (map_find key (map_ m)) as [e|] eqn:E; simpl.
  - split; [by apply map_assign_sorted|]. erewrite footprint_assign by done. simpl.
    by rewrite Hb, u64_sub_l, u64_add_l.
  - split; [by apply map_emplace_sorted|]. rewrite footprint_emplace. simpl.
    by rewrite Hb, u64_add_l.
Qed.

(** A sequence of writes; a write of [None] is a delete. *)
Definition apply_write (m : Memtable) (w : bytes * option bytes) : Memtable :=
  match w with (key, Some value) => put key value m | (key, None) => remove key m end.

Definition write_entry_of (v : option bytes) : MemEntry :=
  match v with Some value => mkMemEntry value false | None => mkMemEntry [] true end.

Lemma contents_apply_write m k v : contents (apply_write m (k, v)) = <[k := write_entry_of v]> (contents m).
Proof. destruct v; apply contents_insert. Qed.

Lemma wf_apply_write m kv : wf m → wf (apply_write m kv).
Proof. destruct kv as [k [v|]]; apply wf_insert. Qed.

Lemma wf_writes ws m : wf m → wf (foldl apply_write m ws).
Proof. revert m. induction ws as [|w ws IH]; intros m Hm; simpl; [done|]. by apply IH, wf_apply_write. Qed.

Lemma contents_writes ws m :
  contents (foldl apply_write m ws) =
  foldl (λ db '(k, v), <[k := write_entry_of v]> db) (contents m) ws.
Proof.
  revert m. induction ws as [|[k v] ws IH]; intros m; cbn [foldl]; [done|].
  by rewrite IH, contents_apply_write.
Qed.

(** C28: After any sequence of puts and removes a memtable iterates its keys in strictly
    increasing order, answers every key with the last write to it, and reports
    exactly the footprint of the entries it holds. *)
Theorem memtable_correct ws :
  let m := foldl apply_write empty_table ws in
  ksorted (map_ m) ∧
  (∀ k, get k m = foldl (λ db '(k, v), <[k := write_entry_of v]> db) (∅ : gmap bytes MemEntry) ws !! k) ∧
  approximate_bytes m = u64 (footprint (map_ m)).
Proof.
  intros m. destruct (wf_writes ws empty_table wf_empty) as [Hs Hb]. split_and!; [done| |done].
  intros k. rewrite get_contents. unfold m. by rewrite contents_writes.
Qed.

End MemtableOps.
