(* ===== verification/SSTableFormat.v ===== *)
(** The file format of sorted tables: the namespace [sstable] of
    [include/kvstore/sstable.hpp] and [src/sstable.cpp], and the index loader.

    A table is a sequence of data blocks, a filter block, an index block and a
    footer.  Decoding never reads outside the bytes it is given, whatever they are,
    and decodes what the encoders wrote. *)

From S2P Require Import Prelude Status World Encoding Record FileNames SortedMap Memtable.

Module sstable.
Section SSTableFormat.
Context `{Platform}.

Definition kEntryHeaderSize : Z := 9.
Definition kBlockTrailerSize : Z := 4.
Definition kFlagTombstone : Z := record.kFlagTombstone.
Definition kDefaultBlockSize : Z := 4096.
Definition kIndexHeaderSize : Z := 4.
Definition kIndexEntryFixedSize : Z := 16.
Definition kFooterSize : Z := 44.
Definition kFormatVersion : Z := 1.
Definition kMagic : bytes := lit "KVST".

Record BlockEntry : Type := mkBlockEntry {
  be_key : bytes; be_value : bytes; be_tombstone : bool }.

Record IndexEntry : Type := mkIndexEntry {
  ie_key : bytes; ie_block_offset : Z; ie_block_size : Z }.

Record Footer : Type := mkFooter {
  ft_index_offset : Z; ft_index_size : Z; ft_filter_offset : Z; ft_filter_size : Z;
  ft_entry_count : Z; ft_format_version : Z }.

(** [as_view]: a view of bytes that must exist. *)
Definition as_view (l : bytes) (at_ len : Z) : result bytes :=
  if len =? 0 then ROk [] else require (at_ + len <=? sz l) (slice l at_ len).

(** The loop of [parse_block]. *)
Fixpoint parse_loop (fuel : nat) (payload : bytes) (at_ : Z) (out : list BlockEntry) :
    result (list BlockEntry) :=
  match fuel with
  | O => Stuck
  | S fuel =>
      if at_ <? sz payload then
        fail_if (sz payload - at_ <? kEntryHeaderSize)
          (corruption (lit "sstable block ends inside an entry header"));;
        key_size ← encoding.get_u32 payload at_;
        value_size ← encoding.get_u32 payload (at_ + 4);
        flags ← index payload (at_ + 8);
        let at_ := at_ + kEntryHeaderSize in
        let need := u64 (key_size + value_size) in
        fail_if (sz payload - at_ <? need)
          (corruption (lit "sstable block entry claims more bytes than the block holds"));;
        fail_if (key_size =? 0) (corruption (lit "sstable block entry has an empty key"));;
        key ← as_view payload at_ key_size;
        value ← as_view payload (at_ + key_size) value_size;
        let entry := mkBlockEntry key value (negb (Z.land flags kFlagTombstone =? 0)) in
        parse_loop fuel payload (at_ + need) (out ++ [entry])
      else ROk out
  end.

(** [sstable::parse_block]. *)
Definition parse_block (payload : bytes) : result (list BlockEntry) :=
  parse_loop (S (length payload)) payload 0 [].

(** [sstable::encode_footer]. *)
Definition encode_footer (footer : Footer) : bytes :=
  let out := append_u64 [] (ft_index_offset footer) in
  let out := append_u32 out (ft_index_size footer) in
  let out := append_u64 out (ft_filter_offset footer) in
  let out := append_u32 out (ft_filter_size footer) in
  let out := append_u64 out (ft_entry_count footer) in
  let out := append_u32 out (ft_format_version footer) in
  let crc := record.crc32_of out in
  let out := append_u32 out crc in
  append_bytes out kMagic.

(** [sstable::decode_footer]. *)
Definition decode_footer (bs : bytes) : result Footer :=
  fail_if (negb (sz bs =? kFooterSize))
    (corruption (lit "sstable footer is not the expected size"));;
  magic ← require (40 + sz kMagic <=? sz bs) (slice bs 40 (sz kMagic));
  fail_if (negb (key_eqb magic kMagic)) (corruption (lit "not an sstable: bad footer magic"));;
  crc ← encoding.get_u32 bs 36;
  fail_if (negb (crc =? record.crc32_of (slice bs 0 36)))
    (corruption (lit "sstable footer fails its crc"));;
  index_offset ← encoding.get_u64 bs 0;
  index_size ← encoding.get_u32 bs 8;
  filter_offset ← encoding.get_u64 bs 12;
  filter_size ← encoding.get_u32 bs 20;
  entry_count ← encoding.get_u64 bs 24;
  format_version ← encoding.get_u32 bs 32;
  fail_if (negb (format_version =? kFormatVersion))
    (corruption (lit "unsupported sstable format version " ++ std_to_string format_version));;
  ROk (mkFooter index_offset index_size filter_offset filter_size entry_count format_version).

(** The loop of [SSTable::load_index]. *)
Fixpoint load_index_loop (count : nat) (filter_offset : Z) (payload : bytes) (at_ : Z)
    (index_ : list IndexEntry) : result (Z * list IndexEntry) :=
  match count with
  | O => ROk (at_, index_)
  | S count =>
      fail_if (sz payload - at_ <? kIndexEntryFixedSize)
        (corruption (lit "sstable index ends inside an entry"));;
      key_size ← encoding.get_u32 payload at_;
      let at_ := at_ + 4 in
      fail_if ((key_size =? 0) || (sz payload - at_ <? key_size) ||
               (sz payload - at_ - key_size <? 12))
        (corruption (lit "sstable index entry claims more bytes than it holds"));;
      key ← as_view payload at_ key_size;
      let at_ := at_ + key_size in
      block_offset ← encoding.get_u64 payload at_;
      let at_ := at_ + 8 in
      block_size ← encoding.get_u32 payload at_;
      let at_ := at_ + 4 in
      fail_if ((block_size <? kBlockTrailerSize) || (filter_offset <? block_offset) ||
               (filter_offset - block_offset <? block_size))
        (corruption (lit "sstable index points outside the data region"));;
      fail_if (match last index_ with Some back => leb key (ie_key back) | None => false end)
        (corruption (lit "sstable index keys are not strictly increasing"));;
      load_index_loop count filter_offset payload at_
        (index_ ++ [mkIndexEntry key block_offset block_size])
  end.

(** [SSTable::load_index], with the filter offset of the loaded footer. *)
Definition load_index (filter_offset : Z) (payload : bytes) : result (list IndexEntry) :=
  count ← encoding.get_u32 payload 0;
  fail_if (sz payload - kIndexHeaderSize <? u64 (count * kIndexEntryFixedSize))
    (corruption (lit "sstable index declares more entries than it could hold"));;
  loaded ← load_index_loop (Z.to_nat count) filter_offset payload kIndexHeaderSize [];
  fail_if (negb (loaded.1 =? sz payload))
    (corruption (lit "sstable index has trailing bytes after its last entry"));;
  ROk loaded.2.

(** The index block [SSTableBuilder::finish] writes, without its checksum. *)
Definition encode_index (index_ : list IndexEntry) : bytes :=
  foldl (λ out entry,
    let out := append_u32 out (u32 (sz (ie_key entry))) in
    let out := append_bytes out (ie_key entry) in
    let out := append_u64 out (ie_block_offset entry) in
    append_u32 out (ie_block_size entry))
    (append_u32 [] (u32 (sz index_))) index_.

(** * Safety *)

Lemma safe_as_view c l at_ len : 0 ≤ at_ → at_ + len ≤ sz l → safe c (as_view l at_ len).
Proof. intros. unfold as_view. destruct (len =? 0); [done|]. by apply safe_require, Z.leb_le. Qed.

#[local] Hint Extern 1 (safe _ (as_view _ _ _)) => apply safe_as_view; lia : safe.

(** Reads [key_size] and [value_size] as what they are: 32-bit numbers. *)
Ltac u32_facts :=
  repeat match goal with
  | H : encoding.get_u32 _ _ = ROk _ |- _ => apply get_u32_range in H; unfold UINT32_MAX in H
  end.

Lemma parse_loop_safe fuel payload at_ out : 0 ≤ at_ ≤ sz payload →
  sz payload - at_ < Z.of_nat fuel → safe Corruption (parse_loop fuel payload at_ out).
Proof.
  revert at_ out. induction fuel as [|fuel IH]; intros at_ out Hat Hf; [lia|].
  cbn [parse_loop]. destruct (Z.ltb_spec at_ (sz payload)); [|done]. unfold kEntryHeaderSize.
  do 4 (apply safe_bind; [arith_hyps; auto with safe|intros ? ?]; arith_hyps). cbv zeta. u32_facts.
  rewrite u64_id by (unfold UINT64_MAX; lia).
  do 4 (apply safe_bind; [arith_hyps; auto with safe|intros ? ?]; arith_hyps). apply IH; lia.
Qed.

Lemma parse_block_safe payload : safe Corruption (parse_block payload).
Proof. apply parse_loop_safe; pose proof (sz_nonneg payload); unfold sz in *; lia. Qed.

Lemma decode_table_footer_safe bs : safe Corruption (decode_footer bs).
Proof.
  unfold decode_footer, kFooterSize. apply safe_bind; [auto with safe|]. intros [] ?; arith_hyps.
  repeat (apply safe_bind; [first [apply safe_require, Z.leb_le; change (sz kMagic) with 4; lia
    | auto with safe]|intros ? ?]).
  auto with safe.
Qed.

Lemma decode_footer_range bs f : decode_footer bs = ROk f →
  0 ≤ ft_index_offset f ∧ 0 ≤ ft_index_size f ≤ UINT32_MAX ∧
  0 ≤ ft_filter_offset f ∧ 0 ≤ ft_filter_size f ≤ UINT32_MAX.
Proof.
  unfold decode_footer. intros Hd. rinv. arith_hyps. unfold kFooterSize in *. cbn.
  repeat match goal with
  | H : encoding.get_u32 _ _ = ROk _ |- _ => apply get_u32_range in H
  | H : encoding.get_u64 _ _ = ROk _ |- _ => apply get_u64_range in H; [|lia|lia]
  end. lia.
Qed.

(** What a loaded index guarantees: every block lies in the data region and is long
    enough for its checksum, and the keys ascend. *)
Definition index_ok (filter_offset : Z) (index_ : list IndexEntry) : Prop :=
  Forall (λ e, kBlockTrailerSize ≤ ie_block_size e ≤ UINT32_MAX ∧ 0 ≤ ie_block_offset e ∧
    ie_block_offset e + ie_block_size e ≤ filter_offset) index_ ∧
  StronglySorted (λ a b, klt (ie_key a) (ie_key b)) index_.

Lemma sorted_snoc {A} (f : A → bytes) (l : list A) x :
  StronglySorted (λ a b, klt (f a) (f b)) l →
  match last l with Some back => klt (f back) (f x) | None => True end →
  StronglySorted (λ a b, klt (f a) (f b)) (l ++ [x]).
Proof.
  intros Hs Hl. apply StronglySorted_app. split_and!; [|done|repeat constructor].
  intros a b Ha ->%list_elem_of_singleton. destruct l as [|y l _] using rev_ind; [by apply elem_of_nil in Ha|].
  rewrite last_snoc in Hl. apply elem_of_app in Ha as [Ha| ->%list_elem_of_singleton]; [|done].
  apply StronglySorted_app in Hs as (Hs & _ & _).
  specialize (Hs a y Ha ltac:(by apply list_elem_of_singleton)). korder.
Qed.

Lemma load_index_loop_safe count filter_offset payload at_ index_ : 0 ≤ at_ ≤ sz payload →
  safe Corruption (load_index_loop count filter_offset payload at_ index_).
Proof.
  revert at_ index_. induction count as [|count IH]; intros at_ index_ Hat; [done|].
  cbn [load_index_loop]. unfold kIndexEntryFixedSize. cbv zeta.
  do 3 (apply safe_bind; [arith_hyps; auto with safe|intros ? ?]; arith_hyps). u32_facts.
  do 5 (apply safe_bind; [arith_hyps; auto with safe|intros ? ?]; arith_hyps).
  apply IH; lia.
Qed.

Lemma load_index_loop_ok count filter_offset payload at_ index_ r : 0 ≤ at_ →
  load_index_loop count filter_offset payload at_ index_ = ROk r →
  index_ok filter_offset index_ → index_ok filter_offset r.2.
Proof.
  revert at_ index_. induction count as [|count IH]; intros at_ index_; cbn [load_index_loop];
    [by intros ? [= <-]|].
  intros Hat Hl [Hf Hs]. rinv. arith_hyps. u32_facts.
  match goal with H : load_index_loop _ _ _ _ _ = _ |- _ => apply IH in H; [done|lia|] end.
  split.
  - apply Forall_app. split; [done|]. apply Forall_singleton. simpl.
    match goal with H : encoding.get_u64 _ _ = ROk _ |- _ => apply get_u64_range in H; [|lia|lia] end.
    unfold UINT32_MAX. lia.
  - apply sorted_snoc; [done|]. destruct (last index_) as [back|]; [|done]. simpl. korder.
Qed.

Lemma load_index_safe filter_offset payload : kIndexHeaderSize ≤ sz payload →
  safe Corruption (load_index filter_offset payload).
Proof.
  unfold kIndexHeaderSize. intros Hs. unfold load_index.
  do 2 (apply safe_bind; [auto with safe|intros ? ?]).
  apply safe_bind; [|intros ? ?; safe]. apply load_index_loop_safe. unfold kIndexHeaderSize. lia.
Qed.

Lemma load_index_ok filter_offset payload index_ :
  load_index filter_offset payload = ROk index_ → index_ok filter_offset index_.
Proof.
  unfold load_index. intros Hl. rinv.
  match goal with H : load_index_loop _ _ _ _ _ = _ |- _ => apply load_index_loop_ok in H; [done|done|] end.
  by repeat constructor.
Qed.

(** * Round trips *)

(** The value an entry stores; a tombstone stores none. *)
Definition stored (e : MemEntry) : bytes := if me_tombstone e then [] else me_value e.

Definition block_entry (e : bytes * MemEntry) : BlockEntry :=
  mkBlockEntry e.1 (stored e.2) (me_tombstone e.2).

Definition enc_entry (e : bytes * MemEntry) : bytes :=
  le32 (sz e.1) ++ le32 (sz (stored e.2)) ++
  [byte.of_Z (if me_tombstone e.2 then kFlagTombstone else 0)] ++ e.1 ++ stored e.2.

Definition enc_block (es : list (bytes * MemEntry)) : bytes := concat (enc_entry <$> es).

(** An entry the builder accepts. *)
Definition entry_fits (e : bytes * MemEntry) : Prop :=
  e.1 ≠ [] ∧ kEntryHeaderSize + sz e.1 + sz (stored e.2) ≤ record.kMaxRecordSize.

Lemma entry_fits_sizes e : entry_fits e →
  0 < sz e.1 ≤ UINT32_MAX ∧ 0 ≤ sz (stored e.2) ≤ UINT32_MAX ∧
  sz (enc_entry e) = kEntryHeaderSize + sz e.1 + sz (stored e.2).
Proof.
  intros [Hk Hs]. unfold record.kMaxRecordSize, kEntryHeaderSize in *.
  assert (0 < sz e.1) by (destruct (e.1); [done|]; rewrite sz_cons; pose proof (sz_nonneg l); lia).
  pose proof (sz_nonneg (stored e.2)). split_and!; try lia.
  unfold enc_entry. rewrite !sz_app, !sz_le32. change (sz [_]) with 1. lia.
Qed.

Lemma enc_block_cons e es : enc_block (e :: es) = enc_entry e ++ enc_block es.
Proof. done. Qed.

Lemma enc_block_app es1 es2 : enc_block (es1 ++ es2) = enc_block es1 ++ enc_block es2.
Proof. unfold enc_block. by rewrite fmap_app, concat_app. Qed.

Lemma flag_tombstone (b : bool) :
  negb (Z.land (byte.unsigned (byte.of_Z (if b then kFlagTombstone else 0))) kFlagTombstone =? 0) = b.
Proof. by destruct b. Qed.

(** Fields behind a prefix. *)
Lemma get_u32_at (a b : bytes) n : 0 ≤ n → encoding.get_u32 (a ++ b) (sz a + n) = encoding.get_u32 b n.
Proof. intros. rewrite get_u32_skip by lia. f_equal. lia. Qed.
Lemma get_u64_at (a b : bytes) n : 0 ≤ n → encoding.get_u64 (a ++ b) (sz a + n) = encoding.get_u64 b n.
Proof. intros. rewrite get_u64_skip by lia. f_equal. lia. Qed.
Lemma index_at (a b : bytes) n : 0 ≤ n → index (a ++ b) (sz a + n) = index b n.
Proof. intros. rewrite index_app_r by lia. f_equal. lia. Qed.

Lemma as_view_mid (a b c : bytes) at_ n : at_ = sz a → n = sz b → as_view (a ++ b ++ c) at_ n = ROk b.
Proof.
  intros -> ->. unfold as_view. destruct (Z.eqb_spec (sz b) 0) as [E|E].
  - by rewrite (sz_zero_nil b).
  - rewrite require_true; [by rewrite slice_mid|]. apply Z.leb_le. rewrite !sz_app.
    pose proof (sz_nonneg c). lia.
Qed.

Lemma enc_entry_fields e rest : entry_fits e →
  encoding.get_u32 (enc_entry e ++ rest) 0 = ROk (sz e.1) ∧
  encoding.get_u32 (enc_entry e ++ rest) 4 = ROk (sz (stored e.2)) ∧
  index (enc_entry e ++ rest) 8 =
    ROk (byte.unsigned (byte.of_Z (if me_tombstone e.2 then kFlagTombstone else 0))).
Proof.
  intros (Hk & Hv & _)%entry_fits_sizes. unfold enc_entry. rewrite <-!app_assoc.
  split_and!; autorewrite with rd; first [apply rd_u32_here | apply rd_idx_single]; lia.
Qed.

Lemma enc_entry_views pre e rest :
  as_view (pre ++ enc_entry e ++ rest) (sz pre + 9) (sz e.1) = ROk e.1 ∧
  as_view (pre ++ enc_entry e ++ rest) (sz pre + 9 + sz e.1) (sz (stored e.2)) = ROk (stored e.2).
Proof.
  set (hdr := le32 (sz e.1) ++ le32 (sz (stored e.2)) ++
    [byte.of_Z (if me_tombstone e.2 then kFlagTombstone else 0)]).
  assert (Hh : sz hdr = 9) by (unfold hdr; by rewrite !sz_app, !sz_le32).
  assert (E : pre ++ enc_entry e ++ rest = (pre ++ hdr) ++ e.1 ++ stored e.2 ++ rest).
  { unfold enc_entry, hdr. by rewrite <-!app_assoc. }
  rewrite E. split.
  - apply as_view_mid; rewrite ?sz_app; lia.
  - rewrite (app_assoc (pre ++ hdr)). apply as_view_mid; rewrite ?sz_app; lia.
Qed.

(** The entry at the front of the rest of a block. *)
Lemma parse_step fuel pre e rest out : entry_fits e →
  parse_loop (S fuel) (pre ++ enc_entry e ++ rest) (sz pre) out =
  parse_loop fuel ((pre ++ enc_entry e) ++ rest) (sz (pre ++ enc_entry e)) (out ++ [block_entry e]).
Proof.
  intros Hfit. destruct (entry_fits_sizes e Hfit) as (Hk & Hv & He). cbn [parse_loop].
  pose proof (sz_nonneg rest). pose proof (sz_nonneg pre). unfold kEntryHeaderSize, UINT32_MAX in *.
  rewrite (proj2 (Z.ltb_lt _ _)) by (rewrite !sz_app; lia).
  rewrite (proj2 (Z.ltb_ge _ _)) by (rewrite !sz_app; lia). cbn [fail_if mbind result_bind].
  rewrite <-(Z.add_0_r (sz pre)) at 1. rewrite !get_u32_at, index_at by lia.
  destruct (enc_entry_fields e rest Hfit) as (-> & -> & ->). cbn [mbind result_bind]. cbv zeta.
  rewrite u64_id by (unfold UINT64_MAX; lia).
  rewrite (proj2 (Z.ltb_ge _ _)) by (rewrite !sz_app; lia). cbn [fail_if mbind result_bind].
  rewrite (proj2 (Z.eqb_neq (sz e.1) 0)) by lia. cbn [fail_if mbind result_bind].
  destruct (enc_entry_views pre e rest) as [-> ->]. cbn [mbind result_bind]. rewrite flag_tombstone. rewrite <-app_assoc, !sz_app, He.
  f_equal. lia.
Qed.

Lemma parse_entries es : Forall entry_fits es → ∀ fuel pre out, (length es < fuel)%nat →
  parse_loop fuel (pre ++ enc_block es) (sz pre) out = ROk (out ++ (block_entry <$> es)).
Proof.
  induction 1 as [|e es He Hes IH]; intros fuel pre out Hf; destruct fuel as [|fuel]; simpl in Hf; try lia.
  - cbn [parse_loop]. rewrite app_nil_r, Z.ltb_irrefl. cbn. by rewrite app_nil_r.
  - rewrite enc_block_cons, parse_step by done. rewrite IH by lia. by rewrite <-app_assoc.
Qed.

Lemma length_enc_block es : Forall entry_fits es → (length es ≤ length (enc_block es))%nat.
Proof.
  induction 1 as [|e es He Hes IH]; [done|]. rewrite enc_block_cons, length_app, length_cons.
  apply entry_fits_sizes in He as (? & ? & Hs). unfold kEntryHeaderSize, sz in *. lia.
Qed.

Lemma parse_enc_block es : Forall entry_fits es → parse_block (enc_block es) = ROk (block_entry <$> es).
Proof.
  intros Hes. unfold parse_block. apply (parse_entries es Hes _ [] []).
  pose proof (length_enc_block es Hes). lia.
Qed.

(** ** The footer *)

Definition footer_body (f : Footer) : bytes :=
  le64 (ft_index_offset f) ++ le32 (ft_index_size f) ++ le64 (ft_filter_offset f) ++
  le32 (ft_filter_size f) ++ le64 (ft_entry_count f) ++ le32 (ft_format_version f).

Lemma sz_table_footer_body f : sz (footer_body f) = 36.
Proof. unfold footer_body. by rewrite !sz_app, !sz_le64, !sz_le32. Qed.

Lemma encode_table_footer_eq f :
  encode_footer f = footer_body f ++ le32 (record.crc32_of (footer_body f)) ++ kMagic.
Proof.
  unfold encode_footer, footer_body, append_bytes.
  by rewrite !append_u32_eq, !append_u64_eq, app_nil_l, <-!app_assoc.
Qed.

Lemma sz_encode_table_footer f : sz (encode_footer f) = kFooterSize.
Proof. rewrite encode_table_footer_eq, !sz_app, sz_table_footer_body, sz_le32. done. Qed.

(** Fields that fit their widths, at the version this code writes. *)
Definition footer_ok (f : Footer) : Prop :=
  0 ≤ ft_index_offset f ≤ UINT64_MAX ∧ 0 ≤ ft_index_size f ≤ UINT32_MAX ∧
  0 ≤ ft_filter_offset f ≤ UINT64_MAX ∧ 0 ≤ ft_filter_size f ≤ UINT32_MAX ∧
  0 ≤ ft_entry_count f ≤ UINT64_MAX ∧ ft_format_version f = kFormatVersion.

Lemma footer_fields f tl : footer_ok f →
  encoding.get_u64 (footer_body f ++ tl) 0 = ROk (ft_index_offset f) ∧
  encoding.get_u32 (footer_body f ++ tl) 8 = ROk (ft_index_size f) ∧
  encoding.get_u64 (footer_body f ++ tl) 12 = ROk (ft_filter_offset f) ∧
  encoding.get_u32 (footer_body f ++ tl) 20 = ROk (ft_filter_size f) ∧
  encoding.get_u64 (footer_body f ++ tl) 24 = ROk (ft_entry_count f) ∧
  encoding.get_u32 (footer_body f ++ tl) 32 = ROk (ft_format_version f).
Proof.
  intros (? & ? & ? & ? & ? & Hv). rewrite Hv. unfold footer_body. rewrite Hv, <-!app_assoc.
  split_and!; autorewrite with rd; first [apply rd_u64_here | apply rd_u32_here]; (lia || done).
Qed.

Lemma decode_encoded_table_footer f : footer_ok f → decode_footer (encode_footer f) = ROk f.
Proof.
  intros Hok. pose proof Hok as (_ & _ & _ & _ & _ & H6). unfold decode_footer.
  rewrite sz_encode_table_footer, Z.eqb_refl. cbn [fail_if negb mbind result_bind].
  rewrite require_true by done. cbn [mbind result_bind].
  set (tl := le32 (record.crc32_of (footer_body f)) ++ kMagic).
  assert (E : encode_footer f = footer_body f ++ tl) by apply encode_table_footer_eq.
  assert (Em : slice (encode_footer f) 40 (sz kMagic) = kMagic).
  { rewrite encode_table_footer_eq, app_assoc. apply slice_suffix; [|done].
    by rewrite sz_app, sz_table_footer_body, sz_le32. }
  rewrite Em. unfold key_eqb. rewrite bool_decide_eq_true_2 by done. cbn [fail_if negb mbind result_bind].
  rewrite E. replace (encoding.get_u32 (footer_body f ++ tl) 36) with
    (ROk (record.crc32_of (footer_body f))).
  2: { symmetry. apply get_u32_app; [by rewrite sz_table_footer_body|apply record.crc32_of_range]. }
  cbn [mbind result_bind]. rewrite slice_prefix by (by rewrite sz_table_footer_body).
  rewrite Z.eqb_refl. cbn [fail_if negb mbind result_bind].
  destruct (footer_fields f tl) as (-> & -> & -> & -> & -> & ->); [done|].
  cbn [mbind result_bind]. rewrite H6, Z.eqb_refl.
  cbn [fail_if negb mbind result_bind]. rewrite <-H6. by destruct f.
Qed.

(** ** The index *)

Definition enc_index (e : IndexEntry) : bytes :=
  le32 (sz (ie_key e)) ++ ie_key e ++ le64 (ie_block_offset e) ++ le32 (ie_block_size e).

Definition index_fits (e : IndexEntry) : Prop :=
  0 < sz (ie_key e) ≤ UINT32_MAX ∧ 0 ≤ ie_block_offset e ≤ UINT64_MAX ∧
  0 ≤ ie_block_size e ≤ UINT32_MAX.

Lemma encode_index_eq idx : encode_index idx = le32 (sz idx) ++ concat (enc_index <$> idx).
Proof.
  unfold encode_index. rewrite append_u32_eq, app_nil_l, le32_u32.
  generalize (le32 (sz idx)). intros out. revert out.
  induction idx as [|e idx IH]; intros out; cbn [foldl]; [by rewrite app_nil_r|].
  rewrite IH. cbv zeta. unfold append_bytes. rewrite !append_u32_eq, append_u64_eq, le32_u32.
  csimpl. unfold enc_index. by rewrite <-!app_assoc.
Qed.

Lemma sz_enc_index e : sz (enc_index e) = kIndexEntryFixedSize + sz (ie_key e).
Proof. unfold enc_index, kIndexEntryFixedSize. rewrite !sz_app, sz_le64, !sz_le32. lia. Qed.

Lemma enc_index_fields pre e rest : index_fits e →
  encoding.get_u32 (pre ++ enc_index e ++ rest) (sz pre) = ROk (sz (ie_key e)) ∧
  as_view (pre ++ enc_index e ++ rest) (sz pre + 4) (sz (ie_key e)) = ROk (ie_key e) ∧
  encoding.get_u64 (pre ++ enc_index e ++ rest) (sz pre + 4 + sz (ie_key e)) = ROk (ie_block_offset e) ∧
  encoding.get_u32 (pre ++ enc_index e ++ rest) (sz pre + 4 + sz (ie_key e) + 8) = ROk (ie_block_size e).
Proof.
  intros (Hk & Ho & Hs). set (hdr := le32 (sz (ie_key e))).
  assert (Hh : sz hdr = 4) by apply sz_le32.
  assert (E : pre ++ enc_index e ++ rest =
    pre ++ hdr ++ ie_key e ++ le64 (ie_block_offset e) ++ le32 (ie_block_size e) ++ rest).
  { unfold enc_index, hdr. by rewrite <-!app_assoc. }
  rewrite E. split_and!.
  - apply get_u32_app; [done|lia].
  - rewrite (app_assoc pre). apply as_view_mid; rewrite ?sz_app; lia.
  - rewrite (app_assoc pre), (app_assoc (pre ++ hdr)). apply get_u64_app; [|lia]. rewrite !sz_app. lia.
  - rewrite (app_assoc pre), (app_assoc (pre ++ hdr)), (app_assoc ((pre ++ hdr) ++ ie_key e)).
    apply get_u32_app; [|lia]. rewrite !sz_app, sz_le64. lia.
Qed.

Lemma load_index_step count fo pre e rest idx : index_fits e → index_ok fo (idx ++ [e]) →
  load_index_loop (S count) fo (pre ++ enc_index e ++ rest) (sz pre) idx =
  load_index_loop count fo ((pre ++ enc_index e) ++ rest) (sz (pre ++ enc_index e)) (idx ++ [e]).
Proof.
  intros Hfit [Hin Hs]. destruct (enc_index_fields pre e rest Hfit) as (E1 & E2 & E3 & E4).
  destruct Hfit as (Hk & Ho & Hb). pose proof (sz_enc_index e) as He. unfold kIndexEntryFixedSize in *.
  pose proof (sz_nonneg rest). pose proof (sz_nonneg pre). cbn [load_index_loop]. cbv zeta.
  unfold kIndexEntryFixedSize.
  rewrite (proj2 (Z.ltb_ge _ _)) by (rewrite !sz_app; lia). cbn [fail_if mbind result_bind].
  rewrite E1. cbn [mbind result_bind].
  rewrite (proj2 (Z.eqb_neq (sz (ie_key e)) 0)) by lia.
  rewrite !(proj2 (Z.ltb_ge (_ - _) _)) by (rewrite !sz_app; lia). cbn [orb fail_if mbind result_bind].
  rewrite E2. cbn [mbind result_bind]. rewrite E3. cbn [mbind result_bind]. rewrite E4.
  cbn [mbind result_bind]. apply Forall_app in Hin as [_ Hin]. apply Forall_singleton in Hin as (Hb1 & Hb2 & Hb3).
  rewrite (proj2 (Z.ltb_ge (ie_block_size e) _)) by lia.
  rewrite (proj2 (Z.ltb_ge fo _)) by lia. rewrite (proj2 (Z.ltb_ge (fo - _) _)) by lia.
  cbn [orb fail_if mbind result_bind].
  replace (match last idx with Some back => leb (ie_key e) (ie_key back) | None => false end) with false.
  2: { destruct (last idx) as [back|] eqn:El; [|done]. symmetry.
       apply StronglySorted_app in Hs as (Hs & _ & _). apply last_Some_elem_of in El.
       specialize (Hs back e El ltac:(by apply list_elem_of_singleton)). korder. }
  cbn [fail_if mbind result_bind]. rewrite <-app_assoc, !sz_app, He. destruct e; cbn in *. f_equal. lia.
Qed.

Lemma load_index_entries fo idx : Forall index_fits idx → ∀ done pre rest, index_ok fo (done ++ idx) →
  load_index_loop (length idx) fo (pre ++ concat (enc_index <$> idx) ++ rest) (sz pre) done =
  ROk (sz (pre ++ concat (enc_index <$> idx)), done ++ idx).
Proof.
  induction 1 as [|e idx He Hidx IH]; intros done pre rest Hok.
  - cbn. by rewrite !app_nil_r.
  - replace (done ++ e :: idx) with ((done ++ [e]) ++ idx) in * by (by rewrite <-app_assoc).
    change (concat (enc_index <$> e :: idx)) with (enc_index e ++ concat (enc_index <$> idx)).
    cbn [length]. rewrite <-(app_assoc (enc_index e)). rewrite load_index_step.
    + rewrite IH by done. by rewrite <-(app_assoc pre).
    + done.
    + destruct Hok as [Hf Hs]. rewrite Forall_app in Hf. destruct Hf as [Hf _]. split; [done|].
      by apply StronglySorted_app_1_l in Hs.
Qed.

Lemma sz_encode_index idx : kIndexHeaderSize + kIndexEntryFixedSize * sz idx ≤ sz (encode_index idx).
Proof.
  rewrite encode_index_eq, sz_app, sz_le32. unfold kIndexHeaderSize, kIndexEntryFixedSize.
  enough (16 * sz idx ≤ sz (concat (enc_index <$> idx))) by lia.
  induction idx as [|e idx IH]; [done|].
  change (concat (enc_index <$> e :: idx)) with (enc_index e ++ concat (enc_index <$> idx)).
  rewrite sz_app, sz_enc_index, sz_cons. pose proof (sz_nonneg (ie_key e)).
  unfold kIndexEntryFixedSize. lia.
Qed.

Lemma load_encoded_index fo idx : Forall index_fits idx → index_ok fo idx →
  sz (encode_index idx) ≤ UINT32_MAX → load_index fo (encode_index idx) = ROk idx.
Proof.
  intros Hfit Hok Hsz. pose proof (sz_nonneg idx). pose proof (sz_encode_index idx) as Hc.
  rewrite encode_index_eq, sz_app, sz_le32 in Hc, Hsz. rewrite encode_index_eq. unfold load_index.
  unfold kIndexHeaderSize, kIndexEntryFixedSize in Hc.
  rewrite rd_u32_here by lia. cbn [mbind result_bind].
  unfold kIndexEntryFixedSize, UINT32_MAX in *.
  rewrite u64_id by (unfold UINT64_MAX; lia).
  rewrite (proj2 (Z.ltb_ge _ _)) by (rewrite sz_app, sz_le32; unfold kIndexHeaderSize; lia).
  cbn [fail_if mbind result_bind]. replace (Z.to_nat (sz idx)) with (length idx) by (unfold sz; lia).
  pose proof (load_index_entries fo idx Hfit [] (le32 (sz idx)) []) as Hl.
  rewrite sz_le32, app_nil_r, app_nil_l in Hl. unfold kIndexHeaderSize. rewrite Hl by done.
  cbn [mbind result_bind fst snd]. by rewrite Z.eqb_refl.
Qed.

End SSTableFormat.
End sstable.
