(* ===== verification/LogFile.v ===== *)
(** Append-only files: [include/kvstore/log_file.hpp], [src/log_file.cpp].

    A path is the name of a file in the database directory.  [fd_ >= 0] is the
    flag [lf_open]; destructors, whose [close] result is ignored, have no effect on
    the model and are left out. *)

From S2P Require Import Prelude Status World Wp.

Inductive SyncMode : Type := Always | Never.

Record LogFile : Type := mkLogFile {
  lf_open : bool;
  lf_path : bytes;
  end_offset_ : Z;
  sync_mode_ : SyncMode;
}.

Module LogFileOps.
Section LogFileOps.
Context `{Platform}.

Definition set_end (n : Z) (l : LogFile) : LogFile :=
  mkLogFile (lf_open l) (lf_path l) n (sync_mode_ l).

Definition set_closed (l : LogFile) : LogFile :=
  mkLogFile false (lf_path l) (end_offset_ l) (sync_mode_ l).

(** [LogFile::open]. *)
Definition open {S : Type} (path : bytes) (mode : SyncMode) : M S LogFile :=
  ok ← platform.open_read_write path;
  if negb ok then fail (io_error (lit "open " ++ path ++ lit ": " ++ os_error_text))
  else
    size ← platform.file_size path;
    if size <? 0 then
      _ ← platform.close_fd path;
      fail (io_error (lit "stat " ++ path ++ lit ": " ++ os_error_text))
    else mret (mkLogFile true path (u64 size) mode).

(** [LogFile::check_open]. *)
Definition check_open (what : bytes) : M LogFile unit :=
  l ← get;
  if negb (lf_open l)
  then fail (io_error (what ++ lit " on a closed file: " ++ lf_path l))
  else mret tt.

(** [LogFile::close]. *)
Definition close : M LogFile unit :=
  l ← get;
  if negb (lf_open l) then mret tt
  else
    rc ← platform.close_fd (lf_path l);
    modify set_closed;;
    if negb (rc =? 0)
    then fail (io_error (lit "close " ++ lf_path l ++ lit ": " ++ os_error_text))
    else mret tt.

(** [LogFile::sync]. *)
Definition sync : M LogFile unit :=
  check_open (lit "fsync");;
  l ← get;
  rc ← platform.fsync_fd (lf_path l);
  if negb (rc =? 0)
  then fail (io_error (lit "fsync " ++ lf_path l ++ lit ": " ++ os_error_text))
  else mret tt.

(** The write loop of [LogFile::append]. *)
Fixpoint append_loop (fuel : nat) (path bs : bytes) (offset written : Z) : M LogFile unit :=
  match fuel with
  | O => stuck
  | S fuel =>
      if written <? sz bs then
        n ← platform.pwrite_at path (drop (Z.to_nat written) bs) (u64 (offset + written));
        if n <? 0
        then fail (io_error (lit "write " ++ path ++ lit ": " ++ os_error_text))
        else if n =? 0
        then fail (io_error (lit "write made no progress on " ++ path))
        else append_loop fuel path bs offset (written + n)
      else mret tt
  end.

(** [LogFile::append]. *)
Definition append (bs : bytes) : M LogFile Z :=
  check_open (lit "append");;
  l ← get;
  let offset := end_offset_ l in
  append_loop (S (length bs)) (lf_path l) bs offset 0;;
  modify (λ l, set_end (u64 (end_offset_ l + sz bs)) l);;
  match sync_mode_ l with Always => sync | Never => mret tt end;;
  mret offset.

(** The read loop of [LogFile::read_at]. *)
Fixpoint read_loop (fuel : nat) (path : bytes) (size offset : Z) (buf : bytes) : M LogFile bytes :=
  match fuel with
  | O => stuck
  | S fuel =>
      let got := sz buf in
      if got <? size then
        r ← platform.pread_at path (size - got) (u64 (offset + got));
        match r with
        | None => fail (io_error (lit "read " ++ path ++ lit ": " ++ os_error_text))
        | Some chunk =>
            if sz chunk =? 0
            then fail (corruption (lit "short read: " ++ path ++ lit " ends inside the record"))
            else read_loop fuel path size offset (buf ++ chunk)
        end
      else mret buf
  end.

(** [LogFile::read_at]. *)
Definition read_at (offset size : Z) : M LogFile bytes :=
  check_open (lit "read");;
  l ← get;
  read_loop (S (Z.to_nat size)) (lf_path l) size offset [].

(** [LogFile::truncate]. *)
Definition truncate (length_ : Z) : M LogFile unit :=
  check_open (lit "truncate");;
  l ← get;
  rc ← platform.ftruncate_fd (lf_path l) length_;
  if negb (rc =? 0)
  then fail (io_error (lit "truncate " ++ lf_path l ++ lit ": " ++ os_error_text))
  else modify (set_end length_);; sync.

(** * Specifications

    A log holds the bytes [d] it has acknowledged, possibly followed by what failed
    appends left behind; [end_offset_] is where [d] ends. *)
Definition holds (l : LogFile) (w : World) (f : file) (d junk : bytes) : Prop :=
  lf_open l = true ∧ w_files w !! lf_path l = Some f ∧ f_data f = d ++ junk ∧
  end_offset_ l = sz d.

(** The file after [k] bytes of an append of [bs] have reached it. *)
Definition after_bytes (d junk bs : bytes) (k : nat) (f f' : file) : Prop :=
  (k ≤ length bs)%nat ∧ f_data f' = d ++ take k bs ++ drop k junk ∧
  (Nat.min (f_synced f) (length d) ≤ f_synced f')%nat.

Lemma write_data_app a b c n : n = sz a →
  platform.write_data (a ++ c) n b = a ++ b ++ drop (length b) c.
Proof.
  intros ->. unfold platform.write_data, splice. rewrite sz_app.
  replace (zeros _) with (@nil byte) by (unfold zeros; pose proof (sz_nonneg c);
    by replace (Z.to_nat _) with 0%nat by lia).
  unfold sz. rewrite app_nil_r, Nat2Z.id, take_app_length.
  by rewrite <-drop_drop, drop_app_length.
Qed.

Lemma after_bytes_0 d junk bs f : f_data f = d ++ junk → after_bytes d junk bs 0 f f.
Proof. intros Hf. split_and!; [lia | by rewrite take_0, drop_0 | lia]. Qed.

Lemma after_bytes_step d junk bs k j f f1 : (k ≤ length bs)%nat →
  after_bytes d junk bs k f f1 →
  after_bytes d junk bs (k + length (take j (drop k bs))) f
    (platform.write_file f1 (sz d + Z.of_nat k) (take j (drop k bs))).
Proof.
  intros Hk (_ & Hd & Hs). unfold after_bytes, platform.write_file. simpl. split_and!.
  - rewrite length_take, length_drop. lia.
  - rewrite Hd, (app_assoc d), write_data_app by (rewrite sz_app; len).
    rewrite <-!app_assoc, drop_drop, (app_assoc (take k bs)), take_take_drop.
    f_equal. f_equal. rewrite length_take, length_drop.
    destruct (decide (j ≤ length bs - k)%nat); [f_equal; lia|].
    by rewrite !take_ge by lia.
  - unfold sz. lia.
Qed.

Lemma wp_append_loop bs d junk f0 : sz d + sz bs ≤ UINT64_MAX →
  ∀ fuel k l w f,
  w_files w !! lf_path l = Some f → after_bytes d junk bs k f0 f →
  (length bs < fuel + k)%nat →
  wp (append_loop fuel (lf_path l) bs (sz d) (Z.of_nat k)) l w
    (λ _ l' w', l' = l ∧ ∃ f', files_are (<[lf_path l := f']> (w_files w)) w w' ∧
      after_bytes d junk bs (length bs) f0 f')
    (λ e l' w', l' = l ∧ ¬ reliable w ∧ code_ e = IOError ∧
      ∃ f' k', files_are (<[lf_path l := f']> (w_files w)) w w' ∧ after_bytes d junk bs k' f0 f')
    (λ w', ∃ f' k', files_are (<[lf_path l := f']> (w_files w)) w w' ∧
      after_bytes d junk bs k' f0 f').
Proof.
  intros Hmax. induction fuel as [|fuel IH]; intros k l w f Hf Ha Hfuel.
  { destruct Ha. lia. }
  cbn [append_loop]. destruct (Z.ltb_spec (Z.of_nat k) (sz bs)) as [Hlt|Hge].
  2: { apply wp_ret. split; [done|]. exists f. rewrite insert_id by done. split; [done|].
       destruct Ha as (? & ? & ?). replace (length bs) with k by (unfold sz in *; lia).
       done. }
  rewrite Nat2Z.id, u64_id by (pose proof (sz_nonneg d); lia).
  wp_call wp_pwrite_at; [done| |].
  2: { intros w1 _ ->. exists f, k. by rewrite insert_id. }
  intros n l1 w1 Hc [-> [(-> & Hq & Hs)|(j & -> & Hj & Hs)]].
  - simpl. apply wp_fail. split_and!; [done| |done|].
    + done.
    + exists f, k. rewrite insert_id by done. done.
  - pose proof Ha as [Hk _]. apply (after_bytes_step d junk bs k j f0 f Hk) in Ha.
    rewrite (proj2 (Z.ltb_ge _ 0)) by apply sz_nonneg.
    set (f1 := platform.write_file _ _ _) in *.
    destruct (Z.eqb_spec (sz (take j (drop k bs))) 0) as [E|E].
    + apply wp_fail. split_and!; [done| |done|].
      * intros Hq. assert (0 < sz (take j (drop k bs))); [|lia]. apply Hj; [done|].
        unfold sz in *. rewrite length_drop. lia.
      * destruct Hs as [Hs Ht]. eexists f1, _. split; [by split|]. done.
    + destruct Hs as [Hs Ht].
      replace (Z.of_nat k + sz (take j (drop k bs))) with
        (Z.of_nat (k + length (take j (drop k bs)))) by (unfold sz; lia).
      eapply wp_mono; [eapply (IH _ _ _ f1)|..].
      * by rewrite Hs, lookup_insert_eq.
      * done.
      * unfold sz in E. lia.
      * intros _ l' w' _ (-> & f' & [Hf' Ht'] & Ha'). split; [done|]. exists f'.
        unfold files_are. rewrite Hf', Hs, insert_insert_eq, Ht', Ht. done.
      * intros e l' w' _ (-> & Hq & ? & f' & k' & [Hf' Ht'] & Ha'). split_and!; [done|eauto with wp|done|].
        exists f', k'. unfold files_are. rewrite Hf', Hs, insert_insert_eq, Ht', Ht. done.
      * intros w' _ (f' & k' & [Hf' Ht'] & Ha').
        exists f', k'. unfold files_are. rewrite Hf', Hs, insert_insert_eq, Ht', Ht. done.
Qed.

Lemma wp_check_open {A} what (k : unit → M LogFile A) l w Q E D :
  lf_open l = true → wp (k tt) l w Q E D → wp (check_open what ≫= k) l w Q E D.
Proof. intros Ho HQ. unfold check_open. wp_pure. by rewrite Ho. Qed.

(** A fully synced file. *)
Definition fsynced (f : file) : file := mkFile (f_data f) (length (f_data f)).

Lemma wp_sync l w : lf_open l = true →
  wp sync l w
    (λ _ l' w', l' = l ∧ files_are (alter fsynced (lf_path l) (w_files w)) w w')
    (λ e l' w', l' = l ∧ ¬ reliable w ∧ code_ e = IOError ∧ same_files w w')
    (λ w', same_files w w').
Proof.
  intros Ho. unfold sync. apply wp_check_open; [done|]. wp_pure.
  wp_call wp_fsync_fd.
  intros n ? w1 _ [-> [[-> Hs]|(-> & Hq & Hs)]]; simpl; [by apply wp_ret|].
  by apply wp_fail.
Qed.

Lemma after_bytes_fsynced d junk bs k f f' :
  after_bytes d junk bs k f f' → after_bytes d junk bs k f (fsynced f').
Proof.
  intros (? & Hd & ?). split_and!; [done|done|]. simpl. rewrite Hd, length_app. lia.
Qed.

Lemma wp_append l w f d junk bs : holds l w f d junk → sz d + sz bs ≤ UINT64_MAX →
  wp (append bs) l w
    (λ off l' w', off = sz d ∧ l' = set_end (sz d + sz bs) l ∧
      ∃ f', files_are (<[lf_path l := f']> (w_files w)) w w' ∧
        after_bytes d junk bs (length bs) f f' ∧
        (sync_mode_ l = Always → f_synced f' = length (f_data f')))
    (λ e l' w', ¬ reliable w ∧ code_ e = IOError ∧
      ∃ f' k, files_are (<[lf_path l := f']> (w_files w)) w w' ∧ after_bytes d junk bs k f f' ∧
        (l' = l ∨ l' = set_end (sz d + sz bs) l ∧ k = length bs))
    (λ w', ∃ f' k, files_are (<[lf_path l := f']> (w_files w)) w w' ∧
      after_bytes d junk bs k f f').
Proof.
  intros (Ho & Hf & Hd & Hend) Hmax. unfold append. apply wp_check_open; [done|]. wp_pure.
  rewrite Hend. change 0 with (Z.of_nat 0) at 1.
  eapply wp_bind; [apply (wp_append_loop bs d junk f Hmax _ 0 l w f Hf); [by apply after_bytes_0|lia]| | |].
  - intros [] ? w1 Hc (-> & f1 & [Hs Ht] & Ha). wp_pure.
    rewrite Hend, u64_id by (pose proof (sz_nonneg d); pose proof (sz_nonneg bs); lia).
    destruct (sync_mode_ l) eqn:Hm.
    + wp_call wp_sync; [done| | |].
      * intros [] ? w2 _ (-> & Hs2 & Ht2). simpl in Hs2.
        apply wp_ret. split_and!; [done|done|]. exists (fsynced f1).
        split_and!; [|by apply after_bytes_fsynced|done].
        split; [by rewrite Hs2, Hs, alter_insert_eq|congruence].
      * intros e ? w2 _ (-> & Hq & ? & Hs2 & Ht2). split_and!; [eauto with wp|done|].
        exists f1, (length bs). split_and!; [split; congruence|done|by right].
      * intros w2 _ (Hs2 & Ht2). exists f1, (length bs). split; [split; congruence|done].
    + wp_pure. apply wp_ret. split_and!; [done|done|]. by exists f1.
  - intros e ? w1 _ (-> & Hq & He & f1 & k & ? & ?). split_and!; [done|done|].
    exists f1, k. split_and!; auto.
  - done.
Qed.

(** An append that returns Ok has put its bytes right behind the acknowledged
    ones and returns the offset where they start, and under [SyncMode::Always]
    everything is on the device by then.  An append that fails or dies leaves the
    acknowledged bytes in place, with at most a prefix of the new ones behind them,
    and only happens when a call fails. *)
Theorem append_spec l w f d junk bs : holds l w f d junk → sz d + sz bs ≤ UINT64_MAX →
  wp (append bs) l w
    (λ off l' w', off = sz d ∧ l' = set_end (sz d + sz bs) l ∧
      ∃ f', files_are (<[lf_path l := f']> (w_files w)) w w' ∧
        after_bytes d junk bs (length bs) f f' ∧
        (sync_mode_ l = Always → f_synced f' = length (f_data f')))
    (λ e l' w', ¬ reliable w ∧ code_ e = IOError ∧
      ∃ f' k, files_are (<[lf_path l := f']> (w_files w)) w w' ∧ after_bytes d junk bs k f f' ∧
        (l' = l ∨ l' = set_end (sz d + sz bs) l ∧ k = length bs))
    (λ w', ∃ f' k, files_are (<[lf_path l := f']> (w_files w)) w w' ∧
      after_bytes d junk bs k f f').
Proof. apply wp_append. Qed.

Lemma wp_read_loop l w f size offset :
  w_files w !! lf_path l = Some f → 0 ≤ offset → offset + size ≤ UINT64_MAX →
  ∀ fuel n w1, same_files w w1 → calm w w1 →
  0 ≤ n ≤ size → offset + n ≤ sz (f_data f) ∨ n = 0 → size - n < Z.of_nat fuel →
  wp (read_loop fuel (lf_path l) size offset (slice (f_data f) offset n)) l w1
    (λ bs l' w', l' = l ∧ same_files w w' ∧ bs = slice (f_data f) offset size ∧
       (0 < size → offset + size ≤ sz (f_data f)))
    (λ e l' w', l' = l ∧ same_files w w' ∧
       (¬ reliable w ∧ code_ e = IOError ∨ sz (f_data f) < offset + size ∧ code_ e = Corruption))
    (λ w', same_files w w').
Proof.
  intros Hf Ho Hmax. induction fuel as [|fuel IH]; intros n w1 Hs Hc Hn Hin Hfuel; [lia|].
  cbn [read_loop].
  assert (Hsz : sz (slice (f_data f) offset n) = n).
  { destruct Hin as [?| ->]; [rewrite sz_slice; lia|done]. }
  rewrite Hsz. destruct (Z.ltb_spec n size) as [Hlt|Hge].
  2: { assert (n = size) as -> by lia. apply wp_ret. split_and!; [done|done|done|]. lia. }
  rewrite u64_id by lia.
  assert (Hf1 : w_files w1 !! lf_path l = Some f) by (by destruct Hs as [-> _]).
  wp_call (wp_pread_at (lf_path l) (size - n) (offset + n) l w1 f Hf1); [lia|].
  intros r ? w2 Hc2 (-> & Hs2 & Hr).
  assert (Hs12 : same_files w w2) by (unfold same_files in *; destruct Hs, Hs2; split; congruence).
  assert (Hq : ¬ reliable w1 → ¬ reliable w) by eauto with wp.
  destruct r as [chunk|]; [|apply wp_fail; by eauto 10].
  destruct Hr as (m & Hm & ->).
  destruct (Z.eqb_spec (sz (slice (f_data f) (offset + n) m)) 0) as [E|E].
  - apply wp_fail. split_and!; [done|done|]. right. split; [|done].
    apply Z.nle_gt. intros Hle. revert E. unfold sz, slice in *.
    rewrite length_take, length_drop. lia.
  - assert (Hm' : ∃ m', 0 < m' ≤ size - n ∧ offset + n + m' ≤ sz (f_data f) ∧
      slice (f_data f) (offset + n) m = slice (f_data f) (offset + n) m').
    { exists (Z.min m (sz (f_data f) - (offset + n))). revert E. unfold sz, slice in *.
      rewrite length_take, length_drop. intros E. split_and!; [lia|lia|lia|].
      destruct (decide (m ≤ Z.of_nat (length (f_data f)) - (offset + n))); [f_equal; lia|].
      rewrite !take_ge by (rewrite length_drop; lia). done. }
    destruct Hm' as (m' & ? & ? & ->).
    rewrite <-slice_split by lia. apply IH; [done|by etrans|lia|lia|lia].
Qed.

(** A read returns exactly the bytes asked for; it fails with [Corruption] only
    when the file ends before them, with [IOError] only under a fault. *)
Lemma wp_read_at l w f offset size :
  lf_open l = true → w_files w !! lf_path l = Some f → 0 ≤ offset → 0 ≤ size →
  offset + size ≤ UINT64_MAX →
  wp (read_at offset size) l w
    (λ bs l' w', l' = l ∧ same_files w w' ∧ bs = slice (f_data f) offset size ∧
       (0 < size → offset + size ≤ sz (f_data f)))
    (λ e l' w', l' = l ∧ same_files w w' ∧
       (¬ reliable w ∧ code_ e = IOError ∨ sz (f_data f) < offset + size ∧ code_ e = Corruption))
    (λ w', same_files w w').
Proof.
  intros Ho Hf Hoff Hsize Hmax. unfold read_at. apply wp_check_open; [done|]. wp_pure.
  change [] with (slice (f_data f) offset 0). eapply wp_read_loop; try done; lia || by right.
Qed.

(** The directory after [open_read_write] found or created [path]. *)
Definition opened (path : bytes) (fs : gmap bytes file) : gmap bytes file :=
  match fs !! path with Some _ => fs | None => <[path := mkFile [] 0]> fs end.

Definition opened_file (path : bytes) (fs : gmap bytes file) : file :=
  default (mkFile [] 0) (fs !! path).

Lemma opened_lookup path fs : opened path fs !! path = Some (opened_file path fs).
Proof.
  unfold opened, opened_file. destruct (fs !! path) eqn:E; [done|]. by rewrite lookup_insert_eq.
Qed.

Lemma opened_lookup_ne path path' fs : path ≠ path' → opened path fs !! path' = fs !! path'.
Proof.
  intros. unfold opened. destruct (fs !! path) eqn:E; [done|]. by rewrite lookup_insert_ne.
Qed.

Lemma opened_existing path fs f : fs !! path = Some f → opened path fs = fs.
Proof. unfold opened. by intros ->. Qed.

(** The files of [fs] are in [fs'] with the same bytes; what [fs'] has more is empty. *)
Definition same_data (fs fs' : gmap bytes file) : Prop :=
  (∀ name f, fs !! name = Some f → ∃ f', fs' !! name = Some f' ∧ f_data f' = f_data f) ∧
  (∀ name f', fs' !! name = Some f' → fs !! name = None → f_data f' = []).

Lemma same_data_refl fs : same_data fs fs.
Proof. split; [by eauto|]. intros. simplify_eq. Qed.

Lemma same_data_trans fs1 fs2 fs3 : same_data fs1 fs2 → same_data fs2 fs3 → same_data fs1 fs3.
Proof.
  intros [H1 H2] [H3 H4]. split.
  - intros name f Hf. destruct (H1 _ _ Hf) as (f2 & Hf2 & <-). by apply H3.
  - intros name f3 Hf3 Hn. destruct (fs2 !! name) as [f2|] eqn:E2; [|by eapply H4].
    destruct (H3 _ _ E2) as (f3' & Hf3' & E). simplify_eq. rewrite E. by eapply H2.
Qed.

Lemma same_data_fsynced path fs : same_data fs (alter fsynced path fs).
Proof.
  split; intros name f Hf.
  - destruct (decide (path = name)) as [->|].
    + exists (fsynced f). by rewrite lookup_alter_eq, Hf.
    + exists f. by rewrite lookup_alter_ne.
  - intros E. destruct (decide (path = name)) as [->|].
    + by rewrite lookup_alter_eq, E in Hf.
    + rewrite lookup_alter_ne in Hf by done. congruence.
Qed.

Lemma same_data_opened path fs : same_data fs (opened path fs).
Proof.
  unfold opened. destruct (fs !! path) eqn:E; [apply same_data_refl|].
  split; intros name f Hf.
  - exists f. rewrite lookup_insert_ne by congruence. done.
  - rewrite lookup_insert in Hf. case_decide; simplify_eq; [done|]. intros. simplify_eq.
Qed.

(** Opening gives a log that ends where the file ends. *)
Lemma wp_open {S} path mode (s : S) w :
  sz (f_data (opened_file path (w_files w))) ≤ UINT64_MAX →
  wp (open path mode) s w
    (λ l s' w', s' = s ∧ files_are (opened path (w_files w)) w w' ∧
      l = mkLogFile true path (sz (f_data (opened_file path (w_files w)))) mode)
    (λ e s' w', s' = s ∧ ¬ reliable w ∧ code_ e = IOError ∧
      (same_files w w' ∨ files_are (opened path (w_files w)) w w'))
    (λ w', same_files w w' ∨ files_are (opened path (w_files w)) w w').
Proof.
  intros Hmax. unfold open. wp_call wp_open_read_write.
  2: { intros ? _ ->. by left. }
  intros ok ? w1 Hc (-> & Hok & Hs). destruct ok; simpl.
  2: { apply wp_fail. split_and!; [done| |done|by left]. by intros ?%Hok. }
  fold (opened path (w_files w)) in Hs. destruct Hs as [Hs Ht].
  assert (Hq : ¬ reliable w1 → ¬ reliable w) by eauto with wp.
  wp_call wp_file_size.
  { by rewrite Hs, opened_lookup. }
  2: { intros ? _ ->. by right. }
  intros n ? w2 Hc2 (-> & [Hs2 Ht2] & [-> |[-> Hq2]]).
  - rewrite (proj2 (Z.ltb_ge _ 0)) by apply sz_nonneg. apply wp_ret.
    rewrite u64_id by (split; [apply sz_nonneg|done]). split_and!; [done| |done].
    split; congruence.
  - simpl. wp_call wp_close_fd.
    + intros n ? w3 _ (-> & [Hs3 Ht3] & _). apply wp_fail.
      split_and!; [done|eauto with wp|done|]. right. split; congruence.
    + intros w3 _ ->. right. split; congruence.
Qed.

(** Truncating at the end of the acknowledged bytes drops exactly what is behind. *)
(** A leftover is removed before the file is opened, so the file starts empty. *)
Lemma wp_open_fresh {S} path mode (s : S) w : reliable w ∨ w_files w !! path = None →
  wp (_ ← platform.remove path; open path mode) s w
    (λ l s' w', s' = s ∧ touched path w w' ∧ l = mkLogFile true path 0 mode ∧
      w_files w' !! path = Some (mkFile [] 0))
    (λ e s' w', s' = s ∧ touched path w w' ∧ ¬ reliable w ∧ code_ e = IOError)
    (touched path w).
Proof.
  intros Hrel. wp_call wp_remove.
  intros ec s1 w1 Hc1 (-> & Hfiles).
  assert (touched path w w1 ∧ w_files w1 !! path = None) as [Ht1 Hnone].
  { destruct Hfiles as [(_ & Hfs & _)|(_ & Hq & Hfs & _)].
    - split; [intros name Hne; by rewrite Hfs, lookup_delete_ne|by rewrite Hfs, lookup_delete_eq].
    - destruct Hrel; [done|]. split; [intros name _; by rewrite Hfs|by rewrite Hfs]. }
  assert (Htouch : ∀ w', same_files w1 w' ∨ files_are (opened path (w_files w1)) w1 w' → touched path w w').
  { intros w' [Hs|[Hs _]]; (etrans; [exact Ht1|]); [by apply touched_same|].
    intros name Hne. by rewrite Hs, opened_lookup_ne. }
  assert (Hof : opened_file path (w_files w1) = mkFile [] 0) by (unfold opened_file; by rewrite Hnone).
  eapply wp_mono; [apply (wp_open path mode s w1); by rewrite Hof|..]; cbn beta.
  - intros l s2 w2 Hc2 (-> & Hs & ->). rewrite Hof. split_and!; [done|by apply Htouch; right|done|].
    by rewrite (proj1 Hs), opened_lookup, Hof.
  - intros e s2 w2 Hc2 (-> & Hq & Hcode & Hs). split_and!; [done|by apply Htouch|eauto with wp|done].
  - intros w2 _ Hs. by apply Htouch.
Qed.

Lemma wp_truncate l w f len : lf_open l = true → w_files w !! lf_path l = Some f →
  0 ≤ len ≤ sz (f_data f) →
  wp (truncate len) l w
    (λ _ l' w', l' = set_end len l ∧
      files_are (<[lf_path l := fsynced (platform.truncate_file len f)]> (w_files w)) w w')
    (λ e l' w', ¬ reliable w ∧ code_ e = IOError ∧
      (l' = l ∧ same_files w w' ∨ l' = set_end len l ∧
       files_are (<[lf_path l := platform.truncate_file len f]> (w_files w)) w w'))
    (λ w', same_files w w' ∨
       files_are (<[lf_path l := platform.truncate_file len f]> (w_files w)) w w').
Proof.
  intros Ho Hf Hlen. unfold truncate. apply wp_check_open; [done|]. wp_pure.
  wp_call wp_ftruncate_fd.
  2: { intros ? _ ->. by left. }
  intros n ? w1 Hc [-> [[-> [Hs Ht]]|(-> & Hq & Hs)]]; simpl.
  2: { apply wp_fail. by eauto 10. }
  wp_pure. assert (E : w_files w1 = <[lf_path l := platform.truncate_file len f]> (w_files w)).
  { rewrite Hs. apply map_eq. intros i. destruct (decide (i = lf_path l)) as [->|].
    - by rewrite lookup_alter_eq, lookup_insert_eq, Hf.
    - by rewrite lookup_alter_ne, lookup_insert_ne. }
  eapply wp_mono; [by apply wp_sync|..].
  - intros [] ? w2 _ (-> & Hs2 & Ht2). split; [done|]. split; [|congruence].
    by rewrite Hs2, E, alter_insert_eq.
  - intros e ? w2 _ (-> & Hq & ? & [Hs2 Ht2]). split_and!; [eauto with wp|done|].
    right. split; [done|]. split; congruence.
  - intros w2 _ [Hs2 Ht2]. right. split; congruence.
Qed.

Lemma wp_close l w : lf_open l = true →
  wp close l w
    (λ _ l' w', l' = set_closed l ∧ same_files w w')
    (λ e l' w', l' = set_closed l ∧ ¬ reliable w ∧ code_ e = IOError ∧ same_files w w')
    (λ w', same_files w w').
Proof.
  intros Ho. unfold close. wp_pure. rewrite Ho. simpl. wp_call wp_close_fd.
  intros n ? w1 Hc (-> & Hs & [-> |[-> Hq]]); wp_pure; simpl; [by apply wp_ret|].
  by apply wp_fail.
Qed.

Lemma truncate_file_data f len d junk : f_data f = d ++ junk → len = sz d →
  f_data (platform.truncate_file len f) = d.
Proof.
  intros Hd ->. unfold platform.truncate_file. simpl. rewrite Hd, sz_app.
  replace (zeros _) with (@nil byte) by (unfold zeros; pose proof (sz_nonneg junk);
    by replace (Z.to_nat _) with 0%nat by lia).
  unfold sz. by rewrite app_nil_r, Nat2Z.id, take_app_length.
Qed.

End LogFileOps.

Definition sample_world : World :=
  mkWorld {[ lit "a.log" := mkFile (lit "abc!") 0 ]} [EvShort 1; EvFail] [].
Definition sample_log : LogFile := mkLogFile true (lit "a.log") 3 Always.

Lemma append_spec_witness :
  @append reference_platform (lit "xyz") sample_log sample_world =
    Err (io_error (lit "write a.log: Input/output error")) sample_log
      (mkWorld {[ lit "a.log" := mkFile (lit "abcx") 0 ]} [] []) ∧
  @wp LogFile Z (@append reference_platform (lit "xyz")) sample_log sample_world
    (λ _ _ _, True) (λ e _ _, code_ e = IOError) (λ _, True).
Proof.
  split; [vm_compute; reflexivity|].
  eapply wp_mono; [apply (@append_spec reference_platform sample_log sample_world
    (mkFile (lit "abc!") 0) (lit "abc") (lit "!") (lit "xyz"))|..].
  - split_and!; vm_compute; reflexivity.
  - vm_compute. intros [=].
  - done.
  - by intros e l' w' _ (_ & He & _).
  - done.
Defined.

End LogFileOps.
