(* ===== verification/Power.v ===== *)
(** Loss of power.

    When the power fails, a file keeps what was synced of it, and of the rest possibly a
    part; the directory itself is durably.  This file says what a directory can be after
    that, and has the rules by which one shows that a method leaves nothing but temporary
    files unsynced: [looks] is for methods that only read, [saves] for the others. *)

From S2P Require Import Prelude Status FileNames World Wp LogFile.

(** Every byte of a file has been synced; of every file but the temporary ones. *)
Definition fully (f : file) : Prop := f_synced f = length (f_data f).
Definition permanent (name : bytes) : Prop := ∀ stem, name ≠ temp_name stem.

(** The files with these names are on the device. *)
Definition clean (X : bytes → Prop) (fs : gmap bytes file) : Prop := ∀ name f, X name → fs !! name = Some f → fully f.
Abbreviation synced := (clean permanent).

Section Clean.
Context {X : bytes → Prop}.

Lemma clean_insert fs name f : clean X fs → fully f → clean X (<[name := f]> fs).
Proof. intros Hs Hf name' f' Hp. rewrite lookup_insert. case_decide; [by intros [= <-]|by apply Hs]. Qed.

Lemma clean_insert_other fs name f : clean X fs → ¬ X name → clean X (<[name := f]> fs).
Proof. intros Hs Hn name' f' Hp. rewrite lookup_insert. case_decide; [by subst|by apply Hs]. Qed.

Lemma clean_subseteq fs fs' : fs' ⊆ fs → clean X fs → clean X fs'.
Proof. intros Hsub Hs name f Hp Hf. eapply Hs, lookup_weaken; eauto. Qed.

Lemma clean_delete fs name : clean X fs → clean X (delete name fs).
Proof. apply clean_subseteq, delete_subseteq. Qed.

Lemma clean_deleted fs path : clean X fs → clean (λ name, X name ∨ name = path) (delete path fs).
Proof.
  intros Hs name f Hx Hf. apply lookup_delete_Some in Hf as [Hne Hf]. destruct Hx as [Hx|]; [by eapply Hs|congruence].
Qed.

Lemma clean_opened path fs : clean X fs → clean X (LogFileOps.opened path fs).
Proof. intros Hs. unfold LogFileOps.opened. destruct (fs !! path); [done|]. by apply clean_insert. Qed.

Lemma clean_fsynced path fs : clean X fs → clean (λ name, X name ∨ name = path) (alter LogFileOps.fsynced path fs).
Proof.
  intros Hs name f Hx Hf. destruct (decide (path = name)) as [<-|Hne].
  - rewrite lookup_alter_eq in Hf. by destruct (fs !! path); simplify_eq/=.
  - rewrite lookup_alter_ne in Hf by done. destruct Hx as [Hx|]; [by eapply Hs|congruence].
Qed.

Lemma clean_renamed from to fs f : clean X fs → X from → fs !! from = Some f → clean X (<[to := f]> (delete from fs)).
Proof. intros Hs Hx Hf. apply clean_insert; [by apply clean_delete|by eapply Hs]. Qed.

Lemma clean_truncated path n fs : clean X fs → (∀ f, fs !! path = Some f → n ≤ sz (f_data f)) →
  clean X (alter (platform.truncate_file n) path fs).
Proof.
  intros Hs Hn name f Hx Hf. destruct (decide (path = name)) as [<-|Hne]; [|rewrite lookup_alter_ne in Hf by done; by eapply Hs].
  rewrite lookup_alter_eq in Hf. destruct (fs !! path) as [f0|] eqn:E; simplify_eq/=. specialize (Hn f0 eq_refl).
  pose proof (Hs _ _ Hx E) as Hfull. unfold fully, platform.truncate_file, zeros, sz in *. cbn.
  rewrite length_app, length_take, length_replicate. lia.
Qed.
End Clean.

Lemma clean_weaken (X Y : bytes → Prop) fs : (∀ name, Y name → X name) → clean X fs → clean Y fs.
Proof. intros Hxy Hs name f Hy. by apply Hs, Hxy. Qed.

(** ** What a power failure leaves *)

(** What the directory [fs] can be after a power failure: every file is cut off at some
    point behind what was synced of it, and what is left is on the device. *)
Definition power_cut (fs fs' : gmap bytes file) : Prop :=
  ∀ name, match fs !! name with
          | None => fs' !! name = None
          | Some f => ∃ f' n, fs' !! name = Some f' ∧ (f_synced f ≤ n)%nat ∧ f_data f' = take n (f_data f) ∧ fully f'
          end.

(** The device got [n] bytes more than was synced. *)
Definition cut_by (n : nat) (f : file) : file :=
  mkFile (take (f_synced f + n) (f_data f)) (length (take (f_synced f + n) (f_data f))).

Lemma cut_by_cut n fs : power_cut fs (cut_by n <$> fs).
Proof.
  intros name. rewrite lookup_fmap. destruct (fs !! name) as [f|]; [|done].
  exists (cut_by n f), (f_synced f + n)%nat. split_and!; [done|lia|done|done].
Qed.

Lemma cut_synced fs fs' : power_cut fs fs' → synced fs'.
Proof.
  intros Hc name f' _ Hf'. specialize (Hc name). destruct (fs !! name) as [f|]; [|congruence].
  destruct Hc as (g & n & Hg & _ & _ & Hfull). congruence.
Qed.

Lemma cut_some fs fs' name f' : power_cut fs fs' → fs' !! name = Some f' →
  ∃ f, fs !! name = Some f ∧ sz (f_data f') ≤ sz (f_data f).
Proof.
  intros Hc Hf'. specialize (Hc name). destruct (fs !! name) as [f|]; [|congruence].
  destruct Hc as (g & n & Hg & _ & Hd & _). exists f. split; [done|]. rewrite Hg in Hf'. simplify_eq.
  rewrite Hd. unfold sz. rewrite length_take. lia.
Qed.

Lemma cut_same fs fs' name : power_cut fs fs' → (∀ f, fs !! name = Some f → fully f) →
  f_data <$> fs' !! name = f_data <$> fs !! name.
Proof.
  intros Hc Hfull. specialize (Hc name). destruct (fs !! name) as [f|]; [|by rewrite Hc].
  destruct Hc as (f' & n & -> & Hn & Hd & _). specialize (Hfull f eq_refl). unfold fully in Hfull.
  cbn. rewrite Hd, take_ge by lia. done.
Qed.

(** [fs'] has the contents of [fs], temporary files apart. *)
Definition like (fs fs' : gmap bytes file) : Prop := ∀ name, permanent name → f_data <$> fs' !! name = f_data <$> fs !! name.

Lemma like_some fs fs' name f' : like fs fs' → permanent name → fs' !! name = Some f' →
  ∃ f, fs !! name = Some f ∧ f_data f' = f_data f.
Proof.
  intros He Hp Hf'. specialize (He name Hp). rewrite Hf' in He.
  destruct (fs !! name) as [f|]; simplify_eq/=. eauto.
Qed.

Lemma like_lookup fs fs' name f : like fs fs' → permanent name → fs !! name = Some f →
  ∃ f', fs' !! name = Some f' ∧ f_data f' = f_data f.
Proof.
  intros He Hp Hf. specialize (He name Hp). rewrite Hf in He.
  destruct (fs' !! name) as [f'|]; simplify_eq/=. eauto.
Qed.

(** Nothing is lost of a directory that is on the device. *)
Lemma cut_like fs fs' : synced fs → power_cut fs fs' → like fs fs'.
Proof. intros Hs Hc name Hp. apply cut_same; [done|]. intros f. by apply Hs. Qed.

(** ** Methods that only read *)

(** [m] changes no file, and keeps [P] of its object. *)
Definition looks {S A : Type} (P : S → Prop) (m : M S A) : Prop :=
  ∀ s w, P s →
    match m s w with
    | Ok _ s' w' | Err _ s' w' => P s' ∧ calm w w' ∧ w_files w' = w_files w
    | Died w' => w_files w' = w_files w
    | MStuck => True
    end.

(** ** Methods that write *)

(** In a world where no call fails, [m] takes a directory in [I] to one in [R]; on every
    other way out of it the permanent files are on the device. *)
Definition saves {S A : Type} (I : gmap bytes file → Prop) (P : S → Prop) (m : M S A) (R : A → gmap bytes file → Prop) : Prop :=
  ∀ s w, P s → reliable w → I (w_files w) →
    match m s w with
    | Ok a s' w' => P s' ∧ reliable w' ∧ R a (w_files w')
    | Err _ s' w' => P s' ∧ reliable w' ∧ synced (w_files w')
    | Died w' => synced (w_files w')
    | MStuck => True
    end.

Section rules.
Context {S : Type} (P : S → Prop).
Implicit Types I : gmap bytes file → Prop.

Lemma looks_ret {A : Type} (a : A) : looks P (mret a).
Proof. by intros s w Hp. Qed.
Lemma looks_fail {A : Type} e : looks P (fail (A := A) e).
Proof. by intros s w Hp. Qed.
Lemma looks_stuck {A : Type} : looks P (stuck (A := A)).
Proof. by intros s w Hp. Qed.
Lemma looks_get : looks P get.
Proof. by intros s w Hp. Qed.
Lemma looks_modify f : (∀ s, P s → P (f s)) → looks P (modify f).
Proof. intros Hf s w Hp. split; [by apply Hf|done]. Qed.
Lemma looks_put s0 : P s0 → looks P (put s0).
Proof. by intros Hp s w _. Qed.
Lemma looks_fail_when c e : looks P (fail_when c e).
Proof. destruct c; [apply looks_fail|apply looks_ret]. Qed.
Lemma looks_liftR {A : Type} (r : result A) : looks P (liftR r).
Proof. intros s w Hp. unfold liftR. by destruct r. Qed.

Lemma looks_bind {A B : Type} (m : M S A) (f : A → M S B) : looks P m → (∀ a, looks P (f a)) → looks P (m ≫= f).
Proof.
  intros Hm Hf s w Hp. unfold mbind, M_bind. specialize (Hm s w Hp). destruct (m s w) as [a s1 w1|e s1 w1|w1|]; [|done..].
  destruct Hm as (Hp1 & Hc1 & E1). specialize (Hf a s1 w1 Hp1). rewrite <-E1. destruct (f a s1 w1); [| |done|done].
  - destruct Hf as (? & ? & ?). split_and!; [done|by etrans|done].
  - destruct Hf as (? & ? & ?). split_and!; [done|by etrans|done].
Qed.

Lemma looks_bind_get {A : Type} (f : S → M S A) : (∀ s, P s → looks P (f s)) → looks P (get ≫= f).
Proof. intros Hf s w Hp. by apply Hf. Qed.

Lemma looks_attempt {A : Type} (m : M S A) : looks P m → looks P (attempt m).
Proof. intros Hm s w Hp. unfold attempt. specialize (Hm s w Hp). by destruct (m s w). Qed.

Lemma looks_zoom {T A : Type} (g : S → T) (st : T → S → S) (PT : T → Prop) (m : M T A) : looks PT m →
  (∀ s, P s → PT (g s)) → (∀ s t, P s → PT t → P (st t s)) → looks P (zoom g st m).
Proof.
  intros Hm Hg Hst s w Hp. unfold zoom. specialize (Hm (g s) w (Hg s Hp)). destruct (m (g s) w); [| |done|done].
  - destruct Hm as (? & ? & ?). split_and!; [by apply Hst|done|done].
  - destruct Hm as (? & ? & ?). split_and!; [by apply Hst|done|done].
Qed.

Lemma looks_local {T A : Type} (t : T) (m : M T A) : looks (λ _, True) m → looks P (with_local t m).
Proof. intros Hm s w Hp. unfold with_local. specialize (Hm t w I). by destruct (m t w); destruct_and?. Qed.

Lemma looks_next_event : looks P next_event.
Proof.
  intros s w Hp. unfold next_event. destruct (w_script w) as [|e evs] eqn:E; [done|].
  assert (Hc : calm w (mkWorld (w_files w) evs (w_times w))).
  { unfold calm, quiet, reliable. rewrite E. split; [done|by intros [_ ?]%Forall_cons]. }
  by destruct e.
Qed.

Lemma looks_files : looks P files.
Proof. by intros s w Hp. Qed.

Lemma looks_now : looks P now_nanos.
Proof. intros s w Hp. unfold now_nanos. by destruct (w_times w). Qed.

Lemma saves_looks {A : Type} I (m : M S A) : looks P m → (∀ fs, I fs → synced fs) → saves I P m (λ _, I).
Proof.
  intros Hm Hi s w Hp Hr Hw. specialize (Hm s w Hp). destruct (m s w); [| | |done].
  - destruct Hm as (? & [_ ?] & ->). auto.
  - destruct Hm as (? & [_ ?] & ->). auto.
  - rewrite Hm. auto.
Qed.

Lemma saves_bind {A B : Type} I (m : M S A) (f : A → M S B) Q R : saves I P m Q → (∀ a, saves (Q a) P (f a) R) → saves I P (m ≫= f) R.
Proof.
  intros Hm Hf s w Hp Hr Hw. unfold mbind, M_bind. specialize (Hm s w Hp Hr Hw). destruct (m s w) as [a s1 w1|e s1 w1|w1|]; [|done..].
  destruct Hm as (? & ? & ?). by apply Hf.
Qed.

Lemma saves_bind_get {A : Type} I (f : S → M S A) R : (∀ s, P s → saves I P (f s) R) → saves I P (get ≫= f) R.
Proof. intros Hf s w Hp. by apply Hf. Qed.

Lemma saves_mono {A : Type} I I' (m : M S A) (R R' : A → gmap bytes file → Prop) :
  saves I' P m R' → (∀ fs, I fs → I' fs) → (∀ a fs, R' a fs → R a fs) → saves I P m R.
Proof.
  intros Hm Hi Hr s w Hp Hw Hf. specialize (Hm s w Hp Hw (Hi _ Hf)). destruct (m s w); [|done..].
  destruct Hm as (? & ? & ?). auto.
Qed.

Lemma saves_pure {A : Type} I (φ : Prop) (m : M S A) R : (φ → saves I P m R) → saves (λ fs, I fs ∧ φ) P m R.
Proof. intros Hm s w Hp Hr [Hi Hφ]. by apply Hm. Qed.

Lemma saves_ret {A : Type} I (a : A) (R : A → gmap bytes file → Prop) : (∀ fs, I fs → R a fs) → saves I P (mret a) R.
Proof. intros Hr s w Hp Hw Hf. split_and!; auto. Qed.

Lemma saves_fail {A : Type} I (e : Status) (R : A → gmap bytes file → Prop) : (∀ fs, I fs → synced fs) → saves I P (fail e) R.
Proof. intros Hi s w Hp Hw Hf. split_and!; auto. Qed.

Lemma saves_stuck {A : Type} I (R : A → gmap bytes file → Prop) : saves I P stuck R.
Proof. by intros s w Hp. Qed.

Lemma saves_attempt {A : Type} I (m : M S A) R : saves I P m R →
  saves I P (attempt m) (λ r fs, match r with inl a => R a fs | inr _ => synced fs end).
Proof. intros Hm s w Hp Hr Hw. unfold attempt. specialize (Hm s w Hp Hr Hw). by destruct (m s w). Qed.

Lemma saves_zoom {T A : Type} I (g : S → T) (st : T → S → S) (PT : T → Prop) (m : M T A) R : saves I PT m R →
  (∀ s, P s → PT (g s)) → (∀ s t, P s → PT t → P (st t s)) → saves I P (zoom g st m) R.
Proof.
  intros Hm Hg Hst s w Hp Hr Hw. unfold zoom. specialize (Hm (g s) w (Hg s Hp) Hr Hw). destruct (m (g s) w); [| |done|done].
  - destruct Hm as (? & ? & ?). split_and!; [by apply Hst|done|done].
  - destruct Hm as (? & ? & ?). split_and!; [by apply Hst|done|done].
Qed.

Lemma saves_local {T A : Type} I (PT : T → Prop) (t : T) (m : M T A) R : saves I PT m R → PT t →
  saves I P (with_local t m) (λ r fs, R r.1 fs ∧ PT r.2).
Proof.
  intros Hm Ht s w Hp Hr Hw. unfold with_local. specialize (Hm t w Ht Hr Hw). destruct (m t w); [| |done|done].
  - destruct Hm as (? & ? & ?). auto.
  - destruct Hm as (_ & ? & ?). auto.
Qed.
End rules.

(** Both kinds of specification together. *)
Lemma wp_saves {S A : Type} (I : gmap bytes file → Prop) (P : S → Prop) (m : M S A) s w Q (E : Status → S → World → Prop) D R :
  wp m s w Q E D → saves I P m R → P s → reliable w → I (w_files w) →
  wp m s w (λ a s' w', Q a s' w' ∧ P s' ∧ R a (w_files w')) (λ e s' w', E e s' w' ∧ P s' ∧ synced (w_files w'))
    (λ w', D w' ∧ synced (w_files w')).
Proof.
  intros Hw Hs Hp Hr Hi. specialize (Hs s w Hp Hr Hi). unfold wp in *. destruct (m s w); naive_solver.
Qed.

Create HintDb power.
#[export] Hint Resolve looks_ret looks_fail looks_stuck looks_get looks_fail_when looks_liftR looks_next_event looks_files looks_now : power.
#[export] Hint Extern 1 (looks _ (modify _)) => apply looks_modify; intros; assumption : power.

(** Walks through the body of a method that only reads. *)
Ltac look :=
  cbv zeta; intros;
  lazymatch goal with
  | |- looks _ (get ≫= _) => apply looks_bind_get; look
  | |- looks _ (_ ≫= _) => apply looks_bind; look
  | |- looks _ (attempt _) => apply looks_attempt; look
  | |- looks _ (with_local _ _) => apply looks_local; look
  | |- looks (λ _, True) (zoom _ _ _) => apply (looks_zoom _ _ _ (λ _, True)); [look|done|done]
  | |- looks _ (match ?x with _ => _ end) => destruct x; look
  | |- _ => try solve [auto 2 with power]
  end.

(** ** System calls *)

Section calls.
Context {S : Type} (P : S → Prop).

Lemma looks_file_size path : looks P (platform.file_size path).
Proof. unfold platform.file_size. look. Qed.
Lemma looks_close_fd path : looks P (platform.close_fd path).
Proof. unfold platform.close_fd. look. Qed.
Lemma looks_pread_at path count offset : looks P (platform.pread_at path count offset).
Proof. unfold platform.pread_at. look. Qed.
Lemma looks_sync_directory : looks P platform.sync_directory.
Proof. unfold platform.sync_directory. look. Qed.
Lemma looks_exists path : looks P (platform.exists_ path).
Proof. unfold platform.exists_. look. Qed.
Lemma looks_path_size path : looks P (platform.path_size path).
Proof. unfold platform.path_size. look. Qed.
Lemma looks_map_readonly path size : looks P (platform.map_readonly path size).
Proof. unfold platform.map_readonly. look. Qed.
Lemma looks_unmap : looks P platform.unmap.
Proof. unfold platform.unmap. look. Qed.
Lemma looks_advise_random : looks P platform.advise_random.
Proof. unfold platform.advise_random. look. Qed.
Lemma looks_list_directory : looks P platform.list_directory.
Proof. unfold platform.list_directory. look. Qed.

(** The next event of a world where no call fails. *)
Lemma saves_event {A : Type} (I : gmap bytes file → Prop) (f : event → M S A) R : (∀ fs, I fs → synced fs) →
  (∀ e, e ≠ EvFail → saves I P (f e) R) → saves I P (next_event ≫= f) R.
Proof.
  intros Hi Hf s w Hp Hr Hw. unfold mbind, M_bind, next_event. unfold reliable in Hr.
  destruct (w_script w) as [|e evs] eqn:E.
  - by apply Hf; [|done|unfold reliable; rewrite E|].
  - apply Forall_cons in Hr as [[He _] Hr]. destruct e; [by apply Hf|done|by apply Hf|by apply Hi].
Qed.

Lemma saves_update (I : gmap bytes file → Prop) (f : gmap bytes file → gmap bytes file) (R : unit → gmap bytes file → Prop) : (∀ fs, I fs → R tt (f fs)) →
  saves I P (update_files f) R.
Proof. intros Hf s w Hp Hr Hw. split_and!; [done|done|]. by apply Hf. Qed.

Context (X : bytes → Prop) (HX : ∀ name, permanent name → X name).

Lemma clean_synced fs : clean X fs → synced fs.
Proof. by apply clean_weaken. Qed.

Lemma saves_open_read_write path : saves (clean X) P (platform.open_read_write path)
  (λ ok fs, clean X fs ∧ ok = true ∧ is_Some (fs !! path)).
Proof.
  unfold platform.open_read_write. apply saves_event; [apply clean_synced|]. intros e He.
  destruct e; [|done|..]; (eapply saves_bind; [apply (saves_update _ _ (λ _ fs, clean X fs ∧ is_Some (fs !! path)))|]);
    try (intros fs Hfs; destruct (fs !! path) eqn:E; [by rewrite E; eauto|split; [by apply clean_insert|by rewrite lookup_insert_eq; eauto]]);
    (intros []; apply saves_ret; naive_solver).
Qed.

Lemma saves_remove path : saves (clean X) P (platform.remove path) (λ _, clean (λ name, X name ∨ name = path)).
Proof.
  unfold platform.remove. apply saves_event; [apply clean_synced|]. intros e He.
  destruct e; [|done|..]; (eapply saves_bind; [apply (saves_update _ _ (λ _, clean (λ name, X name ∨ name = path))); intros; by apply clean_deleted|intros; by apply saves_ret]).
Qed.

Lemma saves_fsync_fd path : saves (clean X) P (platform.fsync_fd path) (λ _, clean (λ name, X name ∨ name = path)).
Proof.
  unfold platform.fsync_fd. apply saves_event; [apply clean_synced|]. intros e He.
  destruct e; [|done|..]; (eapply saves_bind; [apply (saves_update _ _ (λ _, clean (λ name, X name ∨ name = path))); intros fs Hfs; by apply clean_fsynced|intros; by apply saves_ret]).
Qed.

Lemma saves_pwrite_at path bs offset : ¬ X path → saves (clean X) P (platform.pwrite_at path bs offset) (λ _, clean X).
Proof.
  intros Hx. unfold platform.pwrite_at. apply saves_event; [apply clean_synced|]. intros e He.
  assert (Hup : ∀ f n, saves (clean X) P (update_files <[path := f]>;; mret n) (λ _ : Z, clean X)).
  { intros f n. eapply saves_bind; [apply (saves_update _ _ (λ _, clean X)); intros; by apply clean_insert_other|intros; by apply saves_ret]. }
  eapply saves_bind; [apply saves_looks; [apply looks_files|apply clean_synced]|]. intros fs.
  destruct (fs !! path); [destruct e; [apply Hup|done|apply Hup|apply Hup]|by apply saves_ret].
Qed.

Lemma saves_rename_file from to : X from → saves (clean X) P (platform.rename_file from to) (λ _, clean X).
Proof.
  intros Hx. unfold platform.rename_file. apply saves_event; [apply clean_synced|]. intros e He s w Hp Hr Hw.
  unfold files, mbind, M_bind. destruct (w_files w !! from) as [f|] eqn:Hf; [|by destruct e].
  assert (Hc : clean X (<[to := f]> (delete from (w_files w)))) by (by apply clean_renamed).
  by destruct e.
Qed.

Lemma saves_ftruncate_fd path n : saves (λ fs, clean X fs ∧ ∀ f, fs !! path = Some f → n ≤ sz (f_data f)) P
  (platform.ftruncate_fd path n) (λ _, clean X).
Proof.
  unfold platform.ftruncate_fd. apply saves_event; [by intros fs [? _]; eapply clean_synced|]. intros e He.
  destruct e; [|done|..]; (eapply saves_bind; [apply (saves_update _ _ (λ _, clean X)); intros fs [Hfs Hn]; by apply clean_truncated|intros; by apply saves_ret]).
Qed.
End calls.

#[export] Hint Resolve looks_file_size looks_close_fd looks_pread_at looks_sync_directory looks_exists looks_path_size looks_map_readonly
  looks_unmap looks_advise_random looks_list_directory : power.

(** ** Files *)

Section files.
Context `{Platform}.

Lemma looks_check_open what (P : LogFile → Prop) : looks P (LogFileOps.check_open what).
Proof. unfold LogFileOps.check_open. look. Qed.

Lemma looks_log_close (P : LogFile → Prop) : (∀ l, P l → P (LogFileOps.set_closed l)) → looks P LogFileOps.close.
Proof. intros Hp. unfold LogFileOps.close. look. by apply looks_modify. Qed.

Lemma looks_read_loop fuel path size offset buf (P : LogFile → Prop) : looks P (LogFileOps.read_loop fuel path size offset buf).
Proof. revert buf. induction fuel as [|fuel IH]; intros buf; cbn; look. Qed.

#[local] Hint Resolve looks_check_open looks_read_loop : power.

Lemma looks_read_at offset size (P : LogFile → Prop) : looks P (LogFileOps.read_at offset size).
Proof. unfold LogFileOps.read_at. look. Qed.

Context (X : bytes → Prop) (HX : ∀ name, permanent name → X name).

(** A file that was just opened. *)
Definition just_opened (path : bytes) (mode : SyncMode) (l : LogFile) (fs : gmap bytes file) : Prop :=
  lf_path l = path ∧ sync_mode_ l = mode ∧ 0 ≤ end_offset_ l ∧ ∀ f, fs !! path = Some f → end_offset_ l ≤ sz (f_data f).

Lemma saves_log_open {S : Type} (P : S → Prop) path mode :
  saves (clean X) P (LogFileOps.open path mode) (λ l fs, clean X fs ∧ just_opened path mode l fs).
Proof.
  unfold LogFileOps.open. eapply saves_bind; [by apply saves_open_read_write|]. intros ok.
  apply (saves_mono _ _ (λ fs, clean X fs ∧ ok = true) _ _ (λ l fs, clean X fs ∧ just_opened path mode l fs)); [|naive_solver|done].
  apply saves_pure. intros ->. cbn [negb].
  eapply (saves_bind _ _ _ _ (λ n fs, clean X fs ∧ ∀ f, fs !! path = Some f → n = sz (f_data f))).
  - unfold platform.file_size. apply saves_event; [by apply clean_synced|]. intros e He.
    assert (Hsz : saves (clean X) P (fs ← files; mret (match fs !! path with Some f => sz (f_data f) | None => -1 end))
      (λ n fs, clean X fs ∧ ∀ f, fs !! path = Some f → n = sz (f_data f))).
    { intros s w Hp Hr Hw. cbn. split_and!; [done|done|done|]. by intros f ->. }
    by destruct e.
  - intros n. destruct (n <? 0).
    + eapply saves_bind; [apply saves_looks; [apply looks_close_fd|by intros fs [? _]; eapply clean_synced]|].
      intros ?. apply saves_fail. by intros fs [? _]; eapply clean_synced.
    + apply saves_ret. intros fs [Hc Hn]. split; [done|]. split_and!; [done|done|apply Z.mod_pos_bound; lia|]. intros f Hf. cbn. rewrite (Hn f Hf).
      unfold u64. pose proof (sz_nonneg (f_data f)). apply Z.mod_le; lia.
Qed.

Lemma saves_append_loop fuel path bs offset written (P : LogFile → Prop) : ¬ X path →
  saves (clean X) P (LogFileOps.append_loop fuel path bs offset written) (λ _, clean X).
Proof.
  intros Hx. revert written. induction fuel as [|fuel IH]; intros written; cbn [LogFileOps.append_loop]; [apply saves_stuck|].
  destruct (written <? sz bs); [|by apply saves_ret].
  eapply saves_bind; [by apply saves_pwrite_at|]. intros n.
  destruct (n <? 0); [by apply saves_fail, clean_synced|]. destruct (n =? 0); [by apply saves_fail, clean_synced|apply IH].
Qed.

(** An append to a file that is outside [X]. *)
Definition scratch_log (path : bytes) (l : LogFile) : Prop := lf_path l = path ∧ sync_mode_ l = Never.

Lemma saves_append path bs : ¬ X path → saves (clean X) (scratch_log path) (LogFileOps.append bs) (λ _, clean X).
Proof.
  intros Hx. unfold LogFileOps.append. eapply saves_bind; [by apply saves_looks; [apply looks_check_open|apply clean_synced]|].
  intros ?. apply saves_bind_get. intros l [-> ->]. cbv zeta.
  eapply saves_bind; [by apply saves_append_loop|]. intros ?.
  eapply saves_bind; [apply saves_looks; [by apply looks_modify|by apply clean_synced]|]. intros ?. by apply saves_ret.
Qed.

Lemma saves_log_sync path (P : LogFile → Prop) : (∀ l, P l → lf_path l = path) →
  saves (clean X) P LogFileOps.sync (λ _, clean (λ name, X name ∨ name = path)).
Proof.
  intros Hp. unfold LogFileOps.sync. eapply saves_bind; [by apply saves_looks; [apply looks_check_open|apply clean_synced]|].
  intros ?. apply saves_bind_get. intros l Hl. rewrite (Hp l Hl). eapply saves_bind; [by apply saves_fsync_fd|]. intros rc.
  destruct (negb (rc =? 0)); [|by apply saves_ret]. apply saves_fail. intros fs. apply clean_weaken. auto.
Qed.

(** A cut that does not lengthen the file. *)
Lemma saves_log_truncate path n (P : LogFile → Prop) : (∀ l, P l → lf_path l = path) → (∀ l, P l → P (LogFileOps.set_end n l)) →
  saves (λ fs, clean X fs ∧ ∀ f, fs !! path = Some f → n ≤ sz (f_data f)) P (LogFileOps.truncate n) (λ _, clean X).
Proof.
  intros Hp Hend. unfold LogFileOps.truncate.
  eapply saves_bind; [apply saves_looks; [apply looks_check_open|by intros fs [? _]; eapply clean_synced]|].
  intros ?. apply saves_bind_get. intros l Hl. rewrite (Hp l Hl). eapply saves_bind; [by apply saves_ftruncate_fd|]. intros rc.
  destruct (negb (rc =? 0)); [by apply saves_fail, clean_synced|].
  eapply saves_bind; [apply saves_looks; [by apply looks_modify|by apply clean_synced]|]. intros ?.
  eapply saves_mono; [by apply (saves_log_sync path)|done|]. intros ? fs. apply clean_weaken. auto.
Qed.
End files.

#[export] Hint Resolve looks_check_open looks_read_at : power.
#[export] Hint Extern 1 (looks _ LogFileOps.close) => apply looks_log_close; (assumption || done) : power.

(** ** Methods that leave the files of [X] on the device *)

Definition within (X : bytes → Prop) {S A : Type} (P : S → Prop) (m : M S A) : Prop := saves (clean X) P m (λ _, clean X).

(** They leave only temporary files unsynced. *)
Abbreviation durably := (within permanent).

Lemma saves_durably {S A : Type} (X : bytes → Prop) (P : S → Prop) (m : M S A) : (∀ name, permanent name → X name) →
  durably P m → saves (clean X) P m (λ _, synced).
Proof. intros HX Hm. eapply saves_mono; [exact Hm| |done]. intros fs. by apply clean_weaken. Qed.

Section within.
Context (X : bytes → Prop) (HX : ∀ name, permanent name → X name) {S : Type} (P : S → Prop).

Lemma within_looks {A : Type} (m : M S A) : looks P m → within X P m.
Proof. intros Hm. by apply saves_looks, clean_synced. Qed.
Lemma within_bind {A B : Type} (m : M S A) (f : A → M S B) : within X P m → (∀ a, within X P (f a)) → within X P (m ≫= f).
Proof. intros Hm Hf. by eapply saves_bind. Qed.
Lemma within_bind_get {A : Type} (f : S → M S A) : (∀ s, P s → within X P (f s)) → within X P (get ≫= f).
Proof. apply saves_bind_get. Qed.
Lemma within_zoom {T A : Type} (g : S → T) (st : T → S → S) (PT : T → Prop) (m : M T A) : within X PT m →
  (∀ s, P s → PT (g s)) → (∀ s t, P s → PT t → P (st t s)) → within X P (zoom g st m).
Proof. apply saves_zoom. Qed.
Lemma within_remove path : within X P (platform.remove path).
Proof. eapply saves_mono; [by apply saves_remove|done|]. intros ? fs. apply clean_weaken. auto. Qed.
Lemma within_open_read_write path : within X P (platform.open_read_write path).
Proof. eapply saves_mono; [by apply saves_open_read_write|done|naive_solver]. Qed.
Lemma within_log_open `{Platform} path mode : within X P (LogFileOps.open path mode).
Proof. eapply saves_mono; [by apply saves_log_open|done|by intros ? ? [? _]]. Qed.
End within.

Lemma durably_attempt {S A : Type} (P : S → Prop) (m : M S A) : durably P m → durably P (attempt m).
Proof. intros Hm. eapply saves_mono; [apply saves_attempt, Hm|done|]. by intros []. Qed.

Lemma durably_local {S T A : Type} (P : S → Prop) (t : T) (m : M T A) : durably (λ _, True) m → durably P (with_local t m).
Proof. intros Hm. eapply saves_mono; [by apply (saves_local _ _ (λ _, True))|done|by intros ? ? [? _]]. Qed.

Lemma durably_log_sync `{Platform} (P : LogFile → Prop) : durably P LogFileOps.sync.
Proof.
  unfold LogFileOps.sync. apply within_bind; [by apply within_looks; [|apply looks_check_open]|]. intros ?. apply within_bind_get. intros l _.
  apply within_bind; [|intros rc; apply within_looks; [done|look]]. eapply saves_mono; [by apply saves_fsync_fd|done|].
  intros ? fs. apply clean_weaken. auto.
Qed.

#[export] Hint Extern 1 (within _ _ (platform.remove _)) => apply within_remove; (assumption || done) : power.
#[export] Hint Extern 1 (within _ _ (platform.open_read_write _)) => apply within_open_read_write; (assumption || done) : power.
#[export] Hint Extern 1 (within _ _ (LogFileOps.open _ _)) => apply within_log_open; (assumption || done) : power.
#[export] Hint Resolve durably_log_sync : power.

(** Walks through the body of a method that writes. *)
Ltac save :=
  cbv zeta; intros;
  lazymatch goal with
  | |- within _ _ (get ≫= _) => apply within_bind_get; save
  | |- within _ _ (_ ≫= _) => apply within_bind; save
  | |- within _ _ (attempt _) => apply durably_attempt; save
  | |- within _ _ (with_local _ _) => apply durably_local; save
  | |- within _ (λ _, True) (zoom _ _ _) => apply (within_zoom _ _ _ _ (λ _, True)); [save|done|done]
  | |- within _ _ (match ?x with _ => _ end) => destruct x; save
  | |- within _ _ _ => try solve [auto 2 with power | apply within_looks; [assumption || done|auto 2 with power]]
  | |- _ => idtac
  end.
