(* ===== verification/MappedFile.v ===== *)
(** Memory-mapped files: [src/mapped_file.hpp], [src/mapped_file.cpp].

    [mf_data] is [None] once the mapping has been released.  The destructor only
    releases the mapping; like the destructor of a log file it is left out. *)

From S2P Require Import Prelude Status World Wp LogFile.

Record MappedFile : Type := mkMapped { mf_data : option bytes; mf_path : bytes }.

Module MappedFileOps.
Section MappedFileOps.
Context `{Platform}.

(** [MappedFile::open]. *)
Definition open {S : Type} (path : bytes) : M S MappedFile :=
  present ← platform.exists_ path;
  if negb present then fail (io_error (lit "no such file to map: " ++ path))
  else
    ok ← platform.open_read_write path;
    if negb ok then fail (io_error (lit "open " ++ path ++ lit ": " ++ os_error_text))
    else
      size ← platform.file_size path;
      if size <? 0 then
        _ ← platform.close_fd path;
        fail (io_error (lit "stat " ++ path ++ lit ": " ++ os_error_text))
      else if size =? 0 then
        _ ← platform.close_fd path;
        fail (invalid_argument (lit "cannot map an empty file: " ++ path))
      else
        mapping ← platform.map_readonly path size;
        match mapping with
        | None =>
            _ ← platform.close_fd path;
            fail (io_error (lit "mmap " ++ path ++ lit ": " ++ os_error_text))
        | Some data =>
            _ ← platform.close_fd path;
            mret (mkMapped (Some data) path)
        end.

(** [MappedFile::bytes]. *)
Definition bytes_of (m : MappedFile) : bytes := default [] (mf_data m).

(** [MappedFile::close]. *)
Definition close : M MappedFile unit :=
  m ← get;
  match mf_data m with
  | None => mret tt
  | Some _ =>
      rc ← platform.unmap;
      put (mkMapped None (mf_path m));;
      if negb (rc =? 0)
      then fail (io_error (lit "munmap " ++ mf_path m ++ lit ": " ++ os_error_text))
      else mret tt
  end.

(** [MappedFile::advise_random]. *)
Definition advise_random : M MappedFile unit :=
  m ← get;
  match mf_data m with
  | None => fail (io_error (lit "advise on a file that is not mapped: " ++ mf_path m))
  | Some _ =>
      rc ← platform.advise_random;
      if negb (rc =? 0)
      then fail (io_error (lit "madvise " ++ mf_path m ++ lit ": " ++ os_error_text))
      else mret tt
  end.

(** * Specifications *)

Lemma same_files_trans w1 w2 w3 : same_files w1 w2 → same_files w2 w3 → same_files w1 w3.
Proof. intros [??] [??]. split; congruence. Qed.

(** Closing a descriptor whose result nobody looks at. *)
Lemma wp_close_then {S A} path (k : Z → M S A) (s : S) w Q E (D : World → Prop) :
  (∀ n w1, calm w w1 → same_files w w1 → wp (k n) s w1 Q E D) → D w →
  wp (n ← platform.close_fd path; k n) s w Q E D.
Proof.
  intros Hk Hd. wp_call wp_close_fd. intros n ? w1 Hc (-> & Hs & _). by apply Hk.
Qed.

(** Mapping a file that exists and is not empty gives all of its bytes. *)
Lemma wp_mapped_open {S} path (s : S) w f : w_files w !! path = Some f → 0 < sz (f_data f) ≤ INT64_MAX →
  wp (open path) s w
    (λ m s' w', s' = s ∧ m = mkMapped (Some (f_data f)) path ∧ same_files w w')
    (λ e s' w', s' = s ∧ ¬ reliable w ∧ code_ e = IOError ∧ same_files w w')
    (λ w', same_files w w').
Proof.
  intros Hf Hsz. unfold open. wp_call wp_exists.
  intros present ? w1 Hc1 (-> & Hs1 & Hp). rewrite Hf, bool_decide_eq_true_2 in Hp by eauto.
  destruct Hp as [->|[-> Hq]]; cbn [negb]; [|by apply wp_fail].
  wp_call wp_open_read_write.
  intros ok ? w2 Hc2 (-> & Hok & Hfs2 & Ht2). pose proof Hs1 as [Hs1' _].
  rewrite Hs1', Hf in Hfs2. assert (Hs2 : same_files w w2).
  { destruct Hs1, ok; split; congruence. }
  destruct ok; cbn [negb]; [|apply wp_fail; split_and!; [done|eauto with wp| done|done]].
  2: { intros Hr. assert (Hr1 : reliable w1) by eauto using calm_reliable. by specialize (Hok Hr1). }
  wp_call wp_file_size; [by rewrite (proj1 Hs2)|].
  intros n ? w3 Hc3 (-> & Hs3 & Hn). apply (same_files_trans _ _ _ Hs2) in Hs3.
  assert (Hc13 : calm w w3) by (by etrans; [|etrans]).
  destruct Hn as [->|[-> Hq]].
  2: { simpl. apply wp_close_then; [|done]. intros n w4 _ Hs4. apply wp_fail.
       split_and!; [done|intros Hr; apply Hq; eauto with wp|done|by eapply same_files_trans]. }
  rewrite (proj2 (Z.ltb_ge _ 0)), (proj2 (Z.eqb_neq _ 0)) by lia.
  wp_call wp_map_readonly; [by rewrite (proj1 Hs3)|lia|].
  intros r ? w4 Hc4 (-> & Hs4 & Hr). apply (same_files_trans _ _ _ Hs3) in Hs4.
  destruct Hr as [->|[-> Hq]]; (apply wp_close_then; [|done]); intros n w5 _ Hs5;
    apply (same_files_trans _ _ _ Hs4) in Hs5.
  - rewrite slice_all. by apply wp_ret.
  - apply wp_fail. split_and!; [done|intros Hr; apply Hq; eauto with wp|done|done].
Qed.

Lemma wp_mapped_close m w :
  wp close m w
    (λ _ m' w', m' = mkMapped None (mf_path m) ∧ same_files w w')
    (λ e m' w', m' = mkMapped None (mf_path m) ∧ ¬ reliable w ∧ code_ e = IOError ∧ same_files w w')
    (λ w', same_files w w').
Proof.
  unfold close. wp_pure. destruct m as [[data|] path]; cbn [mf_data mf_path]; [|by apply wp_ret].
  wp_call wp_unmap.
  intros n ? w1 _ (-> & Hs & [->|[-> Hq]]); wp_pure; simpl; [by apply wp_ret|by apply wp_fail].
Qed.

Lemma wp_mapped_advise m w data : mf_data m = Some data →
  wp advise_random m w
    (λ _ m' w', m' = m ∧ same_files w w')
    (λ e m' w', m' = m ∧ ¬ reliable w ∧ code_ e = IOError ∧ same_files w w')
    (λ w', same_files w w').
Proof.
  intros Hm. unfold advise_random. wp_pure. rewrite Hm. wp_call Wp.wp_advise_random.
  intros n ? w1 _ (-> & Hs & [->|[-> Hq]]); simpl; [by apply wp_ret|by apply wp_fail].
Qed.

End MappedFileOps.
End MappedFileOps.
