(* ===== verification/Manifest.v ===== *)
(** The manifest: [include/kvstore/manifest.hpp] and [src/manifest.cpp].

    The codec of the level set, reading [MANIFEST], and its atomic replacement. *)

From S2P Require Import Prelude Status World Wp FileNames Encoding Record LogFile.

Module manifest.

Definition kMagic : bytes := lit "KVMF".
Definition kFormatVersion : Z := 1.
Definition kHeaderSize : Z := 16.
Definition kTrailerSize : Z := 4.
Definition kTableFixedSize : Z := 28.
Definition kMaxManifestSize : Z := Z.shiftl 64 20.

Record TableMeta : Type := mkTableMeta {
  tm_id : Z; tm_file_size : Z; tm_entry_count : Z; tm_min_key : bytes; tm_max_key : bytes }.

(** [TableMeta::overlaps]. *)
Definition overlaps (begin_ end_ : bytes) (t : TableMeta) : bool :=
  negb (ltb (tm_max_key t) begin_ || ltb end_ (tm_min_key t)).

Record LevelSet : Type := mkLevelSet { ls_next_id : Z; ls_levels : list (list TableMeta) }.

(** [LevelSet::table_count]. *)
Definition table_count (set : LevelSet) : Z := foldl (λ count level, u64 (count + sz level)) 0 (ls_levels set).

(** [LevelSet::level_bytes]. *)
Definition level_bytes (set : LevelSet) (level : nat) : Z :=
  match ls_levels set !! level with
  | None => 0
  | Some tables => foldl (λ bs t, u64 (bs + tm_file_size t)) 0 tables
  end.

(** [LevelSet::total_bytes]. *)
Definition total_bytes (set : LevelSet) : Z :=
  foldl (λ bs i, u64 (bs + level_bytes set i)) 0 (seq 0 (length (ls_levels set))).

Section Codec.
Context `{Platform}.

Definition append_string (out s : bytes) : bytes := append_u32 out (u32 (sz s)) ++ s.

(** [take_string]: the string and the position after it. *)
Definition take_string (bs : bytes) (limit at_ : Z) : result (bytes * Z) :=
  fail_if (limit - at_ <? 4) (corruption (lit "manifest ends inside a key length"));;
  size ← encoding.get_u32 bs at_;
  let at_ := at_ + 4 in
  fail_if (limit - at_ <? size)
    (corruption (lit "manifest key claims more bytes than the file holds"));;
  out ← require (at_ + size <=? sz bs) (slice bs at_ size);
  ROk (out, at_ + size).

Definition encode_table (out : bytes) (table : TableMeta) : bytes :=
  let out := append_u32 out (tm_id table) in
  let out := append_u64 out (tm_file_size table) in
  let out := append_u64 out (tm_entry_count table) in
  let out := append_string out (tm_min_key table) in
  append_string out (tm_max_key table).

Definition encode_level (out : bytes) (level : list TableMeta) : bytes :=
  foldl encode_table (append_u32 out (u32 (sz level))) level.

(** [manifest::encode]. *)
Definition encode (set : LevelSet) : bytes :=
  let out := append_u32 kMagic kFormatVersion in
  let out := append_u32 out (ls_next_id set) in
  let out := append_u32 out (u32 (sz (ls_levels set))) in
  let out := foldl encode_level out (ls_levels set) in
  append_u32 out (record.crc32_of out).

(** The body of the inner loop of [decode]. *)
Definition decode_table (bs : bytes) (payload_size at_ : Z) : result (TableMeta * Z) :=
  fail_if (payload_size - at_ <? 20) (corruption (lit "manifest ends inside a table entry"));;
  id ← encoding.get_u32 bs at_;
  let at_ := at_ + 4 in
  file_size ← encoding.get_u64 bs at_;
  let at_ := at_ + 8 in
  entry_count ← encoding.get_u64 bs at_;
  let at_ := at_ + 8 in
  min_key ← take_string bs payload_size at_;
  max_key ← take_string bs payload_size min_key.2;
  fail_if (id <? kFirstFileId) (corruption (lit "manifest names a table with an impossible id"));;
  fail_if (ltb max_key.1 min_key.1)
    (corruption (lit "manifest names a table whose range is inverted"));;
  ROk (mkTableMeta id file_size entry_count min_key.1 max_key.1, max_key.2).

(** The inner loop. *)
Fixpoint decode_tables (count : nat) (bs : bytes) (payload_size at_ : Z) (tables : list TableMeta) :
    result (list TableMeta * Z) :=
  match count with
  | O => ROk (tables, at_)
  | S count =>
      table ← decode_table bs payload_size at_;
      decode_tables count bs payload_size table.2 (tables ++ [table.1])
  end.

(** The outer loop. *)
Fixpoint decode_levels (count : nat) (bs : bytes) (payload_size at_ : Z)
    (levels : list (list TableMeta)) : result (list (list TableMeta) * Z) :=
  match count with
  | O => ROk (levels, at_)
  | S count =>
      fail_if (payload_size - at_ <? 4) (corruption (lit "manifest ends inside a level header"));;
      table_count ← encoding.get_u32 bs at_;
      let at_ := at_ + 4 in
      fail_if (payload_size - at_ <? u64 (table_count * kTableFixedSize))
        (corruption (lit "manifest declares more tables than it could hold"));;
      level ← decode_tables (Z.to_nat table_count) bs payload_size at_ [];
      decode_levels count bs payload_size level.2 (levels ++ [level.1])
  end.

(** [manifest::decode]. *)
Definition decode (bs : bytes) : result LevelSet :=
  fail_if (sz bs <? kHeaderSize + kTrailerSize)
    (corruption (lit "manifest is too small to be one"));;
  magic ← require (sz kMagic <=? sz bs) (slice bs 0 (sz kMagic));
  fail_if (negb (key_eqb magic kMagic)) (corruption (lit "not a manifest: bad magic"));;
  let payload_size := sz bs - kTrailerSize in
  crc ← encoding.get_u32 bs payload_size;
  fail_if (negb (crc =? record.crc32_of (slice bs 0 payload_size)))
    (corruption (lit "manifest fails its crc"));;
  version ← encoding.get_u32 bs 4;
  fail_if (negb (version =? kFormatVersion))
    (corruption (lit "unsupported manifest format version " ++ std_to_string version));;
  next_id ← encoding.get_u32 bs 8;
  level_count ← encoding.get_u32 bs 12;
  fail_if (payload_size - kHeaderSize <? u64 (level_count * 4))
    (corruption (lit "manifest declares more levels than it could hold"));;
  levels ← decode_levels (Z.to_nat level_count) bs payload_size kHeaderSize [];
  fail_if (negb (levels.2 =? payload_size))
    (corruption (lit "manifest has trailing bytes after its last table"));;
  ROk (mkLevelSet next_id levels.1).

(** ** Safety *)

Lemma take_string_safe bs limit at_ : 0 ≤ at_ ≤ limit → limit ≤ sz bs → safe Corruption (take_string bs limit at_).
Proof.
  intros Hat Hl. unfold take_string. cbv zeta.
  repeat (apply safe_bind; [arith_hyps; first [apply safe_require, Z.leb_le; lia | auto with safe]|intros ? ?]; arith_hyps).
  done.
Qed.

Lemma take_string_range bs limit at_ r : 0 ≤ at_ ≤ limit → take_string bs limit at_ = ROk r →
  at_ + 4 ≤ r.2 ≤ limit.
Proof.
  intros Hat. unfold take_string. intros Ht. rinv. arith_hyps. cbn.
  match goal with H : encoding.get_u32 _ _ = ROk _ |- _ => apply get_u32_range in H end. lia.
Qed.

Lemma decode_table_safe bs limit at_ : 0 ≤ at_ ≤ limit → limit ≤ sz bs → safe Corruption (decode_table bs limit at_).
Proof.
  intros Hat Hl. unfold decode_table. cbv zeta.
  do 4 (apply safe_bind; [arith_hyps; auto with safe|intros ? ?]; arith_hyps).
  apply safe_bind; [apply take_string_safe; lia|]. intros mn Hmn. apply take_string_range in Hmn; [|lia].
  apply safe_bind; [apply take_string_safe; lia|]. intros mx Hmx. safe.
Qed.

Lemma decode_table_range bs limit at_ r : 0 ≤ at_ ≤ limit → decode_table bs limit at_ = ROk r →
  at_ + kTableFixedSize ≤ r.2 ≤ limit.
Proof.
  intros Hat. unfold decode_table. intros Ht. rinv. arith_hyps. cbn. unfold kTableFixedSize.
  repeat match goal with H : take_string _ _ _ = ROk _ |- _ => apply take_string_range in H; [|lia] end. lia.
Qed.

Lemma decode_tables_safe count bs limit at_ tables : 0 ≤ at_ ≤ limit → limit ≤ sz bs →
  safe Corruption (decode_tables count bs limit at_ tables).
Proof.
  revert at_ tables. induction count as [|count IH]; intros at_ tables Hat Hl; [done|]. cbn [decode_tables].
  apply safe_bind; [by apply decode_table_safe|]. intros t Ht. apply decode_table_range in Ht; [|done].
  apply IH; unfold kTableFixedSize in *; lia.
Qed.

Lemma decode_tables_range count bs limit at_ tables r : 0 ≤ at_ ≤ limit →
  decode_tables count bs limit at_ tables = ROk r → at_ ≤ r.2 ≤ limit.
Proof.
  revert at_ tables. induction count as [|count IH]; intros at_ tables Hat; cbn [decode_tables];
    [intros [= <-]; cbn; lia|].
  intros Hd. rinv. match goal with H : decode_table _ _ _ = ROk _ |- _ => apply decode_table_range in H as Hr; [|done] end.
  unfold kTableFixedSize in *.
  match goal with H : decode_tables _ _ _ _ _ = ROk _ |- _ => apply IH in H; lia end.
Qed.

Lemma decode_levels_safe count bs limit at_ levels : 0 ≤ at_ ≤ limit → limit ≤ sz bs →
  safe Corruption (decode_levels count bs limit at_ levels).
Proof.
  revert at_ levels. induction count as [|count IH]; intros at_ levels Hat Hl; [done|]. cbn [decode_levels]. cbv zeta.
  do 3 (apply safe_bind; [arith_hyps; auto with safe|intros ? ?]; arith_hyps).
  apply safe_bind; [apply decode_tables_safe; lia|]. intros r Hr. apply decode_tables_range in Hr; [|lia].
  apply IH; lia.
Qed.

Lemma manifest_decode_safe bs : safe Corruption (decode bs).
Proof.
  unfold decode, kHeaderSize, kTrailerSize. cbv zeta. apply safe_bind; [auto with safe|]. intros [] ?; arith_hyps.
  repeat (apply safe_bind; [first [apply decode_levels_safe; lia
    | apply safe_require, Z.leb_le; change (sz kMagic) with 4; lia | auto with safe]|intros ? ?]).
  auto with safe.
Qed.

(** ** Round trip *)

Definition enc_string (s : bytes) : bytes := le32 (sz s) ++ s.
Definition enc_table (t : TableMeta) : bytes :=
  le32 (tm_id t) ++ le64 (tm_file_size t) ++ le64 (tm_entry_count t) ++
  enc_string (tm_min_key t) ++ enc_string (tm_max_key t).
Definition enc_level (l : list TableMeta) : bytes := le32 (sz l) ++ concat (enc_table <$> l).
Definition enc_header (set : LevelSet) : bytes :=
  kMagic ++ le32 kFormatVersion ++ le32 (ls_next_id set) ++ le32 (sz (ls_levels set)).
Definition enc_body (set : LevelSet) : bytes := enc_header set ++ concat (enc_level <$> ls_levels set).

Lemma append_string_eq out s : append_string out s = out ++ enc_string s.
Proof. unfold append_string, enc_string. by rewrite append_u32_eq, le32_u32, <-app_assoc. Qed.

Lemma encode_table_eq out t : encode_table out t = out ++ enc_table t.
Proof.
  unfold encode_table, enc_table. cbv zeta. rewrite !append_string_eq, !append_u64_eq, append_u32_eq.
  by rewrite <-!app_assoc.
Qed.

Lemma foldl_append {A} (f : bytes → A → bytes) (g : A → bytes) (l : list A) out :
  (∀ out x, f out x = out ++ g x) → foldl f out l = out ++ concat (g <$> l).
Proof.
  intros Hf. revert out. induction l as [|x l IH]; intros out; cbn [foldl]; [by rewrite app_nil_r|].
  rewrite IH, Hf. csimpl. by rewrite <-app_assoc.
Qed.

Lemma encode_level_eq out l : encode_level out l = out ++ enc_level l.
Proof.
  unfold encode_level, enc_level. rewrite (foldl_append encode_table enc_table) by apply encode_table_eq.
  by rewrite append_u32_eq, le32_u32, <-app_assoc.
Qed.

Lemma encode_set_eq set : encode set = enc_body set ++ le32 (record.crc32_of (enc_body set)).
Proof.
  assert (E : foldl encode_level (append_u32 (append_u32 (append_u32 kMagic kFormatVersion) (ls_next_id set))
    (u32 (sz (ls_levels set)))) (ls_levels set) = enc_body set).
  { rewrite (foldl_append encode_level enc_level) by apply encode_level_eq. unfold enc_body, enc_header.
    by rewrite !append_u32_eq, le32_u32, <-!app_assoc. }
  unfold encode. cbv zeta. by rewrite E, append_u32_eq.
Qed.

Lemma sz_enc_string k : sz (enc_string k) = 4 + sz k.
Proof. unfold enc_string. by rewrite sz_app, sz_le32. Qed.

Lemma sz_enc_table t : sz (enc_table t) = kTableFixedSize + sz (tm_min_key t) + sz (tm_max_key t).
Proof. unfold enc_table, kTableFixedSize. rewrite !sz_app, !sz_enc_string, !sz_le64, sz_le32. lia. Qed.

Definition meta_ok (t : TableMeta) : Prop :=
  valid_id (tm_id t) ∧ 0 ≤ tm_file_size t ≤ UINT64_MAX ∧ 0 ≤ tm_entry_count t ≤ UINT64_MAX ∧
  sz (tm_min_key t) ≤ UINT32_MAX ∧ sz (tm_max_key t) ≤ UINT32_MAX ∧ kle (tm_min_key t) (tm_max_key t).

Definition set_ok (set : LevelSet) : Prop :=
  0 ≤ ls_next_id set ≤ UINT32_MAX ∧ sz (ls_levels set) ≤ UINT32_MAX ∧
  Forall (λ l, sz l ≤ UINT32_MAX ∧ Forall meta_ok l) (ls_levels set).

Lemma take_enc_string pre k rest limit : sz k ≤ UINT32_MAX → sz pre + 4 + sz k ≤ limit →
  take_string (pre ++ enc_string k ++ rest) limit (sz pre) = ROk (k, sz pre + 4 + sz k).
Proof.
  intros Hk Hl. pose proof (sz_nonneg k). pose proof (sz_nonneg rest). unfold take_string, enc_string. rewrite <-app_assoc.
  rewrite (proj2 (Z.ltb_ge _ _)) by lia. cbn [fail_if mbind result_bind].
  rewrite get_u32_app by (done || lia). cbn [mbind result_bind]. cbv zeta.
  rewrite (proj2 (Z.ltb_ge _ _)) by lia. cbn [fail_if mbind result_bind].
  rewrite require_true by (apply Z.leb_le; rewrite !sz_app, sz_le32; lia). cbn [mbind result_bind].
  rewrite (app_assoc pre), slice_mid; [done|rewrite sz_app, sz_le32; done|done].
Qed.

Lemma enc_table_fields pre t rest : meta_ok t →
  encoding.get_u32 (pre ++ enc_table t ++ rest) (sz pre) = ROk (tm_id t) ∧
  encoding.get_u64 (pre ++ enc_table t ++ rest) (sz pre + 4) = ROk (tm_file_size t) ∧
  encoding.get_u64 (pre ++ enc_table t ++ rest) (sz pre + 4 + 8) = ROk (tm_entry_count t).
Proof.
  intros ([Hid1 Hid2] & Hf & He & _). unfold kFirstFileId in *. unfold enc_table. rewrite <-!app_assoc. split_and!.
  - apply get_u32_app; [done|lia].
  - rewrite (app_assoc pre). apply get_u64_app; [by rewrite sz_app, sz_le32|lia].
  - rewrite (app_assoc pre), (app_assoc (pre ++ _)). apply get_u64_app; [by rewrite !sz_app, sz_le32, sz_le64|lia].
Qed.

Lemma decode_enc_table pre t rest limit : meta_ok t → sz pre + sz (enc_table t) ≤ limit →
  decode_table (pre ++ enc_table t ++ rest) limit (sz pre) = ROk (t, sz pre + sz (enc_table t)).
Proof.
  intros Hok Hl. destruct (enc_table_fields pre t rest Hok) as (E1 & E2 & E3).
  destruct Hok as ([Hid1 Hid2] & Hf & He & Hmin & Hmax & Hle). rewrite sz_enc_table in *. unfold kTableFixedSize in *.
  pose proof (sz_nonneg (tm_min_key t)). pose proof (sz_nonneg (tm_max_key t)).
  unfold decode_table. rewrite (proj2 (Z.ltb_ge _ _)) by lia. cbn [fail_if mbind result_bind].
  rewrite E1. cbn [mbind result_bind]. cbv zeta. rewrite E2. cbn [mbind result_bind]. rewrite E3. cbn [mbind result_bind].
  clear E1 E2 E3. set (hdr := le32 (tm_id t) ++ le64 (tm_file_size t) ++ le64 (tm_entry_count t)).
  assert (E : pre ++ enc_table t ++ rest =
    (pre ++ hdr) ++ enc_string (tm_min_key t) ++ enc_string (tm_max_key t) ++ rest).
  { unfold enc_table, hdr. by rewrite <-!app_assoc. }
  assert (Hh : sz pre + 4 + 8 + 8 = sz (pre ++ hdr)).
  { unfold hdr. rewrite !sz_app, sz_le32, !sz_le64. lia. }
  rewrite E, Hh. rewrite take_enc_string by lia. cbn [mbind result_bind fst snd].
  assert (Hh2 : sz (pre ++ hdr) + 4 + sz (tm_min_key t) = sz ((pre ++ hdr) ++ enc_string (tm_min_key t))).
  { rewrite (sz_app (pre ++ hdr)), sz_enc_string. lia. }
  rewrite Hh2, (app_assoc (pre ++ hdr)). rewrite take_enc_string by lia. cbn [mbind result_bind fst snd].
  rewrite (proj2 (Z.ltb_ge _ _)) by done. cbn [fail_if mbind result_bind].
  rewrite (Hle : ltb (tm_max_key t) (tm_min_key t) = false). cbn [fail_if mbind result_bind].
  rewrite <-Hh2, <-Hh. f_equal. f_equal; [by destruct t|lia].
Qed.

Lemma decode_enc_tables l : Forall meta_ok l → ∀ done pre rest limit,
  sz pre + sz (concat (enc_table <$> l)) ≤ limit →
  decode_tables (length l) (pre ++ concat (enc_table <$> l) ++ rest) limit (sz pre) done =
    ROk (done ++ l, sz pre + sz (concat (enc_table <$> l))).
Proof.
  induction 1 as [|t l Ht Hl IH]; intros done pre rest limit Hlim.
  - cbn. by rewrite app_nil_r, Z.add_0_r.
  - change (concat (enc_table <$> t :: l)) with (enc_table t ++ concat (enc_table <$> l)) in *.
    rewrite sz_app in *. pose proof (sz_nonneg (concat (enc_table <$> l))). cbn [length decode_tables].
    rewrite <-(app_assoc (enc_table t)). rewrite decode_enc_table by (done || lia). cbn [mbind result_bind fst snd].
    rewrite (app_assoc pre), <-sz_app. rewrite IH by (rewrite sz_app; lia). rewrite sz_app, <-app_assoc.
    do 2 f_equal. lia.
Qed.

Lemma tables_size l : kTableFixedSize * sz l ≤ sz (concat (enc_table <$> l)).
Proof.
  induction l as [|t l IH]; [done|].
  change (concat (enc_table <$> t :: l)) with (enc_table t ++ concat (enc_table <$> l)).
  rewrite sz_app, sz_enc_table, sz_cons. unfold kTableFixedSize in *.
  pose proof (sz_nonneg (tm_min_key t)). pose proof (sz_nonneg (tm_max_key t)). lia.
Qed.

Lemma sz_enc_level l : sz (enc_level l) = 4 + sz (concat (enc_table <$> l)).
Proof. unfold enc_level. by rewrite sz_app, sz_le32. Qed.

Lemma decode_enc_levels ls : Forall (λ l, sz l ≤ UINT32_MAX ∧ Forall meta_ok l) ls → ∀ done pre rest limit,
  sz pre + sz (concat (enc_level <$> ls)) ≤ limit →
  decode_levels (length ls) (pre ++ concat (enc_level <$> ls) ++ rest) limit (sz pre) done =
    ROk (done ++ ls, sz pre + sz (concat (enc_level <$> ls))).
Proof.
  induction 1 as [|l ls [Hn Hl] Hls IH]; intros done pre rest limit Hlim.
  - cbn. by rewrite app_nil_r, Z.add_0_r.
  - change (concat (enc_level <$> l :: ls)) with (enc_level l ++ concat (enc_level <$> ls)) in *.
    rewrite sz_app, sz_enc_level in *. pose proof (sz_nonneg (concat (enc_level <$> ls))).
    pose proof (tables_size l) as Hsz. pose proof (sz_nonneg l). unfold kTableFixedSize in Hsz.
    cbn [length decode_levels]. set (more := concat (enc_level <$> ls)) in *.
    replace (pre ++ (enc_level l ++ more) ++ rest) with
      (pre ++ le32 (sz l) ++ concat (enc_table <$> l) ++ more ++ rest) by (unfold enc_level; by rewrite <-!app_assoc).
    rewrite (proj2 (Z.ltb_ge _ _)) by lia. cbn [fail_if mbind result_bind].
    rewrite get_u32_app by (done || lia). cbn [mbind result_bind]. cbv zeta.
    unfold kTableFixedSize, UINT32_MAX in *.
    rewrite u64_id by (unfold UINT64_MAX; lia). rewrite (proj2 (Z.ltb_ge _ _)) by lia. cbn [fail_if mbind result_bind].
    rewrite (app_assoc pre). replace (sz pre + 4) with (sz (pre ++ le32 (sz l))) by (by rewrite sz_app, sz_le32).
    replace (Z.to_nat (sz l)) with (length l) by (unfold sz; lia).
    rewrite decode_enc_tables by (try done; rewrite sz_app, sz_le32; lia). cbn [mbind result_bind fst snd].
    rewrite (app_assoc (pre ++ _)), <-sz_app. rewrite IH by (rewrite !sz_app, sz_le32; lia).
    rewrite !sz_app, sz_le32, <-app_assoc. do 2 f_equal. lia.
Qed.

Lemma levels_size ls : 4 * sz ls ≤ sz (concat (enc_level <$> ls)).
Proof.
  induction ls as [|l ls IH]; [done|].
  change (concat (enc_level <$> l :: ls)) with (enc_level l ++ concat (enc_level <$> ls)).
  rewrite sz_app, sz_enc_level, sz_cons. pose proof (sz_nonneg (concat (enc_table <$> l))). lia.
Qed.

Lemma sz_enc_header set : sz (enc_header set) = kHeaderSize.
Proof. unfold enc_header. by rewrite !sz_app, !sz_le32. Qed.

Lemma sz_encode_set set : sz (encode set) = kHeaderSize + sz (concat (enc_level <$> ls_levels set)) + kTrailerSize.
Proof. rewrite encode_set_eq. unfold enc_body. by rewrite !sz_app, sz_le32, sz_enc_header. Qed.

Lemma header_fields set rest : set_ok set →
  encoding.get_u32 (enc_header set ++ rest) 4 = ROk kFormatVersion ∧
  encoding.get_u32 (enc_header set ++ rest) 8 = ROk (ls_next_id set) ∧
  encoding.get_u32 (enc_header set ++ rest) 12 = ROk (sz (ls_levels set)).
Proof.
  intros (Hn & Hl & _). pose proof (sz_nonneg (ls_levels set)). unfold enc_header. rewrite <-!app_assoc. split_and!.
  - by apply get_u32_app.
  - rewrite (app_assoc kMagic). apply get_u32_app; [by rewrite sz_app, sz_le32|lia].
  - rewrite (app_assoc kMagic), (app_assoc (kMagic ++ _)). apply get_u32_app; [by rewrite !sz_app, !sz_le32|lia].
Qed.

Lemma decode_encode_set set : set_ok set → decode (encode set) = ROk set.
Proof.
  intros Hok. pose proof (levels_size (ls_levels set)). pose proof (sz_nonneg (ls_levels set)).
  set (rest := concat (enc_level <$> ls_levels set)) in *.
  set (tl := le32 (record.crc32_of (enc_body set))).
  assert (E : encode set = enc_header set ++ rest ++ tl).
  { rewrite encode_set_eq. unfold enc_body. by rewrite <-app_assoc. }
  assert (Es : sz (encode set) = kHeaderSize + sz rest + kTrailerSize) by apply sz_encode_set.
  unfold decode. rewrite (proj2 (Z.ltb_ge _ _)) by lia. cbn [fail_if mbind result_bind].
  rewrite require_true by (apply Z.leb_le; rewrite Es; unfold kHeaderSize, kTrailerSize; change (sz kMagic) with 4; lia).
  cbn [mbind result_bind]. replace (slice (encode set) 0 (sz kMagic)) with kMagic.
  2: { rewrite E. unfold enc_header. rewrite <-!app_assoc. by rewrite slice_prefix. }
  unfold key_eqb. rewrite bool_decide_eq_true_2 by done. cbn [fail_if negb mbind result_bind]. cbv zeta.
  assert (Hp : sz (encode set) - kTrailerSize = sz (enc_body set)).
  { rewrite Es. unfold enc_body. rewrite sz_app, sz_enc_header. fold rest. lia. }
  rewrite Hp. replace (encoding.get_u32 (encode set) (sz (enc_body set))) with (ROk (record.crc32_of (enc_body set))).
  2: { rewrite encode_set_eq. symmetry. rewrite <-(app_nil_r (le32 _)). apply get_u32_app; [done|apply record.crc32_of_range]. }
  cbn [mbind result_bind]. replace (slice (encode set) 0 (sz (enc_body set))) with (enc_body set).
  2: { by rewrite encode_set_eq, slice_prefix. }
  rewrite Z.eqb_refl. cbn [fail_if negb mbind result_bind]. rewrite E.
  destruct (header_fields set (rest ++ tl) Hok) as (-> & -> & ->). cbn [mbind result_bind].
  rewrite Z.eqb_refl. cbn [fail_if negb mbind result_bind]. destruct Hok as (Hn & Hl & Hls).
  assert (Hb : sz (enc_body set) = kHeaderSize + sz rest) by (unfold enc_body; by rewrite sz_app, sz_enc_header).
  unfold UINT32_MAX in *. rewrite u64_id by (unfold UINT64_MAX; lia).
  rewrite (proj2 (Z.ltb_ge _ _)) by lia. cbn [fail_if mbind result_bind].
  replace (Z.to_nat (sz (ls_levels set))) with (length (ls_levels set)) by (unfold sz; lia).
  rewrite <-(sz_enc_header set). unfold rest at 1. rewrite decode_enc_levels by (try done; rewrite sz_enc_header; fold rest; lia).
  cbn [mbind result_bind fst snd]. fold rest. rewrite sz_enc_header, Hb, Z.eqb_refl. cbn [fail_if negb mbind result_bind].
  by destruct set.
Qed.

(** ** The file *)

(** [manifest::read]. *)
Definition read {S : Type} : M S (option LevelSet) :=
  present ← platform.exists_ kManifestName;
  if negb present then mret None
  else
    size ← platform.path_size kManifestName;
    match size with
    | None => fail (io_error (lit "stat " ++ kManifestName ++ lit ": " ++ os_error_text))
    | Some size =>
        fail_when ((size <? kHeaderSize + kTrailerSize) || (kMaxManifestSize <? size))
          (corruption (lit "manifest is not a plausible size: " ++ kManifestName));;
        file ← LogFileOps.open kManifestName Never;
        r ← with_local file (LogFileOps.read_at 0 (u32 size));
        set ← liftR (decode r.1);
        mret (Some set)
    end.

(** [manifest::write_atomic]. *)
Definition write_atomic {S : Type} (set : LevelSet) : M S unit :=
  let final_path := kManifestName in
  let temp_path := temp_name kManifestName in
  _ ← platform.remove temp_path;
  file ← LogFileOps.open temp_path Never;
  _ ← with_local file (_ ← LogFileOps.append (encode set); LogFileOps.sync;; LogFileOps.close);
  rc ← platform.rename_file temp_path final_path;
  fail_when (negb (rc =? 0))
    (io_error (lit "rename " ++ temp_path ++ lit " to " ++ final_path ++ lit ": " ++ os_error_text));;
  rc ← platform.sync_directory;
  fail_when (negb (rc =? 0)) (io_error (lit "fsync directory: " ++ os_error_text)).

(** What [read] makes of the directory. *)
Definition read_ref (fs : gmap bytes file) : result (option LevelSet) :=
  match fs !! kManifestName with
  | None => ROk None
  | Some f =>
      let size := sz (f_data f) in
      fail_if ((size <? kHeaderSize + kTrailerSize) || (kMaxManifestSize <? size))
        (corruption (lit "manifest is not a plausible size: " ++ kManifestName));;
      set ← decode (f_data f);
      ROk (Some set)
  end.

Lemma wp_read {S} (s : S) w :
  wp read s w
    (λ r s' w', s' = s ∧ same_files w w' ∧ (read_ref (w_files w) = ROk r ∨ ¬ reliable w ∧ r = None))
    (λ e s' w', s' = s ∧ same_files w w' ∧ (¬ reliable w ∧ code_ e = IOError ∨ read_ref (w_files w) = RErr e))
    (same_files w).
Proof.
  unfold read, read_ref. wp_call wp_exists. intros present ? w1 Hc1 (-> & Hs1 & Hp).
  destruct (w_files w !! kManifestName) as [f|] eqn:Hf.
  2: { rewrite bool_decide_eq_false_2 in Hp by (by intros [? ?]).
       assert (present = false) as -> by (by destruct Hp as [?|[? _]]). apply wp_ret. auto. }
  rewrite bool_decide_eq_true_2 in Hp by eauto.
  destruct Hp as [-> |[-> Hq]]; cbn [negb]; [|apply wp_ret; auto].
  wp_call wp_path_size. intros size ? w2 Hc2 (-> & Hs2 & Hsz). rewrite (proj1 Hs1), Hf in Hsz. cbn in Hsz.
  assert (Hs12 : same_files w w2) by (by etrans). clear Hs1 Hs2.
  destruct Hsz as [-> |[-> Hq]]; [|apply wp_fail; split_and!; [done|done|left; eauto with wp]].
  apply wp_bind_fail_when. { intros ->. auto. }
  intros Hc. rewrite Hc. cbn [fail_if mbind result_bind]. arith_hyps.
  assert (Hf2 : w_files w2 !! kManifestName = Some f) by (by rewrite (proj1 Hs12)).
  assert (Eo : LogFileOps.opened_file kManifestName (w_files w2) = f) by (unfold LogFileOps.opened_file; by rewrite Hf2).
  assert (Ed : LogFileOps.opened kManifestName (w_files w2) = w_files w2) by (by eapply LogFileOps.opened_existing).
  eapply wp_bind; [apply (LogFileOps.wp_open kManifestName Never s w2)|..]; cbn beta; rewrite ?Eo, ?Ed.
  - unfold kMaxManifestSize, UINT64_MAX in *. change (Z.shiftl 64 20) with 67108864 in *. lia.
  - intros lf ? w3 Hc3 (-> & Hs3 & ->). assert (Hs13 : same_files w w3) by (by etrans).
    rewrite u32_id.
    2: { unfold kMaxManifestSize, UINT32_MAX in *. change (Z.shiftl 64 20) with 67108864 in *.
         pose proof (sz_nonneg (f_data f)). lia. }
    eapply wp_bind_local; [apply (LogFileOps.wp_read_at _ w3 f 0 (sz (f_data f))); try done|..]; cbn beta.
    + by rewrite (proj1 Hs13).
    + apply sz_nonneg.
    + unfold kMaxManifestSize, UINT64_MAX in *. change (Z.shiftl 64 20) with 67108864 in *. lia.
    + intros bs l w4 Hc4 (_ & Hs4 & -> & _). assert (Hs14 : same_files w w4) by (by etrans). cbn [fst].
      rewrite slice_all. pose proof (manifest_decode_safe (f_data f)) as Hsafe.
      destruct (decode (f_data f)) as [set|e|]; [| |done]; wp_pure; cbn [mbind result_bind].
      * apply wp_ret. auto.
      * apply wp_bind_err. auto.
    + intros e l w4 Hc4 (_ & Hs4 & Herr). split_and!; [done|by etrans|].
      destruct Herr as [[Hq Hcode]|[Hlt _]]; [left; eauto 10 with wp|lia].
    + intros w4 _ Hs4. by etrans.
  - intros e ? w3 Hc3 (-> & Hq & Hcode & Hs3). split_and!; [done| |left; eauto with wp].
    etrans; [exact Hs12|]. by destruct Hs3.
  - intros w3 _ Hs3. etrans; [exact Hs12|]. by destruct Hs3.
Qed.

(** Filling a fresh file and forcing it to the device. *)
Lemma wp_write_file l w f bs : LogFileOps.holds l w f [] [] → sz bs ≤ UINT64_MAX →
  wp (_ ← LogFileOps.append bs; LogFileOps.sync;; LogFileOps.close) l w
    (λ _ _ w', touched (lf_path l) w w' ∧ w_files w' !! lf_path l = Some (mkFile bs (length bs)))
    (λ e _ w', touched (lf_path l) w w' ∧ ¬ reliable w ∧ code_ e = IOError)
    (touched (lf_path l) w).
Proof.
  intros Hh Hmax. wp_call (LogFileOps.wp_append l w f [] [] bs Hh).
  - done.
  - intros off l1 w1 Hc1 (-> & -> & f1 & [Hs1 _] & (_ & Hd & _) & _).
    rewrite firstn_all, drop_nil, app_nil_r in Hd. cbn in Hd.
    pose proof (touched_insert _ _ _ _ Hs1) as Ht1.
    wp_call (LogFileOps.wp_sync (LogFileOps.set_end (sz (@nil byte) + sz bs) l) w1); [by destruct Hh|..].
    + intros _ l2 w2 Hc2 (-> & Hs2 & _). cbn [lf_path LogFileOps.set_end] in Hs2.
      assert (Ht2 : touched (lf_path l) w w2).
      { etrans; [exact Ht1|]. intros name Hne. by rewrite Hs2, lookup_alter_ne. }
      eapply wp_mono; [apply LogFileOps.wp_close; by destruct Hh|..]; cbn beta.
      * intros _ l3 w3 Hc3 [-> Hs3]. split; [etrans; [exact Ht2|by apply touched_same]|].
        rewrite (proj1 Hs3), Hs2, lookup_alter_eq, Hs1, lookup_insert_eq. cbn.
        unfold LogFileOps.fsynced. by rewrite Hd.
      * intros e l3 w3 Hc3 (_ & Hq & Hcode & Hs3). split_and!; [etrans; [exact Ht2|by apply touched_same]|eauto with wp|done].
      * intros w3 _ Hs3. etrans; [exact Ht2|by apply touched_same].
    + intros e l2 w2 Hc2 (_ & Hq & Hcode & Hs2). split_and!; [etrans; [exact Ht1|by apply touched_same]|eauto with wp|done].
    + intros w2 _ Hs2. etrans; [exact Ht1|by apply touched_same].
  - intros e l1 w1 Hc1 (Hq & Hcode & f1 & k & [Hs1 _] & _). split_and!; [by eapply touched_insert|done|done].
  - intros w1 _ (f1 & k & [Hs1 _] & _). by eapply touched_insert.
Qed.

(** The level set on disk, or not: before the rename only the temporary file has
    changed, from it on the manifest is the new one, complete and on the device. *)
Definition committed (set : LevelSet) (w w' : World) : Prop :=
  w_files w' !! kManifestName = Some (mkFile (encode set) (length (encode set))) ∧
  ∀ name, name ≠ kManifestName → name ≠ temp_name kManifestName → w_files w' !! name = w_files w !! name.

Lemma wp_write_atomic {S} set (s : S) w : sz (encode set) ≤ UINT64_MAX →
  reliable w ∨ w_files w !! temp_name kManifestName = None →
  wp (write_atomic set) s w
    (λ _ s' w', s' = s ∧ committed set w w')
    (λ e s' w', s' = s ∧ ¬ reliable w ∧ code_ e = IOError ∧
       (touched (temp_name kManifestName) w w' ∨ committed set w w'))
    (λ w', touched (temp_name kManifestName) w w' ∨ committed set w w').
Proof.
  intros Hmax Hrel. unfold write_atomic. cbv zeta. set (temp := temp_name kManifestName) in *.
  apply wp_bind_assoc_rev.
  wp_call (LogFileOps.wp_open_fresh temp Never s w Hrel).
  2: { intros e s1 w1 Hc1 (-> & Ht & Hq & Hcode). auto. }
  2: auto.
  intros l s1 w1 Hc1 (-> & Ht1 & -> & Hf1).
  eapply wp_bind_local; [eapply wp_write_file; [|done]|..]; cbn beta; cbn [lf_path].
  - split_and!; try done; cbn; exact Hf1.
  - intros [] l w2 Hc2 [Ht2 Hf2]. assert (Ht12 : touched temp w w2) by (by etrans).
    wp_call (wp_rename_file temp kManifestName s w2 _ Hf2).
    2: { intros w3 _ ->. by left. }
    intros rc s3 w3 Hc3 (-> & [(-> & Hs3 & _)|(-> & Hq & Hs3)]); cbn [Z.eqb negb fail_when]; wp_pure.
    2: { apply wp_bind_fail. split_and!; [done|eauto with wp|done|]. left. etrans; [exact Ht12|by apply touched_same]. }
    assert (Hcom : committed set w w3).
    { split; [by rewrite Hs3, lookup_insert_eq|]. intros name Hn1 Hn2.
      rewrite Hs3, lookup_insert_ne, lookup_delete_ne by done. by apply Ht12. }
    wp_call wp_sync_directory.
    2: { intros w4 _ ->. by right. }
    intros rc s4 w4 Hc4 (-> & Hs4 & Hrc). assert (Hcom4 : committed set w w4).
    { destruct Hcom as [Hc Ho]. split; [by rewrite (proj1 Hs4)|]. intros name ??. rewrite (proj1 Hs4). auto. }
    destruct Hrc as [-> |[-> Hq]]; cbn [Z.eqb negb fail_when]; [by apply wp_ret|].
    apply wp_fail. split_and!; [done|eauto 10 with wp|done|by right].
  - intros e l w2 Hc2 (Ht2 & Hq & Hcode). split_and!; [done|eauto with wp|done|]. left. by etrans.
  - intros w2 _ Ht2. left. by etrans.
Qed.

(** ** What the manifest promises *)

(** C35: The codec of the manifest.  On any bytes decoding ends with a level set or with
    Corruption, without reading past them; and every level set whose fields fit their
    widths, whose ids are valid and whose ranges are not inverted is read back exactly. *)
Theorem manifest_codec : (∀ bs, safe Corruption (decode bs)) ∧ (∀ set, set_ok set → decode (encode set) = ROk set).
Proof. split; [apply manifest_decode_safe|apply decode_encode_set]. Qed.

Lemma read_ref_same fs fs' : fs' !! kManifestName = fs !! kManifestName → read_ref fs' = read_ref fs.
Proof. intros E. unfold read_ref. by rewrite E. Qed.

Lemma read_ref_touched w w' : touched (temp_name kManifestName) w w' → read_ref (w_files w') = read_ref (w_files w).
Proof. intros Ht. apply read_ref_same, Ht. by vm_compute. Qed.

Lemma read_ref_file set fs f : fs !! kManifestName = Some f → f_data f = encode set → set_ok set →
  sz (encode set) ≤ kMaxManifestSize → read_ref fs = ROk (Some set).
Proof.
  intros Hf Hd Hok Hsz. unfold read_ref. rewrite Hf, Hd. cbv zeta.
  rewrite sz_encode_set in *. pose proof (sz_nonneg (concat (enc_level <$> ls_levels set))).
  rewrite (proj2 (Z.ltb_ge _ _)), (proj2 (Z.ltb_ge _ _)) by lia. cbn [orb fail_if mbind result_bind].
  by rewrite decode_encode_set.
Qed.

Lemma read_ref_committed set w w' : set_ok set → sz (encode set) ≤ kMaxManifestSize → committed set w w' →
  read_ref (w_files w') = ROk (Some set).
Proof. intros Hok Hsz [Hf _]. by eapply read_ref_file. Qed.

(** C34: Replacing the manifest is atomic.  When [write_atomic] returns Ok the next reader
    finds the new level set; when it fails or the process dies anywhere inside it, the
    next reader finds the old state or the new one, never a mixture or a torn file; and no
    file but the manifest and its temporary changes. *)
Theorem manifest_commit_atomic {S} set (s : S) w : set_ok set → sz (encode set) ≤ kMaxManifestSize →
  reliable w ∨ w_files w !! temp_name kManifestName = None →
  wp (write_atomic set) s w
    (λ _ _ w', read_ref (w_files w') = ROk (Some set) ∧ committed set w w')
    (λ e _ w', (¬ reliable w ∧ code_ e = IOError) ∧
       (read_ref (w_files w') = read_ref (w_files w) ∨ read_ref (w_files w') = ROk (Some set)))
    (λ w', read_ref (w_files w') = read_ref (w_files w) ∨ read_ref (w_files w') = ROk (Some set)).
Proof.
  intros Hok Hsz Hrel. eapply wp_mono; [apply (wp_write_atomic set s w); [|done]|..]; cbn beta.
  - unfold kMaxManifestSize, UINT64_MAX in *. change (Z.shiftl 64 20) with 67108864 in *. lia.
  - intros _ _ w' _ (_ & Hc). split; [by eapply read_ref_committed|done].
  - intros e _ w' _ (_ & Hq & Hcode & Hc). split; [done|].
    destruct Hc as [Ht|Hc]; [left; by apply read_ref_touched|right; by eapply read_ref_committed].
  - intros w' _ [Ht|Hc]; [left; by apply read_ref_touched|right; by eapply read_ref_committed].
Qed.

(** C36: A level set that encodes to more than [kMaxManifestSize] bytes is committed
    without complaint and can never be read back: after an Ok from [write_atomic] every
    read that does not fail itself reports Corruption. *)
Theorem oversized_manifest_unreadable {S} set (s : S) w : kMaxManifestSize < sz (encode set) ≤ UINT64_MAX →
  reliable w →
  wp (write_atomic set;; attempt read) s w
    (λ r _ _, ∃ e, r = inr e ∧ code_ e = Corruption) (λ _ _ _, False) (λ _, True).
Proof.
  intros Hsz Hr. wp_call (wp_write_atomic set s w); [lia|by left|..].
  - intros _ s1 w1 Hc1 (-> & Hf & _). eapply wp_attempt, wp_mono; [apply wp_read|..]; cbn beta; [|..|done].
    + intros r s2 w2 Hc2 (_ & _ & [Hread|[Hq _]]); [|exfalso; eauto with wp].
      unfold read_ref in Hread. rewrite Hf in Hread. cbn [f_data] in Hread. cbv zeta in Hread.
      rewrite (proj2 (Z.ltb_lt kMaxManifestSize _)), orb_true_r in Hread by lia. done.
    + intros e s2 w2 Hc2 (_ & _ & [[Hq _]|Hread]); [exfalso; eauto with wp|].
      unfold read_ref in Hread. rewrite Hf in Hread. cbn [f_data] in Hread. cbv zeta in Hread.
      rewrite (proj2 (Z.ltb_lt kMaxManifestSize _)), orb_true_r in Hread by lia.
      injection Hread as <-. by eexists.
  - intros e s1 w1 _ (_ & Hq & _). done.
Qed.

End Codec.

(** A level set with one table, and a directory with an older one. *)
Definition sample_set (next : Z) (key : bytes) : LevelSet :=
  mkLevelSet next [[mkTableMeta 1 100 1 key key]; []].

Definition sample_dir : World :=
  mkWorld {[ kManifestName := mkFile (@encode reference_platform (sample_set 2 (lit "a"))) 0 ]}
    [EvOk; EvShort 3; EvOk; EvCrash] [].

Lemma sample_set_ok next key : 0 ≤ next ≤ UINT32_MAX → sz key ≤ UINT32_MAX → set_ok (sample_set next key).
Proof.
  intros Hn Hk. split; [done|]. split; [by vm_compute|]. constructor; [|by repeat constructor].
  split; [by vm_compute|]. constructor; [|constructor]. unfold meta_ok, valid_id.
  cbn [tm_id tm_file_size tm_entry_count tm_min_key tm_max_key].
  unfold UINT64_MAX, kFirstFileId, UINT32_MAX in *. split_and!; try lia. korder.
Qed.

Lemma manifest_commit_atomic_witness :
  @wp unit unit (@write_atomic reference_platform unit (sample_set 3 (lit "b"))) tt sample_dir
    (λ _ _ w', @read_ref reference_platform (w_files w') = ROk (Some (sample_set 3 (lit "b"))) ∧
       @committed reference_platform (sample_set 3 (lit "b")) sample_dir w')
    (λ e _ w', (¬ reliable sample_dir ∧ code_ e = IOError) ∧
       (@read_ref reference_platform (w_files w') = @read_ref reference_platform (w_files sample_dir) ∨
        @read_ref reference_platform (w_files w') = ROk (Some (sample_set 3 (lit "b")))))
    (λ w', @read_ref reference_platform (w_files w') = @read_ref reference_platform (w_files sample_dir) ∨
        @read_ref reference_platform (w_files w') = ROk (Some (sample_set 3 (lit "b")))).
Proof.
  apply (@manifest_commit_atomic reference_platform unit (sample_set 3 (lit "b")) tt sample_dir).
  - apply sample_set_ok; by vm_compute.
  - by vm_compute.
  - right. by vm_compute.
Defined.

(** A key of 32 MiB, stored twice, is too much. *)
Definition huge_key : bytes := replicate (Z.to_nat 33554432) (byte.of_Z 97).

Lemma sz_huge_key : sz huge_key = 33554432.
Proof. unfold huge_key, sz. rewrite length_replicate. lia. Qed.

Lemma sz_sample_set `{Platform} next key : sz (encode (sample_set next key)) = 56 + 2 * sz key.
Proof.
  rewrite sz_encode_set. set (t := mkTableMeta 1 100 1 key key).
  change (concat (enc_level <$> ls_levels (sample_set next key))) with (enc_level [t] ++ enc_level [] ++ []).
  rewrite !sz_app, !sz_enc_level. change (concat (enc_table <$> [t])) with (enc_table t ++ []).
  change (concat (enc_table <$> [])) with (@nil byte). rewrite sz_app, sz_enc_table, !sz_nil.
  unfold kHeaderSize, kTrailerSize, kTableFixedSize. cbn [tm_min_key tm_max_key t]. lia.
Qed.

Lemma oversized_manifest_unreadable_witness :
  wp (@write_atomic reference_platform unit (sample_set 2 huge_key);; attempt (@read reference_platform unit))
    tt (mkWorld ∅ [] [])
    (λ r _ _, ∃ e, r = inr e ∧ code_ e = Corruption) (λ _ _ _, False) (λ _, True).
Proof.
  apply (@oversized_manifest_unreadable reference_platform unit (sample_set 2 huge_key)).
  - rewrite sz_sample_set, sz_huge_key. unfold UINT64_MAX, kMaxManifestSize. change (Z.shiftl 64 20) with 67108864. lia.
  - by apply quiet_reliable.
Defined.

End manifest.
