(* ===== verification/LogScan.v ===== *)
(** Walking a log: [src/log_scan.hpp], [src/log_scan.cpp].

    The model of [scan_records], the sequence of intact records at the front of a
    byte string, and the rule that lets a caller reason about a scan by an
    invariant over the records visited so far. *)

From S2P Require Import Prelude Status World Wp Encoding Record LogFile.
Import record.

#[local] Opaque encode decode decode_header.

Section LogScan.
Context `{Platform}.

(** The loop of [scan_records]; [visit] is the caller's callback, whose captured
    variables are the state [V]. *)
Fixpoint scan_loop {V : Type} (fuel : nat) (file : LogFile)
    (visit : Z → Record_ → bytes → M V unit) (offset good_end : Z) : M V Z :=
  match fuel with
  | O => stuck
  | S fuel =>
      let file_size := end_offset_ file in
      if u64 (offset + kHeaderSize) <=? file_size then
        header_bytes ← attempt (with_local file (LogFileOps.read_at offset kHeaderSize));
        match header_bytes with
        | inr _ => mret good_end
        | inl (header_bytes, _) =>
            header ← attempt (liftR (decode_header header_bytes));
            match header with
            | inr _ => mret good_end
            | inl header =>
                let total := total_size header in
                if file_size <? u64 (offset + total) then mret good_end
                else
                  bs ← attempt (with_local file (LogFileOps.read_at offset (u32 total)));
                  match bs with
                  | inr _ => mret good_end
                  | inl (bs, _) =>
                      rec ← attempt (liftR (decode bs));
                      match rec with
                      | inr _ => mret good_end
                      | inl rec =>
                          visit offset rec bs;;
                          scan_loop fuel file visit (u64 (offset + total)) (u64 (offset + total))
                      end
                  end
            end
        end
      else mret good_end
  end.

(** [scan_records]. *)
Definition scan_records {V : Type} (file : LogFile)
    (visit : Z → Record_ → bytes → M V unit) : M V Z :=
  scan_loop (S (Z.to_nat (end_offset_ file))) file visit 0 0.

(** * The records of a byte string *)

(** One intact record: its bytes are exactly the record, and they verify. *)
Definition is_record (raw : bytes) (r : Record_) : Prop :=
  decode raw = ROk r ∧ sz raw = r_total_size r.

(** The record at the front of [d] and what follows it. *)
Definition next_record (d : bytes) : option (Record_ * bytes * bytes) :=
  if sz d <? kHeaderSize then None
  else match decode_header (take 21 d) with
       | ROk h =>
           let n := Z.to_nat (total_size h) in
           if sz d <? total_size h then None
           else match decode (take n d) with
                | ROk r => Some (r, take n d, drop n d)
                | _ => None
                end
       | _ => None
       end.

Fixpoint parse_from (fuel : nat) (off : Z) (d : bytes) : list (Z * Record_ * bytes) * bytes :=
  match fuel with
  | O => ([], d)
  | S fuel =>
      match next_record d with
      | None => ([], d)
      | Some (r, raw, rest) =>
          let '(es, tl) := parse_from fuel (off + sz raw) rest in ((off, r, raw) :: es, tl)
      end
  end.

(** The offsets, contents and bytes of the intact records at the front of [d], and
    the rest of [d] from the first one that does not verify on. *)
Definition parse_log (d : bytes) : list (Z * Record_ * bytes) * bytes :=
  parse_from (S (length d)) 0 d.

Definition raws (es : list (Z * Record_ * bytes)) : bytes := concat (snd <$> es).

Lemma raws_cons o r raw es : raws ((o, r, raw) :: es) = raw ++ raws es.
Proof. done. Qed.

Lemma raws_app es1 es2 : raws (es1 ++ es2) = raws es1 ++ raws es2.
Proof. unfold raws. by rewrite fmap_app, concat_app. Qed.

(** ** Facts about [next_record] *)

Lemma is_record_size raw r : is_record raw r → kHeaderSize < sz raw ≤ UINT32_MAX.
Proof.
  intros [Hd Hsz]. destruct (decode_header_of_record _ _ Hd) as (h & Hh & Ht).
  apply decode_header_sound in Hh as (_ & ? & ? & _ & Ht' & Hmax & _).
  unfold kMaxRecordSize in Hmax. lia.
Qed.

Lemma next_record_app raw r rest : is_record raw r →
  next_record (raw ++ rest) = Some (r, raw, rest).
Proof.
  intros Hr. pose proof (is_record_size _ _ Hr) as Hsz. destruct Hr as [Hd Htot].
  destruct (decode_header_of_record _ _ Hd) as (h & Hh & Ht).
  unfold next_record. pose proof (sz_nonneg rest).
  rewrite (proj2 (Z.ltb_ge _ kHeaderSize)) by (rewrite sz_app; lia).
  rewrite decode_header_take by (rewrite sz_app; lia).
  rewrite decode_header_app, Hh, Ht, <-Htot by lia.
  rewrite (proj2 (Z.ltb_ge _ _)) by (rewrite sz_app; lia).
  unfold sz. by rewrite Nat2Z.id, take_app_length, drop_app_length, Hd.
Qed.

Lemma next_record_inv d r raw rest : next_record d = Some (r, raw, rest) →
  d = raw ++ rest ∧ is_record raw r.
Proof.
  unfold next_record. destruct (Z.ltb_spec (sz d) kHeaderSize) as [|Hd]; [done|].
  rewrite decode_header_take by done.
  destruct (decode_header d) as [h| |] eqn:Hh; [|done|done].
  destruct (Z.ltb_spec (sz d) (total_size h)) as [|Hle]; [done|].
  destruct (decode _) as [r'| |] eqn:Hr; [|done|done]. intros [= <- <- <-].
  split; [by rewrite take_drop|]. split; [done|].
  destruct (decode_header_of_record _ _ Hr) as (h' & Hh' & <-).
  assert (Hn : sz (take (Z.to_nat (total_size h)) d) = total_size h).
  { pose proof (decode_header_sound _ _ Hh) as (_ & ? & ? & _ & Ht & _). unfold kHeaderSize in *. len. }
  rewrite Hn. f_equal.
  rewrite <-(take_drop (Z.to_nat (total_size h)) d) in Hh.
  rewrite decode_header_app, Hh' in Hh; [congruence|].
  rewrite Hn. pose proof (decode_header_sound _ _ Hh) as (_ & ? & ? & _ & Ht & _). lia.
Qed.

(** ** Facts about [parse_log] *)

Lemma parse_from_sound fuel off d es tl : parse_from fuel off d = (es, tl) → d = raws es ++ tl.
Proof.
  revert off d es. induction fuel as [|fuel IH]; intros off d es; simpl; [by intros [= <- <-]|].
  destruct (next_record d) as [[[r raw] rest]|] eqn:Hn; [|by intros [= <- <-]].
  destruct (parse_from fuel _ rest) as [es' tl'] eqn:Hp. intros [= <- <-].
  apply next_record_inv in Hn as [-> _]. apply IH in Hp as ->.
  by rewrite raws_cons, app_assoc.
Qed.

(** Consecutive records from [off] on. *)
Fixpoint chained (off : Z) (es : list (Z * Record_ * bytes)) : Prop :=
  match es with
  | [] => True
  | (o, r, raw) :: es => o = off ∧ is_record raw r ∧ chained (off + sz raw) es
  end.

Lemma parse_from_chained fuel off d es tl : parse_from fuel off d = (es, tl) → chained off es.
Proof.
  revert off d es. induction fuel as [|fuel IH]; intros off d es; simpl; [by intros [= <- <-]|].
  destruct (next_record d) as [[[r raw] rest]|] eqn:Hn; [|by intros [= <- <-]].
  destruct (parse_from fuel _ rest) as [es' tl'] eqn:Hp. intros [= <- <-].
  apply next_record_inv in Hn as [-> ?]. simpl. eauto.
Qed.

Lemma chained_app off es1 es2 :
  chained off (es1 ++ es2) ↔ chained off es1 ∧ chained (off + sz (raws es1)) es2.
Proof.
  revert off. induction es1 as [|[[o r] raw] es1 IH]; intros off; simpl.
  - unfold raws. simpl. rewrite sz_nil, Z.add_0_r. tauto.
  - rewrite IH, raws_cons, sz_app, Z.add_assoc. tauto.
Qed.

(** A chain of records followed by something that is no record parses to itself. *)
Lemma parse_from_chain fuel off es tl : chained off es → next_record tl = None →
  (length es < fuel)%nat → parse_from fuel off (raws es ++ tl) = (es, tl).
Proof.
  revert fuel off. induction es as [|[[o r] raw] es IH]; intros fuel off Hc Hn Hf;
    destruct fuel as [|fuel]; simpl in *; try lia.
  - by rewrite Hn.
  - destruct Hc as (-> & Hr & Hc). rewrite raws_cons, <-app_assoc.
    rewrite (next_record_app _ _ _ Hr). rewrite (IH fuel _ Hc Hn) by lia. done.
Qed.

Lemma chained_length off es : chained off es → (length es ≤ length (raws es))%nat.
Proof.
  revert off. induction es as [|[[o r] raw] es IH]; intros off; simpl; [lia|].
  intros (_ & Hr & Hc). apply is_record_size in Hr. apply IH in Hc.
  rewrite raws_cons, length_app. unfold sz, kHeaderSize in *. lia.
Qed.

Lemma parse_log_chain es tl : chained 0 es → next_record tl = None →
  parse_log (raws es ++ tl) = (es, tl).
Proof.
  intros Hc Hn. unfold parse_log. apply parse_from_chain; [done|done|].
  apply chained_length in Hc. rewrite length_app. lia.
Qed.

Lemma parse_from_complete fuel off d es tl : (length d < fuel)%nat →
  parse_from fuel off d = (es, tl) → next_record tl = None.
Proof.
  revert off d es. induction fuel as [|fuel IH]; intros off d es Hf; simpl; [lia|].
  destruct (next_record d) as [[[r raw] rest]|] eqn:Hn; [|by intros [= <- <-]].
  destruct (parse_from fuel _ rest) as [es' tl'] eqn:Hp. intros [= <- <-].
  apply next_record_inv in Hn as [-> Hr]. eapply IH; [|done].
  apply is_record_size in Hr. rewrite length_app in Hf. unfold sz, kHeaderSize in *. lia.
Qed.

(** Every byte string is a chain of intact records followed by a rest that does
    not start with one. *)
Lemma parse_log_spec d es tl : parse_log d = (es, tl) →
  d = raws es ++ tl ∧ chained 0 es ∧ next_record tl = None.
Proof.
  intros Hp. split_and!; [by eapply parse_from_sound|by eapply parse_from_chained|].
  by eapply parse_from_complete, Hp; lia.
Qed.

(** What the scan sees at a position: the next record of the chain, or its end. *)
Lemma chain_next es tl done rest : chained 0 es → next_record tl = None → es = done ++ rest →
  drop (length (raws done)) (raws es ++ tl) = raws rest ++ tl ∧
  match rest with
  | [] => next_record (raws rest ++ tl) = None
  | (o, r, raw) :: rest' =>
      o = sz (raws done) ∧ is_record raw r ∧
      next_record (raws rest ++ tl) = Some (r, raw, raws rest' ++ tl)
  end.
Proof.
  intros Hc Hn ->. apply chained_app in Hc as [_ Hc]. split.
  - by rewrite raws_app, <-app_assoc, drop_app_length.
  - destruct rest as [|[[o r] raw] rest']; [done|]. destruct Hc as (-> & Hr & _).
    split_and!; [lia|done|]. by rewrite raws_cons, <-app_assoc, (next_record_app _ _ _ Hr).
Qed.

(** ** Scanning with an invariant *)

Section scan_rule.
Context {V : Type} (file : LogFile) (f : World.file) (d junk : bytes).
Context (visit : Z → Record_ → bytes → M V unit).
Context (I : list (Z * Record_ * bytes) → V → World → Prop).
Context (E : Status → V → World → Prop) (D : World → Prop).
Context (es : list (Z * Record_ * bytes)) (tl : bytes) (w0 : World).

Hypothesis Hopen : lf_open file = true.
Hypothesis Hend : end_offset_ file = sz d.
Hypothesis Hdata : f_data f = d ++ junk.
Hypothesis Hmax : sz d ≤ INT64_MAX.
Hypothesis Hparse : parse_log d = (es, tl).
Hypothesis I_file : ∀ done v w, I done v w → w_files w !! lf_path file = Some f.
Hypothesis I_same : ∀ done v w w', I done v w → same_files w w' → calm w w' → I done v w'.
Hypothesis I_died : ∀ done v w w', I done v w → ¬ quiet w → same_files w w' → D w'.
Hypothesis I_visit : ∀ done o r raw rest v w,
  es = done ++ (o, r, raw) :: rest → o = sz (raws done) → is_record raw r →
  I done v w → calm w0 w →
  wp (visit o r raw) v w (λ _ v' w', I (done ++ [(o, r, raw)]) v' w') E D.

(** A read during the scan: the bytes of [d], or a fault. *)
Lemma wp_scan_read {B} done off n (k : (bytes * LogFile) + Status → M V B) v w Q :
  I done v w → 0 ≤ off → 0 ≤ n → off + n ≤ sz d →
  (∀ w', same_files w w' → calm w w' → wp (k (inl (slice d off n, file))) v w' Q E D) →
  (∀ e w', same_files w w' → calm w w' → ¬ reliable w → wp (k (inr e)) v w' Q E D) →
  wp (attempt (with_local file (LogFileOps.read_at off n)) ≫= k) v w Q E D.
Proof.
  intros HI Ho Hn Hle Hok Herr.
  assert (Hin : off + n ≤ sz (f_data f)).
  { rewrite Hdata, sz_app. pose proof (sz_nonneg junk). lia. }
  eapply wp_bind_attempt_local; [apply (LogFileOps.wp_read_at file w f off n); try done;
    [by eapply I_file|]; unfold UINT64_MAX, INT64_MAX in *; lia|..]; cbn beta.
  - intros bs ? w' Hc (-> & Hs & -> & _). rewrite Hdata, slice_app_l by lia. auto.
  - intros e ? w' Hc (-> & Hs & [[Hq _]|[Hq _]]); [eauto|lia].
  - intros w' Hq Hs. by eapply I_died.
Qed.

Lemma sz_raws_le done rest : es = done ++ rest → 0 ≤ sz (raws done) ≤ sz d.
Proof.
  intros He. destruct (parse_log_spec _ _ _ Hparse) as (Hd & _ & _).
  rewrite Hd, He, raws_app, !sz_app. pose proof (sz_nonneg (raws done)).
  pose proof (sz_nonneg (raws rest)). pose proof (sz_nonneg tl). lia.
Qed.

Lemma slice_at_drop off n : 0 ≤ off → slice d off n = take (Z.to_nat n) (drop (Z.to_nat off) d).
Proof. done. Qed.

Definition scan_post (w : World) (n : Z) (v' : V) (w' : World) : Prop :=
  ∃ done rest, es = done ++ rest ∧ n = sz (raws done) ∧ I done v' w' ∧ (reliable w → rest = []).

Lemma wp_scan_loop fuel done rest v w : es = done ++ rest → I done v w → calm w0 w →
  sz d - sz (raws done) < Z.of_nat fuel →
  wp (scan_loop fuel file visit (sz (raws done)) (sz (raws done))) v w (scan_post w) E D.
Proof.
  destruct (parse_log_spec _ _ _ Hparse) as (Hd & Hchain & Htl).
  revert done rest v w. induction fuel as [|fuel IH]; intros done rest v w Hes HI Hc Hfuel.
  { apply sz_raws_le in Hes. lia. }
  pose proof (sz_raws_le _ _ Hes) as Hcur. set (cur := sz (raws done)) in *.
  destruct (chain_next es tl done rest Hchain Htl Hes) as [Hdrop Hnext].
  rewrite <-Hd in Hdrop. set (d' := raws rest ++ tl) in *.
  assert (Hd' : sz d' = sz d - cur) by (rewrite <-Hdrop; unfold cur, sz in *; rewrite length_drop; lia).
  assert (Hslice : ∀ n, slice d cur n = take (Z.to_nat n) d').
  { intros n. unfold slice, cur, sz. by rewrite Nat2Z.id, Hdrop. }
  assert (Hstop : rest = [] → wp (mret cur) v w (scan_post w) E D).
  { intros ->. apply wp_ret. exists done, []. done. }
  cbn [scan_loop]. rewrite Hend. fold cur.
  rewrite u64_id by (unfold kHeaderSize, UINT64_MAX, INT64_MAX in *; lia).
  (* the tests of the loop are those of [next_record] *)
  assert (Hn : next_record d' = match rest with [] => None
    | (_, r, raw) :: rest' => Some (r, raw, raws rest' ++ tl) end).
  { destruct rest as [|[[o r] raw] rest']; [done|]. by destruct Hnext as (_ & _ & ?). }
  unfold next_record in Hn.
  destruct (Z.leb_spec (cur + kHeaderSize) (sz d)) as [Hle|Hgt].
  2: { apply Hstop. rewrite (proj2 (Z.ltb_lt _ _)) in Hn by lia.
       by destruct rest as [|[[??]?]?]. }
  rewrite (proj2 (Z.ltb_ge _ _)) in Hn by lia.
  eapply (wp_scan_read done); [done|lia|done|done| |].
  2: { intros e w1 Hs1 Hc1 Hq. apply wp_ret. exists done, rest. split_and!; eauto. done. }
  intros w1 Hs1 Hc1. pose proof (I_same _ _ _ _ HI Hs1 Hc1) as HI1.
  assert (Hstop1 : rest = [] → wp (mret cur) v w1 (scan_post w) E D).
  { intros ->. apply wp_ret. exists done, []. done. }
  rewrite Hslice. change (Z.to_nat kHeaderSize) with 21%nat.
  destruct (decode_header (take 21 d')) as [h|e|] eqn:Hh.
  2: { wp_pure. apply Hstop1. by destruct rest as [|[[??]?]?]. }
  2: { exfalso. pose proof (decode_header_safe (take 21 d')) as Hsafe. by rewrite Hh in Hsafe. }
  pose proof (decode_header_sound _ _ Hh) as (_ & ? & ? & _ & Htot & Hcap & _).
  unfold kMaxRecordSize in Hcap. assert (0 ≤ total_size h) by (rewrite Htot; unfold kHeaderSize; lia).
  wp_pure. rewrite u64_id by (unfold UINT64_MAX, UINT32_MAX, INT64_MAX in *; lia).
  destruct (Z.ltb_spec (sz d) (cur + total_size h)) as [Hlt|Hge].
  { apply Hstop1. rewrite (proj2 (Z.ltb_lt _ _)) in Hn by lia. by destruct rest as [|[[??]?]?]. }
  rewrite (proj2 (Z.ltb_ge _ _)) in Hn by lia. rewrite u32_id by done.
  eapply (wp_scan_read done); [done|lia|done|lia| |].
  2: { intros e w2 Hs2 Hc2 Hq. apply wp_ret. exists done, rest. split_and!; eauto.
       intros Hq'. by apply (calm_reliable _ _ Hc1) in Hq'. }
  intros w2 Hs2 Hc2. pose proof (I_same _ _ _ _ HI1 Hs2 Hc2) as HI2.
  rewrite Hslice. destruct (decode (take _ d')) as [rec|e|] eqn:Hrec.
  2: { wp_pure. assert (rest = []) as -> by (by destruct rest as [|[[??]?]?]).
       apply wp_ret. by exists done, []. }
  2: { exfalso. pose proof (decode_any (take (Z.to_nat (total_size h)) d')) as Hsafe.
       by rewrite Hrec in Hsafe. }
  wp_pure. destruct rest as [|[[o r] raw] rest']; [done|]. injection Hn as Hn1 Hn2 Hn3.
  subst rec. rewrite <-Hn2 in *. clear Hn3.
  destruct Hnext as (-> & Hr & _). fold cur.
  eapply wp_bind; [eapply (I_visit done); [done|done|done|done|by etrans; [|etrans]]| |auto|auto].
  intros [] v3 w3 Hc3 HI3.
  assert (Hcur' : cur + total_size h = sz (raws (done ++ [(cur, r, take (Z.to_nat (total_size h)) d')]))).
  { rewrite raws_app, sz_app. unfold raws at 2. simpl. rewrite app_nil_r. fold cur. f_equal. len. }
  rewrite Hcur'. eapply wp_mono; [eapply (IH _ rest'); [|done|by do 3 (etrans; [done|])|]|..]; auto.
  - by rewrite Hes, <-app_assoc.
  - rewrite <-Hcur'. unfold kHeaderSize in *. lia.
  - intros n v' w' _ (done' & rest'' & ? & ? & ? & Hq). exists done', rest''. split_and!; auto.
    eauto 6 with wp.
Qed.

(** [scan_records] visits the intact records in order and returns where they end;
    a read fault makes it stop early, at a record boundary. *)
Lemma wp_scan_records v : I [] v w0 →
  wp (scan_records file visit) v w0 (scan_post w0) E D.
Proof.
  intros HI. unfold scan_records. apply (wp_scan_loop _ [] es); [done|done|done|].
  rewrite Hend. change (raws []) with (@nil byte). rewrite sz_nil. pose proof (sz_nonneg d). lia.
Qed.

End scan_rule.

(** * Logs of writes *)

(** One put or delete, as it is appended to a log. *)
Record write : Type := mkWrite {
  wr_key : bytes; wr_value : bytes; wr_ts : Z; wr_tomb : bool }.

Definition valid_write (x : write) : Prop :=
  fits (wr_key x) (wr_value x) (wr_tomb x) ∧ 0 ≤ wr_ts x ≤ UINT64_MAX.

Definition enc (x : write) : bytes := encode (wr_key x) (wr_value x) (wr_ts x) (wr_tomb x).

Definition rec_of (x : write) : Record_ :=
  record_of (wr_key x) (wr_value x) (wr_ts x) (wr_tomb x).

Definition log_of (xs : list write) : bytes := concat (enc <$> xs).

Fixpoint entries_from (off : Z) (xs : list write) : list (Z * Record_ * bytes) :=
  match xs with
  | [] => []
  | x :: xs => (off, rec_of x, enc x) :: entries_from (off + sz (enc x)) xs
  end.

Lemma log_of_cons x xs : log_of (x :: xs) = enc x ++ log_of xs.
Proof. done. Qed.

Lemma log_of_app xs ys : log_of (xs ++ ys) = log_of xs ++ log_of ys.
Proof. unfold log_of. by rewrite fmap_app, concat_app. Qed.

Lemma log_of_snoc xs x : log_of (xs ++ [x]) = log_of xs ++ enc x.
Proof. rewrite log_of_app. unfold log_of at 2. simpl. by rewrite app_nil_r. Qed.

Lemma entries_from_app off xs ys :
  entries_from off (xs ++ ys) = entries_from off xs ++ entries_from (off + sz (log_of xs)) ys.
Proof.
  revert off. induction xs as [|x xs IH]; intros off; simpl.
  - by rewrite Z.add_0_r.
  - by rewrite IH, log_of_cons, sz_app, Z.add_assoc.
Qed.

Lemma enc_is_record x : valid_write x → is_record (enc x) (rec_of x).
Proof.
  intros [Hf Hts]. split.
  - pose proof (decode_encoded _ _ _ _ [] Hf Hts) as Hd. by rewrite app_nil_r in Hd.
  - unfold enc. by rewrite sz_encode.
Qed.

Lemma sz_enc x : valid_write x → sz (enc x) = kHeaderSize + sz (wr_key x) + sz (stored (wr_value x) (wr_tomb x)).
Proof. intros [Hf _]. unfold enc. by rewrite sz_encode. Qed.

Lemma raws_entries off xs : raws (entries_from off xs) = log_of xs.
Proof.
  revert off. induction xs as [|x xs IH]; intros off; [done|]. simpl.
  rewrite raws_cons, IH. done.
Qed.

Lemma entries_chained off xs : Forall valid_write xs → chained off (entries_from off xs).
Proof.
  intros Hv. revert off. induction Hv as [|x xs Hx Hv IH]; intros off; simpl; [done|].
  split_and!; [done|by apply enc_is_record|apply IH].
Qed.

(** A write that was cut short is never taken for a record: either its header is
    incomplete, or the header announces more bytes than there are. *)
Lemma torn_no_record x n : valid_write x → (n < length (enc x))%nat →
  next_record (take n (enc x)) = None.
Proof.
  intros [Hf Hts] Hn. unfold next_record.
  destruct (Z.ltb_spec (sz (take n (enc x))) kHeaderSize) as [|Hge]; [done|].
  rewrite decode_header_take by done.
  pose proof (decode_header_encode (wr_key x) (wr_value x) (wr_ts x) (wr_tomb x) [] Hf Hts) as Hh.
  rewrite app_nil_r in Hh. fold (enc x) in Hh. rewrite <-(take_drop n (enc x)) in Hh.
  rewrite decode_header_app in Hh by done. rewrite Hh.
  rewrite header_total by done. rewrite (proj2 (Z.ltb_lt _ _)); [done|].
  rewrite <-(sz_encode _ _ (wr_ts x) _ Hf). fold (enc x). len.
Qed.

(** What a crash can leave behind the last complete record. *)
Definition torn (tl : bytes) : Prop :=
  tl = [] ∨ ∃ x n, valid_write x ∧ (n < length (enc x))%nat ∧ tl = take n (enc x).

Lemma torn_next tl : torn tl → next_record tl = None.
Proof. intros [-> |(x & n & Hx & Hn & ->)]; [done|by apply torn_no_record]. Qed.

Lemma parse_log_of xs tl : Forall valid_write xs → next_record tl = None →
  parse_log (log_of xs ++ tl) = (entries_from 0 xs, tl).
Proof.
  intros Hv Htl. rewrite <-(raws_entries 0). apply parse_log_chain; [by apply entries_chained|done].
Qed.

(** ** The scan itself *)

(** A visitor that collects what it is shown. *)
Definition collect (off : Z) (r : Record_) (raw : bytes) : M (list (Z * Record_ * bytes)) unit :=
  modify (λ es, es ++ [(off, r, raw)]).

Lemma wp_scan_collect file w f d junk : LogFileOps.holds file w f d junk → sz d ≤ INT64_MAX →
  wp (scan_records file collect) [] w
    (λ n seen w', ∃ rest, (parse_log d).1 = seen ++ rest ∧ n = sz (raws seen) ∧
       (reliable w → rest = []) ∧ same_files w w')
    (λ _ _ _, False) (λ w', same_files w w').
Proof.
  intros (Ho & Hf & Hd & He) Hmax. destruct (parse_log d) as [es tl] eqn:Hp.
  eapply wp_mono;
    [eapply (wp_scan_records file f d junk collect (λ done seen w', seen = done ∧ same_files w w')
       (λ _ _ _, False) (same_files w)); try done| |done|done].
  - intros done seen w' [_ [-> _]]. done.
  - intros done seen w1 w2 [-> [??]] [??] _. split; [done|]. split; congruence.
  - intros done seen w1 w2 [-> [??]] _ [??]. split; congruence.
  - intros done o r raw rest seen w1 _ _ _ [-> ?] _. by apply wp_modify.
  - intros n seen w' _ (done & rest & -> & -> & [-> Hs] & Hq). by exists rest.
Qed.

(** On any file and under any faults, a scan terminates without undefined
    behaviour having shown its visitor a prefix of the intact records of the file,
    in order and with their offsets, and returns where that prefix ends; without
    faults the prefix is all of them. *)
Theorem scan_records_spec file w f d junk : LogFileOps.holds file w f d junk → sz d ≤ INT64_MAX →
  wp (scan_records file collect) [] w
    (λ n seen w', ∃ rest, (parse_log d).1 = seen ++ rest ∧ n = sz (raws seen) ∧
       (reliable w → rest = []) ∧ same_files w w')
    (λ _ _ _, False) (λ w', same_files w w').
Proof. apply wp_scan_collect. Qed.

(** C20: After a crash in the middle of an append, a scan of the log recovers
    exactly the writes acknowledged before it: the torn write behind them is cut
    off, wherever it was cut. *)
Theorem scan_after_crash file w f xs tl :
  Forall valid_write xs → torn tl → LogFileOps.holds file w f (log_of xs ++ tl) [] →
  sz (log_of xs ++ tl) ≤ INT64_MAX → quiet w →
  ∃ w', scan_records file collect [] w = Ok (sz (log_of xs)) (entries_from 0 xs) w' ∧
    same_files w w'.
Proof.
  intros Hv Ht Hh Hmax Hq.
  destruct (wp_quiet _ _ _ _ _ _ (wp_scan_collect _ _ _ _ _ Hh Hmax) Hq) as
    (n & seen & w' & Hrun & _ & rest & Hp & -> & Hrest & Hs); [auto|].
  rewrite (parse_log_of xs tl Hv (torn_next _ Ht)), (Hrest (quiet_reliable _ Hq)), app_nil_r in Hp.
  simpl in Hp. subst seen. rewrite raws_entries in Hrun. eauto.
Qed.

End LogScan.

(** A log with one complete and one torn write. *)
Definition sample_write (k v : bytes) : write := mkWrite k v 5 false.
Definition sample_data : bytes :=
  @log_of reference_platform [sample_write (lit "k") (lit "v")] ++
  take 10 (@enc reference_platform (sample_write (lit "q") (lit "w"))).
Definition sample_scan_world : World := mkWorld {[ lit "a.log" := mkFile sample_data 0 ]} [] [].
Definition sample_scan_log : LogFile := mkLogFile true (lit "a.log") 33 Never.

Lemma scan_records_spec_witness :
  wp (@scan_records reference_platform _ sample_scan_log collect) [] sample_scan_world
    (λ n _ _, n = 23) (λ _ _ _, False) (λ _, True).
Proof.
  eapply wp_mono; [apply (@scan_records_spec reference_platform sample_scan_log sample_scan_world
    (mkFile sample_data 0) sample_data [])|..].
  - split_and!; vm_compute; reflexivity.
  - vm_compute. intros [=].
  - intros n seen w' _ (rest & Hp & -> & Hq & _). rewrite (Hq (quiet_reliable sample_scan_world eq_refl)), app_nil_r in Hp.
    rewrite <-Hp. vm_compute. reflexivity.
  - done.
  - done.
Defined.

Lemma sample_write_valid k v : k ≠ [] → sz k + sz v < 1000 → valid_write (sample_write k v).
Proof.
  intros. split; [split; [done|]|vm_compute; by split].
  unfold kMaxRecordSize, kHeaderSize, UINT32_MAX. simpl. lia.
Qed.

Lemma scan_after_crash_witness :
  ∃ w', @scan_records reference_platform _ sample_scan_log collect [] sample_scan_world =
    Ok 23 (@entries_from reference_platform 0 [sample_write (lit "k") (lit "v")]) w' ∧
    same_files sample_scan_world w'.
Proof.
  apply (@scan_after_crash reference_platform sample_scan_log sample_scan_world
    (mkFile sample_data 0) [sample_write (lit "k") (lit "v")]
    (take 10 (@enc reference_platform (sample_write (lit "q") (lit "w"))))).
  - constructor; [by apply sample_write_valid|constructor].
  - right. exists (sample_write (lit "q") (lit "w")), 10%nat. split_and!; [by apply sample_write_valid| |done].
    vm_compute. lia.
  - split_and!; vm_compute; reflexivity.
  - vm_compute. intros [=].
  - done.
Defined.
