(* ===== verification/SSTableLayout.v ===== *)
(** What a table file looks like as a whole, and where a key is in it.

    A table that stores the entries [concat bs] in the blocks [bs] is the sealed
    blocks, the filter over all keys, the index with the last key, offset and size
    of every block, and the footer that locates filter and index. *)

From S2P Require Import Prelude Status World Encoding Record Bloom SortedMap Memtable SSTableFormat.
Import sstable.

Abbreviation entry := (bytes * MemEntry)%type.

Section Layout.
Context `{Platform}.
Implicit Types (b : list entry) (bs : list (list entry)).

(** A block as it is on disk. *)
Definition sealed b : bytes := enc_block b ++ le32 (record.crc32_of (enc_block b)).

Definition last_key b : bytes := default [] (fst <$> last b).

Fixpoint index_from (off : Z) bs : list IndexEntry :=
  match bs with
  | [] => []
  | b :: bs => mkIndexEntry (last_key b) off (sz (sealed b)) :: index_from (off + sz (sealed b)) bs
  end.

Definition data_region bs : bytes := concat (sealed <$> bs).

Definition filter_builder (bits : Z) (es : list entry) : BloomBuilder :=
  foldl (flip BloomOps.add) (BloomOps.new_builder bits) es.*1.

Definition filter_block (bits : Z) (es : list entry) : bytes := BloomOps.finish (filter_builder bits es).

Definition index_block bs : bytes :=
  encode_index (index_from 0 bs) ++ le32 (record.crc32_of (encode_index (index_from 0 bs))).

Definition table_footer (bits : Z) bs : Footer :=
  mkFooter (sz (data_region bs) + sz (filter_block bits (concat bs))) (sz (index_block bs))
    (sz (data_region bs)) (sz (filter_block bits (concat bs))) (sz (concat bs)) kFormatVersion.

Definition table_bytes (bits : Z) bs : bytes :=
  data_region bs ++ filter_block bits (concat bs) ++ index_block bs ++
  encode_footer (table_footer bits bs).

(** Blocks a builder produces: entries in key order, none of the blocks empty, and
    every size within the width of its field. *)
Definition block_fits b : Prop := b ≠ [] ∧ Forall entry_fits b ∧ sz (sealed b) ≤ UINT32_MAX.

Record wf_blocks (bits : Z) bs : Prop := {
  wf_sorted : ksorted (concat bs);
  wf_each : Forall block_fits bs;
  wf_index : sz (index_block bs) ≤ UINT32_MAX;
  wf_size : sz (table_bytes bits bs) ≤ INT64_MAX;
}.

(** ** Positions *)

Lemma data_region_cons b bs : data_region (b :: bs) = sealed b ++ data_region bs.
Proof. done. Qed.

Lemma data_region_app bs1 bs2 : data_region (bs1 ++ bs2) = data_region bs1 ++ data_region bs2.
Proof. unfold data_region. by rewrite fmap_app, concat_app. Qed.

Lemma index_from_app off bs1 bs2 :
  index_from off (bs1 ++ bs2) = index_from off bs1 ++ index_from (off + sz (data_region bs1)) bs2.
Proof.
  revert off. induction bs1 as [|b bs1 IH]; intros off; cbn [index_from app].
  - by rewrite Z.add_0_r.
  - by rewrite IH, data_region_cons, sz_app, Z.add_assoc.
Qed.

Lemma length_index_from off bs : length (index_from off bs) = length bs.
Proof. revert off. induction bs as [|b bs IH]; intros off; simpl; [done|]. by rewrite IH. Qed.

(** The entry of a block and the bytes it points at. *)
Lemma index_lookup bs1 b bs2 :
  index_from 0 (bs1 ++ b :: bs2) !! length bs1 =
    Some (mkIndexEntry (last_key b) (sz (data_region bs1)) (sz (sealed b))).
Proof.
  rewrite index_from_app. rewrite lookup_app_r by (by rewrite length_index_from).
  by rewrite length_index_from, Nat.sub_diag.
Qed.

Lemma block_slice bs1 b bs2 rest :
  slice (data_region (bs1 ++ b :: bs2) ++ rest) (sz (data_region bs1)) (sz (sealed b)) = sealed b.
Proof. rewrite data_region_app, data_region_cons, <-!app_assoc. by apply slice_mid. Qed.

Lemma sz_sealed b : sz (sealed b) = sz (enc_block b) + 4.
Proof. unfold sealed. by rewrite sz_app, sz_le32. Qed.

Lemma sealed_payload b : slice (sealed b) 0 (sz (sealed b) - kBlockTrailerSize) = enc_block b.
Proof. apply slice_prefix. rewrite sz_sealed. unfold kBlockTrailerSize. lia. Qed.

Lemma sealed_crc b :
  encoding.get_u32 (sealed b) (sz (sealed b) - kBlockTrailerSize) = ROk (record.crc32_of (enc_block b)).
Proof.
  rewrite sz_sealed. unfold sealed, kBlockTrailerSize. rewrite <-(app_nil_r (le32 _)).
  apply get_u32_app; [lia|apply record.crc32_of_range].
Qed.

(** ** Where a key is *)

Lemma last_key_in b : b ≠ [] → ∃ e, e ∈ b ∧ e.1 = last_key b.
Proof.
  intros Hb. destruct b as [|x b _] using rev_ind; [done|]. exists x. unfold last_key.
  rewrite last_snoc. split; [|done]. apply elem_of_app. right. by apply list_elem_of_singleton.
Qed.

Lemma ksorted_last_key b e : ksorted b → e ∈ b → kle e.1 (last_key b).
Proof.
  intros Hs He. destruct b as [|x b _] using rev_ind; [by apply elem_of_nil in He|].
  unfold last_key. rewrite last_snoc. simpl. apply ksorted_app in Hs as (_ & _ & Hlt).
  apply elem_of_app in He as [He| ->%list_elem_of_singleton]; [|korder].
  specialize (Hlt e x He ltac:(by apply list_elem_of_singleton)). korder.
Qed.

Lemma ksorted_block bs1 b bs2 : ksorted (concat (bs1 ++ b :: bs2)) →
  ksorted b ∧ (∀ e e', e ∈ concat bs1 → e' ∈ b ++ concat bs2 → klt e.1 e'.1) ∧
  (∀ e e', e ∈ b → e' ∈ concat bs2 → klt e.1 e'.1).
Proof.
  rewrite concat_app, concat_cons. intros (_ & (Hb & _ & H2)%ksorted_app & H1)%ksorted_app. done.
Qed.

Lemma index_from_sorted off bs : ksorted (concat bs) → Forall (λ b, b ≠ []) bs →
  StronglySorted (λ x y, klt (ie_key x) (ie_key y)) (index_from off bs).
Proof.
  intros Hs Hne. revert off Hs. induction Hne as [|b bs Hb Hne IH]; intros off Hs; simpl; [constructor|].
  pose proof Hs as (_ & _ & Hlt)%(ksorted_block [] b bs).
  rewrite concat_cons in Hs. apply ksorted_app in Hs as (_ & Hs & _). constructor; [by apply IH|].
  destruct (last_key_in b Hb) as (e & He & <-). clear IH.
  assert (Hlt' : ∀ e', e' ∈ concat bs → klt e.1 e'.1) by auto. clear Hlt Hs Hb He.
  generalize (off + sz (sealed b)). induction Hne as [|b' bs Hb' Hne IH]; intros off'; simpl; constructor.
  - simpl. destruct (last_key_in b' Hb') as (e' & He' & <-). apply Hlt'. rewrite concat_cons.
    apply elem_of_app. by left.
  - apply IH. intros e' He'. apply Hlt'. rewrite concat_cons. apply elem_of_app. by right.
Qed.

Lemma index_from_Forall (P : bytes → Prop) off bs :
  Forall (λ b, P (last_key b)) bs → Forall (λ e, P (ie_key e)) (index_from off bs).
Proof.
  intros Hall. revert off. induction Hall as [|b bs Hb Hall IH]; intros off; simpl; by constructor.
Qed.

Lemma blocks_split bs key : ksorted (concat bs) → Forall (λ b, b ≠ []) bs → ∃ bs1 bs2,
  bs = bs1 ++ bs2 ∧ Forall (λ b, klt (last_key b) key) bs1 ∧ Forall (λ b, kle key (last_key b)) bs2.
Proof.
  intros Hs Hne. destruct (lower_bound_sorted ie_key (index_from 0 bs) key) as (i1 & i2 & Ei & _ & H1 & H2);
    [by apply index_from_sorted|].
  exists (take (length i1) bs), (drop (length i1) bs). split; [by rewrite take_drop|].
  assert (Hrev : ∀ (P : bytes → Prop) off cs, Forall (λ e, P (ie_key e)) (index_from off cs) →
    Forall (λ b, P (last_key b)) cs).
  { intros P off cs. revert off. induction cs as [|c cs IH]; intros off; simpl; [done|].
    rewrite !Forall_cons. intros [??]. eauto. }
  rewrite <-(take_drop (length i1) bs), index_from_app in Ei.
  assert (length i1 ≤ length bs)%nat.
  { rewrite <-(length_index_from 0 bs), <-(take_drop (length i1) bs), index_from_app, Ei, length_app. lia. }
  apply app_inj_1 in Ei as [E1 E2]; [|rewrite length_index_from, length_take; lia].
  rewrite <-E1 in H1. rewrite <-E2 in H2. split; [exact (Hrev (λ k, klt k key) _ _ H1)|exact (Hrev (λ k, kle key k) _ _ H2)].
Qed.

(** Where the binary search over the index lands. *)
Lemma index_position bs key : ksorted (concat bs) → Forall (λ b, b ≠ []) bs → ∃ bs1 bs2, bs = bs1 ++ bs2 ∧
  lower_bound (λ e, ltb (ie_key e) key) (index_from 0 bs) = length bs1 ∧
  Forall (λ e, klt e.1 key) (concat bs1) ∧ Forall (λ b, kle key (last_key b)) bs2.
Proof.
  intros Hs Hne. destruct (blocks_split bs key Hs Hne) as (bs1 & bs2 & -> & H1 & H2). exists bs1, bs2.
  rewrite index_from_app, lower_bound_partition, length_index_from.
  2: { apply (index_from_Forall (λ k, ltb k key = true)). done. }
  2: { apply (index_from_Forall (λ k, ltb k key = false)). done. }
  split_and!; try done. apply Forall_forall. intros e (b & Hb & He)%elem_of_concat.
  rewrite Forall_forall in H1. specialize (H1 b Hb).
  apply list_elem_of_split in Hb as (l1 & l2 & ->). rewrite <-app_assoc in Hs.
  apply ksorted_block in Hs as (Hs & _). pose proof (ksorted_last_key b e Hs He). korder.
Qed.

(** The binary search over the index finds the only block that can hold a key. *)
Lemma index_search bs key : ksorted (concat bs) → Forall (λ b, b ≠ []) bs →
  let i := lower_bound (λ e, ltb (ie_key e) key) (index_from 0 bs) in
  (i = length bs ∧ as_map (concat bs) !! key = None) ∨
  ∃ bs1 b bs2, bs = bs1 ++ b :: bs2 ∧ i = length bs1 ∧
    as_map (concat bs) !! key = as_map b !! key.
Proof.
  intros Hs Hne. cbv zeta. destruct (index_position bs key Hs Hne) as (bs1 & bs2 & -> & -> & H1 & H2).
  assert (Hlow : as_map (concat bs1) !! key = None) by (by apply as_map_none_gt).
  rewrite concat_app, as_map_app, lookup_union_r by done. destruct bs2 as [|b bs2].
  - left. by rewrite app_nil_r.
  - right. exists bs1, b, bs2. split_and!; [done|done|].
    rewrite concat_cons, as_map_app. apply lookup_union_l, as_map_none_lt, Forall_forall.
    intros e He. apply ksorted_block in Hs as (_ & _ & Hlt). apply Forall_cons in H2 as [H2 _].
    apply Forall_app in Hne as [_ [Hb _]%Forall_cons]. destruct (last_key_in b Hb) as (e' & He' & E).
    specialize (Hlt e' e He' He). korder.
Qed.

(** The binary search inside a block finds a key that is there, and no other. *)
Lemma block_search b key : ksorted b →
  let hit := (block_entry <$> b) !! lower_bound (λ e, ltb (be_key e) key) (block_entry <$> b) in
  match as_map b !! key with
  | Some e => hit = Some (block_entry (key, e))
  | None => match hit with None => True | Some h => be_key h ≠ key end
  end.
Proof.
  intros Hs. cbv zeta.
  destruct (lower_bound_sorted fst b key Hs) as (b1 & b2 & -> & _ & H1 & H2).
  rewrite fmap_app, lower_bound_partition.
  2: { apply Forall_fmap. done. }
  2: { apply Forall_fmap. done. }
  rewrite lookup_app_r, Nat.sub_diag, as_map_app, lookup_union_r by (done || by apply as_map_none_gt).
  destruct b2 as [|[k e] b2]; [done|]. apply Forall_cons in H2 as [H2 _]. simpl in H2.
  apply ksorted_app in Hs as (_ & [Hb2 _]%ksorted_cons & _). rewrite as_map_cons. csimpl.
  destruct (decide (key = k)) as [->|Hne]; [by rewrite lookup_insert_eq|].
  rewrite lookup_insert_ne, as_map_none_lt; [done| |done].
  eapply Forall_impl; [exact Hb2|]. intros x Hx. simpl in Hx. korder.
Qed.

(** ** Every field of a table fits *)

Lemma last_key_fits b : block_fits b → 0 < sz (last_key b) ≤ UINT32_MAX.
Proof.
  intros (Hne & Hfit & _). destruct (last_key_in b Hne) as (e & He & <-).
  rewrite Forall_forall in Hfit. by apply Hfit, entry_fits_sizes in He as (? & _).
Qed.

Lemma index_from_fits off bs : Forall block_fits bs → 0 ≤ off → off + sz (data_region bs) ≤ UINT64_MAX →
  Forall index_fits (index_from off bs).
Proof.
  intros Hb. revert off. induction Hb as [|b bs Hb Hbs IH]; intros off Ho Hle; simpl; [constructor|].
  rewrite data_region_cons, sz_app in Hle. pose proof (sz_nonneg (sealed b)). pose proof (sz_nonneg (data_region bs)).
  constructor; [|apply IH; lia]. split_and!; cbn.
  - by apply last_key_fits.
  - by apply last_key_fits.
  - done.
  - lia.
  - done.
  - by destruct Hb as (_ & _ & ?).
Qed.

Lemma index_from_ok off bs : Forall block_fits bs → ksorted (concat bs) → 0 ≤ off →
  index_ok (off + sz (data_region bs)) (index_from off bs).
Proof.
  intros Hb Hs Ho. split; [|apply index_from_sorted; [done|by eapply Forall_impl; [exact Hb|]; intros b [? _]]].
  clear Hs. revert off Ho. induction Hb as [|b bs Hb Hbs IH]; intros off Ho; simpl; [constructor|].
  rewrite data_region_cons, sz_app. pose proof (sz_nonneg (sealed b)). pose proof (sz_nonneg (data_region bs)).
  constructor; cbn.
  - pose proof (sz_sealed b). pose proof (sz_nonneg (enc_block b)). destruct Hb as (_ & _ & ?).
    unfold kBlockTrailerSize. lia.
  - rewrite Z.add_assoc. apply IH. lia.
Qed.

Lemma sz_finish bb : 0 < sz (BloomOps.finish bb) ≤ UINT32_MAX.
Proof.
  rewrite BloomOps.finish_eq, !sz_app, sz_le32, BloomOps.sz_header, BloomOps.sz_bit_array.
  destruct (BloomOps.bit_count_range bb) as [Hr _].
  unfold bloom.kMinBits, bloom.kMaxBits, bloom.kHeaderSize, UINT32_MAX in *.
  assert (0 ≤ BloomOps.bit_count bb / 8) by (apply Z.div_pos; lia).
  assert (BloomOps.bit_count bb / 8 ≤ 4294967288 / 8) by (apply Z.div_le_mono; lia).
  change (4294967288 / 8) with 536870911 in *. lia.
Qed.

Lemma sz_concat_le bs : Forall block_fits bs → sz (concat bs) ≤ sz (data_region bs).
Proof.
  induction 1 as [|b bs (_ & Hfit & _) Hbs IH]; [done|]. rewrite concat_cons, data_region_cons, !sz_app, sz_sealed.
  pose proof (length_enc_block b Hfit). unfold sz in *. lia.
Qed.

Lemma table_bytes_sizes bits bs :
  sz (table_bytes bits bs) = sz (data_region bs) + sz (filter_block bits (concat bs)) + sz (index_block bs) + 44.
Proof. unfold table_bytes. rewrite !sz_app, sz_encode_table_footer. unfold kFooterSize. lia. Qed.

Lemma table_footer_ok bits bs : wf_blocks bits bs → footer_ok (table_footer bits bs).
Proof.
  intros [_ Hb Hi Hsz]. rewrite table_bytes_sizes in Hsz. pose proof (sz_concat_le bs Hb).
  pose proof (sz_finish (filter_builder bits (concat bs))) as Hf. fold (filter_block bits (concat bs)) in Hf.
  pose proof (sz_nonneg (data_region bs)). pose proof (sz_nonneg (index_block bs)).
  pose proof (sz_nonneg (concat bs)).
  unfold footer_ok, table_footer, INT64_MAX, UINT64_MAX in *. cbn. lia.
Qed.

End Layout.
