(* ===== verification/LsmStats.v ===== *)
(** The counters of the LSM engine: [include/kvstore/lsm_stats.hpp].

    Each is an atomic 64-bit counter that wraps around. *)

From S2P Require Import Prelude.

(** The members of [LsmStats]. *)
Inductive counter : Type :=
| gets | tables_probed | block_reads | bloom_checks | bloom_rejects | bytes_written | flushes
| wal_records_replayed | compactions | compaction_bytes_read | compaction_bytes_written
| tables_obsoleted.

#[export] Instance counter_eq_dec : EqDecision counter.
Proof. solve_decision. Defined.

Definition LsmStats : Type := counter → Z.

Definition zero_stats : LsmStats := λ _, 0.

(** [LsmStats::bump]. *)
Definition bump (c : counter) (by_ : Z) (s : LsmStats) : LsmStats :=
  λ c', if decide (c' = c) then u64 (s c' + by_) else s c'.

(** [LsmStats::reset]. *)
Definition reset (s : LsmStats) : LsmStats := λ _, 0.

(** [bumped c n s s']: counter [c] has moved on by [n]. *)
Definition bumped (c : counter) (n : Z) (s s' : LsmStats) : Prop := s' c = u64 (s c + n).

Lemma bumped_bump c n s : bumped c n s (bump c n s).
Proof. unfold bumped, bump. by rewrite decide_True. Qed.

Lemma bump_other c c' n s : c' ≠ c → bump c n s c' = s c'.
Proof. intros. unfold bump. by rewrite decide_False. Qed.

Lemma bumped_trans c n m s1 s2 s3 : bumped c n s1 s2 → bumped c m s2 s3 → bumped c (n + m) s1 s3.
Proof.
  unfold bumped, u64. intros -> ->. rewrite Z.add_mod_idemp_l by lia. f_equal. lia.
Qed.
