(* ===== verification/SSTable.v ===== *)
(** Sorted tables: [SSTableBuilder] and [SSTable] of [include/kvstore/sstable.hpp]
    and [src/sstable.cpp].

    The counters behind [stats_]
    are the state of the methods that bump them. *)

From S2P Require Import Prelude Status World Wp Encoding Record FileNames LogFile MappedFile Bloom Memtable SSTableFormat LsmStats.
Import sstable.

(** * Writing *)

Record SSTableBuilder : Type := mkBuilder {
  b_file : LogFile;
  b_block_size : Z;
  b_filter : BloomBuilder;
  b_block : bytes;
  b_block_last_key : bytes;
  b_last_key : bytes;
  b_has_last_key : bool;
  b_index : list IndexEntry;
  b_entries : Z;
  b_finished : bool;
}.

Module BuilderOps.
Section BuilderOps.
Context `{Platform}.

Definition set_file (l : LogFile) (b : SSTableBuilder) : SSTableBuilder :=
  mkBuilder l (b_block_size b) (b_filter b) (b_block b) (b_block_last_key b) (b_last_key b)
    (b_has_last_key b) (b_index b) (b_entries b) (b_finished b).
Definition set_block (block last : bytes) (b : SSTableBuilder) : SSTableBuilder :=
  mkBuilder (b_file b) (b_block_size b) (b_filter b) block last (b_last_key b)
    (b_has_last_key b) (b_index b) (b_entries b) (b_finished b).
Definition push_index (e : IndexEntry) (b : SSTableBuilder) : SSTableBuilder :=
  mkBuilder (b_file b) (b_block_size b) (b_filter b) (b_block b) (b_block_last_key b) (b_last_key b)
    (b_has_last_key b) (b_index b ++ [e]) (b_entries b) (b_finished b).
Definition set_finished (b : SSTableBuilder) : SSTableBuilder :=
  mkBuilder (b_file b) (b_block_size b) (b_filter b) (b_block b) (b_block_last_key b) (b_last_key b)
    (b_has_last_key b) (b_index b) (b_entries b) true.

Definition on_file {A : Type} (m : M LogFile A) : M SSTableBuilder A := zoom b_file set_file m.

(** [SSTableBuilder::create]. *)
Definition create {S : Type} (temp_path : bytes) (block_size bits_per_key : Z) : M S SSTableBuilder :=
  if block_size =? 0 then fail (invalid_argument (lit "block size must not be zero"))
  else
    _ ← platform.remove temp_path;
    file ← LogFileOps.open temp_path Never;
    mret (mkBuilder file block_size (BloomOps.new_builder bits_per_key) [] [] [] false [] 0 false).

(** [SSTableBuilder::flush_block]. *)
Definition flush_block : M SSTableBuilder unit :=
  b ← get;
  match b_block b with
  | [] => mret tt
  | _ =>
      fail_when (UINT32_MAX <? sz (b_block b) + kBlockTrailerSize)
        (invalid_argument (lit "sstable block exceeds the maximum block size"));;
      let block := append_u32 (b_block b) (record.crc32_of (b_block b)) in
      modify (set_block block (b_block_last_key b));;
      offset ← on_file (LogFileOps.append block);
      modify (push_index (mkIndexEntry (b_block_last_key b) offset (u32 (sz block))));;
      modify (set_block [] [])
  end.

(** The members [SSTableBuilder::add] changes before it may cut the block. *)
Definition add_entry (key stored : bytes) (tombstone : bool) (b : SSTableBuilder) : SSTableBuilder :=
  let block := append_u32 (b_block b) (u32 (sz key)) in
  let block := append_u32 block (u32 (sz stored)) in
  let block := block ++ [byte.of_Z (if tombstone then kFlagTombstone else 0)] in
  let block := append_bytes block key in
  let block := append_bytes block stored in
  mkBuilder (b_file b) (b_block_size b) (BloomOps.add key (b_filter b)) block key key true
    (b_index b) (u64 (b_entries b + 1)) (b_finished b).

(** [SSTableBuilder::add]. *)
Definition add (key value : bytes) (tombstone : bool) : M SSTableBuilder unit :=
  b ← get;
  fail_when (b_finished b) (invalid_argument (lit "add() after finish()"));;
  fail_when (sz key =? 0) (invalid_argument (lit "key must not be empty"));;
  fail_when (b_has_last_key b && leb key (b_last_key b))
    (invalid_argument (lit "sstable keys must be added in strictly increasing order"));;
  let stored := if tombstone then [] else value in
  let entry_size := u64 (kEntryHeaderSize + sz key + sz stored) in
  fail_when (record.kMaxRecordSize <? entry_size)
    (invalid_argument (lit "entry exceeds the maximum record size"));;
  modify (add_entry key stored tombstone);;
  b ← get;
  if b_block_size b <=? sz (b_block b) then flush_block else mret tt.

(** [SSTableBuilder::finish]. *)
Definition finish : M SSTableBuilder unit :=
  b ← get;
  fail_when (b_finished b) (invalid_argument (lit "finish() called twice"));;
  flush_block;;
  b ← get;
  let filter_bytes := BloomOps.finish (b_filter b) in
  fail_when (UINT32_MAX <? sz filter_bytes)
    (invalid_argument (lit "sstable filter exceeds the maximum filter size"));;
  filter_offset ← on_file (LogFileOps.append filter_bytes);
  let index_bytes := encode_index (b_index b) in
  let index_bytes := append_u32 index_bytes (record.crc32_of index_bytes) in
  fail_when (UINT32_MAX <? sz index_bytes)
    (invalid_argument (lit "sstable index exceeds the maximum index size"));;
  index_offset ← on_file (LogFileOps.append index_bytes);
  let footer := mkFooter index_offset (u32 (sz index_bytes)) filter_offset (u32 (sz filter_bytes))
                  (b_entries b) kFormatVersion in
  _ ← on_file (LogFileOps.append (encode_footer footer));
  on_file LogFileOps.sync;;
  on_file LogFileOps.close;;
  modify set_finished.

(** [SSTableBuilder::entry_count], [SSTableBuilder::file_size], [SSTableBuilder::path]. *)
Definition entry_count (b : SSTableBuilder) : Z := b_entries b.
Definition file_size (b : SSTableBuilder) : Z := end_offset_ (b_file b).
Definition path (b : SSTableBuilder) : bytes := lf_path (b_file b).

End BuilderOps.
End BuilderOps.

(** * Reading *)

Inductive ReadMode : Type := Pread | Mmap.

(** [enum class Lookup], with the value [lookup] assigns when it finds one. *)
Inductive Lookup : Type := NotPresent | Found (value : bytes) | Deleted.

(** [class BlockData]: bytes the object owns, or a view into the mapping. *)
Record BlockData : Type := mkBlockData { bd_bytes : bytes; bd_owns : bool }.
Definition owning (bs : bytes) : BlockData := mkBlockData bs true.
Definition borrowed (bs : bytes) : BlockData := mkBlockData bs false.

(** [BlockData::trim]. *)
Definition trim (size : Z) (d : BlockData) : BlockData :=
  if size <? sz (bd_bytes d) then mkBlockData (slice (bd_bytes d) 0 size) (bd_owns d) else d.

Record SSTable : Type := mkSSTable {
  t_file : LogFile;
  t_path : bytes;
  t_mapping : option MappedFile;
  t_id : Z;
  t_stats : bool;          (* stats_ != nullptr *)
  t_read_mode : ReadMode;
  t_bloom_enabled : bool;
  t_footer : Footer;
  t_index : list IndexEntry;
  t_filter : option BloomFilter;
  t_file_size : Z;
  t_min_key : bytes;
  t_max_key : bytes;
}.

Module SSTableOps.
Section SSTableOps.
Context `{Platform}.

Definition set_file (l : LogFile) (t : SSTable) : SSTable :=
  mkSSTable l (t_path t) (t_mapping t) (t_id t) (t_stats t) (t_read_mode t) (t_bloom_enabled t)
    (t_footer t) (t_index t) (t_filter t) (t_file_size t) (t_min_key t) (t_max_key t).
Definition set_mapping (m : option MappedFile) (t : SSTable) : SSTable :=
  mkSSTable (t_file t) (t_path t) m (t_id t) (t_stats t) (t_read_mode t) (t_bloom_enabled t)
    (t_footer t) (t_index t) (t_filter t) (t_file_size t) (t_min_key t) (t_max_key t).
Definition set_footer (f : Footer) (t : SSTable) : SSTable :=
  mkSSTable (t_file t) (t_path t) (t_mapping t) (t_id t) (t_stats t) (t_read_mode t) (t_bloom_enabled t)
    f (t_index t) (t_filter t) (t_file_size t) (t_min_key t) (t_max_key t).
Definition set_index (i : list IndexEntry) (t : SSTable) : SSTable :=
  mkSSTable (t_file t) (t_path t) (t_mapping t) (t_id t) (t_stats t) (t_read_mode t) (t_bloom_enabled t)
    (t_footer t) i (t_filter t) (t_file_size t) (t_min_key t) (t_max_key t).
Definition set_filter (f : option BloomFilter) (t : SSTable) : SSTable :=
  mkSSTable (t_file t) (t_path t) (t_mapping t) (t_id t) (t_stats t) (t_read_mode t) (t_bloom_enabled t)
    (t_footer t) (t_index t) f (t_file_size t) (t_min_key t) (t_max_key t).
Definition set_file_size (n : Z) (t : SSTable) : SSTable :=
  mkSSTable (t_file t) (t_path t) (t_mapping t) (t_id t) (t_stats t) (t_read_mode t) (t_bloom_enabled t)
    (t_footer t) (t_index t) (t_filter t) n (t_min_key t) (t_max_key t).
Definition set_min_key (k : bytes) (t : SSTable) : SSTable :=
  mkSSTable (t_file t) (t_path t) (t_mapping t) (t_id t) (t_stats t) (t_read_mode t) (t_bloom_enabled t)
    (t_footer t) (t_index t) (t_filter t) (t_file_size t) k (t_max_key t).
Definition set_max_key (k : bytes) (t : SSTable) : SSTable :=
  mkSSTable (t_file t) (t_path t) (t_mapping t) (t_id t) (t_stats t) (t_read_mode t) (t_bloom_enabled t)
    (t_footer t) (t_index t) (t_filter t) (t_file_size t) (t_min_key t) k.

(** [SSTable::read_at]. *)
Definition read_at {S : Type} (t : SSTable) (offset size : Z) : M S BlockData :=
  match t_mapping t with
  | Some m =>
      let all := MappedFileOps.bytes_of m in
      if (sz all <? offset) || (sz all - offset <? size)
      then fail (corruption (lit "sstable read runs past the end of the mapping: " ++ t_path t))
      else mret (borrowed (slice all offset size))
  | None =>
      r ← with_local (t_file t) (LogFileOps.read_at offset size);
      mret (owning r.1)
  end.

(** [SSTable::read_block_raw]. *)
Definition read_block_raw {S : Type} (t : SSTable) (block_index : nat) : M S BlockData :=
  match t_index t !! block_index with
  | None => fail (invalid_argument (lit "sstable block index out of range"))
  | Some entry =>
      block ← read_at t (ie_block_offset entry) (ie_block_size entry);
      let raw := bd_bytes block in
      let payload_size := sz raw - kBlockTrailerSize in
      crc ← liftR (encoding.get_u32 raw payload_size);
      fail_when (negb (crc =? record.crc32_of (slice raw 0 payload_size)))
        (corruption (lit "sstable data block fails its crc: " ++ t_path t));;
      mret (trim payload_size block)
  end.

(** [SSTable::read_block]. *)
Definition read_block (t : SSTable) (block_index : nat) : M LsmStats BlockData :=
  (if t_stats t then modify (bump block_reads 1) else mret tt);;
  read_block_raw t block_index.

(** [SSTable::map_file]. *)
Definition map_file : M SSTable unit :=
  t ← get;
  mapped ← MappedFileOps.open (t_path t);
  modify (set_mapping (Some mapped));;
  _ ← attempt (with_local mapped MappedFileOps.advise_random);
  zoom t_file set_file LogFileOps.close.

(** [SSTable::load_filter]. *)
Definition load_filter : M SSTable unit :=
  t ← get;
  if ft_filter_size (t_footer t) =? 0 then mret tt
  else
    bs ← read_at t (ft_filter_offset (t_footer t)) (ft_filter_size (t_footer t));
    filter ← liftR (BloomOps.decode (bd_bytes bs));
    modify (set_filter (Some filter)).

(** [SSTable::load], from the index on. *)
Definition load_keys : M SSTable unit :=
  t ← get;
  match last (t_index t) with
  | None =>
      fail_when (negb (ft_entry_count (t_footer t) =? 0))
        (corruption (lit "sstable declares entries but its index names no blocks"))
  | Some back =>
      modify (set_max_key (ie_key back));;
      block ← read_block_raw t 0;
      entries ← liftR (parse_block (bd_bytes block));
      match entries with
      | [] => fail (corruption (lit "sstable first data block is empty"))
      | front :: _ => modify (set_min_key (be_key front))
      end
  end.

(** [SSTable::load], the index block. *)
Definition load_index_block : M SSTable unit :=
  t ← get;
  let metadata_start := t_file_size t - kFooterSize in
  let footer := t_footer t in
  fail_when ((metadata_start <? ft_index_offset footer) ||
             (metadata_start - ft_index_offset footer <? ft_index_size footer))
    (corruption (lit "sstable index block runs past the end of the file"));;
  fail_when ((metadata_start <? ft_filter_offset footer) ||
             (metadata_start - ft_filter_offset footer <? ft_filter_size footer))
    (corruption (lit "sstable filter block runs past the end of the file"));;
  fail_when (ft_index_size footer <? kIndexHeaderSize + kBlockTrailerSize)
    (corruption (lit "sstable index block is too small to be one"));;
  index_bytes ← read_at t (ft_index_offset footer) (ft_index_size footer);
  let raw := bd_bytes index_bytes in
  let payload_size := sz raw - kBlockTrailerSize in
  crc ← liftR (encoding.get_u32 raw payload_size);
  fail_when (negb (crc =? record.crc32_of (slice raw 0 payload_size)))
    (corruption (lit "sstable index block fails its crc: " ++ t_path t));;
  index_ ← liftR (load_index (ft_filter_offset footer) (slice raw 0 payload_size));
  modify (set_index index_).

(** [SSTable::load], up to the mapping. *)
Definition load_start : M SSTable unit :=
  modify (λ t, set_file_size (end_offset_ (t_file t)) t);;
  t ← get;
  fail_when (t_file_size t <? kFooterSize)
    (corruption (lit "sstable is too small to hold a footer: " ++ t_path t));;
  match t_read_mode t with Mmap => map_file | Pread => mret tt end.

(** [SSTable::load]. *)
Definition load : M SSTable unit :=
  load_start;;
  t ← get;
  footer_bytes ← read_at t (t_file_size t - kFooterSize) kFooterSize;
  footer ← liftR (decode_footer (bd_bytes footer_bytes));
  modify (set_footer footer);;
  load_index_block;;
  load_filter;;
  load_keys.

Definition no_footer : Footer := mkFooter 0 0 0 0 0 kFormatVersion.

(** [SSTable::open]. *)
Definition open {S : Type} (path : bytes) (id : Z) (stats : bool) (mode : ReadMode)
    (bloom_enabled : bool) : M S SSTable :=
  present ← platform.exists_ path;
  if negb present then fail (io_error (lit "no such sstable: " ++ path))
  else
    file ← LogFileOps.open path Never;
    r ← with_local (mkSSTable file path None id stats mode bloom_enabled no_footer [] None 0 [] []) load;
    mret r.2.

(** [SSTable::close]. *)
Definition close : M SSTable unit :=
  t ← get;
  result ← match t_mapping t with
           | None => mret (inl tt)
           | Some m =>
               r ← attempt (with_local m MappedFileOps.close);
               modify (set_mapping None);;
               mret (match r with inl _ => inl tt | inr e => inr e end)
           end;
  closed ← attempt (zoom t_file set_file LogFileOps.close);
  match result with
  | inl _ => match closed with inl _ => mret tt | inr e => fail e end
  | inr e => fail e
  end.

(** [SSTable::~SSTable]; its failures are ignored. *)
Definition destroy {S : Type} (obsolete : bool) (t : SSTable) : M S unit :=
  (match t_mapping t with
   | Some m => _ ← attempt (with_local m MappedFileOps.close); mret tt
   | None => mret tt
   end);;
  _ ← attempt (with_local (t_file t) LogFileOps.close);
  if obsolete then _ ← platform.remove (t_path t); mret tt else mret tt.

(** The filter probe of [SSTable::lookup]: false when the key is certainly absent. *)
Definition probe_filter (t : SSTable) (key : bytes) : M LsmStats bool :=
  match t_filter t with
  | Some filter =>
      if t_bloom_enabled t then
        (if t_stats t then modify (bump bloom_checks 1) else mret tt);;
        maybe ← liftR (BloomOps.maybe_contains key filter);
        (if negb maybe then
           (if t_stats t then modify (bump bloom_rejects 1) else mret tt)
         else mret tt);;
        mret maybe
      else mret true
  | None => mret true
  end.

(** [SSTable::lookup]. *)
Definition lookup (t : SSTable) (key : bytes) : M LsmStats Lookup :=
  match t_index t with
  | [] => mret NotPresent
  | _ =>
      if ltb key (t_min_key t) || ltb (t_max_key t) key then mret NotPresent
      else
        maybe ← probe_filter t key;
        if negb maybe then mret NotPresent
        else
          let it := lower_bound (λ entry, ltb (ie_key entry) key) (t_index t) in
          if (length (t_index t) <=? it)%nat then mret NotPresent
          else
            block ← read_block t it;
            entries ← liftR (parse_block (bd_bytes block));
            match entries !! lower_bound (λ entry, ltb (be_key entry) key) entries with
            | None => mret NotPresent
            | Some hit =>
                if negb (key_eqb (be_key hit) key) then mret NotPresent
                else if be_tombstone hit then mret Deleted
                else mret (Found (be_value hit))
            end
  end.

End SSTableOps.
End SSTableOps.
