(* ===== verification/SSTableBuild.v ===== *)
(** Building sorted tables: adding entries in key order and finishing writes, under
    the temporary name and nowhere else, exactly the file that stores those entries. *)

From S2P Require Import Prelude Status World Wp Encoding Record LogFile Bloom SortedMap Memtable SSTableFormat SSTableLayout SSTable.
Import sstable.

Section Build.
Context `{Platform}.

(** The bytes a list of entries can take in the data region. *)
Definition weight (es : list entry) : Z := foldr (λ e n, sz (enc_entry e) + 4 + n) 0 es.

Lemma weight_app es1 es2 : weight (es1 ++ es2) = weight es1 + weight es2.
Proof. induction es1 as [|e es1 IH]; simpl; [done|]. fold (weight (es1 ++ es2)) (weight es1). lia. Qed.

Lemma weight_nonneg es : 0 ≤ weight es.
Proof.
  induction es as [|e es IH]; simpl; [done|]. fold (weight es). pose proof (sz_nonneg (enc_entry e)). lia.
Qed.

Lemma enc_block_weight es : sz (enc_block es) + 4 * sz es = weight es.
Proof.
  induction es as [|e es IH]; [done|]. rewrite enc_block_cons, sz_app, sz_cons. simpl. fold (weight es). lia.
Qed.

Lemma data_region_weight bs : Forall (λ b, b ≠ []) bs → sz (data_region bs) ≤ weight (concat bs).
Proof.
  induction 1 as [|b bs Hb Hbs IH]; [done|]. rewrite data_region_cons, concat_cons, weight_app, sz_app, sz_sealed.
  pose proof (enc_block_weight b). destruct b; [done|]. rewrite sz_cons in *. pose proof (sz_nonneg b). lia.
Qed.

(** More than any database holds. *)
Definition kWeightLimit : Z := 4611686018427387904.

Record building (path : bytes) (bits : Z) (b : SSTableBuilder) (w : World)
    (bs : list (list entry)) (cur : list entry) : Prop := {
  bd_file : ∃ f, LogFileOps.holds (b_file b) w f (data_region bs) [];
  bd_path : lf_path (b_file b) = path;
  bd_filter : b_filter b = filter_builder bits (concat bs ++ cur);
  bd_block : b_block b = enc_block cur;
  bd_block_last : b_block_last_key b = last_key cur;
  bd_has_last : b_has_last_key b = negb (sz (concat bs ++ cur) =? 0);
  bd_last : b_last_key b = last_key (concat bs ++ cur);
  bd_index : b_index b = index_from 0 bs;
  bd_entries : b_entries b = sz (concat bs ++ cur);
  bd_finished : b_finished b = false;
  bd_sorted : ksorted (concat bs ++ cur);
  bd_blocks : Forall block_fits bs;
  bd_cur : Forall entry_fits cur;
  bd_weight : weight (concat bs ++ cur) ≤ kWeightLimit;
}.

(** Too large for the format, or a failed call. *)
Definition build_error (w : World) (e : Status) : Prop :=
  code_ e = InvalidArgument ∨ ¬ reliable w ∧ code_ e = IOError.

Lemma nonempty_blocks bs : Forall block_fits bs → Forall (λ b, b ≠ []) bs.
Proof. intros Hb. eapply Forall_impl; [exact Hb|]. by intros b [? _]. Qed.

(** Appending to the file under construction. *)
Lemma wp_builder_append {A} b w f d bs (k : Z → M SSTableBuilder A) Q E D :
  LogFileOps.holds (b_file b) w f d [] → sz d + sz bs ≤ UINT64_MAX →
  (∀ w', calm w w' → touched (lf_path (b_file b)) w w' →
     (∃ f', LogFileOps.holds (LogFileOps.set_end (sz d + sz bs) (b_file b)) w' f' (d ++ bs) []) →
     wp (k (sz d)) (BuilderOps.set_file (LogFileOps.set_end (sz d + sz bs) (b_file b)) b) w' Q E D) →
  (∀ e b' w', touched (lf_path (b_file b)) w w' → ¬ reliable w → code_ e = IOError → E e b' w') →
  (∀ w', touched (lf_path (b_file b)) w w' → D w') →
  wp (BuilderOps.on_file (LogFileOps.append bs) ≫= k) b w Q E D.
Proof.
  intros Hh Hmax Hk He Hd. unfold BuilderOps.on_file.
  eapply wp_bind_zoom; [by eapply (LogFileOps.wp_append (b_file b) w f d [] bs)|..]; cbn beta.
  - intros off l w1 Hc (-> & -> & f' & [Hfs _] & (_ & Hd' & _) & _). apply Hk; [done|by eapply touched_insert|].
    rewrite firstn_all, drop_nil, app_nil_r in Hd'. destruct Hh as (Ho & _ & _ & _).
    exists f'. split_and!; [done|by rewrite Hfs, lookup_insert_eq|by rewrite app_nil_r|by rewrite sz_app].
  - intros e l w1 _ (Hq & Hcode & f' & j & [Hfs _] & _). apply He; [by eapply touched_insert|done|done].
  - intros w1 _ (f' & j & [Hfs _] & _). apply Hd. by eapply touched_insert.
Qed.

Lemma wp_flush_block path bits b w bs cur : building path bits b w bs cur → cur ≠ [] →
  wp BuilderOps.flush_block b w
    (λ _ b' w', touched path w w' ∧ building path bits b' w' (bs ++ [cur]) [])
    (λ e _ w', touched path w w' ∧ build_error w e)
    (touched path w).
Proof.
  intros Hb Hne. destruct Hb as [[f Hh] Hp Hfl Hbl Hbll Hhl Hl Hi He Hfin Hs Hbs Hcur Hw].
  assert (Hsz : 0 < sz (enc_block cur)).
  { destruct cur as [|e cur]; [done|]. apply Forall_cons in Hcur as [(? & ? & Hsz)%entry_fits_sizes _].
    rewrite enc_block_cons, sz_app, Hsz. unfold kEntryHeaderSize. pose proof (sz_nonneg (enc_block cur)). lia. }
  unfold BuilderOps.flush_block. wp_pure. rewrite Hbl. destruct (enc_block cur) as [|x rest] eqn:Eblk; [done|].
  rewrite <-Eblk in *. clear x rest Eblk.
  apply wp_bind_fail_when; [by intros _; split; [|by left]|]. intros Hcap. arith_hyps.
  unfold kBlockTrailerSize in Hcap. wp_pure. cbv zeta. rewrite append_u32_eq. fold (sealed cur).
  pose proof (sz_sealed cur) as Hss. pose proof (data_region_weight bs (nonempty_blocks bs Hbs)) as Hdw.
  pose proof (enc_block_weight cur) as Hcw. pose proof (sz_nonneg cur) as Hn0. rewrite weight_app in Hw.
  assert (Hn : 1 ≤ sz cur) by (destruct cur; [done|]; rewrite sz_cons; pose proof (sz_nonneg cur); lia).
  unfold kWeightLimit in Hw.
  eapply (wp_builder_append _ w f); [exact Hh|unfold UINT64_MAX; lia|..]; cbn [BuilderOps.set_block b_file]; rewrite Hp.
  - intros w1 Hc Ht [f' Hh']. wp_pure. apply wp_modify. split; [done|].
    rewrite u32_id by lia.
    split; cbn; rewrite ?Hi, ?Hbll, ?concat_app, ?app_nil_r, ?data_region_app, ?index_from_app; cbn; rewrite ?app_nil_r; try done.
    + by exists f'.
    + apply Forall_app. split; [done|]. apply Forall_singleton. split_and!; [done|done|lia].
    + rewrite weight_app. unfold kWeightLimit. lia.
  - intros e b' w1 Ht Hq Hcode. split; [done|]. by right.
  - done.
Qed.

(** The entry [add] stores. *)
Definition stored_entry (key value : bytes) (tombstone : bool) : entry :=
  (key, mkMemEntry (if tombstone then [] else value) tombstone).

Lemma add_entry_block b key value (tomb : bool) :
  b_block (BuilderOps.add_entry key (if tomb then [] else value) tomb b) =
    b_block b ++ enc_entry (stored_entry key value tomb).
Proof.
  unfold BuilderOps.add_entry. cbn. unfold append_bytes. rewrite !append_u32_eq, !le32_u32.
  unfold enc_entry, stored. cbn. destruct tomb; by rewrite <-!app_assoc.
Qed.

Lemma last_key_app es e : last_key (es ++ [e]) = e.1.
Proof. unfold last_key. by rewrite last_snoc. Qed.

Lemma ksorted_snoc (es : list entry) e : ksorted es → (∀ x, x ∈ es → klt x.1 e.1) → ksorted (es ++ [e]).
Proof.
  intros Hs Hlt. apply ksorted_app. split_and!; [done|repeat constructor|].
  intros a y Ha ->%list_elem_of_singleton. auto.
Qed.

(** The members after the entry has been appended to the current block. *)
Lemma building_add path bits b w bs cur key value (tomb : bool) : let e := stored_entry key value tomb in
  building path bits b w bs cur → entry_fits e → (∀ x, x ∈ concat bs ++ cur → klt x.1 key) →
  weight (concat bs ++ cur ++ [e]) ≤ kWeightLimit →
  building path bits (BuilderOps.add_entry key (if tomb then [] else value) tomb b) w bs (cur ++ [e]).
Proof.
  intros e [[f Hh] Hp Hfl Hbl Hbll Hhl Hl Hi He Hfin Hs Hbs Hcur Hw] Hfit Hlt Hw'.
  assert (Hn : 0 ≤ sz (concat bs ++ cur) < UINT64_MAX).
  { split; [apply sz_nonneg|]. pose proof (enc_block_weight (concat bs ++ cur)) as Hcw.
    pose proof (sz_nonneg (enc_block (concat bs ++ cur))). unfold kWeightLimit, UINT64_MAX in *. lia. }
  rewrite app_assoc in Hw'. split; cbn; rewrite ?app_assoc; try done.
  - by exists f.
  - rewrite Hfl. unfold filter_builder. rewrite (fmap_app fst (concat bs ++ cur) [e]), foldl_app. done.
  - rewrite enc_block_app, <-Hbl, enc_block_cons, app_nil_r. exact (add_entry_block b key value tomb).
  - by rewrite last_key_app.
  - rewrite (sz_app (concat bs ++ cur)). symmetry. apply negb_true_iff, Z.eqb_neq. change (sz [e]) with 1. lia.
  - by rewrite last_key_app.
  - rewrite He, (sz_app (concat bs ++ cur)). change (sz [e]) with 1. apply u64_id. unfold UINT64_MAX in *. lia.
  - by apply ksorted_snoc.
  - apply Forall_app. split; [done|]. by apply Forall_singleton.
Qed.

Lemma wp_add path bits b w bs cur key value (tomb : bool) : let e := stored_entry key value tomb in
  building path bits b w bs cur → entry_fits e → (∀ x, x ∈ concat bs ++ cur → klt x.1 key) →
  weight (concat bs ++ cur ++ [e]) ≤ kWeightLimit →
  wp (BuilderOps.add key value tomb) b w
    (λ _ b' w', touched path w w' ∧ ∃ bs' cur', building path bits b' w' bs' cur' ∧
       concat bs' ++ cur' = (concat bs ++ cur) ++ [e])
    (λ err _ w', touched path w w' ∧ build_error w err)
    (touched path w).
Proof.
  intros e Hb Hfit Hlt Hw. pose proof (building_add path bits b w bs cur key value tomb Hb Hfit Hlt Hw) as Hb'.
  pose proof (entry_fits_sizes e Hfit) as (Hk & Hv & Hsz). destruct Hfit as [_ Hcap].
  unfold BuilderOps.add. wp_pure. rewrite (bd_finished _ _ _ _ _ _ Hb). cbn [fail_when]. wp_pure.
  cbn in Hk. rewrite (proj2 (Z.eqb_neq _ _)) by lia. cbn [fail_when]. wp_pure.
  apply wp_bind_fail_when.
  { rewrite (bd_has_last _ _ _ _ _ _ Hb), (bd_last _ _ _ _ _ _ Hb). intros [Hne Hle]%andb_true_iff. exfalso.
    destruct (concat bs ++ cur) as [|x l _] using rev_ind; [done|]. rewrite last_key_app in Hle.
    specialize (Hlt x ltac:(apply elem_of_app; right; by apply list_elem_of_singleton)). korder. }
  intros _. cbv zeta.
  assert (Hsz' : kEntryHeaderSize + sz key + sz (if tomb then [] else value) ≤ UINT32_MAX).
  { unfold record.kMaxRecordSize, stored in Hcap. cbn in Hcap. by destruct tomb. }
  rewrite (proj2 (Z.ltb_ge _ _)).
  2: { unfold record.kMaxRecordSize. rewrite u64_id; [done|]. unfold kEntryHeaderSize, UINT64_MAX, UINT32_MAX in *.
       pose proof (sz_nonneg (if tomb then [] else value)). lia. }
  cbn [fail_when]. wp_pure. set (b' := BuilderOps.add_entry _ _ _ _) in *. destruct (b_block_size b' <=? _).
  - eapply wp_mono; [eapply (wp_flush_block path bits b' w bs (cur ++ [e]) Hb'); by destruct cur|..]; cbn beta.
    + intros _ b2 w2 _ (Ht & Hb2). split; [done|]. eexists _, []. split; [exact Hb2|].
      rewrite concat_app. cbn. by rewrite !app_nil_r, app_assoc.
    + done.
    + done.
  - apply wp_ret. split; [done|]. eexists bs, _. split; [exact Hb'|]. by rewrite app_assoc.
Qed.

Lemma wp_maybe_flush path bits b w bs cur : building path bits b w bs cur →
  wp BuilderOps.flush_block b w
    (λ _ b' w', touched path w w' ∧ ∃ bs', building path bits b' w' bs' [] ∧ concat bs' = concat bs ++ cur)
    (λ e _ w', touched path w w' ∧ build_error w e)
    (touched path w).
Proof.
  intros Hb. destruct cur as [|x cur].
  - unfold BuilderOps.flush_block. wp_pure. rewrite (bd_block _ _ _ _ _ _ Hb). apply wp_ret. split; [done|].
    exists bs. by rewrite app_nil_r.
  - eapply wp_mono; [by apply wp_flush_block|..]; cbn beta; [|done|done].
    intros _ b' w' _ [Ht Hb']. split; [done|]. eexists. split; [exact Hb'|].
    rewrite concat_app. cbn. by rewrite app_nil_r.
Qed.

Lemma blocks_wf bits bs : ksorted (concat bs) → Forall block_fits bs → sz (index_block bs) ≤ UINT32_MAX →
  weight (concat bs) ≤ kWeightLimit → wf_blocks bits bs.
Proof.
  intros Hs Hb Hi Hw. split; try done. rewrite table_bytes_sizes.
  pose proof (sz_finish (filter_builder bits (concat bs))) as Hf. fold (filter_block bits (concat bs)) in Hf.
  pose proof (data_region_weight bs (nonempty_blocks bs Hb)).
  unfold kWeightLimit, UINT32_MAX, INT64_MAX in *. lia.
Qed.

(** The finished file, forced to the device. *)
Definition table_at (path : bytes) (data : bytes) (w : World) : Prop :=
  w_files w !! path = Some (mkFile data (length data)).

(** The footer, the [fsync] and the [close] at the end of [finish]. *)
Lemma wp_finish_tail b w f d ft : LogFileOps.holds (b_file b) w f d [] → sz d + sz ft ≤ UINT64_MAX →
  wp (_ ← BuilderOps.on_file (LogFileOps.append ft); BuilderOps.on_file LogFileOps.sync;;
      BuilderOps.on_file LogFileOps.close;; modify BuilderOps.set_finished) b w
    (λ _ b' w', touched (lf_path (b_file b)) w w' ∧ table_at (lf_path (b_file b)) (d ++ ft) w' ∧
       b_entries b' = b_entries b ∧ end_offset_ (b_file b') = sz (d ++ ft))
    (λ e _ w', touched (lf_path (b_file b)) w w' ∧ build_error w e)
    (touched (lf_path (b_file b)) w).
Proof.
  intros Hh Hmax. eapply wp_builder_append; [exact Hh|done| |..].
  2: { intros e b' w' Ht Hq Hcode. split; [done|]. by right. }
  2: done.
  intros w1 Hc1 Ht1 (f1 & Ho & Hf1 & Hd1 & He1). rewrite app_nil_r in Hd1. unfold BuilderOps.on_file. cbn in Ho, Hf1, He1.
  eapply wp_bind_zoom; [by apply LogFileOps.wp_sync|..]; cbn beta.
  - intros _ l w2 Hc2 [-> [Hfs _]]. cbn in Hfs.
    assert (Ht2 : touched (lf_path (b_file b)) w w2).
    { etrans; [exact Ht1|]. intros name Hne. by rewrite Hfs, lookup_alter_ne. }
    eapply wp_bind_zoom; [by apply LogFileOps.wp_close|..]; cbn beta.
    + intros _ l w3 Hc3 [-> Hsame]. apply wp_modify. split_and!; cbn.
      * etrans; [exact Ht2|by apply touched_same].
      * unfold table_at. destruct Hsame as [-> _]. rewrite Hfs, lookup_alter_eq, Hf1. cbn.
        unfold LogFileOps.fsynced. by rewrite Hd1.
      * done.
      * by rewrite sz_app.
    + intros e l w3 Hc3 (_ & Hq & Hcode & Hsame). split; [etrans; [exact Ht2|by apply touched_same]|]. right. eauto with wp.
    + intros w3 _ Hsame. etrans; [exact Ht2|by apply touched_same].
  - intros e l w2 Hc2 (_ & Hq & Hcode & Hsame). split; [etrans; [exact Ht1|by apply touched_same]|]. right. eauto with wp.
  - intros w2 _ Hsame. etrans; [exact Ht1|by apply touched_same].
Qed.

Lemma wp_finish path bits b w bs cur : building path bits b w bs cur →
  wp BuilderOps.finish b w
    (λ _ b' w', touched path w w' ∧ ∃ bs', wf_blocks bits bs' ∧ concat bs' = concat bs ++ cur ∧
       table_at path (table_bytes bits bs') w' ∧ b_entries b' = sz (concat bs ++ cur) ∧
       end_offset_ (b_file b') = sz (table_bytes bits bs'))
    (λ e _ w', touched path w w' ∧ build_error w e)
    (touched path w).
Proof.
  intros Hb. unfold BuilderOps.finish. wp_pure. rewrite (bd_finished _ _ _ _ _ _ Hb). cbn [fail_when]. wp_pure.
  wp_call (wp_maybe_flush path bits b w bs cur Hb).
  intros _ b1 w1 Hc1 (Ht1 & bs' & Hb1 & Ebs). clear Hb. rewrite <-Ebs. clear bs cur Ebs. rename bs' into bs.
  destruct Hb1 as [[f1 Hh1] Hp Hfl _ _ _ _ Hi He _ Hs Hbs _ Hw]. rewrite !app_nil_r in *. wp_pure.
  pose proof (sz_finish (filter_builder bits (concat bs))) as Hfs. cbv zeta. rewrite Hfl, Hi, He, append_u32_eq.
  fold (filter_block bits (concat bs)) in *. fold (index_block bs).
  pose proof (data_region_weight bs (nonempty_blocks bs Hbs)) as Hdw. unfold kWeightLimit in Hw.
  pose proof (sz_nonneg (data_region bs)). pose proof (sz_nonneg (index_block bs)).
  rewrite (proj2 (Z.ltb_ge UINT32_MAX (sz (filter_block bits (concat bs))))) by lia. cbn [fail_when]. wp_pure.
  eapply (wp_builder_append b1 w1 f1); [exact Hh1|unfold UINT64_MAX, UINT32_MAX in *; lia|..]; rewrite ?Hp.
  2: { intros e b' w' Ht Hq Hcode. split; [by etrans|]. right. eauto with wp. }
  2: { intros w' Ht. by etrans. }
  intros w2 Hc2 Ht2 [f2 Hh2]. apply wp_bind_fail_when; [intros _; split; [by etrans|by left]|].
  intros Hix. arith_hyps. set (b2 := BuilderOps.set_file _ b1) in *.
  eapply (wp_builder_append b2 w2 f2); [exact Hh2|rewrite sz_app; unfold UINT64_MAX, UINT32_MAX in *; lia|..];
    change (lf_path (b_file b2)) with (lf_path (b_file b1)); rewrite ?Hp.
  2: { intros e b' w' Ht Hq Hcode. split; [by do 2 (etrans; [done|])|]. right. eauto with wp. }
  2: { intros w' Ht. by do 2 (etrans; [done|]). }
  intros w3 Hc3 Ht3 [f3 Hh3]. rewrite (u32_id (sz (index_block bs))), (u32_id (sz (filter_block bits (concat bs)))) by lia.
  rewrite (sz_app (data_region bs)) in *.
  eapply wp_mono; [eapply (wp_finish_tail _ w3 f3); [exact Hh3|]|..]; cbn beta;
    change (lf_path (b_file (BuilderOps.set_file _ b2))) with (lf_path (b_file b1)); rewrite ?Hp.
  - rewrite !sz_app, sz_encode_table_footer. unfold kFooterSize, UINT64_MAX, UINT32_MAX in *. lia.
  - intros _ b' w' _ (Ht4 & Hat & Hen & Hend). split; [by do 3 (etrans; [done|])|].
    exists bs. rewrite <-!app_assoc in *. split_and!; [by apply blocks_wf|done|exact Hat|by rewrite Hen|exact Hend].
  - intros e b' w' _ [Ht4 Herr]. split; [by do 3 (etrans; [done|])|]. destruct Herr as [?|[Hq ?]]; [by left|].
    right. eauto with wp.
  - intros w' _ Ht4. by do 3 (etrans; [done|]).
Qed.

(** A leftover under the temporary name is removed before the file is opened. *)
Lemma wp_create {S} path block_size bits (s : S) w : block_size ≠ 0 → reliable w ∨ w_files w !! path = None →
  wp (BuilderOps.create path block_size bits) s w
    (λ b s' w', s' = s ∧ touched path w w' ∧ building path bits b w' [] [])
    (λ e s' w', s' = s ∧ touched path w w' ∧ build_error w e)
    (touched path w).
Proof.
  intros Hbs Hrel. unfold BuilderOps.create. rewrite (proj2 (Z.eqb_neq _ _)) by done.
  apply wp_bind_assoc_rev.
  wp_call (LogFileOps.wp_open_fresh path Never s w Hrel).
  - intros l s1 w1 Hc1 (-> & Ht & -> & Hf). apply wp_ret. split_and!; [done|done|].
    split; cbn; try done. by exists (mkFile [] 0).
  - intros e s1 w1 Hc1 (-> & Ht & Hq & Hcode). split_and!; [done|done|by right].
Qed.

End Build.
