(* ===== verification/SSTableRead.v ===== *)
(** Reading sorted tables: every answer of [SSTable::lookup] is right for a table
    that holds what a builder wrote, and no table, whatever its bytes, makes the
    reader leave a buffer. *)

From S2P Require Import Prelude Status World Wp Encoding Record LogFile MappedFile Bloom SortedMap Memtable SSTableFormat SSTableLayout LsmStats SSTable.
Import sstable.

#[local] Opaque parse_block decode_footer load_index BloomOps.decode BloomOps.maybe_contains.

Section Read.
Context `{Platform}.

(** The table can fetch the bytes of [data], through its mapping or its descriptor. *)
Definition readable (t : SSTable) (w : World) (data : bytes) : Prop :=
  sz data ≤ INT64_MAX ∧
  match t_mapping t with
  | Some m => mf_data m = Some data
  | None => lf_open (t_file t) = true ∧ lf_path (t_file t) = t_path t ∧
      ∃ f, w_files w !! t_path t = Some f ∧ f_data f = data
  end.

Lemma readable_files t w w' data : readable t w data →
  (∀ f, w_files w !! t_path t = Some f → ∃ f', w_files w' !! t_path t = Some f' ∧ f_data f' = f_data f) →
  readable t w' data.
Proof.
  intros [Hsz Hr] Hs. split; [done|]. destruct (t_mapping t); [done|].
  destruct Hr as (? & ? & f & Hf & Hd). destruct (Hs f Hf) as (f' & ? & ?).
  split_and!; [done|done|]. exists f'. split; congruence.
Qed.

Lemma readable_same t w w' data : readable t w data → same_files w w' → readable t w' data.
Proof. intros Hr [Hs _]. eapply readable_files; [done|]. intros f Hf. exists f. by rewrite Hs. Qed.

(** ** Fetching bytes *)

Lemma wp_table_read_at {S} t (s : S) w data off size : readable t w data → 0 ≤ off → 0 < size →
  off + size ≤ sz data →
  wp (SSTableOps.read_at t off size) s w
    (λ d s' w', s' = s ∧ same_files w w' ∧ bd_bytes d = slice data off size)
    (λ e s' w', s' = s ∧ same_files w w' ∧ ¬ reliable w ∧ code_ e = IOError)
    (same_files w).
Proof.
  intros [Hsz Hr] Ho Hs Hle. unfold SSTableOps.read_at. destruct (t_mapping t) as [m|].
  - unfold MappedFileOps.bytes_of. rewrite Hr. simpl.
    rewrite !(proj2 (Z.ltb_ge _ _)) by lia. simpl. by apply wp_ret.
  - destruct Hr as (Hop & Hp & f & Hf & Hd).
    eapply wp_bind_local; [eapply (LogFileOps.wp_read_at _ w f off size)|..]; try done; cbn beta.
    + by rewrite Hp.
    + lia.
    + unfold INT64_MAX, UINT64_MAX in *. lia.
    + intros bs l w1 _ (_ & Hfs & -> & _). apply wp_ret. by rewrite Hd.
    + intros e l w1 _ (_ & Hfs & [[? ?]|[Hlt _]]); [done|]. rewrite Hd in Hlt. lia.
Qed.

(** ** The reference reader

    What reading a table means, as a function of the bytes of its file. *)

(** The payload of a block. *)
Definition get_block (path data : bytes) (e : IndexEntry) : result bytes :=
  let raw := slice data (ie_block_offset e) (ie_block_size e) in
  let payload_size := sz raw - kBlockTrailerSize in
  crc ← encoding.get_u32 raw payload_size;
  fail_if (negb (crc =? record.crc32_of (slice raw 0 payload_size)))
    (corruption (lit "sstable data block fails its crc: " ++ path));;
  ROk (slice raw 0 payload_size).

(** An index entry that stays inside [n] bytes. *)
Definition in_file (n : Z) (e : IndexEntry) : Prop :=
  kBlockTrailerSize ≤ ie_block_size e ≤ UINT32_MAX ∧ 0 ≤ ie_block_offset e ∧
  ie_block_offset e + ie_block_size e ≤ n.

Lemma get_block_safe path data e : in_file (sz data) e → safe Corruption (get_block path data e).
Proof.
  intros (Hs & Ho & Hle). unfold get_block, kBlockTrailerSize in *. cbv zeta.
  rewrite sz_slice by lia. assert (sz (slice data (ie_block_offset e) (ie_block_size e)) = ie_block_size e)
    by (apply sz_slice; lia). safe; auto with safe.
Qed.

Lemma wp_read_block_raw {S} t (s : S) w data i e : readable t w data → t_index t !! i = Some e →
  in_file (sz data) e →
  wp (SSTableOps.read_block_raw t i) s w
    (λ d s' w', s' = s ∧ same_files w w' ∧ get_block (t_path t) data e = ROk (bd_bytes d))
    (λ err s' w', s' = s ∧ same_files w w' ∧ (¬ reliable w ∧ code_ err = IOError ∨
       get_block (t_path t) data e = RErr err))
    (same_files w).
Proof.
  intros Hr Hi (Hs & Ho & Hle). unfold SSTableOps.read_block_raw. rewrite Hi.
  unfold get_block, kBlockTrailerSize in *. cbv zeta.
  eapply wp_bind; [eapply wp_table_read_at; [done|lia|lia|done]|..]; cbn beta; [|naive_solver|done].
  intros d ? w1 Hc (-> & Hfs & Hd). rewrite Hd. set (raw := slice data _ _).
  assert (Hraw : sz raw = ie_block_size e) by (apply sz_slice; lia).
  destruct (get_u32_not_stuck raw (sz raw - 4)) as [crc Hcrc]; [lia|lia|]. rewrite Hcrc. wp_pure.
  cbn [mbind result_bind]. destruct (negb _) eqn:Hc2; [apply wp_bind_fail|wp_pure; apply wp_ret].
  - split_and!; [done|done|]. by right.
  - split_and!; [done|done|]. cbn. unfold trim. rewrite Hd. fold raw.
    by rewrite (proj2 (Z.ltb_lt _ _)) by lia.
Qed.

(** ** Any table *)

(** What opening any file establishes: the index stays inside the file, and the
    filter inside its bits. *)
Definition sound (t : SSTable) (w : World) : Prop :=
  ∃ data, readable t w data ∧ index_ok (sz data) (t_index t) ∧
    ∀ flt, t_filter t = Some flt → ∀ key, ∃ b, BloomOps.maybe_contains key flt = ROk b.

(** Corrupt bytes, or a failed call. *)
Definition read_error (w : World) (e : Status) : Prop :=
  code_ e = Corruption ∨ ¬ reliable w ∧ code_ e = IOError.

Lemma wp_read_block_any {S} t (s : S) w i : sound t w → (i < length (t_index t))%nat →
  wp (SSTableOps.read_block_raw t i) s w
    (λ _ s' w', s' = s ∧ same_files w w') (λ e s' w', s' = s ∧ same_files w w' ∧ read_error w e)
    (same_files w).
Proof.
  intros (data & Hr & [Hidx _] & _) [e He]%lookup_lt_is_Some.
  assert (Hin : in_file (sz data) e).
  { rewrite Forall_forall in Hidx. apply Hidx. by eapply list_elem_of_lookup_2. }
  eapply wp_mono; [by eapply (wp_read_block_raw t s w data i e)|..]; cbn beta.
  - naive_solver.
  - intros err ? w1 _ (-> & ? & [Hq|Herr]); split_and!; auto; [by right|left].
    pose proof (get_block_safe (t_path t) data e Hin) as Hsafe. by rewrite Herr in Hsafe.
  - auto.
Qed.

(** ** The counters a lookup touches *)

(** At most one block read, no table probe. *)
Definition one_lookup (s s' : LsmStats) : Prop :=
  (∃ n, 0 ≤ n ≤ 1 ∧ bumped block_reads n s s') ∧ s' tables_probed = s tables_probed.

Definition same_reads (s s' : LsmStats) : Prop :=
  s' block_reads = s block_reads ∧ s' tables_probed = s tables_probed.

(** Counters hold 64-bit values. *)
Definition in_range (s : LsmStats) : Prop := ∀ c, 0 ≤ s c ≤ UINT64_MAX.

Lemma in_range_bump c n s : in_range s → in_range (bump c n s).
Proof. intros Hs c'. unfold bump. case_decide; [apply u64_range|done]. Qed.

Lemma same_reads_lookup s s' : in_range s → same_reads s s' → one_lookup s s'.
Proof.
  intros Hs [Hb Ht]. split; [|done]. exists 0. split; [lia|]. unfold bumped.
  by rewrite Hb, Z.add_0_r, u64_id.
Qed.

Lemma same_reads_bump c n s : c ≠ block_reads → c ≠ tables_probed → same_reads s (bump c n s).
Proof. intros. split; by rewrite bump_other. Qed.

Lemma same_reads_trans s1 s2 s3 : same_reads s1 s2 → same_reads s2 s3 → same_reads s1 s3.
Proof. intros [??] [??]. split; congruence. Qed.

(** What the filter says: false is final. *)
Definition probe_ref (bloom : bool) (filter : option BloomFilter) (key : bytes) : result bool :=
  match filter with
  | Some filter => if bloom then BloomOps.maybe_contains key filter else ROk true
  | None => ROk true
  end.

Lemma wp_probe_filter t key s w (r : bool) :
  probe_ref (t_bloom_enabled t) (t_filter t) key = ROk r → in_range s →
  wp (SSTableOps.probe_filter t key) s w
    (λ b s' w', w' = w ∧ in_range s' ∧ same_reads s s' ∧ b = r)
    (λ _ _ _, False) (λ _, False).
Proof.
  unfold probe_ref. intros Hm Hs. unfold SSTableOps.probe_filter.
  destruct (t_filter t) as [flt|]; [|injection Hm as <-; by apply wp_ret].
  destruct (t_bloom_enabled t); [|injection Hm as <-; by apply wp_ret].
  assert (Hrest : ∀ s1, in_range s1 → same_reads s s1 →
    wp (maybe ← liftR (BloomOps.maybe_contains key flt);
        (if negb maybe then (if t_stats t then modify (bump bloom_rejects 1) else mret tt) else mret tt);;
        mret maybe) s1 w
      (λ b s' w', w' = w ∧ in_range s' ∧ same_reads s s' ∧ b = r)
      (λ _ _ _, False) (λ _, False)).
  { intros s1 Hs1 Hr1. rewrite Hm. wp_pure.
    destruct r, (t_stats t); simpl; wp_pure; apply wp_ret; split_and!; auto using in_range_bump. }
  destruct (t_stats t); wp_pure; apply Hrest; auto using in_range_bump; [by apply same_reads_bump|done].
Qed.

Lemma wp_bind_read_block {A} t s w i (k : BlockData → M LsmStats A) Q E D : in_range s →
  (∀ s', in_range s' → s' tables_probed = s tables_probed →
     (∃ n, 0 ≤ n ≤ 1 ∧ bumped block_reads n s s') →
     wp (SSTableOps.read_block_raw t i ≫= k) s' w Q E D) →
  wp (SSTableOps.read_block t i ≫= k) s w Q E D.
Proof.
  intros Hs Hk. unfold SSTableOps.read_block. apply wp_bind_assoc.
  destruct (t_stats t); wp_pure; apply Hk.
  - by apply in_range_bump.
  - by rewrite bump_other.
  - exists 1. split; [lia|apply bumped_bump].
  - done.
  - done.
  - exists 0. split; [lia|]. unfold bumped. by rewrite Z.add_0_r, u64_id.
Qed.

(** The steps of a lookup up to the block it reads. *)
Lemma wp_lookup_steps t key s w r Q E (D : World → Prop) : in_range s →
  probe_ref (t_bloom_enabled t) (t_filter t) key = ROk r →
  let it := lower_bound (λ e, ltb (ie_key e) key) (t_index t) in
  (∀ s', in_range s' → one_lookup s s' →
     t_index t = [] ∨ klt key (t_min_key t) ∨ klt (t_max_key t) key ∨ r = false ∨
     (length (t_index t) ≤ it)%nat → Q NotPresent s' w) →
  (∀ s', in_range s' → one_lookup s s' → (it < length (t_index t))%nat →
     ltb key (t_min_key t) = false → ltb (t_max_key t) key = false → r = true →
     wp (block ← SSTableOps.read_block_raw t it;
         entries ← liftR (parse_block (bd_bytes block));
         match entries !! lower_bound (λ entry, ltb (be_key entry) key) entries with
         | None => mret NotPresent
         | Some hit =>
             if negb (key_eqb (be_key hit) key) then mret NotPresent
             else if be_tombstone hit then mret Deleted
             else mret (Found (be_value hit))
         end) s' w Q E D) →
  wp (SSTableOps.lookup t key) s w Q E D.
Proof.
  intros Hs Hm it Hno Hyes. unfold SSTableOps.lookup. fold it.
  assert (Hsame : same_reads s s) by done.
  destruct (t_index t) as [|e0 idx] eqn:Ei;
    [apply wp_ret, Hno; auto using same_reads_lookup|].
  destruct (ltb key (t_min_key t)) eqn:E1; [apply wp_ret, Hno; auto using same_reads_lookup|].
  destruct (ltb (t_max_key t) key) eqn:E2; [apply wp_ret, Hno; auto using same_reads_lookup|].
  cbn [orb]. eapply wp_bind; [by eapply wp_probe_filter|..]; cbn beta; [|done|done].
  intros b s1 w1 _ (-> & Hs1 & Hsame1 & ->). destruct r; cbn [negb].
  2: { apply wp_ret, Hno; [done|by apply same_reads_lookup|]. by right; right; right; left. }
  destruct (Nat.leb_spec (length (e0 :: idx)) it) as [Hle|Hlt].
  { apply wp_ret, Hno; [done|by apply same_reads_lookup|]. by do 4 right. }
  apply wp_bind_read_block; [done|]. intros s2 Hs2 Ht2 (n & Hn & Hb2). apply Hyes; try done.
  destruct Hsame1 as [Hsb Hst]. split; [|congruence]. exists n. split; [done|].
  unfold bumped in *. by rewrite Hb2, Hsb.
Qed.

(** No file makes a lookup misbehave: it answers, or reports what is wrong. *)
Lemma wp_lookup_any t key s w : sound t w → in_range s →
  wp (SSTableOps.lookup t key) s w
    (λ _ s' w', same_files w w' ∧ one_lookup s s') (λ e s' w', same_files w w' ∧ read_error w e)
    (same_files w).
Proof.
  intros Hsound Hs. pose proof Hsound as (data & Hr & [Hidx _] & Hflt).
  assert (∃ r, probe_ref (t_bloom_enabled t) (t_filter t) key = ROk r) as [r Hm].
  { unfold probe_ref. destruct (t_filter t) as [flt|]; [|by eexists].
    destruct (t_bloom_enabled t); [|by eexists]. by apply Hflt. }
  eapply (wp_lookup_steps t key s w r); [done|done|by split|].
  intros s1 Hs1 Hone Hlt _ _ _. eapply wp_bind; [by apply wp_read_block_any|..]; cbn beta; [|naive_solver|done].
  intros d ? w1 Hc (-> & Hfs).
  pose proof (parse_block_safe (bd_bytes d)) as Hsafe.
  destruct (parse_block (bd_bytes d)) as [entries|err|]; [| |done].
  - wp_pure. destruct (_ !! _) as [hit|]; [|by apply wp_ret].
    destruct (negb _); [by apply wp_ret|]. destruct (be_tombstone hit); by apply wp_ret.
  - apply wp_bind_err. split; [done|]. by left.
Qed.

(** ** Tables that hold what a builder wrote *)

Definition first_key (es : list entry) : bytes := default [] (fst <$> head es).

Record holds_table (t : SSTable) (w : World) (bs : list (list entry)) : Prop := {
  ht_data : ∃ data rest, readable t w data ∧ data = data_region bs ++ rest;
  ht_sorted : ksorted (concat bs);
  ht_blocks : Forall block_fits bs;
  ht_index : t_index t = index_from 0 bs;
  ht_filter : ∀ flt, t_filter t = Some flt → ∀ key, ∃ r,
    BloomOps.maybe_contains key flt = ROk r ∧ (key ∈ (concat bs).*1 → r = true);
  ht_min : t_min_key t = first_key (concat bs);
  ht_max : t_max_key t = last_key (concat bs);
  ht_count : ft_entry_count (t_footer t) = sz (concat bs);
  ht_size : sz (data_region bs) ≤ t_file_size t ≤ INT64_MAX;
}.

Lemma holds_table_files t w w' bs : holds_table t w bs →
  (∀ f, w_files w !! t_path t = Some f → ∃ f', w_files w' !! t_path t = Some f' ∧ f_data f' = f_data f) →
  holds_table t w' bs.
Proof.
  intros [(data & rest & Hr & Hd) ????????] Hf. split; try done. exists data, rest. split; [|done].
  by eapply readable_files.
Qed.

Lemma holds_table_same t w w' bs : holds_table t w bs → same_files w w' → holds_table t w' bs.
Proof. intros Ht [Hs _]. eapply holds_table_files; [done|]. intros f Hf. exists f. by rewrite Hs. Qed.

(** The answer a table with these entries owes. *)
Definition lookup_result (o : option MemEntry) : Lookup :=
  match o with
  | None => NotPresent
  | Some e => if me_tombstone e then Deleted else Found (me_value e)
  end.

Lemma blocks_nonempty bs : Forall block_fits bs → Forall (λ b, b ≠ []) bs.
Proof. intros Hb. eapply Forall_impl; [exact Hb|]. by intros b [? _]. Qed.

Lemma concat_nil_blocks bs : Forall block_fits bs → concat bs = [] → bs = [].
Proof.
  intros Hb. destruct bs as [|b bs]; [done|]. apply Forall_cons in Hb as [[? _] _].
  simpl. intros [-> _]%app_eq_nil. done.
Qed.

Lemma first_key_le es e : ksorted es → e ∈ es → kle (first_key es) e.1.
Proof.
  destruct es as [|[k x] es]; [by intros _ ?%elem_of_nil|]. unfold first_key. simpl.
  intros [Hall _]%ksorted_cons [-> |He]%elem_of_cons; simpl; [korder|].
  rewrite Forall_forall in Hall. apply Hall in He. korder.
Qed.

(** Why a key may be denied without reading a block. *)
Lemma lookup_skips t w bs key r : holds_table t w bs →
  probe_ref (t_bloom_enabled t) (t_filter t) key = ROk r →
  t_index t = [] ∨ klt key (t_min_key t) ∨ klt (t_max_key t) key ∨ r = false ∨
  (length (t_index t) ≤ lower_bound (λ e, ltb (ie_key e) key) (t_index t))%nat →
  as_map (concat bs) !! key = None.
Proof.
  intros Ht Hm Hc. destruct (as_map (concat bs) !! key) as [x|] eqn:Ex; [exfalso|done].
  pose proof Ex as Hin%as_map_elem_1. pose proof (ht_sorted _ _ _ Ht) as Hs.
  pose proof (blocks_nonempty _ (ht_blocks _ _ _ Ht)) as Hne.
  rewrite (ht_min _ _ _ Ht), (ht_max _ _ _ Ht), (ht_index _ _ _ Ht) in Hc.
  pose proof (first_key_le _ _ Hs Hin) as H1. pose proof (ksorted_last_key _ _ Hs Hin) as H2.
  simpl in H1, H2. destruct Hc as [Hc|[Hc|[Hc|[Hc|Hc]]]].
  - apply (f_equal length) in Hc. rewrite length_index_from in Hc. destruct bs; [|done]. done.
  - korder.
  - korder.
  - unfold probe_ref in Hm. destruct (t_filter t) as [flt|] eqn:Ef; [|by simplify_eq].
    destruct (t_bloom_enabled t); [|by simplify_eq].
    destruct (ht_filter _ _ _ Ht flt Ef key) as (r' & Hr' & Hyes). rewrite Hm in Hr'.
    simplify_eq. discriminate Hyes. apply list_elem_of_fmap. by exists (key, x).
  - rewrite length_index_from in Hc. destruct (index_search bs key Hs Hne) as [[_ E]|(bs1 & b & bs2 & E1 & E2 & _)].
    + by rewrite E in Ex.
    + rewrite E2, E1, length_app in Hc. simpl in Hc. lia.
Qed.

Lemma get_block_held path bs1 b bs2 rest :
  get_block path (data_region (bs1 ++ b :: bs2) ++ rest)
    (mkIndexEntry (last_key b) (sz (data_region bs1)) (sz (sealed b))) = ROk (enc_block b).
Proof.
  unfold get_block. cbn [ie_block_offset ie_block_size]. rewrite block_slice. cbv zeta.
  rewrite sealed_crc. cbn [mbind result_bind]. by rewrite sealed_payload, Z.eqb_refl.
Qed.

(** The block a lookup reads and what is in it. *)
Lemma wp_read_held {S} t w bs bs1 b bs2 (s : S) : holds_table t w bs → bs = bs1 ++ b :: bs2 →
  wp (SSTableOps.read_block_raw t (length bs1)) s w
    (λ d s' w', s' = s ∧ same_files w w' ∧ bd_bytes d = enc_block b ∧
       parse_block (bd_bytes d) = ROk (block_entry <$> b))
    (λ e s' w', s' = s ∧ same_files w w' ∧ ¬ reliable w ∧ code_ e = IOError)
    (same_files w).
Proof.
  intros Ht ->. destruct (ht_data _ _ _ Ht) as (data & rest & Hr & Hd).
  assert (Hb : block_fits b).
  { pose proof (ht_blocks _ _ _ Ht) as Hb. by apply Forall_app in Hb as [_ [? _]%Forall_cons]. }
  destruct Hb as (_ & Hfit & Hcap). pose proof (sz_sealed b). pose proof (sz_nonneg (enc_block b)).
  eapply wp_mono; [eapply (wp_read_block_raw t s w data (length bs1)); [done|
    rewrite (ht_index _ _ _ Ht); apply index_lookup|]|..]; cbn beta.
  - unfold in_file, kBlockTrailerSize. cbn [ie_block_offset ie_block_size]. pose proof (sz_nonneg (data_region bs1)).
    split_and!; [lia|done|done|]. rewrite Hd, data_region_app, data_region_cons, !sz_app.
    pose proof (sz_nonneg rest). pose proof (sz_nonneg (data_region bs2)). lia.
  - intros d s1 w1 _ (-> & Hfs & Hd1). rewrite Hd, get_block_held in Hd1. injection Hd1 as <-.
    split_and!; [done|done|done|]. by apply parse_enc_block.
  - intros e s1 w1 _ (-> & Hfs & [[? ?]|Herr]); [done|]. by rewrite Hd, get_block_held in Herr.
  - done.
Qed.

Lemma wp_lookup t key s w bs : holds_table t w bs → in_range s →
  wp (SSTableOps.lookup t key) s w
    (λ r s' w', same_files w w' ∧ one_lookup s s' ∧ in_range s' ∧
       r = lookup_result (as_map (concat bs) !! key))
    (λ e s' w', same_files w w' ∧ ¬ reliable w ∧ code_ e = IOError)
    (same_files w).
Proof.
  intros Ht Hs. assert (∃ r, probe_ref (t_bloom_enabled t) (t_filter t) key = ROk r) as [r Hm].
  { unfold probe_ref. destruct (t_filter t) as [flt|] eqn:Ef; [|by eexists].
    destruct (t_bloom_enabled t); [|by eexists].
    destruct (ht_filter _ _ _ Ht flt Ef key) as (r & Hr & _). by exists r. }
  eapply (wp_lookup_steps t key s w r); [done|done| |].
  { intros s1 ? ? Hc. split_and!; [done|done|done|]. by rewrite (lookup_skips t w bs key r). }
  intros s1 Hs1 Hone Hlt _ _ _. pose proof (ht_sorted _ _ _ Ht) as Hsort.
  rewrite (ht_index _ _ _ Ht) in *. rewrite length_index_from in Hlt.
  destruct (index_search bs key Hsort (blocks_nonempty _ (ht_blocks _ _ _ Ht)))
    as [[E _]|(bs1 & b & bs2 & Ebs & Ei & Emap)]; [lia|].
  rewrite Ei. eapply wp_bind; [by eapply (wp_read_held t w bs bs1 b bs2)|..]; cbn beta; [|naive_solver|done].
  intros d ? w1 Hc (-> & Hfs & _ & ->). wp_pure. rewrite Emap.
  rewrite Ebs in Hsort. apply ksorted_block in Hsort as (Hb & _).
  pose proof (block_search b key Hb) as Hhit. cbv zeta in Hhit.
  destruct (as_map b !! key) as [x|].
  - rewrite Hhit. unfold key_eqb. cbn [be_key block_entry fst]. rewrite bool_decide_eq_true_2 by done.
    destruct x as [v [|]]; simpl; by apply wp_ret.
  - destruct ((block_entry <$> b) !! _) as [h|]; [|by apply wp_ret]. unfold key_eqb. rewrite bool_decide_eq_false_2 by done.
    by apply wp_ret.
Qed.

End Read.
