(* ===== verification/SSTableOpen.v ===== *)
(** Opening sorted tables.

    [load_ref] is what [SSTable::load] computes, as a function of the bytes of the
    file.  Opening a file refines it in both read modes; it accepts everything a
    builder wrote, and on arbitrary bytes it stays inside them. *)

From S2P Require Import Prelude Status World Wp Encoding Record LogFile MappedFile Bloom SortedMap Memtable SSTableFormat SSTableLayout LsmStats SSTable SSTableRead.
Import sstable.

#[local] Opaque parse_block decode_footer load_index BloomOps.decode BloomOps.maybe_contains get_block.

Section Open.
Context `{Platform}.

(** The members [load] fills in. *)
Record Loaded : Type := mkLoaded {
  ld_footer : Footer; ld_index : list IndexEntry; ld_filter : option BloomFilter;
  ld_min : bytes; ld_max : bytes }.

Definition ref_footer (path data : bytes) : result Footer :=
  fail_if (sz data <? kFooterSize)
    (corruption (lit "sstable is too small to hold a footer: " ++ path));;
  decode_footer (slice data (sz data - kFooterSize) kFooterSize).

Definition ref_index (path data : bytes) (footer : Footer) : result (list IndexEntry) :=
  let metadata_start := sz data - kFooterSize in
  fail_if ((metadata_start <? ft_index_offset footer) ||
           (metadata_start - ft_index_offset footer <? ft_index_size footer))
    (corruption (lit "sstable index block runs past the end of the file"));;
  fail_if ((metadata_start <? ft_filter_offset footer) ||
           (metadata_start - ft_filter_offset footer <? ft_filter_size footer))
    (corruption (lit "sstable filter block runs past the end of the file"));;
  fail_if (ft_index_size footer <? kIndexHeaderSize + kBlockTrailerSize)
    (corruption (lit "sstable index block is too small to be one"));;
  let raw := slice data (ft_index_offset footer) (ft_index_size footer) in
  let payload_size := sz raw - kBlockTrailerSize in
  crc ← encoding.get_u32 raw payload_size;
  fail_if (negb (crc =? record.crc32_of (slice raw 0 payload_size)))
    (corruption (lit "sstable index block fails its crc: " ++ path));;
  load_index (ft_filter_offset footer) (slice raw 0 payload_size).

Definition ref_filter (data : bytes) (footer : Footer) : result (option BloomFilter) :=
  if ft_filter_size footer =? 0 then ROk None
  else
    filter ← BloomOps.decode (slice data (ft_filter_offset footer) (ft_filter_size footer));
    ROk (Some filter).

(** The smallest and the largest key. *)
Definition ref_keys (path data : bytes) (footer : Footer) (index_ : list IndexEntry) :
    result (bytes * bytes) :=
  match last index_, head index_ with
  | Some back, Some front_block =>
      block ← get_block path data front_block;
      entries ← parse_block block;
      match entries with
      | [] => RErr (corruption (lit "sstable first data block is empty"))
      | front :: _ => ROk (be_key front, ie_key back)
      end
  | _, _ =>
      fail_if (negb (ft_entry_count footer =? 0))
        (corruption (lit "sstable declares entries but its index names no blocks"));;
      ROk ([], [])
  end.

Definition load_ref (path data : bytes) : result Loaded :=
  footer ← ref_footer path data;
  index_ ← ref_index path data footer;
  filter ← ref_filter data footer;
  keys ← ref_keys path data footer index_;
  ROk (mkLoaded footer index_ filter keys.1 keys.2).

(** ** Safety *)

Lemma ref_footer_safe path data : safe Corruption (ref_footer path data).
Proof. unfold ref_footer. safe. apply decode_table_footer_safe. Qed.

Lemma ref_index_safe path data f : kFooterSize ≤ sz data → 0 ≤ ft_index_offset f →
  safe Corruption (ref_index path data f).
Proof.
  intros Hsz Ho. unfold ref_index, kIndexHeaderSize, kBlockTrailerSize, kFooterSize in *. cbv zeta.
  do 3 (apply safe_bind; [auto with safe|intros ? ?]; arith_hyps).
  rewrite sz_slice by lia. apply safe_bind; [|intros ? ?].
  { apply safe_get_u32; [lia|]. rewrite sz_slice by lia. lia. }
  apply safe_bind; [auto with safe|intros ? ?]. apply load_index_safe.
  unfold kIndexHeaderSize. rewrite sz_slice; rewrite ?sz_slice by lia; lia.
Qed.

(** What an accepted index guarantees. *)
Lemma ref_index_ok path data f idx : kFooterSize ≤ sz data → ref_index path data f = ROk idx →
  index_ok (sz data) idx ∧ ft_index_offset f + ft_index_size f ≤ sz data ∧
  ft_filter_offset f + ft_filter_size f ≤ sz data ∧ kIndexHeaderSize + kBlockTrailerSize ≤ ft_index_size f ∧
  (0 ≤ ft_filter_size f → ft_filter_offset f ≤ sz data).
Proof.
  intros Hsz. unfold ref_index. cbv zeta. intros Hr. rinv. arith_hyps. unfold kFooterSize in *.
  split; [|lia]. match goal with H : load_index _ _ = ROk _ |- _ => apply load_index_ok in H as [Hf Hs] end.
  split; [|done]. eapply Forall_impl; [exact Hf|]. intros e (? & ? & ?). simpl in *. split_and!; lia.
Qed.

Lemma ref_filter_safe data f : safe Corruption (ref_filter data f).
Proof. unfold ref_filter. safe. apply BloomOps.bloom_decode_safe. Qed.

Lemma ref_keys_safe path data f idx : index_ok (sz data) idx → safe Corruption (ref_keys path data f idx).
Proof.
  intros [Hf _]. unfold ref_keys. destruct idx as [|e idx]; [simpl; safe|].
  destruct (last (e :: idx)); simpl; [|safe]. apply Forall_cons in Hf as [He _].
  apply safe_bind; [by apply get_block_safe|intros ? ?]. apply safe_bind; [apply parse_block_safe|intros es ?].
  destruct es; safe.
Qed.

Lemma load_ref_safe path data : safe Corruption (load_ref path data).
Proof.
  unfold load_ref. apply safe_bind; [apply ref_footer_safe|intros f Hf].
  assert (kFooterSize ≤ sz data) by (unfold ref_footer in Hf; rinv; arith_hyps; lia).
  unfold ref_footer in Hf. rinv.
  match goal with H : decode_footer _ = _ |- _ => apply decode_footer_range in H as (? & ? & ? & ?) end.
  apply safe_bind; [by apply ref_index_safe|intros idx Hidx]. apply ref_index_ok in Hidx as [? _]; [|done].
  apply safe_bind; [apply ref_filter_safe|intros ? ?]. apply safe_bind; [by apply ref_keys_safe|intros ? ?]. done.
Qed.

Lemma load_ref_sound path data l : load_ref path data = ROk l →
  index_ok (sz data) (ld_index l) ∧
  ∀ flt, ld_filter l = Some flt → ∀ key, ∃ b, BloomOps.maybe_contains key flt = ROk b.
Proof.
  unfold load_ref. intros Hl. rinv. cbn. split.
  - unfold ref_footer in *. rinv. arith_hyps.
    match goal with H : ref_index _ _ _ = _ |- _ => by apply ref_index_ok in H as [? _] end.
  - intros flt E key. match goal with H : ref_filter _ _ = ROk _ |- _ => unfold ref_filter in H end.
    case_match; rinv; simplify_eq.
    match goal with H : BloomOps.decode _ = ROk _ |- _ => by eapply BloomOps.decode_answers in H end.
Qed.

(** ** Loading refines the reference *)

(** What stays of a table while it is loaded. *)
Definition handle (t : SSTable) : bytes * Z * bool * ReadMode * bool :=
  (t_path t, t_id t, t_stats t, t_read_mode t, t_bloom_enabled t).

Definition loaded_as (t : SSTable) (l : Loaded) : Prop :=
  t_footer t = ld_footer l ∧ t_index t = ld_index l ∧ t_filter t = ld_filter l ∧
  t_min_key t = ld_min l ∧ t_max_key t = ld_max l.

(** A failed call, or the error of the reference. *)
Definition ref_error {A} (w : World) (r : result A) (e : Status) : Prop :=
  ¬ reliable w ∧ code_ e = IOError ∨ r = RErr e.

Lemma ref_error_calm {A} w w' (r : result A) e : calm w w' → ref_error w' r e → ref_error w r e.
Proof. intros Hc [[Hq He]|He]; [left|by right]. split; [eauto with wp|done]. Qed.

Lemma wp_map_file t w data : readable t w data → t_mapping t = None → 0 < sz data →
  wp SSTableOps.map_file t w
    (λ _ t' w', same_files w w' ∧
      t' = SSTableOps.set_file (LogFileOps.set_closed (t_file t))
             (SSTableOps.set_mapping (Some (mkMapped (Some data) (t_path t))) t))
    (λ e t' w', same_files w w' ∧ ¬ reliable w ∧ code_ e = IOError) (same_files w).
Proof.
  intros [Hsz Hr] Hm Hpos. rewrite Hm in Hr. destruct Hr as (Ho & Hp & f & Hf & Hd).
  unfold SSTableOps.map_file. wp_pure. rewrite <-Hd in *.
  eapply wp_bind; [eapply (MappedFileOps.wp_mapped_open _ _ _ f); [done|lia]|..]; cbn beta; [|naive_solver|done].
  intros m ? w1 Hc1 (-> & -> & Hs1). wp_pure.
  assert (Hrest : ∀ w2, calm w1 w2 → same_files w1 w2 →
    wp (zoom t_file SSTableOps.set_file LogFileOps.close)
      (SSTableOps.set_mapping (Some (mkMapped (Some (f_data f)) (t_path t))) t) w2
      (λ _ t' w', same_files w w' ∧ t' = SSTableOps.set_file (LogFileOps.set_closed (t_file t))
             (SSTableOps.set_mapping (Some (mkMapped (Some (f_data f)) (t_path t))) t))
      (λ e t' w', same_files w w' ∧ ¬ reliable w ∧ code_ e = IOError) (same_files w)).
  { intros w2 Hc2 Hs2. pose proof (MappedFileOps.same_files_trans _ _ _ Hs1 Hs2) as Hs.
    apply wp_zoom. eapply wp_mono; [by apply (LogFileOps.wp_close (t_file t) w2)|..]; cbn beta.
    - intros [] l w3 _ [-> Hs3]. split; [by eapply MappedFileOps.same_files_trans|done].
    - intros e l w3 _ (_ & Hq & He & Hs3). split_and!; [by eapply MappedFileOps.same_files_trans| |done].
      intros Hr. apply Hq. eauto with wp.
    - intros w3 _ Hs3. by eapply MappedFileOps.same_files_trans. }
  eapply wp_bind_attempt_local; [by eapply MappedFileOps.wp_mapped_advise|..]; cbn beta.
  - intros [] m1 w2 Hc2 [-> Hs2]. by apply Hrest.
  - intros e m1 w2 Hc2 (_ & _ & _ & Hs2). by apply Hrest.
  - intros w2 _ Hs2. by eapply MappedFileOps.same_files_trans.
Qed.

Lemma wp_load_keys t w data : readable t w data → index_ok (sz data) (t_index t) →
  t_min_key t = [] → t_max_key t = [] →
  wp SSTableOps.load_keys t w
    (λ _ t' w', same_files w w' ∧ ∃ keys, ref_keys (t_path t) data (t_footer t) (t_index t) = ROk keys ∧
       t' = SSTableOps.set_min_key keys.1 (SSTableOps.set_max_key keys.2 t))
    (λ e t' w', same_files w w' ∧ ref_error w (ref_keys (t_path t) data (t_footer t) (t_index t)) e)
    (same_files w).
Proof.
  intros Hr Hidx Hmin Hmax. unfold SSTableOps.load_keys, ref_keys. wp_pure.
  destruct (t_index t) as [|e0 idx] eqn:Ei.
  { cbn [last head]. unfold ref_error. apply wp_fail_when; intros ->; [split; [done|by right]|].
    split; [done|]. exists ([], []). split; [done|]. destruct t; cbn in *. by subst. }
  destruct (last (e0 :: idx)) as [back|] eqn:El.
  2: { by apply last_None in El. }
  cbn [head]. wp_pure. rewrite <-Ei in *.
  assert (He0 : t_index t !! 0%nat = Some e0) by by rewrite Ei.
  assert (Hin : in_file (sz data) e0).
  { rewrite Ei in Hidx. by destruct Hidx as [[? _]%Forall_cons _]. }
  eapply wp_bind; [by eapply (wp_read_block_raw t _ w data 0 e0)|..]; cbn beta; [| |done].
  2: { intros e t1 w1 _ (_ & Hs & [Hq| ->]); split; auto; [by left|by right]. }
  intros d t1 w1 _ (-> & Hs & ->). cbn [mbind result_bind].
  destruct (parse_block (bd_bytes d)) as [es|e|] eqn:Ep.
  - wp_pure. cbn [mbind result_bind]. destruct es as [|front es].
    + apply wp_fail. split; [done|]. by right.
    + apply wp_modify. split; [done|]. by exists (be_key front, ie_key back).
  - apply wp_bind_err. split; [done|]. by right.
  - pose proof (parse_block_safe (bd_bytes d)) as Hsafe. by rewrite Ep in Hsafe.
Qed.

Lemma wp_load_index_block t w data : readable t w data → t_file_size t = sz data →
  kFooterSize ≤ sz data → 0 ≤ ft_index_offset (t_footer t) →
  wp SSTableOps.load_index_block t w
    (λ _ t' w', same_files w w' ∧ ∃ idx, ref_index (t_path t) data (t_footer t) = ROk idx ∧
       t' = SSTableOps.set_index idx t)
    (λ e t' w', same_files w w' ∧ ref_error w (ref_index (t_path t) data (t_footer t)) e)
    (same_files w).
Proof.
  intros Hr Hfs Hsz Ho. pose proof (ref_index_safe (t_path t) data (t_footer t) Hsz Ho) as Hsafe.
  unfold SSTableOps.load_index_block, ref_index in *. wp_pure. rewrite Hfs. cbv zeta in *.
  do 3 (match goal with |- wp (fail_when ?c _ ≫= _) _ _ _ _ _ => destruct c eqn:? end;
    [apply wp_bind_fail; split; [done|by right]|cbn [fail_when]; wp_pure; cbn [fail_if mbind result_bind] in *]).
  arith_hyps. unfold kIndexHeaderSize, kBlockTrailerSize, kFooterSize in *.
  eapply wp_bind; [eapply (wp_table_read_at t _ w data); [done|lia|lia|lia]|..]; cbn beta; [| |done].
  2: { intros e t1 w1 _ (_ & Hs & Hq). split; [done|by left]. }
  intros d t1 w1 _ (-> & Hs & ->). destruct (encoding.get_u32 _ _) as [crc|e|] eqn:Ec.
  - wp_pure. cbn [mbind result_bind] in *. match goal with |- wp (fail_when ?c _ ≫= _) _ _ _ _ _ => destruct c end;
      [apply wp_bind_fail; split; [done|by right]|cbn [fail_when]; wp_pure; cbn [fail_if mbind result_bind] in *].
    destruct (load_index _ _) as [idx|e|]; [|apply wp_bind_err; split; [done|by right]|done].
    wp_pure. apply wp_modify. split; [done|]. by exists idx.
  - apply wp_bind_err. split; [done|by right].
  - done.
Qed.

Lemma wp_load_filter t w data : readable t w data → t_filter t = None →
  0 ≤ ft_filter_offset (t_footer t) → 0 ≤ ft_filter_size (t_footer t) →
  ft_filter_offset (t_footer t) + ft_filter_size (t_footer t) ≤ sz data →
  wp SSTableOps.load_filter t w
    (λ _ t' w', same_files w w' ∧ ∃ flt, ref_filter data (t_footer t) = ROk flt ∧
       t' = SSTableOps.set_filter flt t)
    (λ e t' w', same_files w w' ∧ ref_error w (ref_filter data (t_footer t)) e)
    (same_files w).
Proof.
  intros Hr Hn Ho Hs0 Hle. pose proof (ref_filter_safe data (t_footer t)) as Hsafe.
  unfold SSTableOps.load_filter, ref_filter in *. wp_pure.
  destruct (Z.eqb_spec (ft_filter_size (t_footer t)) 0) as [E|E].
  { apply wp_ret. split; [done|]. exists None. split; [done|]. destruct t; cbn in *. by subst. }
  eapply wp_bind; [eapply (wp_table_read_at t _ w data); [done|lia|lia|lia]|..]; cbn beta; [| |done].
  2: { intros e t1 w1 _ (_ & Hs & Hq). split; [done|by left]. }
  intros d t1 w1 _ (-> & Hs & ->). destruct (BloomOps.decode _) as [flt|e|]; [| |done].
  - wp_pure. apply wp_modify. split; [done|]. by exists (Some flt).
  - apply wp_bind_err. split; [done|by right].
Qed.

(** A table as the constructor makes it, on an open file with these bytes. *)
Definition fresh (t : SSTable) (w : World) (data : bytes) : Prop :=
  readable t w data ∧ t_mapping t = None ∧ t_filter t = None ∧ t_min_key t = [] ∧ t_max_key t = [] ∧
  end_offset_ (t_file t) = sz data.

Lemma wp_load_start t w data : fresh t w data →
  wp SSTableOps.load_start t w
    (λ _ t' w', same_files w w' ∧ readable t' w' data ∧ t_file_size t' = sz data ∧
       (∃ f m n, t' = SSTableOps.set_file f (SSTableOps.set_mapping m (SSTableOps.set_file_size n t))) ∧
       kFooterSize ≤ sz data)
    (λ e t' w', same_files w w' ∧ ref_error w (load_ref (t_path t) data) e) (same_files w).
Proof.
  intros (Hr & Hm & _ & _ & _ & He). unfold SSTableOps.load_start. wp_pure. cbn [t_file_size SSTableOps.set_file_size t_path t_read_mode].
  rewrite He. unfold load_ref, ref_footer.
  destruct (sz data <? kFooterSize) eqn:Hlt; [apply wp_bind_fail; split; [done|by right]|].
  cbn [fail_when]. wp_pure. arith_hyps. destruct (t_read_mode t).
  - apply wp_ret. split_and!; [done|done|done| |done].
    exists (t_file t), (t_mapping t), (sz data). by destruct t.
  - eapply wp_mono; [apply (wp_map_file _ w data); [done|done|unfold kFooterSize in *; lia]|..]; cbn beta.
    + intros [] t' w' _ (Hs & ->). split_and!; [done| |done|by do 3 eexists|done].
      destruct Hr as [Hsz _]. by split.
    + intros e t' w' _ (Hs & Hq). split; [done|by left].
    + done.
Qed.

(** The step [m] computes [r], with the table [upd a] for the result [a]. *)
Definition loads {A} (m : M SSTable unit) (t : SSTable) (w : World) (r : result A) (upd : A → SSTable) : Prop :=
  wp m t w (λ _ t' w', same_files w w' ∧ ∃ a, r = ROk a ∧ t' = upd a)
    (λ e _ w', same_files w w' ∧ ref_error w r e) (same_files w).

Lemma loads_bind {A B} (m k : M SSTable unit) t w (r : result A) upd1 (r' : A → result B) upd :
  loads m t w r upd1 →
  (∀ a w', r = ROk a → same_files w w' → loads k (upd1 a) w' (r' a) upd) →
  loads (m;; k) t w (r ≫= r') upd.
Proof.
  intros Hm Hk. unfold loads. eapply wp_bind; [exact Hm|..]; cbn beta; [| |done].
  2: { intros e t' w' _ [Hs [Hq|He]]; (split; [done|]); [by left|right]. by rewrite He. }
  intros [] ? w1 Hc (Hs & a & Ha & ->). rewrite Ha. cbn [mbind result_bind].
  eapply wp_mono; [by apply Hk|..]; cbn beta.
  - intros [] t' w' _ (Hs' & b & Hb & ->). split; [by eapply MappedFileOps.same_files_trans|by eexists].
  - intros e t' w' _ [Hs' He]. split; [by eapply MappedFileOps.same_files_trans|]. by eapply ref_error_calm.
  - intros w' _ Hs'. by eapply MappedFileOps.same_files_trans.
Qed.

Lemma loads_map {A B} (m : M SSTable unit) t w (r : result A) upd1 (g : A → B) upd :
  loads m t w r upd1 → (∀ a, upd1 a = upd (g a)) → loads m t w (a ← r; ROk (g a)) upd.
Proof.
  intros Hm E. unfold loads. eapply wp_mono; [exact Hm|..]; cbn beta; [| |done].
  - intros [] t' w' _ (Hs & a & -> & ->). split; [done|]. exists (g a). by rewrite E.
  - intros e t' w' _ [Hs [Hq|He]]; (split; [done|]); [by left|right]. by rewrite He.
Qed.

Definition table_of (l : Loaded) (t : SSTable) : SSTable :=
  SSTableOps.set_min_key (ld_min l) (SSTableOps.set_max_key (ld_max l) (SSTableOps.set_filter (ld_filter l)
    (SSTableOps.set_index (ld_index l) (SSTableOps.set_footer (ld_footer l) t)))).

(** [load] after the mapping is up. *)
Lemma loads_rest t w data : readable t w data → t_file_size t = sz data → kFooterSize ≤ sz data →
  t_filter t = None → t_min_key t = [] → t_max_key t = [] →
  loads (t ← get;
         footer_bytes ← SSTableOps.read_at t (t_file_size t - kFooterSize) kFooterSize;
         footer ← liftR (decode_footer (bd_bytes footer_bytes));
         modify (SSTableOps.set_footer footer);;
         SSTableOps.load_index_block;; SSTableOps.load_filter;; SSTableOps.load_keys)
    t w (load_ref (t_path t) data) (λ l, table_of l t).
Proof.
  intros Hr Hn Hfoot Hflt Hmin Hmax. unfold load_ref, ref_footer.
  rewrite (proj2 (Z.ltb_ge _ _)) by done. cbn [fail_if mbind result_bind].
  unfold loads. wp_pure. rewrite Hn. unfold kFooterSize in *.
  eapply wp_bind; [eapply (wp_table_read_at t _ w data); [done|lia|lia|lia]|..]; cbn beta; [| |done].
  2: { intros e t1 w1 _ (_ & Hs & Hq). split; [done|by left]. }
  intros d ? w1 Hc (-> & Hs & ->).
  destruct (decode_footer _) as [ft|e|] eqn:Ef.
  3: { pose proof (decode_table_footer_safe (slice data (sz data - 44) 44)) as Hsafe. by rewrite Ef in Hsafe. }
  2: { apply wp_bind_err. split; [done|by right]. }
  apply decode_footer_range in Ef as (Ho & _ & Hfo & [Hfs _]). wp_pure. cbn [mbind result_bind].
  eapply wp_mono; [eapply (loads_bind _ _ _ w1 (ref_index (t_path t) data ft) _ _ (λ l, table_of l t))|..]; cbn beta.
  - apply (wp_load_index_block (SSTableOps.set_footer ft t) w1 data); [|done|done|done].
    by eapply (readable_same t w).
  - intros idx w2 Hidx Hs2. pose proof (ref_index_ok _ _ _ _ Hfoot Hidx) as (Hok & _ & Hfl & _).
    assert (Hr2 : readable t w2 data) by (eapply readable_same; [exact Hr|]; by eapply MappedFileOps.same_files_trans).
    eapply loads_bind; [by apply (wp_load_filter (SSTableOps.set_index idx (SSTableOps.set_footer ft t)) w2 data)|].
    intros flt w3 _ Hs3. eapply (loads_map _ _ _ _ _ (λ keys, mkLoaded ft idx flt keys.1 keys.2));
      [eapply (wp_load_keys _ w3 data); [|done|done|done]|done].
    by eapply (readable_same t w2).
  - intros [] t' w' _ (Hs' & ?). split; [by eapply MappedFileOps.same_files_trans|done].
  - intros e t' w' _ [Hs' He]. split; [by eapply MappedFileOps.same_files_trans|]. by eapply ref_error_calm.
  - intros w' _ Hs'. by eapply MappedFileOps.same_files_trans.
Qed.

(** [load] computes the reference, in either read mode. *)
Lemma wp_load t w data : fresh t w data →
  wp SSTableOps.load t w
    (λ _ t' w', same_files w w' ∧ readable t' w' data ∧ t_file_size t' = sz data ∧
       handle t' = handle t ∧ ∃ l, load_ref (t_path t) data = ROk l ∧ loaded_as t' l)
    (λ e t' w', same_files w w' ∧ ref_error w (load_ref (t_path t) data) e) (same_files w).
Proof.
  intros Hfresh. pose proof Hfresh as (_ & _ & Hflt & Hmin & Hmax & _). unfold SSTableOps.load.
  eapply wp_bind; [by apply wp_load_start|..]; cbn beta; [|done|done].
  intros [] t1 w1 Hc1 (Hs1 & Hr1 & Hn1 & (lf & m & n & Et1) & Hfoot).
  assert (Hh1 : handle t1 = handle t) by (by subst). rewrite <-Hh1.
  assert (Hp1 : t_path t1 = t_path t) by (by subst). rewrite <-Hp1.
  eapply wp_mono; [apply (loads_rest t1 w1 data); by subst|..]; cbn beta.
  - intros [] t' w' _ (Hs & l & Hl & ->). split_and!; [by eapply MappedFileOps.same_files_trans| |done|done|].
    + by eapply (readable_same t1 w1).
    + by exists l.
  - intros e t' w' _ [Hs He]. split; [by eapply MappedFileOps.same_files_trans|]. by eapply ref_error_calm.
  - intros w' _ Hs. by eapply MappedFileOps.same_files_trans.
Qed.

(** Opening a file that exists. *)
Lemma wp_table_open {S} path id stats mode bloom (s : S) w f : w_files w !! path = Some f →
  sz (f_data f) ≤ INT64_MAX →
  wp (SSTableOps.open path id stats mode bloom) s w
    (λ t s' w', s' = s ∧ same_files w w' ∧ readable t w' (f_data f) ∧ t_file_size t = sz (f_data f) ∧
       handle t = (path, id, stats, mode, bloom) ∧ ∃ l, load_ref path (f_data f) = ROk l ∧ loaded_as t l)
    (λ e s' w', s' = s ∧ same_files w w' ∧ ref_error w (load_ref path (f_data f)) e) (same_files w).
Proof.
  intros Hf Hsz. unfold SSTableOps.open. wp_call wp_exists.
  intros present ? w1 Hc1 (-> & Hs1 & Hp). rewrite Hf, bool_decide_eq_true_2 in Hp by eauto.
  destruct Hp as [->|[-> Hq]]; cbn [negb]; [|apply wp_fail; split_and!; [done|done|by left]].
  assert (Hf1 : w_files w1 !! path = Some f) by (by rewrite (proj1 Hs1)).
  assert (Eo : LogFileOps.opened_file path (w_files w1) = f) by (unfold LogFileOps.opened_file; by rewrite Hf1).
  assert (Ed : LogFileOps.opened path (w_files w1) = w_files w1) by (by eapply LogFileOps.opened_existing).
  eapply wp_bind; [apply (LogFileOps.wp_open path Never s w1)|..]; cbn beta; rewrite ?Eo, ?Ed.
  - unfold INT64_MAX, UINT64_MAX in *. lia.
  - intros lf ? w2 Hc2 (-> & Hs2 & ->). apply (MappedFileOps.same_files_trans _ _ _ Hs1) in Hs2.
    eapply wp_bind_local; [apply (wp_load _ w2 (f_data f))|..]; cbn beta.
    + split_and!; try done. cbn. split; [done|]. split_and!; [done|done|]. exists f. by rewrite (proj1 Hs2).
    + intros [] t w3 _ (Hs3 & Hr & Hn & Hh & l & Hl & Hld). apply wp_ret. cbn in *.
      split_and!; [done|by eapply MappedFileOps.same_files_trans|done|done|done|by exists l].
    + intros e t w3 _ [Hs3 He]. split_and!; [done|by eapply MappedFileOps.same_files_trans|].
      eapply ref_error_calm; [|exact He]. by etrans.
    + intros w3 _ Hs3. by eapply MappedFileOps.same_files_trans.
  - intros e ? w2 _ (-> & Hq & He & Hs2). split_and!; [done| |left; split; [eauto with wp|done]].
    destruct Hs2 as [Hs2|Hs2]; by eapply MappedFileOps.same_files_trans.
  - intros w2 _ [Hs2|Hs2]; by eapply MappedFileOps.same_files_trans.
Qed.

(** ** Lookups against the reference *)

Definition ref_hit (key : bytes) (entries : list BlockEntry) : Lookup :=
  match entries !! lower_bound (λ entry, ltb (be_key entry) key) entries with
  | None => NotPresent
  | Some hit =>
      if negb (key_eqb (be_key hit) key) then NotPresent
      else if be_tombstone hit then Deleted else Found (be_value hit)
  end.

Definition lookup_ref (path data : bytes) (bloom : bool) (l : Loaded) (key : bytes) : result Lookup :=
  maybe ← probe_ref bloom (ld_filter l) key;
  match ld_index l !! lower_bound (λ e, ltb (ie_key e) key) (ld_index l) with
  | None => ROk NotPresent
  | Some e =>
      if ltb key (ld_min l) || ltb (ld_max l) key || negb maybe then ROk NotPresent
      else
        block ← get_block path data e;
        entries ← parse_block block;
        ROk (ref_hit key entries)
  end.

Lemma lookup_ref_safe path data bloom l key : index_ok (sz data) (ld_index l) →
  (∀ flt, ld_filter l = Some flt → ∀ key, ∃ b, BloomOps.maybe_contains key flt = ROk b) →
  safe Corruption (lookup_ref path data bloom l key).
Proof.
  intros [Hidx _] Hflt. unfold lookup_ref.
  assert (∃ r, probe_ref bloom (ld_filter l) key = ROk r) as [r ->].
  { unfold probe_ref. destruct (ld_filter l) as [flt|]; [|by eexists]. destruct bloom; [|by eexists]. by apply Hflt. }
  cbn [mbind result_bind]. case_match eqn:Ei; [|done]. case_match; [done|].
  rewrite Forall_forall in Hidx. apply list_elem_of_lookup_2, Hidx in Ei. safe; auto using get_block_safe, parse_block_safe.
Qed.

Lemma wp_lookup_ref t key s w data l : readable t w data → loaded_as t l → index_ok (sz data) (ld_index l) →
  (∀ flt, ld_filter l = Some flt → ∃ b, BloomOps.maybe_contains key flt = ROk b) → in_range s →
  wp (SSTableOps.lookup t key) s w
    (λ r s' w', same_files w w' ∧ one_lookup s s' ∧
       lookup_ref (t_path t) data (t_bloom_enabled t) l key = ROk r)
    (λ e s' w', same_files w w' ∧ ref_error w (lookup_ref (t_path t) data (t_bloom_enabled t) l key) e)
    (same_files w).
Proof.
  intros Hr (_ & Hi & Hf & Hmin & Hmax) [Hidx _] Hflt Hs. rewrite <-Hi in Hidx. rewrite <-Hf in Hflt.
  unfold lookup_ref. rewrite <-Hi, <-Hf, <-Hmin, <-Hmax.
  assert (∃ r, probe_ref (t_bloom_enabled t) (t_filter t) key = ROk r) as [r Hm].
  { unfold probe_ref. destruct (t_filter t) as [flt|]; [|by eexists].
    destruct (t_bloom_enabled t); [|by eexists]. by apply Hflt. }
  rewrite Hm. cbn [mbind result_bind].
  eapply (wp_lookup_steps t key s w r); [done|done|..].
  - intros s' _ Hone Hc. split_and!; [done|done|].
    destruct (t_index t !! _) as [e|] eqn:Ee; [|done]. apply lookup_lt_Some in Ee.
    destruct Hc as [Hc|[Hc|[Hc|[->|Hc]]]]; [rewrite Hc in Ee; simpl in Ee; lia| | | |lia].
    + by rewrite Hc.
    + by rewrite Hc, orb_true_r.
    + by rewrite !orb_true_r.
  - intros s' _ Hone [e He]%lookup_lt_is_Some -> -> ->. rewrite He. cbn [orb negb].
    assert (Hin : in_file (sz data) e).
    { rewrite Forall_forall in Hidx. apply Hidx. by eapply list_elem_of_lookup_2. }
    eapply wp_bind; [by eapply (wp_read_block_raw t s' w data _ e)|..]; cbn beta; [| |done].
    2: { intros err ? w1 _ (-> & Hfs & [Hq| ->]); (split; [done|]); [by left|by right]. }
    intros d ? w1 _ (-> & Hfs & ->). cbn [mbind result_bind].
    destruct (parse_block (bd_bytes d)) as [es|err|] eqn:Ep.
    + wp_pure. cbn [mbind result_bind]. unfold ref_hit.
      destruct (es !! _) as [hit|]; [|by apply wp_ret]. destruct (negb _); [by apply wp_ret|].
      destruct (be_tombstone hit); by apply wp_ret.
    + apply wp_bind_err. split; [done|by right].
    + pose proof (parse_block_safe (bd_bytes d)) as Hsafe. by rewrite Ep in Hsafe.
Qed.

(** ** A file a builder wrote *)

Definition loaded_table (bits : Z) (bs : list (list entry)) : Loaded :=
  mkLoaded (table_footer bits bs) (index_from 0 bs)
    (Some (BloomOps.filter_of (filter_builder bits (concat bs))))
    (first_key (concat bs)) (last_key (concat bs)).

Lemma ref_footer_table path bits bs : wf_blocks bits bs →
  ref_footer path (table_bytes bits bs) = ROk (table_footer bits bs).
Proof.
  intros Hwf. unfold ref_footer. pose proof (table_bytes_sizes bits bs) as Hsz.
  pose proof (sz_nonneg (data_region bs)). pose proof (sz_nonneg (index_block bs)).
  pose proof (sz_nonneg (filter_block bits (concat bs))).
  unfold kFooterSize. rewrite (proj2 (Z.ltb_ge _ _)) by lia. cbn [fail_if mbind result_bind].
  replace (slice (table_bytes bits bs) (sz (table_bytes bits bs) - 44) 44) with (encode_footer (table_footer bits bs)).
  - by apply decode_encoded_table_footer, table_footer_ok.
  - symmetry. unfold table_bytes at 1. rewrite !app_assoc. apply slice_suffix.
    + rewrite !sz_app. lia.
    + by rewrite sz_encode_table_footer.
Qed.

Lemma ref_index_table path bits bs : wf_blocks bits bs →
  ref_index path (table_bytes bits bs) (table_footer bits bs) = ROk (index_from 0 bs).
Proof.
  intros Hwf. pose proof Hwf as [Hs Hb Hi Hsz]. rewrite table_bytes_sizes in Hsz.
  pose proof (sz_finish (filter_builder bits (concat bs))) as Hf. fold (filter_block bits (concat bs)) in Hf.
  pose proof (sz_nonneg (data_region bs)). unfold ref_index, table_footer. cbn [ft_index_offset ft_index_size
    ft_filter_offset ft_filter_size]. rewrite table_bytes_sizes. unfold kFooterSize. cbv zeta.
  assert (Hib : sz (index_block bs) = sz (encode_index (index_from 0 bs)) + 4)
    by (unfold index_block; by rewrite sz_app, sz_le32).
  assert (Hfits : Forall index_fits (index_from 0 bs)).
  { apply index_from_fits; [done|lia|]. pose proof (sz_nonneg (index_block bs)).
    unfold INT64_MAX, UINT64_MAX in *. lia. }
  pose proof (sz_encode_index (index_from 0 bs)) as Hn. pose proof (sz_nonneg (index_from 0 bs)).
  unfold kIndexHeaderSize, kIndexEntryFixedSize in Hn.
  rewrite !(proj2 (Z.ltb_ge _ _)) by (unfold kIndexHeaderSize, kBlockTrailerSize; lia).
  cbn [orb fail_if mbind result_bind].
  replace (slice (table_bytes bits bs) _ (sz (index_block bs))) with (index_block bs).
  2: { symmetry. unfold table_bytes. rewrite app_assoc. apply slice_mid; [by rewrite sz_app|done]. }
  unfold kBlockTrailerSize. rewrite Hib. replace (_ + 4 - 4) with (sz (encode_index (index_from 0 bs))) by lia.
  unfold index_block. rewrite <-(app_nil_r (le32 _)), (get_u32_app _ []) by (done || apply record.crc32_of_range).
  cbn [mbind result_bind]. rewrite slice_prefix by done. rewrite Z.eqb_refl. cbn [negb fail_if mbind result_bind].
  apply load_encoded_index; [done| |lia]. by apply (index_from_ok 0).
Qed.

Lemma ref_filter_table bits bs :
  ref_filter (table_bytes bits bs) (table_footer bits bs) =
    ROk (Some (BloomOps.filter_of (filter_builder bits (concat bs)))).
Proof.
  pose proof (sz_finish (filter_builder bits (concat bs))) as Hf. fold (filter_block bits (concat bs)) in Hf.
  unfold ref_filter, table_footer. cbn [ft_filter_offset ft_filter_size].
  rewrite (proj2 (Z.eqb_neq _ _)) by lia.
  replace (slice _ _ _) with (filter_block bits (concat bs)).
  - unfold filter_block. by rewrite BloomOps.decode_finish.
  - symmetry. by apply slice_mid.
Qed.

Lemma last_key_snoc bs b : b ≠ [] → last_key (concat (bs ++ [b])) = last_key b.
Proof.
  intros Hb. destruct b as [|x b _] using rev_ind; [done|].
  rewrite concat_app. simpl. rewrite app_nil_r, app_assoc. unfold last_key. by rewrite !last_snoc.
Qed.

Lemma last_index off bs back : Forall block_fits bs → last (index_from off bs) = Some back →
  ie_key back = last_key (concat bs).
Proof.
  intros Hb. destruct bs as [|b bs _] using rev_ind; [done|].
  rewrite index_from_app. simpl. rewrite last_snoc. intros [= <-]. cbn. symmetry. apply last_key_snoc.
  by apply Forall_app in Hb as [_ [[? _] _]%Forall_cons].
Qed.

Lemma ref_keys_table path bits bs : wf_blocks bits bs →
  ref_keys path (table_bytes bits bs) (table_footer bits bs) (index_from 0 bs) =
    ROk (first_key (concat bs), last_key (concat bs)).
Proof.
  intros [_ Hb _ _]. unfold ref_keys. destruct bs as [|b bs]; [done|].
  destruct (last (index_from 0 (b :: bs))) as [back|] eqn:El.
  2: { by apply last_None in El. }
  rewrite (last_index _ _ _ Hb El). cbn [index_from head]. unfold table_bytes.
  rewrite (get_block_held path [] b bs). cbn [mbind result_bind].
  apply Forall_cons in Hb as [(Hne & Hfit & _) _]. rewrite parse_enc_block by done.
  cbn [mbind result_bind]. by destruct b as [|e b].
Qed.

Lemma load_ref_table path bits bs : wf_blocks bits bs →
  load_ref path (table_bytes bits bs) = ROk (loaded_table bits bs).
Proof.
  intros Hwf. unfold load_ref. rewrite ref_footer_table by done. cbn [mbind result_bind].
  rewrite ref_index_table by done. cbn [mbind result_bind].
  rewrite ref_filter_table. cbn [mbind result_bind]. by rewrite ref_keys_table.
Qed.

(** A table opened from such a file holds its blocks. *)
Lemma holds_loaded t w bits bs : wf_blocks bits bs → readable t w (table_bytes bits bs) →
  t_file_size t = sz (table_bytes bits bs) → loaded_as t (loaded_table bits bs) → holds_table t w bs.
Proof.
  intros Hwf Hr Hn (Hfo & Hidx & Hflt & Hmin & Hmax). pose proof Hwf as [Hs Hb _ Hsz]. split; try done.
  - by do 2 eexists.
  - rewrite Hflt. intros flt [= <-] key.
    destruct (BloomOps.decode_answers _ _ key (BloomOps.decode_finish (filter_builder bits (concat bs)))) as [r Hm].
    exists r. split; [done|]. intros Hin. rewrite BloomOps.filter_contains in Hm; [by injection Hm|].
    unfold filter_builder. rewrite BloomOps.hashes_add. apply elem_of_app. right.
    by apply list_elem_of_fmap_2.
  - by rewrite Hfo.
  - rewrite Hn. split; [|done]. unfold table_bytes. rewrite sz_app.
    match goal with |- _ ≤ _ + sz ?r => pose proof (sz_nonneg r) end. lia.
Qed.

End Open.
