(* ===== verification/SSTableProps.v ===== *)
(** What a sorted-table file promises its readers.

    On any bytes at all, opening and searching stays inside them and ends in an
    answer or in a reported error; the two read modes answer alike; and on a file a
    builder wrote the answer is the stored entry, with and without the filter. *)

From S2P Require Import Prelude Status World Wp Encoding Record LogFile MappedFile Bloom SortedMap Memtable SSTableFormat SSTableLayout LsmStats SSTable SSTableRead SSTableOpen SSTableBuild.
Import sstable.

#[local] Opaque parse_block decode_footer load_index BloomOps.decode BloomOps.maybe_contains get_block.

Section Props.
Context `{Platform}.

(** A reader: open the file and search it. *)
Definition find_in_file (path : bytes) (mode : ReadMode) (bloom : bool) (key : bytes) : M LsmStats Lookup :=
  t ← SSTableOps.open path 0 true mode bloom;
  SSTableOps.lookup t key.

Definition find_ref (path data : bytes) (bloom : bool) (key : bytes) : result Lookup :=
  l ← load_ref path data; lookup_ref path data bloom l key.

Lemma handle_fields t path id stats mode bloom : handle t = (path, id, stats, mode, bloom) →
  t_path t = path ∧ t_id t = id ∧ t_stats t = stats ∧ t_read_mode t = mode ∧ t_bloom_enabled t = bloom.
Proof. unfold handle. by intros [= -> -> -> -> ->]. Qed.

(** Reading a file computes the reference. *)
Lemma wp_find_in_file path mode bloom key s w f : w_files w !! path = Some f →
  sz (f_data f) ≤ INT64_MAX → in_range s →
  wp (find_in_file path mode bloom key) s w
    (λ r s' w', same_files w w' ∧ one_lookup s s' ∧ find_ref path (f_data f) bloom key = ROk r)
    (λ e _ w', same_files w w' ∧ ref_error w (find_ref path (f_data f) bloom key) e)
    (same_files w).
Proof.
  intros Hf Hsz Hs. unfold find_in_file.
  eapply wp_bind; [by eapply wp_table_open|..]; cbn beta.
  - intros t s1 w1 Hc1 (-> & Hs1 & Hr & _ & Hh & l & Hl & Hld). apply handle_fields in Hh as (Hp & _ & _ & _ & Hb).
    destruct (load_ref_sound _ _ _ Hl) as [Hidx Hflt].
    unfold find_ref. rewrite Hl. cbn [mbind result_bind].
    subst path bloom.
    eapply wp_mono; [eapply (wp_lookup_ref t key s w1 (f_data f) l)|..]; try done; cbn beta; eauto.
    + intros r s' w' _ (Hs2 & Ho & ->). split_and!; [by eapply MappedFileOps.same_files_trans|done|done].
    + intros e s' w' _ (Hs2 & He). split; [by eapply MappedFileOps.same_files_trans|]. by eapply ref_error_calm.
    + intros w' _ Hs2. by eapply MappedFileOps.same_files_trans.
  - intros e s1 w1 _ (-> & Hs1 & He). split; [done|]. destruct He as [He|He]; [by left|]. right.
    unfold find_ref. by rewrite He.
  - done.
Qed.

(** C32: Reading a sorted table never leaves its bytes.  Whatever a file contains, and
    whatever short reads, failures and crashes the reads meet, opening it and searching
    it for a key ends with an answer or with a reported error, Corruption or, when a
    call failed, IOError; at most one data block is read; and no file changes. *)
Theorem sstable_safe_on_any_bytes path mode bloom key s w f : w_files w !! path = Some f →
  sz (f_data f) ≤ INT64_MAX → in_range s →
  wp (find_in_file path mode bloom key) s w
    (λ _ s' w', same_files w w' ∧ one_lookup s s')
    (λ e _ w', same_files w w' ∧ read_error w e)
    (same_files w).
Proof.
  intros Hf Hsz Hs. eapply wp_mono; [by eapply wp_find_in_file|..]; cbn beta; [|..|done].
  - intros r s' w' _ (? & ? & _). done.
  - intros e s' w' _ (Hs' & [[? ?]|He]); split; try done; [by right|]. left.
    assert (Hsafe : safe Corruption (find_ref path (f_data f) bloom key)).
    { unfold find_ref. pose proof (load_ref_safe path (f_data f)) as Hl.
      destruct (load_ref path (f_data f)) as [l|e'|] eqn:El; cbn [mbind result_bind]; [|done|done].
      destruct (load_ref_sound _ _ _ El) as [Hidx Hflt]. by apply lookup_ref_safe. }
    by rewrite He in Hsafe.
Qed.

(** The value or the status a call ends with. *)
Definition answer {S A} (o : out S A) : option (A + Status) :=
  match o with Ok a _ _ => Some (inl a) | Err e _ _ => Some (inr e) | _ => None end.

Definition of_result {A} (r : result A) : option (A + Status) :=
  match r with ROk a => Some (inl a) | RErr e => Some (inr e) | Stuck => None end.

Lemma answer_find path mode bloom key s w f : w_files w !! path = Some f → sz (f_data f) ≤ INT64_MAX →
  in_range s → quiet w →
  answer (find_in_file path mode bloom key s w) = of_result (find_ref path (f_data f) bloom key).
Proof.
  intros Hf Hsz Hs Hq. pose proof (wp_find_in_file path mode bloom key s w f Hf Hsz Hs) as Hwp. unfold wp in Hwp.
  destruct (find_in_file path mode bloom key s w) as [r s' w'|e s' w'|w'|]; cbn.
  - by destruct Hwp as (_ & _ & _ & ->).
  - destruct Hwp as (_ & _ & [[Hr _]|He]); [by apply quiet_reliable in Hq|]. by rewrite He.
  - by destruct Hwp.
  - done.
Qed.

(** C33: The two read modes are equivalent.  On any file, well formed or not, a search
    through the memory mapping gives the same answer, or the same error, as a search
    through positional reads. *)
Theorem read_modes_agree path bloom key s w f : w_files w !! path = Some f → sz (f_data f) ≤ INT64_MAX →
  in_range s → quiet w →
  answer (find_in_file path Mmap bloom key s w) = answer (find_in_file path Pread bloom key s w).
Proof. intros. by erewrite !answer_find. Qed.

(** C30: A search of a file a builder wrote gives the entry stored under the key: its
    value, Deleted for a tombstone, NotPresent without an entry.  The filter, the read
    mode and short reads make no difference. *)
Theorem sstable_lookup_correct path mode bloom key s w f bits bs : w_files w !! path = Some f →
  wf_blocks bits bs → f_data f = table_bytes bits bs → in_range s →
  wp (find_in_file path mode bloom key) s w
    (λ r _ w', same_files w w' ∧ r = lookup_result (as_map (concat bs) !! key))
    (λ e _ w', same_files w w' ∧ ¬ reliable w ∧ code_ e = IOError)
    (same_files w).
Proof.
  intros Hf Hwf Hd Hs. unfold find_in_file.
  eapply wp_bind; [eapply wp_table_open; [exact Hf|rewrite Hd; apply Hwf]|..]; cbn beta; rewrite ?Hd, ?load_ref_table by done.
  - intros t s1 w1 Hc1 (-> & Hs1 & Hr & Hn & Hh & l & [= <-] & Hld).
    eapply wp_mono; [eapply (wp_lookup t key s w1 bs); [by eapply holds_loaded|done]|..]; cbn beta.
    + intros r s' w' _ (Hs2 & _ & _ & ->). split; [by eapply MappedFileOps.same_files_trans|done].
    + intros e s' w' _ (Hs2 & Hq & ?). split; [by eapply MappedFileOps.same_files_trans|]. eauto with wp.
    + intros w' _ Hs2. by eapply MappedFileOps.same_files_trans.
  - intros e s1 w1 _ (-> & Hs1 & [He|He]); done.
  - done.
Qed.

End Props.

(** ** A concrete table *)

Definition sample_blocks : list (list entry) :=
  [[(lit "apple", mkMemEntry (lit "red") false); (lit "plum", mkMemEntry [] true)];
   [(lit "quince", mkMemEntry (lit "yellow") false)]].

Definition sample_table : file :=
  mkFile (@table_bytes reference_platform 10 sample_blocks) 0.

Definition sample_disk : World := mkWorld {[ lit "000001.sst" := sample_table ]} [] [].

Definition no_stats : LsmStats := λ _, 0.

Lemma no_stats_range : in_range no_stats.
Proof. by intros c. Qed.

Lemma sample_blocks_wf : @wf_blocks reference_platform 10 sample_blocks.
Proof.
  split.
  - by repeat constructor.
  - repeat constructor; try done; vm_compute; by repeat split.
  - by vm_compute.
  - by vm_compute.
Qed.

Lemma sstable_safe_on_any_bytes_witness :
  wp (@find_in_file reference_platform (lit "000001.sst") Mmap true (lit "apple")) no_stats sample_disk
    (λ _ s' w', same_files sample_disk w' ∧ one_lookup no_stats s')
    (λ e _ w', same_files sample_disk w' ∧ read_error sample_disk e)
    (same_files sample_disk).
Proof.
  apply (@sstable_safe_on_any_bytes reference_platform _ Mmap true _ no_stats sample_disk sample_table);
    [by vm_compute|by vm_compute|exact no_stats_range].
Defined.

Lemma read_modes_agree_witness :
  answer (@find_in_file reference_platform (lit "000001.sst") Mmap true (lit "apple") no_stats sample_disk) =
  answer (@find_in_file reference_platform (lit "000001.sst") Pread true (lit "apple") no_stats sample_disk) ∧
  answer (@find_in_file reference_platform (lit "000001.sst") Pread true (lit "apple") no_stats sample_disk) =
    Some (inl (Found (lit "red"))).
Proof.
  split; [|by vm_compute].
  apply (@read_modes_agree reference_platform _ true _ no_stats sample_disk sample_table);
    [by vm_compute|by vm_compute|exact no_stats_range|done].
Defined.

Lemma sstable_lookup_correct_witness :
  wp (@find_in_file reference_platform (lit "000001.sst") Pread true (lit "plum")) no_stats sample_disk
    (λ r _ w', same_files sample_disk w' ∧ r = Deleted)
    (λ e _ w', same_files sample_disk w' ∧ ¬ reliable sample_disk ∧ code_ e = IOError)
    (same_files sample_disk).
Proof.
  apply (@sstable_lookup_correct reference_platform _ Pread true (lit "plum") no_stats sample_disk sample_table 10 sample_blocks);
    [by vm_compute|exact sample_blocks_wf|done|exact no_stats_range].
Defined.
