(* ===== verification/Iterator.v ===== *)
(** Merging cursors: [src/lsm_iterator.hpp] and [src/lsm_iterator.cpp].

    The cursors of a scan and of a compaction: a source per memtable and per table,
    and the merge that gives every key once, from its newest source.  The state of a
    method is the object together with the counters it bumps. *)

From S2P Require Import Prelude Status World Wp SortedMap Memtable SSTableFormat LsmStats SSTable.
Import sstable.

(** * Sources *)

(** [MemtableSource]: the entries from [it_] to [end_it_]. *)
Record MemtableSource : Type := mkMemtableSource { ms_rest : list (bytes * MemEntry); ms_upper : bytes }.

(** [TableSource]; [entries_] are the views into the current block. *)
Record TableSource : Type := mkTableSource {
  ts_table : SSTable;
  ts_block_index : nat;
  ts_entries : list BlockEntry;
  ts_entry_index : nat;
  ts_upper : bytes;
  ts_exhausted : bool;
}.

Inductive EntrySource : Type :=
| FromMemtable (s : MemtableSource)
| FromTable (s : TableSource).

Module IteratorOps.
Section IteratorOps.
Context `{Platform}.

(** [MemtableSource::MemtableSource]. *)
Definition memtable_source (table : Memtable) (begin_ end_ : bytes) : EntrySource :=
  FromMemtable (mkMemtableSource
    (match begin_ with [] => map_ table | _ => map_lower_bound begin_ (map_ table) end) end_).

Definition ts_set_block (index : nat) (entries : list BlockEntry) (s : TableSource) : TableSource :=
  mkTableSource (ts_table s) index entries 0 (ts_upper s) (match entries with [] => true | _ => false end).
Definition ts_set_entry (i : nat) (s : TableSource) : TableSource :=
  mkTableSource (ts_table s) (ts_block_index s) (ts_entries s) i (ts_upper s) (ts_exhausted s).
Definition ts_set_exhausted (s : TableSource) : TableSource :=
  mkTableSource (ts_table s) (ts_block_index s) (ts_entries s) (ts_entry_index s) (ts_upper s) true.

(** A method of a source changes the counters and the source. *)
Definition on_stats {T A : Type} (m : M LsmStats A) : M (LsmStats * T) A := zoom fst (λ st s, (st, s.2)) m.
Definition modify_source (f : TableSource → TableSource) : M (LsmStats * TableSource) unit :=
  modify (λ s, (s.1, f s.2)).

(** [entries_[entry_index_]]. *)
Definition current_entry (s : TableSource) : result BlockEntry :=
  match ts_entries s !! ts_entry_index s with Some e => ROk e | None => Stuck end.

(** [TableSource::load_block]. *)
Definition load_block (index : nat) : M (LsmStats * TableSource) unit :=
  s ← get;
  block ← on_stats (SSTableOps.read_block (ts_table s.2) index);
  entries ← liftR (parse_block (bd_bytes block));
  modify_source (ts_set_block index entries).

(** [TableSource::apply_upper_bound]. *)
Definition apply_upper_bound : M (LsmStats * TableSource) unit :=
  s ← get;
  if ts_exhausted s.2 || (sz (ts_upper s.2) =? 0) then mret tt
  else
    e ← liftR (current_entry s.2);
    if leb (ts_upper s.2) (be_key e) then modify_source ts_set_exhausted else mret tt.

(** [TableSource::create], after the object has been made. *)
Definition create_at (begin_ : bytes) : M (LsmStats * TableSource) unit :=
  s ← get;
  let index_ := t_index (ts_table s.2) in
  match index_ with
  | [] => mret tt
  | _ =>
      let first_block := if sz begin_ =? 0 then O
                         else lower_bound (λ entry, ltb (ie_key entry) begin_) index_ in
      if (length index_ <=? first_block)%nat then mret tt
      else
        load_block first_block;;
        if sz begin_ =? 0 then apply_upper_bound
        else
          modify_source (λ s, ts_set_entry (lower_bound (λ entry, ltb (be_key entry) begin_) (ts_entries s)) s);;
          s ← get;
          if (length (ts_entries s.2) <=? ts_entry_index s.2)%nat then
            if (length index_ <=? ts_block_index s.2 + 1)%nat then modify_source ts_set_exhausted
            else load_block (ts_block_index s.2 + 1);; apply_upper_bound
          else apply_upper_bound
  end.

(** [TableSource::create]. *)
Definition create (table : SSTable) (begin_ end_ : bytes) : M LsmStats EntrySource := λ st w,
  match create_at begin_ (st, mkTableSource table 0 [] 0 end_ true) w with
  | Ok _ s w' => Ok (FromTable s.2) s.1 w'
  | Err e s w' => Err e s.1 w'
  | Died w' => Died w'
  | MStuck => MStuck
  end.

(** [TableSource::advance]. *)
Definition advance_table : M (LsmStats * TableSource) unit :=
  s ← get;
  if ts_exhausted s.2 then mret tt
  else
    modify_source (λ s, ts_set_entry (S (ts_entry_index s)) s);;
    s ← get;
    if (length (ts_entries s.2) <=? ts_entry_index s.2)%nat then
      if (length (t_index (ts_table s.2)) <=? ts_block_index s.2 + 1)%nat then modify_source ts_set_exhausted
      else load_block (ts_block_index s.2 + 1);; apply_upper_bound
    else apply_upper_bound.

(** The virtual functions of [EntrySource]. *)
Definition source_valid (s : EntrySource) : bool :=
  match s with
  | FromMemtable s =>
      match ms_rest s with
      | [] => false
      | (k, _) :: _ => (sz (ms_upper s) =? 0) || ltb k (ms_upper s)
      end
  | FromTable s => negb (ts_exhausted s)
  end.

(** Key, value and tombstone flag of the current entry. *)
Definition source_entry (s : EntrySource) : result BlockEntry :=
  match s with
  | FromMemtable s =>
      match ms_rest s with
      | [] => Stuck
      | (k, e) :: _ => ROk (mkBlockEntry k (me_value e) (me_tombstone e))
      end
  | FromTable s => current_entry s
  end.

Definition source_advance : M (LsmStats * EntrySource) unit := λ s w,
  match s.2 with
  | FromMemtable ms =>
      match ms_rest ms with
      | [] => MStuck
      | _ :: rest => Ok tt (s.1, FromMemtable (mkMemtableSource rest (ms_upper ms))) w
      end
  | FromTable ts =>
      match advance_table (s.1, ts) w with
      | Ok _ s' w' => Ok tt (s'.1, FromTable s'.2) w'
      | Err e s' w' => Err e (s'.1, FromTable s'.2) w'
      | Died w' => Died w'
      | MStuck => MStuck
      end
  end.

End IteratorOps.
End IteratorOps.

(** * The merge *)

Inductive Tombstones : Type := Skip | Emit.

Record MergingIterator : Type := mkMerging {
  mi_sources : list EntrySource;   (* newest first *)
  mi_mode : Tombstones;
  mi_key : bytes;
  mi_value : bytes;
  mi_tombstone : bool;
  mi_valid : bool;
  mi_status : Status;
}.

Module MergingOps.
Section MergingOps.
Context `{Platform}.
Import IteratorOps.

Abbreviation IM := (M (LsmStats * MergingIterator)).

(** [MergingIterator::MergingIterator]. *)
Definition new_merging (sources : list EntrySource) (mode : Tombstones) : MergingIterator :=
  mkMerging sources mode [] [] false false ok.

Definition mi_set_sources (l : list EntrySource) (it : MergingIterator) : MergingIterator :=
  mkMerging l (mi_mode it) (mi_key it) (mi_value it) (mi_tombstone it) (mi_valid it) (mi_status it).
Definition mi_set_row (key value : bytes) (it : MergingIterator) : MergingIterator :=
  mkMerging (mi_sources it) (mi_mode it) key value (mi_tombstone it) (mi_valid it) (mi_status it).
Definition mi_set_valid (b : bool) (it : MergingIterator) : MergingIterator :=
  mkMerging (mi_sources it) (mi_mode it) (mi_key it) (mi_value it) (mi_tombstone it) b (mi_status it).
Definition mi_set_tombstone (b : bool) (it : MergingIterator) : MergingIterator :=
  mkMerging (mi_sources it) (mi_mode it) (mi_key it) (mi_value it) b (mi_valid it) (mi_status it).
Definition mi_set_status (e : Status) (it : MergingIterator) : MergingIterator :=
  mkMerging (mi_sources it) (mi_mode it) (mi_key it) (mi_value it) (mi_tombstone it) (mi_valid it) e.

Definition modify_it (f : MergingIterator → MergingIterator) : IM unit := modify (λ s, (s.1, f s.2)).

(** The first loop: the newest of the sources on the smallest key. *)
Fixpoint find_winner (sources : list EntrySource) (winner : option EntrySource) : result (option EntrySource) :=
  match sources with
  | [] => ROk winner
  | source :: rest =>
      if negb (source_valid source) then find_winner rest winner
      else
        match winner with
        | None => find_winner rest (Some source)
        | Some best =>
            k ← source_entry source;
            kb ← source_entry best;
            find_winner rest (if ltb (be_key k) (be_key kb) then Some source else winner)
        end
  end.

Definition no_source : EntrySource := FromMemtable (mkMemtableSource [] []).

(** A method of the source at a position. *)
Definition on_source {A : Type} (i : nat) (m : M (LsmStats * EntrySource) A) : IM A :=
  zoom (λ s, (s.1, default no_source (mi_sources s.2 !! i)))
       (λ t s, (t.1, mi_set_sources (<[i := t.2]> (mi_sources s.2)) s.2)) m.

(** The second loop, over the positions from [i]: every source on the key moves on. *)
Fixpoint advance_all (n i : nat) : IM unit :=
  match n with
  | O => mret tt
  | S n =>
      s ← get;
      match mi_sources s.2 !! i with
      | None => mret tt
      | Some source =>
          (if source_valid source then
             e ← liftR (source_entry source);
             if key_eqb (be_key e) (mi_key s.2) then
               advanced ← attempt (on_source i source_advance);
               match advanced with
               | inl _ => mret tt
               | inr e => modify_it (mi_set_status e);; fail e
               end
             else mret tt
           else mret tt);;
          advance_all n (S i)
      end
  end.

(** [MergingIterator::find_next_live], with a bound on the rounds of its loop. *)
Fixpoint find_next_live_loop (fuel : nat) : IM unit :=
  match fuel with
  | O => stuck
  | S fuel =>
      s ← get;
      winner ← liftR (find_winner (mi_sources s.2) None);
      match winner with
      | None => mret tt
      | Some winner =>
          e ← liftR (source_entry winner);
          let deleted := be_tombstone e in
          modify_it (mi_set_row (be_key e) (if deleted then [] else be_value e));;
          advance_all (length (mi_sources s.2)) 0;;
          if negb deleted || match mi_mode s.2 with Emit => true | Skip => false end then
            modify_it (mi_set_tombstone deleted);; modify_it (mi_set_valid true)
          else find_next_live_loop fuel
      end
  end.

(** More rounds than there are entries: one per entry of a memtable, and every entry
    of a table takes up bytes of its file. *)
Definition source_bound (s : EntrySource) : nat :=
  match s with
  | FromMemtable s => length (ms_rest s)
  | FromTable s => Z.to_nat (t_file_size (ts_table s))
  end.
Definition rounds (it : MergingIterator) : nat := S (sum_list (source_bound <$> mi_sources it)).

Definition find_next_live : IM unit :=
  modify_it (mi_set_valid false);;
  s ← get;
  find_next_live_loop (rounds s.2).

(** [MergingIterator::seek_to_first] and [MergingIterator::next]. *)
Definition seek_to_first : IM unit := find_next_live.
Definition next : IM unit := find_next_live.

End MergingOps.
End MergingOps.
