(* ===== verification/IteratorSource.v ===== *)
(** What a source still has to give: the entries of its memtable or table from its
    position up to its upper bound. *)

From S2P Require Import Prelude Status World Wp SortedMap Memtable SSTableFormat SSTableLayout LsmStats SSTable SSTableRead Iterator.
Import sstable IteratorOps.

#[local] Opaque parse_block.

(** The entries below an exclusive bound, and those from an inclusive one on; an
    empty bound is none. *)
Definition bounded (upper : bytes) (es : list entry) : list entry :=
  filter (λ e, upper = [] ∨ klt e.1 upper) es.
Definition starting (begin_ : bytes) (es : list entry) : list entry :=
  filter (λ e, begin_ = [] ∨ kle begin_ e.1) es.

Lemma bounded_none es : bounded [] es = es.
Proof. induction es as [|e es IH]; [done|]. unfold bounded in *. rewrite filter_cons, decide_True by auto. by rewrite IH. Qed.

Lemma starting_none es : starting [] es = es.
Proof. induction es as [|e es IH]; [done|]. unfold starting in *. rewrite filter_cons, decide_True by auto. by rewrite IH. Qed.

Lemma bounded_in upper e es : upper = [] ∨ klt e.1 upper → bounded upper (e :: es) = e :: bounded upper es.
Proof. intros He. unfold bounded. by rewrite filter_cons, decide_True. Qed.

Lemma bounded_out upper e es : ksorted (e :: es) → upper ≠ [] → kle upper e.1 → bounded upper (e :: es) = [].
Proof.
  intros Hs Hne Hle. apply elem_of_nil_inv. intros x [Hx Hin]%list_elem_of_filter. destruct Hx as [?|Hx]; [done|].
  destruct e as [k v]. apply ksorted_cons in Hs as [Hall _]. rewrite Forall_forall in Hall.
  apply elem_of_cons in Hin as [-> |Hin]; [cbn in *; korder|]. apply Hall in Hin. cbn in *. korder.
Qed.

Lemma ksorted_tail (e : entry) es : ksorted (e :: es) → ksorted es.
Proof. destruct e. by intros [_ ?]%ksorted_cons. Qed.

Lemma bounded_sorted upper es : ksorted es → ksorted (bounded upper es).
Proof. apply ksorted_filter. Qed.

Section Source.
Context `{Platform}.

(** What is left of a table source. *)
Definition table_denotes (s : TableSource) (w : World) (es : list entry) : Prop :=
  ∃ bs, holds_table (ts_table s) w bs ∧
    if ts_exhausted s then es = []
    else ∃ b, bs !! ts_block_index s = Some b ∧ ts_entries s = block_entry <$> b ∧
      (ts_entry_index s < length b)%nat ∧ es ≠ [] ∧
      es = bounded (ts_upper s) (drop (ts_entry_index s) b ++ concat (drop (S (ts_block_index s)) bs)).

Definition denotes (s : EntrySource) (w : World) (es : list entry) : Prop :=
  match s with
  | FromMemtable s => ksorted (ms_rest s) ∧ es = bounded (ms_upper s) (ms_rest s)
  | FromTable s => table_denotes s w es
  end.

Lemma position_sorted (bs : list (list entry)) i b j : ksorted (concat bs) → bs !! i = Some b →
  ksorted (drop j b ++ concat (drop (S i) bs)).
Proof.
  intros Hs Hb. rewrite <-(take_drop_middle bs i b Hb), concat_app, concat_cons in Hs.
  rewrite <-(take_drop j b), <-app_assoc in Hs. apply ksorted_app in Hs as (_ & Hs & _).
  by apply ksorted_app in Hs as (_ & Hs & _).
Qed.

Lemma denotes_sorted s w es : denotes s w es → ksorted es.
Proof.
  destruct s as [s|s]; cbn.
  - intros [Hs ->]. by apply bounded_sorted.
  - intros (bs & Ht & Hes). destruct (ts_exhausted s); [by subst|].
    destruct Hes as (b & Hb & _ & _ & _ & ->). apply bounded_sorted, position_sorted; [apply Ht|done].
Qed.

Lemma bounded_head_test upper (e : entry) es : ksorted (e :: es) →
  (sz upper =? 0) || ltb e.1 upper = negb (match bounded upper (e :: es) with [] => true | _ => false end).
Proof.
  intros Hs. destruct upper as [|x upper].
  - by rewrite bounded_none.
  - destruct (ltb e.1 (x :: upper)) eqn:Hlt.
    + rewrite orb_true_r, bounded_in by (by right). done.
    + rewrite (bounded_out _ e es Hs) by (done || korder).
      destruct (Z.eqb_spec (sz (x :: upper)) 0) as [Hz%sz_zero_nil|]; done.
Qed.

Lemma denotes_valid s w es : denotes s w es → source_valid s = match es with [] => false | _ => true end.
Proof.
  destruct s as [s|s]; cbn.
  - intros [Hs ->]. destruct (ms_rest s) as [|[k e] rest] eqn:Er; [done|].
    transitivity (negb (match bounded (ms_upper s) ((k, e) :: rest) with [] => true | _ => false end)).
    { exact (bounded_head_test (ms_upper s) (k, e) rest Hs). }
    by destruct (bounded _ _).
  - intros (bs & Ht & Hes). destruct (ts_exhausted s); [by subst|].
    destruct Hes as (b & _ & _ & _ & Hne & _). by destruct es.
Qed.

(** The row of an entry, the value of a tombstone aside. *)
Definition row_of (x : BlockEntry) (e : entry) : Prop :=
  be_key x = e.1 ∧ be_tombstone x = me_tombstone e.2 ∧ (me_tombstone e.2 = false → be_value x = me_value e.2).

Lemma denotes_entry s w e es : denotes s w (e :: es) → ∃ x, source_entry s = ROk x ∧ row_of x e.
Proof.
  destruct s as [s|s]; cbn.
  - intros [Hs Hes]. destruct (ms_rest s) as [|[k v] rest] eqn:Er; [done|]. eexists. split; [done|].
    destruct (decide (ms_upper s = [] ∨ klt k (ms_upper s))) as [Hin|Hout].
    + rewrite bounded_in in Hes by done. by injection Hes as -> _.
    + apply Decidable.not_or in Hout as [Hne Hlt]. rewrite bounded_out in Hes; [done|done|done|].
      cbn. korder.
  - intros (bs & Ht & Hes). destruct (ts_exhausted s); [done|].
    destruct Hes as (b & Hb & He & Hi & _ & Hes). unfold current_entry. rewrite He, list_lookup_fmap.
    destruct (lookup_lt_is_Some_2 b _ Hi) as [x Hx]. rewrite Hx. cbn. eexists. split; [done|].
    rewrite (drop_S b x _ Hx), <-app_comm_cons in Hes.
    pose proof (position_sorted bs _ b (ts_entry_index s) (ht_sorted _ _ _ Ht) Hb) as Hs.
    rewrite (drop_S b x _ Hx), <-app_comm_cons in Hs.
    destruct (decide (ts_upper s = [] ∨ klt x.1 (ts_upper s))) as [Hin|Hout].
    + rewrite bounded_in in Hes by done. injection Hes as -> _. unfold block_entry, row_of. cbn. unfold stored.
      split_and!; [done|done|]. by intros ->.
    + apply Decidable.not_or in Hout as [Hne Hlt]. rewrite bounded_out in Hes; [done|done|done|]. korder.
Qed.

(** ** Moving *)

Definition source_error (w : World) (e : Status) : Prop := ¬ reliable w ∧ code_ e = IOError.

Lemma wp_load_block st ts w bs i b : holds_table (ts_table ts) w bs → bs !! i = Some b → in_range st →
  wp (load_block i) (st, ts) w
    (λ _ s' w', same_files w w' ∧ in_range s'.1 ∧ s'.2 = ts_set_block i (block_entry <$> b) ts)
    (λ e s' w', same_files w w' ∧ in_range s'.1 ∧ source_error w e) (same_files w).
Proof.
  intros Ht Hb Hs. unfold load_block. wp_pure.
  assert (Hi : length (take i bs) = i) by (rewrite length_take; apply lookup_lt_Some in Hb; lia).
  pose proof (take_drop_middle bs i b Hb) as Ebs. symmetry in Ebs.
  assert (Hread : wp (SSTableOps.read_block (ts_table ts) i) st w
    (λ d s' w', same_files w w' ∧ in_range s' ∧ parse_block (bd_bytes d) = ROk (block_entry <$> b))
    (λ e s' w', same_files w w' ∧ in_range s' ∧ source_error w e) (same_files w)).
  { assert (Hraw : ∀ s', in_range s' → wp (SSTableOps.read_block_raw (ts_table ts) i) s' w
      (λ d s' w', same_files w w' ∧ in_range s' ∧ parse_block (bd_bytes d) = ROk (block_entry <$> b))
      (λ e s' w', same_files w w' ∧ in_range s' ∧ source_error w e) (same_files w)).
    { intros s' Hs'. rewrite <-Hi. eapply wp_mono; [by eapply wp_read_held|..]; cbn beta; [|..|done].
      - by intros d s1 w1 _ (-> & Hsf & _ & Hp).
      - by intros e s1 w1 _ (-> & Hsf & Hq & Hcode). }
    unfold SSTableOps.read_block. destruct (t_stats (ts_table ts)); wp_pure; apply Hraw; [by apply in_range_bump|done]. }
  unfold on_stats. eapply wp_bind_zoom; [exact Hread|..]; cbn beta; [|done|done].
  intros d s' w' _ (Hsf & Hs' & Hp). rewrite Hp. wp_pure. apply wp_modify. done.
Qed.

(** A source that stands on an entry, its upper bound not looked at yet. *)
Definition stands (ts : TableSource) (w : World) (bs : list (list entry)) (rest : list entry) : Prop :=
  holds_table (ts_table ts) w bs ∧ ts_exhausted ts = false ∧
  ∃ b, bs !! ts_block_index ts = Some b ∧ ts_entries ts = block_entry <$> b ∧
    (ts_entry_index ts < length b)%nat ∧
    rest = drop (ts_entry_index ts) b ++ concat (drop (S (ts_block_index ts)) bs).

Lemma stands_head ts w bs rest : stands ts w bs rest → ksorted rest ∧
  ∃ x rest', rest = x :: rest' ∧ current_entry ts = ROk (block_entry x).
Proof.
  intros (Ht & _ & b & Hb & He & Hi & ->).
  pose proof (position_sorted bs _ b (ts_entry_index ts) (ht_sorted _ _ _ Ht) Hb) as Hs. split; [done|].
  destruct (lookup_lt_is_Some_2 b _ Hi) as [x Hx]. rewrite (drop_S b x _ Hx), <-app_comm_cons.
  eexists _, _. split; [done|]. unfold current_entry. by rewrite He, list_lookup_fmap, Hx.
Qed.

Lemma wp_apply_upper_bound st ts w bs rest : stands ts w bs rest → in_range st →
  wp apply_upper_bound (st, ts) w
    (λ _ s' w', w' = w ∧ s'.1 = st ∧ ts_table s'.2 = ts_table ts ∧ ts_upper s'.2 = ts_upper ts ∧
       table_denotes s'.2 w (bounded (ts_upper ts) rest))
    (λ _ _ _, False) (λ _, False).
Proof.
  intros Hst Hs. destruct (stands_head _ _ _ _ Hst) as (Hsort & x & rest' & Erest & Hcur).
  destruct Hst as (Ht & Hex & b & Hb & He & Hi & Er). unfold apply_upper_bound. wp_pure. cbn [snd]. rewrite Hex. cbn [orb].
  assert (Hin : ts_upper ts = [] ∨ klt x.1 (ts_upper ts) →
    table_denotes ts w (bounded (ts_upper ts) rest)).
  { intros Hin. exists bs. split; [done|]. rewrite Hex. exists b. split_and!; try done; [|by rewrite Er].
    by rewrite Erest, bounded_in. }
  destruct (Z.eqb_spec (sz (ts_upper ts)) 0) as [Hz%sz_zero_nil|Hz].
  { apply wp_ret. split_and!; try done. apply Hin. by left. }
  rewrite Hcur. wp_pure. cbn [be_key block_entry]. destruct (leb (ts_upper ts) x.1) eqn:Hle.
  - unfold modify_source. apply wp_modify. cbn. split_and!; try done. exists bs. split; [done|].
    cbn [ts_exhausted ts_set_exhausted]. rewrite Erest in Hsort |- *. apply (bounded_out _ x rest' Hsort); [|korder].
    intros E. by rewrite E in Hz.
  - apply wp_ret. split_and!; try done. apply Hin. right. korder.
Qed.

Lemma stands_set_block ts w bs i b : holds_table (ts_table ts) w bs → bs !! i = Some b →
  stands (ts_set_block i (block_entry <$> b) ts) w bs (concat (drop i bs)).
Proof.
  intros Ht Hb. assert (Hne : b ≠ []).
  { pose proof (ht_blocks _ _ _ Ht) as Hbs. rewrite Forall_forall in Hbs.
    by destruct (Hbs b ltac:(by eapply list_elem_of_lookup_2)). }
  split; [done|]. split; [by destruct b|]. exists b. cbn. split_and!; try done.
  - destruct b; [done|]. cbn. lia.
  - by rewrite (drop_S bs b i Hb).
Qed.

(** Loading a block and looking at its first entry. *)
Lemma wp_load_and_bound st ts w bs i b : holds_table (ts_table ts) w bs → bs !! i = Some b → in_range st →
  wp (load_block i;; apply_upper_bound) (st, ts) w
    (λ _ s' w', same_files w w' ∧ in_range s'.1 ∧ ts_table s'.2 = ts_table ts ∧ ts_upper s'.2 = ts_upper ts ∧
       table_denotes s'.2 w' (bounded (ts_upper ts) (concat (drop i bs))))
    (λ e s' w', same_files w w' ∧ in_range s'.1 ∧ source_error w e) (same_files w).
Proof.
  intros Ht Hb Hs. wp_call (wp_load_block st ts w bs i b Ht Hb Hs).
  intros _ [st1 ts1] w1 Hc1 (Hsf & Hr & E). cbn in Hr, E. subst ts1.
  eapply wp_mono; [eapply wp_apply_upper_bound; [apply stands_set_block; [by eapply holds_table_same|done]|done]|..];
    cbn beta; [|done|done].
  intros _ s2 w2 _ (-> & Hst & Htb & Hup & Hd). rewrite Hst. done.
Qed.

Lemma wp_advance_table st ts w e es : table_denotes ts w (e :: es) → in_range st →
  wp advance_table (st, ts) w
    (λ _ s' w', same_files w w' ∧ in_range s'.1 ∧ ts_table s'.2 = ts_table ts ∧ table_denotes s'.2 w' es)
    (λ e s' w', same_files w w' ∧ in_range s'.1 ∧ source_error w e) (same_files w).
Proof.
  intros (bs & Ht & Hes) Hs. destruct (ts_exhausted ts) eqn:Hex; [done|].
  destruct Hes as (b & Hb & He & Hi & _ & Hes). unfold advance_table. wp_pure. cbn [snd]. rewrite Hex.
  destruct (lookup_lt_is_Some_2 b _ Hi) as [x Hx].
  pose proof (position_sorted bs _ b (ts_entry_index ts) (ht_sorted _ _ _ Ht) Hb) as Hsort.
  rewrite (drop_S b x _ Hx), <-app_comm_cons in Hes, Hsort.
  assert (Hes' : es = bounded (ts_upper ts) (drop (S (ts_entry_index ts)) b ++ concat (drop (S (ts_block_index ts)) bs))).
  { destruct (decide (ts_upper ts = [] ∨ klt x.1 (ts_upper ts))) as [Hin|Hout].
    - rewrite bounded_in in Hes by done. by injection Hes.
    - apply Decidable.not_or in Hout as [Hne Hlt]. rewrite bounded_out in Hes; [done|done|done|]. korder. }
  clear Hes Hsort. unfold modify_source. wp_pure. cbn [fst snd ts_set_entry ts_entries ts_entry_index ts_table ts_block_index].
  rewrite He, length_fmap, (ht_index _ _ _ Ht), length_index_from.
  destruct (Nat.leb_spec (length b) (S (ts_entry_index ts))) as [Hend|Hmore].
  - rewrite (drop_ge b) in Hes' by done. rewrite app_nil_l in Hes'.
    destruct (Nat.leb_spec (length bs) (ts_block_index ts + 1)) as [Hlast|Hnext].
    + rewrite drop_ge in Hes' by lia. apply wp_modify. cbn. split_and!; try done.
      exists bs. split; [done|]. cbn. by rewrite Hes'.
    + rewrite Nat.add_1_r in *. destruct (lookup_lt_is_Some_2 bs _ Hnext) as [b' Hb'].
      eapply wp_mono; [eapply (wp_load_and_bound _ _ _ bs (S (ts_block_index ts)) b'); done|..]; cbn beta; [|done|done].
      cbn. rewrite <-Hes'. by intros _ s' w' _ (? & ? & ? & _ & ?).
  - eapply wp_mono; [eapply (wp_apply_upper_bound _ _ _ bs)|..]; cbn beta; [|done| |done|done].
    + split; [done|]. split; [done|]. exists b. cbn. split_and!; try done.
    + cbn. rewrite <-Hes'. intros _ s' w' _ (-> & -> & ? & _ & ?). done.
Qed.

Lemma wp_source_advance st s w e es : denotes s w (e :: es) → in_range st →
  wp source_advance (st, s) w
    (λ _ s' w', same_files w w' ∧ in_range s'.1 ∧ denotes s'.2 w' es)
    (λ e s' w', same_files w w' ∧ in_range s'.1 ∧ source_error w e) (same_files w).
Proof.
  intros Hd Hs. unfold source_advance, wp. cbn [fst snd]. destruct s as [ms|ts]; cbn in Hd.
  - destruct Hd as [Hsort Hes]. destruct (ms_rest ms) as [|[k v] rest]; [done|].
    split; [done|]. split_and!; [done|done|]. cbn. split; [by apply ksorted_tail in Hsort|].
    destruct (decide (ms_upper ms = [] ∨ klt k (ms_upper ms))) as [Hin|Hout].
    + rewrite bounded_in in Hes by done. by injection Hes.
    + apply Decidable.not_or in Hout as [Hne Hlt]. rewrite bounded_out in Hes; [done|done|done|]. cbn. korder.
  - pose proof (wp_advance_table st ts w e es Hd Hs) as Hwp. unfold wp in Hwp.
    destruct (advance_table (st, ts) w); naive_solver.
Qed.

(** ** Positioning *)

Lemma starting_app begin_ es1 es2 : starting begin_ (es1 ++ es2) = starting begin_ es1 ++ starting begin_ es2.
Proof. apply filter_app. Qed.

Lemma starting_before begin_ es : begin_ ≠ [] → Forall (λ e, klt e.1 begin_) es → starting begin_ es = [].
Proof.
  intros Hne Hall. apply elem_of_nil_inv. intros x [[?|Hx] Hin]%list_elem_of_filter; [done|].
  rewrite Forall_forall in Hall. apply Hall in Hin. korder.
Qed.

Lemma starting_after begin_ es : Forall (λ e, kle begin_ e.1) es → starting begin_ es = es.
Proof.
  induction 1 as [|e es He Hes IH]; [done|]. unfold starting in *. rewrite filter_cons, decide_True by auto. by rewrite IH.
Qed.

(** The first entry from [begin_] on, in a table. *)
Lemma table_position bs begin_ : ksorted (concat bs) → Forall (λ b, b ≠ []) bs → begin_ ≠ [] →
  let i := lower_bound (λ e, ltb (ie_key e) begin_) (index_from 0 bs) in
  (i = length bs ∧ starting begin_ (concat bs) = []) ∨
  (∃ b, bs !! i = Some b ∧
     let j := lower_bound (λ e, ltb (be_key e) begin_) (block_entry <$> b) in
     (j < length b)%nat ∧ starting begin_ (concat bs) = drop j b ++ concat (drop (S i) bs)).
Proof.
  intros Hs Hne Hb. cbv zeta. destruct (index_position bs begin_ Hs Hne) as (bs1 & bs2 & -> & -> & H1 & H2).
  rewrite concat_app, starting_app, (starting_before begin_ (concat bs1)) by done. rewrite app_nil_l.
  destruct bs2 as [|b bs2]; [left; by rewrite app_nil_r|]. right. exists b.
  rewrite list_lookup_middle by done. split; [done|].
  pose proof Hs as (Hsb & _ & Hlt)%ksorted_block. apply Forall_cons in H2 as [H2 _].
  destruct (lower_bound_sorted fst b begin_ Hsb) as (b1 & b2 & Eb & _ & Hb1 & Hb2).
  assert (Ej : lower_bound (λ e, ltb (be_key e) begin_) (block_entry <$> b) = length b1).
  { rewrite Eb, fmap_app, lower_bound_partition; [by rewrite length_fmap|by apply Forall_fmap|by apply Forall_fmap]. }
  rewrite Ej. apply Forall_app in Hne as [_ [Hnb _]%Forall_cons].
  destruct (last_key_in b Hnb) as (e & He & Ek).
  assert (Hne2 : b2 ≠ []).
  { intros ->. rewrite app_nil_r in Eb. subst b1. rewrite Forall_forall in Hb1. apply Hb1 in He. korder. }
  split; [rewrite Eb, length_app; destruct b2; [done|cbn; lia]|].
  assert (Hd : drop (length b1) b = b2) by (by rewrite Eb, drop_app_length).
  assert (Hst : starting begin_ b = b2).
  { by rewrite Eb, starting_app, starting_before, app_nil_l, starting_after. }
  rewrite concat_cons, starting_app, Hd, Hst. f_equal.
  rewrite starting_after.
  - rewrite drop_app_ge by lia. by replace (S (length bs1) - length bs1)%nat with 1%nat by lia.
  - apply Forall_forall. intros x Hx. specialize (Hlt e x He Hx). korder.
Qed.

Lemma wp_create_at st t w bs begin_ end_ : holds_table t w bs → in_range st →
  wp (create_at begin_) (st, mkTableSource t 0 [] 0 end_ true) w
    (λ _ s' w', same_files w w' ∧ in_range s'.1 ∧ ts_table s'.2 = t ∧
       table_denotes s'.2 w' (bounded end_ (starting begin_ (concat bs))))
    (λ e s' w', same_files w w' ∧ in_range s'.1 ∧ source_error w e) (same_files w).
Proof.
  intros Ht Hs. pose proof (blocks_nonempty _ (ht_blocks _ _ _ Ht)) as Hne. pose proof (ht_sorted _ _ _ Ht) as Hsort.
  set (ts0 := mkTableSource t 0 [] 0 end_ true).
  assert (Hnone : starting begin_ (concat bs) = [] →
    wp (mret tt) (st, ts0) w
      (λ _ s' w', same_files w w' ∧ in_range s'.1 ∧ ts_table s'.2 = t ∧
         table_denotes s'.2 w' (bounded end_ (starting begin_ (concat bs))))
      (λ e s' w', same_files w w' ∧ in_range s'.1 ∧ source_error w e) (same_files w)).
  { intros ->. apply wp_ret. split_and!; try done. by exists bs. }
  unfold create_at. wp_pure. cbn [snd ts_table ts0]. rewrite (ht_index _ _ _ Ht), length_index_from.
  destruct bs as [|b0 bs0] eqn:Ebs; cbn [index_from]; [by apply Hnone|]. rewrite <-Ebs in *.
  change (mkIndexEntry (last_key b0) 0 (sz (sealed b0)) :: index_from (0 + sz (sealed b0)) bs0) with (index_from 0 (b0 :: bs0)).
  rewrite <-Ebs. assert (Hlen : (0 < length bs)%nat) by (subst bs; cbn; lia).
  destruct (Z.eqb_spec (sz begin_) 0) as [->%sz_zero_nil|Hb].
  { destruct (Nat.leb_spec (length bs) 0) as [|_]; [lia|]. rewrite starting_none.
    assert (H0 : bs !! 0%nat = Some b0) by (by subst).
    eapply wp_mono; [eapply (wp_load_and_bound st ts0 w bs 0 b0); done|..]; cbn beta; [|done|done].
    by intros _ s' w' _ (? & ? & ? & _ & ?). }
  assert (Hbne : begin_ ≠ []) by (by intros ->).
  destruct (table_position bs begin_ Hsort Hne Hbne) as [[Ei Hnil]|(b & Hb' & Hj & Hst)].
  { rewrite Ei, Nat.leb_refl. by apply Hnone. }
  set (i := lower_bound _ _) in *. apply lookup_lt_Some in Hb' as Hi.
  destruct (Nat.leb_spec (length bs) i) as [|_]; [lia|].
  wp_call (wp_load_block st ts0 w bs i b Ht Hb' Hs).
  intros _ [st1 ts1] w1 Hc1 (Hsf & Hr & E). cbn in Hr, E. subst ts1. unfold modify_source. wp_pure.
  cbn [fst snd ts_set_block ts_set_entry ts_entries ts_entry_index ts0]. rewrite length_fmap.
  destruct (Nat.leb_spec (length b) (lower_bound (λ e, ltb (be_key e) begin_) (block_entry <$> b))) as [|_]; [lia|].
  eapply wp_mono; [eapply (wp_apply_upper_bound _ _ _ bs)|..]; cbn beta; [|done| |done|done].
  - split; [by eapply holds_table_same|]. split; [by destruct b; cbn in *; [lia|]|]. exists b. cbn. split_and!; done.
  - cbn. rewrite Hst. intros _ s' w' _ (-> & -> & ? & _ & ?). done.
Qed.

Lemma wp_create_source st t w bs begin_ end_ : holds_table t w bs → in_range st →
  wp (IteratorOps.create t begin_ end_) st w
    (λ s st' w', same_files w w' ∧ in_range st' ∧ denotes s w' (bounded end_ (starting begin_ (concat bs))) ∧
       MergingOps.source_bound s = Z.to_nat (t_file_size t))
    (λ e st' w', same_files w w' ∧ in_range st' ∧ source_error w e) (same_files w).
Proof.
  intros Ht Hs. pose proof (wp_create_at st t w bs begin_ end_ Ht Hs) as Hwp. unfold wp, IteratorOps.create in *.
  destruct (create_at _ _ _) as [? [st1 ts1]| | |]; cbn in *; try naive_solver.
Qed.

Lemma memtable_denotes m w begin_ end_ : ksorted (map_ m) →
  denotes (memtable_source m begin_ end_) w (bounded end_ (starting begin_ (map_ m))).
Proof.
  intros Hs. unfold memtable_source. destruct begin_ as [|x begin_]; cbn.
  - by rewrite starting_none.
  - destruct (map_lower_bound_split (x :: begin_) (map_ m) Hs) as (l1 & E & H1 & H2).
    revert E H2. generalize (map_lower_bound (x :: begin_) (map_ m)). intros l2 E H2. rewrite E in Hs |- *.
    split; [by apply ksorted_app in Hs as (_ & ? & _)|].
    by rewrite starting_app, starting_before, app_nil_l, starting_after.
Qed.

(** A source has no more entries than its bound says. *)
Lemma denotes_bound s w es : denotes s w es → (length es ≤ MergingOps.source_bound s)%nat.
Proof.
  destruct s as [s|s]; cbn.
  - intros [_ ->]. apply length_filter.
  - intros (bs & Ht & Hes). destruct (ts_exhausted s); [subst; cbn; lia|].
    destruct Hes as (b & Hb & _ & _ & _ & ->). etrans; [apply length_filter|].
    pose proof (sz_concat_le bs (ht_blocks _ _ _ Ht)) as Hle. pose proof (ht_size _ _ _ Ht).
    rewrite <-(take_drop_middle bs _ b Hb), concat_app, concat_cons, !sz_app in Hle at 1.
    rewrite length_app, length_drop. unfold sz in Hle. unfold sz in *. lia.
Qed.

End Source.
