(* ===== verification/IteratorMerge.v ===== *)
(** The merge gives every key of its sources once, in order, with the entry of the
    newest source that has it; in [Skip] mode the deleted keys are left out. *)

From S2P Require Import Prelude Status World Wp SortedMap Memtable SSTableFormat SSTableLayout LsmStats SSTable SSTableRead Iterator IteratorSource.
Import sstable IteratorOps MergingOps.

(** What the sources hold together: the first one that has a key decides. *)
Definition merged (rs : list (list entry)) : gmap bytes MemEntry := foldr (λ r m, as_map r ∪ m) ∅ rs.

Lemma merged_app rs1 rs2 : merged (rs1 ++ rs2) = merged rs1 ∪ merged rs2.
Proof.
  induction rs1 as [|r rs1 IH]; cbn; [by rewrite map_empty_union|]. fold (merged (rs1 ++ rs2)) (merged rs1).
  by rewrite IH, map_union_assoc.
Qed.

Lemma merged_snoc rs r : merged (rs ++ [r]) = merged rs ∪ as_map r.
Proof. rewrite merged_app. cbn. by rewrite map_union_empty. Qed.

Lemma merged_elem rs k x : merged rs !! k = Some x → ∃ r, r ∈ rs ∧ (k, x) ∈ r.
Proof.
  induction rs as [|r rs IH]; cbn; [by rewrite lookup_empty|]. fold (merged rs).
  rewrite lookup_union_Some_raw. intros [Hr|[_ Hr]].
  - exists r. split; [by left|]. by apply as_map_elem_1.
  - destruct (IH Hr) as (r' & Hin & He). exists r'. split; [by right|done].
Qed.

(** A sorted list without the key it starts with. *)
Definition strip (k : bytes) (r : list entry) : list entry :=
  match r with
  | (k', _) :: r' => if key_eqb k' k then r' else r
  | [] => []
  end.

Lemma strip_sorted k r : ksorted r → ksorted (strip k r).
Proof. destruct r as [|[k' x] r]; [done|]. cbn. intros Hs. case_match; [by apply ksorted_tail in Hs|done]. Qed.

Lemma as_map_strip k r : ksorted r → (∀ k' x, as_map r !! k' = Some x → kle k k') →
  as_map (strip k r) = delete k (as_map r).
Proof.
  destruct r as [|[k' x] r]; cbn; [by rewrite as_map_nil, delete_empty|]. intros [Hall Hs]%ksorted_cons Hmin.
  rewrite as_map_cons. unfold key_eqb. destruct (decide (k' = k)) as [->|Hne].
  - rewrite bool_decide_eq_true_2, delete_insert_eq, delete_id by (done || by apply as_map_none_lt). done.
  - rewrite bool_decide_eq_false_2, as_map_cons by done.
    rewrite delete_insert_ne, delete_id; [done| |done]. apply as_map_none_lt.
    specialize (Hmin k' x ltac:(by rewrite as_map_cons, lookup_insert_eq)).
    eapply Forall_impl; [exact Hall|]. intros [k2 x2] Hk2. cbn in *. assert (klt k k') by korder. korder.
Qed.

Lemma merged_strip k rs : Forall ksorted rs → (∀ k' x, merged rs !! k' = Some x → kle k k') →
  merged (strip k <$> rs) = delete k (merged rs).
Proof.
  induction 1 as [|r rs Hr Hrs IH]; cbn; [by rewrite delete_empty|]. fold (merged rs) (merged (strip k <$> rs)).
  intros Hmin. rewrite IH, as_map_strip, delete_union; [done|done| |].
  - intros k' x Hx. eapply Hmin. by erewrite lookup_union_Some_l.
  - intros k' x Hx. destruct (as_map r !! k') as [y|] eqn:Hy.
    + eapply Hmin. by erewrite lookup_union_Some_l.
    + eapply Hmin. by rewrite lookup_union_r.
Qed.

Section Merge.
Context `{Platform}.

Definition denote_all (ss : list EntrySource) (w : World) (rs : list (list entry)) : Prop :=
  Forall2 (λ s r, denotes s w r) ss rs.

(** The winner among sources that hold [rs]: it stands on the smallest key, with the
    entry the merge has for it. *)
Definition winner_ok (w : World) (rs : list (list entry)) (winner : option EntrySource) : Prop :=
  match winner with
  | None => merged rs = ∅
  | Some s => ∃ k x r, denotes s w ((k, x) :: r) ∧ merged rs !! k = Some x ∧
      ∀ k' y, merged rs !! k' = Some y → kle k k'
  end.

Lemma sorted_min (k : bytes) (x : MemEntry) r k' y : ksorted ((k, x) :: r) →
  as_map ((k, x) :: r) !! k' = Some y → kle k k'.
Proof.
  intros [Hall _]%ksorted_cons [[= -> ->]|Hin]%as_map_elem_1%elem_of_cons; [korder|].
  rewrite Forall_forall in Hall. apply Hall in Hin. cbn in Hin. korder.
Qed.

Lemma find_winner_ok w ss rs done winner : denote_all ss w rs → winner_ok w done winner →
  ∃ winner', find_winner ss winner = ROk winner' ∧ winner_ok w (done ++ rs) winner'.
Proof.
  intros Hall. revert done winner. induction Hall as [|s r ss rs Hd Hall IH]; intros done winner Hw.
  { exists winner. by rewrite app_nil_r. }
  cbn [find_winner]. rewrite (denotes_valid _ _ _ Hd). replace (done ++ r :: rs) with ((done ++ [r]) ++ rs) by (by rewrite <-app_assoc).
  pose proof (denotes_sorted _ _ _ Hd) as Hs. destruct r as [|[k x] r]; cbn [negb].
  { apply IH. unfold winner_ok in *. rewrite merged_snoc, as_map_nil, map_union_empty. done. }
  destruct winner as [best|].
  - destruct Hw as (kb & xb & rb & Hdb & Hm & Hmin).
    destruct (denotes_entry _ _ _ _ Hd) as (e & -> & Hk & _). destruct (denotes_entry _ _ _ _ Hdb) as (eb & -> & Hkb & _).
    cbn [mbind result_bind fst] in *. rewrite Hk, Hkb. apply IH. destruct (ltb k kb) eqn:Hlt.
    + exists k, x, r. split; [done|]. rewrite merged_snoc. split.
      * rewrite lookup_union_r; [by rewrite as_map_cons, lookup_insert_eq|].
        destruct (merged done !! k) as [y|] eqn:Hy; [|done]. apply Hmin in Hy. exfalso. korder.
      * intros k' y [Hy|[_ Hy]]%lookup_union_Some_raw; [apply Hmin in Hy; korder|by eapply sorted_min].
    + exists kb, xb, rb. split; [done|]. rewrite merged_snoc. split; [by erewrite lookup_union_Some_l|].
      intros k' y [Hy|[_ Hy]]%lookup_union_Some_raw; [by eapply Hmin|]. apply sorted_min in Hy; [korder|done].
  - apply IH. exists k, x, r. cbn in Hw. rewrite merged_snoc, Hw, map_empty_union. split_and!; [done| |].
    + by rewrite as_map_cons, lookup_insert_eq.
    + intros k' y. rewrite (left_id_L ∅ (∪)). by apply sorted_min.
Qed.

(** The entries the merge has still to give. *)
Definition merging (it : MergingIterator) (w : World) (es : list entry) : Prop :=
  ∃ rs, denote_all (mi_sources it) w rs ∧ ksorted es ∧ as_map es = merged rs.

Lemma denote_all_sorted ss w rs : denote_all ss w rs → Forall ksorted rs.
Proof. induction 1 as [|s r ss rs Hd Hall IH]; constructor; [by eapply denotes_sorted|done]. Qed.

Lemma merging_winner it w es rs : denote_all (mi_sources it) w rs → ksorted es → as_map es = merged rs →
  ∃ winner, find_winner (mi_sources it) None = ROk winner ∧
    match es with
    | [] => winner = None
    | (k, x) :: _ => ∃ s r, winner = Some s ∧ denotes s w ((k, x) :: r) ∧ ∀ k' y, merged rs !! k' = Some y → kle k k'
    end.
Proof.
  intros Hall Hs Hm. destruct (find_winner_ok w (mi_sources it) rs [] None Hall) as (winner & -> & Hw); [done|].
  exists winner. split; [done|]. cbn in Hw. destruct es as [|[k x] es].
  - destruct winner as [s|]; [|done]. destruct Hw as (k & x & r & _ & Hk & _). by rewrite <-Hm, as_map_nil, lookup_empty in Hk.
  - destruct winner as [s|].
    + destruct Hw as (k' & x' & r & Hd & Hk' & Hmin). exists s, r. rewrite <-Hm in *.
      assert (Hkk : kle k' k) by (eapply Hmin; by rewrite as_map_cons, lookup_insert_eq).
      assert (Hk'k : kle k k') by (by eapply sorted_min).
      assert (k' = k) as -> by korder. rewrite as_map_cons, lookup_insert_eq in Hk'. injection Hk' as ->. done.
    + exfalso. cbn in Hw. assert (as_map ((k, x) :: es) !! k = Some x) as Hk by (by rewrite as_map_cons, lookup_insert_eq).
      by rewrite Hm, Hw, lookup_empty in Hk.
Qed.

Lemma denotes_same s w w' es : denotes s w es → same_files w w' → denotes s w' es.
Proof.
  destruct s as [s|s]; cbn; [done|]. intros (bs & Ht & Hes) Hs. exists bs. split; [by eapply holds_table_same|done].
Qed.

Lemma denote_all_same ss w w' rs : denote_all ss w rs → same_files w w' → denote_all ss w' rs.
Proof. intros Hall Hs. eapply Forall2_impl; [exact Hall|]. cbn. intros s r Hd. by eapply denotes_same. Qed.

(** One source in the second loop. *)
Lemma wp_advance_one st it w pre s todo r : mi_sources it = pre ++ s :: todo → denotes s w r → in_range st →
  wp (if source_valid s then
        e ← liftR (source_entry s);
        if key_eqb (be_key e) (mi_key it) then
          advanced ← attempt (on_source (length pre) source_advance);
          match advanced with
          | inl _ => mret tt
          | inr e => modify_it (mi_set_status e);; fail e
          end
        else mret tt
      else mret tt) (st, it) w
    (λ _ s' w', same_files w w' ∧ in_range s'.1 ∧ ∃ s1, s'.2 = mi_set_sources (pre ++ s1 :: todo) it ∧
       denotes s1 w' (strip (mi_key it) r))
    (λ e s' w', same_files w w' ∧ in_range s'.1 ∧ source_error w e) (same_files w).
Proof.
  intros Es Hd Hs. rewrite (denotes_valid _ _ _ Hd).
  assert (Hself : it = mi_set_sources (pre ++ s :: todo) it) by (rewrite <-Es; by destruct it).
  destruct r as [|[k x] r].
  { apply wp_ret. split_and!; [done|done|]. by exists s. }
  destruct (denotes_entry _ _ _ _ Hd) as (e & -> & Hk & _). wp_pure. cbn [fst] in Hk. rewrite Hk. cbn [strip].
  destruct (key_eqb k (mi_key it)).
  2: { apply wp_ret. split_and!; [done|done|]. by exists s. }
  unfold on_source. eapply wp_bind_attempt_zoom.
  { cbn [fst snd]. rewrite Es, list_lookup_middle by done. cbn [default].
    exact (wp_source_advance st s w (k, x) r Hd Hs). }
  all: cbn beta.
  - intros _ [st1 s1] w' Hc (Hsf & Hr & Hd1). cbn [fst snd] in *. apply wp_ret. split_and!; [done|done|].
    exists s1. split; [|done]. cbn. by rewrite Es, insert_app_r_alt, Nat.sub_diag by done.
  - intros err [st1 s1] w' Hc (Hsf & Hr & Herr). cbn [fst snd] in *. unfold modify_it. wp_pure.
    apply wp_fail. done.
  - done.
Qed.

Lemma wp_advance_all n st it w pre todo rsp rst : mi_sources it = pre ++ todo → (length todo ≤ n)%nat →
  denote_all pre w rsp → denote_all todo w rst → in_range st →
  wp (advance_all n (length pre)) (st, it) w
    (λ _ s' w', same_files w w' ∧ in_range s'.1 ∧ ∃ ss, s'.2 = mi_set_sources ss it ∧
       denote_all ss w' (rsp ++ (strip (mi_key it) <$> rst)))
    (λ e s' w', same_files w w' ∧ in_range s'.1 ∧ source_error w e) (same_files w).
Proof.
  revert st it w pre todo rsp rst. induction n as [|n IH]; intros st it w pre todo rsp rst Es Hn Hpre Htodo Hs.
  { destruct todo; [|cbn in Hn; lia]. apply Forall2_nil_inv_l in Htodo as ->. apply wp_ret. split_and!; [done|done|].
    rewrite app_nil_r in *. exists (mi_sources it). split; [by destruct it|]. by rewrite Es. }
  cbn [advance_all]. wp_pure. cbn [snd]. destruct todo as [|s todo].
  { apply Forall2_nil_inv_l in Htodo as ->. rewrite Es, app_nil_r, lookup_ge_None_2 by done. apply wp_ret.
    split_and!; [done|done|]. exists (mi_sources it). split; [by destruct it|]. by rewrite Es, !app_nil_r. }
  apply Forall2_cons_inv_l in Htodo as (r & rst' & Hd & Htodo & ->). rewrite Es, list_lookup_middle by done.
  eapply wp_bind; [by eapply (wp_advance_one st it w pre s todo r)|..]; cbn beta; [|done|done].
  intros _ [st1 it1] w1 Hc1 (Hsf & Hr & s1 & E1 & Hd1). cbn [fst snd] in Hr, E1. subst it1.
  replace (S (length pre)) with (length (pre ++ [s1])) by (rewrite length_app; cbn; lia).
  eapply wp_mono; [eapply (IH st1 _ w1 (pre ++ [s1]) todo (rsp ++ [strip (mi_key it) r]) rst')|..]; cbn beta.
  - cbn. by rewrite <-app_assoc.
  - cbn in Hn. lia.
  - apply Forall2_app; [by eapply denote_all_same|by constructor].
  - by eapply denote_all_same.
  - done.
  - intros _ s2 w2 Hc2 (Hsf2 & Hr2 & ss & E2 & Hall). split_and!; [by etrans|done|]. exists ss. split; [by destruct it|].
    cbn [mi_set_sources mi_key] in Hall. rewrite <-app_assoc in Hall. done.
  - intros e s2 w2 Hc2 (Hsf2 & Hr2 & [Hq Hcode]). split_and!; [by etrans|done|]. split; [eauto with wp|done].
  - intros w2 _ Hsf2. by etrans.
Qed.

(** ** The rows a reader sees *)

(** Deleted keys are not rows in [Skip] mode. *)
Definition visible (mode : Tombstones) (es : list entry) : list entry :=
  filter (λ e, negb (me_tombstone e.2) || match mode with Emit => true | Skip => false end = true) es.

(** The cursor shows the row of an entry. *)
Definition shows (it : MergingIterator) (e : entry) : Prop :=
  mi_valid it = true ∧ mi_key it = e.1 ∧ mi_tombstone it = me_tombstone e.2 ∧ mi_value it = stored e.2.

(** The cursor after a step: on the next row, or past the last one. *)
Definition stepped (mode : Tombstones) (it : MergingIterator) (w : World) (es : list entry) : Prop :=
  mi_mode it = mode ∧ mi_status it = ok ∧
  (visible mode es = [] ∧ mi_valid it = false ∧ merging it w [] ∨
   ∃ e es', visible mode es = e :: visible mode es' ∧ shows it e ∧ merging it w es' ∧ (length es' < length es)%nat).

Lemma visible_cons mode (e : entry) es : visible mode (e :: es) =
  if negb (me_tombstone e.2) || match mode with Emit => true | Skip => false end then e :: visible mode es else visible mode es.
Proof.
  unfold visible. rewrite filter_cons.
  destruct (negb (me_tombstone e.2) || _); [by rewrite decide_True|by rewrite decide_False].
Qed.

Lemma wp_find_next_live_loop fuel st it w es : merging it w es → (length es < fuel)%nat → in_range st →
  mi_valid it = false → mi_status it = ok →
  wp (find_next_live_loop fuel) (st, it) w
    (λ _ s' w', same_files w w' ∧ in_range s'.1 ∧ stepped (mi_mode it) s'.2 w' es)
    (λ e s' w', same_files w w' ∧ in_range s'.1 ∧ source_error w e) (same_files w).
Proof.
  revert st it w es. induction fuel as [|fuel IH]; intros st it w es Hm Hf Hs Hv Hok; [lia|].
  pose proof Hm as (rs & Hall & Hsort & Hmap). cbn [find_next_live_loop]. wp_pure. cbn [snd].
  destruct (merging_winner it w es rs Hall Hsort Hmap) as (winner & -> & Hw). wp_pure.
  destruct es as [|[k x] es].
  { subst winner. apply wp_ret. split_and!; [done|done|]. split_and!; [done|done|]. left. done. }
  destruct Hw as (s & r & -> & Hd & Hmin). destruct (denotes_entry _ _ _ _ Hd) as (e & -> & Hk & Ht & Hval).
  cbn [fst snd] in *. wp_pure. cbv zeta. unfold modify_it. wp_pure. cbn [fst snd].
  rewrite Hk, Ht. replace (if me_tombstone x then [] else be_value e) with (stored x).
  2: { unfold stored. destruct (me_tombstone x); [done|]. by rewrite Hval. }
  set (it1 := mi_set_row k (stored x) it).
  eapply wp_bind; [eapply (wp_advance_all _ st it1 w [] (mi_sources it) [] rs); try done|..]; cbn beta; [constructor| |done|done].
  intros _ [st2 it2] w2 Hc2 (Hsf & Hr & ss & E2 & Hall2). cbn [fst snd] in *. subst it2.
  assert (Hm2 : ksorted es ∧ as_map es = merged (strip k <$> rs)).
  { apply ksorted_cons in Hsort as Hs2. destruct Hs2 as [Hgt Hs2]. split; [done|].
    rewrite merged_strip, <-Hmap by (done || by eapply denote_all_sorted).
    rewrite as_map_cons, delete_insert_eq, delete_id; [done|]. by apply as_map_none_lt. }
  assert (Hlt : (length es < length ((k, x) :: es))%nat) by (cbn; lia).
  pose proof (visible_cons (mi_mode it) (k, x) es) as Hvis. cbn [snd] in Hvis.
  destruct (negb (me_tombstone x) || _).
  - wp_pure. apply wp_modify. cbn [fst snd]. split_and!; [done|done|]. split_and!; [done|done|].
    right. exists (k, x), es. split_and!; [done|done| |done]. by exists (strip k <$> rs).
  - eapply wp_mono; [eapply (IH st2 _ w2 es)|..]; cbn beta.
    + by exists (strip k <$> rs).
    + cbn in Hf. lia.
    + done.
    + done.
    + done.
    + intros _ s3 w3 Hc3 (Hsf3 & Hr3 & Hst). split_and!; [by etrans|done|]. unfold stepped in *. rewrite Hvis.
      destruct Hst as (? & ? & [?|(e3 & es3 & ? & ? & ? & ?)]); [naive_solver|]. split_and!; [done|done|].
      right. exists e3, es3. split_and!; [done|done|done|lia].
    + intros e3 s3 w3 Hc3 (Hsf3 & Hr3 & [Hq Hcode]). split_and!; [by etrans|done|]. split; [eauto with wp|done].
    + intros w3 _ Hsf3. by etrans.
Qed.

(** There are enough rounds. *)
Lemma merged_length (es : list entry) rs : ksorted es → as_map es = merged rs →
  (length es ≤ length (concat rs))%nat.
Proof.
  intros Hs Hm. rewrite <-(length_fmap fst es), <-(length_fmap fst (concat rs)). apply submseteq_length, NoDup_submseteq.
  - by apply ksorted_NoDup.
  - intros k [[k' x] [-> Hin]]%list_elem_of_fmap. apply as_map_elem in Hin; [|done]. rewrite Hm in Hin.
    apply merged_elem in Hin as (r & Hr & Hin). apply list_elem_of_fmap. exists (k', x). split; [done|].
    apply elem_of_concat. by exists r.
Qed.

Lemma denote_all_bound ss w rs : denote_all ss w rs → (length (concat rs) ≤ sum_list (source_bound <$> ss))%nat.
Proof.
  induction 1 as [|s r ss rs Hd Hall IH]; [done|]. csimpl. rewrite length_app.
  pose proof (denotes_bound _ _ _ Hd). lia.
Qed.

Lemma merging_rounds it w es : merging it w es → (length es < rounds it)%nat.
Proof.
  intros (rs & Hall & Hs & Hm). unfold rounds. pose proof (merged_length es rs Hs Hm).
  pose proof (denote_all_bound _ _ _ Hall). lia.
Qed.

Lemma wp_next st it w es : merging it w es → in_range st → mi_status it = ok →
  wp next (st, it) w
    (λ _ s' w', same_files w w' ∧ in_range s'.1 ∧ stepped (mi_mode it) s'.2 w' es)
    (λ e s' w', same_files w w' ∧ in_range s'.1 ∧ source_error w e) (same_files w).
Proof.
  intros Hm Hs Hok. unfold next, find_next_live, modify_it. wp_pure. cbn [fst snd].
  apply (wp_find_next_live_loop _ st (mi_set_valid false it) w es); try done.
  exact (merging_rounds (mi_set_valid false it) w es Hm).
Qed.

(** ** A whole walk *)

(** A reader: the row the cursor shows, then the rest. *)
Fixpoint walk (fuel : nat) : M (LsmStats * MergingIterator) (list entry) :=
  match fuel with
  | O => stuck
  | S fuel =>
      s ← get;
      if mi_valid s.2 then
        next;;
        rows ← walk fuel;
        mret ((mi_key s.2, mkMemEntry (mi_value s.2) (mi_tombstone s.2)) :: rows)
      else mret []
  end.

Definition read_all : M (LsmStats * MergingIterator) (list entry) :=
  s ← get;
  seek_to_first;;
  walk (rounds s.2).

(** An entry as the cursor shows it: a tombstone has no value. *)
Definition shown (e : entry) : entry := (e.1, mkMemEntry (stored e.2) (me_tombstone e.2)).

Lemma wp_walk fuel mode st it w es : stepped mode it w es → in_range st → (length es < fuel)%nat →
  wp (walk fuel) (st, it) w
    (λ rows s' w', same_files w w' ∧ in_range s'.1 ∧ rows = shown <$> visible mode es)
    (λ e s' w', same_files w w' ∧ in_range s'.1 ∧ source_error w e) (same_files w).
Proof.
  revert st it w es. induction fuel as [|fuel IH]; intros st it w es (Hmode & Hok & Hst) Hs Hf; [lia|].
  cbn [walk]. wp_pure. cbn [snd]. destruct Hst as [(Hv & -> & _)|(e & es' & Hv & (-> & Hk & Ht & Hval) & Hm & Hlt)].
  { apply wp_ret. by rewrite Hv. }
  wp_call (wp_next st it w es' Hm Hs Hok). rewrite Hmode. intros _ [st1 it1] w1 Hc1 (Hsf & Hr & Hst1). cbn [fst snd] in *.
  wp_call (IH st1 it1 w1 es' Hst1 Hr); [lia|..].
  - intros rows s2 w2 Hc2 (Hsf2 & Hr2 & ->). apply wp_ret. split_and!; [by etrans|done|]. rewrite Hv. csimpl.
    unfold shown. by rewrite Hk, Ht, Hval.
  - intros err s2 w2 Hc2 (Hsf2 & Hr2 & [Hq Hcode]). split_and!; [by etrans|done|]. split; [eauto with wp|done].
  - intros w2 _ Hsf2. by etrans.
Qed.

Lemma wp_read_all st ss mode w es : merging (new_merging ss mode) w es → in_range st →
  wp read_all (st, new_merging ss mode) w
    (λ rows s' w', same_files w w' ∧ in_range s'.1 ∧ rows = shown <$> visible mode es)
    (λ e s' w', same_files w w' ∧ in_range s'.1 ∧ source_error w e) (same_files w).
Proof.
  intros Hm Hs. unfold read_all. wp_pure. cbn [snd]. unfold seek_to_first. fold next.
  wp_call (wp_next st _ w es Hm Hs eq_refl). intros _ [st1 it1] w1 Hc1 (Hsf & Hr & Hst). cbn [fst snd] in *.
  eapply wp_mono; [eapply (wp_walk _ mode st1 it1 w1 es); [done|done|by eapply merging_rounds]|..]; cbn beta.
  - intros rows s2 w2 Hc2 (Hsf2 & Hr2 & ->). split_and!; [by etrans|done|done].
  - intros err s2 w2 Hc2 (Hsf2 & Hr2 & [Hq Hcode]). split_and!; [by etrans|done|]. split; [eauto with wp|done].
  - intros w2 _ Hsf2. by etrans.
Qed.

(** What the rows of a walk say about the keys. *)
Definition shown_entry (mode : Tombstones) (e : MemEntry) : option MemEntry :=
  if negb (me_tombstone e) || match mode with Emit => true | Skip => false end
  then Some (mkMemEntry (stored e) (me_tombstone e)) else None.

Lemma shown_sorted mode es : ksorted es → ksorted (shown <$> visible mode es).
Proof.
  intros Hs. apply (ksorted_keys (visible mode es)); [|by apply ksorted_filter].
  rewrite <-list_fmap_compose. by apply list_fmap_ext.
Qed.

Lemma shown_map mode es : ksorted es → as_map (shown <$> visible mode es) = omap (shown_entry mode) (as_map es).
Proof.
  induction es as [|[k x] es IH]; [by rewrite as_map_nil, omap_empty|]. intros Hsort. pose proof Hsort as [Hall Hs]%ksorted_cons.
  assert (Hnone : as_map es !! k = None) by (by apply as_map_none_lt).
  rewrite visible_cons, as_map_cons. cbn [snd]. unfold shown_entry at 1.
  destruct (negb (me_tombstone x) || _) eqn:Hb.
  - csimpl. unfold shown at 1. cbn [fst snd]. rewrite as_map_cons, IH by done.
    rewrite omap_insert_Some with (y := mkMemEntry (stored x) (me_tombstone x)); [done|]. unfold shown_entry. by rewrite Hb.
  - rewrite IH by done. rewrite omap_insert_None; [|unfold shown_entry; by rewrite Hb].
    rewrite delete_id; [done|]. by rewrite lookup_omap, Hnone.
Qed.

(** C31: The merging cursor.  Over any sources, a walk from the first row to the end
    terminates and gives every key at most once, in increasing order: the entry of the
    first source that has the key, with deleted keys left out in [Skip] mode and carried
    along in [Emit] mode.  It changes no file, and fails only when a read fails. *)
Theorem merge_correct st ss mode w rs : denote_all ss w rs → in_range st →
  wp read_all (st, new_merging ss mode) w
    (λ rows _ w', same_files w w' ∧ ksorted rows ∧ as_map rows = omap (shown_entry mode) (merged rs))
    (λ e _ w', same_files w w' ∧ source_error w e) (same_files w).
Proof.
  intros Hall Hs. destruct (ksorted_of (merged rs)) as (es & Hsort & Hm).
  eapply wp_mono; [eapply (wp_read_all st ss mode w es); [by exists rs|done]|..]; cbn beta; [|..|done].
  - intros rows s' w' _ (Hsf & _ & ->). split_and!; [done|by apply shown_sorted|]. by rewrite shown_map, Hm.
  - intros e s' w' _ (Hsf & _ & He). done.
Qed.

End Merge.

(** Two memtables, the newer one first. *)
Definition sample_sources : list EntrySource :=
  [memtable_source (MemtableOps.remove (lit "b") MemtableOps.empty_table) [] [];
   memtable_source (MemtableOps.put (lit "a") (lit "1") (MemtableOps.put (lit "b") (lit "2") MemtableOps.empty_table)) [] []].

Lemma merge_correct_witness :
  wp (@read_all reference_platform) (zero_stats, new_merging sample_sources Skip) (mkWorld ∅ [] [])
    (λ rows _ _, ksorted rows ∧ as_map rows = {[ lit "a" := mkMemEntry (lit "1") false ]})
    (λ _ _ _, False) (λ _, True).
Proof.
  eapply wp_mono; [apply (@merge_correct reference_platform zero_stats sample_sources Skip (mkWorld ∅ [] [])
    [[(lit "b", mkMemEntry [] true)]; [(lit "a", mkMemEntry (lit "1") false); (lit "b", mkMemEntry (lit "2") false)]])|..].
  - repeat constructor; by vm_compute.
  - intros c. by vm_compute.
  - intros rows s w' _ (_ & Hs & ->). split; [done|]. by vm_compute.
  - intros e s w' _ (_ & Hq & _). apply Hq, quiet_reliable. done.
  - done.
Defined.
