(* ===== verification/IteratorTables.v ===== *)
(** The tables an iterator reads never change, so what it denotes depends on their
    files alone: other files may come and go between its steps. *)

From S2P Require Import Prelude Status World Wp SortedMap Memtable SSTableFormat SSTableLayout LsmStats SSTable SSTableRead Iterator IteratorSource IteratorMerge.
Import sstable IteratorOps MergingOps.

(** However a method ends, the object it leaves is related to the one it was called on. *)
Definition keeps {S A : Type} (R : S → S → Prop) (m : M S A) : Prop :=
  ∀ s w, match m s w with Ok _ s' _ | Err _ s' _ => R s s' | Died _ | MStuck => True end.

Section Keeps.
Context {S : Type} (R : S → S → Prop) `{!PreOrder R}.

Lemma keeps_ret {A} (a : A) : keeps R (mret a).
Proof. intros s w. cbn. reflexivity. Qed.
Lemma keeps_get : keeps R get.
Proof. intros s w. cbn. reflexivity. Qed.
Lemma keeps_fail {A} e : keeps R (fail (A := A) e).
Proof. intros s w. cbn. reflexivity. Qed.
Lemma keeps_stuck {A} : keeps R (stuck (A := A)).
Proof. done. Qed.
Lemma keeps_liftR {A} (r : result A) : keeps R (liftR r).
Proof. intros s w. unfold liftR. destruct r; cbn; try done; reflexivity. Qed.
Lemma keeps_modify f : (∀ s, R s (f s)) → keeps R (modify f).
Proof. intros Hf s w. apply Hf. Qed.

Lemma keeps_bind {A B} (m : M S A) (k : A → M S B) : keeps R m → (∀ a, keeps R (k a)) → keeps R (m ≫= k).
Proof.
  intros Hm Hk s w. specialize (Hm s w). unfold mbind, M_bind. destruct (m s w) as [a s1 w1|e s1 w1|w1|]; [|done..].
  specialize (Hk a s1 w1). destruct (k a s1 w1); [..|done|done]; by etrans.
Qed.

Lemma keeps_attempt {A} (m : M S A) : keeps R m → keeps R (attempt m).
Proof. intros Hm s w. specialize (Hm s w). unfold attempt. by destruct (m s w). Qed.

Lemma keeps_zoom {T A} (g : S → T) (st : T → S → S) (RT : T → T → Prop) (m : M T A) :
  keeps RT m → (∀ s t, RT (g s) t → R s (st t s)) → keeps R (zoom g st m).
Proof. intros Hm Hst s w. specialize (Hm (g s) w). unfold zoom. destruct (m (g s) w); auto. Qed.

Lemma wp_keeps {A} (m : M S A) s w Q E D : wp m s w Q E D → keeps R m →
  wp m s w (λ a s' w', Q a s' w' ∧ R s s') (λ e s' w', E e s' w' ∧ R s s') D.
Proof. intros Hm Hk. specialize (Hk s w). unfold wp in *. destruct (m s w); naive_solver. Qed.
End Keeps.

Create HintDb keeps.

(** Splits a method into its steps; [keeps] has what is known of them. *)
Ltac keep :=
  repeat (lazymatch goal with
  | |- keeps _ (_ ≫= _) => apply keeps_bind; [apply _| |intros ?]
  | |- keeps _ (if ?b then _ else _) => destruct b
  | |- keeps _ (match ?x with _ => _ end) => destruct x
  | |- keeps _ (attempt _) => apply keeps_attempt
  | |- keeps _ (liftR _) => apply keeps_liftR; apply _
  | |- keeps _ (mret _) => apply keeps_ret; apply _
  | |- keeps _ get => apply keeps_get; apply _
  | |- keeps _ (fail _) => apply keeps_fail; apply _
  | |- keeps _ stuck => apply keeps_stuck
  end; try (by eauto with keeps)).

(** The table behind a source, and the tables of an iterator. *)
Definition source_table (s : EntrySource) : option SSTable :=
  match s with FromMemtable _ => None | FromTable s => Some (ts_table s) end.
Definition iterator_tables (it : MergingIterator) : list (option SSTable) := source_table <$> mi_sources it.

Section Tables.
Context `{Platform}.

Definition same_table (s s' : LsmStats * TableSource) : Prop := ts_table s'.2 = ts_table s.2.
Definition same_source (s s' : LsmStats * EntrySource) : Prop := source_table s'.2 = source_table s.2.
Definition same_tables (s s' : LsmStats * MergingIterator) : Prop := iterator_tables s'.2 = iterator_tables s.2.

#[local] Instance same_table_preorder : PreOrder same_table.
Proof. split; [by intros s|]. intros s1 s2 s3 H1 H2. unfold same_table in *. congruence. Qed.
#[local] Instance same_tables_preorder : PreOrder same_tables.
Proof. split; [by intros s|]. intros s1 s2 s3 H1 H2. unfold same_tables in *. congruence. Qed.

Lemma keeps_modify_source f : (∀ s, ts_table (f s) = ts_table s) → keeps same_table (modify_source f).
Proof. intros Hf. apply keeps_modify. intros s. apply Hf. Qed.
#[local] Hint Extern 1 (keeps _ (modify_source _)) => by apply keeps_modify_source : keeps.

Lemma keeps_load_block i : keeps same_table (load_block i).
Proof.
  unfold load_block. keep. eapply (keeps_zoom _ _ _ (λ _ _, True)); [|done]. intros st w. by destruct (SSTableOps.read_block _ _ _ _).
Qed.
#[local] Hint Resolve keeps_load_block : keeps.

Lemma keeps_apply_upper_bound : keeps same_table apply_upper_bound.
Proof. unfold apply_upper_bound. keep. Qed.
#[local] Hint Resolve keeps_apply_upper_bound : keeps.

Lemma keeps_create_at begin_ : keeps same_table (create_at begin_).
Proof. unfold create_at. cbv zeta. keep. Qed.

Lemma keeps_advance_table : keeps same_table advance_table.
Proof. unfold advance_table. keep. Qed.

Lemma keeps_source_advance : keeps same_source source_advance.
Proof.
  intros [st s] w. unfold source_advance, same_source. cbn. destruct s as [ms|ts]; [by destruct (ms_rest ms)|].
  pose proof (keeps_advance_table (st, ts) w) as Hk. unfold same_table in Hk.
  destruct (advance_table _ w); cbn in *; congruence.
Qed.

Lemma keeps_on_source i : keeps same_tables (on_source i source_advance).
Proof.
  eapply keeps_zoom; [apply keeps_source_advance|]. intros [st it] [st' s'] Hs. unfold same_source, same_tables, iterator_tables in *.
  cbn in *. destruct (mi_sources it !! i) as [s|] eqn:E; cbn in Hs.
  - apply list_eq. intros j. rewrite !list_lookup_fmap. destruct (decide (i = j)) as [<-|Hne].
    + rewrite list_lookup_insert_eq by (by eapply lookup_lt_Some). rewrite E. cbn. by rewrite Hs.
    + by rewrite list_lookup_insert_ne.
  - rewrite list_insert_ge; [done|]. by apply lookup_ge_None.
Qed.

Lemma keeps_modify_it f : (∀ it, mi_sources (f it) = mi_sources it) → keeps same_tables (modify_it f).
Proof. intros Hf. apply keeps_modify. intros s. unfold same_tables, iterator_tables. cbn. by rewrite Hf. Qed.
#[local] Hint Extern 1 (keeps _ (modify_it _)) => by apply keeps_modify_it : keeps.
#[local] Hint Resolve keeps_on_source : keeps.

Lemma keeps_advance_all n i : keeps same_tables (advance_all n i).
Proof. revert i. induction n as [|n IH]; intros i; cbn [advance_all]; keep. Qed.
#[local] Hint Resolve keeps_advance_all : keeps.

Lemma keeps_next : keeps same_tables next.
Proof.
  unfold next, find_next_live. keep. intros; generalize (rounds a0.2). intros fuel.
  induction fuel as [|fuel IH]; cbn [find_next_live_loop]; keep; cbv zeta; keep.
Qed.

(** What a source and a merge denote depends on the files of their tables. *)
Lemma denotes_files s w w' es : denotes s w es →
  (∀ t, source_table s = Some t → w_files w' !! t_path t = w_files w !! t_path t) → denotes s w' es.
Proof.
  destruct s as [ms|ts]; [done|]. intros (bs & Ht & Hes) Hf. exists bs. split; [|done].
  eapply holds_table_files; [exact Ht|]. intros f Hf'. exists f. by rewrite (Hf (ts_table ts) eq_refl).
Qed.

Lemma merging_files it w w' es : merging it w es →
  (∀ t, Some t ∈ iterator_tables it → w_files w' !! t_path t = w_files w !! t_path t) → merging it w' es.
Proof.
  intros (rs & Hall & Hs & Hm) Hf. exists rs. split; [|done]. unfold iterator_tables in Hf. clear Hs Hm.
  induction Hall as [|s r ss rs Hd Hall IH]; constructor.
  - eapply denotes_files; [done|]. intros t Ht. apply Hf. csimpl. rewrite Ht. by left.
  - apply IH. intros t Ht. apply Hf. csimpl. by right.
Qed.
End Tables.
