(* ===== verification/Wal.v ===== *)
(** The write-ahead log: [include/kvstore/wal.hpp], [src/wal.cpp].

    A log of puts and deletes in the record format.  Replaying what any crash left
    behind applies exactly the acknowledged writes, in order, and cuts the torn one
    off; without that cut a later append would be lost behind it. *)

From S2P Require Import Prelude Status World Wp SortedMap Record LogFile LogScan Memtable.
Import record.

#[local] Opaque encode decode decode_header.

Record Wal : Type := mkWal { wal_file : LogFile }.

Module WalOps.
Section WalOps.
Context `{Platform}.

Definition set_file (l : LogFile) (wal : Wal) : Wal := mkWal l.

(** [Wal::open]. *)
Definition open {S : Type} (path : bytes) (mode : SyncMode) : M S Wal :=
  file ← LogFileOps.open path mode; mret (mkWal file).

(** [Wal::append]. *)
Definition append (key value : bytes) (tombstone : bool) : M Wal unit :=
  timestamp ← now_nanos;
  let bs := encode key (if tombstone then [] else value) timestamp tombstone in
  _ ← zoom wal_file set_file (LogFileOps.append bs);
  mret tt.

(** The visitor of [Wal::replay_into]: the captured memtable and record count. *)
Definition replay_visit (_ : Z) (rec : Record_) (_ : bytes) : M (Memtable * Z) unit :=
  modify (λ '(into, replayed),
    (if r_is_tombstone rec then MemtableOps.remove (r_key rec) into
     else MemtableOps.put (r_key rec) (r_value rec) into, u64 (replayed + 1))).

(** [Wal::replay_into], with the memtable it fills. *)
Definition replay_into : M (Wal * Memtable) Z :=
  s ← get;
  scanned ← with_local (s.2, 0) (scan_records (wal_file s.1) replay_visit);
  let '(good_end, (into, replayed)) := scanned in
  put (s.1, into);;
  (if negb (good_end =? end_offset_ (wal_file s.1)) then
     zoom (λ s, wal_file s.1) (λ l s, (mkWal l, s.2)) (LogFileOps.truncate good_end)
   else mret tt);;
  mret replayed.

(** [Wal::sync], [Wal::close], [Wal::size]. *)
Definition sync : M Wal unit := zoom wal_file set_file LogFileOps.sync.
Definition close : M Wal unit := zoom wal_file set_file LogFileOps.close.
Definition size (wal : Wal) : Z := end_offset_ (wal_file wal).

(** * Specification *)

(** The write a log entry stands for; a delete writes [None]. *)
Definition kv_of (x : write) : bytes * option bytes :=
  (wr_key x, if wr_tomb x then None else Some (wr_value x)).

(** An open log that holds exactly the writes [xs]. *)
Definition holds_log (wal : Wal) (w : World) (xs : list write) : Prop :=
  Forall valid_write xs ∧ ∃ f, LogFileOps.holds (wal_file wal) w f (log_of xs) [].

Lemma wp_wal_open {S} path mode (s : S) w : reliable w →
  sz (f_data (LogFileOps.opened_file path (w_files w))) ≤ UINT64_MAX →
  wp (open path mode) s w
    (λ wal s' w', s' = s ∧ files_are (LogFileOps.opened path (w_files w)) w w' ∧
      wal = mkWal (mkLogFile true path (sz (f_data (LogFileOps.opened_file path (w_files w)))) mode))
    (λ _ _ _, False)
    (λ w', same_files w w' ∨ files_are (LogFileOps.opened path (w_files w)) w w').
Proof.
  intros Hr Hmax. unfold open. wp_call LogFileOps.wp_open; [done|..].
  - intros l ? w1 _ (-> & Hfs & ->). by apply wp_ret.
  - intros e ? w1 _ (_ & Hq & _). done.
Qed.

Lemma wp_wal_close wal w : lf_open (wal_file wal) = true →
  wp close wal w (λ _ _ w', same_files w w') (λ _ _ _, ¬ reliable w) (same_files w).
Proof.
  intros Ho. unfold close. apply wp_zoom. eapply wp_mono; [by apply LogFileOps.wp_close|naive_solver|naive_solver|done].
Qed.

(** The write [append] logs. *)
Definition write_of (key value : bytes) (tombstone : bool) (ts : Z) : write :=
  mkWrite key (if tombstone then [] else value) ts tombstone.

Lemma valid_write_of key value tomb ts : fits key value tomb → 0 ≤ ts ≤ UINT64_MAX →
  valid_write (write_of key value tomb ts).
Proof. intros [? ?] ?. split; [|done]. split; [done|]. by destruct tomb. Qed.

Lemma kv_of_write key value tomb ts :
  kv_of (write_of key value tomb ts) = (key, if tomb then None else Some value).
Proof. by destruct tomb. Qed.

(** What a file of writes can look like after a crash in an append. *)
Definition crash_log (xs : list write) (x : write) (data : bytes) : Prop :=
  data = log_of (xs ++ [x]) ∨ ∃ tl, torn tl ∧ data = log_of xs ++ tl.

Lemma torn_take n tl : torn tl → torn (take n tl).
Proof.
  intros [->|(x & k & Hx & Hk & ->)]; [left; by rewrite take_nil|]. right. exists x, (Nat.min n k). split_and!; [done|lia|]. by rewrite take_take.
Qed.

(** A cut behind the acknowledged writes leaves such a file again. *)
Lemma crash_log_take xs x data n : valid_write x → crash_log xs x data → (length (log_of xs) ≤ n)%nat → crash_log xs x (take n data).
Proof.
  intros Hx Hc Hn. destruct Hc as [->|(tl & Htl & ->)].
  - rewrite log_of_snoc, take_app_ge by done. destruct (decide (length (enc x) ≤ n - length (log_of xs))%nat).
    + left. by rewrite log_of_snoc, (take_ge (enc x)).
    + right. eexists. split; [|done]. right. exists x, (n - length (log_of xs))%nat. split_and!; [done|lia|done].
  - right. rewrite take_app_ge by done. eexists. split; [by apply torn_take|done].
Qed.

Lemma wp_wal_append wal w xs key value tomb : reliable w → holds_log wal w xs → fits key value tomb →
  sz (log_of xs) + kMaxRecordSize ≤ UINT64_MAX →
  wp (append key value tomb) wal w
    (λ _ wal' w', ∃ ts f', 0 ≤ ts ≤ UINT64_MAX ∧
      holds_log wal' w' (xs ++ [write_of key value tomb ts]) ∧
      w_files w' = <[lf_path (wal_file wal) := f']> (w_files w) ∧
      lf_path (wal_file wal') = lf_path (wal_file wal) ∧
      sync_mode_ (wal_file wal') = sync_mode_ (wal_file wal) ∧
      (sync_mode_ (wal_file wal) = Always → f_synced f' = length (f_data f')))
    (λ _ _ _, False)
    (λ w', ∃ ts f', 0 ≤ ts ≤ UINT64_MAX ∧
      w_files w' = <[lf_path (wal_file wal) := f']> (w_files w) ∧
      crash_log xs (write_of key value tomb ts) (f_data f') ∧
      ∀ f, w_files w !! lf_path (wal_file wal) = Some f → (Nat.min (f_synced f) (length (log_of xs)) ≤ f_synced f')%nat).
Proof.
  intros Hr (Hv & f & Hh) Hfits Hmax. unfold append. wp_call wp_now_nanos.
  intros ts ? w1 Hc (-> & Hfs & Hts). set (x := write_of key value tomb ts).
  assert (Hx : valid_write x) by by apply valid_write_of.
  pose proof (sz_enc x Hx) as Hsz. destruct (proj1 Hx) as [_ Hcap]. rewrite <-Hsz in Hcap.
  assert (Hh1 : LogFileOps.holds (wal_file wal) w1 f (log_of xs) []).
  { destruct Hh as (? & ? & ? & ?). split_and!; [done|by rewrite Hfs|done|done]. }
  change (encode _ _ _ _) with (enc x). cbv zeta.
  eapply wp_bind_zoom; [apply (LogFileOps.wp_append _ w1 f _ [] (enc x) Hh1); lia|..]; cbn beta.
  - intros off l1 w2 _ (_ & -> & f' & [Hfs2 _] & (_ & Hd & _) & Hsync). apply wp_ret.
    exists ts, f'. rewrite Hfs in Hfs2. rewrite firstn_all, drop_nil, app_nil_r in Hd.
    split_and!; [lia|lia| |done|done|done|done].
    split; [apply Forall_app; split; [done|by apply Forall_singleton]|]. exists f'. split_and!; simpl.
    + by destruct Hh.
    + by rewrite Hfs2, lookup_insert_eq.
    + by rewrite log_of_snoc, app_nil_r.
    + by rewrite log_of_snoc, sz_app.
  - intros e l1 w2 _ [Hq _]. apply Hq. eauto with wp.
  - intros w2 _ (f' & k & [Hfs2 _] & Hk & Hd & Hsy). exists ts, f'. rewrite Hfs in Hfs2.
    split_and!; [lia|lia|done| |by destruct Hh as (_ & -> & _); intros ? [= <-]]. rewrite drop_nil, app_nil_r in Hd. fold x.
    destruct (decide (k = length (enc x))) as [->|Hne].
    + left. by rewrite Hd, firstn_all, log_of_snoc.
    + right. exists (take k (enc x)). split; [|done]. right. exists x, k. split_and!; [done|lia|done].
Qed.

(** The visitor applies the write of the record it is shown. *)
Lemma replay_visit_apply x m n o raw w :
  replay_visit o (rec_of x) raw (m, n) w = Ok tt (MemtableOps.apply_write m (kv_of x), u64 (n + 1)) w.
Proof.
  destruct x as [k v ts [|]]; reflexivity.
Qed.

(** Replaying applies every write of the log, in order. *)
Lemma wp_replay_scan wal w f xs tl m : reliable w → Forall valid_write xs → torn tl →
  LogFileOps.holds (wal_file wal) w f (log_of xs ++ tl) [] → sz (log_of xs ++ tl) ≤ INT64_MAX →
  wp (scan_records (wal_file wal) replay_visit) (m, 0) w
    (λ n s w', n = sz (log_of xs) ∧ same_files w w' ∧
       s = (foldl MemtableOps.apply_write m (kv_of <$> xs), u64 (sz xs)))
    (λ _ _ _, False) (λ w', same_files w w').
Proof.
  intros Hr Hv Ht (Ho & Hf & Hd & He) Hmax.
  pose (I := λ (done : list (Z * Record_ * bytes)) (s : Memtable * Z) (w' : World),
    same_files w w' ∧ ∃ ys zs, xs = ys ++ zs ∧ done = entries_from 0 ys ∧
      s = (foldl MemtableOps.apply_write m (kv_of <$> ys), u64 (sz ys))).
  eapply wp_mono; [eapply (wp_scan_records (wal_file wal) f (log_of xs ++ tl) [] replay_visit I
    (λ _ _ _, False) (same_files w) (entries_from 0 xs) tl w)| |done|done]; try done.
  - by apply parse_log_of, torn_next.
  - intros done v w1 [[-> _] _]. done.
  - intros done v w1 w2 [[??] ?] [??] _. split; [split; congruence|done].
  - intros done v w1 w2 [[??] ?] _ [??]. split; congruence.
  - intros done o r raw rest v w1 Hes _ _ [Hs (ys & zs & Exs & -> & ->)] _.
    rewrite Exs, entries_from_app in Hes. apply app_inv_head in Hes.
    destruct zs as [|x zs]; simplify_eq/=. unfold wp. rewrite replay_visit_apply.
    split; [done|]. split; [done|]. exists (ys ++ [x]), zs. split_and!.
    + by rewrite <-app_assoc.
    + by rewrite entries_from_app.
    + rewrite fmap_app, foldl_app, sz_app. simpl. f_equal. by rewrite MemtableOps.u64_add_l.
  - split; [done|]. by exists [], xs.
  - intros n s w1 _ (done & rest & Hes & -> & [Hs (ys & zs & Exs & -> & ->)] & Hrest).
    rewrite (Hrest Hr), app_nil_r in Hes. rewrite raws_entries.
    enough (xs = ys) as -> by done. rewrite Exs, entries_from_app in Hes.
    rewrite <-(app_nil_r (entries_from 0 ys)) in Hes at 2. apply app_inv_head in Hes.
    destruct zs; [by rewrite Exs, app_nil_r|done].
Qed.

Lemma wp_replay_into wal w f xs tl m : reliable w → Forall valid_write xs → torn tl →
  LogFileOps.holds (wal_file wal) w f (log_of xs ++ tl) [] → sz (log_of xs ++ tl) ≤ INT64_MAX →
  wp replay_into (wal, m) w
    (λ n s w', n = u64 (sz xs) ∧ s.2 = foldl MemtableOps.apply_write m (kv_of <$> xs) ∧
       holds_log s.1 w' xs ∧ lf_path (wal_file s.1) = lf_path (wal_file wal) ∧
       ∃ f', w_files w' = <[lf_path (wal_file wal) := f']> (w_files w))
    (λ _ _ _, False)
    (λ w', ∃ f', w_files w' = <[lf_path (wal_file wal) := f']> (w_files w) ∧
       (f_data f' = log_of xs ++ tl ∨ f_data f' = log_of xs)).
Proof.
  intros Hr Hv Ht Hh Hmax. pose proof Hh as (Ho & Hf & Hd & He). rewrite app_nil_r in Hd.
  unfold replay_into. wp_pure.
  eapply wp_bind_local; [by eapply wp_replay_scan|..]; cbn beta; [|done|].
  2: { intros w1 _ [Hs _]. exists f. rewrite insert_id by done. eauto. }
  intros n [into cnt] w1 Hc (-> & [Hs _] & [= -> ->]). wp_pure. cbn [fst snd].
  rewrite He, sz_app. destruct (Z.eqb_spec (sz (log_of xs)) (sz (log_of xs) + sz tl)) as [E|E]; cbn [negb].
  - assert (tl = []) as -> by (apply sz_zero_nil; lia). rewrite app_nil_r in *. wp_pure. apply wp_ret.
    split_and!; [done|done| |done|exists f; by rewrite insert_id].
    split; [done|]. exists f. split_and!; [done|by rewrite Hs|by rewrite app_nil_r|done].
  - assert (Htr : f_data (platform.truncate_file (sz (log_of xs)) f) = log_of xs)
      by (by eapply LogFileOps.truncate_file_data).
    pose proof (sz_nonneg (log_of xs)). pose proof (sz_nonneg tl).
    eapply wp_bind_zoom; [apply (LogFileOps.wp_truncate (wal_file wal) w1 f (sz (log_of xs)))|..]; cbn beta;
      [done|by rewrite Hs|rewrite Hd, sz_app; lia|..].
    + intros [] l w2 _ (-> & [Hs2 _]). apply wp_ret. rewrite Hs in Hs2.
      split_and!; [done|done| |done|by eexists].
      split; [done|]. eexists. split_and!; [done|by rewrite Hs2, lookup_insert_eq|by rewrite app_nil_r|done].
    + intros e l w2 _ [Hq _]. apply Hq. eauto with wp.
    + intros w2 _ [[Hs2 _]|[Hs2 _]]; rewrite Hs in Hs2.
      * exists f. rewrite insert_id by done. eauto.
      * eexists. eauto.
Qed.

(** C29: Whatever a crash in the last append left in a log, replaying it applies exactly
    the acknowledged writes to the memtable, in the order they were made, and leaves
    a log of exactly those writes, ready to be appended to. *)
Theorem wal_replay wal w f xs tl m : reliable w → Forall valid_write xs → torn tl →
  LogFileOps.holds (wal_file wal) w f (log_of xs ++ tl) [] → sz (log_of xs ++ tl) ≤ INT64_MAX →
  wp replay_into (wal, m) w
    (λ n s w', n = u64 (sz xs) ∧ s.2 = foldl MemtableOps.apply_write m (kv_of <$> xs) ∧
       holds_log s.1 w' xs)
    (λ _ _ _, False)
    (λ w', ∃ f', w_files w' !! lf_path (wal_file wal) = Some f' ∧
       (f_data f' = log_of xs ++ tl ∨ f_data f' = log_of xs)).
Proof.
  intros Hr Hv Ht Hh Hmax. eapply wp_mono; [by eapply wp_replay_into|..].
  - intros n s w1 _ (? & ? & ? & _). done.
  - done.
  - intros w1 _ (f' & -> & ?). exists f'. by rewrite lookup_insert_eq.
Qed.

End WalOps.

Lemma wal_replay_witness :
  wp (@replay_into reference_platform) (mkWal sample_scan_log, MemtableOps.empty_table) sample_scan_world
    (λ n s _, n = 1 ∧ MemtableOps.get (lit "k") s.2 = Some (mkMemEntry (lit "v") false))
    (λ _ _ _, False) (λ _, True).
Proof.
  eapply wp_mono; [apply (@wal_replay reference_platform (mkWal sample_scan_log) sample_scan_world
    (mkFile sample_data 0) [sample_write (lit "k") (lit "v")]
    (take 10 (@enc reference_platform (sample_write (lit "q") (lit "w")))) MemtableOps.empty_table)|..].
  - by apply quiet_reliable.
  - constructor; [by apply sample_write_valid|constructor].
  - right. exists (sample_write (lit "q") (lit "w")), 10%nat. split_and!; [by apply sample_write_valid| |done].
    vm_compute. lia.
  - split_and!; vm_compute; reflexivity.
  - vm_compute. intros [=].
  - intros n s w' _ (-> & -> & _). split; vm_compute; reflexivity.
  - done.
  - done.
Defined.

End WalOps.
