(* ===== verification/LsmState.v ===== *)
(** The LSM engine, part one: the members of [LsmStore] ([include/kvstore/lsm.hpp])
    and the helpers its operations share.

    A [Version] is the level set it holds.  A table lives while something refers to
    it: the level set, the published version, or a version a reader has taken.  The
    versions readers hold are [st_pins]; tables marked obsolete whose last reference
    is not gone yet are [st_obsolete].  The two locks and the condition variable are
    not data: operations are split where the code releases a lock. *)

From S2P Require Import Prelude Status FileNames World Encoding Record LogFile Bloom SortedMap Memtable SSTableFormat Manifest LsmStats SSTable Wal.

Inductive LsmFailPoint : Type :=
| FpNone | FpAfterWritingTable | FpAfterInstallingTable | FpAfterManifestCommit.

Record LsmOptions : Type := mkLsmOptions {
  lo_sync_mode : SyncMode;
  lo_memtable_size : Z;
  lo_block_size : Z;
  lo_bits_per_key : Z;
  lo_bloom_enabled : bool;
  lo_read_mode : ReadMode;
  lo_l0_compaction_trigger : Z;
  lo_level_base_bytes : Z;
  lo_level_multiplier : Z;
  lo_target_table_size : Z;
  lo_max_levels : Z;
  lo_fail_at : LsmFailPoint;
}.

(** The default member initialisers. *)
Definition default_lsm_options : LsmOptions :=
  mkLsmOptions Always (Z.shiftl 4 20) sstable.kDefaultBlockSize bloom.kDefaultBitsPerKey true Pread
    4 (Z.shiftl 10 20) 10 (Z.shiftl 2 20) 7 FpNone.

Abbreviation Levels := (list (list SSTable)).

Record LsmStore : Type := mkLsmStore {
  st_dir : bytes;
  st_options : LsmOptions;
  st_stats : LsmStats;
  st_stopping : bool;
  st_background_busy : bool;
  st_compact_requested : bool;
  st_halted_by_fail_point : bool;
  st_background_status : Status;
  st_mem : Memtable;
  st_imm : option Memtable;
  st_imm_wal_id : Z;
  st_imm_table_id : Z;
  st_wal : option Wal;
  st_wal_id : Z;
  st_levels : Levels;
  st_current : Levels;
  st_compact_pointer : list bytes;
  st_next_id : Z;
  st_pins : list Levels;
  st_obsolete : list SSTable;
}.

(** The constructor, and [mem_] as [LsmStore::open] sets it. *)
Definition new_store (directory : bytes) (options : LsmOptions) : LsmStore :=
  mkLsmStore directory options zero_stats false false false false ok MemtableOps.empty_table None 0 0
    None 0 [] [] [] kFirstFileId [] [].

(** Assignments to members. *)
Definition st_set_options (x : LsmOptions) (s : LsmStore) : LsmStore :=
  mkLsmStore (st_dir s) x (st_stats s) (st_stopping s) (st_background_busy s) (st_compact_requested s)
    (st_halted_by_fail_point s) (st_background_status s) (st_mem s) (st_imm s)
    (st_imm_wal_id s) (st_imm_table_id s) (st_wal s) (st_wal_id s) (st_levels s)
    (st_current s) (st_compact_pointer s) (st_next_id s) (st_pins s) (st_obsolete s).
Definition st_set_stats (x : LsmStats) (s : LsmStore) : LsmStore :=
  mkLsmStore (st_dir s) (st_options s) x (st_stopping s) (st_background_busy s)
    (st_compact_requested s) (st_halted_by_fail_point s) (st_background_status s) (st_mem s)
    (st_imm s) (st_imm_wal_id s) (st_imm_table_id s) (st_wal s) (st_wal_id s) (st_levels s)
    (st_current s) (st_compact_pointer s) (st_next_id s) (st_pins s) (st_obsolete s).
Definition st_set_stopping (x : bool) (s : LsmStore) : LsmStore :=
  mkLsmStore (st_dir s) (st_options s) (st_stats s) x (st_background_busy s) (st_compact_requested s)
    (st_halted_by_fail_point s) (st_background_status s) (st_mem s) (st_imm s)
    (st_imm_wal_id s) (st_imm_table_id s) (st_wal s) (st_wal_id s) (st_levels s)
    (st_current s) (st_compact_pointer s) (st_next_id s) (st_pins s) (st_obsolete s).
Definition st_set_background_busy (x : bool) (s : LsmStore) : LsmStore :=
  mkLsmStore (st_dir s) (st_options s) (st_stats s) (st_stopping s) x (st_compact_requested s)
    (st_halted_by_fail_point s) (st_background_status s) (st_mem s) (st_imm s)
    (st_imm_wal_id s) (st_imm_table_id s) (st_wal s) (st_wal_id s) (st_levels s)
    (st_current s) (st_compact_pointer s) (st_next_id s) (st_pins s) (st_obsolete s).
Definition st_set_compact_requested (x : bool) (s : LsmStore) : LsmStore :=
  mkLsmStore (st_dir s) (st_options s) (st_stats s) (st_stopping s) (st_background_busy s) x
    (st_halted_by_fail_point s) (st_background_status s) (st_mem s) (st_imm s)
    (st_imm_wal_id s) (st_imm_table_id s) (st_wal s) (st_wal_id s) (st_levels s)
    (st_current s) (st_compact_pointer s) (st_next_id s) (st_pins s) (st_obsolete s).
Definition st_set_halted_by_fail_point (x : bool) (s : LsmStore) : LsmStore :=
  mkLsmStore (st_dir s) (st_options s) (st_stats s) (st_stopping s) (st_background_busy s)
    (st_compact_requested s) x (st_background_status s) (st_mem s) (st_imm s)
    (st_imm_wal_id s) (st_imm_table_id s) (st_wal s) (st_wal_id s) (st_levels s)
    (st_current s) (st_compact_pointer s) (st_next_id s) (st_pins s) (st_obsolete s).
Definition st_set_background_status (x : Status) (s : LsmStore) : LsmStore :=
  mkLsmStore (st_dir s) (st_options s) (st_stats s) (st_stopping s) (st_background_busy s)
    (st_compact_requested s) (st_halted_by_fail_point s) x (st_mem s) (st_imm s)
    (st_imm_wal_id s) (st_imm_table_id s) (st_wal s) (st_wal_id s) (st_levels s)
    (st_current s) (st_compact_pointer s) (st_next_id s) (st_pins s) (st_obsolete s).
Definition st_set_mem (x : Memtable) (s : LsmStore) : LsmStore :=
  mkLsmStore (st_dir s) (st_options s) (st_stats s) (st_stopping s) (st_background_busy s)
    (st_compact_requested s) (st_halted_by_fail_point s) (st_background_status s) x
    (st_imm s) (st_imm_wal_id s) (st_imm_table_id s) (st_wal s) (st_wal_id s) (st_levels s)
    (st_current s) (st_compact_pointer s) (st_next_id s) (st_pins s) (st_obsolete s).
Definition st_set_imm (x : option Memtable) (s : LsmStore) : LsmStore :=
  mkLsmStore (st_dir s) (st_options s) (st_stats s) (st_stopping s) (st_background_busy s)
    (st_compact_requested s) (st_halted_by_fail_point s) (st_background_status s) (st_mem s)
    x (st_imm_wal_id s) (st_imm_table_id s) (st_wal s) (st_wal_id s) (st_levels s)
    (st_current s) (st_compact_pointer s) (st_next_id s) (st_pins s) (st_obsolete s).
Definition st_set_imm_wal_id (x : Z) (s : LsmStore) : LsmStore :=
  mkLsmStore (st_dir s) (st_options s) (st_stats s) (st_stopping s) (st_background_busy s)
    (st_compact_requested s) (st_halted_by_fail_point s) (st_background_status s) (st_mem s)
    (st_imm s) x (st_imm_table_id s) (st_wal s) (st_wal_id s) (st_levels s) (st_current s)
    (st_compact_pointer s) (st_next_id s) (st_pins s) (st_obsolete s).
Definition st_set_imm_table_id (x : Z) (s : LsmStore) : LsmStore :=
  mkLsmStore (st_dir s) (st_options s) (st_stats s) (st_stopping s) (st_background_busy s)
    (st_compact_requested s) (st_halted_by_fail_point s) (st_background_status s) (st_mem s)
    (st_imm s) (st_imm_wal_id s) x (st_wal s) (st_wal_id s) (st_levels s) (st_current s)
    (st_compact_pointer s) (st_next_id s) (st_pins s) (st_obsolete s).
Definition st_set_wal (x : option Wal) (s : LsmStore) : LsmStore :=
  mkLsmStore (st_dir s) (st_options s) (st_stats s) (st_stopping s) (st_background_busy s)
    (st_compact_requested s) (st_halted_by_fail_point s) (st_background_status s) (st_mem s)
    (st_imm s) (st_imm_wal_id s) (st_imm_table_id s) x (st_wal_id s) (st_levels s)
    (st_current s) (st_compact_pointer s) (st_next_id s) (st_pins s) (st_obsolete s).
Definition st_set_wal_id (x : Z) (s : LsmStore) : LsmStore :=
  mkLsmStore (st_dir s) (st_options s) (st_stats s) (st_stopping s) (st_background_busy s)
    (st_compact_requested s) (st_halted_by_fail_point s) (st_background_status s) (st_mem s)
    (st_imm s) (st_imm_wal_id s) (st_imm_table_id s) (st_wal s) x (st_levels s)
    (st_current s) (st_compact_pointer s) (st_next_id s) (st_pins s) (st_obsolete s).
Definition st_set_levels (x : Levels) (s : LsmStore) : LsmStore :=
  mkLsmStore (st_dir s) (st_options s) (st_stats s) (st_stopping s) (st_background_busy s)
    (st_compact_requested s) (st_halted_by_fail_point s) (st_background_status s) (st_mem s)
    (st_imm s) (st_imm_wal_id s) (st_imm_table_id s) (st_wal s) (st_wal_id s) x
    (st_current s) (st_compact_pointer s) (st_next_id s) (st_pins s) (st_obsolete s).
Definition st_set_current (x : Levels) (s : LsmStore) : LsmStore :=
  mkLsmStore (st_dir s) (st_options s) (st_stats s) (st_stopping s) (st_background_busy s)
    (st_compact_requested s) (st_halted_by_fail_point s) (st_background_status s) (st_mem s)
    (st_imm s) (st_imm_wal_id s) (st_imm_table_id s) (st_wal s) (st_wal_id s) (st_levels s) x
    (st_compact_pointer s) (st_next_id s) (st_pins s) (st_obsolete s).
Definition st_set_compact_pointer (x : list bytes) (s : LsmStore) : LsmStore :=
  mkLsmStore (st_dir s) (st_options s) (st_stats s) (st_stopping s) (st_background_busy s)
    (st_compact_requested s) (st_halted_by_fail_point s) (st_background_status s) (st_mem s)
    (st_imm s) (st_imm_wal_id s) (st_imm_table_id s) (st_wal s) (st_wal_id s) (st_levels s)
    (st_current s) x (st_next_id s) (st_pins s) (st_obsolete s).
Definition st_set_next_id (x : Z) (s : LsmStore) : LsmStore :=
  mkLsmStore (st_dir s) (st_options s) (st_stats s) (st_stopping s) (st_background_busy s)
    (st_compact_requested s) (st_halted_by_fail_point s) (st_background_status s) (st_mem s)
    (st_imm s) (st_imm_wal_id s) (st_imm_table_id s) (st_wal s) (st_wal_id s) (st_levels s)
    (st_current s) (st_compact_pointer s) x (st_pins s) (st_obsolete s).
Definition st_set_pins (x : list Levels) (s : LsmStore) : LsmStore :=
  mkLsmStore (st_dir s) (st_options s) (st_stats s) (st_stopping s) (st_background_busy s)
    (st_compact_requested s) (st_halted_by_fail_point s) (st_background_status s) (st_mem s)
    (st_imm s) (st_imm_wal_id s) (st_imm_table_id s) (st_wal s) (st_wal_id s) (st_levels s)
    (st_current s) (st_compact_pointer s) (st_next_id s) x (st_obsolete s).
Definition st_set_obsolete (x : list SSTable) (s : LsmStore) : LsmStore :=
  mkLsmStore (st_dir s) (st_options s) (st_stats s) (st_stopping s) (st_background_busy s)
    (st_compact_requested s) (st_halted_by_fail_point s) (st_background_status s) (st_mem s)
    (st_imm s) (st_imm_wal_id s) (st_imm_table_id s) (st_wal s) (st_wal_id s) (st_levels s)
    (st_current s) (st_compact_pointer s) (st_next_id s) (st_pins s) x.

Module LsmState.
Section LsmState.
Context `{Platform}.

(** A statement that bumps a counter, and a call that may bump some. *)
Definition on_stats {A : Type} (m : M LsmStats A) : M LsmStore A := zoom st_stats st_set_stats m.
Definition bump_stat (c : counter) (by_ : Z) : M LsmStore unit := on_stats (modify (bump c by_)).

(** [next_id_++]. *)
Definition claim_id : M LsmStore Z :=
  st ← get;
  modify (st_set_next_id (u32 (st_next_id st + 1)));;
  mret (st_next_id st).

(** [KVSTORE_RETURN_IF_ERROR(background_status_)]. *)
Definition check_background : M LsmStore unit :=
  st ← get;
  fail_when (negb (is_ok (st_background_status st))) (st_background_status st).

(** [LsmStore::sync_dir]. *)
Definition sync_dir : M LsmStore unit :=
  rc ← platform.sync_directory;
  st ← get;
  fail_when (negb (rc =? 0)) (io_error (lit "fsync directory " ++ st_dir st ++ lit ": " ++ os_error_text)).

(** [LsmStore::level_set_of]. *)
Definition meta_of (table : SSTable) : manifest.TableMeta :=
  manifest.mkTableMeta (t_id table) (t_file_size table) (sstable.ft_entry_count (t_footer table))
    (t_min_key table) (t_max_key table).
Definition level_set_of (levels : Levels) (next_id : Z) : manifest.LevelSet :=
  manifest.mkLevelSet next_id (map (map meta_of) levels).

(** [LsmStore::commit_manifest]. *)
Definition commit_manifest (levels : Levels) (next_id : Z) : M LsmStore unit :=
  manifest.write_atomic (level_set_of levels next_id).

(** [LsmStore::publish_locked]. *)
Definition publish_locked : M LsmStore unit :=
  st ← get; modify (st_set_current (st_levels st)).

(** [LsmStore::level_bytes_locked]. *)
Definition level_bytes_locked (st : LsmStore) (level : nat) : Z :=
  match st_levels st !! level with
  | None => 0
  | Some tables => foldl (λ bs t, u64 (bs + t_file_size t)) 0 tables
  end.

(** [SSTable::open] with the options of the store. *)
Definition open_table (id : Z) : M LsmStore SSTable :=
  st ← get;
  SSTableOps.open (sst_file_name id) id true (lo_read_mode (st_options st)) (lo_bloom_enabled (st_options st)).

(** ** Lifetime of tables *)

(** Whether something still refers to the table. *)
Definition referenced (st : LsmStore) (t : SSTable) : bool :=
  existsb (λ levels, existsb (λ x, t_id x =? t_id t) (concat levels))
    (st_levels st :: st_current st :: st_pins st).

(** The destructors that run once references have gone. *)
Fixpoint destroy_all (tables : list SSTable) : M LsmStore unit :=
  match tables with
  | [] => mret tt
  | t :: rest => SSTableOps.destroy true t;; destroy_all rest
  end.

Definition collect : M LsmStore unit :=
  st ← get;
  let dead := filter (λ t, referenced st t = false) (st_obsolete st) in
  modify (st_set_obsolete (filter (λ t, referenced st t = true) (st_obsolete st)));;
  destroy_all dead.

(** A reader takes the published version, and lets go of it. *)
Definition pin_version : M LsmStore Levels :=
  st ← get;
  modify (st_set_pins (st_current st :: st_pins st));;
  mret (st_current st).

Definition same_ids (a b : Levels) : bool :=
  bool_decide (map (map t_id) a = map (map t_id) b).

Fixpoint remove_pin (v : Levels) (pins : list Levels) : list Levels :=
  match pins with
  | [] => []
  | p :: pins => if same_ids p v then pins else p :: remove_pin v pins
  end.

Definition unpin_version (v : Levels) : M LsmStore unit :=
  modify (λ st, st_set_pins (remove_pin v (st_pins st)) st);;
  collect.

End LsmState.
End LsmState.
