(* ===== verification/LsmCompact.v ===== *)
(** The LSM engine, part two: leveled compaction, [src/lsm_compaction.cpp].

    [compact_once] is split where it takes and releases the lock: the merge and the
    commit run without it, the installation under it, the retirement of the inputs
    without it again. *)

From S2P Require Import Prelude Status FileNames World Encoding Record LogFile Bloom SortedMap Memtable SSTableFormat Manifest LsmStats SSTable Iterator Wal LsmState.

(** [LsmStore::Compaction]. *)
Record Compaction : Type := mkCompaction {
  cw_level : nat;
  cw_inputs : list SSTable;
  cw_overlaps : list SSTable;
  cw_begin : bytes;
  cw_end : bytes;
  cw_drop_tombstones : bool;
}.

Module LsmCompact.
Section LsmCompact.
Context `{Platform}.
Import LsmState.

(** * Picking *)

Definition ranges_overlap (a_min a_max b_min b_max : bytes) : bool :=
  negb (ltb a_max b_min || ltb b_max a_min).

(** [std::min] and [std::max] of strings. *)
Definition key_min (a b : bytes) : bytes := if ltb b a then b else a.
Definition key_max (a b : bytes) : bytes := if ltb a b then b else a.

(** [LsmStore::level_budget]. *)
Definition level_budget (st : LsmStore) (level : nat) : Z :=
  Nat.iter (level - 1) (λ budget, u64 (budget * lo_level_multiplier (st_options st)))
    (lo_level_base_bytes (st_options st)).

(** [LsmStore::can_drop_tombstones]. *)
Definition can_drop_tombstones (st : LsmStore) (output_level : nat) (begin_ end_ : bytes) : bool :=
  forallb (forallb (λ table, negb (ranges_overlap begin_ end_ (t_min_key table) (t_max_key table))))
    (drop (output_level + 1) (st_levels st)).

Definition is_empty {A : Type} (l : list A) : bool := match l with [] => true | _ => false end.

(** The shallowest level with something in it and something below it. *)
Fixpoint shallowest (levels : Levels) (level : nat) : option nat :=
  match levels with
  | [] => None
  | tables :: deeper =>
      if negb (is_empty tables) && existsb (λ l, negb (is_empty l)) deeper then Some level
      else shallowest deeper (S level)
  end.

(** The shallowest level from [level] on that is over its budget. *)
Fixpoint over_budget (st : LsmStore) (n level : nat) : option nat :=
  match n with
  | O => None
  | S n =>
      if (level <? length (st_levels st))%nat && (Z.of_nat level + 1 <? lo_max_levels (st_options st)) then
        if negb (is_empty (default [] (st_levels st !! level))) &&
           (level_budget st level <? level_bytes_locked st level) then Some level
        else over_budget st n (S level)
      else None
  end.

(** The table after the pointer of its level, or the first. *)
Definition pick_table (pointer : bytes) (front : SSTable) (level : list SSTable) : SSTable :=
  match pointer with
  | [] => front
  | _ => default front (List.find (λ table, ltb pointer (t_min_key table)) level)
  end.

(** The level to merge and its tables. *)
Definition pick_inputs (st : LsmStore) (force : bool) : option (nat * list SSTable) :=
  let levels := st_levels st in
  if force then
    match shallowest levels 0 with
    | None => None
    | Some chosen => Some (chosen, default [] (levels !! chosen))
    end
  else if negb (is_empty levels) &&
          (lo_l0_compaction_trigger (st_options st) <=? sz (default [] (levels !! 0%nat))) then
    Some (0%nat, default [] (levels !! 0%nat))
  else
    match over_budget st (length levels) 1 with
    | None => None
    | Some chosen =>
        match levels !! chosen with
        | Some (front :: rest) =>
            Some (chosen, [pick_table (default [] (st_compact_pointer st !! chosen)) front (front :: rest)])
        | _ => None
        end
    end.

(** The range that covers one and the tables. *)
Definition widen (range : bytes * bytes) (tables : list SSTable) : bytes * bytes :=
  foldl (λ r t, (key_min r.1 (t_min_key t), key_max r.2 (t_max_key t))) range tables.

(** [LsmStore::pick_compaction]. *)
Definition pick_compaction (st : LsmStore) (force : bool) : result (option Compaction) :=
  match pick_inputs st force with
  | None => ROk None
  | Some (_, []) => Stuck
  | Some (level, front :: rest) =>
      let inputs := front :: rest in
      let range := widen (t_min_key front, t_max_key front) inputs in
      let output_level := S level in
      let overlaps := filter (λ t, ranges_overlap range.1 range.2 (t_min_key t) (t_max_key t) = true)
                        (default [] (st_levels st !! output_level)) in
      let range := widen range overlaps in
      ROk (Some (mkCompaction level inputs overlaps range.1 range.2
                   (can_drop_tombstones st output_level range.1 range.2)))
  end.

(** [LsmStore::needs_compaction]. *)
Definition needs_compaction (st : LsmStore) : result bool :=
  work ← pick_compaction st false;
  ROk (match work with Some _ => true | None => false end).

(** * Merging *)

(** A method of a local iterator whose tables bump the counters of the store. *)
Definition on_iterator (it : MergingIterator) (m : M (LsmStats * MergingIterator) unit) :
    M LsmStore MergingIterator := λ st w,
  match m (st_stats st, it) w with
  | Ok _ s w' => Ok s.2 (st_set_stats s.1 st) w'
  | Err e s w' => Err e (st_set_stats s.1 st) w'
  | Died w' => Died w'
  | MStuck => MStuck
  end.

(** The sources over whole tables. *)
Fixpoint make_sources (tables : list SSTable) : M LsmStore (list EntrySource) :=
  match tables with
  | [] => mret []
  | table :: rest =>
      source ← on_stats (IteratorOps.create table [] []);
      bump_stat compaction_bytes_read (t_file_size table);;
      sources ← make_sources rest;
      mret (source :: sources)
  end.

(** The lambda [start_output]: the builder and the id it builds. *)
Definition start_output : M LsmStore (SSTableBuilder * Z) :=
  building ← claim_id;
  st ← get;
  builder ← BuilderOps.create (temp_name (sst_file_name building)) (lo_block_size (st_options st))
              (lo_bits_per_key (st_options st));
  mret (builder, building).

(** The lambda [finish_output]: the ids written so far. *)
Definition finish_output (out : option (SSTableBuilder * Z)) (output_ids : list Z) : M LsmStore (list Z) :=
  match out with
  | None => mret output_ids
  | Some (builder, building) =>
      if BuilderOps.entry_count builder =? 0 then
        _ ← platform.remove (BuilderOps.path builder); mret output_ids
      else
        r ← with_local builder BuilderOps.finish;
        bump_stat compaction_bytes_written (BuilderOps.file_size r.2);;
        mret (output_ids ++ [building])
  end.

(** The body of the merge loop: the entry goes into the output. *)
Definition emit_entry (work : Compaction) (it : MergingIterator) (out : option (SSTableBuilder * Z))
    (output_ids : list Z) : M LsmStore (option (SSTableBuilder * Z) * list Z) :=
  if negb (mi_tombstone it) || negb (cw_drop_tombstones work) then
    ob ← match out with Some ob => mret ob | None => start_output end;
    r ← with_local ob.1 (BuilderOps.add (mi_key it) (mi_value it) (mi_tombstone it));
    st ← get;
    if lo_target_table_size (st_options st) <=? BuilderOps.file_size r.2 then
      ids ← finish_output (Some (r.2, ob.2)) output_ids;
      mret (None, ids)
    else mret (Some (r.2, ob.2), output_ids)
  else mret (out, output_ids).

(** [while (merged.valid())], and the [finish_output] after it. *)
Fixpoint merge_loop (fuel : nat) (work : Compaction) (it : MergingIterator)
    (out : option (SSTableBuilder * Z)) (output_ids : list Z) : M LsmStore (list Z) :=
  match fuel with
  | O => stuck
  | S fuel =>
      if mi_valid it then
        r ← emit_entry work it out output_ids;
        it ← on_iterator it MergingOps.next;
        merge_loop fuel work it r.1 r.2
      else
        ids ← finish_output out output_ids;
        fail_when (negb (is_ok (mi_status it))) (mi_status it);;
        mret ids
  end.

(** Steps up to the outputs under their temporary names. *)
Definition write_outputs (work : Compaction) : M LsmStore (list Z) :=
  inputs ← make_sources (cw_inputs work);
  overlaps ← make_sources (cw_overlaps work);
  let merged := MergingOps.new_merging (inputs ++ overlaps) Emit in
  it ← on_iterator merged MergingOps.seek_to_first;
  merge_loop (MergingOps.rounds merged) work it None [].

(** * Installing *)

Fixpoint rename_outputs (ids : list Z) : M LsmStore unit :=
  match ids with
  | [] => mret tt
  | id :: rest =>
      let name := sst_file_name id in
      rc ← platform.rename_file (temp_name name) name;
      fail_when (negb (rc =? 0))
        (io_error (lit "rename " ++ temp_name name ++ lit " to " ++ name ++ lit ": " ++ os_error_text));;
      rename_outputs rest
  end.

Fixpoint open_outputs (ids : list Z) : M LsmStore (list SSTable) :=
  match ids with
  | [] => mret []
  | id :: rest =>
      t ← open_table id;
      ts ← open_outputs rest;
      mret (t :: ts)
  end.

(** [resize(n)] that only grows. *)
Definition grow {A : Type} (x : A) (n : nat) (l : list A) : list A := l ++ replicate (n - length l) x.

(** [while (!next.empty() && next.back().empty()) next.pop_back();] *)
Fixpoint pop_empty (levels : Levels) : Levels :=
  match levels with
  | [] => []
  | level :: rest =>
      match pop_empty rest with
      | [] => if is_empty level then [] else [level]
      | rest' => level :: rest'
      end
  end.

(** [std::sort] by [min_key]. *)
Definition sort_tables (tables : list SSTable) : list SSTable :=
  merge_sort (λ a b, kle (t_min_key a) (t_min_key b)) tables.

(** The level set the commit describes, given the opened outputs. *)
Definition next_levels (levels : Levels) (work : Compaction) (opened : list SSTable) : Levels :=
  let output_level := S (cw_level work) in
  let next := grow [] (S output_level) levels in
  let retired := (t_id <$> cw_inputs work) ++ (t_id <$> cw_overlaps work) in
  let live := filter (λ t, bool_decide (t_id t ∈ retired) = false) in
  let next := alter live (cw_level work) next in
  let next := alter (λ tables, sort_tables (live tables ++ opened)) output_level next in
  pop_empty next.

(** Everything [compact_once] does before it takes the lock: the new level set, or
    nothing when a fail point ends it. *)
Definition compaction_io (work : Compaction) : M LsmStore (option Levels) :=
  ids ← write_outputs work;
  st ← get;
  match lo_fail_at (st_options st) with
  | FpAfterWritingTable => mret None
  | _ =>
      rename_outputs ids;;
      sync_dir;;
      match lo_fail_at (st_options st) with
      | FpAfterInstallingTable => mret None
      | _ =>
          opened ← open_outputs ids;
          st ← get;
          let next := next_levels (st_levels st) work opened in
          commit_manifest next (st_next_id st);;
          mret (Some next)
      end
  end.

(** The swap, under the lock. *)
Definition compaction_install (work : Compaction) (next : Levels) : M LsmStore unit :=
  modify (st_set_levels next);;
  publish_locked;;
  modify (λ st, st_set_compact_pointer
    (<[cw_level work := cw_end work]> (grow [] (S (cw_level work)) (st_compact_pointer st))) st).

(** What follows the swap. *)
Definition compaction_finish (work : Compaction) : M LsmStore unit :=
  bump_stat compactions 1;;
  st ← get;
  match lo_fail_at (st_options st) with
  | FpAfterManifestCommit => mret tt
  | _ =>
      let retired := cw_inputs work ++ cw_overlaps work in
      bump_stat tables_obsoleted (sz retired);;
      modify (λ st, st_set_obsolete (st_obsolete st ++ retired) st);;
      collect;;
      sync_dir
  end.

(** [LsmStore::compact_once]: whether a new level set was installed. *)
Definition compact_once (work : Compaction) : M LsmStore bool :=
  next ← compaction_io work;
  match next with
  | None => mret false
  | Some next =>
      compaction_install work next;;
      compaction_finish work;;
      mret true
  end.

End LsmCompact.
End LsmCompact.
