(* ===== verification/Lsm.v ===== *)
(** The LSM engine, part three: writes, reads, flushes, the background thread
    and scans, [src/lsm.cpp].

    A wait on the condition variable runs the background thread until the awaited
    predicate holds; a thread that waits for work that nobody does is stuck. *)

From S2P Require Import Prelude Status FileNames World Encoding Record LogFile Bloom SortedMap Memtable SSTableFormat Manifest LsmStats SSTable Iterator Wal LsmState LsmCompact.

Module LsmOps.
Section LsmOps.
Context `{Platform}.
Import LsmState LsmCompact.

(** * Building a table *)

(** [for (const auto& [key, entry] : table) builder.add(...)]. *)
Fixpoint add_all (entries : list (bytes * MemEntry)) : M SSTableBuilder unit :=
  match entries with
  | [] => mret tt
  | (key, entry) :: rest => BuilderOps.add key (me_value entry) (me_tombstone entry);; add_all rest
  end.

(** [base.resize(1)] when empty, then [base[0].insert(base[0].begin(), table)]. *)
Definition push_l0 (table : SSTable) (base : Levels) : Levels :=
  match base with [] => [[table]] | l0 :: deeper => (table :: l0) :: deeper end.

(** [LsmStore::build_table_unlocked]. *)
Definition build_table_unlocked (table : Memtable) (id : Z) (base : Levels) (next_id : Z) : M LsmStore Levels :=
  let name := sst_file_name id in
  st ← get;
  builder ← BuilderOps.create (temp_name name) (lo_block_size (st_options st)) (lo_bits_per_key (st_options st));
  r ← with_local builder (add_all (map_ table);; BuilderOps.finish);
  bump_stat bytes_written (BuilderOps.file_size r.2);;
  match lo_fail_at (st_options st) with
  | FpAfterWritingTable => mret base
  | _ =>
      rc ← platform.rename_file (temp_name name) name;
      fail_when (negb (rc =? 0))
        (io_error (lit "rename " ++ temp_name name ++ lit " to " ++ name ++ lit ": " ++ os_error_text));;
      sync_dir;;
      opened ← open_table id;
      match lo_fail_at (st_options st) with
      | FpAfterInstallingTable => mret base
      | _ =>
          let base := push_l0 opened base in
          commit_manifest base next_id;;
          mret base
      end
  end.

(** * The background thread *)

(** The installation of [run_flush], under the lock: whether the log may go. *)
Definition flush_install (levels : Levels) : M LsmStore bool :=
  st ← get;
  match lo_fail_at (st_options st) with
  | FpAfterWritingTable | FpAfterInstallingTable => mret false
  | fp =>
      modify (st_set_levels levels);;
      publish_locked;;
      bump_stat flushes 1;;
      match fp with
      | FpAfterManifestCommit => mret false
      | _ => modify (st_set_imm None);; mret true
      end
  end.

(** The end of [run_flush], without the lock. *)
Definition retire_wal (id : Z) : M LsmStore unit :=
  ec ← platform.remove (wal_file_name id);
  synced ← attempt sync_dir;
  fail_when ec (io_error (lit "remove " ++ wal_file_name id ++ lit ": " ++ os_error_text));;
  match synced with inl _ => mret tt | inr e => fail e end.

(** [LsmStore::run_flush]: whether it made progress. *)
Definition run_flush : M LsmStore bool :=
  st ← get;
  match st_imm st with
  | None => stuck
  | Some table =>
      levels ← build_table_unlocked table (st_imm_table_id st) (st_levels st) (st_next_id st);
      proceed ← flush_install levels;
      if proceed : bool then retire_wal (st_imm_wal_id st);; mret true else mret false
  end.

(** The loop of [LsmStore::run_compaction]. *)
Fixpoint compaction_loop (steps : nat) (force progressed : bool) : M LsmStore bool :=
  match steps with
  | O => fail (io_error (lit "compaction failed to converge"))
  | S steps =>
      st ← get;
      if st_stopping st then mret progressed
      else
        work ← liftR (pick_compaction st false);
        work ← match work with
               | None => if force then liftR (pick_compaction st true) else mret None
               | Some work => mret (Some work)
               end;
        match work with
        | None => mret progressed
        | Some work =>
            installed ← compact_once work;
            if negb installed then mret progressed
            else if negb force then mret true
            else compaction_loop steps force true
        end
  end.

(** [LsmStore::run_compaction]. *)
Definition run_compaction (force : bool) : M LsmStore bool := compaction_loop (Z.to_nat 10000) force false.

Definition idle (st : LsmStore) : bool :=
  st_stopping st || negb (is_ok (st_background_status st)) || st_halted_by_fail_point st.

(** The outcome of an operation of the background thread. *)
Definition background_outcome (r : bool + Status) : M LsmStore unit :=
  match r with
  | inr status => modify (st_set_background_status status)
  | inl progressed => if progressed : bool then mret tt else modify (st_set_halted_by_fail_point true)
  end.

(** One round of [LsmStore::background_loop]: false when the thread goes to sleep. *)
Definition background_round : M LsmStore bool :=
  st ← get;
  if st_stopping st then mret false
  else if negb (idle st) && match st_imm st with Some _ => true | None => false end then
    modify (st_set_background_busy true);;
    r ← attempt run_flush;
    background_outcome r;;
    modify (st_set_background_busy false);;
    mret true
  else
    wanted ← if negb (idle st) then
               if st_compact_requested st then mret true else liftR (needs_compaction st)
             else mret false;
    if wanted : bool then
      let force := st_compact_requested st in
      modify (st_set_background_busy true);;
      r ← attempt (run_compaction force);
      background_outcome r;;
      modify (st_set_compact_requested false);;
      modify (st_set_background_busy false);;
      mret true
    else mret false.

(** [cv_.wait(lock, pred)]. *)
Fixpoint wait (fuel : nat) (pred : LsmStore → bool) : M LsmStore unit :=
  st ← get;
  if pred st then mret tt
  else
    match fuel with
    | O => stuck
    | S fuel =>
        worked ← background_round;
        if worked : bool then wait fuel pred else stuck
    end.

(** A flush and a compaction at most. *)
Definition wait_rounds : nat := 2.

(** The predicates the code waits for. *)
Definition flush_slot_free (st : LsmStore) : bool :=
  idle st || match st_imm st with Some _ => false | None => true end.
Definition background_settled (st : LsmStore) : bool :=
  idle st || (negb (st_background_busy st) && match st_imm st with Some _ => false | None => true end &&
              negb (st_compact_requested st)).

(** [LsmStore::wait_for_background]. *)
Definition wait_for_background : M LsmStore unit :=
  wait wait_rounds background_settled;;
  check_background.

(** * Writing *)

(** A method of [*wal_]. *)
Definition on_wal {A : Type} (m : M Wal A) : M LsmStore A := λ st w,
  match st_wal st with
  | None => MStuck
  | Some wal => zoom (λ _, wal) (λ wal' st, st_set_wal (Some wal') st) m st w
  end.

(** The members [rotate_memtable] changes before it releases the lock. *)
Definition rotate_begin : M LsmStore Z :=
  modify (λ st, st_set_imm (Some (st_mem st)) st);;
  modify (λ st, st_set_imm_wal_id (st_wal_id st) st);;
  id ← claim_id;
  modify (st_set_imm_table_id id);;
  modify (st_set_mem MemtableOps.empty_table);;
  claim_id.

(** Its system calls, and the new log. *)
Definition rotate_wal (next : Z) : M LsmStore unit :=
  closed ← attempt (on_wal WalOps.close);
  st ← get;
  opened ← attempt (WalOps.open (wal_file_name next) (lo_sync_mode (st_options st)));
  synced ← attempt sync_dir;
  match closed with inr e => fail e | inl _ =>
    match opened with inr e => fail e | inl wal =>
      match synced with inr e => fail e | inl _ =>
        modify (st_set_wal (Some wal));;
        modify (st_set_wal_id next)
      end
    end
  end.

(** [LsmStore::rotate_memtable]. *)
Definition rotate_memtable : M LsmStore unit :=
  next ← rotate_begin;
  rotate_wal next.

Definition memtable_full (st : LsmStore) : bool :=
  lo_memtable_size (st_options st) <=? MemtableOps.approximate_bytes (st_mem st).

(** [LsmStore::write_entry], up to the write-ahead log. *)
Definition write_begin : M LsmStore unit :=
  check_background;;
  st ← get;
  (if memtable_full st then
     wait wait_rounds flush_slot_free;;
     check_background;;
     st ← get;
     if match st_imm st with None => memtable_full st | Some _ => false end then rotate_memtable else mret tt
   else mret tt);;
  st ← get;
  match st_wal st with
  | None => fail (io_error (lit "no write-ahead log is open"))
  | Some _ => mret tt
  end.

(** The checks of the arguments. *)
Definition check_write (key value : bytes) (tombstone : bool) : result unit :=
  fail_if (sz key =? 0) (invalid_argument (lit "key must not be empty"));;
  let payload := u64 (sz key + (if tombstone then 0 else sz value)) in
  fail_if (record.kMaxRecordSize - record.kHeaderSize <? payload)
    (invalid_argument (lit "record exceeds the maximum record size")).

(** The insertion, after the log. *)
Definition write_insert (key value : bytes) (tombstone : bool) : M LsmStore unit :=
  modify (λ st, st_set_mem
    (if tombstone then MemtableOps.remove key (st_mem st) else MemtableOps.put key value (st_mem st)) st).

(** [LsmStore::write_entry]. *)
Definition write_entry (key value : bytes) (tombstone : bool) : M LsmStore unit :=
  liftR (check_write key value tombstone);;
  write_begin;;
  on_wal (WalOps.append key value tombstone);;
  write_insert key value tombstone.

(** [LsmStore::put] and [LsmStore::remove]. *)
Definition put (key value : bytes) : M LsmStore unit := write_entry key value false.
Definition remove (key : bytes) : M LsmStore unit := write_entry key [] true.

(** * Reading *)

(** [find_in_level]. *)
Definition find_in_level (level : list SSTable) (key : bytes) : option SSTable :=
  match level !! lower_bound (λ table, ltb (t_max_key table) key) level with
  | None => None
  | Some table => if ltb key (t_min_key table) then None else Some table
  end.

Definition no_such_key (key : bytes) : Status := not_found (lit "no such key: " ++ key).

(** The answer of a memtable entry. *)
Definition entry_answer (key : bytes) (entry : MemEntry) : M LsmStore bytes :=
  if me_tombstone entry then fail (no_such_key key) else mret (me_value entry).

(** The lambda [ask]. *)
Definition ask (key : bytes) (table : SSTable) : M LsmStore (option (option bytes)) :=
  bump_stat tables_probed 1;;
  r ← on_stats (SSTableOps.lookup table key);
  mret (match r with
        | Found value => Some (Some value)
        | Deleted => Some None
        | NotPresent => None
        end).

(** Asks the tables in turn until one answers. *)
Fixpoint ask_all (key : bytes) (tables : list SSTable) : M LsmStore (option (option bytes)) :=
  match tables with
  | [] => mret None
  | table :: rest =>
      answer ← ask key table;
      match answer with
      | Some answer => mret (Some answer)
      | None => ask_all key rest
      end
  end.

(** The tables a lookup may ask, in order: all of L0, then one per level. *)
Definition candidates (levels : Levels) (key : bytes) : list SSTable :=
  match levels with
  | [] => []
  | l0 :: deeper => l0 ++ omap (λ level, find_in_level level key) deeper
  end.

(** The part of [get] without the lock, on the version it took. *)
Definition get_from_version (key : bytes) (levels : Levels) : M LsmStore bytes :=
  answer ← ask_all key (candidates levels key);
  match answer with
  | Some (Some value) => mret value
  | _ => fail (no_such_key key)
  end.

(** The part of [get] under the lock: the entry of a memtable, or the version. *)
Definition get_probe (key : bytes) : M LsmStore (MemEntry + Levels) :=
  st ← get;
  match MemtableOps.get key (st_mem st) with
  | Some entry => mret (inl entry)
  | None =>
      match st_imm st ≫= MemtableOps.get key with
      | Some entry => mret (inl entry)
      | None => version ← pin_version; mret (inr version)
      end
  end.

(** [LsmStore::get]; the version is let go at the end of the scope. *)
Definition get_value (key : bytes) : M LsmStore bytes :=
  bump_stat gets 1;;
  if sz key =? 0 then fail (no_such_key key)
  else
    probe ← get_probe key;
    match probe with
    | inl entry => entry_answer key entry
    | inr version =>
        answer ← attempt (get_from_version key version);
        unpin_version version;;
        match answer with inl value => mret value | inr e => fail e end
    end.

(** [LsmStore::sync]. *)
Definition sync : M LsmStore unit :=
  st ← get;
  match st_wal st with None => mret tt | Some _ => on_wal WalOps.sync end.

(** * Flush and compaction on request *)

(** [LsmStore::flush], up to the wait for the background thread: false when there is
    nothing to do. *)
Definition flush_begin : M LsmStore bool :=
  check_background;;
  st ← get;
  if MemtableOps.empty (st_mem st) && match st_imm st with None => true | Some _ => false end then mret false
  else
    (if negb (MemtableOps.empty (st_mem st)) then
       wait wait_rounds flush_slot_free;;
       check_background;;
       st ← get;
       if negb (st_stopping st) && match st_imm st with None => true | Some _ => false end &&
          negb (MemtableOps.empty (st_mem st)) then rotate_memtable else mret tt
     else mret tt);;
    mret true.

(** [LsmStore::flush]. *)
Definition flush : M LsmStore unit :=
  work ← flush_begin;
  if work : bool then wait_for_background else mret tt.

(** [LsmStore::compact]. *)
Definition compact : M LsmStore unit :=
  check_background;;
  modify (st_set_compact_requested true);;
  wait_for_background.

(** * Scanning *)

(** The sources over the tables of a level set, from [begin_] to [end_]. *)
Fixpoint table_sources (begin_ end_ : bytes) (tables : list SSTable) : M LsmStore (list EntrySource) :=
  match tables with
  | [] => mret []
  | table :: rest =>
      source ← on_stats (IteratorOps.create table begin_ end_);
      sources ← table_sources begin_ end_ rest;
      mret (source :: sources)
  end.

(** The snapshot [scan] takes under the lock. *)
Definition scan_snapshot : M LsmStore (list Memtable * Levels) :=
  st ← get;
  version ← pin_version;
  mret (st_mem st :: match st_imm st with Some m => [m] | None => [] end, version).

(** The cursor over a snapshot. *)
Definition scan_open (begin_ end_ : bytes) (memtables : list Memtable) (version : Levels) :
    M LsmStore MergingIterator :=
  sources ← table_sources begin_ end_ (concat version);
  on_iterator (MergingOps.new_merging
    (((λ m, IteratorOps.memtable_source m begin_ end_) <$> memtables) ++ sources) Skip)
    MergingOps.seek_to_first.

(** [LsmStore::scan]: the cursor, and the version it keeps alive. *)
Definition scan (begin_ end_ : bytes) : M LsmStore (MergingIterator * Levels) :=
  snapshot ← scan_snapshot;
  it ← attempt (scan_open begin_ end_ snapshot.1 snapshot.2);
  match it with
  | inl it => mret (it, snapshot.2)
  | inr e => unpin_version snapshot.2;; fail e
  end.

End LsmOps.
End LsmOps.
