(* ===== verification/LsmLevels.v ===== *)
(** The contents of the level set.

    A table is named by its id and an id is used once, so one function [c] from ids
    to entries describes every table there is, those of older versions included.
    What the levels hold together is the left-biased union of their tables, newest
    first; a level below the first is one sorted run. *)

From S2P Require Import Prelude SortedMap Memtable SSTableFormat SSTableLayout SSTable SSTableRead IteratorMerge LsmState LsmCompact Lsm.
Import sstable LsmCompact.

(** What a client sees of a map with tombstones. *)
Definition live_entry (e : MemEntry) : option bytes := if me_tombstone e then None else Some (me_value e).
Definition live (m : gmap bytes MemEntry) : gmap bytes bytes := omap live_entry m.

Lemma live_lookup m k : live m !! k = m !! k ≫= live_entry.
Proof. apply lookup_omap. Qed.

Lemma live_union top m m' : live m = live m' → live (top ∪ m) = live (top ∪ m').
Proof.
  intros E. apply map_eq. intros k. rewrite !live_lookup, !lookup_union.
  assert (Ek : live m !! k = live m' !! k) by by rewrite E. rewrite !live_lookup in Ek.
  destruct (top !! k); destruct (m !! k), (m' !! k); done.
Qed.

Lemma merged_concat rs : merged rs = as_map (concat rs).
Proof. induction rs as [|r rs IH]; [done|]. cbn. by rewrite as_map_app, <-IH. Qed.

(** [c'] agrees with [c] on the ids handed out so far. *)
Definition extends (n : Z) (c c' : Z → list entry) : Prop := ∀ id, id < n → c' id = c id.

#[export] Instance extends_preorder n : PreOrder (extends n).
Proof. split; [by intros c id|]. intros c1 c2 c3 H1 H2 id Hid. by rewrite H2, H1. Qed.

Lemma extends_mono n n' c c' : extends n' c c' → n ≤ n' → extends n c c'.
Proof. intros He Hle id Hid. apply He. lia. Qed.

Section Contents.
Variable c : Z → list entry.

Definition entries_of (t : SSTable) : list entry := c (t_id t).

(** The entries of a table, its key range, and the levels. *)
Definition keyed (t : SSTable) : Prop :=
  ksorted (entries_of t) ∧ entries_of t ≠ [] ∧
  t_min_key t = first_key (entries_of t) ∧ t_max_key t = last_key (entries_of t).

Definition run_of (level : list SSTable) : list entry := concat (entries_of <$> level).

Record levels_ok (levels : Levels) : Prop := {
  lv_keyed : Forall keyed (concat levels);
  lv_runs : Forall (λ level, ksorted (run_of level)) (tail levels);
  lv_ids : NoDup (t_id <$> concat levels);
}.

Definition view (levels : Levels) : gmap bytes MemEntry := as_map (run_of (concat levels)).

Lemma run_of_cons t level : run_of (t :: level) = entries_of t ++ run_of level.
Proof. done. Qed.

Lemma run_of_app l1 l2 : run_of (l1 ++ l2) = run_of l1 ++ run_of l2.
Proof. unfold run_of. by rewrite fmap_app, concat_app. Qed.

Lemma view_cons level levels : view (level :: levels) = as_map (run_of level) ∪ view levels.
Proof. unfold view. cbn [concat]. by rewrite run_of_app, as_map_app. Qed.

Lemma view_app l1 l2 : view (l1 ++ l2) = view l1 ∪ view l2.
Proof. unfold view. by rewrite concat_app, run_of_app, as_map_app. Qed.

Lemma elem_of_run e level : e ∈ run_of level ↔ ∃ t, t ∈ level ∧ e ∈ entries_of t.
Proof.
  unfold run_of. rewrite elem_of_concat. split.
  - intros (l & (t & -> & Ht)%list_elem_of_fmap & He). eauto.
  - intros (t & Ht & He). exists (entries_of t). split; [by apply list_elem_of_fmap_2|done].
Qed.

(** Every key of a table is in its range. *)
Lemma keyed_range t e : keyed t → e ∈ entries_of t → kle (t_min_key t) e.1 ∧ kle e.1 (t_max_key t).
Proof.
  intros (Hs & _ & -> & ->) He. split; [by apply first_key_le|by apply ksorted_last_key].
Qed.

Lemma keyed_min t : keyed t → ∃ e, e ∈ entries_of t ∧ e.1 = t_min_key t.
Proof.
  intros (_ & Hne & -> & _). unfold first_key. destruct (entries_of t) as [|e l]; [done|]. exists e. split; [by left|done].
Qed.

Lemma keyed_max t : keyed t → ∃ e, e ∈ entries_of t ∧ e.1 = t_max_key t.
Proof. intros (_ & Hne & _ & ->). by apply last_key_in. Qed.

Lemma keyed_min_max t : keyed t → kle (t_min_key t) (t_max_key t).
Proof. intros Hk. destruct (keyed_max t Hk) as (e & He & <-). by apply keyed_range. Qed.

Lemma keyed_none t k : keyed t → klt k (t_min_key t) ∨ klt (t_max_key t) k → as_map (entries_of t) !! k = None.
Proof.
  intros Hk Hr. destruct (as_map (entries_of t) !! k) as [x|] eqn:E; [|done]. apply as_map_elem_1 in E.
  destruct (keyed_range t (k, x) Hk E) as [H1 H2]. cbn in H1, H2. destruct Hr; korder.
Qed.

(** ** Runs: keyed tables in increasing, disjoint ranges *)

Definition before (a b : SSTable) : Prop := klt (t_max_key a) (t_min_key b).

Lemma run_sorted level : Forall keyed level → ksorted (run_of level) ↔ StronglySorted before level.
Proof.
  induction 1 as [|t level Ht Hl IH]; [split; intros _; constructor|]. rewrite run_of_cons, ksorted_app. split.
  - intros (_ & Hs & Hlt). constructor; [by apply IH|]. apply Forall_forall. intros b Hb.
    rewrite Forall_forall in Hl. destruct (keyed_max t Ht) as (x & Hx & Ex).
    destruct (keyed_min b (Hl b Hb)) as (y & Hy & Ey). unfold before. rewrite <-Ex, <-Ey. apply Hlt; [done|].
    apply elem_of_run. eauto.
  - intros [Hs Hall]%StronglySorted_inv. split_and!; [by destruct Ht|by apply IH|].
    intros a b Ha (t' & Ht' & Hb)%elem_of_run. rewrite Forall_forall in Hall, Hl.
    destruct (keyed_range t a Ht Ha). destruct (keyed_range t' b (Hl t' Ht') Hb).
    specialize (Hall t' Ht'). unfold before in Hall. korder.
Qed.

Lemma run_ordered level a b : Forall keyed level → ksorted (run_of level) → a ∈ level → b ∈ level → a ≠ b →
  before a b ∨ before b a.
Proof.
  intros Hk Hs Ha Hb Hne. apply run_sorted in Hs; [|done]. clear Hk.
  induction Hs as [|x level Hs IH Hall]; [by apply elem_of_nil in Ha|]. rewrite Forall_forall in Hall.
  apply elem_of_cons in Ha as [->|Ha], Hb as [->|Hb]; auto; done.
Qed.

(** [find_in_level] looks at the only table of a run that may have the key. *)
Lemma find_in_run level k : Forall keyed level → ksorted (run_of level) →
  as_map (run_of level) !! k =
    match LsmOps.find_in_level level k with Some t => as_map (entries_of t) !! k | None => None end ∧
  ∀ t, LsmOps.find_in_level level k = Some t → t ∈ level.
Proof.
  intros Hk Hs. pose proof (proj1 (run_sorted level Hk) Hs) as Hb. unfold LsmOps.find_in_level.
  destruct (lower_bound_sorted t_max_key level k) as (l1 & l2 & -> & -> & H1 & H2).
  { clear -Hk Hb. induction Hb as [|t level Hs IH Hall]; constructor; [apply IH; by inversion Hk|].
    apply Forall_inv_tail in Hk. rewrite Forall_forall in *. intros b Hin. specialize (Hall b Hin).
    unfold before in Hall. pose proof (keyed_min_max b (Hk b Hin)). korder. }
  apply Forall_app in Hk as [Hk1 Hk2]. rewrite lookup_app_r by lia. rewrite Nat.sub_diag, run_of_app, as_map_app, lookup_union.
  assert (as_map (run_of l1) !! k = None) as ->.
  { apply as_map_none_gt, Forall_forall. intros e (t & Ht & He)%elem_of_run. rewrite Forall_forall in H1, Hk1.
    destruct (keyed_range t e (Hk1 t Ht) He). specialize (H1 t Ht). cbn in H1. korder. }
  rewrite (left_id None _). destruct l2 as [|t l2]; [done|]. cbn [lookup list_lookup].
  apply StronglySorted_app in Hb as (_ & _ & [_ Hlt]%StronglySorted_inv). apply Forall_cons in Hk2 as [Ht Hl2].
  rewrite run_of_cons, as_map_app, lookup_union.
  assert (Hrest : kle k (t_max_key t) → as_map (run_of l2) !! k = None).
  { intros Hle. apply as_map_none_lt, Forall_forall. intros e (t' & Ht' & He)%elem_of_run.
    rewrite Forall_forall in Hlt, Hl2. destruct (keyed_range t' e (Hl2 t' Ht') He).
    specialize (Hlt t' Ht'). unfold before in Hlt. korder. }
  apply Forall_cons in H2 as [H2 _]. cbn in H2. rewrite Hrest by korder. rewrite (right_id None _).
  destruct (ltb_spec k (t_min_key t)) as [Hlt'|Hge].
  - split; [|done]. apply keyed_none; auto.
  - split; [done|]. intros t' [= <-]. apply elem_of_app. right. by left.
Qed.

End Contents.
