(* ===== verification/LsmGet.v ===== *)
(** Reads, on the contents of the levels: [LsmStore::get] answers with the newest entry of the
    key, asking at most one table per level below the first and reading at most one block of
    each; the cursor [LsmStore::scan] returns walks over the live keys of its range. *)

From S2P Require Import Prelude Status FileNames World Wp SortedMap Memtable SSTableFormat SSTableLayout LsmStats SSTable SSTableRead.
From S2P Require Import Iterator IteratorSource IteratorMerge IteratorTables LsmState LsmCompact Lsm LsmLevels.
Import sstable LsmState LsmCompact LsmOps.

Section Get.
Context `{Platform}.

(** An open table with the entries [c] says. *)
Definition on_disk (c : Z → list entry) (w : World) (t : SSTable) : Prop :=
  (∃ bs, holds_table t w bs ∧ concat bs = entries_of c t) ∧ entries_of c t ≠ [] ∧
  t_path t = sst_file_name (t_id t).

Lemma on_disk_keyed c w t : on_disk c w t → keyed c t.
Proof.
  intros ((bs & Ht & E) & Hne & _). unfold keyed. rewrite <-E in *.
  split_and!; [by eapply ht_sorted|done|by eapply ht_min|by eapply ht_max].
Qed.

Lemma on_disk_files c w w' t : on_disk c w t →
  w_files w' !! sst_file_name (t_id t) = w_files w !! sst_file_name (t_id t) → on_disk c w' t.
Proof.
  intros ((bs & Ht & E) & Hne & Hp) Hf. split_and!; [|done|done]. exists bs. split; [|done].
  eapply holds_table_files; [exact Ht|]. rewrite Hp, Hf. eauto.
Qed.

Lemma on_disk_same c w w' t : on_disk c w t → same_files w w' → on_disk c w' t.
Proof. intros Ht [Hf _]. eapply on_disk_files; [done|]. by rewrite Hf. Qed.

Lemma on_disk_extends n c c' w t : on_disk c w t → extends n c c' → t_id t < n → on_disk c' w t.
Proof. intros Ht He Hid. unfold on_disk, entries_of in *. by rewrite (He _ Hid). Qed.

(** Counters after [p ≤ n] probes, each with at most one block read. *)
Definition probing (n : Z) (s s' : LsmStats) : Prop :=
  in_range s' ∧ ∃ p r, 0 ≤ r ≤ p ∧ p ≤ n ∧ bumped tables_probed p s s' ∧ bumped block_reads r s s'.

Lemma probing_refl s : in_range s → probing 0 s s.
Proof.
  intros Hs. split; [done|]. exists 0, 0. unfold bumped. rewrite !Z.add_0_r, !u64_id by apply Hs. lia.
Qed.

Lemma probing_trans n m s1 s2 s3 : probing n s1 s2 → probing m s2 s3 → probing (n + m) s1 s3.
Proof.
  intros [_ (p & r & ? & ? & Hp & Hr)] [? (p' & r' & ? & ? & Hp' & Hr')]. split; [done|].
  exists (p + p'), (r + r'). split_and!; [lia..| |]; by eapply bumped_trans.
Qed.

Lemma probing_mono n m s s' : probing n s s' → n ≤ m → probing m s s'.
Proof. intros [? (p & r & ? & ? & ?)] ?. split; [done|]. exists p, r. split_and!; [lia..|naive_solver|naive_solver]. Qed.

Lemma probing_lookup s s' : one_lookup (bump tables_probed 1 s) s' → in_range s' → probing 1 s s'.
Proof.
  intros [(n & Hn & Hb) Ht] Hr. split; [done|]. exists 1, n. split_and!; [lia..| |].
  - unfold bumped. rewrite Ht. apply bumped_bump.
  - unfold bumped in *. by rewrite Hb, bump_other.
Qed.

(** Only the counters of the store have moved. *)
Definition probed (n : Z) (st st' : LsmStore) : Prop := ∃ s, st' = st_set_stats s st ∧ probing n (st_stats st) s.

Lemma probed_trans n m st1 st2 st3 : probed n st1 st2 → probed m st2 st3 → probed (n + m) st1 st3.
Proof. intros (s1 & -> & H1) (s2 & -> & H2). exists s2. split; [by destruct st1|]. by eapply probing_trans. Qed.

Lemma probed_mono n m st st' : probed n st st' → n ≤ m → probed m st st'.
Proof. intros (s & -> & Hp) Hle. exists s. split; [done|]. by eapply probing_mono. Qed.

Lemma probed_range n st st' : probed n st st' → in_range (st_stats st').
Proof. intros (s & -> & [? _]). by destruct st. Qed.

Lemma wp_bind_bump {A} ctr n (k : unit → M LsmStore A) st w Q E D :
  wp (k tt) (st_set_stats (bump ctr n (st_stats st)) st) w Q E D → wp (bump_stat ctr n ≫= k) st w Q E D.
Proof. done. Qed.

(** A read of a table failed. *)
Definition get_error (w : World) (st : LsmStore) (e : Status) (st' : LsmStore) (w' : World) : Prop :=
  same_files w w' ∧ (∃ s, st' = st_set_stats s st) ∧ ¬ reliable w ∧ code_ e = IOError.

Lemma wp_ask c key t st w : on_disk c w t → in_range (st_stats st) →
  wp (ask key t) st w
    (λ r st' w', same_files w w' ∧ probed 1 st st' ∧ r = live_entry <$> as_map (entries_of c t) !! key)
    (get_error w st) (same_files w).
Proof.
  intros ((bs & Ht & E) & _ & _) Hs. unfold ask, on_stats. apply wp_bind_bump.
  eapply wp_bind_zoom; [eapply (wp_lookup t key _ w bs); [done|by apply in_range_bump]|..]; cbn beta; [|..|done].
  - intros r s w1 _ (Hsf & Hone & Hr & ->). apply wp_ret. split_and!; [done| |].
    + exists s. split; [by destruct st|]. by apply probing_lookup.
    + rewrite E. destruct (as_map _ !! key) as [[v [|]]|]; done.
  - intros e s w1 _ (Hsf & Hq & Hcode). split_and!; [done| |done|done]. exists s. by destruct st.
Qed.

Lemma wp_ask_all c key ts : ∀ st w, Forall (on_disk c w) ts → in_range (st_stats st) →
  wp (ask_all key ts) st w
    (λ r st' w', same_files w w' ∧ probed (sz ts) st st' ∧ r = live_entry <$> as_map (run_of c ts) !! key)
    (get_error w st) (same_files w).
Proof.
  induction ts as [|t ts IH]; intros st w Hts Hs; cbn [ask_all].
  { apply wp_ret. split_and!; [done| |done]. exists (st_stats st). split; [by destruct st|by apply probing_refl]. }
  apply Forall_cons in Hts as [Ht Hts]. wp_call (wp_ask c key t st w Ht Hs).
  intros r st1 w1 Hc1 (Hsf1 & Hp1 & ->). rewrite run_of_cons, as_map_app, lookup_union, sz_cons.
  destruct (as_map (entries_of c t) !! key) as [x|]; cbn [fmap option_fmap option_map].
  - apply wp_ret. split_and!; [done| |].
    + eapply probed_mono; [done|]. pose proof (sz_nonneg ts). lia.
    + by destruct (as_map (run_of c ts) !! key).
  - replace (None ∪ as_map (run_of c ts) !! key) with (as_map (run_of c ts) !! key) by (by destruct (as_map (run_of c ts) !! key)).
    eapply wp_mono; [eapply (IH st1 w1)|..]; cbn beta.
    + eapply Forall_impl; [exact Hts|]. intros t' Ht'. by eapply on_disk_same.
    + by eapply probed_range.
    + intros r st2 w2 _ (Hsf2 & Hp2 & ->). split_and!; [by etrans|by eapply probed_trans|done].
    + intros e st2 w2 _ (Hsf2 & [s ->] & Hq & Hcode). destruct Hp1 as (s1 & -> & _).
      split_and!; [by etrans|exists s; by destruct st|eauto with wp|done].
    + intros w2 _ Hsf2. by etrans.
Qed.

(** The tables a lookup asks decide for all of them. *)
Lemma candidates_view c levels key : levels_ok c levels →
  as_map (run_of c (candidates levels key)) !! key = view c levels !! key ∧
  (∀ t, t ∈ candidates levels key → t ∈ concat levels) ∧
  sz (candidates levels key) ≤ sz (default [] (head levels)) + sz (tail levels).
Proof.
  intros [Hk Hr _]. destruct levels as [|l0 deeper]; [done|]. cbn [candidates head tail default] in *.
  apply Forall_app in Hk as [_ Hk]. rewrite view_cons, run_of_app, as_map_app, !lookup_union.
  enough (as_map (run_of c (omap (λ level, find_in_level level key) deeper)) !! key = view c deeper !! key ∧
    (∀ t, t ∈ omap (λ level, find_in_level level key) deeper → t ∈ concat deeper) ∧
    sz (omap (λ level, find_in_level level key) deeper) ≤ sz deeper) as (-> & Hin & Hsz).
  { split_and!; [done| |rewrite sz_app; cbn; lia]. intros t [?|?]%elem_of_app; cbn; apply elem_of_app; auto. }
  clear l0. induction deeper as [|l deeper IH]; [done|]. apply Forall_cons in Hr as [Hl Hr].
  apply Forall_app in Hk as [Hkl Hk]. destruct (IH Hk Hr) as (E & Hin & Hsz). cbn [omap list_omap].
  destruct (find_in_run c l key Hkl Hl) as [El Htl]. rewrite view_cons, lookup_union, El, sz_cons.
  destruct (find_in_level l key) as [t|].
  - rewrite run_of_cons, as_map_app, lookup_union, E, sz_cons. split_and!; [done| |lia]. cbn.
    intros t' [-> |Ht']%elem_of_cons; apply elem_of_app; auto.
  - rewrite (left_id None _). split_and!; [done| |lia]. cbn. intros t' Ht'. apply elem_of_app. auto.
Qed.

(** What [get] does without the lock. *)
Lemma wp_get_from_version c key levels st w : levels_ok c levels → Forall (on_disk c w) (concat levels) →
  in_range (st_stats st) →
  wp (get_from_version key levels) st w
    (λ v st' w', same_files w w' ∧ probed (sz (default [] (head levels)) + sz (tail levels)) st st' ∧
       live (view c levels) !! key = Some v)
    (λ e st' w', same_files w w' ∧ (∃ s, st' = st_set_stats s st) ∧
       (¬ reliable w ∧ code_ e = IOError ∨ e = no_such_key key ∧ live (view c levels) !! key = None ∧
        probed (sz (default [] (head levels)) + sz (tail levels)) st st'))
    (same_files w).
Proof.
  intros Hok Hd Hs. destruct (candidates_view c levels key Hok) as (E & Hin & Hsz). unfold get_from_version.
  wp_call (wp_ask_all c key _ st w).
  { rewrite Forall_forall in *. auto. }
  { done. }
  2: { intros e st1 w1 _ (Hsf & Hst & Hq & Hcode). auto. }
  intros r st1 w1 Hc1 (Hsf & Hp & ->). rewrite E, live_lookup. eapply probed_mono in Hp; [|exact Hsz].
  assert (∃ s, st1 = st_set_stats s st) as Hst by (destruct Hp as (s & -> & _); eauto).
  destruct (view c levels !! key) as [x|]; cbn [fmap option_fmap option_map mbind option_bind]; [|apply wp_fail; by auto 10].
  destruct (live_entry x); [by apply wp_ret|apply wp_fail; by auto 10].
Qed.

End Get.

(** * Range scans *)

Import sstable IteratorOps MergingOps LsmState LsmCompact LsmOps.

(** The keys of a range. *)
Definition in_scan (begin_ end_ k : bytes) : Prop := (begin_ = [] ∨ kle begin_ k) ∧ (end_ = [] ∨ klt k end_).
#[export] Instance in_scan_dec begin_ end_ k : Decision (in_scan begin_ end_ k).
Proof. unfold in_scan. apply _. Defined.

Definition ranged {A} (begin_ end_ : bytes) (m : gmap bytes A) : gmap bytes A :=
  filter (λ kv, in_scan begin_ end_ kv.1) m.

Lemma ranged_lookup {A} (begin_ end_ : bytes) (m : gmap bytes A) k :
  ranged begin_ end_ m !! k = if decide (in_scan begin_ end_ k) then m !! k else None.
Proof.
  unfold ranged. destruct (m !! k) as [x|] eqn:E; [case_decide|].
  - by apply map_lookup_filter_Some.
  - apply map_lookup_filter_None. right. cbn. naive_solver.
  - transitivity (@None A); [|by case_decide]. apply map_lookup_filter_None. by left.
Qed.

Lemma bounded_lookup end_ es k : as_map (bounded end_ es) !! k = if decide (end_ = [] ∨ klt k end_) then as_map es !! k else None.
Proof. exact (as_map_filter_key (A := MemEntry) (λ k, end_ = [] ∨ klt k end_) es k). Qed.

Lemma starting_lookup begin_ es k : as_map (starting begin_ es) !! k = if decide (begin_ = [] ∨ kle begin_ k) then as_map es !! k else None.
Proof. exact (as_map_filter_key (A := MemEntry) (λ k, begin_ = [] ∨ kle begin_ k) es k). Qed.

Lemma bounded_starting_map begin_ end_ es : as_map (bounded end_ (starting begin_ es)) = ranged begin_ end_ (as_map es).
Proof.
  apply map_eq. intros k. rewrite ranged_lookup, bounded_lookup, starting_lookup.
  unfold in_scan. repeat case_decide; naive_solver.
Qed.

Lemma ranged_union {A} (begin_ end_ : bytes) (m1 m2 : gmap bytes A) :
  ranged begin_ end_ (m1 ∪ m2) = ranged begin_ end_ m1 ∪ ranged begin_ end_ m2.
Proof. apply map_eq. intros k. rewrite lookup_union, !ranged_lookup, lookup_union. by case_decide. Qed.

Lemma ranged_merged begin_ end_ rs :
  merged ((λ es, bounded end_ (starting begin_ es)) <$> rs) = ranged begin_ end_ (merged rs).
Proof.
  induction rs as [|r rs IH]; csimpl.
  - apply map_eq. intros k. rewrite ranged_lookup, !lookup_empty. by case_decide.
  - fold (merged ((λ es, bounded end_ (starting begin_ es)) <$> rs)) (merged rs).
    by rewrite bounded_starting_map, IH, ranged_union.
Qed.

Lemma live_ranged begin_ end_ m : live (ranged begin_ end_ m) = ranged begin_ end_ (live m).
Proof. apply map_eq. intros k. rewrite live_lookup, !ranged_lookup, live_lookup. by case_decide. Qed.

Section Scan.
Context `{Platform}.

Lemma wp_on_iterator it m st w Q E D :
  wp m (st_stats st, it) w Q E D →
  wp (on_iterator it m) st w
    (λ it' st' w', ∃ s, st' = st_set_stats s st ∧ Q tt (s, it') w')
    (λ e st' w', ∃ s it', st' = st_set_stats s st ∧ E e (s, it') w') D.
Proof.
  unfold wp, on_iterator. destruct (m _ w) as [[] [s it'] w'|e [s it'] w'|w'|]; cbn; [|..|done|done]; intros [Hc Hm]; eauto 10.
Qed.

(** Only the counters of the store have moved. *)
Definition counting (st st' : LsmStore) : Prop := ∃ s, st' = st_set_stats s st ∧ in_range s.

Lemma counting_trans st1 st2 st3 : counting st1 st2 → counting st2 st3 → counting st1 st3.
Proof. intros (s1 & -> & H1) (s2 & -> & H2). exists s2. split; [by destruct st1|done]. Qed.

Lemma counting_refl st : in_range (st_stats st) → counting st st.
Proof. intros Hs. exists (st_stats st). split; [by destruct st|done]. Qed.

Lemma counting_range st st' : counting st st' → in_range (st_stats st').
Proof. intros (s & -> & Hs). by destruct st. Qed.

Lemma counting_bump ctr n st : in_range (st_stats st) → counting st (st_set_stats (bump ctr n (st_stats st)) st).
Proof. intros Hs. eexists. split; [done|]. by apply in_range_bump. Qed.

(** The source over one table. *)
Lemma wp_table_source c t begin_ end_ st w : on_disk c w t → in_range (st_stats st) →
  wp (on_stats (IteratorOps.create t begin_ end_)) st w
    (λ s st' w', same_files w w' ∧ counting st st' ∧ denotes s w' (bounded end_ (starting begin_ (entries_of c t))) ∧
       source_table s = Some t)
    (λ e st' w', same_files w w' ∧ counting st st' ∧ source_error w e) (same_files w).
Proof.
  intros ((bs & Ht & E) & _ & _) Hs. apply wp_zoom.
  pose proof (wp_create_source (st_stats st) t w bs begin_ end_ Ht Hs) as Hwp.
  pose proof (keeps_create_at begin_ (st_stats st, mkTableSource t 0 [] 0 end_ true) w) as Hk.
  unfold wp, IteratorOps.create in *. destruct (create_at _ _ _) as [u [s1 ts] w'|e [s1 ts] w'|w'|]; cbn in *; [|..|done|done].
  - destruct Hwp as (Hc & Hsf & Hr & Hd & _). rewrite E in Hd. unfold same_table in Hk. cbn in Hk.
    split_and!; [done|done|by eexists|done|by rewrite Hk].
  - destruct Hwp as (Hc & Hsf & Hr & He). split_and!; [done|done|by eexists|done..].
Qed.

Lemma wp_table_sources c begin_ end_ ts : ∀ st w, Forall (on_disk c w) ts → in_range (st_stats st) →
  wp (table_sources begin_ end_ ts) st w
    (λ ss st' w', same_files w w' ∧ counting st st' ∧
       denote_all ss w' ((λ es, bounded end_ (starting begin_ es)) <$> (entries_of c <$> ts)) ∧
       source_table <$> ss = Some <$> ts)
    (λ e st' w', same_files w w' ∧ counting st st' ∧ source_error w e) (same_files w).
Proof.
  induction ts as [|t ts IH]; intros st w Hts Hs; cbn [table_sources].
  { apply wp_ret. split_and!; [done|by apply counting_refl|constructor|done]. }
  apply Forall_cons in Hts as [Ht Hts]. wp_call (wp_table_source c t begin_ end_ st w Ht Hs).
  intros s st1 w1 Hc1 (Hsf1 & Hcn1 & Hd1 & Htab1). wp_call (IH st1 w1).
  - eapply Forall_impl; [exact Hts|]. intros t' Ht'. by eapply on_disk_same.
  - by eapply counting_range.
  - intros ss st2 w2 Hc2 (Hsf2 & Hcn2 & Hd2 & Htab2). apply wp_ret. split_and!; [by etrans|by eapply counting_trans| |].
    + csimpl. constructor; [by eapply denotes_same|done].
    + csimpl. by rewrite Htab1, Htab2.
  - intros e st2 w2 Hc2 (Hsf2 & Hcn2 & Hq & Hcode). split_and!; [by etrans|by eapply counting_trans|].
    split; [eauto with wp|done].
  - intros w2 _ Hsf2. by etrans.
Qed.

(** What the snapshot holds. *)
Definition snapshot_map (c : Z → list entry) (memtables : list Memtable) (version : Levels) : gmap bytes MemEntry :=
  merged (map_ <$> memtables) ∪ view c version.

(** The cursor over a snapshot stands on the first live key of the range, and has the
    others before it. *)
Lemma wp_scan_open c begin_ end_ memtables version st w :
  Forall (λ m, ksorted (map_ m)) memtables → Forall (on_disk c w) (concat version) → in_range (st_stats st) →
  wp (scan_open begin_ end_ memtables version) st w
    (λ it st' w', same_files w w' ∧ counting st st' ∧ ∃ es, ksorted es ∧
       as_map es = ranged begin_ end_ (snapshot_map c memtables version) ∧ stepped Skip it w' es ∧
       ∀ t, Some t ∈ iterator_tables it → t ∈ concat version)
    (λ e st' w', same_files w w' ∧ counting st st' ∧ source_error w e) (same_files w).
Proof.
  intros Hms Hts Hs. unfold scan_open. wp_call (wp_table_sources c begin_ end_ _ st w Hts Hs).
  intros ss st1 w1 Hc1 (Hsf1 & Hcn1 & Hd1 & Htab).
  set (srcs := ((λ m, memtable_source m begin_ end_) <$> memtables) ++ ss).
  set (rs := (λ es, bounded end_ (starting begin_ es)) <$> ((map_ <$> memtables) ++ (entries_of c <$> concat version))).
  assert (Hall : denote_all srcs w1 rs).
  { unfold rs, srcs. rewrite fmap_app. apply Forall2_app; [|done]. clear -Hms.
    induction Hms as [|m ms Hm Hms IH]; csimpl; constructor; [by apply memtable_denotes|done]. }
  destruct (ksorted_of (merged rs)) as (es & Hsort & Hm).
  eapply wp_mono; [apply wp_on_iterator, (wp_keeps same_tables);
    [eapply (wp_next (st_stats st1) (new_merging srcs Skip) w1 es)|apply keeps_next]|..]; cbn beta.
  - by exists rs.
  - by eapply counting_range.
  - done.
  - intros it st2 w2 Hc2 (s & -> & (Hsf2 & Hr & Hst) & Hkeep). cbn [fst snd] in *. split_and!; [by etrans|eapply counting_trans; [done|by eexists]|].
    exists es. split_and!; [done| |done|].
    + rewrite Hm. unfold rs. rewrite ranged_merged. unfold snapshot_map, view, run_of.
      by rewrite merged_app, (merged_concat (entries_of c <$> _)).
    + unfold same_tables, iterator_tables in Hkeep |- *. cbn in Hkeep. rewrite Hkeep. unfold srcs. rewrite fmap_app, Htab.
      intros t [(s' & E & (m & -> & _)%list_elem_of_fmap)%list_elem_of_fmap|(t' & [= <-] & Ht)%list_elem_of_fmap]%elem_of_app; done.
  - intros e st2 w2 Hc2 (s & it & -> & (Hsf2 & Hr & Hq & Hcode) & _). cbn [fst snd] in *.
    split_and!; [by etrans|eapply counting_trans; [done|by eexists]|]. split; [eauto with wp|done].
  - intros w2 _ Hsf2. by etrans.
Qed.

End Scan.
