(* ===== verification/LsmDisk.v ===== *)
(** What the engine has in memory and on disk: memtables as the writes of their log, table
    files, their entries in the manifest, and which calls change which files. *)

From S2P Require Import Prelude Status FileNames World Wp Encoding Record SortedMap Memtable SSTableFormat LogFile Manifest LogScan SSTableLayout LsmStats SSTable SSTableBuild SSTableRead SSTableOpen IteratorMerge Wal LsmState LsmCompact Lsm LsmLevels LsmGet.
Import sstable LsmState LsmCompact LsmOps.

(** ** Memtables as the writes of their log *)

Section Mem.
Import WalOps.
#[local] Opaque record.encode record.decode.

(** The memtable after some writes, and the map it holds. *)
Definition mem_of (xs : list write) : Memtable := foldl MemtableOps.apply_write MemtableOps.empty_table (kv_of <$> xs).
Definition written (xs : list write) : gmap bytes MemEntry := MemtableOps.contents (mem_of xs).

Lemma mem_of_snoc xs x : mem_of (xs ++ [x]) = MemtableOps.apply_write (mem_of xs) (kv_of x).
Proof. unfold mem_of. by rewrite fmap_app, foldl_app. Qed.

Lemma mem_of_app xs ys : mem_of (xs ++ ys) = foldl MemtableOps.apply_write (mem_of xs) (kv_of <$> ys).
Proof. unfold mem_of. by rewrite fmap_app, foldl_app. Qed.

Lemma mem_of_wf xs : MemtableOps.wf (mem_of xs).
Proof. apply MemtableOps.wf_writes, MemtableOps.wf_empty. Qed.

Lemma mem_of_sorted xs : ksorted (map_ (mem_of xs)).
Proof. apply mem_of_wf. Qed.

Lemma written_nil : written [] = ∅.
Proof. done. Qed.

Lemma written_snoc xs x : written (xs ++ [x]) = <[wr_key x := MemtableOps.write_entry_of (kv_of x).2]> (written xs).
Proof. unfold written. rewrite mem_of_snoc. apply MemtableOps.contents_apply_write. Qed.

Lemma written_app xs ys : written (xs ++ ys) = written ys ∪ written xs.
Proof.
  induction ys as [|y ys IH] using rev_ind; [by rewrite app_nil_r, written_nil, map_empty_union|].
  by rewrite app_assoc, !written_snoc, IH, insert_union_l.
Qed.

(** Entries of a memtable: written by one of the writes. *)
Lemma mem_of_elem xs e : e ∈ map_ (mem_of xs) → ∃ x, x ∈ xs ∧ e = (wr_key x, MemtableOps.write_entry_of (kv_of x).2).
Proof.
  destruct e as [k v]. intros He. apply as_map_elem in He; [|apply mem_of_sorted]. change (written xs !! k = Some v) in He.
  induction xs as [|x xs IH] using rev_ind; [done|]. rewrite written_snoc in He.
  apply lookup_insert_Some in He as [[<- <-]|[_ He]].
  - exists x. split; [apply elem_of_app; right; by left|done].
  - destruct (IH He) as (y & Hy & ->). exists y. split; [apply elem_of_app; by left|done].
Qed.

Lemma mem_of_fits xs : Forall valid_write xs → Forall entry_fits (map_ (mem_of xs)).
Proof.
  intros Hv. apply Forall_forall. intros e (x & Hx & ->)%mem_of_elem. rewrite Forall_forall in Hv.
  destruct (Hv x Hx) as [[Hk Hs] _]. split; [done|]. cbn [fst snd kv_of]. unfold record.stored, stored in *.
  unfold kEntryHeaderSize, record.kHeaderSize in *. destruct (wr_tomb x); cbn in *; lia.
Qed.

(** Tombstones have no value. *)
Definition plain (e : entry) : Prop := me_tombstone e.2 = true → me_value e.2 = [].

Lemma mem_of_plain xs : Forall plain (map_ (mem_of xs)).
Proof.
  apply Forall_forall. intros e (x & _ & ->)%mem_of_elem. unfold plain. cbn. by destruct (wr_tomb x).
Qed.

Lemma plain_stored e : plain e → stored_entry e.1 (me_value e.2) (me_tombstone e.2) = e.
Proof. destruct e as [k [v [|]]]; unfold plain, stored_entry; cbn; [|done]. intros E. by rewrite E. Qed.

Section Weight.
Context `{Platform}.

Definition entry_weight (e : entry) : Z := 13 + sz e.1 + sz (stored e.2).

Lemma weight_cons e es : weight (e :: es) = entry_weight e + weight es.
Proof.
  unfold entry_weight. cbn. fold (weight es). unfold enc_entry. rewrite !sz_app, !sz_le32. change (sz [_]) with 1. lia.
Qed.

Lemma entry_weight_pos e : 0 < entry_weight e.
Proof. unfold entry_weight. pose proof (sz_nonneg e.1). pose proof (sz_nonneg (stored e.2)). lia. Qed.

Lemma weight_insert k v tomb m : weight (map_ (MemtableOps.insert k v tomb m)) ≤
  weight (map_ m) + entry_weight (k, mkMemEntry v tomb).
Proof.
  unfold MemtableOps.insert. destruct (map_find k (map_ m)) eqn:E; cbn [map_]; clear E.
  - induction (map_ m) as [|[k' x'] l IH]; cbn [map_assign].
    + pose proof (entry_weight_pos (k, mkMemEntry v tomb)). cbn. lia.
    + unfold key_eqb. case_bool_decide as E; rewrite !weight_cons.
      * subst. pose proof (entry_weight_pos (k', x')). lia.
      * lia.
  - induction (map_ m) as [|[k' x'] l IH]; cbn [map_emplace]; [rewrite weight_cons; cbn; lia|].
    destruct (ltb k k'); rewrite !weight_cons; lia.
Qed.

(** The table of a memtable is no larger than its log. *)
Lemma mem_of_weight xs : Forall valid_write xs → weight (map_ (mem_of xs)) ≤ sz (log_of xs).
Proof.
  induction xs as [|x xs IH] using rev_ind; [done|]. intros [Hv [Hx _]%Forall_cons]%Forall_app.
  rewrite mem_of_snoc, log_of_snoc, sz_app, sz_enc by done. specialize (IH Hv).
  assert (weight (map_ (MemtableOps.apply_write (mem_of xs) (kv_of x))) ≤
    weight (map_ (mem_of xs)) + (13 + sz (wr_key x) + sz (record.stored (wr_value x) (wr_tomb x)))).
  { unfold kv_of, record.stored. destruct (wr_tomb x); cbn; apply weight_insert. }
  unfold record.kHeaderSize. lia.
Qed.

End Weight.
End Mem.

(** ** Files *)

(** Only the files [names] may have changed. *)
Definition untouched (names : list bytes) (w w' : World) : Prop :=
  ∀ name, name ∉ names → w_files w' !! name = w_files w !! name.

#[export] Instance untouched_preorder names : PreOrder (untouched names).
Proof. split; [by intros w name|]. intros w1 w2 w3 H1 H2 name Hne. by rewrite H2, H1. Qed.

Lemma untouched_mono names names' w w' : untouched names w w' → names ⊆ names' → untouched names' w w'.
Proof. intros Hu Hsub name Hne. apply Hu. set_solver. Qed.

Lemma untouched_same names w w' : same_files w w' → untouched names w w'.
Proof. intros [E _] name _. by rewrite E. Qed.

Lemma untouched_touched names path w w' : touched path w w' → path ∈ names → untouched names w w'.
Proof. intros Ht Hin name Hne. apply Ht. by intros ->. Qed.

Section Disk.
Context `{Platform}.

(** The file of a table with these entries. *)
Definition stored_at (fs : gmap bytes file) (id : Z) (es : list entry) : Prop :=
  ∃ bits bs f, fs !! sst_file_name id = Some f ∧ f_data f = table_bytes bits bs ∧ wf_blocks bits bs ∧ concat bs = es.

Lemma stored_at_files fs fs' id es : stored_at fs id es →
  fs' !! sst_file_name id = fs !! sst_file_name id → stored_at fs' id es.
Proof. intros (bits & bs & f & Hf & Hrest) E. exists bits, bs, f. by rewrite E. Qed.

(** What the manifest says about it. *)
Definition describes (m : manifest.TableMeta) (es : list entry) : Prop :=
  manifest.tm_entry_count m = sz es ∧ manifest.tm_min_key m = first_key es ∧ manifest.tm_max_key m = last_key es.

(** Opening a stored table. *)
Lemma wp_open_table id es st w : stored_at (w_files w) id es → es ≠ [] →
  wp (open_table id) st w
    (λ t st' w', st' = st ∧ same_files w w' ∧ t_id t = id ∧ describes (meta_of t) es ∧
       0 ≤ t_file_size t ≤ INT64_MAX ∧ ∀ c, c id = es → on_disk c w' t)
    (λ e st' w', st' = st ∧ same_files w w' ∧ ¬ reliable w ∧ code_ e = IOError) (same_files w).
Proof.
  intros (bits & bs & f & Hf & Hd & Hwf & E) Hne. unfold open_table. wp_pure.
  assert (Hsz : sz (f_data f) ≤ INT64_MAX) by (rewrite Hd; by destruct Hwf).
  eapply wp_mono; [by apply (wp_table_open (sst_file_name id) id true)|..]; cbn beta; [|..|done].
  - intros t s1 w1 _ (-> & Hsf & Hr & Hfs & Hh & l & Hl & Hla). rewrite Hd, load_ref_table in Hl by done.
    injection Hl as <-. rewrite Hd in Hr, Hfs. pose proof (holds_loaded t w1 bits bs Hwf Hr Hfs Hla) as Ht.
    injection Hh as Hp Hid _ _ _. split_and!; [done|done|done| | | |].
    + unfold describes. cbn. rewrite <-E. split_and!; [by eapply ht_count|by eapply ht_min|by eapply ht_max].
    + rewrite Hfs. apply sz_nonneg.
    + by destruct (ht_size _ _ _ Ht).
    + intros c Hc. unfold on_disk, entries_of. rewrite Hid, Hc. split_and!; [by exists bs|done|done].
  - intros e s1 w1 _ (-> & Hsf & [[Hq Hcode]|He]); [done|]. by rewrite Hd, load_ref_table in He.
Qed.

(** ** Building *)

Lemma wp_add_all path bits es : ∀ b w bs cur, building path bits b w bs cur →
  Forall entry_fits es → Forall plain es → ksorted (concat bs ++ cur ++ es) →
  weight (concat bs ++ cur ++ es) ≤ kWeightLimit →
  wp (add_all es) b w
    (λ _ b' w', touched path w w' ∧ ∃ bs' cur', building path bits b' w' bs' cur' ∧
       concat bs' ++ cur' = concat bs ++ cur ++ es)
    (λ e _ w', touched path w w' ∧ build_error w e) (touched path w).
Proof.
  induction es as [|[k x] es IH]; intros b w bs cur Hb Hf Hp Hs Hw; cbn [add_all].
  { apply wp_ret. split; [done|]. exists bs, cur. by rewrite app_nil_r. }
  apply Forall_cons in Hf as [Hfx Hf]. apply Forall_cons in Hp as [Hpx Hp].
  pose proof (plain_stored (k, x) Hpx) as Est. cbn [fst snd] in Est.
  rewrite app_assoc in Hs, Hw. pose proof Hs as (_ & Hs2 & Hlt)%ksorted_app. rewrite !weight_app, weight_cons in Hw.
  wp_call (wp_add path bits b w bs cur k (me_value x) (me_tombstone x)); rewrite ?Est.
  - done.
  - done.
  - intros y Hy. apply (Hlt y (k, x) Hy). by left.
  - rewrite app_assoc, !weight_app, weight_cons. pose proof (weight_nonneg es). cbn [weight foldr]. lia.
  - intros _ b1 w1 Hc1 (Ht1 & bs1 & cur1 & Hb1 & E1).
    assert (Eq : concat bs1 ++ cur1 ++ es = (concat bs ++ cur) ++ (k, x) :: es)
      by (rewrite app_assoc, E1, <-app_assoc; done).
    eapply wp_mono; [eapply (IH b1 w1 bs1 cur1)|..]; cbn beta; try done.
    + by rewrite Eq.
    + rewrite Eq, !weight_app, weight_cons. lia.
    + intros _ b2 w2 _ (Ht2 & bs2 & cur2 & Hb2 & E2). split; [by etrans|]. exists bs2, cur2. split; [done|].
      by rewrite E2, Eq, <-app_assoc.
    + intros e b2 w2 _ [Ht2 He]. split; [by etrans|]. destruct He as [?|[Hq ?]]; [by left|]. right. eauto with wp.
    + intros w2 _ Ht2. by etrans.
Qed.

Lemma wp_lsm_sync_dir st w :
  wp sync_dir st w (λ _ st' w', st' = st ∧ same_files w w')
    (λ e st' w', st' = st ∧ same_files w w' ∧ ¬ reliable w ∧ code_ e = IOError) (same_files w).
Proof.
  unfold sync_dir. wp_call wp_sync_directory. intros rc s1 w1 Hc1 (-> & Hsf & Hrc). wp_pure.
  destruct Hrc as [-> |[-> Hq]]; cbn [Z.eqb negb fail_when]; [by apply wp_ret|]. by apply wp_fail.
Qed.

Lemma wp_finish_build path bits b w es : building path bits b w [] [] →
  Forall entry_fits es → Forall plain es → ksorted es → weight es ≤ kWeightLimit →
  wp (add_all es;; BuilderOps.finish) b w
    (λ _ b' w', touched path w w' ∧ ∃ bs, wf_blocks bits bs ∧ concat bs = es ∧ table_at path (table_bytes bits bs) w')
    (λ e _ w', touched path w w' ∧ build_error w e) (touched path w).
Proof.
  intros Hb Hf Hp Hs Hw. wp_call (wp_add_all path bits es b w [] [] Hb Hf Hp Hs Hw).
  intros _ b1 w1 Hc1 (Ht1 & bs & cur & Hb1 & E). cbn [concat app] in E.
  eapply wp_mono; [eapply (wp_finish path bits b1 w1 bs cur Hb1)|..]; cbn beta.
  - intros _ b2 w2 _ (Ht2 & bs' & Hwf & E' & Hat & _). split; [by etrans|]. exists bs'. by rewrite E', E.
  - intros e b2 w2 _ [Ht2 He]. split; [by etrans|]. destruct He as [?|[Hq ?]]; [by left|]. right. eauto with wp.
  - intros w2 _ Ht2. by etrans.
Qed.

Definition manifest_file (fs : gmap bytes file) (set : manifest.LevelSet) : Prop :=
  ∃ f, fs !! kManifestName = Some f ∧ f_data f = manifest.encode set.

(** A new table is in place and the manifest names it. *)
Record flushed (id : Z) (es : list entry) (base : Levels) (next_id : Z) (w w' : World) (t : SSTable) : Prop := {
  fl_id : t_id t = id;
  fl_meta : describes (meta_of t) es;
  fl_size : 0 ≤ t_file_size t ≤ INT64_MAX;
  fl_stored : stored_at (w_files w') id es;
  fl_open : ∀ c, c id = es → on_disk c w' t;
  fl_manifest : manifest_file (w_files w') (level_set_of (push_l0 t base) next_id);
  fl_files : untouched [temp_name (sst_file_name id); sst_file_name id; temp_name kManifestName; kManifestName] w w';
}.

Lemma sst_name_fresh id : valid_id id → sst_file_name id ≠ temp_name (sst_file_name id) ∧
  sst_file_name id ≠ kManifestName ∧ sst_file_name id ≠ temp_name kManifestName.
Proof.
  intros Hid. pose proof (parse_sst_name id Hid) as Hp. split_and!; intros E; rewrite E in Hp.
  - by rewrite parse_sst_temp in Hp.
  - done.
  - by rewrite parse_sst_temp in Hp.
Qed.

Section Build.
Context (table : Memtable) (id : Z) (base : Levels) (next_id : Z) (st : LsmStore) (w : World).
Let es := map_ table.
Let temp := temp_name (sst_file_name id).
Hypothesis Hrel : reliable w.
Hypothesis Hfp : lo_fail_at (st_options st) = FpNone.
Hypothesis Hbs : lo_block_size (st_options st) ≠ 0.
Hypothesis Hid : valid_id id.
Hypothesis Hs : in_range (st_stats st).
Hypothesis Hes : es ≠ [] ∧ Forall entry_fits es ∧ Forall plain es ∧ ksorted es ∧ weight es ≤ kWeightLimit.
Hypothesis Hroom : ∀ t, t_id t = id → describes (meta_of t) es →
  sz (manifest.encode (level_set_of (push_l0 t base) next_id)) ≤ UINT64_MAX.

Lemma wp_build_table_unlocked :
  wp (build_table_unlocked table id base next_id) st w
    (λ levels st' w', counting st st' ∧ ∃ t, levels = push_l0 t base ∧ flushed id es base next_id w w' t)
    (λ e st' w', counting st st' ∧ code_ e = InvalidArgument ∧ touched temp w w')
    (λ w', untouched [temp; sst_file_name id; temp_name kManifestName] w w' ∨ ∃ t, flushed id es base next_id w w' t).
Proof.
  destruct Hes as (Hne & Hf & Hp & Hsort & Hw). destruct (sst_name_fresh id Hid) as (Hn1 & Hn2 & Hn3). fold temp in Hn1.
  unfold build_table_unlocked. cbv zeta. wp_pure. fold temp.
  wp_call (wp_create temp (lo_block_size (st_options st)) (lo_bits_per_key (st_options st)) st w Hbs (or_introl Hrel)).
  2: { intros e s1 w1 _ (-> & Ht & [Hcode|[Hq _]]); [|done]. split_and!; [by apply counting_refl|done|done]. }
  2: { intros w1 _ Ht. left. eapply untouched_touched; [done|set_solver]. }
  intros b s1 w1 Hc1 (-> & Ht1 & Hb).
  eapply wp_bind_local; [by eapply (wp_finish_build temp _ b w1 es Hb)|..]; cbn beta.
  2: { intros e b2 w2 _ (Ht2 & [Hcode|[Hq _]]); [|exfalso; eauto with wp].
       split_and!; [by apply counting_refl|done|by etrans]. }
  2: { intros w2 _ Ht2. left. eapply untouched_touched; [by etrans|set_solver]. }
  intros [] b2 w2 Hc2 (Ht2 & bs & Hwf & E & Hat). assert (Ht : touched temp w w2) by by etrans.
  cbn [snd]. apply wp_bind_bump. set (st2 := st_set_stats _ st). assert (Hst2 : counting st st2) by by apply counting_bump.
  rewrite Hfp. wp_call (wp_rename_file temp (sst_file_name id) st2 w2 _ Hat).
  2: { intros w3 _ E3. rewrite E3. left. eapply untouched_touched; [done|set_solver]. }
  intros rc s3 w3 Hc3 (-> & [(-> & Hfs3 & _)|(_ & Hq & _)]); [|exfalso; eauto 10 with wp]. cbn [Z.eqb negb fail_when]. wp_pure.
  assert (Hrel3 : reliable w3) by eauto 10 with wp.
  assert (Hu3 : untouched [temp; sst_file_name id] w w3).
  { intros name Hno. rewrite Hfs3, lookup_insert_ne, lookup_delete_ne by set_solver. apply Ht. set_solver. }
  assert (Hst3 : stored_at (w_files w3) id es).
  { exists (lo_bits_per_key (st_options st)), bs. eexists. rewrite Hfs3, lookup_insert_eq. done. }
  wp_call (wp_lsm_sync_dir st2 w3).
  2: { intros e s4 w4 _ (_ & _ & Hq & _). done. }
  2: { intros w4 _ Hsf. left. eapply untouched_mono; [etrans; [exact Hu3|by apply untouched_same]|set_solver]. }
  intros _ s4 w4 Hc4 [-> Hsf4]. assert (Hu4 : untouched [temp; sst_file_name id] w w4) by (etrans; [exact Hu3|by apply untouched_same]).
  wp_call (wp_open_table id es st2 w4).
  { eapply stored_at_files; [done|]. by rewrite (proj1 Hsf4). }
  { done. }
  2: { intros e s5 w5 _ (_ & _ & Hq & _). exfalso. eauto with wp. }
  2: { intros w5 _ Hsf5. left. eapply untouched_mono; [etrans; [exact Hu4|by apply untouched_same]|set_solver]. }
  intros t s5 w5 Hc5 (-> & Hsf5 & Htid & Hmeta & Hsize & Hopen).
  assert (Hu5 : untouched [temp; sst_file_name id] w w5) by (etrans; [exact Hu4|by apply untouched_same]).
  assert (Hst5 : stored_at (w_files w5) id es).
  { eapply stored_at_files; [done|]. by rewrite (proj1 Hsf5), (proj1 Hsf4). }
  assert (Hfl : ∀ w', manifest.committed (level_set_of (push_l0 t base) next_id) w5 w' → flushed id es base next_id w w' t).
  { intros w' [Hmf Hother]. split; [done|done|done| | | |].
    - eapply stored_at_files; [done|]. by apply Hother.
    - intros c Hc. specialize (Hopen c Hc). eapply on_disk_files; [done|]. rewrite Htid. by apply Hother.
    - by eexists.
    - intros name Hno. rewrite Hother by set_solver. apply Hu5. set_solver. }
  eapply wp_bind; [apply manifest.wp_write_atomic; [by apply Hroom|left; eauto 10 with wp]|..]; cbn beta.
  - intros _ s6 w6 _ [-> Hcom]. apply wp_ret. split; [done|]. eauto.
  - intros e s6 w6 _ (_ & Hq & _). exfalso. eauto 10 with wp.
  - intros w6 _ [Ht6|Hcom]; [left|right; eauto].
    etrans; [eapply untouched_mono; [exact Hu5|set_solver]|eapply untouched_touched; [exact Ht6|set_solver]].
Qed.
End Build.

End Disk.
