(* ===== verification/LsmPick.v ===== *)
(** Compaction on the contents of the levels: what a picked compaction covers, that replacing
    its inputs by the merge of them changes nothing a client can see, and the level set it
    commits. *)

From S2P Require Import Prelude Status SortedMap Memtable SSTableFormat SSTableLayout SSTable SSTableRead Iterator IteratorMerge LsmState LsmCompact.
From S2P Require Import Lsm LsmLevels.
Import sstable LsmCompact.

(** * Key ranges *)

(** A table lies outside a range of keys. *)
Definition outside (begin_ end_ : bytes) (t : SSTable) : Prop :=
  klt (t_max_key t) begin_ ∨ klt end_ (t_min_key t).

Definition inside (begin_ end_ : bytes) (t : SSTable) : Prop :=
  kle begin_ (t_min_key t) ∧ kle (t_max_key t) end_.

Lemma ranges_overlap_false a b t : ranges_overlap a b (t_min_key t) (t_max_key t) = false ↔ outside a b t.
Proof.
  unfold ranges_overlap, outside. rewrite negb_false_iff, orb_true_iff. unfold klt. tauto.
Qed.

Lemma ranges_overlap_true a b t : ranges_overlap a b (t_min_key t) (t_max_key t) = true →
  kle (t_min_key t) b ∧ kle a (t_max_key t).
Proof.
  unfold ranges_overlap. rewrite negb_true_iff, orb_false_iff. intros [H1 H2]. split; done.
Qed.

Lemma key_min_spec a b : kle (key_min a b) a ∧ kle (key_min a b) b ∧ (key_min a b = a ∨ key_min a b = b).
Proof. unfold key_min. destruct (ltb_spec b a); split_and!; auto; korder. Qed.

Lemma key_max_spec a b : kle a (key_max a b) ∧ kle b (key_max a b) ∧ (key_max a b = a ∨ key_max a b = b).
Proof. unfold key_max. destruct (ltb_spec a b); split_and!; auto; korder. Qed.

(** The widened range covers the tables and the old range, and starts and ends at one
    of their bounds. *)
Lemma widen_spec ts : ∀ range,
  let r := widen range ts in
  kle r.1 range.1 ∧ kle range.2 r.2 ∧ Forall (inside r.1 r.2) ts ∧
  (r.1 = range.1 ∨ ∃ t, t ∈ ts ∧ r.1 = t_min_key t) ∧ (r.2 = range.2 ∨ ∃ t, t ∈ ts ∧ r.2 = t_max_key t).
Proof.
  induction ts as [|t ts IH]; intros [a b]; cbn -[widen].
  { unfold widen. cbn. split_and!; auto; try korder. }
  change (widen (a, b) (t :: ts)) with (widen (key_min a (t_min_key t), key_max b (t_max_key t)) ts).
  destruct (IH (key_min a (t_min_key t), key_max b (t_max_key t))) as (H1 & H2 & H3 & H4 & H5).
  destruct (widen _ ts) as [x y]. cbn [fst snd] in *.
  destruct (key_min_spec a (t_min_key t)) as (M1 & M2 & M3). destruct (key_max_spec b (t_max_key t)) as (N1 & N2 & N3).
  split_and!; [korder|korder|..].
  - constructor; [|done]. unfold inside. split; korder.
  - destruct H4 as [->|(t' & ? & ->)]; [|right; exists t'; split; [by right|done]].
    destruct M3 as [->| ->]; [by left|right; exists t; split; [by left|done]].
  - destruct H5 as [->|(t' & ? & ->)]; [|right; exists t'; split; [by right|done]].
    destruct N3 as [->| ->]; [by left|right; exists t; split; [by left|done]].
Qed.

(** * Picking *)

(** What a compaction is given: some tables of a level, all of the first, and the
    tables below that their range touches. *)
Record picked (levels : Levels) (work : Compaction) : Prop := {
  pk_level : ∃ level, levels !! cw_level work = Some level ∧ (∀ t, t ∈ cw_inputs work → t ∈ level) ∧
    (cw_inputs work = level ∨ ∃ t, cw_inputs work = [t] ∧ cw_level work ≠ 0%nat);
  pk_inputs : cw_inputs work ≠ [];
  pk_overlaps : cw_overlaps work `sublist_of` default [] (levels !! S (cw_level work));
  pk_inside : Forall (inside (cw_begin work) (cw_end work)) (cw_inputs work ++ cw_overlaps work);
  pk_rest : ∀ t, t ∈ default [] (levels !! S (cw_level work)) → t ∉ cw_overlaps work →
    outside (cw_begin work) (cw_end work) t;
  pk_drop : cw_drop_tombstones work = true →
    Forall (outside (cw_begin work) (cw_end work)) (concat (drop (S (S (cw_level work))) levels));
}.

Lemma shallowest_spec levels n i : shallowest levels n = Some i →
  ∃ j level, i = (n + j)%nat ∧ levels !! j = Some level ∧ level ≠ [].
Proof.
  revert n. induction levels as [|level levels IH]; intros n; cbn [shallowest]; [done|].
  destruct (negb (is_empty level)) eqn:E; cbn [andb].
  - case_match.
    + intros [= <-]. exists 0%nat, level. split_and!; [lia|done|by destruct level].
    + intros (j & l & -> & Hj & Hl)%IH. exists (S j), l. split_and!; [lia|done|done].
  - intros (j & l & -> & Hj & Hl)%IH. exists (S j), l. split_and!; [lia|done|done].
Qed.

Lemma over_budget_spec st n level i : over_budget st n level = Some i → (level ≤ i)%nat.
Proof.
  revert level. induction n as [|n IH]; intros level; cbn [over_budget]; [done|].
  case_match; [|done]. case_match; [by intros [= <-]|]. intros ?%IH. lia.
Qed.

Lemma pick_table_in pointer front level : front ∈ level → pick_table pointer front level ∈ level.
Proof.
  intros Hf. unfold pick_table. destruct pointer; [done|]. destruct (List.find _ level) as [t|] eqn:E; [|done].
  cbn. apply find_some in E as [Hin _]. by apply list_elem_of_In.
Qed.

(** The level and the inputs it picks; with a positive trigger there always is one. *)
Lemma pick_inputs_spec st force i inputs : pick_inputs st force = Some (i, inputs) →
  1 ≤ lo_l0_compaction_trigger (st_options st) →
  inputs ≠ [] ∧ ∃ level, st_levels st !! i = Some level ∧ (∀ t, t ∈ inputs → t ∈ level) ∧
    (inputs = level ∨ ∃ t, inputs = [t] ∧ i ≠ 0%nat).
Proof.
  unfold pick_inputs. intros Hp Htr. destruct force.
  - destruct (shallowest _ _) as [j|] eqn:Es; [|done]. injection Hp as -> <-.
    apply shallowest_spec in Es as (j' & level & -> & Hl & Hne). cbn. rewrite Hl. cbn. split; [done|]. eauto 10.
  - destruct (negb _ && _) eqn:Et.
    + injection Hp as <- <-. apply andb_true_iff in Et as [_ Ht]. apply Z.leb_le in Ht.
      destruct (st_levels st !! 0%nat) as [level|] eqn:El; cbn in *; [|rewrite sz_nil in Ht; lia].
      split; [intros ->; rewrite sz_nil in Ht; lia|]. eauto 10.
    + destruct (over_budget _ _ _) as [j|] eqn:Eo; [|done]. apply over_budget_spec in Eo.
      destruct (st_levels st !! j) as [[|front rest]|] eqn:El; [done| |done]. injection Hp as <- <-.
      split; [done|]. exists (front :: rest). split_and!; [done| |right; eexists; split; [done|lia]].
      intros t Ht%list_elem_of_singleton. subst t. apply pick_table_in. by left.
Qed.

(** The tables of a run that do not touch the range of the inputs do not touch the
    range widened by those that do: they are on one side of all of it. *)
Lemma widened_rest c level range overlaps t :
  Forall (keyed c) level → ksorted (run_of c level) → kle range.1 range.2 →
  overlaps = filter (λ t, ranges_overlap range.1 range.2 (t_min_key t) (t_max_key t) = true) level →
  t ∈ level → t ∉ overlaps → let r := widen range overlaps in outside r.1 r.2 t.
Proof.
  intros Hk Hs Hle -> Ht Hno.
  assert (Hout : outside range.1 range.2 t).
  { apply ranges_overlap_false, not_true_is_false. intros Hov. apply Hno. by apply list_elem_of_filter. }
  destruct (widen_spec (filter (λ t, ranges_overlap range.1 range.2 (t_min_key t) (t_max_key t) = true) level) range)
    as (H1 & H2 & _ & H4 & H5). cbv zeta in *.
  assert (Hord : ∀ o, o ∈ filter (λ t, ranges_overlap range.1 range.2 (t_min_key t) (t_max_key t) = true) level →
    before t o ∨ before o t).
  { intros o Ho. assert (Hne : t ≠ o) by (by intros ->). apply list_elem_of_filter in Ho as [_ Ho]. by eapply run_ordered. }
  rewrite Forall_forall in Hk. pose proof (keyed_min_max c t (Hk t Ht)) as Hmm. destruct Hout as [Hout|Hout].
  - left. destruct H4 as [->|(o & Ho & ->)]; [done|]. destruct (Hord o Ho) as [Hb|Hb]; unfold before in Hb; [done|].
    apply list_elem_of_filter in Ho as [[? ?]%ranges_overlap_true _]. korder.
  - right. destruct H5 as [->|(o & Ho & ->)]; [done|]. destruct (Hord o Ho) as [Hb|Hb]; unfold before in Hb; [|done].
    apply list_elem_of_filter in Ho as [[? ?]%ranges_overlap_true _]. korder.
Qed.

Lemma level_run c levels i level : levels_ok c levels → levels !! S i = Some level → ksorted (run_of c level).
Proof.
  intros [_ Hr _] Hl. destruct levels as [|l0 levels]; [done|]. cbn in Hl, Hr.
  rewrite Forall_forall in Hr. apply Hr. by eapply list_elem_of_lookup_2.
Qed.

Lemma level_keyed c levels i level : levels_ok c levels → levels !! i = Some level → Forall (keyed c) level.
Proof.
  intros [Hk _ _] Hl. rewrite Forall_forall in *. intros t Ht. apply Hk, elem_of_concat.
  exists level. split; [by eapply list_elem_of_lookup_2|done].
Qed.

Lemma next_level_ok c levels i : levels_ok c levels →
  Forall (keyed c) (default [] (levels !! S i)) ∧ ksorted (run_of c (default [] (levels !! S i))).
Proof.
  intros Hok. destruct (levels !! S i) as [level|] eqn:E; cbn; [|split; constructor].
  split; [by eapply level_keyed|by eapply level_run].
Qed.

Lemma pick_compaction_ok c st force : levels_ok c (st_levels st) → 1 ≤ lo_l0_compaction_trigger (st_options st) →
  ∃ r, pick_compaction st force = ROk r ∧ match r with Some work => picked (st_levels st) work | None => True end.
Proof.
  intros Hok Htr. unfold pick_compaction. destruct (pick_inputs st force) as [[i inputs]|] eqn:Ep; [|by eexists].
  destruct (pick_inputs_spec st force i inputs Ep Htr) as (Hne & level & Hl & Hin & Hwhole).
  destruct inputs as [|front rest]; [done|]. clear Ep. set (inputs := front :: rest) in *. cbv zeta.
  set (r1 := widen (t_min_key front, t_max_key front) inputs).
  set (overlaps := filter _ _). set (r2 := widen r1 overlaps). eexists. split; [done|].
  destruct (widen_spec inputs (t_min_key front, t_max_key front)) as (A1 & A2 & A3 & _). fold r1 in A1, A2, A3. cbv zeta in *.
  destruct (widen_spec overlaps r1) as (B1 & B2 & B3 & _). fold r2 in B1, B2, B3. cbv zeta in *.
  pose proof (level_keyed _ _ _ _ Hok Hl) as Hk. destruct (next_level_ok c _ i Hok) as [Hk' Hs'].
  split; cbn [cw_level cw_inputs cw_overlaps cw_begin cw_end cw_drop_tombstones].
  - eauto 10.
  - done.
  - apply sublist_filter.
  - apply Forall_app. split; [|done]. eapply Forall_impl; [exact A3|]. intros t [H1 H2]. split; korder.
  - intros t Ht Hno. eapply (widened_rest c _ r1 overlaps t Hk' Hs'); try done.
    assert (Hf : keyed c front) by (rewrite Forall_forall in Hk; apply Hk, Hin; by left).
    pose proof (keyed_min_max c front Hf). cbn in A1, A2. korder.
  - unfold can_drop_tombstones. rewrite forallb_forall. intros Hall. rewrite Nat.add_1_r in Hall.
    apply Forall_forall. intros t (l & Hl' & Ht)%elem_of_concat.
    apply list_elem_of_In in Hl'. specialize (Hall l Hl'). rewrite forallb_forall in Hall.
    apply list_elem_of_In in Ht. specialize (Hall t Ht). by apply ranges_overlap_false, negb_true_iff.
Qed.

(** * Depth *)

Lemma shallowest_below levels n i : shallowest levels n = Some i → (i + 2 ≤ n + length levels)%nat.
Proof.
  revert n. induction levels as [|level levels IH]; intros n; cbn [shallowest length]; [done|].
  destruct (negb _ && _) eqn:E; [|intros ?%IH; lia]. intros [= <-]. apply andb_true_iff in E as [_ E].
  destruct levels; [done|]. cbn [length]. lia.
Qed.

Lemma over_budget_below st n level i : over_budget st n level = Some i → Z.of_nat i + 2 ≤ lo_max_levels (st_options st).
Proof.
  revert level. induction n as [|n IH]; intros level; cbn [over_budget]; [done|].
  destruct (_ && _) eqn:E; [|done]. apply andb_true_iff in E as [_ E]. apply Z.ltb_lt in E.
  case_match; [intros [= <-]; lia|apply IH].
Qed.

(** A compaction adds a level only below the first or up to the configured depth. *)
Lemma pick_compaction_depth st force work : pick_compaction st force = ROk (Some work) →
  Z.of_nat (cw_level work) + 2 ≤ Z.max (Z.max (sz (st_levels st)) 2) (lo_max_levels (st_options st)).
Proof.
  unfold pick_compaction. destruct (pick_inputs st force) as [[i [|front rest]]|] eqn:Ep; [done| |done].
  intros [= <-]. cbn [cw_level]. revert Ep. unfold pick_inputs. destruct force.
  - destruct (shallowest _ _) as [j|] eqn:Es; [|done]. intros [= -> _]. apply shallowest_below in Es. unfold sz. lia.
  - destruct (negb _ && _); [intros [= <- _]; lia|]. destruct (over_budget _ _ _) as [j|] eqn:Eo; [|done].
    apply over_budget_below in Eo. destruct (st_levels st !! j) as [[|]|]; [done| |done]. intros [= <- _ _]. lia.
Qed.

(** * The level set a compaction commits *)

(** * Lists *)

Lemma pop_empty_app levels : ∃ n, levels = pop_empty levels ++ replicate n [].
Proof.
  induction levels as [|level levels [n IH]]; cbn [pop_empty]; [by exists 0%nat|].
  destruct (pop_empty levels) as [|l ls] eqn:E.
  - destruct level as [|t level]; cbn.
    + exists (S n). cbn. by rewrite IH at 1.
    + exists n. by rewrite IH at 1.
  - exists n. cbn. by rewrite IH at 1.
Qed.

Lemma concat_replicate_nil {A} n : concat (replicate n (@nil A)) = [].
Proof. by induction n. Qed.

Lemma concat_pop_empty levels : concat (pop_empty levels) = concat levels.
Proof.
  destruct (pop_empty_app levels) as [n E]. rewrite E at 2. by rewrite concat_app, concat_replicate_nil, app_nil_r.
Qed.

Lemma length_pop_empty levels : (length (pop_empty levels) ≤ length levels)%nat.
Proof. destruct (pop_empty_app levels) as [n E]. rewrite E at 2. rewrite length_app. lia. Qed.

Lemma next_levels_depth levels work opened :
  (length (next_levels levels work opened) ≤ max (length levels) (S (S (cw_level work))))%nat.
Proof.
  unfold next_levels. cbv zeta. etrans; [apply length_pop_empty|]. rewrite !length_alter. unfold grow.
  rewrite length_app, length_replicate. lia.
Qed.

Lemma tail_app {A} (l1 l2 : list A) : tail l1 `prefix_of` tail (l1 ++ l2).
Proof. destruct l1; cbn; [apply prefix_nil|by apply prefix_app_r]. Qed.

(** The grown level set around the two levels a compaction changes. *)
Lemma grow_split (levels : Levels) i level : levels !! i = Some level →
  grow [] (S (S i)) levels = take i levels ++ level :: default [] (levels !! S i) :: drop (S (S i)) levels.
Proof.
  intros Hl. pose proof (take_drop_middle levels i level Hl) as E. unfold grow.
  pose proof (lookup_lt_Some _ _ _ Hl) as Hlt.
  destruct (levels !! S i) as [next|] eqn:En; cbn [default].
  - pose proof (lookup_lt_Some _ _ _ En). replace (S (S i) - length levels)%nat with 0%nat by lia.
    rewrite app_nil_r. rewrite <-E at 1. do 2 f_equal. by apply drop_S.
  - apply lookup_ge_None in En. rewrite (drop_ge levels (S (S i))) by lia.
    replace (S (S i) - length levels)%nat with 1%nat by lia. cbn. rewrite <-E at 1.
    rewrite (drop_ge levels (S i)) by lia. by rewrite <-app_assoc.
Qed.

Lemma alter_two {A} (f g : A → A) pre x y post :
  alter g (S (length pre)) (alter f (length pre) (pre ++ x :: y :: post)) = pre ++ f x :: g y :: post.
Proof. induction pre as [|z pre IH]; cbn; [done|]. f_equal. exact IH. Qed.

(** The tables that stay, in the two levels. *)
Definition kept (work : Compaction) (tables : list SSTable) : list SSTable :=
  filter (λ t, bool_decide (t_id t ∈ (t_id <$> cw_inputs work) ++ (t_id <$> cw_overlaps work)) = false) tables.

Lemma next_levels_eq levels work opened level : levels !! cw_level work = Some level →
  next_levels levels work opened =
    pop_empty (take (cw_level work) levels ++ kept work level ::
      sort_tables (kept work (default [] (levels !! S (cw_level work))) ++ opened) ::
      drop (S (S (cw_level work))) levels).
Proof.
  intros Hl. unfold next_levels. cbv zeta. rewrite (grow_split levels (cw_level work) level Hl).
  f_equal. pose proof (lookup_lt_Some _ _ _ Hl).
  assert (Hlen : length (take (cw_level work) levels) = cw_level work) by (rewrite length_take; lia).
  pose proof (alter_two (kept work) (λ tables, sort_tables (kept work tables ++ opened)) (take (cw_level work) levels)
    level (default [] (levels !! S (cw_level work))) (drop (S (S (cw_level work))) levels)) as E.
  rewrite Hlen in E. exact E.
Qed.

(** * The tables *)

Section Replace.
Variables (c : Z → list entry) (levels : Levels) (work : Compaction).
Hypothesis Hok : levels_ok c levels.
Hypothesis Hpk : picked levels work.

(** Splits the level set at the two levels. *)
Lemma levels_split level : levels !! cw_level work = Some level →
  concat levels = concat (take (cw_level work) levels) ++ level ++
    default [] (levels !! S (cw_level work)) ++ concat (drop (S (S (cw_level work))) levels).
Proof.
  intros Hl. transitivity (concat (grow [] (S (S (cw_level work))) levels)).
  - unfold grow. by rewrite concat_app, concat_replicate_nil, app_nil_r.
  - by rewrite (grow_split _ _ level Hl), concat_app.
Qed.

(** By its id a table is known among those of the level set. *)
Lemma id_determines t t' : t ∈ concat levels → t' ∈ concat levels → t_id t = t_id t' → t = t'.
Proof.
  intros Ht Ht' E. pose proof (lv_ids _ _ Hok) as Hnd. clear -Ht Ht' E Hnd.
  induction (concat levels) as [|x l IH]; [by apply elem_of_nil in Ht|]. cbn in Hnd. apply NoDup_cons in Hnd as [Hx Hl].
  apply elem_of_cons in Ht as [->|Ht], Ht' as [->|Ht']; auto.
  - destruct Hx. rewrite E. by apply list_elem_of_fmap_2.
  - destruct Hx. rewrite <-E. by apply list_elem_of_fmap_2.
Qed.

Lemma tables_NoDup : NoDup (concat levels).
Proof. eapply NoDup_fmap_1, (lv_ids _ _ Hok). Qed.

Lemma picked_in t : t ∈ cw_inputs work ++ cw_overlaps work → t ∈ concat levels.
Proof.
  destruct (pk_level _ _ Hpk) as (level & Hl & Hin & _). rewrite (levels_split level Hl), !elem_of_app.
  intros [Ht|Ht]; [right; left; auto|]. right. right. left. by eapply elem_of_sublist, (pk_overlaps _ _ Hpk).
Qed.

Lemma elem_of_kept t tables : (∀ x, x ∈ tables → x ∈ concat levels) →
  t ∈ kept work tables ↔ t ∈ tables ∧ t ∉ cw_inputs work ++ cw_overlaps work.
Proof.
  intros Hsub. unfold kept. rewrite list_elem_of_filter, bool_decide_eq_false, <-fmap_app. split.
  - intros [Hno Ht]. split; [done|]. intros Hin. apply Hno. by apply list_elem_of_fmap_2.
  - intros [Ht Hno]. split; [|done]. intros (t' & E & Ht')%list_elem_of_fmap. apply Hno.
    rewrite (id_determines t t'); [done|by apply Hsub|by apply picked_in|done].
Qed.

Lemma kept_perm tables picks : (∀ x, x ∈ tables → x ∈ concat levels) → NoDup tables → NoDup picks →
  (∀ t, t ∈ picks ↔ t ∈ tables ∧ t ∈ cw_inputs work ++ cw_overlaps work) → tables ≡ₚ kept work tables ++ picks.
Proof.
  intros Hsub Hnd Hndp Hp. apply NoDup_Permutation; [done| |].
  - apply NoDup_app. split_and!; [by apply NoDup_filter| |done].
    intros t Ht Hin. apply elem_of_kept in Ht as [_ Hno]; [|done]. by apply Hno, Hp.
  - intros t. rewrite elem_of_app, elem_of_kept, Hp by done. split; [|by intros [[? _]|[? _]]].
    intros Ht. destruct (decide (t_id t ∈ t_id <$> cw_inputs work ++ cw_overlaps work)) as [Hin|Hno].
    + apply list_elem_of_fmap in Hin as (t' & E & Ht'). right.
      by pose proof (id_determines t t' (Hsub t Ht) (picked_in t' Ht') E) as <-.
    + left. split; [done|]. intros Hin. apply Hno. by apply list_elem_of_fmap_2.
Qed.

Section Levels.
Context (level : list SSTable) (Hl : levels !! cw_level work = Some level).
Let next := default [] (levels !! S (cw_level work)).

Lemma level_sub t : t ∈ level → t ∈ concat levels.
Proof. rewrite (levels_split level Hl), !elem_of_app. auto. Qed.
Lemma next_sub t : t ∈ next → t ∈ concat levels.
Proof. rewrite (levels_split level Hl), !elem_of_app. auto. Qed.

Lemma levels_disjoint : NoDup level ∧ NoDup next ∧ ∀ t, t ∈ level → t ∉ next.
Proof.
  pose proof tables_NoDup as Hnd. rewrite (levels_split level Hl) in Hnd.
  apply NoDup_app in Hnd as (_ & _ & Hnd). apply NoDup_app in Hnd as (H1 & H2 & Hnd).
  apply NoDup_app in Hnd as (H3 & _ & _). split_and!; [done|done|]. intros t Ht Hn.
  apply (H2 t Ht), elem_of_app. by left.
Qed.

Lemma overlaps_in t : t ∈ cw_overlaps work → t ∈ next.
Proof. intros Ht. by eapply elem_of_sublist, (pk_overlaps _ _ Hpk). Qed.

Lemma inputs_in t : t ∈ cw_inputs work → t ∈ level.
Proof. destruct (pk_level _ _ Hpk) as (level' & Hl' & Hin & _). rewrite Hl in Hl'. injection Hl' as <-. apply Hin. Qed.

Lemma level_perm : level ≡ₚ kept work level ++ cw_inputs work.
Proof.
  destruct levels_disjoint as (Hnd & _ & Hdis). apply kept_perm; [apply level_sub|done| |].
  - destruct (pk_level _ _ Hpk) as (level' & Hl' & _ & [E|(t & E & _)]).
    + rewrite Hl in Hl'. injection Hl' as <-. by rewrite E.
    + rewrite E. apply NoDup_singleton.
  - intros t. rewrite elem_of_app. split.
    + intros Ht. auto using inputs_in.
    + intros [Ht [?|Ho]]; [done|]. by destruct (Hdis t Ht); apply overlaps_in.
Qed.

Lemma next_perm : next ≡ₚ kept work next ++ cw_overlaps work.
Proof.
  destruct levels_disjoint as (_ & Hnd & Hdis). apply kept_perm; [apply next_sub|done| |].
  - by eapply sublist_NoDup, (pk_overlaps _ _ Hpk).
  - intros t. rewrite elem_of_app. split.
    + intros Ht. auto using overlaps_in.
    + intros [Ht [Hi|?]]; [|done]. by destruct (Hdis t); [apply inputs_in|].
Qed.

(** The tables of the old and the new level set. *)
Definition kept_tables : list SSTable :=
  concat (take (cw_level work) levels) ++ kept work level ++ kept work next ++ concat (drop (S (S (cw_level work))) levels).

Lemma old_tables : concat levels ≡ₚ kept_tables ++ (cw_inputs work ++ cw_overlaps work).
Proof.
  rewrite (levels_split level Hl) at 1. unfold kept_tables. fold next. rewrite level_perm at 1. rewrite next_perm at 1.
  solve_Permutation.
Qed.

Lemma new_tables opened : concat (next_levels levels work opened) ≡ₚ kept_tables ++ opened.
Proof.
  rewrite (next_levels_eq levels work opened level Hl), concat_pop_empty, concat_app. cbn [concat].
  unfold sort_tables. rewrite merge_sort_Permutation. unfold kept_tables. fold next. solve_Permutation.
Qed.

(** * The contents *)

(** What the merge writes of what it reads. *)
Definition emitted_entry (drop_tombstones : bool) (e : MemEntry) : option MemEntry :=
  if me_tombstone e && drop_tombstones then None else Some (mkMemEntry (stored e) (me_tombstone e)).
Definition emitted (m : gmap bytes MemEntry) : gmap bytes MemEntry := omap (emitted_entry (cw_drop_tombstones work)) m.

Lemma run_of_perm l1 l2 : l1 ≡ₚ l2 → run_of c l1 ≡ₚ run_of c l2.
Proof.
  induction 1 as [|t l1 l2 Hp IH|t t' l|l1 l2 l3 H1 IH1 H2 IH2]; [done|..].
  - by rewrite !run_of_cons, IH.
  - rewrite !run_of_cons. solve_Permutation.
  - by rewrite IH1.
Qed.

Lemma as_map_perm (r1 r2 : list entry) : ksorted r1 → r1 ≡ₚ r2 → as_map r1 = as_map r2.
Proof. intros Hs Hp. apply list_to_map_proper; [by apply ksorted_NoDup|done]. Qed.

Lemma run_split l1 l2 l : ksorted (run_of c l) → l ≡ₚ l1 ++ l2 → as_map (run_of c l) = as_map (run_of c l1) ∪ as_map (run_of c l2).
Proof.
  intros Hs Hp. rewrite (as_map_perm _ (run_of c (l1 ++ l2)) Hs); [by rewrite run_of_app, as_map_app|]. by apply run_of_perm.
Qed.

Lemma sort_disjoint l : Forall (keyed c) l → NoDup l → (∀ a b, a ∈ l → b ∈ l → a ≠ b → before a b ∨ before b a) →
  ksorted (run_of c (sort_tables l)).
Proof.
  intros Hk Hnd Hdis. pose proof (merge_sort_Permutation (λ a b, kle (t_min_key a) (t_min_key b)) l) as Hp. fold (sort_tables l) in Hp.
  rewrite run_sorted by (by rewrite Hp). rewrite <-Hp in Hnd.
  assert (Hsort : StronglySorted (λ a b, kle (t_min_key a) (t_min_key b)) (sort_tables l)).
  { apply StronglySorted_merge_sort; [intros a b d; korder|intros a b; destruct (ltb_spec (t_min_key a) (t_min_key b)); [left|right]; korder]. }
  assert (Hin : ∀ a, a ∈ sort_tables l → a ∈ l) by (intros a; by rewrite Hp). clear Hp.
  induction Hsort as [|t l' Hs IH Hall]; constructor.
  - apply IH; [by apply NoDup_cons in Hnd as [_ ?]|]. intros a Ha. apply Hin. by right.
  - rewrite Forall_forall in *. intros b Hb. apply NoDup_cons in Hnd as [Hno _].
    destruct (Hdis t b) as [?|Hbt]; [apply Hin; by left|apply Hin; by right|by intros ->|done|].
    specialize (Hall b Hb). cbn in Hall. pose proof (keyed_min_max c b (Hk b (Hin b ltac:(by right)))).
    unfold before in Hbt. korder.
Qed.

(** The outputs of the merge. *)
Context (opened : list SSTable).
Hypothesis Hkeyed : Forall (keyed c) opened.
Hypothesis Hrun : ksorted (run_of c opened).
Hypothesis Hids : NoDup (t_id <$> opened).
Hypothesis Hfresh : ∀ t, t ∈ opened → t_id t ∉ t_id <$> concat levels.
Hypothesis Hmerge : as_map (run_of c opened) = emitted (as_map (run_of c (cw_inputs work ++ cw_overlaps work))).

(** Every key the compaction reads is in its range. *)
Lemma read_inside k x : as_map (run_of c (cw_inputs work ++ cw_overlaps work)) !! k = Some x →
  kle (cw_begin work) k ∧ kle k (cw_end work).
Proof.
  intros (t & Ht & He)%as_map_elem_1%elem_of_run. pose proof (pk_inside _ _ Hpk) as Hin.
  rewrite Forall_forall in Hin. destruct (Hin t Ht) as [H1 H2].
  pose proof (lv_keyed _ _ Hok) as Hk. rewrite Forall_forall in Hk.
  destruct (keyed_range c t (k, x) (Hk t (picked_in t Ht)) He) as [H3 H4]. cbn in H3, H4. split; korder.
Qed.

Lemma outside_none ts k x : Forall (keyed c) ts → Forall (outside (cw_begin work) (cw_end work)) ts →
  as_map (run_of c (cw_inputs work ++ cw_overlaps work)) !! k = Some x → as_map (run_of c ts) !! k = None.
Proof.
  intros Hk Ho Hx. destruct (read_inside k x Hx) as [H1 H2].
  destruct (as_map (run_of c ts) !! k) as [y|] eqn:Ey; [exfalso|done].
  apply as_map_elem_1, elem_of_run in Ey as (t & Ht & He). rewrite Forall_forall in Hk, Ho.
  destruct (keyed_range c t (k, y) (Hk t Ht) He) as [H3 H4]. cbn in H3, H4. destruct (Ho t Ht); korder.
Qed.

Lemma written_inside t : t ∈ opened → inside (cw_begin work) (cw_end work) t.
Proof.
  intros Ht. assert (Hkt : keyed c t) by (by rewrite Forall_forall in Hkeyed; apply Hkeyed).
  assert (Hread : ∀ e, e ∈ entries_of c t → kle (cw_begin work) e.1 ∧ kle e.1 (cw_end work)).
  { intros [k x] He. assert (Hx : as_map (run_of c opened) !! k = Some x)
      by (apply as_map_elem; [done|]; apply elem_of_run; eauto).
    rewrite Hmerge in Hx. unfold emitted in Hx. apply lookup_omap_Some in Hx as (y & _ & Hy). by eapply read_inside. }
  destruct (keyed_min c t Hkt) as (e1 & He1 & E1). destruct (keyed_max c t Hkt) as (e2 & He2 & E2).
  split; [rewrite <-E1|rewrite <-E2]; by apply Hread.
Qed.

Lemma kept_next_outside t : t ∈ kept work next → outside (cw_begin work) (cw_end work) t.
Proof.
  intros [Ht Hno]%(elem_of_kept t next next_sub). apply (pk_rest _ _ Hpk); [done|]. intros Ho. apply Hno, elem_of_app. auto.
Qed.

Lemma kept_next_keyed : Forall (keyed c) (kept work next).
Proof.
  destruct (next_level_ok c levels (cw_level work) Hok) as [Hk _]. fold next in Hk. rewrite Forall_forall in *.
  intros t [Ht _]%(elem_of_kept t next next_sub). auto.
Qed.

Lemma kept_run tables : Forall (keyed c) tables → ksorted (run_of c tables) → ksorted (run_of c (kept work tables)).
Proof.
  intros Hk Hs. apply run_sorted; [|apply run_sorted in Hs; [|done]].
  - rewrite Forall_forall in *. intros t [_ Ht]%list_elem_of_filter. auto.
  - unfold kept. clear Hk. induction Hs as [|t l Hs IH Hall]; [constructor|]. rewrite filter_cons.
    case_decide; [|done]. constructor; [done|]. rewrite Forall_forall in *.
    intros b [_ Hb]%list_elem_of_filter. auto.
Qed.

Lemma new_run : ksorted (run_of c (sort_tables (kept work next ++ opened))).
Proof.
  destruct (next_level_ok c levels (cw_level work) Hok) as [Hkn Hsn]. fold next in Hkn, Hsn.
  assert (Hmix : ∀ a b, a ∈ kept work next → b ∈ opened → before a b ∨ before b a).
  { intros a b Ha%kept_next_outside [H1 H2]%written_inside. unfold before. destruct Ha; [left|right]; korder. }
  apply sort_disjoint.
  - apply Forall_app. split; [apply kept_next_keyed|done].
  - apply NoDup_app. split_and!; [apply NoDup_filter, levels_disjoint| |by eapply NoDup_fmap_1].
    intros t [Ht _]%(elem_of_kept t next next_sub) Ho. apply (Hfresh t Ho), list_elem_of_fmap_2, next_sub, Ht.
  - intros a b [Ha|Ha]%elem_of_app [Hb|Hb]%elem_of_app Hne; [|auto..|].
    + apply (elem_of_kept _ next next_sub) in Ha as [Ha _]. apply (elem_of_kept _ next next_sub) in Hb as [Hb _].
      by apply (run_ordered c next).
    + destruct (Hmix b a Hb Ha); auto.
    + by apply (run_ordered c opened).
Qed.

Lemma new_ids : NoDup (t_id <$> concat (next_levels levels work opened)).
Proof.
  rewrite new_tables, fmap_app. pose proof (lv_ids _ _ Hok) as Hnd. rewrite old_tables, fmap_app in Hnd.
  apply NoDup_app in Hnd as (Hnd & _ & _). apply NoDup_app. split_and!; [done| |done].
  intros id (t & -> & Ht)%list_elem_of_fmap (t' & E & Ht')%list_elem_of_fmap. apply (Hfresh t' Ht').
  rewrite <-E, old_tables. apply list_elem_of_fmap_2, elem_of_app. by left.
Qed.

(** The new level set is in order. *)
Lemma new_levels_ok : levels_ok c (next_levels levels work opened).
Proof.
  split; [| |apply new_ids].
  - rewrite new_tables. pose proof (lv_keyed _ _ Hok) as Hk. rewrite old_tables in Hk. apply Forall_app in Hk as [Hk _].
    by apply Forall_app.
  - rewrite (next_levels_eq levels work opened level Hl). pose proof (lv_runs _ _ Hok) as Hr.
    set (ls := take _ _ ++ _). destruct (pop_empty_app ls) as [n E].
    assert (Hp : tail (pop_empty ls) `prefix_of` tail ls) by (rewrite E at 2; apply tail_app).
    destruct Hp as [rest Hp]. enough (Hall : Forall (λ l, ksorted (run_of c l)) (tail ls))
      by (rewrite Hp in Hall; by apply Forall_app in Hall as [? _]).
    clear n E rest Hp. unfold ls. fold next. pose proof new_run as Hnew. pose proof Hl as Hl'.
    destruct (cw_level work) as [|i]; destruct levels as [|l0 rest] eqn:El; try done; cbn [take drop app tail] in *.
    + constructor; [done|]. by apply Forall_drop.
    + cbn in Hl'. rewrite <-El in *. apply Forall_app. split; [by apply Forall_take|].
      constructor; [|constructor; [done|by apply Forall_drop]].
      rewrite Forall_forall in Hr. apply kept_run; [by eapply level_keyed|]. apply Hr. by eapply list_elem_of_lookup_2.
Qed.

Lemma live_emitted e : me_tombstone e && cw_drop_tombstones work = false →
  emitted_entry (cw_drop_tombstones work) e ≫= live_entry = live_entry e.
Proof. unfold emitted_entry, live_entry, stored. intros ->. cbn. by destruct (me_tombstone e). Qed.

(** From the inputs down: the merge stands for what it read. *)
Lemma merged_live :
  live (as_map (run_of c (kept work next)) ∪ as_map (run_of c opened) ∪ view c (drop (S (S (cw_level work))) levels)) =
  live (as_map (run_of c (cw_inputs work)) ∪
    (as_map (run_of c (cw_overlaps work)) ∪ as_map (run_of c (kept work next)) ∪ view c (drop (S (S (cw_level work))) levels))).
Proof.
  set (R := as_map (run_of c (kept work next))). set (D := view c _). rewrite Hmerge.
  set (M := as_map (run_of c (cw_inputs work ++ cw_overlaps work))).
  rewrite !(map_union_assoc (as_map (run_of c (cw_inputs work)))), <-as_map_app, <-run_of_app. fold M.
  apply map_eq. intros k. rewrite !live_lookup, !lookup_union. unfold emitted. rewrite lookup_omap.
  destruct (M !! k) as [x|] eqn:Ex; [|by destruct (R !! k), (D !! k)].
  assert (HR : R !! k = None) by (eapply outside_none; [apply kept_next_keyed|apply Forall_forall; apply kept_next_outside|done]).
  rewrite HR. cbn [mbind option_bind]. destruct (me_tombstone x && cw_drop_tombstones work) eqn:Ed.
  - unfold emitted_entry at 1. rewrite Ed. apply andb_true_iff in Ed as [Et Ed].
    assert (HD : D !! k = None).
    { eapply (outside_none (concat (drop (S (S (cw_level work))) levels))); [|by apply (pk_drop _ _ Hpk)|done].
      pose proof (lv_keyed _ _ Hok) as Hk. rewrite (levels_split level Hl), !Forall_app in Hk. tauto. }
    rewrite HD. unfold live_entry. cbn. by rewrite Et.
  - pose proof (live_emitted x Ed) as Hlive. unfold emitted_entry in *. rewrite Ed in *. by destruct (D !! k).
Qed.

Lemma view_pop_empty ls : view c (pop_empty ls) = view c ls.
Proof. unfold view. by rewrite concat_pop_empty. Qed.

(** Nothing a client can see changes. *)
Lemma new_live : live (view c (next_levels levels work opened)) = live (view c levels).
Proof.
  assert (E1 : view c levels = view c (grow [] (S (S (cw_level work))) levels)).
  { unfold view, grow. by rewrite concat_app, concat_replicate_nil, app_nil_r. }
  rewrite E1, (grow_split _ _ level Hl), (next_levels_eq _ _ _ level Hl), view_pop_empty, !view_app. apply live_union. rewrite !view_cons. fold next.
  rewrite (run_split (kept work next) opened (sort_tables (kept work next ++ opened)) new_run) by apply merge_sort_Permutation.
  rewrite (run_split (cw_overlaps work) (kept work next) next).
  2: apply (next_level_ok c levels (cw_level work) Hok).
  2: { rewrite next_perm at 1. apply Permutation_app_comm. }
  assert (as_map (run_of c level) = as_map (run_of c (kept work level)) ∪ as_map (run_of c (cw_inputs work))) as ->.
  { destruct (pk_level _ _ Hpk) as (level' & Hl' & _ & [E|(t & E & Hi)]).
    - rewrite Hl in Hl'. injection Hl' as <-. pose proof (Permutation_length level_perm) as Hlen.
      rewrite length_app, E in Hlen. destruct (kept work level) as [|]; cbn in Hlen; [|lia]. rewrite E.
      unfold run_of at 2. cbn. by rewrite as_map_nil, map_empty_union.
    - apply run_split; [|apply level_perm]. destruct (cw_level work) as [|i]; [done|]. by eapply level_run. }
  rewrite <-(map_union_assoc (as_map (run_of c (kept work level))) (as_map (run_of c (cw_inputs work)))).
  apply live_union, merged_live.
Qed.

End Levels.
End Replace.
