(* ===== verification/LsmMerge.v ===== *)
(** The merge of a compaction: the entries of the tables it reads end up, in order and without
    the tombstones that may go, in new tables under temporary names. *)

From S2P Require Import Prelude Status FileNames World Wp Encoding Record SortedMap Memtable SSTableFormat LogFile Manifest.
From S2P Require Import SSTableLayout LsmStats SSTable SSTableBuild SSTableRead SSTableOpen Iterator IteratorSource IteratorMerge IteratorTables Wal LsmState.
From S2P Require Import LsmCompact Lsm LsmLevels LsmGet LsmDisk LsmPick.
Import sstable MergingOps LsmState LsmCompact LsmOps.

(** * Files under temporary names *)

(** Only files with temporary names may have changed. *)
Definition temp_only (w w' : World) : Prop :=
  ∀ name, (∀ stem, name ≠ temp_name stem) → w_files w' !! name = w_files w !! name.

#[export] Instance temp_only_preorder : PreOrder temp_only.
Proof. split; [by intros w name|]. intros w1 w2 w3 H1 H2 name Hne. by rewrite H2, H1. Qed.

Lemma temp_only_touched stem w w' : touched (temp_name stem) w w' → temp_only w w'.
Proof. intros Ht name Hne. by apply Ht. Qed.

Lemma temp_only_same w w' : same_files w w' → temp_only w w'.
Proof. intros [E _] name _. by rewrite E. Qed.

Lemma sst_not_temp id stem : sst_file_name id ≠ temp_name stem.
Proof.
  unfold sst_file_name, temp_name. intros E. apply (f_equal last) in E. rewrite !last_app in E. by vm_compute in E.
Qed.

Lemma temp_name_inj a b : temp_name a = temp_name b → a = b.
Proof. unfold temp_name. by intros ?%app_inv_tail. Qed.

Lemma sst_file_name_inj id1 id2 : valid_id id1 → valid_id id2 → sst_file_name id1 = sst_file_name id2 → id1 = id2.
Proof. intros H1 H2 E. pose proof (parse_sst_name id1 H1) as E1. rewrite E, parse_sst_name in E1 by done. congruence. Qed.

(** * State *)

(** Ids have been handed out and counters have moved. *)
Definition claimed (n : Z) (st st' : LsmStore) : Prop :=
  ∃ s, st' = st_set_next_id n (st_set_stats s st) ∧ st_next_id st ≤ n ∧ in_range s.

Lemma claimed_trans n m st1 st2 st3 : claimed n st1 st2 → claimed m st2 st3 → claimed m st1 st3.
Proof.
  intros (s1 & -> & H1 & _) (s2 & -> & H2 & Hr). exists s2. cbn in *. split_and!; [by destruct st1|lia|done].
Qed.

Lemma claimed_counting st st' : counting st st' → claimed (st_next_id st) st st'.
Proof. intros (s & -> & Hs). exists s. split_and!; [by destruct st|lia|done]. Qed.

Lemma claimed_next n st st' : claimed n st st' → st_next_id st' = n ∧ st_next_id st ≤ n ∧ in_range (st_stats st').
Proof. intros (s & -> & Hn & Hs). by destruct st. Qed.

Lemma claimed_options n st st' : claimed n st st' → st_options st' = st_options st.
Proof. intros (s & -> & _). by destruct st. Qed.

Lemma claimed_levels n st st' : claimed n st st' → st_levels st' = st_levels st.
Proof. intros (s & -> & _). by destruct st. Qed.

Section Merge.
Context `{Platform}.

Lemma wp_bind_claim {A} (k : Z → M LsmStore A) st w Q E D : 0 ≤ st_next_id st < UINT32_MAX →
  wp (k (st_next_id st)) (st_set_next_id (st_next_id st + 1) st) w Q E D → wp (claim_id ≫= k) st w Q E D.
Proof. intros Hn Hk. unfold claim_id. wp_pure. rewrite u32_id by (unfold UINT32_MAX in *; lia). done. Qed.

Lemma building_same path bits b w w' bs cur : building path bits b w bs cur →
  w_files w' !! path = w_files w !! path → building path bits b w' bs cur.
Proof.
  intros [[f (H1 & H2 & H3 & H4)] Hp ????????????] Hs. split; try done. exists f.
  split_and!; [done| |done|done]. by rewrite Hp, Hs, <-Hp.
Qed.

(** What the merge emits of some entries. *)
Definition emits (work : Compaction) (es : list entry) : list entry :=
  shown <$> filter (λ e, me_tombstone e.2 && cw_drop_tombstones work = false) es.

Lemma emits_cons work e es : emits work (e :: es) =
  if me_tombstone e.2 && cw_drop_tombstones work then emits work es else shown e :: emits work es.
Proof. unfold emits. rewrite filter_cons. by destruct (me_tombstone e.2 && cw_drop_tombstones work). Qed.

Lemma emits_map work es : ksorted es → as_map (emits work es) = emitted work (as_map es).
Proof.
  induction es as [|[k x] es IH]; [by rewrite as_map_nil; unfold emitted; rewrite omap_empty|].
  intros Hs. pose proof Hs as [Hall Hs']%ksorted_cons.
  assert (Hnone : as_map es !! k = None) by by apply as_map_none_lt.
  rewrite emits_cons, as_map_cons. unfold emitted in *. cbn [snd].
  destruct (me_tombstone x && cw_drop_tombstones work) eqn:Eb.
  - rewrite IH, omap_insert_None by (done || (unfold emitted_entry; by rewrite Eb)).
    rewrite delete_id; [done|]. by rewrite lookup_omap, Hnone.
  - unfold shown at 1. cbn [fst snd]. rewrite as_map_cons, IH by done.
    rewrite omap_insert_Some with (y := mkMemEntry (stored x) (me_tombstone x)); [done|].
    unfold emitted_entry. by rewrite Eb.
Qed.

Lemma emits_sorted work es : ksorted es → ksorted (emits work es).
Proof.
  intros Hs. unfold emits. apply (ksorted_keys (filter (λ e : entry, me_tombstone e.2 && cw_drop_tombstones work = false) es));
    [|by apply ksorted_filter]. rewrite <-list_fmap_compose. by apply list_fmap_ext.
Qed.

(** * Outputs *)

Definition temp_sst (id : Z) : bytes := temp_name (sst_file_name id).

(** A finished output under its temporary name. *)
Definition out_at (w : World) (o : Z * list entry) : Prop :=
  o.2 ≠ [] ∧ ∃ bits bs, wf_blocks bits bs ∧ concat bs = o.2 ∧ table_at (temp_sst o.1) (table_bytes bits bs) w.

Definition outs_ok (n0 n : Z) (w : World) (outs : list (Z * list entry)) : Prop :=
  Forall (out_at w) outs ∧ NoDup outs.*1 ∧ Forall (λ o, n0 ≤ o.1 < n) outs.

(** The output under construction, with the entries it has. *)
Definition open_out (n0 n bits : Z) (w : World) (outs : list (Z * list entry)) (out : option (SSTableBuilder * Z))
    (oe : list entry) : Prop :=
  match out with
  | None => oe = []
  | Some (b, id) => oe ≠ [] ∧ n0 ≤ id < n ∧ (id ∉ outs.*1) ∧
      ∃ bs cur, building (temp_sst id) bits b w bs cur ∧ concat bs ++ cur = oe
  end.

Lemma temp_sst_inj i j : valid_id i → valid_id j → temp_sst i = temp_sst j → i = j.
Proof. intros Hi Hj E%temp_name_inj. by apply sst_file_name_inj. Qed.

Lemma out_at_frame id w w' o : out_at w o → touched (temp_sst id) w w' → valid_id id → valid_id o.1 → id ≠ o.1 → out_at w' o.
Proof.
  intros (Hne & bits & bs & Hwf & E & Hat) Ht Hid Ho Hdiff. split; [done|]. exists bits, bs. split_and!; [done|done|].
  unfold table_at. rewrite Ht; [done|]. intros E'%temp_sst_inj; [|done|done]. congruence.
Qed.

Lemma outs_ok_frame n0 n id w w' outs : outs_ok n0 n w outs → touched (temp_sst id) w w' → kFirstFileId ≤ n0 →
  n ≤ UINT32_MAX → valid_id id → id ∉ outs.*1 → outs_ok n0 n w' outs.
Proof.
  intros (Hall & Hnd & Hr) Ht H0 Hn Hid Hno. split_and!; [|done|done]. rewrite Forall_forall in *. intros o Ho.
  eapply out_at_frame; [by apply Hall|done|done| |].
  - specialize (Hr o Ho). unfold valid_id. lia.
  - intros ->. apply Hno. by apply list_elem_of_fmap_2.
Qed.

Lemma outs_ok_snoc n0 n id w w' outs oe : outs_ok n0 n w outs → touched (temp_sst id) w w' → kFirstFileId ≤ n0 →
  n ≤ UINT32_MAX → n0 ≤ id < n → id ∉ outs.*1 → out_at w' (id, oe) → outs_ok n0 n w' (outs ++ [(id, oe)]).
Proof.
  intros Hok Ht H0 Hn Hid Hno Hat. apply (outs_ok_frame n0 n id w w') in Hok as (Hall & Hnd & Hr); try done; [|unfold valid_id; lia].
  split_and!.
  - apply Forall_app. split; [done|by apply Forall_singleton].
  - rewrite fmap_app. apply NoDup_app. split_and!; [done| |apply NoDup_singleton].
    intros i Hi Hi'%list_elem_of_singleton. cbn in Hi'. congruence.
  - apply Forall_app. split; [done|by apply Forall_singleton].
Qed.

Lemma outs_ok_same n0 n w w' outs : outs_ok n0 n w outs → same_files w w' → outs_ok n0 n w' outs.
Proof.
  intros (Hall & Hnd & Hr) [E _]. split_and!; [|done|done]. eapply Forall_impl; [exact Hall|].
  intros o (Hne & bits & bs & Hwf & Ec & Hat). split; [done|]. exists bits, bs. unfold table_at. by rewrite E.
Qed.

Lemma outs_ok_mono n0 n n' w outs : outs_ok n0 n w outs → n ≤ n' → outs_ok n0 n' w outs.
Proof. intros (? & ? & Hr) ?. split_and!; [done|done|]. eapply Forall_impl; [exact Hr|]. cbn. lia. Qed.

Lemma open_out_same n0 n bits w w' outs out oe : open_out n0 n bits w outs out oe → same_files w w' →
  open_out n0 n bits w' outs out oe.
Proof.
  destruct out as [[b id]|]; [|done]. intros (Hne & Hr & Hno & bs & cur & Hb & E) [Ef _].
  split_and!; [done|lia|lia|done|]. exists bs, cur. split; [|done]. eapply building_same; [done|]. by rewrite Ef.
Qed.

(** [finish_output] on an output with entries. *)
Lemma wp_finish_output n0 n bits outs b id oe ids st w : reliable w → in_range (st_stats st) →
  open_out n0 n bits w outs (Some (b, id)) oe →
  wp (finish_output (Some (b, id)) ids) st w
    (λ ids' st' w', counting st st' ∧ touched (temp_sst id) w w' ∧ ids' = ids ++ [id] ∧ out_at w' (id, oe))
    (λ e st' w', st' = st ∧ touched (temp_sst id) w w' ∧ code_ e = InvalidArgument)
    (touched (temp_sst id) w).
Proof.
  intros Hrel Hs (Hne & _ & _ & bs & cur & Hb & E). unfold finish_output.
  unfold BuilderOps.entry_count. rewrite (bd_entries _ _ _ _ _ _ Hb), E.
  rewrite (proj2 (Z.eqb_neq _ _)); [|by intros ?%sz_zero_nil].
  eapply wp_bind_local; [by eapply wp_finish|..]; cbn beta.
  - intros [] b' w' _ (Ht & bs' & Hwf & E' & Hat & _). cbn [snd]. apply wp_bind_bump, wp_ret.
    split_and!; [by apply counting_bump|done|done|]. split; [done|]. exists bits, bs'. cbn. by rewrite <-E.
  - intros e b' w' _ (Ht & [Hc|[Hq _]]); done.
  - done.
Qed.

(** ** One entry *)

(** The ids the rest of a merge can use: one per output, and every output but the last
    is at least [tgt] bytes. *)
Definition target (o : LsmOptions) : Z := Z.max 1 (lo_target_table_size o).
Definition ids_needed (o : LsmOptions) (out : option (SSTableBuilder * Z)) (bytes_left : Z) : Z :=
  bytes_left / target o + match out with None => 1 | Some _ => 0 end.

Lemma wp_start_output st w : reliable w → 0 ≤ st_next_id st < UINT32_MAX → lo_block_size (st_options st) ≠ 0 →
  wp start_output st w
    (λ ob st' w', ob.2 = st_next_id st ∧ st' = st_set_next_id (st_next_id st + 1) st ∧
       touched (temp_sst (st_next_id st)) w w' ∧
       building (temp_sst (st_next_id st)) (lo_bits_per_key (st_options st)) ob.1 w' [] [])
    (λ e st' w', st' = st_set_next_id (st_next_id st + 1) st ∧ touched (temp_sst (st_next_id st)) w w' ∧ code_ e = InvalidArgument)
    (touched (temp_sst (st_next_id st)) w).
Proof.
  intros Hrel Hn Hbs. unfold start_output. apply wp_bind_claim; [done|]. wp_pure.
  wp_call (wp_create (temp_sst (st_next_id st)) (lo_block_size (st_options st)) (lo_bits_per_key (st_options st))
    (st_set_next_id (st_next_id st + 1) st) w Hbs (or_introl Hrel)).
  - intros b s1 w1 _ (-> & Ht & Hb). by apply wp_ret.
  - intros e s1 w1 _ (-> & Ht & [Hc|[Hq _]]); done.
Qed.

Lemma ids_needed_nonneg o out x : 0 ≤ x → 0 ≤ ids_needed o out x.
Proof. intros Hx. unfold ids_needed. pose proof (Z.div_pos x (target o) Hx). unfold target in *. destruct out; lia. Qed.

(** The output the entry goes into. *)
Lemma wp_open_output n0 outs out oe st w U : let bits := lo_bits_per_key (st_options st) in
  reliable w → in_range (st_stats st) → lo_block_size (st_options st) ≠ 0 → kFirstFileId ≤ n0 ≤ st_next_id st →
  outs_ok n0 (st_next_id st) w outs → open_out n0 (st_next_id st) bits w outs out oe →
  st_next_id st + match out with None => 1 | Some _ => 0 end ≤ U → U ≤ UINT32_MAX →
  wp (match out with Some ob => mret ob | None => start_output end) st w
    (λ ob st' w', claimed (st_next_id st') st st' ∧ st_next_id st' = st_next_id st + match out with None => 1 | Some _ => 0 end ∧
       temp_only w w' ∧ outs_ok n0 (st_next_id st') w' outs ∧ n0 ≤ ob.2 < st_next_id st' ∧ (ob.2 ∉ outs.*1) ∧
       ∃ bs cur, building (temp_sst ob.2) bits ob.1 w' bs cur ∧ concat bs ++ cur = oe)
    (λ e st' w', claimed (st_next_id st') st st' ∧ st_next_id st' ≤ U ∧ temp_only w w' ∧ code_ e = InvalidArgument)
    (temp_only w).
Proof.
  intros bits Hrel Hs Hbs H0 Houts Hopen HU1 HU. destruct out as [[b id]|].
  - apply wp_ret. destruct Hopen as (_ & Hr & Hno & Hb). cbn [fst snd]. rewrite Z.add_0_r.
    split_and!; try done; try lia. by apply claimed_counting, counting_refl.
  - cbn in Hopen. subst oe. unfold kFirstFileId, UINT32_MAX in *.
    assert (Hno : st_next_id st ∉ outs.*1).
    { intros (o & E & Ho)%list_elem_of_fmap. destruct Houts as (_ & _ & Hr). rewrite Forall_forall in Hr.
      specialize (Hr o Ho). cbn in Hr. lia. }
    assert (Hcl : claimed (st_next_id st + 1) st (st_set_next_id (st_next_id st + 1) st)).
    { exists (st_stats st). split_and!; [by destruct st|lia|done]. }
    eapply wp_mono; [apply wp_start_output; [done|unfold UINT32_MAX; lia|done]|..]; cbn beta.
    + intros [b id] st' w' _ (Eid & -> & Ht & Hb). cbn [fst snd] in *. subst id. cbn [st_next_id st_set_next_id].
      split_and!; try done; try lia; [by eapply temp_only_touched| |by exists [], []].
      eapply outs_ok_mono; [eapply outs_ok_frame; try done|]; unfold valid_id, kFirstFileId, UINT32_MAX; lia.
    + intros e st' w' _ (-> & Ht & Hc). split_and!; try done. by eapply temp_only_touched.
    + intros w' _ Ht. by eapply temp_only_touched.
Qed.

(** Where the merge stands: finished outputs, the one under construction, and enough
    ids for [left] more bytes. *)
Record outputs (n0 U left_ : Z) (st : LsmStore) (w : World) (outs : list (Z * list entry))
    (out : option (SSTableBuilder * Z)) (oe : list entry) : Prop := {
  op_range : in_range (st_stats st);
  op_block : lo_block_size (st_options st) ≠ 0;
  op_first : kFirstFileId ≤ n0 ≤ st_next_id st;
  op_outs : outs_ok n0 (st_next_id st) w outs;
  op_open : open_out n0 (st_next_id st) (lo_bits_per_key (st_options st)) w outs out oe;
  op_ids : st_next_id st + ids_needed (st_options st) out (weight oe + left_) ≤ U;
  op_left : 0 ≤ left_;
  op_max : U ≤ UINT32_MAX;
}.

Lemma outputs_same n0 U left_ st st' w w' outs out oe : outputs n0 U left_ st w outs out oe → counting st st' →
  same_files w w' → outputs n0 U left_ st' w' outs out oe.
Proof.
  intros [H1 H2 H3 H4 H5 H6 H7 H8] (s & -> & Hs) Hf. split; try done; [by eapply outs_ok_same|by eapply open_out_same].
Qed.

Definition emit_error (U : Z) (st : LsmStore) (w : World) (e : Status) (st' : LsmStore) (w' : World) : Prop :=
  claimed (st_next_id st') st st' ∧ st_next_id st' ≤ U ∧ temp_only w w' ∧ code_ e = InvalidArgument.

Lemma emit_closed st out oe left_ : target (st_options st) ≤ weight oe → 0 ≤ left_ →
  ids_needed (st_options st) None left_ ≤ ids_needed (st_options st) (Some out) (weight oe + left_).
Proof.
  intros Hle Hl. unfold ids_needed. set (t := target _) in *. assert (0 < t) by (unfold t, target; lia).
  rewrite Z.add_0_r, <-(Z.div_add left_ 1 t) by lia. apply Z.div_le_mono; lia.
Qed.

Section Emit.
Context (work : Compaction) (n0 U left_ : Z) (st : LsmStore) (w : World) (it : MergingIterator).
Context (outs : list (Z * list entry)) (out : option (SSTableBuilder * Z)) (oe : list entry) (e : entry).
Hypothesis Hrel : reliable w.
Hypothesis Hshow : shows it e.
Hypothesis Hop : outputs n0 U (weight (emits work [e]) + left_) st w outs out oe.
Hypothesis Hleft : 0 ≤ left_.
Hypothesis Hsort : ksorted (oe ++ emits work [e]).
Hypothesis Hfit : Forall entry_fits (emits work [e]).
Hypothesis Hw : weight (oe ++ emits work [e]) ≤ kWeightLimit.

Lemma wp_emit_entry :
  wp (emit_entry work it out outs.*1) st w
    (λ r st' w', claimed (st_next_id st') st st' ∧ temp_only w w' ∧ ∃ outs' oe', r.2 = outs'.*1 ∧
       outputs n0 U left_ st' w' outs' r.1 oe' ∧ concat outs'.*2 ++ oe' = concat outs.*2 ++ oe ++ emits work [e] ∧
       (oe' = oe ++ emits work [e] ∨ oe' = []))
    (emit_error U st w) (temp_only w).
Proof.
  destruct Hshow as (_ & Hk & Htomb & Hval). destruct Hop as [Hs Hbs H0 Houts Hopen Hids _ HU].
  unfold emit_entry. rewrite Htomb, Hk, Hval. rewrite <-negb_andb. destruct (me_tombstone e.2 && cw_drop_tombstones work) eqn:Ed; cbn [negb].
  { apply wp_ret. assert (E : emits work [e] = []) by (rewrite emits_cons, Ed; done). rewrite E, Z.add_0_l in Hids.
    split_and!; [by apply claimed_counting, counting_refl|done|]. exists outs, oe. rewrite E, app_nil_r. split_and!; try done. by left. }
  assert (Ee : emits work [e] = [shown e]) by (rewrite emits_cons, Ed; done). rewrite Ee in *.
  assert (Hn : 0 ≤ (weight oe + (weight [shown e] + left_)) / target (st_options st)).
  { apply Z.div_pos; [|unfold target; lia]. pose proof (weight_nonneg oe). pose proof (weight_nonneg [shown e]). lia. }
  unfold ids_needed in Hids. eapply wp_bind; [eapply (wp_open_output n0 outs out oe st w U); try done; lia|..]; cbn beta; [|done|done].
  intros [b id] st1 w1 Hc1 (Hcl1 & Hn1 & Ht1 & Houts1 & Hr1 & Hno & bs & cur & Hb & Eoe). cbn [fst snd] in *.
  pose proof (claimed_options _ _ _ Hcl1) as Eo. destruct (claimed_next _ _ _ Hcl1) as (_ & _ & Hs1).
  assert (Est : stored_entry e.1 (stored e.2) (me_tombstone e.2) = shown e).
  { unfold stored_entry, shown, stored. by destruct (me_tombstone e.2). }
  eapply wp_bind_local; [eapply (wp_add (temp_sst id) _ b w1 bs cur); rewrite ?Est; try done|..]; cbn beta.
  { exact (proj1 (Forall_singleton _ _) Hfit). }
  { intros x. rewrite Eoe. intros Hx. apply ksorted_app in Hsort as (_ & _ & Hlt). apply (Hlt x (shown e) Hx). by left. }
  { by rewrite app_assoc, Eoe. }
  2: { intros err b' w2 _ (Ht & [Hcode|[Hq _]]); [|exfalso; eauto with wp].
       split_and!; [done|destruct out; lia|etrans; [done|by eapply temp_only_touched]|done]. }
  2: { intros w2 _ Ht. etrans; [done|by eapply temp_only_touched]. }
  intros [] b2 w2 Hc2 (Ht2 & bs2 & cur2 & Hb2 & E2). rewrite Est, Eoe in E2. wp_pure. cbn [snd].
  assert (Hopen2 : open_out n0 (st_next_id st1) (lo_bits_per_key (st_options st1)) w2 outs (Some (b2, id)) (oe ++ [shown e])).
  { split_and!; [by destruct oe|lia|lia|done|]. exists bs2, cur2. by rewrite Eo. }
  assert (Houts2 : outs_ok n0 (st_next_id st1) w2 outs).
  { unfold kFirstFileId in *. eapply outs_ok_frame; [done|done|unfold kFirstFileId; lia|destruct out; lia| |done].
    unfold valid_id, kFirstFileId. destruct out; lia. }
  assert (Htemp2 : temp_only w w2) by (etrans; [exact Ht1|by eapply temp_only_touched]).
  assert (Hids2 : st_next_id st1 + (weight (oe ++ [shown e]) + left_) / target (st_options st) ≤ U).
  { rewrite weight_app, <-Z.add_assoc. destruct out; lia. }
  destruct (Z.leb_spec (lo_target_table_size (st_options st1)) (BuilderOps.file_size b2)) as [Hle|Hgt].
  - assert (Hbig : target (st_options st) ≤ weight (oe ++ [shown e])).
    { unfold BuilderOps.file_size in Hle. destruct (bd_file _ _ _ _ _ _ Hb2) as [f (_ & _ & _ & Heo)]. rewrite Heo, Eo in Hle.
      pose proof (data_region_weight bs2 (nonempty_blocks bs2 (bd_blocks _ _ _ _ _ _ Hb2))) as Hd.
      rewrite <-E2, weight_app. pose proof (weight_nonneg cur2).
      assert (0 < weight (concat bs2 ++ cur2)).
      { rewrite E2, weight_app, weight_cons. pose proof (weight_nonneg oe). pose proof (entry_weight_pos (shown e)). cbn. lia. }
      rewrite weight_app in *. unfold target. lia. }
    wp_call (wp_finish_output n0 (st_next_id st1) _ outs b2 id (oe ++ [shown e]) outs.*1 st1 w2 ltac:(eauto with wp) Hs1 Hopen2).
    2: { intros err st3 w3 _ (-> & Ht & Hcode). split_and!; [done|destruct out; lia|etrans; [done|by eapply temp_only_touched]|done]. }
    2: { intros w3 _ Ht. etrans; [done|by eapply temp_only_touched]. }
    intros ids st3 w3 Hc3 (Hcn & Ht3 & -> & Hat). apply wp_ret. pose proof (claimed_counting _ _ Hcn) as Hcl3.
    destruct (claimed_next _ _ _ Hcl3) as (En3 & _ & Hs3). pose proof (claimed_options _ _ _ Hcl3) as Eo3.
    rewrite En3. split_and!; [by eapply claimed_trans|etrans; [done|by eapply temp_only_touched]|].
    exists (outs ++ [(id, oe ++ [shown e])]), []. cbn [fst snd]. rewrite !fmap_app, concat_app. cbn [fmap list_fmap concat].
    split_and!; [done| |by rewrite !app_nil_r|by right].
    split; rewrite ?En3, ?Eo3; try done; [by rewrite Eo|lia| |].
    + eapply (outs_ok_snoc n0 (st_next_id st1) id w2 w3); try done; unfold kFirstFileId in *; [lia|]. destruct out; lia.
    + rewrite Eo. pose proof (emit_closed st (b2, id) (oe ++ [shown e]) left_ Hbig Hleft) as Hcl.
      unfold ids_needed in *. change (weight []) with 0. rewrite Z.add_0_l. lia.
  - apply wp_ret. split_and!; [done|done|]. exists outs, (oe ++ [shown e]). cbn [fst snd]. split_and!; [done| |done|by left].
    split; try done; [by rewrite Eo|lia|]. unfold ids_needed. rewrite Eo. lia.
Qed.
End Emit.
End Merge.

(** * The merge of a compaction *)

Section MergeLoop.
Context `{Platform}.

(** An iterator over table files. *)
Definition table_files (it : MergingIterator) : Prop :=
  ∀ t, Some t ∈ iterator_tables it → ∃ id, t_path t = sst_file_name id.

Lemma stepped_files mode it w w' es : stepped mode it w es → table_files it → temp_only w w' → stepped mode it w' es.
Proof.
  intros (Hm & Hok & Hst) Htf Ht. split_and!; [done|done|].
  assert (Hmf : ∀ es', merging it w es' → merging it w' es').
  { intros es' Hme. eapply merging_files; [done|]. intros t (id & ->)%Htf. apply Ht, sst_not_temp. }
  naive_solver.
Qed.

Lemma merging_temp it w w' es : merging it w es → table_files it → temp_only w w' → merging it w' es.
Proof. intros Hme Htf Ht. eapply merging_files; [done|]. intros t (id & ->)%Htf. apply Ht, sst_not_temp. Qed.

Lemma visible_emit es : visible Emit es = es.
Proof. induction es as [|e es IH]; [done|]. rewrite visible_cons, orb_true_r. by rewrite IH. Qed.

(** A step of the merging iterator inside the merge loop. *)
Lemma wp_iterator_next it st w es : reliable w → merging it w es → mi_mode it = Emit → mi_status it = ok → table_files it →
  in_range (st_stats st) →
  wp (on_iterator it next) st w
    (λ it' st' w', same_files w w' ∧ counting st st' ∧ stepped Emit it' w' es ∧ table_files it')
    (λ _ _ _, False) (same_files w).
Proof.
  intros Hrel Hm Hmode Hok Htf Hs. eapply wp_mono; [apply wp_on_iterator, (wp_keeps same_tables);
    [by eapply (wp_next (st_stats st) it w es)|apply keeps_next]|..]; cbn beta; [|..|done].
  - intros it' st' w' _ (s & -> & (Hsf & Hr & Hst) & Htab). cbn [fst snd] in *. rewrite Hmode in Hst.
    split_and!; [done|by eexists|done|]. unfold table_files, same_tables in *. cbn in Htab. by rewrite Htab.
  - intros e st' w' _ (s & it' & -> & (_ & _ & Hq & _) & _). done.
Qed.

Lemma wp_merge_loop work n0 U fuel : ∀ st w it outs out oe rem,
  reliable w → stepped Emit it w rem → table_files it → (length rem < fuel)%nat →
  outputs n0 U (weight (emits work rem)) st w outs out oe →
  ksorted (oe ++ emits work rem) → Forall entry_fits (emits work rem) →
  weight (oe ++ emits work rem) ≤ kWeightLimit →
  wp (merge_loop fuel work it out outs.*1) st w
    (λ ids st' w', claimed (st_next_id st') st st' ∧ st_next_id st' ≤ U ∧ temp_only w w' ∧ ∃ outs', ids = outs'.*1 ∧
       outs_ok n0 (st_next_id st') w' outs' ∧ concat outs'.*2 = concat outs.*2 ++ oe ++ emits work rem)
    (emit_error U st w) (temp_only w).
Proof.
  induction fuel as [|fuel IH]; intros st w it outs out oe rem Hrel Hst Htf Hfuel Hop Hsort Hfit Hw; [lia|].
  cbn [merge_loop]. destruct Hst as (Hmode & Hok & Hst). rewrite visible_emit in Hst.
  destruct Hst as [(-> & -> & Hm)|(e & rem' & E & Hshow & Hm & Hlen)].
  - destruct Hop as [Hs _ H0 Houts Hopen Hids _ HU]. change (emits work []) with (@nil entry). rewrite app_nil_r.
    assert (Hself : claimed (st_next_id st) st st) by by apply claimed_counting, counting_refl.
    assert (Hn : 0 ≤ ids_needed (st_options st) out (weight oe + weight (emits work []))).
    { apply ids_needed_nonneg. pose proof (weight_nonneg oe). pose proof (weight_nonneg (emits work [])). lia. }
    assert (Hlt : st_next_id st ≤ U) by lia.
    destruct out as [[b id]|].
    2: { cbn in Hopen. subst oe. cbn [finish_output]. wp_pure. rewrite Hok. cbn [is_ok code_ ok negb fail_when]. wp_pure. apply wp_ret.
         split_and!; [done|done|done|]. exists outs. by rewrite app_nil_r. }
    wp_call (wp_finish_output n0 (st_next_id st) _ outs b id oe outs.*1 st w Hrel Hs Hopen).
    2: { intros err st1 w1 _ (-> & Ht & Hcode). split_and!; [done|done|by eapply temp_only_touched|done]. }
    2: { intros w1 _ Ht. by eapply temp_only_touched. }
    intros ids st1 w1 Hc1 (Hcn & Ht & -> & Hat). rewrite Hok. cbn [is_ok code_ ok negb fail_when]. wp_pure. apply wp_ret.
    pose proof (claimed_counting _ _ Hcn) as Hcl. destruct (claimed_next _ _ _ Hcl) as (En & _ & _). rewrite En.
    split_and!; [done|done|by eapply temp_only_touched|]. exists (outs ++ [(id, oe)]).
    rewrite !fmap_app, concat_app. cbn. rewrite app_nil_r. destruct Hopen as (_ & Hr & Hno & _).
    split_and!; [done| |done]. eapply outs_ok_snoc; try done; lia.
  - rewrite visible_emit in E. subst rem. destruct Hshow as (Hv & Hshow'). rewrite Hv.
    assert (Esplit : emits work (e :: rem') = emits work [e] ++ emits work rem').
    { rewrite !emits_cons. by destruct (_ && _). }
    rewrite Esplit in *. rewrite weight_app in Hop. apply Forall_app in Hfit as [Hfit1 Hfit2].
    rewrite app_assoc, weight_app in Hw. rewrite app_assoc in Hsort. pose proof Hsort as (Hsort1 & Hsort2 & _)%ksorted_app.
    pose proof (weight_nonneg (emits work rem')) as Hwn.
    eapply wp_bind; [eapply (wp_emit_entry work n0 U (weight (emits work rem')) st w it outs out oe e); try done; try lia|..]; cbn beta;
      [|done|done].
    intros r st1 w1 Hc1 (Hcl1 & Ht1 & outs1 & oe1 & Er & Hop1 & Ec1 & Hw1).
    pose proof (op_range _ _ _ _ _ _ _ _ Hop1) as Hs1.
    wp_call (wp_iterator_next it st1 w1 rem'); [eauto with wp|by eapply merging_temp|done|done|done|done|..].
    2: { intros w2 _ Hsf. etrans; [done|by apply temp_only_same]. }
    intros it2 st2 w2 Hc2 (Hsf2 & Hcn2 & Hst2 & Htf2). rewrite Er.
    pose proof (claimed_counting _ _ Hcn2) as Hcl2. destruct (claimed_next _ _ _ Hcl2) as (En2 & _ & _).
    assert (Hcl : claimed (st_next_id st2) st st2) by (rewrite En2; by eapply claimed_trans).
    assert (Ht2 : temp_only w w2) by (etrans; [done|by apply temp_only_same]).
    eapply wp_mono; [eapply (IH st2 w2 it2 outs1 r.1 oe1 rem')|..]; cbn beta; try done.
    + eauto with wp.
    + cbn in Hfuel. lia.
    + by eapply outputs_same.
    + destruct Hw1 as [-> | ->]; done.
    + rewrite weight_app. destruct Hw1 as [-> | ->]; [done|]. cbn. pose proof (weight_nonneg (oe ++ emits work [e])). lia.
    + intros ids st3 w3 _ (Hcl3 & HU3 & Ht3 & outs' & -> & Hok' & Ec'). split_and!; [by eapply claimed_trans|done|by etrans|].
      exists outs'. split_and!; [done|done|]. rewrite Ec', app_assoc, Ec1, <-!app_assoc. done.
    + intros err st3 w3 _ (Hcl3 & HU3 & Ht3 & Hcode). split_and!; [by eapply claimed_trans|done|by etrans|done].
    + intros w3 _ Ht3. by etrans.
Qed.

(** ** The sources *)

Lemma wp_compaction_source c t st w : on_disk c w t → in_range (st_stats st) → reliable w →
  wp (on_stats (IteratorOps.create t [] [])) st w
    (λ s st' w', same_files w w' ∧ counting st st' ∧ denotes s w' (entries_of c t) ∧ source_table s = Some t)
    (λ _ _ _, False) (same_files w).
Proof.
  intros Ht Hs Hrel. pose proof (wp_table_source c t [] [] st w Ht Hs) as Hwp. rewrite starting_none, bounded_none in Hwp.
  eapply wp_mono; [exact Hwp|..]; cbn beta; [done| |done]. by intros e st' w' _ (_ & _ & ? & _).
Qed.

Lemma wp_make_sources c ts : ∀ st w, Forall (on_disk c w) ts → in_range (st_stats st) → reliable w →
  wp (make_sources ts) st w
    (λ ss st' w', same_files w w' ∧ counting st st' ∧ denote_all ss w' (entries_of c <$> ts) ∧ source_table <$> ss = Some <$> ts)
    (λ _ _ _, False) (same_files w).
Proof.
  induction ts as [|t ts IH]; intros st w Hts Hs Hrel; cbn [make_sources].
  { apply wp_ret. split_and!; [done|by apply counting_refl|constructor|done]. }
  apply Forall_cons in Hts as [Ht Hts]. wp_call (wp_compaction_source c t st w Ht Hs Hrel).
  intros s st1 w1 Hc1 (Hsf1 & Hcn1 & Hd1 & Htab1). apply wp_bind_bump. set (st2 := st_set_stats _ st1).
  assert (Hcn2 : counting st st2).
  { eapply counting_trans; [done|]. apply counting_bump. by eapply counting_range. }
  wp_call (IH st2 w1).
  - eapply Forall_impl; [exact Hts|]. intros t' Ht'. by eapply on_disk_same.
  - by eapply counting_range.
  - eauto with wp.
  - intros ss st3 w3 Hc3 (Hsf3 & Hcn3 & Hd3 & Htab3). apply wp_ret. split_and!; [by etrans|by eapply counting_trans| |].
    + csimpl. constructor; [by eapply denotes_same|done].
    + csimpl. by rewrite Htab1, Htab3.
  - intros w3 _ Hsf3. by etrans.
Qed.

(** ** What is emitted is no more than what is read *)

Lemma weight_perm es es' : es ≡ₚ es' → weight es = weight es'.
Proof.
  induction 1 as [|e l1 l2 Hp IH|e e' l|l1 l2 l3 H1 IH1 H2 IH2]; [done|..]; rewrite ?weight_cons; lia.
Qed.

Lemma weight_merged es r : ksorted es → as_map es = as_map r → weight es ≤ weight r.
Proof.
  intros Hs E. assert (Hsub : es ⊆+ r).
  { apply NoDup_submseteq; [eapply NoDup_fmap_1; by apply ksorted_NoDup|]. intros [k x] Hx.
    apply as_map_elem_1. rewrite <-E. by apply as_map_elem. }
  apply submseteq_Permutation in Hsub as [k Hp]. rewrite (weight_perm _ _ Hp), weight_app. pose proof (weight_nonneg k). lia.
Qed.

Lemma weight_emits work es : weight (emits work es) ≤ weight es.
Proof.
  induction es as [|e es IH]; [done|]. rewrite emits_cons, weight_cons. pose proof (entry_weight_pos e).
  destruct (_ && _); [lia|]. rewrite weight_cons.
  enough (entry_weight (shown e) = entry_weight e) by lia. unfold entry_weight, shown, stored. cbn. by destruct (me_tombstone e.2).
Qed.

Lemma emits_fit work es : Forall entry_fits es → Forall entry_fits (emits work es).
Proof.
  intros Hf. unfold emits. apply Forall_forall. intros e' (e & -> & [_ He]%list_elem_of_filter)%list_elem_of_fmap.
  rewrite Forall_forall in Hf. destruct (Hf e He) as [Hk Hs]. split; [done|]. unfold shown, stored in *. cbn. by destruct (me_tombstone e.2).
Qed.

Lemma on_disk_fits c w t : on_disk c w t → Forall entry_fits (entries_of c t).
Proof.
  intros ((bs & Ht & <-) & _ & _). pose proof (ht_blocks _ _ _ Ht) as Hb. apply Forall_forall. intros e (b & Hin & He)%elem_of_concat.
  rewrite Forall_forall in Hb. destruct (Hb b Hin) as (_ & Hf & _). rewrite Forall_forall in Hf. auto.
Qed.

Section Write.
Context (c : Z → list entry) (work : Compaction) (st : LsmStore) (w : World) (U : Z).
Let tables := cw_inputs work ++ cw_overlaps work.
Hypothesis Hrel : reliable w.
Hypothesis Hdisk : Forall (on_disk c w) tables.
Hypothesis Hs : in_range (st_stats st).
Hypothesis Hbs : lo_block_size (st_options st) ≠ 0.
Hypothesis Hfirst : kFirstFileId ≤ st_next_id st.
Hypothesis Hw : weight (run_of c tables) ≤ kWeightLimit.
Hypothesis Hids : st_next_id st + weight (run_of c tables) / target (st_options st) + 1 ≤ U.
Hypothesis HU : U ≤ UINT32_MAX.

(** The list the merge works through. *)
Lemma merge_list : ∃ es, ksorted es ∧ as_map es = as_map (run_of c tables) ∧ Forall entry_fits es ∧
  weight (emits work es) ≤ weight (run_of c tables).
Proof.
  destruct (ksorted_of (as_map (run_of c tables))) as (es & Hsort & Hm). exists es. split_and!; [done|done| |].
  - apply Forall_forall. intros [k x] Hx. apply as_map_elem in Hx; [|done]. rewrite Hm in Hx.
    apply as_map_elem_1, elem_of_run in Hx as (t & Ht & He). rewrite Forall_forall in Hdisk.
    pose proof (on_disk_fits c w t (Hdisk t Ht)) as Hf. rewrite Forall_forall in Hf. auto.
  - etrans; [apply weight_emits|by apply weight_merged].
Qed.

Lemma wp_write_outputs :
  wp (write_outputs work) st w
    (λ ids st' w', claimed (st_next_id st') st st' ∧ st_next_id st' ≤ U ∧ temp_only w w' ∧ ∃ outs, ids = outs.*1 ∧
       outs_ok (st_next_id st) (st_next_id st') w' outs ∧ ksorted (concat outs.*2) ∧
       as_map (concat outs.*2) = emitted work (as_map (run_of c tables)) ∧
       weight (concat outs.*2) ≤ weight (run_of c tables))
    (emit_error U st w) (temp_only w).
Proof.
  pose proof Hdisk as [Hd1 Hd2]%Forall_app. unfold write_outputs.
  wp_call (wp_make_sources c (cw_inputs work) st w Hd1 Hs Hrel).
  2: { intros w1 _ Hsf. by apply temp_only_same. }
  intros ss1 st1 w1 Hc1 (Hsf1 & Hcn1 & Ha1 & Ht1). wp_call (wp_make_sources c (cw_overlaps work) st1 w1).
  { eapply Forall_impl; [exact Hd2|]. intros t Ht. by eapply on_disk_same. }
  { by eapply counting_range. }
  { eauto with wp. }
  2: { intros w2 _ Hsf. apply temp_only_same. by etrans. }
  intros ss2 st2 w2 Hc2 (Hsf2 & Hcn2 & Ha2 & Ht2). cbv zeta.
  assert (Hcn : counting st st2) by by eapply counting_trans. assert (Hsf : same_files w w2) by by etrans.
  destruct merge_list as (es & Hsort & Hm & Hfit & Hwe). pose proof (weight_nonneg (emits work es)).
  assert (Hall : denote_all (ss1 ++ ss2) w2 (entries_of c <$> tables)).
  { unfold tables. rewrite fmap_app. apply Forall2_app; [by eapply denote_all_same|done]. }
  assert (Hmer : merging (new_merging (ss1 ++ ss2) Emit) w2 es).
  { exists (entries_of c <$> tables). split_and!; [done|done|]. rewrite Hm, merged_concat. done. }
  assert (Htf : table_files (new_merging (ss1 ++ ss2) Emit)).
  { unfold table_files, iterator_tables. cbn. rewrite fmap_app, Ht1, Ht2, <-fmap_app. fold tables.
    intros t (t' & [= <-] & Ht)%list_elem_of_fmap. pose proof Hdisk as Hd. rewrite Forall_forall in Hd.
    destruct (Hd t Ht) as (_ & _ & Hp). eauto. }
  wp_call (wp_iterator_next (new_merging (ss1 ++ ss2) Emit) st2 w2 es); try done.
  { eauto with wp. }
  { by eapply counting_range. }
  2: { intros w3 _ Hsf3. apply temp_only_same. by etrans. }
  intros it st3 w3 Hc3 (Hsf3 & Hcn3 & Hst3 & Htf3). assert (Hcn' : counting st st3) by by eapply counting_trans.
  pose proof (claimed_counting _ _ Hcn') as Hcl'. destruct (claimed_next _ _ _ Hcl') as (En & _ & Hs3).
  pose proof (claimed_options _ _ _ Hcl') as Eo.
  change (@nil Z) with (@nil (Z * list entry)).*1.
  eapply wp_mono; [eapply (wp_merge_loop work (st_next_id st) U _ st3 w3 it [] None [] es)|..]; cbn beta.
  - eauto 10 with wp.
  - done.
  - done.
  - by eapply merging_rounds.
  - split; rewrite ?En, ?Eo; try done; [by split_and!; constructor|].
    unfold ids_needed. change (weight []) with 0. rewrite Z.add_0_l.
    enough (weight (emits work es) / target (st_options st) ≤ weight (run_of c tables) / target (st_options st)) by lia.
    apply Z.div_le_mono; [unfold target; lia|done].
  - by apply emits_sorted.
  - by apply emits_fit.
  - cbn [app]. lia.
  - intros ids st4 w4 _ (Hcl4 & HU4 & Ht4 & outs & -> & Houts & Ec). cbn in Ec.
    split_and!; [by eapply claimed_trans|done|etrans; [apply temp_only_same; by etrans|done]|].
    exists outs. rewrite Ec, emits_map, Hm by done. split_and!; [done|done|by apply emits_sorted|done|done].
  - intros e st4 w4 _ (Hcl4 & HU4 & Ht4 & Hcode).
    split_and!; [by eapply claimed_trans|done|etrans; [apply temp_only_same; by etrans|done]|done].
  - intros w4 _ Ht4. etrans; [apply temp_only_same; by etrans|done].
Qed.
End Write.
End MergeLoop.
