(* ===== verification/LsmCommit.v ===== *)
(** From the merged outputs to a committed level set: renaming, opening and the manifest.  Up to
    the commit the directory holds, at every moment, either the old level set or the new one,
    and they answer every read alike. *)

From S2P Require Import Prelude Status FileNames World Wp Encoding Record SortedMap Memtable SSTableFormat LogFile Manifest.
From S2P Require Import SSTableLayout LsmStats SSTable SSTableBuild SSTableRead SSTableOpen Iterator IteratorMerge Wal LsmState LsmCompact Lsm.
From S2P Require Import LsmLevels LsmGet LsmDisk LsmPick LsmMerge.
Import sstable LsmState LsmCompact LsmOps.

Section Commit.
Context `{Platform}.

(** * The manifest describes the level set *)

Lemma keys_weight es : es ≠ [] → Forall entry_fits es → sz (first_key es) + sz (last_key es) + 14 ≤ 2 * weight es.
Proof.
  intros Hne Hf. assert (Hk : ∀ e, e ∈ es → sz e.1 + 13 ≤ weight es).
  { clear. intros e. induction es as [|x es IH]; [by intros ?%elem_of_nil|]. rewrite weight_cons.
    pose proof (weight_nonneg es). unfold entry_weight. pose proof (sz_nonneg (stored x.2)). pose proof (sz_nonneg x.1).
    intros [->|He%IH]%elem_of_cons; lia. }
  destruct (last_key_in es Hne) as (e2 & H2 & <-). unfold first_key. destruct es as [|e1 es]; [done|]. cbn [head fmap option_fmap option_map default from_option id].
  pose proof (Hk e1 ltac:(by left)). pose proof (Hk e2 H2). lia.
Qed.

Section LevelSet.
Variables (c : Z → list entry) (w : World).

Lemma meta_of_ok t : on_disk c w t → valid_id (t_id t) → manifest.meta_ok (meta_of t).
Proof.
  intros Hd Hid. pose proof (on_disk_keyed _ _ _ Hd) as Hk. pose proof (on_disk_fits _ _ _ Hd) as Hf.
  destruct Hd as ((bs & Ht & E) & Hne & _). pose proof (ht_size _ _ _ Ht) as Hsz. pose proof (sz_nonneg (data_region bs)).
  pose proof (sz_concat_le bs (ht_blocks _ _ _ Ht)). rewrite Forall_forall in Hf.
  destruct (keyed_min c t Hk) as (e1 & He1 & E1). destruct (keyed_max c t Hk) as (e2 & He2 & E2).
  pose proof (entry_fits_sizes e1 (Hf e1 He1)). pose proof (entry_fits_sizes e2 (Hf e2 He2)).
  unfold manifest.meta_ok. cbn. rewrite (ht_count _ _ _ Ht), <-E1, <-E2. unfold INT64_MAX, UINT64_MAX in *.
  pose proof (sz_nonneg (concat bs)). split_and!; try lia; [done|].
  rewrite E1, E2. by apply (keyed_min_max c).
Qed.

Lemma level_set_ok levels n : Forall (on_disk c w) (concat levels) → NoDup (t_id <$> concat levels) →
  Forall (λ t, valid_id (t_id t)) (concat levels) → sz levels ≤ UINT32_MAX → 0 ≤ n ≤ UINT32_MAX →
  manifest.set_ok (level_set_of levels n).
Proof.
  intros Hd Hnd Hid Hl Hn. split; [done|split].
  { cbn. unfold sz in *. by rewrite length_map. }
  cbn. apply Forall_forall. intros l' (l & <- & Hl')%list_elem_of_In%in_map_iff. apply list_elem_of_In in Hl'.
  assert (Hsub : ∀ t, t ∈ l → t ∈ concat levels) by (intros t Ht; apply elem_of_concat; eauto).
  rewrite Forall_forall in Hd, Hid. split.
  - unfold sz. rewrite length_map. assert (Hl2 : NoDup (t_id <$> l)).
    { clear -Hnd Hl'. apply list_elem_of_split in Hl' as (l1 & l2 & ->). rewrite concat_app in Hnd. cbn in Hnd.
      rewrite !fmap_app in Hnd. apply NoDup_app in Hnd as (_ & _ & Hnd). by apply NoDup_app in Hnd as (? & _ & _). }
    assert (Hin : ∀ i, i ∈ t_id <$> l → i ∈ seqZ 1 UINT32_MAX).
    { intros i (t & -> & Ht)%list_elem_of_fmap. apply elem_of_seqZ. specialize (Hid t (Hsub t Ht)).
      unfold valid_id, kFirstFileId in Hid. lia. }
    pose proof (submseteq_length _ _ (NoDup_submseteq _ _ Hl2 Hin)) as Hlen.
    rewrite length_fmap, length_seqZ in Hlen. unfold UINT32_MAX in *. lia.
  - apply Forall_forall. intros m (t & <- & Ht)%list_elem_of_In%in_map_iff. apply list_elem_of_In in Ht.
    apply meta_of_ok; auto.
Qed.

(** The size of the manifest against the size of the tables. *)
Definition key_sized (t : SSTable) : Prop := sz (t_min_key t) + sz (t_max_key t) + 14 ≤ 2 * weight (entries_of c t).

Lemma on_disk_sized t : on_disk c w t → key_sized t.
Proof.
  intros Ht. unfold key_sized. pose proof (on_disk_fits _ _ _ Ht) as Hf.
  destruct (on_disk_keyed _ _ _ Ht) as (_ & Hne & -> & ->). by apply keys_weight.
Qed.

Lemma level_set_sized levels n : Forall key_sized (concat levels) →
  sz (manifest.encode (level_set_of levels n)) ≤ 20 + 4 * sz levels + 4 * weight (run_of c (concat levels)).
Proof.
  intros Hd. rewrite manifest.sz_encode_set. cbn [manifest.ls_levels level_set_of].
  unfold manifest.kHeaderSize, manifest.kTrailerSize.
  enough (sz (concat (manifest.enc_level <$> map (map meta_of) levels)) ≤ 4 * sz levels + 4 * weight (run_of c (concat levels))) by lia.
  induction levels as [|l levels IH]; [done|]. cbn [concat] in Hd. apply Forall_app in Hd as [Hl Hd]. specialize (IH Hd).
  cbn [map]. rewrite fmap_cons. cbn [concat]. rewrite sz_app, sz_cons, run_of_app, weight_app, manifest.sz_enc_level.
  enough (sz (concat (manifest.enc_table <$> map meta_of l)) ≤ 4 * weight (run_of c l)) by lia. clear -Hl.
  induction Hl as [|t l Ht Hl IH]; [done|]. cbn [map]. rewrite fmap_cons. cbn [concat].
  rewrite sz_app, run_of_cons, weight_app, manifest.sz_enc_table. cbn. unfold key_sized in Ht.
  pose proof (sz_nonneg (t_min_key t)). pose proof (sz_nonneg (t_max_key t)). unfold manifest.kTableFixedSize. lia.
Qed.

Lemma level_set_size levels n : Forall (on_disk c w) (concat levels) →
  sz (manifest.encode (level_set_of levels n)) ≤ 20 + 4 * sz levels + 4 * weight (run_of c (concat levels)).
Proof. intros Hd. apply level_set_sized. eapply Forall_impl; [exact Hd|]. apply on_disk_sized. Qed.
End LevelSet.

(** * Renaming and opening *)

(** Only the temporary and the final files of these ids may have changed. *)
Definition renames (ids : list Z) (w w' : World) : Prop :=
  ∀ name, (∀ id, id ∈ ids → name ≠ temp_sst id ∧ name ≠ sst_file_name id) → w_files w' !! name = w_files w !! name.

#[export] Instance renames_preorder ids : PreOrder (renames ids).
Proof. split; [by intros w name|]. intros w1 w2 w3 H1 H2 name Hne. by rewrite H2, H1. Qed.

Lemma renames_mono ids ids' w w' : renames ids w w' → (∀ i, i ∈ ids → i ∈ ids') → renames ids' w w'.
Proof. intros Hr Hsub name Hn. apply Hr. auto. Qed.

Lemma renames_same ids w w' : same_files w w' → renames ids w w'.
Proof. intros [E _] name _. by rewrite E. Qed.

Lemma wp_rename_outputs outs : ∀ st w, reliable w → Forall (out_at w) outs → NoDup outs.*1 → Forall (λ o, valid_id o.1) outs →
  wp (rename_outputs outs.*1) st w
    (λ _ st' w', st' = st ∧ renames outs.*1 w w' ∧ Forall (λ o, stored_at (w_files w') o.1 o.2) outs)
    (λ _ _ _, False) (renames outs.*1 w).
Proof.
  induction outs as [|[id es] outs IH]; intros st w Hrel Hat Hnd Hid; cbn [rename_outputs fmap list_fmap].
  { apply wp_ret. split_and!; [done|done|constructor]. }
  apply Forall_cons in Hat as [(Hne & bits & bs & Hwf & E & Hf) Hat]. apply NoDup_cons in Hnd as [Hno Hnd].
  apply Forall_cons in Hid as [Hi Hid]. cbn [fst snd] in *. cbv zeta.
  wp_call (wp_rename_file (temp_sst id) (sst_file_name id) st w _ Hf).
  intros rc s1 w1 Hc1 (-> & [(-> & Hfs & _)|(_ & Hq & _)]); [|done]. cbn [Z.eqb negb fail_when]. wp_pure.
  assert (Hr1 : renames (id :: outs.*1) w w1).
  { intros name Hn. destruct (Hn id ltac:(by left)). by rewrite Hfs, lookup_insert_ne, lookup_delete_ne. }
  assert (Hother : ∀ o, o ∈ outs → id ≠ o.1 ∧ valid_id o.1).
  { intros o Ho. rewrite Forall_forall in Hid. split; [|by apply Hid]. intros ->. apply Hno. by apply list_elem_of_fmap_2. }
  eapply wp_mono; [eapply (IH st w1)|..]; cbn beta.
  - eauto with wp.
  - rewrite Forall_forall in *. intros o Ho. destruct (Hat o Ho) as (Hne' & bits' & bs' & Hwf' & E' & Hf').
    destruct (Hother o Ho) as [Hd Hv]. split; [done|]. exists bits', bs'. split_and!; [done|done|].
    unfold table_at. rewrite Hfs, lookup_insert_ne, lookup_delete_ne; [done| |].
    + intros E2%temp_sst_inj; done.
    + intros E2. by eapply sst_not_temp.
  - done.
  - done.
  - intros _ st2 w2 _ (-> & Hr2 & Hst). split_and!; [done| |].
    + etrans; [exact Hr1|]. eapply renames_mono; [done|]. intros i Hi'. by right.
    + constructor; [|done]. cbn. exists bits, bs, (mkFile (table_bytes bits bs) (length (table_bytes bits bs))). split_and!; [|done|done|done].
      rewrite Hr2; [by rewrite Hfs, lookup_insert_eq|]. intros j (o & -> & Ho)%list_elem_of_fmap.
      destruct (Hother o Ho) as [Hd Hv]. split; [apply sst_not_temp|]. intros E2%sst_file_name_inj; done.
  - done.
  - intros w2 _ Hr2. etrans; [exact Hr1|]. eapply renames_mono; [done|]. intros i Hi'. by right.
Qed.

(** An opened output. *)
Definition opened_as (w : World) (o : Z * list entry) (t : SSTable) : Prop :=
  t_id t = o.1 ∧ ∀ c, c o.1 = o.2 → on_disk c w t.

Lemma wp_open_outputs outs : ∀ st w, reliable w → Forall (λ o, stored_at (w_files w) o.1 o.2 ∧ o.2 ≠ []) outs →
  wp (open_outputs outs.*1) st w
    (λ ts st' w', st' = st ∧ same_files w w' ∧ Forall2 (opened_as w') outs ts)
    (λ _ _ _, False) (same_files w).
Proof.
  induction outs as [|[id es] outs IH]; intros st w Hrel Hst; cbn [open_outputs fmap list_fmap].
  { apply wp_ret. split_and!; [done|done|constructor]. }
  apply Forall_cons in Hst as [[Hs Hne] Hst]. cbn [fst snd] in *. wp_call (wp_open_table id es st w Hs Hne).
  2: { intros e s1 w1 _ (_ & _ & Hq & _). done. }
  intros t s1 w1 Hc1 (-> & Hsf1 & Ht & _ & _ & Hd). wp_call (IH st w1).
  - eauto with wp.
  - eapply Forall_impl; [exact Hst|]. intros o [Ho ?]. split; [|done]. eapply stored_at_files; [done|]. by rewrite (proj1 Hsf1).
  - intros ts s2 w2 Hc2 (-> & Hsf2 & Hall). apply wp_ret. split_and!; [done|by etrans|]. constructor; [|done].
    split; [done|]. intros c Hc. eapply on_disk_same; [by apply Hd|done].
  - intros w2 _ Hsf2. by etrans.
Qed.
End Commit.

(** * A compaction up to its commit *)

(** The contents function with new tables. *)
Definition assign (outs : list (Z * list entry)) (c : Z → list entry) (id : Z) : list entry :=
  default (c id) (list_to_map (M := gmap Z (list entry)) outs !! id).

Lemma assign_in outs c id es : NoDup outs.*1 → (id, es) ∈ outs → assign outs c id = es.
Proof. intros Hnd Hin. unfold assign. by rewrite (elem_of_list_to_map_1 _ _ _ Hnd Hin). Qed.

Lemma assign_extends outs c n : Forall (λ o, n ≤ o.1) outs → extends n c (assign outs c).
Proof.
  intros Hall id Hid. unfold assign. rewrite not_elem_of_list_to_map_1; [done|].
  intros (o & -> & Ho)%list_elem_of_fmap. rewrite Forall_forall in Hall. specialize (Hall o Ho). lia.
Qed.

Lemma run_of_extends n c c' ts : extends n c c' → Forall (λ t, t_id t < n) ts → run_of c' ts = run_of c ts.
Proof.
  intros He Hall. unfold run_of. f_equal. apply list_fmap_ext. intros i t Ht. unfold entries_of. apply He.
  rewrite Forall_forall in Hall. apply Hall. by eapply list_elem_of_lookup_2.
Qed.

Lemma keyed_extends n c c' t : extends n c c' → t_id t < n → keyed c t → keyed c' t.
Proof. intros He Hid. unfold keyed, entries_of. by rewrite (He _ Hid). Qed.

Lemma levels_ok_extends n c c' levels : extends n c c' → Forall (λ t, t_id t < n) (concat levels) →
  levels_ok c levels → levels_ok c' levels.
Proof.
  intros He Hall [Hk Hr Hnd]. split; [| |done].
  - rewrite Forall_forall in Hk, Hall |- *. intros t Ht. eapply keyed_extends; eauto.
  - rewrite Forall_forall in Hr |- *. intros l Hl. rewrite (run_of_extends n c c' l He); [by apply Hr|].
    apply Forall_forall. intros t Ht. rewrite Forall_forall in Hall. apply Hall, elem_of_concat. exists l. split; [|done].
    destruct levels; [done|]. by right.
Qed.

Lemma view_extends n c c' levels : extends n c c' → Forall (λ t, t_id t < n) (concat levels) → view c' levels = view c levels.
Proof. intros He Hall. unfold view. by rewrite (run_of_extends n c c'). Qed.

Section CompactIO.
Context `{Platform}.

(** Only temporary files and tables with new ids may have changed; [fresh_commit] also
    allows a new manifest. *)
Definition fresh_files (n : Z) (w w' : World) : Prop :=
  ∀ name, (∀ stem, name ≠ temp_name stem) → (∀ id, n ≤ id → valid_id id → name ≠ sst_file_name id) →
    w_files w' !! name = w_files w !! name.
Definition fresh_commit (n : Z) (w w' : World) : Prop :=
  ∀ name, (∀ stem, name ≠ temp_name stem) → (∀ id, n ≤ id → valid_id id → name ≠ sst_file_name id) →
    name ≠ kManifestName → w_files w' !! name = w_files w !! name.

#[export] Instance fresh_files_preorder n : PreOrder (fresh_files n).
Proof. split; [by intros w name|]. intros w1 w2 w3 H1 H2 name Ht Hn. by rewrite H2, H1. Qed.

Lemma fresh_files_temp n w w' : temp_only w w' → fresh_files n w w'.
Proof. intros Ht name Hn _. by apply Ht. Qed.

Lemma fresh_files_renames n ids w w' : renames ids w w' → (∀ id, id ∈ ids → n ≤ id ∧ valid_id id) → fresh_files n w w'.
Proof.
  intros Hr Hids name Hn Hs. apply Hr. intros id Hid. destruct (Hids id Hid). split; [apply Hn|]. by apply Hs.
Qed.

Lemma fresh_files_same n w w' : same_files w w' → fresh_files n w w'.
Proof. intros [E _] name _ _. by rewrite E. Qed.

(** The outcome of a compaction: a new level set on disk, equivalent to the old one. *)
Record compacted (c : Z → list entry) (levels : Levels) (work : Compaction) (n0 : Z) (w : World)
    (c' : Z → list entry) (next : Levels) (n : Z) (w' : World) : Prop := {
  cp_extends : extends n0 c c';
  cp_levels : levels_ok c' next;
  cp_live : live (view c' next) = live (view c levels);
  cp_disk : Forall (on_disk c' w') (concat next);
  cp_new : ∀ t, t ∈ concat next → t ∈ concat levels ∧ t ∉ cw_inputs work ++ cw_overlaps work ∨
    n0 ≤ t_id t < n ∧ stored_at (w_files w') (t_id t) (c' (t_id t));
  cp_kept : ∀ t, t ∈ concat levels → t ∈ concat next ∨ t ∈ cw_inputs work ++ cw_overlaps work;
  cp_weight : weight (run_of c' (concat next)) ≤ weight (run_of c (concat levels));
  cp_depth : sz next ≤ Z.max (sz levels) (Z.of_nat (cw_level work) + 2);
  cp_files : fresh_commit n0 w w';
}.

(** The file of an old table is not a new one. *)
Lemma old_name n id name : name = sst_file_name id → valid_id id → id < n →
  (∀ stem, name ≠ temp_name stem) ∧ (∀ id', n ≤ id' → valid_id id' → name ≠ sst_file_name id') ∧ name ≠ kManifestName.
Proof.
  intros -> Hid Hn. split_and!; [apply sst_not_temp| |by apply sst_name_fresh].
  intros id' Hle Hid' E%sst_file_name_inj; [lia|done|done].
Qed.

Lemma manifest_name n : (∀ stem, kManifestName ≠ temp_name stem) ∧ (∀ id, n ≤ id → valid_id id → kManifestName ≠ sst_file_name id).
Proof.
  split.
  - intros stem E. apply (f_equal last) in E. unfold temp_name in E. rewrite last_app in E. by vm_compute in E.
  - intros id _ Hid E. symmetry in E. by apply sst_name_fresh in E.
Qed.

Lemma sst_not_manifest id : sst_file_name id ≠ kManifestName.
Proof. unfold sst_file_name. intros E. apply (f_equal last) in E. rewrite last_app in E. by vm_compute in E. Qed.

(** Committing the manifest leaves the tables alone. *)
Lemma compacted_committed c levels work n0 w c' next n w1 w2 set : compacted c levels work n0 w c' next n w1 →
  manifest.committed set w1 w2 → compacted c levels work n0 w c' next n w2.
Proof.
  intros [H1 H2 H3 H4 H5 H6 H7 H8 H9] [_ Hother].
  assert (Hsst : ∀ id, w_files w2 !! sst_file_name id = w_files w1 !! sst_file_name id).
  { intros id. apply Hother; [apply sst_not_manifest|apply sst_not_temp]. }
  split; try done.
  - eapply Forall_impl; [exact H4|]. intros t Ht. by eapply on_disk_files.
  - intros t Ht. destruct (H5 t Ht) as [?|[? ?]]; [by left|]. right. split; [done|]. by eapply stored_at_files.
  - intros name Ht Hn Hm. rewrite Hother by (done || apply Ht). by apply H9.
Qed.

Section Outcome.
Context (c : Z → list entry) (levels : Levels) (work : Compaction) (n0 n : Z) (w w' : World).
Context (outs : list (Z * list entry)) (opened : list SSTable).
Hypothesis Hok : levels_ok c levels.
Hypothesis Hpk : picked levels work.
Hypothesis Hdisk : Forall (on_disk c w) (concat levels).
Hypothesis Hold : Forall (λ t, valid_id (t_id t) ∧ t_id t < n0) (concat levels).
Hypothesis Hnd : NoDup outs.*1.
Hypothesis Hids : Forall (λ o, n0 ≤ o.1 < n) outs.
Hypothesis Hopened : Forall2 (opened_as w') outs opened.
Hypothesis Hstored : Forall (λ o, stored_at (w_files w') o.1 o.2) outs.
Hypothesis Hsorted : ksorted (concat outs.*2).
Hypothesis Hmap : as_map (concat outs.*2) = emitted work (as_map (run_of c (cw_inputs work ++ cw_overlaps work))).
Hypothesis Hweight : weight (concat outs.*2) ≤ weight (run_of c (cw_inputs work ++ cw_overlaps work)).
Hypothesis Hfiles : fresh_commit n0 w w'.
Let c' := assign outs c.
Let next := next_levels levels work opened.

Lemma assigned_extends : extends n0 c c'.
Proof. apply assign_extends. eapply Forall_impl; [exact Hids|]. cbn. lia. Qed.

Lemma old_ids ts : (∀ t, t ∈ ts → t ∈ concat levels) → Forall (λ t, t_id t < n0) ts.
Proof. intros Hsub. pose proof Hold as Ho. rewrite Forall_forall in Ho |- *. intros t Ht. by apply Ho, Hsub. Qed.

Lemma opened_entries : entries_of c' <$> opened = outs.*2 ∧ t_id <$> opened = outs.*1 ∧ Forall (on_disk c' w') opened.
Proof.
  assert (Hall : ∀ o, o ∈ outs → c' o.1 = o.2) by (intros [id es] Ho; by apply assign_in).
  pose proof Hopened as Hop. clear -Hop Hall. clearbody c'. induction Hop as [|o t os ts [Hid Ht] Hts IH]; [done|].
  destruct IH as (E1 & E2 & E3); [intros o' Ho'; apply Hall; by right|]. csimpl.
  assert (Eo : c' o.1 = o.2) by (apply Hall; by left). split_and!.
  - rewrite E1. f_equal. unfold entries_of. by rewrite Hid.
  - by rewrite E2, Hid.
  - constructor; [by apply Ht|done].
Qed.

Lemma opened_facts : Forall (keyed c') opened ∧ ksorted (run_of c' opened) ∧ NoDup (t_id <$> opened) ∧
  (∀ t, t ∈ opened → t_id t ∉ t_id <$> concat levels) ∧
  as_map (run_of c' opened) = emitted work (as_map (run_of c' (cw_inputs work ++ cw_overlaps work))).
Proof.
  destruct opened_entries as (E1 & E2 & E3). assert (Er : run_of c' opened = concat outs.*2) by (unfold run_of; by rewrite E1).
  split_and!.
  - eapply Forall_impl; [exact E3|]. intros t. apply on_disk_keyed.
  - by rewrite Er.
  - by rewrite E2.
  - intros t Ht (t' & E & Ht')%list_elem_of_fmap. pose proof (list_elem_of_fmap_2 t_id opened t Ht) as Hin. rewrite E2 in Hin.
    apply list_elem_of_fmap in Hin as (o & Eo & Ho). pose proof Hids as Hi. pose proof Hold as Hol. rewrite Forall_forall in Hi. rewrite Forall_forall in Hol.
    specialize (Hi o Ho). specialize (Hol t' Ht'). cbn in Hi. lia.
  - rewrite Er, Hmap. do 2 f_equal. symmetry. apply (run_of_extends n0 c c'); [apply assigned_extends|].
    apply old_ids. intros t Ht. by eapply picked_in.
Qed.

Lemma compaction_outcome : compacted c levels work n0 w c' next n w'.
Proof.
  destruct (pk_level _ _ Hpk) as (level & Hl & _). destruct opened_facts as (Hk & Hrun & Hnd' & Hfresh & Hm).
  pose proof assigned_extends as Hext. pose proof (old_ids (concat levels) ltac:(done)) as Hlow.
  pose proof (levels_ok_extends n0 c c' levels Hext Hlow Hok) as Hok'. destruct opened_entries as (E1 & E2 & Hod).
  pose proof (old_tables c' levels work Hok' Hpk level Hl) as Hpold.
  pose proof (new_tables levels work level Hl opened) as Hpnew. fold next in Hpnew.
  assert (Hkd : Forall (on_disk c' w') (concat levels)).
  { pose proof Hdisk as Hd. pose proof Hold as Hol. rewrite Forall_forall in Hd |- *. rewrite Forall_forall in Hol. intros t Ht.
    destruct (Hol t Ht) as [Hv Hlt]. eapply on_disk_extends; [|exact Hext|done]. eapply on_disk_files; [by apply Hd|].
    destruct (old_name n0 (t_id t) _ eq_refl Hv Hlt) as (H1 & H2 & H3). by apply Hfiles. }
  split; try done.
  - by apply (new_levels_ok c' levels work Hok' Hpk level Hl opened).
  - unfold next. rewrite (new_live c' levels work Hok' Hpk level Hl opened) by done. by rewrite (view_extends n0 c c').
  - rewrite Hpnew. rewrite Hpold in Hkd. apply Forall_app in Hkd as [Hkd _]. by apply Forall_app.
  - intros t. rewrite Hpnew, elem_of_app. intros [Ht|Ht].
    + left. split; [rewrite Hpold; apply elem_of_app; by left|]. intros Hin.
      pose proof (tables_NoDup c' levels Hok') as Hn. rewrite Hpold in Hn. apply NoDup_app in Hn as (_ & Hn & _). by apply (Hn t Ht).
    + right. pose proof (list_elem_of_fmap_2 t_id opened t Ht) as Hin. rewrite E2 in Hin.
      apply list_elem_of_fmap in Hin as ([id es] & Eo & Ho). pose proof Hids as Hi. pose proof Hstored as Hst.
      rewrite Forall_forall in Hi. rewrite Forall_forall in Hst. rewrite Eo. split; [by apply (Hi (id, es))|].
      unfold c'. cbn [fst]. rewrite (assign_in outs c id es) by done. by apply (Hst (id, es)).
  - intros t. rewrite Hpold, Hpnew, !elem_of_app. naive_solver.
  - rewrite (weight_perm _ _ (run_of_perm c' _ _ Hpnew)), run_of_app, weight_app.
    assert (run_of c' opened = concat outs.*2) as -> by (unfold run_of; by rewrite E1).
    rewrite <-(run_of_extends n0 c c' (concat levels) Hext Hlow), (weight_perm _ _ (run_of_perm c' _ _ Hpold)).
    rewrite (run_of_app c' (kept_tables levels work level)), weight_app.
    rewrite (run_of_extends n0 c c' (cw_inputs work ++ cw_overlaps work) Hext); [pose proof Hweight; lia|].
    apply old_ids. intros t Ht. by eapply picked_in.
  - pose proof (next_levels_depth levels work opened) as Hdep. fold next in Hdep. unfold sz. lia.
Qed.
End Outcome.

(** Far more than any database holds, and more levels than any has. *)
Definition kTotalLimit : Z := 1152921504606846976.
Definition kDepthLimit : Z := 2147483648.

Section IO.
Context (c : Z → list entry) (work : Compaction) (st : LsmStore) (w : World) (U : Z).
Let levels := st_levels st.
Let n0 := st_next_id st.
Hypothesis Hrel : reliable w.
Hypothesis Hfp : lo_fail_at (st_options st) = FpNone.
Hypothesis Hbs : lo_block_size (st_options st) ≠ 0.
Hypothesis Hs : in_range (st_stats st).
Hypothesis Hok : levels_ok c levels.
Hypothesis Hpk : picked levels work.
Hypothesis Hdisk : Forall (on_disk c w) (concat levels).
Hypothesis Hold : Forall (λ t, valid_id (t_id t) ∧ t_id t < n0) (concat levels).
Hypothesis Hfirst : kFirstFileId ≤ n0.
Hypothesis Hweight : weight (run_of c (concat levels)) ≤ kTotalLimit.
Hypothesis Hdepth : sz levels ≤ kDepthLimit ∧ Z.of_nat (cw_level work) + 2 ≤ kDepthLimit.
Hypothesis Hids : n0 + weight (run_of c (concat levels)) / target (st_options st) + 1 ≤ U.
Hypothesis HU : U ≤ UINT32_MAX.

Lemma picked_weight : weight (run_of c (cw_inputs work ++ cw_overlaps work)) ≤ weight (run_of c (concat levels)).
Proof.
  destruct (pk_level _ _ Hpk) as (level & Hl & _). pose proof (old_tables c levels work Hok Hpk level Hl) as Hp.
  rewrite (weight_perm _ _ (run_of_perm c _ _ Hp)), (run_of_app c (kept_tables levels work level)), weight_app.
  pose proof (weight_nonneg (run_of c (kept_tables levels work level))). lia.
Qed.

Lemma wp_compaction_io :
  wp (compaction_io work) st w
    (λ r st' w', claimed (st_next_id st') st st' ∧ st_next_id st' ≤ U ∧
       ∃ c' next, r = Some next ∧ compacted c levels work n0 w c' next (st_next_id st') w' ∧
         manifest_file (w_files w') (level_set_of next (st_next_id st')))
    (emit_error U st w)
    (λ w', fresh_files n0 w w' ∨ ∃ c' next n, n0 ≤ n ≤ U ∧ compacted c levels work n0 w c' next n w' ∧
       manifest_file (w_files w') (level_set_of next n)).
Proof.
  pose proof picked_weight as Hpw. unfold kTotalLimit, kDepthLimit in *. unfold compaction_io.
  wp_call (wp_write_outputs c work st w U Hrel).
  { apply Forall_forall. intros t Ht. pose proof Hdisk as Hd. rewrite Forall_forall in Hd. apply Hd. by eapply picked_in. }
  { done. }
  { done. }
  { done. }
  { unfold kWeightLimit. lia. }
  { fold n0. enough (weight (run_of c (cw_inputs work ++ cw_overlaps work)) / target (st_options st) ≤
      weight (run_of c (concat levels)) / target (st_options st)) by lia. apply Z.div_le_mono; [unfold target|]; lia. }
  { done. }
  2: { intros w1 _ Ht. left. by apply fresh_files_temp. }
  intros ids st1 w1 Hc1 (Hcl1 & HU1 & Ht1 & outs & -> & Houts & Hsort & Hmap & Hwo). wp_pure.
  rewrite (claimed_options _ _ _ Hcl1), Hfp. destruct Houts as (Hat & Hnd & Hr).
  assert (Hvalid : Forall (λ o, valid_id o.1) outs).
  { eapply Forall_impl; [exact Hr|]. cbn. intros o Ho. unfold valid_id. fold n0 in Ho. lia. }
  assert (Hfr : ∀ w', renames outs.*1 w1 w' → fresh_files n0 w w').
  { intros w' Hren. etrans; [by apply fresh_files_temp|]. eapply fresh_files_renames; [done|].
    intros id (o & -> & Ho)%list_elem_of_fmap. rewrite Forall_forall in Hr. rewrite Forall_forall in Hvalid.
    split; [by apply (Hr o Ho)|by apply Hvalid]. }
  wp_call (wp_rename_outputs outs st1 w1); [eauto with wp|done|done|done|..].
  2: { intros w2 _ Hren. left. by apply Hfr. }
  intros _ st2 w2 Hc2 (-> & Hren2 & Hst2).
  wp_call (wp_lsm_sync_dir st1 w2).
  2: { intros e s3 w3 _ (_ & _ & Hq & _). exfalso. eauto 10 with wp. }
  2: { intros w3 _ Hsf. left. apply Hfr. etrans; [done|by apply renames_same]. }
  intros _ s3 w3 Hc3 (-> & Hsf3).
  wp_call (wp_open_outputs outs st1 w3); [eauto 10 with wp| |..].
  { rewrite Forall_forall in *. intros o Ho. destruct (Hat o Ho) as [Hne _]. split; [|done].
    eapply stored_at_files; [by apply Hst2|]. by rewrite (proj1 Hsf3). }
  2: { intros w4 _ Hsf. left. apply Hfr. etrans; [done|apply renames_same; by etrans]. }
  intros opened s4 w4 Hc4 (-> & Hsf4 & Hop). wp_pure. rewrite (claimed_levels _ _ _ Hcl1). fold levels. cbv zeta.
  assert (Hfr4 : fresh_files n0 w w4) by (apply Hfr; etrans; [done|apply renames_same; by etrans]).
  set (c' := assign outs c). set (next := next_levels levels work opened). set (n := st_next_id st1) in *.
  assert (Hcp : compacted c levels work n0 w c' next n w4).
  { eapply (compaction_outcome c levels work n0 n w w4 outs opened); try done.
    - rewrite Forall_forall in *. intros o Ho. eapply stored_at_files; [by apply Hst2|]. by rewrite (proj1 Hsf4), (proj1 Hsf3).
    - intros name Ht Hn _. by apply Hfr4. }
  wp_call (manifest.wp_write_atomic (level_set_of next n) st1 w4).
  { pose proof (level_set_size c' w4 next n (cp_disk _ _ _ _ _ _ _ _ _ Hcp)) as Hsz.
    pose proof (cp_weight _ _ _ _ _ _ _ _ _ Hcp). pose proof (cp_depth _ _ _ _ _ _ _ _ _ Hcp). unfold UINT64_MAX. lia. }
  { left. eauto 10 with wp. }
  - intros _ s5 w5 _ (-> & Hcom). apply wp_ret. fold n. split_and!; [done|done|]. exists c', next.
    split_and!; [done|by eapply compacted_committed|by destruct Hcom; eexists].
  - intros e s5 w5 _ (_ & Hq & _). exfalso. eauto 10 with wp.
  - intros w5 _ [Ht5|Hcom].
    + left. etrans; [done|]. apply fresh_files_temp. by eapply temp_only_touched.
    + right. exists c', next, n. split_and!; [by apply (claimed_next _ _ _ Hcl1)|done|by eapply compacted_committed|by destruct Hcom; eexists].
Qed.
End IO.
End CompactIO.
