(* ===== verification/LsmServe.v ===== *)
(** What a directory must hold for its database to be recovered: a manifest that
    describes the tables, the tables, and logs whose writes go on top, oldest first.  And
    the invariant of a running engine: memory, tables, logs and held versions, and the
    map they hold together. *)

From S2P Require Import Prelude Status FileNames World Wp Encoding Record SortedMap Memtable SSTableFormat LogFile MappedFile Manifest LogScan SSTableLayout LsmStats SSTable SSTableBuild SSTableRead SSTableOpen IteratorMerge Wal LsmState LsmCompact Lsm LsmLevels LsmGet LsmDisk LsmPick LsmMerge LsmCommit.
Import sstable LsmState LsmCompact LsmOps WalOps.

#[local] Opaque record.encode record.decode record.decode_header.

(** * File names *)

Lemma wal_not_temp id stem : wal_file_name id ≠ temp_name stem.
Proof. unfold wal_file_name, temp_name. intros E. apply (f_equal last) in E. rewrite !last_app in E. by vm_compute in E. Qed.
Lemma wal_not_sst i j : wal_file_name i ≠ sst_file_name j.
Proof. unfold wal_file_name, sst_file_name. intros E. apply (f_equal last) in E. rewrite !last_app in E. by vm_compute in E. Qed.
Lemma wal_not_manifest id : wal_file_name id ≠ kManifestName.
Proof. unfold wal_file_name. intros E. apply (f_equal last) in E. rewrite last_app in E. by vm_compute in E. Qed.
Lemma manifest_not_temp stem : kManifestName ≠ temp_name stem.
Proof. unfold temp_name. intros E. apply (f_equal last) in E. rewrite last_app in E. by vm_compute in E. Qed.
Lemma manifest_not_sst id : kManifestName ≠ sst_file_name id.
Proof. intros E. symmetry in E. by apply sst_not_manifest in E. Qed.
Lemma wal_file_name_inj i j : valid_id i → valid_id j → wal_file_name i = wal_file_name j → i = j.
Proof. intros Hi Hj E. pose proof (parse_wal_name i Hi) as E1. rewrite E, parse_wal_name in E1 by done. congruence. Qed.

(** Everything but temporary files and tables outside [ids] is as it was. *)
Definition spares (ids : list Z) (fs fs' : gmap bytes file) : Prop :=
  ∀ name, (∀ stem, name ≠ temp_name stem) → (∀ id, valid_id id → id ∉ ids → name ≠ sst_file_name id) →
    fs' !! name = fs !! name.

#[export] Instance spares_preorder ids : PreOrder (spares ids).
Proof. split; [by intros fs name|]. intros f1 f2 f3 H1 H2 name Ht Hn. by rewrite H2, H1. Qed.

Lemma spares_fresh ids n w w' : fresh_files n w w' → Forall (λ id, id < n) ids → spares ids (w_files w) (w_files w').
Proof.
  intros Hf Hall name Ht Hn. apply Hf; [done|]. intros id Hle Hv. apply Hn; [done|]. intros Hin.
  rewrite Forall_forall in Hall. specialize (Hall id Hin). lia.
Qed.

Lemma spares_temp ids w w' : temp_only w w' → spares ids (w_files w) (w_files w').
Proof. intros Ht name Hn _. by apply Ht. Qed.

Section Spared.
Context (ids : list Z) (fs fs' : gmap bytes file) (Hsp : spares ids fs fs').

Lemma spares_wal id : fs' !! wal_file_name id = fs !! wal_file_name id.
Proof. apply Hsp; [apply wal_not_temp|]. intros j _ _. apply wal_not_sst. Qed.
Lemma spares_manifest : fs' !! kManifestName = fs !! kManifestName.
Proof. apply Hsp; [apply manifest_not_temp|]. intros j _ _. apply manifest_not_sst. Qed.
Lemma spares_sst id : valid_id id → id ∈ ids → fs' !! sst_file_name id = fs !! sst_file_name id.
Proof. intros Hid Hin. apply Hsp; [apply sst_not_temp|]. intros j Hj Hno E%sst_file_name_inj; [|done|done]. congruence. Qed.
Lemma spares_parsed name id : parse_wal_file_id name = Some id → fs' !! name = fs !! name.
Proof.
  intros Hp. apply Hsp.
  - intros stem ->. by rewrite parse_wal_temp in Hp.
  - intros j Hj _ ->. by rewrite parse_wal_sst in Hp.
Qed.
End Spared.

Section Durable.
Context `{Platform}.

(** * The directory *)

Definition meta_entries (c : Z → list entry) (m : manifest.TableMeta) : list entry := c (manifest.tm_id m).
Definition disk_view (c : Z → list entry) (metas : list (list manifest.TableMeta)) : gmap bytes MemEntry :=
  as_map (concat (meta_entries c <$> concat metas)).

(** The tables the manifest names. *)
Record tables_stored (c : Z → list entry) (metas : list (list manifest.TableMeta)) (n : Z) (fs : gmap bytes file) : Prop := {
  ts_each : ∀ m, m ∈ concat metas → stored_at fs (manifest.tm_id m) (meta_entries c m) ∧ describes m (meta_entries c m) ∧
    meta_entries c m ≠ [] ∧ valid_id (manifest.tm_id m) ∧ manifest.tm_id m < n;
  ts_ids : NoDup (manifest.tm_id <$> concat metas);
  ts_runs : Forall (λ l, ksorted (concat (meta_entries c <$> l))) (tail metas);
  ts_depth : sz metas ≤ kDepthLimit;
}.

(** The manifest, or the directory of a database that was never opened. *)
Definition manifest_names (metas : list (list manifest.TableMeta)) (n : Z) (fs : gmap bytes file) : Prop :=
  manifest_file fs (manifest.mkLevelSet n metas) ∧ manifest.set_ok (manifest.mkLevelSet n metas) ∧ kFirstFileId ≤ n ∨
  fs !! kManifestName = None ∧ metas = [] ∧ n = kFirstFileId ∧
    (∀ name id, parse_sst_file_id name = Some id → fs !! name = None) ∧
    (∀ name id, parse_wal_file_id name = Some id → fs !! name = None).

(** A log with its writes, the last of them perhaps cut short. *)
Definition log_stored (fs : gmap bytes file) (l : Z * list write) : Prop :=
  valid_id l.1 ∧ l.1 < UINT32_MAX ∧ Forall valid_write l.2 ∧
  ∃ f tl, fs !! wal_file_name l.1 = Some f ∧ f_data f = log_of l.2 ++ tl ∧ torn tl.

Record durable (c : Z → list entry) (metas : list (list manifest.TableMeta)) (n : Z) (logs : list (Z * list write))
    (fs : gmap bytes file) : Prop := {
  du_manifest : manifest_names metas n fs;
  du_tables : tables_stored c metas n fs;
  du_order : StronglySorted Z.lt logs.*1;
  du_logs : Forall (log_stored fs) logs;
  du_only : ∀ name id, is_Some (fs !! name) → parse_wal_file_id name = Some id → name = wal_file_name id ∧ id ∈ logs.*1;
}.

(** The database a directory holds. *)
Definition recovered (c : Z → list entry) (metas : list (list manifest.TableMeta)) (logs : list (Z * list write)) :
    gmap bytes bytes := live (written (concat logs.*2) ∪ disk_view c metas).

Definition recoverable (fs : gmap bytes file) (db : gmap bytes bytes) : Prop :=
  ∃ c metas n logs, durable c metas n logs fs ∧ recovered c metas logs = db.

(** ** What it depends on *)

Lemma tables_stored_spared c metas n fs fs' : tables_stored c metas n fs →
  spares (manifest.tm_id <$> concat metas) fs fs' → tables_stored c metas n fs'.
Proof.
  intros [H1 H2 H3 H4] Hsp. split; [|done..]. intros m Hm. destruct (H1 m Hm) as (Hst & Hrest & Hne & Hid & Hn).
  split_and!; [|done..]. eapply stored_at_files; [done|]. eapply spares_sst; [done|done|]. by apply list_elem_of_fmap_2.
Qed.

Lemma durable_spared c metas n logs fs fs' : durable c metas n logs fs →
  spares (manifest.tm_id <$> concat metas) fs fs' →
  (fs !! kManifestName = None → ∀ name id, parse_sst_file_id name = Some id → fs' !! name = fs !! name) →
  durable c metas n logs fs'.
Proof.
  intros [Hm Ht Ho Hl Honly] Hsp Hnone. split; [|by eapply tables_stored_spared|done|..].
  - destruct Hm as [(Hf & Hok & Hn)|(Hno & -> & -> & Hs & Hw)]; [left|right].
    + split; [|done]. destruct Hf as (f & Hf & Hd). exists f. by rewrite (spares_manifest _ _ _ Hsp).
    + split_and!; [by rewrite (spares_manifest _ _ _ Hsp)|done|done| |].
      * intros name id Hp. rewrite (Hnone Hno name id Hp). by eapply Hs.
      * intros name id Hp. rewrite (spares_parsed _ _ _ Hsp name id Hp). by eapply Hw.
  - eapply Forall_impl; [exact Hl|]. intros l (Hi & Hx & Hv & f & tl & Hf & Hd). split_and!; [done|done|done|].
    exists f, tl. by rewrite (spares_wal _ _ _ Hsp).
  - intros name id Hin Hp. eapply Honly; [|done]. by rewrite <-(spares_parsed _ _ _ Hsp name id Hp).
Qed.
End Durable.

(** * The engine *)

(** Options the engine is meant to run with. *)
Record sane (o : LsmOptions) : Prop := {
  so_fail : lo_fail_at o = FpNone;
  so_block : lo_block_size o ≠ 0;
  so_mem : 0 < lo_memtable_size o;
  so_trigger : 1 ≤ lo_l0_compaction_trigger o;
  so_levels : lo_max_levels o ≤ kDepthLimit;
}.

Section Serve.
Context `{Platform}.

(** * The tables *)

(** What the manifest says of a table is true of it. *)
Definition alike (m : manifest.TableMeta) (t : SSTable) : Prop :=
  manifest.tm_id m = t_id t ∧ manifest.tm_entry_count m = sstable.ft_entry_count (t_footer t) ∧
  manifest.tm_min_key m = t_min_key t ∧ manifest.tm_max_key m = t_max_key t.

Definition names_levels (fs : gmap bytes file) (levels : Levels) (n : Z) : Prop :=
  ∃ metas, manifest_file fs (manifest.mkLevelSet n metas) ∧ manifest.set_ok (manifest.mkLevelSet n metas) ∧
    Forall2 (Forall2 alike) metas levels.

Record tables_ok (c : Z → list entry) (levels : Levels) (n : Z) (w : World) : Prop := {
  tk_levels : levels_ok c levels;
  tk_disk : Forall (on_disk c w) (concat levels);
  tk_stored : Forall (λ t, stored_at (w_files w) (t_id t) (c (t_id t))) (concat levels);
  tk_ids : Forall (λ t, valid_id (t_id t) ∧ t_id t < n) (concat levels);
  tk_next : kFirstFileId ≤ n ≤ UINT32_MAX;
  tk_manifest : ∃ m, kFirstFileId ≤ m ≤ n ∧ Forall (λ t, t_id t < m) (concat levels) ∧ names_levels (w_files w) levels m;
  tk_depth : sz levels ≤ kDepthLimit;
}.

(** A manifest just written. *)
Lemma names_written c w levels n fs : manifest_file fs (level_set_of levels n) → levels_ok c levels →
  Forall (on_disk c w) (concat levels) → Forall (λ t, valid_id (t_id t)) (concat levels) → sz levels ≤ kDepthLimit →
  0 ≤ n ≤ UINT32_MAX → names_levels fs levels n.
Proof.
  intros Hf Hl Hd Hi Hdep Hn. exists (map (map meta_of) levels). split_and!; [done| |].
  - apply (level_set_ok c w); [done|by eapply lv_ids|done|unfold kDepthLimit, UINT32_MAX in *; lia|done].
  - clear. induction levels as [|l levels IH]; cbn; constructor; [|done]. induction l as [|t l IHl]; cbn; by constructor.
Qed.

Lemma alike_concat metas levels : Forall2 (Forall2 alike) metas levels → Forall2 alike (concat metas) (concat levels).
Proof. induction 1; cbn; [constructor|by apply Forall2_app]. Qed.

Lemma alike_ids metas ts : Forall2 alike metas ts → manifest.tm_id <$> metas = t_id <$> ts.
Proof. induction 1 as [|m t metas ts [E _] _ IH]; csimpl; [done|]. by rewrite E, IH. Qed.

Lemma alike_entries c metas ts : Forall2 alike metas ts → meta_entries c <$> metas = entries_of c <$> ts.
Proof. induction 1 as [|m t metas ts [E _] _ IH]; csimpl; [done|]. rewrite IH. f_equal. unfold meta_entries, entries_of. by rewrite E. Qed.

Lemma on_disk_describes c w t : on_disk c w t → describes (meta_of t) (entries_of c t).
Proof.
  intros ((bs & Ht & E) & _). unfold describes. cbn. rewrite <-E.
  split_and!; [by eapply ht_count|by eapply ht_min|by eapply ht_max].
Qed.

(** The directory of a running engine can be recovered. *)
Lemma tables_ok_stored c levels n w : tables_ok c levels n w →
  ∃ m metas, manifest_names metas m (w_files w) ∧ tables_stored c metas m (w_files w) ∧ disk_view c metas = view c levels.
Proof.
  intros [Hl Hd Hs Hi Hn (m & Hm & Him & metas & Hf & Hok & Hal) Hdep]. exists m, metas.
  pose proof (alike_concat _ _ Hal) as Hac. split_and!.
  - left. split_and!; [done|done|lia].
  - split.
    + intros m' Hm'. destruct (list_elem_of_lookup_1 _ _ Hm') as [i Him']. destruct (Forall2_lookup_l _ _ _ _ _ Hac Him') as (t & Ht & E1 & E2 & E3 & E4).
      apply list_elem_of_lookup_2 in Ht. rewrite Forall_forall in Hd. rewrite Forall_forall in Hs.
      rewrite Forall_forall in Hi. rewrite Forall_forall in Him. destruct (Hi t Ht). pose proof (Hd t Ht) as Hdt.
      unfold meta_entries, describes. rewrite E1, E2, E3, E4. split_and!; [by apply Hs|apply (on_disk_describes c w t Hdt)..| |done|by apply Him].
      by destruct Hdt as (_ & ? & _).
    + rewrite (alike_ids _ _ Hac). by eapply lv_ids.
    + pose proof (lv_runs _ _ Hl) as Hr. destruct Hal as [|l0 t0 metas levels _ Hal]; [constructor|]. cbn in *.
      clear -Hr Hal. induction Hal as [|l ts metas levels Hl Hal IH]; [constructor|]. apply Forall_cons in Hr as [H1 H2].
      constructor; [|by apply IH]. by rewrite (alike_entries c _ _ Hl).
    + unfold sz in *. by rewrite (Forall2_length _ _ _ Hal).
  - unfold disk_view, view, run_of. by rewrite (alike_entries c _ _ Hac).
Qed.

(** ** What it depends on *)

Lemma tables_ok_files c levels n n' w w' : tables_ok c levels n w → n ≤ n' ≤ UINT32_MAX →
  (∀ t, t ∈ concat levels → w_files w' !! sst_file_name (t_id t) = w_files w !! sst_file_name (t_id t)) →
  w_files w' !! kManifestName = w_files w !! kManifestName → tables_ok c levels n' w'.
Proof.
  intros [Hl Hd Hs Hi Hn (m & Hm & Him & metas & (f & Hf & Hfd) & Hrest) Hdep] Hn' Hst Hman. split; [done| | | |lia| |done].
  - rewrite Forall_forall in *. intros t Ht. eapply on_disk_files; [by apply Hd|by apply Hst].
  - rewrite Forall_forall in *. intros t Ht. eapply stored_at_files; [by apply Hs|by apply Hst].
  - eapply Forall_impl; [exact Hi|]. cbn. intros t [??]. split; [done|lia].
  - exists m. split_and!; [lia|lia|done|]. exists metas. split; [|done]. exists f. by rewrite Hman.
Qed.

Lemma tables_ok_spared c levels n n' w w' : tables_ok c levels n w → n ≤ n' ≤ UINT32_MAX →
  spares (t_id <$> concat levels) (w_files w) (w_files w') → tables_ok c levels n' w'.
Proof.
  intros Ht Hn Hsp. eapply tables_ok_files; [done|done| |by eapply spares_manifest].
  intros t Hin. eapply spares_sst; [done| |by apply list_elem_of_fmap_2].
  pose proof (tk_ids _ _ _ _ Ht) as Hi. rewrite Forall_forall in Hi. by apply Hi.
Qed.

(** * The logs *)

(** The writes of the frozen memtable, if there is one, and of the active one. *)
Definition log_list (xs : list write) (imm : option (list write)) (st : LsmStore) : list (Z * list write) :=
  match imm with Some ys => [(st_imm_wal_id st, ys)] | None => [] end ++ [(st_wal_id st, xs)].

Record logs_ok (xs : list write) (imm : option (list write)) (st : LsmStore) (fs : gmap bytes file) : Prop := {
  lg_wal : ∃ wal, st_wal st = Some wal ∧ (∀ w, w_files w = fs → holds_log wal w xs) ∧
    lf_path (wal_file wal) = wal_file_name (st_wal_id st);
  lg_id : valid_id (st_wal_id st) ∧ st_wal_id st < st_next_id st;
  lg_imm : ∀ ys, imm = Some ys → Forall valid_write ys ∧ valid_id (st_imm_wal_id st) ∧ st_imm_wal_id st < st_wal_id st ∧
    ∃ f, fs !! wal_file_name (st_imm_wal_id st) = Some f ∧ f_data f = log_of ys;
  lg_only : ∀ name id, is_Some (fs !! name) → parse_wal_file_id name = Some id →
    name = wal_file_name id ∧ id ∈ (log_list xs imm st).*1;
}.

Lemma torn_nil : torn [].
Proof. by left. Qed.

Lemma logs_ok_valid xs imm st fs : logs_ok xs imm st fs → Forall valid_write xs.
Proof. intros [(wal & _ & Hh & _) _ _ _]. by destruct (Hh (mkWorld fs [] []) eq_refl) as [? _]. Qed.

Lemma logs_ok_stored xs imm st fs : logs_ok xs imm st fs → st_next_id st ≤ UINT32_MAX →
  Forall (log_stored fs) (log_list xs imm st) ∧ StronglySorted Z.lt (log_list xs imm st).*1.
Proof.
  intros [(wal & Ew & Hh & Hp) [Hid Hlt] Himm _] Hn. destruct (Hh (mkWorld fs [] []) eq_refl) as (Hv & f & _ & Hf & Hd & _).
  rewrite app_nil_r in Hd. cbn in Hf. rewrite Hp in Hf.
  assert (Hx : log_stored fs (st_wal_id st, xs)).
  { split_and!; [done|cbn; lia|done|]. exists f, []. rewrite app_nil_r. split_and!; [done|done|apply torn_nil]. }
  unfold log_list. destruct imm as [ys|]; cbn; [|split; [by constructor|by repeat constructor]].
  destruct (Himm ys eq_refl) as (Hvy & Hiy & Hlty & g & Hg & Hgd). split.
  - constructor; [|by constructor]. split_and!; [done|cbn; lia|done|]. exists g, []. rewrite app_nil_r.
    split_and!; [done|done|apply torn_nil].
  - repeat constructor. done.
Qed.

(** * The engine *)

(** Versions readers hold, and tables that wait for them. *)
Record pins_ok (c : Z → list entry) (st : LsmStore) (w : World) : Prop := {
  pn_pins : Forall (λ p, levels_ok c p ∧ Forall (on_disk c w) (concat p) ∧
    Forall (λ t, valid_id (t_id t) ∧ t_id t < st_next_id st) (concat p)) (st_pins st);
  pn_obsolete : Forall (λ t, valid_id (t_id t) ∧ t_id t < st_next_id st ∧ t_path t = sst_file_name (t_id t) ∧
    t_id t ∉ t_id <$> concat (st_levels st)) (st_obsolete st);
}.

(** The frozen memtable waits for a table of its own. *)
Definition flush_ok (imm : option (list write)) (st : LsmStore) : Prop :=
  ∀ ys, imm = Some ys → ys ≠ [] ∧ valid_id (st_imm_table_id st) ∧ st_imm_table_id st < st_next_id st ∧
    (∀ p, p ∈ st_levels st :: st_pins st → st_imm_table_id st ∉ t_id <$> concat p) ∧
    st_imm_table_id st ∉ t_id <$> st_obsolete st.

Record serving (c : Z → list entry) (xs : list write) (imm : option (list write)) (st : LsmStore) (w : World) : Prop := {
  sv_sane : sane (st_options st);
  sv_stats : in_range (st_stats st);
  sv_flags : st_stopping st = false;
  sv_mem : st_mem st = mem_of xs;
  sv_imm : st_imm st = mem_of <$> imm;
  sv_current : st_current st = st_levels st;
  sv_tables : tables_ok c (st_levels st) (st_next_id st) w;
  sv_logs : logs_ok xs imm st (w_files w);
  sv_flush : flush_ok imm st;
  sv_pins : pins_ok c st w;
}.

(** The map it serves. *)
Definition state_map (c : Z → list entry) (xs : list write) (imm : option (list write)) (levels : Levels) : gmap bytes MemEntry :=
  written xs ∪ (from_option written ∅ imm ∪ view c levels).
Definition database (c : Z → list entry) (xs : list write) (imm : option (list write)) (st : LsmStore) : gmap bytes bytes :=
  live (state_map c xs imm (st_levels st)).

Lemma log_list_written xs imm st : written (concat (log_list xs imm st).*2) = written xs ∪ from_option written ∅ imm.
Proof.
  unfold log_list. destruct imm as [ys|]; cbn; rewrite app_nil_r; [by rewrite written_app|by rewrite map_union_empty].
Qed.

Lemma serving_durable c xs imm st w : serving c xs imm st w →
  ∃ m metas, durable c metas m (log_list xs imm st) (w_files w) ∧ disk_view c metas = view c (st_levels st).
Proof.
  intros [_ _ _ _ _ _ Ht Hl _ _]. destruct (tables_ok_stored _ _ _ _ Ht) as (m & metas & Hm & Hts & Hv). exists m, metas. split; [|done].
  destruct (logs_ok_stored _ _ _ _ Hl) as [H1 H2]; [by apply (tk_next _ _ _ _ Ht)|].
  split; try done. by eapply lg_only.
Qed.

Lemma serving_recoverable c xs imm st w : serving c xs imm st w → recoverable (w_files w) (database c xs imm st).
Proof.
  intros Hs. destruct (serving_durable _ _ _ _ _ Hs) as (m & metas & Hd & Hv). eexists _, _, _, _. split; [exact Hd|].
  unfold recovered, database, state_map. by rewrite log_list_written, Hv, map_union_assoc.
Qed.

(** ** What the invariant depends on *)

Lemma logs_ok_files xs imm st fs fs' : logs_ok xs imm st fs →
  (∀ name id, parse_wal_file_id name = Some id → fs' !! name = fs !! name) → logs_ok xs imm st fs'.
Proof.
  intros [(wal & Ew & Hh & Hp) [Hid Hlt] Himm Honly] Hf.
  assert (Hw : ∀ id, valid_id id → fs' !! wal_file_name id = fs !! wal_file_name id).
  { intros id Hv. eapply Hf. by apply parse_wal_name. }
  split; [|done|..].
  - exists wal. split_and!; [done| |done]. intros w <-.
    destruct (Hh (mkWorld fs [] []) eq_refl) as (Hv & f & Ho & Hfl & Hd & He). split; [done|]. exists f.
    split_and!; [done| |done|done]. rewrite Hp in *. by rewrite Hw.
  - intros ys Ey. destruct (Himm ys Ey) as (Hv & Hi & Hl & f & Hfl & Hd). split_and!; [done|done|done|]. exists f. by rewrite Hw.
  - intros name id Hin Hpn. apply Honly; [|done]. by rewrite <-(Hf name id Hpn).
Qed.

(** Fields the logs depend on. *)
Lemma logs_ok_state xs imm st st' fs : logs_ok xs imm st fs → st_wal st' = st_wal st → st_wal_id st' = st_wal_id st →
  st_imm_wal_id st' = st_imm_wal_id st → st_next_id st ≤ st_next_id st' → logs_ok xs imm st' fs.
Proof.
  intros [H1 H2 H3 H4] E1 E2 E3 Hn. split.
  - by rewrite E1, E2.
  - rewrite E2. split; [apply H2|lia].
  - by rewrite E2, E3.
  - unfold log_list in *. by rewrite E2, E3.
Qed.

Lemma pins_ok_files c st w w' : pins_ok c st w →
  (∀ p t, p ∈ st_pins st → t ∈ concat p → w_files w' !! sst_file_name (t_id t) = w_files w !! sst_file_name (t_id t)) →
  pins_ok c st w'.
Proof.
  intros [H1 H2] Hf. split; [|done]. rewrite Forall_forall in H1 |- *. intros p Hp. destruct (H1 p Hp) as (Hl & Hd & Hi).
  split_and!; [done| |done]. rewrite Forall_forall in Hd |- *. intros t Ht. eapply on_disk_files; [by apply Hd|by eapply Hf].
Qed.

Lemma serving_files c xs imm st w w' : serving c xs imm st w →
  (∀ p t, p ∈ st_levels st :: st_pins st → t ∈ concat p →
     w_files w' !! sst_file_name (t_id t) = w_files w !! sst_file_name (t_id t)) →
  w_files w' !! kManifestName = w_files w !! kManifestName →
  (∀ name id, parse_wal_file_id name = Some id → w_files w' !! name = w_files w !! name) →
  serving c xs imm st w'.
Proof.
  intros [H1 H2 H3 H4 H5 H6 H7 H8 H9 H10] Hsst Hman Hwal. split; try done.
  - pose proof (tk_next _ _ _ _ H7). eapply tables_ok_files; [done|lia| |done]. intros t Ht. eapply (Hsst (st_levels st)); [by left|done].
  - by eapply logs_ok_files.
  - eapply pins_ok_files; [done|]. intros p t Hp Ht. eapply (Hsst p); [by right|done].
Qed.

Lemma serving_same c xs imm st w w' : serving c xs imm st w → same_files w w' → serving c xs imm st w'.
Proof. intros Hs [E _]. eapply serving_files; [done|..]; intros; by rewrite E. Qed.

Lemma serving_counting c xs imm st st' w : serving c xs imm st w → counting st st' → serving c xs imm st' w.
Proof. intros [H1 H2 H3 H4 H5 H6 H7 H8 H9 H10] (s & -> & Hs). split; try done; [by eapply logs_ok_state|by destruct H10]. Qed.

Lemma database_counting c xs imm st st' : counting st st' → database c xs imm st' = database c xs imm st.
Proof. by intros (s & -> & _). Qed.
End Serve.
