(* ===== verification/LsmReads.v ===== *)
(** Reads of a running engine: lookups, scans, the tables they keep alive, and cursors, which
    show the live keys of their range as they were when they were opened, whatever the engine
    does meanwhile. *)

From S2P Require Import Prelude Status FileNames World Wp Encoding Record SortedMap Memtable SSTableFormat LogFile MappedFile.
From S2P Require Import Manifest LogScan SSTableLayout LsmStats SSTable SSTableBuild SSTableRead SSTableOpen Iterator IteratorSource IteratorMerge IteratorTables.
From S2P Require Import Wal LsmState LsmCompact Lsm LsmLevels LsmGet LsmDisk LsmPick LsmMerge LsmCommit.
From S2P Require Import LsmServe.
Import sstable LsmState LsmCompact LsmOps WalOps MergingOps.

#[local] Opaque record.encode record.decode record.decode_header.

Section Reads.
Context `{Platform}.

(** * Tables nobody refers to *)

Lemma wp_destroy {S} t (s : S) w :
  wp (SSTableOps.destroy true t) s w (λ _ s' w', s' = s ∧ touched (t_path t) w w') (λ _ _ _, False) (touched (t_path t) w).
Proof.
  assert (Hclose : ∀ (s : S) w1, touched (t_path t) w w1 →
    wp (_ ← attempt (with_local (t_file t) LogFileOps.close); _ ← platform.remove (t_path t); mret tt) s w1
      (λ _ s' w', s' = s ∧ touched (t_path t) w w') (λ _ _ _, False) (touched (t_path t) w)).
  { intros s0 w1 Ht1.
    assert (Hrm : ∀ w2, touched (t_path t) w w2 → wp (_ ← platform.remove (t_path t); mret tt) s0 w2
      (λ _ s' w', s' = s0 ∧ touched (t_path t) w w') (λ _ _ _, False) (touched (t_path t) w)).
    { intros w2 Ht2. wp_call wp_remove. intros ec s1 w3 _ (-> & [(_ & Hfs & _)|(_ & _ & Hsf)]); apply wp_ret; (split; [done|]).
      - etrans; [exact Ht2|]. intros name Hne. by rewrite Hfs, lookup_delete_ne.
      - etrans; [exact Ht2|by apply touched_same]. }
    assert (Hcl : wp LogFileOps.close (t_file t) w1 (λ _ _ w', same_files w1 w') (λ _ _ w', same_files w1 w') (same_files w1)).
    { destruct (lf_open (t_file t)) eqn:Eo.
      - eapply wp_mono; [by apply LogFileOps.wp_close|..]; cbn beta; [naive_solver|naive_solver|done].
      - unfold LogFileOps.close. wp_pure. rewrite Eo. cbn [negb]. by apply wp_ret. }
    eapply wp_bind_attempt_local; [exact Hcl|..]; cbn beta.
    - intros _ l w2 _ Hsf. apply Hrm. etrans; [exact Ht1|by apply touched_same].
    - intros e l w2 _ Hsf. apply Hrm. etrans; [exact Ht1|by apply touched_same].
    - intros w2 _ Hsf. etrans; [exact Ht1|by apply touched_same]. }
  unfold SSTableOps.destroy. destruct (t_mapping t) as [m|]; wp_pure; [|by apply Hclose].
  assert (Hm : wp MappedFileOps.close m w (λ _ _ w', same_files w w') (λ _ _ w', same_files w w') (same_files w)).
  { unfold MappedFileOps.close. wp_pure. destruct (mf_data m); [|by apply wp_ret]. wp_call wp_unmap.
    intros rc s1 w1 _ (-> & Hsf & _). wp_pure. destruct (negb _); [by apply wp_fail|by apply wp_ret]. }
  eapply wp_bind_attempt_local; [exact Hm|..]; cbn beta.
  - intros _ m' w1 _ Hsf. wp_pure. apply Hclose. by apply touched_same.
  - intros e m' w1 _ Hsf. wp_pure. apply Hclose. by apply touched_same.
  - intros w1 _ Hsf. by apply touched_same.
Qed.

(** Only the files of these tables may have changed. *)
Definition dropped (ts : list SSTable) (w w' : World) : Prop :=
  ∀ name, (∀ t, t ∈ ts → name ≠ t_path t) → w_files w' !! name = w_files w !! name.

Lemma wp_destroy_all ts : ∀ st w,
  wp (destroy_all ts) st w (λ _ st' w', st' = st ∧ dropped ts w w') (λ _ _ _, False) (dropped ts w).
Proof.
  induction ts as [|t ts IH]; intros st w; cbn [destroy_all]; [by apply wp_ret|].
  assert (Ht : ∀ w1, touched (t_path t) w w1 → dropped (t :: ts) w w1).
  { intros w1 Ht name Hn. apply Ht, Hn. by left. }
  assert (Hts : ∀ w1 w2, touched (t_path t) w w1 → dropped ts w1 w2 → dropped (t :: ts) w w2).
  { intros w1 w2 Ht1 Hd name Hn. rewrite Hd; [by apply Ht|]. intros t' Ht'. apply Hn. by right. }
  wp_call (wp_destroy t st w); [|auto]. intros _ s1 w1 _ (-> & Ht1).
  eapply wp_mono; [apply IH|..]; cbn beta; [|done|].
  - intros _ st2 w2 _ (-> & Hd). split; [done|]. by eapply Hts.
  - intros w2 _ Hd. by eapply Hts.
Qed.

Lemma referenced_spec st t : referenced st t = false →
  ∀ p, p ∈ st_levels st :: st_current st :: st_pins st → t_id t ∉ t_id <$> concat p.
Proof.
  unfold referenced. intros Hr p Hp (t' & E & Ht')%list_elem_of_fmap.
  assert (existsb (λ levels, existsb (λ x, t_id x =? t_id t) (concat levels)) (st_levels st :: st_current st :: st_pins st) = true); [|congruence].
  apply existsb_exists. exists p. split; [by apply list_elem_of_In|]. apply existsb_exists. exists t'.
  split; [by apply list_elem_of_In|]. apply Z.eqb_eq. done.
Qed.

(** Destroying unreferenced tables leaves what a state refers to. *)
Lemma serving_dropped c xs imm st w ts w' : serving c xs imm st w → dropped ts w w' →
  (∀ t, t ∈ ts → t_path t = sst_file_name (t_id t) ∧ valid_id (t_id t) ∧
     ∀ p, p ∈ st_levels st :: st_pins st → t_id t ∉ t_id <$> concat p) →
  serving c xs imm st w'.
Proof.
  intros Hs Hd Hts. eapply serving_files; [done|..].
  - intros p t Hp Ht. apply Hd. intros t' Ht'. destruct (Hts t' Ht') as (-> & Hv & Hno). intros E%sst_file_name_inj; [| |done].
    + apply (Hno p Hp). rewrite <-E. by apply list_elem_of_fmap_2.
    + destruct Hs as [_ _ _ _ _ _ Htab _ _ Hpins]. apply elem_of_cons in Hp as [->|Hp].
      * pose proof (tk_ids _ _ _ _ Htab) as Hi. rewrite Forall_forall in Hi. by apply Hi.
      * pose proof (pn_pins _ _ _ Hpins) as Hi. rewrite Forall_forall in Hi. destruct (Hi p Hp) as (_ & _ & Hi').
        rewrite Forall_forall in Hi'. by apply Hi'.
  - apply Hd. intros t' Ht'. destruct (Hts t' Ht') as (-> & _). apply manifest_not_sst.
  - intros name id Hp. apply Hd. intros t' Ht' ->. destruct (Hts t' Ht') as (E & _). by rewrite E, parse_wal_sst in Hp.
Qed.

(** What readers hold is left alone. *)
Definition steady (st st' : LsmStore) (w w' : World) : Prop :=
  st_pins st' = st_pins st ∧
  ∀ p t, p ∈ st_pins st → t ∈ concat p → w_files w' !! sst_file_name (t_id t) = w_files w !! sst_file_name (t_id t).

Lemma steady_trans st1 st2 st3 w1 w2 w3 : steady st1 st2 w1 w2 → steady st2 st3 w2 w3 → steady st1 st3 w1 w3.
Proof.
  intros [E1 H1] [E2 H2]. split; [congruence|]. intros p t Hp Ht. rewrite (H2 p t); [by apply (H1 p t)|by rewrite E1|done].
Qed.

Lemma steady_same st st' w w' : st_pins st' = st_pins st → same_files w w' → steady st st' w w'.
Proof. intros E [Hf _]. split; [done|]. intros p t _ _. by rewrite Hf. Qed.

(** Dead tables, before and after they are destroyed. *)
Definition dead (st : LsmStore) : list SSTable := filter (λ t, referenced st t = false) (st_obsolete st).
Definition swept (st : LsmStore) : LsmStore := st_set_obsolete (filter (λ t, referenced st t = true) (st_obsolete st)) st.

Lemma serving_swept c xs imm st w : serving c xs imm st w → serving c xs imm (swept st) w.
Proof.
  intros [H1 H2 H3 H4 H5 H6 H7 H8 H9 H10]. split; try done.
  - by eapply logs_ok_state.
  - intros ys Ey. destruct (H9 ys Ey) as (? & ? & ? & ? & Hno). split_and!; try done.
    intros (t & E & [_ Ht]%list_elem_of_filter)%list_elem_of_fmap. cbn in E. apply Hno. rewrite E. by apply list_elem_of_fmap_2.
  - destruct H10 as [Hp Ho]. split; [done|]. cbn. rewrite Forall_forall in Ho |- *. intros t [_ Ht]%list_elem_of_filter. by apply Ho.
Qed.

Lemma dead_facts c xs imm st w : serving c xs imm st w → ∀ t, t ∈ dead st → t_path t = sst_file_name (t_id t) ∧ valid_id (t_id t) ∧
  ∀ p, p ∈ st_levels st :: st_pins st → t_id t ∉ t_id <$> concat p.
Proof.
  intros Hs t [Hr Ht]%list_elem_of_filter. pose proof (pn_obsolete _ _ _ (sv_pins _ _ _ _ _ Hs)) as Ho.
  rewrite Forall_forall in Ho. destruct (Ho t Ht) as (Hv & _ & Hp & _). split_and!; [done|done|].
  intros p Hin. apply (referenced_spec st t Hr). apply elem_of_cons in Hin as [->|?]; [by left|by do 2 right].
Qed.

Lemma dropped_steady c xs imm st w w' : serving c xs imm st w → dropped (dead st) w w' → steady st (swept st) w w'.
Proof.
  intros Hs Hd. split; [done|]. intros p t Hp Ht. apply Hd. intros t' Ht'.
  destruct (dead_facts _ _ _ _ _ Hs t' Ht') as (-> & Hv & Hno). intros E%sst_file_name_inj; [|..|done].
  - apply (Hno p); [by right|]. rewrite <-E. by apply list_elem_of_fmap_2.
  - pose proof (pn_pins _ _ _ (sv_pins _ _ _ _ _ Hs)) as Hpn. rewrite Forall_forall in Hpn. destruct (Hpn p Hp) as (_ & _ & Hi).
    rewrite Forall_forall in Hi. by apply Hi.
Qed.

Lemma wp_collect c xs imm st w : serving c xs imm st w →
  wp collect st w (λ _ st' w', st' = swept st ∧ serving c xs imm st' w' ∧ steady st st' w w') (λ _ _ _, False)
    (λ w', serving c xs imm st w').
Proof.
  intros Hs. unfold collect. wp_pure. fold (dead st). fold (swept st).
  eapply wp_mono; [apply wp_destroy_all|..]; cbn beta; [|done|].
  - intros _ st' w' _ (-> & Hd). split_and!; [done| |by eapply dropped_steady].
    eapply serving_swept, serving_dropped; [done|exact Hd|by eapply dead_facts].
  - intros w' _ Hd. eapply serving_dropped; [done|exact Hd|by eapply dead_facts].
Qed.

(** * Versions *)

Definition pinned (st : LsmStore) : LsmStore := st_set_pins (st_current st :: st_pins st) st.

Lemma serving_pinned c xs imm st w : serving c xs imm st w → serving c xs imm (pinned st) w.
Proof.
  intros [H1 H2 H3 H4 H5 H6 H7 H8 H9 H10]. split; try done.
  - by eapply logs_ok_state.
  - intros ys Ey. destruct (H9 ys Ey) as (? & ? & ? & Hno & ?). split_and!; try done.
    cbn. rewrite H6. intros p Hp. apply Hno. apply elem_of_cons in Hp as [->|Hp]; [by left|done].
  - destruct H10 as [Hp Ho]. split; [|done]. cbn. constructor; [|done]. rewrite H6. destruct H7. done.
Qed.

Lemma serving_unpinned c xs imm st w pins : serving c xs imm st w → pins `sublist_of` st_pins st →
  serving c xs imm (st_set_pins pins st) w.
Proof.
  intros [H1 H2 H3 H4 H5 H6 H7 H8 H9 H10] Hsub. split; try done.
  - by eapply logs_ok_state.
  - intros ys Ey. destruct (H9 ys Ey) as (? & ? & ? & Hno & ?). split_and!; try done.
    cbn. intros p [->|Hp]%elem_of_cons; apply Hno; [by left|]. right. by eapply elem_of_sublist.
  - destruct H10 as [Hp Ho]. split; [|done]. cbn. rewrite Forall_forall in Hp |- *. intros p Hin. apply Hp. by eapply elem_of_sublist.
Qed.

Lemma remove_pin_sub v pins : remove_pin v pins `sublist_of` pins.
Proof.
  induction pins as [|p pins IH]; cbn; [done|]. destruct (same_ids p v); [by apply sublist_cons|by apply sublist_skip].
Qed.

Lemma same_ids_refl v : same_ids v v = true.
Proof. unfold same_ids. by apply bool_decide_eq_true. Qed.

Lemma wp_unpin_version c xs imm st w v : serving c xs imm st w →
  wp (unpin_version v) st w
    (λ _ st' w', serving c xs imm st' w' ∧ st' = swept (st_set_pins (remove_pin v (st_pins st)) st) ∧
       steady (st_set_pins (remove_pin v (st_pins st)) st) st' w w')
    (λ _ _ _, False) (λ w', serving c xs imm (st_set_pins (remove_pin v (st_pins st)) st) w').
Proof.
  intros Hs. unfold unpin_version. wp_pure. set (st1 := st_set_pins _ st).
  assert (Hs1 : serving c xs imm st1 w) by (apply serving_unpinned; [done|apply remove_pin_sub]).
  eapply wp_mono; [by apply (wp_collect c xs imm st1 w)|..]; cbn beta; [|done|done].
  intros _ st' w' _ (-> & Hs' & Hst). done.
Qed.

(** * Lookups *)

(** No key is empty. *)
Lemma state_map_key c xs imm st w k : serving c xs imm st w → is_Some (state_map c xs imm (st_levels st) !! k) → k ≠ [].
Proof.
  intros Hs. unfold state_map. assert (Hw : ∀ zs, Forall valid_write zs → is_Some (written zs !! k) → k ≠ []).
  { intros zs Hv [x Hx]. apply as_map_elem_1, mem_of_elem in Hx as (z & Hz & [= -> _]). rewrite Forall_forall in Hv.
    by destruct (Hv z Hz) as [[? _] _]. }
  pose proof (sv_logs _ _ _ _ _ Hs) as Hl. intros Hk. rewrite !lookup_union in Hk.
  destruct (written xs !! k) eqn:E1; [eapply Hw; [by eapply logs_ok_valid|by rewrite E1]|].
  destruct (from_option written ∅ imm !! k) eqn:E2.
  { destruct imm as [ys|]; [|done]. eapply (Hw ys); [by apply (lg_imm _ _ _ _ Hl)|by exists m]. }
  rewrite !(left_id None _) in Hk. destruct Hk as [x Hx]. apply as_map_elem_1, elem_of_run in Hx as (t & Ht & He).
  pose proof (tk_disk _ _ _ _ (sv_tables _ _ _ _ _ Hs)) as Hd. rewrite Forall_forall in Hd.
  pose proof (on_disk_fits _ _ _ (Hd t Ht)) as Hf. rewrite Forall_forall in Hf. by destruct (Hf _ He).
Qed.

(** A result a running engine gives and what it leaves. *)
Definition reads (c : Z → list entry) (xs : list write) (imm : option (list write)) (st : LsmStore) (w : World)
    (st' : LsmStore) (w' : World) : Prop :=
  serving c xs imm st' w' ∧ steady st st' w w' ∧ st_levels st' = st_levels st ∧ st_options st' = st_options st ∧
  st_background_busy st' = st_background_busy st.

Lemma wp_entry_answer key e st w (Q : bytes → LsmStore → World → Prop) (E : Status → LsmStore → World → Prop) D :
  (∀ v, live_entry e = Some v → Q v st w) → (live_entry e = None → E (no_such_key key) st w) →
  wp (entry_answer key e) st w Q E D.
Proof.
  unfold entry_answer, live_entry. destruct (me_tombstone e); intros HQ HE; [by apply wp_fail, HE|by apply wp_ret, HQ].
Qed.

Section Lookup.
Context (c : Z → list entry) (xs : list write) (imm : option (list write)) (st : LsmStore) (w : World) (key : bytes).
Hypothesis Hs : serving c xs imm st w.
Hypothesis Hrel : reliable w.

(** The tables are asked when neither memtable has the key. *)
Lemma wp_get_version : state_map c xs imm (st_levels st) !! key = view c (st_levels st) !! key →
  wp (answer ← attempt (get_from_version key (st_current st));
      unpin_version (st_current st);;
      match answer with inl value => mret value | inr e => fail e end) (pinned st) w
    (λ v st' w', reads c xs imm st w st' w' ∧ database c xs imm st !! key = Some v)
    (λ e st' w', reads c xs imm st w st' w' ∧ code_ e = NotFound ∧ database c xs imm st !! key = None)
    (λ w', recoverable (w_files w') (database c xs imm st)).
Proof.
  intros Em. pose proof (serving_pinned _ _ _ _ _ Hs) as Hsp. destruct (sv_tables _ _ _ _ _ Hs) as [Hlv Hd _ _ _ _ _].
  assert (Edb : database c xs imm st !! key = live (view c (st_levels st)) !! key).
  { unfold database. by rewrite !live_lookup, Em. }
  rewrite (sv_current _ _ _ _ _ Hs).
  assert (Hun : ∀ st1 w1, counting (pinned st) st1 → same_files w w1 →
    wp (unpin_version (st_levels st)) st1 w1 (λ _ st' w', reads c xs imm st w st' w') (λ _ _ _, False)
      (λ w', recoverable (w_files w') (database c xs imm st))).
  { intros st1 w1 Hcn Hsf. pose proof (serving_same _ _ _ _ _ _ (serving_counting _ _ _ _ _ _ Hsp Hcn) Hsf) as Hs1.
    destruct Hcn as (s & -> & _). set (st1 := st_set_stats s (pinned st)) in *.
    assert (Epin : remove_pin (st_levels st) (st_pins st1) = st_pins st).
    { cbn. rewrite (sv_current _ _ _ _ _ Hs). by rewrite same_ids_refl. }
    eapply wp_mono; [by apply (wp_unpin_version c xs imm st1 w1)|..]; cbn beta; rewrite ?Epin; [|done|].
    - intros _ st2 w2 _ (Hs2 & -> & Hst). split_and!; [done| |done..].
      eapply (steady_trans st (st_set_pins (st_pins st) st1) _ w w1); [|done]. by apply steady_same.
    - intros w2 _ Hs2. exact (serving_recoverable _ _ _ _ _ Hs2). }
  eapply wp_bind_attempt; [eapply (wp_get_from_version c key (st_levels st) (pinned st) w); [done|done|by destruct Hs]|..]; cbn beta.
  - intros v st1 w1 _ (Hsf & Hp & Hv).
    assert (Hcn : counting (pinned st) st1) by (destruct Hp as (s & -> & [? _]); by exists s).
    wp_call (Hun st1 w1 Hcn Hsf). intros _ st2 w2 _ Hr. apply wp_ret. by rewrite Edb.
  - intros e st1 w1 _ (Hsf & _ & [[? _]|(-> & Hv & Hp)]); [done|].
    assert (Hcn : counting (pinned st) st1) by (destruct Hp as (s & -> & [? _]); by exists s).
    wp_call (Hun st1 w1 Hcn Hsf). intros _ st2 w2 _ Hr. apply wp_fail. by rewrite Edb.
  - intros w1 _ Hsf. eapply serving_recoverable, serving_same; done.
Qed.

End Lookup.

Lemma reads_counting c xs imm st st1 w st' w' : counting st st1 → reads c xs imm st1 w st' w' → reads c xs imm st w st' w'.
Proof. intros (s & -> & _) (Hs & Hst & El & Eo & Eb). by split_and!. Qed.

Lemma wp_get_value c xs imm st w key : serving c xs imm st w → reliable w →
  wp (get_value key) st w
    (λ v st' w', reads c xs imm st w st' w' ∧ database c xs imm st !! key = Some v)
    (λ e st' w', reads c xs imm st w st' w' ∧ code_ e = NotFound ∧ database c xs imm st !! key = None)
    (λ w', recoverable (w_files w') (database c xs imm st)).
Proof.
  intros Hs0 Hrel. unfold get_value. apply wp_bind_bump. set (st1 := st_set_stats _ st).
  assert (Hcn : counting st st1) by (apply counting_bump; by destruct Hs0).
  pose proof (serving_counting _ _ _ _ _ _ Hs0 Hcn) as Hs. rewrite <-(database_counting c xs imm st st1 Hcn).
  assert (Hself : reads c xs imm st w st1 w) by (split_and!; [done|by apply steady_same|done..]).
  set (db := database c xs imm st1). destruct (Z.eqb_spec (sz key) 0) as [E|E].
  { apply wp_fail. split_and!; [done|done|]. apply sz_zero_nil in E as ->. unfold db, database. rewrite live_lookup.
    destruct (state_map c xs imm (st_levels st1) !! []) as [x|] eqn:Ex; [|done].
    by destruct (state_map_key c xs imm st1 w [] Hs); [rewrite Ex|]. }
  assert (Hmem : ∀ e, state_map c xs imm (st_levels st1) !! key = Some e →
    wp (entry_answer key e) st1 w (λ v st' w', reads c xs imm st w st' w' ∧ db !! key = Some v)
      (λ e st' w', reads c xs imm st w st' w' ∧ code_ e = NotFound ∧ db !! key = None)
      (λ w', recoverable (w_files w') db)).
  { intros e He. unfold db, database. rewrite live_lookup, He. by apply wp_entry_answer. }
  pose proof (sv_mem _ _ _ _ _ Hs) as Em. pose proof (sv_imm _ _ _ _ _ Hs) as Ei. unfold get_probe. wp_pure.
  rewrite Em, Ei, MemtableOps.get_contents. fold (written xs). unfold state_map in Hmem.
  destruct (written xs !! key) as [e|] eqn:E1; wp_pure.
  { apply Hmem. by rewrite lookup_union, E1, union_Some_l. }
  assert (E2 : (mem_of <$> imm) ≫= MemtableOps.get key = from_option written ∅ imm !! key).
  { destruct imm as [ys|]; cbn; [|by rewrite lookup_empty]. by rewrite MemtableOps.get_contents. }
  rewrite E2. destruct (from_option written ∅ imm !! key) as [e|] eqn:E3; wp_pure.
  { apply Hmem. by rewrite !lookup_union, E1, E3, (left_id None _), union_Some_l. }
  unfold pin_version. wp_pure. fold (pinned st1).
  eapply wp_mono; [apply (wp_get_version c xs imm st1 w key Hs Hrel)|..]; cbn beta; [|..|done].
  - unfold state_map. by rewrite !lookup_union, E1, E3, !(left_id None _).
  - intros v st' w' _ [Hr Hv]. split; [by eapply reads_counting|done].
  - intros e st' w' _ [Hr Hv]. split; [by eapply reads_counting|done].
Qed.
End Reads.

(** * Cursors *)

Import sstable LsmState LsmCompact LsmOps MergingOps.

(** The rows of a cursor. *)
Definition row (e : entry) : bytes * bytes := (e.1, stored e.2).
Definition rows_of (es : list entry) : list (bytes * bytes) := row <$> visible Skip es.

Lemma rows_sorted es : ksorted es → ksorted (rows_of es).
Proof.
  intros Hs. unfold rows_of. assert (Hk : (row <$> visible Skip es).*1 = (visible Skip es).*1).
  { rewrite <-list_fmap_compose. by apply list_fmap_ext. }
  assert (Hv : ksorted (visible Skip es)) by by apply ksorted_filter. revert Hk Hv. generalize (row <$> visible Skip es).
  generalize (visible Skip es). intros l1. induction l1 as [|[k x] l1 IH]; intros [|[k' x'] l2] Hk Hv; simplify_eq/=; [constructor|].
  apply ksorted_cons in Hv as [Hall Hv]. apply ksorted_cons. split; [|by apply IH].
  apply (Forall_fmap fst (klt k)). rewrite H0. by apply Forall_fmap.
Qed.

Lemma rows_map es : ksorted es → as_map (rows_of es) = live (as_map es).
Proof.
  induction es as [|[k x] es IH]; [by rewrite as_map_nil; unfold live; rewrite omap_empty|].
  intros [Hall Hs]%ksorted_cons. assert (Hnone : as_map es !! k = None) by by apply as_map_none_lt.
  unfold rows_of, live in *. rewrite visible_cons, as_map_cons, orb_false_r. cbn [snd].
  destruct (me_tombstone x) eqn:Et; cbn [negb].
  - rewrite IH, omap_insert_None by (done || (unfold live_entry; by rewrite Et)).
    rewrite delete_id; [done|]. by rewrite lookup_omap, Hnone.
  - csimpl. unfold row at 1. cbn [fst snd]. rewrite as_map_cons, IH by done.
    rewrite omap_insert_Some with (y := stored x); [done|]. unfold live_entry, stored. by rewrite Et.
Qed.

Section Cursor.
Context `{Platform}.

(** A reader takes the row under the cursor and moves on. *)
Definition cursor_next (it : MergingIterator) : M LsmStore (option (bytes * bytes) * MergingIterator) :=
  if mi_valid it then
    next_ ← on_iterator it next;
    mret (Some (mi_key it, mi_value it), next_)
  else mret (None, it).

(** A cursor that still has these rows to show. *)
Definition cursor_ok (it : MergingIterator) (version : Levels) (rows : list (bytes * bytes)) (w : World) : Prop :=
  (∃ es, stepped Skip it w es ∧ rows = rows_of es) ∧
  ∀ t, Some t ∈ iterator_tables it → t ∈ concat version ∧ t_path t = sst_file_name (t_id t).

Lemma cursor_files it version rows w w' : cursor_ok it version rows w →
  (∀ t, t ∈ concat version → w_files w' !! sst_file_name (t_id t) = w_files w !! sst_file_name (t_id t)) →
  cursor_ok it version rows w'.
Proof.
  intros [(es & (Hm & Hok & Hst) & ->) Htab] Hf. split; [|done]. exists es. split; [|done]. split_and!; [done|done|].
  assert (Hmf : ∀ es', merging it w es' → merging it w' es').
  { intros es' Hme. eapply merging_files; [done|]. intros t Ht. destruct (Htab t Ht) as [Hv ->]. by apply Hf. }
  naive_solver.
Qed.

Lemma wp_cursor_next it version rows st w : cursor_ok it version rows w → in_range (st_stats st) → reliable w →
  wp (cursor_next it) st w
    (λ r st' w', same_files w w' ∧ counting st st' ∧ r.1 = head rows ∧ cursor_ok r.2 version (tail rows) w')
    (λ _ _ _, False) (same_files w).
Proof.
  intros [(es & (Hm & Hok & Hst) & ->) Htab] Hs Hrel. unfold cursor_next, rows_of.
  destruct Hst as [(Hv & Hinv & Hme)|(e & es' & Hv & (Hinv & Hk & _ & Hval) & Hme & _)]; rewrite Hv, Hinv.
  - apply wp_ret. split_and!; [done|by apply counting_refl|done|]. split; [|done]. exists [].
    split; [|done]. split_and!; [done|done|]. by left.
  - eapply wp_bind; [apply wp_on_iterator, (wp_keeps same_tables);
      [by eapply (wp_next (st_stats st) it w es')|apply keeps_next]|..]; cbn beta; [|..|done].
    + intros it' st' w' _ (s & -> & (Hsf & Hr & Hst') & Hkeep). cbn [fst snd] in *. apply wp_ret. rewrite Hm in Hst'.
      split_and!; [done|by eexists|cbn; unfold row; by rewrite Hk, Hval|]. split; [by exists es'|].
      unfold same_tables in Hkeep. cbn in *. by rewrite Hkeep.
    + by intros err st' w' _ (s & it' & -> & (_ & _ & Hq & _) & _).
Qed.

(** Opening a cursor. *)
Lemma wp_scan c xs imm st w begin_ end_ : serving c xs imm st w → reliable w →
  wp (scan begin_ end_) st w
    (λ r st' w', serving c xs imm st' w' ∧ same_files w w' ∧ counting (pinned st) st' ∧ r.2 = st_levels st ∧
       ∃ rows, cursor_ok r.1 r.2 rows w' ∧ ksorted rows ∧ as_map rows = ranged begin_ end_ (database c xs imm st))
    (λ _ _ _, False) (λ w', recoverable (w_files w') (database c xs imm st)).
Proof.
  intros Hs Hrel. pose proof (serving_pinned _ _ _ _ _ Hs) as Hsp. unfold scan, scan_snapshot, pin_version. wp_pure. fold (pinned st).
  cbn [fst snd]. rewrite (sv_current _ _ _ _ _ Hs).
  set (mems := st_mem st :: _). assert (Hmems : Forall (λ m, ksorted (map_ m)) mems ∧
    merged (map_ <$> mems) = written xs ∪ from_option written ∅ imm).
  { unfold mems. rewrite (sv_mem _ _ _ _ _ Hs), (sv_imm _ _ _ _ _ Hs). destruct imm as [ys|]; cbn.
    - split; [repeat constructor; apply mem_of_sorted|]. by rewrite map_union_empty.
    - split; [repeat constructor; apply mem_of_sorted|]. done. }
  destruct Hmems as [Hms Emem]. pose proof (tk_disk _ _ _ _ (sv_tables _ _ _ _ _ Hs)) as Hd.
  eapply wp_bind_attempt; [apply (wp_scan_open c begin_ end_ mems (st_levels st) (pinned st) w Hms Hd); by destruct Hs|..]; cbn beta.
  - intros it st' w' _ (Hsf & Hcn & es & Hsort & Hm & Hst & Htab). apply wp_ret. cbn [fst snd].
    split_and!; [eapply serving_same; [by eapply serving_counting|done]|done|done|done|]. exists (rows_of es). split_and!.
    + split; [by exists es|]. intros t Ht. specialize (Htab t Ht). split; [done|]. rewrite Forall_forall in Hd. by destruct (Hd t Htab) as (_ & _ & ?).
    + by apply rows_sorted.
    + rewrite rows_map, Hm, live_ranged by done. unfold database, snapshot_map, state_map. by rewrite Emem, map_union_assoc.
  - by intros e st' w' _ (_ & _ & Hq & _).
  - intros w' _ Hsf. eapply serving_recoverable, serving_same; done.
Qed.
End Cursor.
