(* ===== verification/LsmFlush.v ===== *)
(** Flushing the frozen memtable: its table joins the first level, and only then its
    log goes. *)

From S2P Require Import Prelude Status FileNames World Wp Encoding Record SortedMap Memtable SSTableFormat LogFile Manifest LogScan SSTableLayout LsmStats SSTable SSTableBuild SSTableRead SSTableOpen IteratorMerge Wal LsmState LsmCompact Lsm LsmLevels LsmGet LsmDisk LsmPick LsmMerge LsmCommit LsmServe LsmReads.
Import sstable LsmState LsmCompact LsmOps WalOps.

#[local] Opaque record.encode record.decode record.decode_header.

(** Contents that agree on some tables. *)
Definition agree (ts : list SSTable) (c c' : Z → list entry) : Prop := ∀ t, t ∈ ts → c' (t_id t) = c (t_id t).

Lemma run_of_agree ts c c' : agree ts c c' → run_of c' ts = run_of c ts.
Proof.
  intros Ha. unfold run_of. f_equal. apply list_fmap_ext. intros i t Ht. apply Ha. by eapply list_elem_of_lookup_2.
Qed.

Lemma levels_ok_agree levels c c' : agree (concat levels) c c' → levels_ok c levels → levels_ok c' levels.
Proof.
  intros Ha [Hk Hr Hnd]. split; [| |done].
  - rewrite Forall_forall in Hk |- *. intros t Ht. unfold keyed, entries_of. rewrite (Ha t Ht). by apply Hk.
  - rewrite Forall_forall in Hr |- *. intros l Hl. rewrite (run_of_agree l c c'); [by apply Hr|]. intros t Ht. apply Ha, elem_of_concat.
    exists l. split; [|done]. destruct levels; [done|]. by right.
Qed.

Section Flush.
Context `{Platform}.

Lemma on_disk_agree c c' w t : c' (t_id t) = c (t_id t) → on_disk c w t → on_disk c' w t.
Proof. intros E. unfold on_disk, entries_of. by rewrite E. Qed.

Lemma pins_ok_agree c c' st w : (∀ p, p ∈ st_pins st → agree (concat p) c c') → pins_ok c st w → pins_ok c' st w.
Proof.
  intros Ha [Hp Ho]. split; [|done]. rewrite Forall_forall in Hp |- *. intros p Hin. destruct (Hp p Hin) as (Hl & Hd & Hi).
  split_and!; [by eapply levels_ok_agree; [apply Ha|]| |done]. rewrite Forall_forall in Hd |- *. intros t Ht.
  eapply on_disk_agree; [by apply (Ha p Hin)|by apply Hd].
Qed.

(** The bytes of everything the engine holds. *)
Definition load (c : Z → list entry) (xs : list write) (imm : option (list write)) (levels : Levels) : Z :=
  weight (run_of c (concat levels)) + weight (map_ (mem_of xs)) + from_option (λ ys, weight (map_ (mem_of ys))) 0 imm.

Lemma concat_push_l0 t levels : concat (push_l0 t levels) = t :: concat levels.
Proof. by destruct levels. Qed.

Lemma push_l0_depth t levels : sz (push_l0 t levels) ≤ Z.max 1 (sz levels).
Proof. destruct levels; cbn; rewrite ?sz_cons, ?sz_nil; lia. Qed.

Lemma mem_of_nonempty xs : xs ≠ [] → map_ (mem_of xs) ≠ [].
Proof.
  destruct xs as [|x xs _] using rev_ind; [done|]. intros _ E.
  assert (Hw : written (xs ++ [x]) = ∅) by (unfold written, MemtableOps.contents; by rewrite E).
  rewrite written_snoc in Hw. apply (f_equal (lookup (wr_key x))) in Hw. by rewrite lookup_insert_eq in Hw.
Qed.

Section Outcome.
Context (c : Z → list entry) (xs ys : list write) (st : LsmStore) (w : World).
Hypothesis Hs : serving c xs (Some ys) st w.
Let id := st_imm_table_id st.
Let es := map_ (mem_of ys).
Let c' := assign [(id, es)] c.

Lemma flush_contents : c' id = es ∧ ∀ i, i ≠ id → c' i = c i.
Proof.
  split; [by apply assign_in; [apply NoDup_singleton|left]|]. intros i Hi. unfold c', assign.
  rewrite not_elem_of_list_to_map_1; [done|]. by intros ?%list_elem_of_singleton.
Qed.

Lemma flush_agree p : p ∈ st_levels st :: st_pins st → agree (concat p) c c'.
Proof.
  intros Hp t Ht. apply flush_contents. intros E. destruct (sv_flush _ _ _ _ _ Hs ys eq_refl) as (_ & _ & _ & Hno & _).
  apply (Hno p Hp). fold id. rewrite <-E. by apply list_elem_of_fmap_2.
Qed.

Lemma flush_es : es ≠ [] ∧ Forall entry_fits es ∧ Forall plain es ∧ ksorted es.
Proof.
  destruct (lg_imm _ _ _ _ (sv_logs _ _ _ _ _ Hs) ys eq_refl) as (Hv & _).
  destruct (sv_flush _ _ _ _ _ Hs ys eq_refl) as (Hne & _).
  split_and!; [by apply mem_of_nonempty|by apply mem_of_fits|apply mem_of_plain|apply mem_of_sorted].
Qed.

(** Files a flush writes are none of those in use. *)
Lemma flush_frame names w' : untouched names w w' →
  names ⊆ [temp_name (sst_file_name id); sst_file_name id; temp_name kManifestName; kManifestName] →
  (∀ p t, p ∈ st_levels st :: st_pins st → t ∈ concat p →
     w_files w' !! sst_file_name (t_id t) = w_files w !! sst_file_name (t_id t)) ∧
  (∀ name i, parse_wal_file_id name = Some i → w_files w' !! name = w_files w !! name).
Proof.
  intros Hu Hsub. destruct (sv_flush _ _ _ _ _ Hs ys eq_refl) as (_ & Hv & _ & Hno & _). split.
  - intros p t Hp Ht. apply Hu. intros Hin%Hsub. assert (Hvt : valid_id (t_id t)).
    { apply elem_of_cons in Hp as [->|Hp].
      - pose proof (tk_ids _ _ _ _ (sv_tables _ _ _ _ _ Hs)) as Hi. rewrite Forall_forall in Hi. by apply Hi.
      - pose proof (pn_pins _ _ _ (sv_pins _ _ _ _ _ Hs)) as Hi. rewrite Forall_forall in Hi. destruct (Hi p Hp) as (_ & _ & Hi').
        rewrite Forall_forall in Hi'. by apply Hi'. }
    repeat (apply elem_of_cons in Hin as [E|Hin]); [..|by apply elem_of_nil in Hin].
    + by apply sst_not_temp in E.
    + apply sst_file_name_inj in E; [|done|done]. apply (Hno p Hp). fold id. rewrite <-E. by apply list_elem_of_fmap_2.
    + by apply sst_not_temp in E.
    + by apply sst_not_manifest in E.
  - intros name i Hp. apply Hu. intros Hin%Hsub. repeat (apply elem_of_cons in Hin as [->|Hin]); [..|by apply elem_of_nil in Hin].
    + by rewrite parse_wal_temp in Hp.
    + by rewrite parse_wal_sst in Hp.
    + by rewrite parse_wal_temp in Hp.
    + done.
Qed.

(** Before the commit nothing has happened. *)
Lemma flush_before w' : untouched [temp_name (sst_file_name id); sst_file_name id; temp_name kManifestName] w w' →
  serving c xs (Some ys) st w'.
Proof.
  intros Hu. destruct (flush_frame _ w' Hu) as [H1 H2]; [set_solver|]. eapply serving_files; [done|done| |done].
  apply Hu. intros Hin. repeat (apply elem_of_cons in Hin as [E|Hin]); [..|by apply elem_of_nil in Hin].
  - by apply manifest_not_temp in E.
  - by apply manifest_not_sst in E.
  - by apply manifest_not_temp in E.
Qed.

Section Committed.
Context (w' : World) (t : SSTable).
Hypothesis Hf : flushed id es (st_levels st) (st_next_id st) w w' t.
Let levels' := push_l0 t (st_levels st).

Lemma flushed_levels : levels_ok c' levels'.
Proof.
  destruct Hf as [Hid Hm _ _ Ho _ _]. destruct flush_contents as [Ec _].
  pose proof (levels_ok_agree _ _ _ (flush_agree (st_levels st) ltac:(by left)) (tk_levels _ _ _ _ (sv_tables _ _ _ _ _ Hs))) as [Hk Hr Hnd].
  split; unfold levels'; rewrite ?concat_push_l0.
  - constructor; [|done]. by apply (on_disk_keyed c' w'), Ho.
  - by destruct (st_levels st).
  - csimpl. apply NoDup_cons. split; [|done]. rewrite Hid.
    destruct (sv_flush _ _ _ _ _ Hs ys eq_refl) as (_ & _ & _ & Hno & _). apply (Hno (st_levels st)). by left.
Qed.

Lemma flushed_view : view c' levels' = written ys ∪ view c (st_levels st).
Proof.
  unfold view, levels'. rewrite concat_push_l0, run_of_cons, as_map_app.
  rewrite (run_of_agree _ c c' (flush_agree (st_levels st) ltac:(by left))). f_equal.
  unfold entries_of. rewrite (fl_id _ _ _ _ _ _ _ Hf). by rewrite (proj1 flush_contents).
Qed.

Lemma flushed_disk : Forall (on_disk c' w') (concat levels').
Proof.
  destruct flush_contents as [Ec _]. destruct (flush_frame _ w' (fl_files _ _ _ _ _ _ _ Hf) ltac:(done)) as [Hsst _].
  unfold levels'. rewrite concat_push_l0. constructor; [by apply (fl_open _ _ _ _ _ _ _ Hf)|].
  pose proof (tk_disk _ _ _ _ (sv_tables _ _ _ _ _ Hs)) as Hd. rewrite Forall_forall in Hd |- *. intros x Hx.
  eapply on_disk_files; [|by apply (Hsst (st_levels st)); [left|]]. eapply on_disk_agree; [|by apply Hd].
  by apply (flush_agree (st_levels st)); [left|].
Qed.

Lemma flushed_ids : Forall (λ x, valid_id (t_id x) ∧ t_id x < st_next_id st) (concat levels').
Proof.
  destruct (sv_flush _ _ _ _ _ Hs ys eq_refl) as (_ & Hv & Hlt & _). fold id in Hv, Hlt.
  unfold levels'. rewrite concat_push_l0. constructor; [by rewrite (fl_id _ _ _ _ _ _ _ Hf)|].
  by apply (tk_ids _ _ _ _ (sv_tables _ _ _ _ _ Hs)).
Qed.

Lemma flushed_tables : tables_ok c' levels' (st_next_id st) w'.
Proof.
  pose proof Hf as [Hid Hm Hsz Hst Ho Hman Hfiles]. destruct flush_contents as [Ec _].
  destruct (flush_frame _ w' Hfiles ltac:(done)) as [Hsst _]. destruct (sv_tables _ _ _ _ _ Hs) as [_ _ Hsto _ Hn _ Hdep].
  assert (Hdep' : sz levels' ≤ kDepthLimit).
  { pose proof (push_l0_depth t (st_levels st)). unfold levels', kDepthLimit in *. lia. }
  split; [apply flushed_levels|apply flushed_disk| |apply flushed_ids|done| |done].
  - unfold levels'. rewrite concat_push_l0. constructor; [by rewrite Hid, Ec|]. rewrite Forall_forall in Hsto |- *. intros x Hx.
    rewrite (flush_agree (st_levels st)) by (done || by left). eapply stored_at_files; [by apply Hsto|].
    by apply (Hsst (st_levels st)); [left|].
  - exists (st_next_id st). split_and!; [lia|lia| |].
    + eapply Forall_impl; [apply flushed_ids|]. by intros x [_ ?].
    + apply (names_written c' w'); [done|apply flushed_levels|apply flushed_disk| |done|unfold kFirstFileId in *; lia].
      eapply Forall_impl; [apply flushed_ids|]. by intros x [? _].
Qed.

Lemma flushed_logs : logs_ok xs (Some ys) st (w_files w').
Proof.
  destruct (flush_frame _ w' (fl_files _ _ _ _ _ _ _ Hf) ltac:(done)) as [_ Hwal].
  eapply logs_ok_files; [by apply (sv_logs _ _ _ _ _ Hs)|done].
Qed.

Lemma flushed_pins st' : st_pins st' = st_pins st → st_obsolete st' = st_obsolete st → st_levels st' = levels' →
  st_next_id st' = st_next_id st → pins_ok c' st' w'.
Proof.
  intros E1 E2 E3 E4. destruct (flush_frame _ w' (fl_files _ _ _ _ _ _ _ Hf) ltac:(done)) as [Hsst _].
  assert (Hp : pins_ok c' st w').
  { eapply pins_ok_files; [eapply pins_ok_agree; [|by apply (sv_pins _ _ _ _ _ Hs)]|].
    - intros p Hp. apply flush_agree. by right.
    - intros p x Hp Hx. eapply (Hsst p); [by right|done]. }
  destruct Hp as [Hp Ho]. split; rewrite ?E1, ?E2, ?E4; [done|]. rewrite E3. unfold levels'. rewrite concat_push_l0.
  destruct (sv_flush _ _ _ _ _ Hs ys eq_refl) as (_ & _ & _ & _ & Hno). rewrite Forall_forall in Ho |- *. intros x Hx.
  destruct (Ho x Hx) as (H1 & H2 & H3 & H4). split_and!; [done|done|done|]. csimpl. intros [E|?]%elem_of_cons; [|done].
  apply Hno. fold id. rewrite <-(fl_id _ _ _ _ _ _ _ Hf), <-E. by apply list_elem_of_fmap_2.
Qed.

(** Until the log goes, its writes are there twice. *)
Lemma flushed_recoverable : recoverable (w_files w') (database c xs (Some ys) st).
Proof.
  destruct (tables_ok_stored _ _ _ _ flushed_tables) as (m & metas & Hm & Hts & Hview).
  destruct (logs_ok_stored _ _ _ _ flushed_logs) as [H1 H2]; [by apply (tk_next _ _ _ _ (sv_tables _ _ _ _ _ Hs))|].
  exists c', metas, m, (log_list xs (Some ys) st). split.
  - split; try done. by apply (lg_only _ _ _ _ flushed_logs).
  - unfold recovered, database, state_map. rewrite log_list_written, Hview, flushed_view. cbn [from_option].
    by rewrite (map_union_assoc (written xs ∪ written ys)), <-(map_union_assoc (written xs)), map_union_idemp, map_union_assoc.
Qed.

(** The state [flush_install] leaves. *)
Definition flushed_state (s : LsmStats) : LsmStore :=
  st_set_imm None (st_set_stats s (st_set_current levels' (st_set_levels levels' st))).

(** Removing the log ends the flush. *)
Lemma flush_retired s w2 : in_range s → w_files w2 = delete (wal_file_name (st_imm_wal_id st)) (w_files w') →
  serving c' xs None (flushed_state s) w2.
Proof.
  intros Hr E. pose proof Hs as [H1 H2 H3 H4 H5 H6 H7 H8 H9 H10].
  destruct (lg_imm _ _ _ _ H8 ys eq_refl) as (_ & Hiv & Hilt & _). destruct (lg_id _ _ _ _ H8) as [Hwv _].
  assert (Hsst : ∀ i, w_files w2 !! sst_file_name i = w_files w' !! sst_file_name i).
  { intros i. rewrite E, lookup_delete_ne; [done|]. apply wal_not_sst. }
  split; try done.
  - eapply tables_ok_files; [exact flushed_tables|cbn; pose proof (tk_next _ _ _ _ H7); lia|by intros|].
    rewrite E, lookup_delete_ne; [done|]. apply wal_not_manifest.
  - pose proof flushed_logs as [(wal & Ew & Hh & Hp) Hid _ Honly]. split; [|done|done|].
    + exists wal. split_and!; [done| |done]. intros w0 E0. destruct (Hh w' eq_refl) as (Hv & f & Ho & Hfl & Hd & He).
      split; [done|]. exists f. split_and!; [done| |done|done]. rewrite Hp in *. rewrite E0, E, lookup_delete_ne; [done|].
      intros E2%wal_file_name_inj; [lia|done|done].
    + intros name i Hin Hpn. rewrite E in Hin. destruct (decide (name = wal_file_name (st_imm_wal_id st))) as [->|Hne].
      { rewrite lookup_delete_eq in Hin. by destruct Hin. }
      rewrite lookup_delete_ne in Hin by done. destruct (Honly name i Hin Hpn) as [-> Hi]. split; [done|].
      unfold log_list in *. cbn in *. apply elem_of_cons in Hi as [->|Hi]; [done|done].
  - eapply pins_ok_files; [by apply flushed_pins|by intros].
Qed.
End Committed.
End Outcome.

(** A step of the engine that no client can see. *)
Record evolves (c : Z → list entry) (xs : list write) (imm : option (list write)) (st : LsmStore) (w : World)
    (c' : Z → list entry) (imm' : option (list write)) (st' : LsmStore) (w' : World) : Prop := {
  ev_serving : serving c' xs imm' st' w';
  ev_steady : steady st st' w w';
  ev_options : st_options st' = st_options st;
  ev_next : st_next_id st ≤ st_next_id st';
  ev_load : load c' xs imm' (st_levels st') ≤ load c xs imm (st_levels st);
  ev_database : database c' xs imm' st' = database c xs imm st;
}.

Lemma evolves_counting c xs imm st st' w w' : serving c xs imm st w → counting st st' → steady st st' w w' →
  serving c xs imm st w' → evolves c xs imm st w c imm st' w'.
Proof.
  intros Hs (s & -> & Hr) Hst Hs'. split; try done. eapply serving_counting; [done|by exists s].
Qed.

(** Flags of the background thread that stay as they are. *)
Definition same_flags (st st' : LsmStore) : Prop :=
  st_background_status st' = st_background_status st ∧ st_halted_by_fail_point st' = st_halted_by_fail_point st ∧
  st_compact_requested st' = st_compact_requested st ∧ st_background_busy st' = st_background_busy st.

Lemma wp_retire_wal st id w : reliable w →
  wp (retire_wal id) st w
    (λ _ st' w', st' = st ∧ w_files w' = delete (wal_file_name id) (w_files w))
    (λ _ _ _, False)
    (λ w', same_files w w' ∨ w_files w' = delete (wal_file_name id) (w_files w)).
Proof.
  intros Hrel. unfold retire_wal. wp_call wp_remove.
  2: { intros w1 _ ->. by left. }
  intros ec s1 w1 Hc1 (-> & [(-> & Hfs & _)|(_ & Hq & _)]); [|done].
  eapply wp_bind_attempt; [apply wp_lsm_sync_dir|..]; cbn beta.
  - intros _ s2 w2 Hc2 (-> & Hsf). cbn [fail_when]. wp_pure. apply wp_ret. split; [done|]. by rewrite (proj1 Hsf).
  - intros e s2 w2 Hc2 (_ & _ & Hq & _). exfalso. eauto with wp.
  - intros w2 _ Hsf. right. by rewrite (proj1 Hsf).
Qed.

Lemma flush_install_eq st t s w : lo_fail_at (st_options st) = FpNone →
  flush_install (push_l0 t (st_levels st)) (st_set_stats s st) w = Ok true (flushed_state st t (bump flushes 1 s)) w.
Proof. intros E. unfold flush_install, mbind, M_bind, get. cbn [st_options st_set_stats]. by rewrite E. Qed.

(** The manifest that names one more table still has a size. *)
Lemma push_room c c' w levels t es n : c' (t_id t) = es → agree (concat levels) c c' → describes (meta_of t) es →
  es ≠ [] → Forall entry_fits es → Forall (on_disk c w) (concat levels) → sz levels ≤ kDepthLimit →
  weight (run_of c (concat levels)) + weight es ≤ kTotalLimit →
  sz (manifest.encode (level_set_of (push_l0 t levels) n)) ≤ UINT64_MAX.
Proof.
  intros Ec Ha (_ & Hmin & Hmax) Hne Hfit Hd Hdep Hw. cbn in Hmin, Hmax. pose proof (run_of_agree _ c c' Ha) as Er.
  etrans; [apply (level_set_sized c')|].
  - rewrite concat_push_l0. constructor.
    + unfold key_sized, entries_of. rewrite Ec, Hmin, Hmax. by apply keys_weight.
    + rewrite Forall_forall in Hd |- *. intros x Hx. eapply on_disk_sized, on_disk_agree; [|by apply Hd]. by apply Ha.
  - rewrite concat_push_l0, run_of_cons, weight_app, Er. unfold entries_of. rewrite Ec.
    pose proof (push_l0_depth t levels). unfold kDepthLimit, kTotalLimit, UINT64_MAX in *. lia.
Qed.

Section Run.
Context (c : Z → list entry) (xs ys : list write) (st : LsmStore) (w : World).
Hypothesis Hs : serving c xs (Some ys) st w.
Hypothesis Hrel : reliable w.
Hypothesis Hload : load c xs (Some ys) (st_levels st) ≤ kTotalLimit.
Let db := database c xs (Some ys) st.

Lemma flush_room t : t_id t = st_imm_table_id st → describes (meta_of t) (map_ (mem_of ys)) →
  sz (manifest.encode (level_set_of (push_l0 t (st_levels st)) (st_next_id st))) ≤ UINT64_MAX.
Proof.
  intros Hid Hdesc. destruct (flush_es c xs ys st w Hs) as (Hne & Hfit & _ & _). destruct (flush_contents c ys st) as [Ec _].
  pose proof (weight_nonneg (map_ (mem_of xs))). unfold load in Hload. cbn [from_option] in Hload.
  eapply (push_room c (assign [(st_imm_table_id st, map_ (mem_of ys))] c) w (st_levels st) t (map_ (mem_of ys))); try done; [by rewrite Hid| |..].
  - by eapply flush_agree; [|left].
  - by apply (tk_disk _ _ _ _ (sv_tables _ _ _ _ _ Hs)).
  - by apply (tk_depth _ _ _ _ (sv_tables _ _ _ _ _ Hs)).
  - lia.
Qed.

Lemma flushed_database t w1 s : flushed (st_imm_table_id st) (map_ (mem_of ys)) (st_levels st) (st_next_id st) w w1 t →
  database (assign [(st_imm_table_id st, map_ (mem_of ys))] c) xs None (flushed_state st t s) = db.
Proof.
  intros Hf. unfold db, database, state_map. cbn [st_levels flushed_state st_set_imm st_set_stats st_set_current st_set_levels from_option].
  by rewrite (flushed_view c xs ys st w Hs w1 t Hf), map_empty_union.
Qed.

Lemma flushed_evolves t w1 s w2 : flushed (st_imm_table_id st) (map_ (mem_of ys)) (st_levels st) (st_next_id st) w w1 t →
  in_range s → w_files w2 = delete (wal_file_name (st_imm_wal_id st)) (w_files w1) →
  evolves c xs (Some ys) st w (assign [(st_imm_table_id st, map_ (mem_of ys))] c) None (flushed_state st t s) w2.
Proof.
  intros Hf Hr E. destruct (flush_contents c ys st) as [Ec _].
  split; [by eapply flush_retired| |done|cbn; lia| |by eapply flushed_database].
  - split; [done|]. intros p x Hp Hx. rewrite E, lookup_delete_ne by apply wal_not_sst.
    apply (proj1 (flush_frame c xs ys st w Hs _ w1 (fl_files _ _ _ _ _ _ _ Hf) ltac:(done)) p); [by right|done].
  - unfold load. cbn [st_levels flushed_state st_set_imm st_set_stats st_set_current st_set_levels from_option].
    rewrite concat_push_l0, run_of_cons, weight_app. unfold entries_of. rewrite (fl_id _ _ _ _ _ _ _ Hf), Ec.
    rewrite (run_of_agree _ c _ (flush_agree c xs ys st w Hs (st_levels st) ltac:(by left))). lia.
Qed.

Lemma wp_flush_finish t st1 w1 : reliable w1 → counting st st1 →
  flushed (st_imm_table_id st) (map_ (mem_of ys)) (st_levels st) (st_next_id st) w w1 t →
  wp (proceed ← flush_install (push_l0 t (st_levels st));
      if proceed : bool then retire_wal (st_imm_wal_id st);; mret true else mret false) st1 w1
    (λ r st' w', r = true ∧ ∃ c', evolves c xs (Some ys) st w c' None st' w' ∧ same_flags st st' ∧ st_next_id st' = st_next_id st)
    (λ _ _ _, False)
    (λ w', recoverable (w_files w') db).
Proof.
  intros Hrel1 (s & -> & Hr) Hf. eapply wp_bind_eq; [apply flush_install_eq; by apply (so_fail _ (sv_sane _ _ _ _ _ Hs))|].
  set (s' := bump flushes 1 s). assert (Hr' : in_range s') by by apply in_range_bump. cbv iota.
  wp_call wp_retire_wal; [done|..].
  - intros [] st2 w2 Hc2 (-> & E). apply wp_ret. split; [done|]. eexists. split; [by eapply flushed_evolves|done].
  - intros w2 _ [Hsf|E].
    + rewrite (proj1 Hsf). by eapply flushed_recoverable.
    + pose proof (flushed_evolves t w1 s' w2 Hf Hr' E) as Hev. unfold db. rewrite <-(ev_database _ _ _ _ _ _ _ _ _ Hev).
      eapply serving_recoverable, ev_serving, Hev.
Qed.

Lemma wp_run_flush :
  wp run_flush st w
    (λ r st' w', r = true ∧ ∃ c', evolves c xs (Some ys) st w c' None st' w' ∧ same_flags st st' ∧ st_next_id st' = st_next_id st)
    (λ e st' w', code_ e = InvalidArgument ∧ evolves c xs (Some ys) st w c (Some ys) st' w' ∧ same_flags st st' ∧ st_next_id st' = st_next_id st)
    (λ w', recoverable (w_files w') db).
Proof.
  pose proof Hs as [Hsane Hst _ _ Himm _ Htab _ _ _]. unfold run_flush. wp_pure. rewrite Himm. cbn [fmap option_fmap option_map].
  destruct (sv_flush _ _ _ _ _ Hs ys eq_refl) as (_ & Hv & _). destruct (flush_es c xs ys st w Hs) as (Hne & Hfit & Hpl & Hsort).
  eapply wp_bind; [eapply (wp_build_table_unlocked (mem_of ys) (st_imm_table_id st) (st_levels st) (st_next_id st) st w Hrel)|..]; cbn beta.
  - by apply so_fail.
  - by apply so_block.
  - done.
  - done.
  - split_and!; try done. unfold load in Hload. cbn [from_option] in Hload. pose proof (weight_nonneg (map_ (mem_of xs))).
    pose proof (weight_nonneg (run_of c (concat (st_levels st)))). unfold kTotalLimit, kWeightLimit in *. lia.
  - apply flush_room.
  - intros levels st1 w1 Hc1 (Hcn & t & -> & Hf). eapply wp_mono; [eapply wp_flush_finish; eauto with wp|done|done|done].
  - intros e st1 w1 _ (Hcn & Hcode & Ht). split; [done|]. destruct Hcn as (s & -> & Hr). split; [|done].
    assert (Hu : untouched [temp_name (sst_file_name (st_imm_table_id st)); sst_file_name (st_imm_table_id st); temp_name kManifestName] w w1).
    { intros n Hn. apply Ht. set_solver. }
    eapply evolves_counting; [done|by exists s| |by eapply flush_before].
    split; [done|]. intros p x Hp Hx. apply (proj1 (flush_frame c xs ys st w Hs _ w1 Hu ltac:(set_solver)) p); [by right|done].
  - intros w1 _ [Hu|[t Hf]].
    + apply (serving_recoverable c xs (Some ys) st w1). by eapply flush_before.
    + by eapply flushed_recoverable.
Qed.
End Run.
End Flush.
