(* ===== verification/LsmCompacted.v ===== *)
(** A compaction of a running engine: the new level set is installed, and the tables it
    replaces wait until no reader holds them. *)

From S2P Require Import Prelude Status FileNames World Wp Encoding Record SortedMap Memtable SSTableFormat LogFile Manifest LogScan SSTableLayout LsmStats SSTable SSTableBuild SSTableRead SSTableOpen IteratorMerge Wal LsmState LsmCompact Lsm LsmLevels LsmGet LsmDisk LsmPick LsmMerge LsmCommit LsmServe LsmReads LsmFlush.
Import sstable LsmState LsmCompact LsmOps WalOps.

#[local] Opaque record.encode record.decode record.decode_header.

Section Compacted.
Context `{Platform}.

(** Claiming ids changes nothing else. *)
Lemma serving_claimed c xs imm st st' n w : serving c xs imm st w → claimed n st st' → n ≤ UINT32_MAX → serving c xs imm st' w.
Proof.
  intros [H1 H2 H3 H4 H5 H6 H7 H8 H9 H10] (s & -> & Hn & Hs) Hmax. split; try done.
  - by eapply tables_ok_files.
  - by eapply logs_ok_state.
  - intros ys Ey. destruct (H9 ys Ey) as (? & ? & Hlt & ? & ?). split_and!; try done. cbn. lia.
  - destruct H10 as [Hp Ho]. split; cbn.
    + eapply Forall_impl; [exact Hp|]. cbn. intros p (? & ? & Hi). split_and!; [done|done|]. eapply Forall_impl; [exact Hi|].
      cbn. intros t [? ?]. split; [done|lia].
    + eapply Forall_impl; [exact Ho|]. cbn. intros t (? & ? & ? & ?). split_and!; try done. lia.
Qed.

Section Once.
Context (c : Z → list entry) (xs : list write) (imm : option (list write)) (st : LsmStore) (w : World) (work : Compaction).
Hypothesis Hs : serving c xs imm st w.
Hypothesis Hpk : picked (st_levels st) work.
Let levels := st_levels st.
Let n0 := st_next_id st.

Lemma in_use p t : p ∈ levels :: st_pins st → t ∈ concat p → valid_id (t_id t) ∧ t_id t < n0.
Proof.
  intros Hp Ht. apply elem_of_cons in Hp as [->|Hp].
  - pose proof (tk_ids _ _ _ _ (sv_tables _ _ _ _ _ Hs)) as Hi. rewrite Forall_forall in Hi. by apply Hi.
  - pose proof (pn_pins _ _ _ (sv_pins _ _ _ _ _ Hs)) as Hi. rewrite Forall_forall in Hi. destruct (Hi p Hp) as (_ & _ & Hi').
    rewrite Forall_forall in Hi'. by apply Hi'.
Qed.

(** A compaction leaves the files in use alone. *)
Lemma compaction_frame w' : fresh_commit n0 w w' →
  (∀ p t, p ∈ levels :: st_pins st → t ∈ concat p →
     w_files w' !! sst_file_name (t_id t) = w_files w !! sst_file_name (t_id t)) ∧
  (∀ name i, parse_wal_file_id name = Some i → w_files w' !! name = w_files w !! name).
Proof.
  intros Hf. split.
  - intros p t Hp Ht. destruct (in_use p t Hp Ht) as [Hv Hlt].
    destruct (old_name n0 (t_id t) _ eq_refl Hv Hlt) as (H1 & H2 & H3). by apply Hf.
  - intros name i Hp. apply Hf.
    + intros stem ->. by rewrite parse_wal_temp in Hp.
    + intros id _ _ ->. by rewrite parse_wal_sst in Hp.
    + by intros ->.
Qed.

Lemma compaction_before w' : fresh_files n0 w w' → serving c xs imm st w'.
Proof.
  intros Hf. destruct (compaction_frame w') as [H1 H2]; [by intros name ? ? _; apply Hf|].
  eapply serving_files; [done|done| |done]. apply Hf; apply (manifest_name n0).
Qed.

Section Committed.
Context (c' : Z → list entry) (next : Levels) (n : Z) (w' : World).
Hypothesis Hc : compacted c levels work n0 w c' next n w'.
Hypothesis Hman : manifest_file (w_files w') (level_set_of next n).
Hypothesis Hn : n0 ≤ n ≤ UINT32_MAX.
Hypothesis Hdepth : Z.of_nat (cw_level work) + 2 ≤ kDepthLimit.

Lemma compacted_ids t : t ∈ concat next → valid_id (t_id t) ∧ t_id t < n.
Proof.
  intros Ht. destruct (cp_new _ _ _ _ _ _ _ _ _ Hc t Ht) as [[Hold _]|[Hi _]].
  - destruct (in_use levels t ltac:(by left) Hold). split; [done|lia].
  - split; [|lia]. pose proof (tk_next _ _ _ _ (sv_tables _ _ _ _ _ Hs)) as Hf. fold n0 in Hf. unfold valid_id, kFirstFileId in *. lia.
Qed.

Lemma compacted_tables : tables_ok c' next n w'.
Proof.
  pose proof Hc as [Hext Hl _ Hd Hnew _ _ Hdep Hf]. destruct (compaction_frame w' Hf) as [Hsst _].
  destruct (sv_tables _ _ _ _ _ Hs) as [_ _ Hsto _ Hnx _ Hdp]. fold n0 in Hnx. fold levels in Hsto, Hdp. split; try done.
  - apply Forall_forall. intros t Ht. destruct (Hnew t Ht) as [[Hold _]|[_ ?]]; [|done].
    destruct (in_use levels t ltac:(by left) Hold) as [_ Hlt]. rewrite Forall_forall in Hsto. rewrite (Hext _ Hlt).
    eapply stored_at_files; [by apply Hsto|]. apply (Hsst levels); [by left|done].
  - apply Forall_forall. apply compacted_ids.
  - lia.
  - exists n. split_and!; [lia|lia| |].
    + apply Forall_forall. intros t Ht. by apply compacted_ids.
    + apply (names_written c' w'); [done|done|done| |fold levels in Hdep; lia|unfold kFirstFileId in *; lia].
      apply Forall_forall. intros t Ht. by apply compacted_ids.
  - fold levels in Hdep. lia.
Qed.

Lemma compacted_recoverable : recoverable (w_files w') (database c xs imm st).
Proof.
  destruct (tables_ok_stored _ _ _ _ compacted_tables) as (m & metas & Hm & Hts & Hview).
  destruct (compaction_frame w' (cp_files _ _ _ _ _ _ _ _ _ Hc)) as [_ Hwal].
  pose proof (logs_ok_files _ _ _ _ _ (sv_logs _ _ _ _ _ Hs) Hwal) as Hl.
  destruct (logs_ok_stored _ _ _ _ Hl) as [H1 H2]; [by apply (tk_next _ _ _ _ (sv_tables _ _ _ _ _ Hs))|].
  exists c', metas, m, (log_list xs imm st). split.
  - split; try done. by apply (lg_only _ _ _ _ Hl).
  - unfold recovered, database, state_map. rewrite log_list_written, Hview, map_union_assoc.
    symmetry. apply live_union. by rewrite (cp_live _ _ _ _ _ _ _ _ _ Hc).
Qed.

(** The state [compact_once] leaves before it looks for tables to delete. *)
Definition compacted_state (s : LsmStats) (pointers : list bytes) : LsmStore :=
  st_set_obsolete (st_obsolete st ++ cw_inputs work ++ cw_overlaps work) (st_set_compact_pointer pointers
    (st_set_current next (st_set_levels next (st_set_next_id n (st_set_stats s st))))).

Lemma gone_fresh t : t_id t < n0 →
  (∀ t', t' ∈ concat levels → t' ∉ cw_inputs work ++ cw_overlaps work → t_id t ≠ t_id t') → t_id t ∉ t_id <$> concat next.
Proof.
  intros Hlt Hno (t' & E & Ht')%list_elem_of_fmap.
  destruct (cp_new _ _ _ _ _ _ _ _ _ Hc t' Ht') as [[Hold Hk]|[Hi _]]; [by eapply Hno|lia].
Qed.

Lemma compacted_obsolete t : t ∈ st_obsolete st ++ cw_inputs work ++ cw_overlaps work →
  valid_id (t_id t) ∧ t_id t < n ∧ t_path t = sst_file_name (t_id t) ∧ t_id t ∉ t_id <$> concat next.
Proof.
  pose proof (tk_levels _ _ _ _ (sv_tables _ _ _ _ _ Hs)) as Hok. intros [Ht|Ht]%elem_of_app.
  - pose proof (pn_obsolete _ _ _ (sv_pins _ _ _ _ _ Hs)) as Ho. rewrite Forall_forall in Ho.
    destruct (Ho t Ht) as (Hv & Hlt & Hp & Hno). fold n0 in Hlt. split_and!; [done|lia|done|]. apply gone_fresh; [done|].
    intros t' Hin _ E. apply Hno. rewrite E. by apply list_elem_of_fmap_2.
  - pose proof (picked_in levels work Hpk t Ht) as Hin. destruct (in_use levels t ltac:(by left) Hin) as [Hv Hlt].
    pose proof (tk_disk _ _ _ _ (sv_tables _ _ _ _ _ Hs)) as Hd. rewrite Forall_forall in Hd. destruct (Hd t Hin) as (_ & _ & Hp).
    split_and!; [done|lia|done|]. apply gone_fresh; [done|].
    intros t' Hin' Hk E. apply Hk.
    by rewrite <-(id_determines c levels Hok t t' Hin Hin' E).
Qed.

Lemma compacted_pins s ps : pins_ok c' (compacted_state s ps) w'.
Proof.
  split; cbn; [|apply Forall_forall, compacted_obsolete].
  pose proof (pn_pins _ _ _ (sv_pins _ _ _ _ _ Hs)) as Hp. rewrite Forall_forall in Hp |- *. intros p Hin.
  destruct (Hp p Hin) as (Hl & Hd & Hi). pose proof (cp_extends _ _ _ _ _ _ _ _ _ Hc) as Hext. split_and!.
  - eapply levels_ok_extends; [exact Hext| |done]. eapply Forall_impl; [exact Hi|]. by intros t [_ ?].
  - rewrite Forall_forall in Hd |- *. rewrite Forall_forall in Hi. intros t Ht. eapply on_disk_extends; [|exact Hext|by apply Hi].
    eapply on_disk_files; [by apply Hd|]. apply (proj1 (compaction_frame w' (cp_files _ _ _ _ _ _ _ _ _ Hc)) p); [by right|done].
  - eapply Forall_impl; [exact Hi|]. cbn. intros t [? Hlt]. fold n0 in Hlt. split; [done|lia].
Qed.

Lemma compacted_serving s ps : in_range s → serving c' xs imm (compacted_state s ps) w'.
Proof.
  intros Hr. pose proof Hs as [H1 H2 H3 H4 H5 H6 H7 H8 H9 H10].
  destruct (compaction_frame w' (cp_files _ _ _ _ _ _ _ _ _ Hc)) as [_ Hwal]. split; try done.
  - exact compacted_tables.
  - eapply logs_ok_state; [by eapply logs_ok_files|done|done|done|]. cbn. fold n0. lia.
  - intros ys Ey. destruct (H9 ys Ey) as (? & ? & Hlt & Hno & Hob). fold n0 in Hlt. split_and!; [done|done|cbn; lia|..].
    + intros p [->|Hp]%elem_of_cons; [|apply Hno; by right]. cbn. intros (t & E & Ht)%list_elem_of_fmap.
      destruct (cp_new _ _ _ _ _ _ _ _ _ Hc t Ht) as [[Hold _]|[Hi _]]; [|lia]. apply (Hno levels); [by left|].
      rewrite E. by apply list_elem_of_fmap_2.
    + cbn. rewrite fmap_app, elem_of_app. intros [?|(t & E & Ht)%list_elem_of_fmap]; [done|].
      apply (Hno levels); [by left|]. rewrite E. apply list_elem_of_fmap_2. by apply (picked_in levels work Hpk).
  - apply compacted_pins.
Qed.

Lemma compacted_evolves s ps : in_range s → evolves c xs imm st w c' imm (compacted_state s ps) w'.
Proof.
  intros Hr. destruct (compaction_frame w' (cp_files _ _ _ _ _ _ _ _ _ Hc)) as [Hsst _].
  split; [by apply compacted_serving| |done|cbn; fold n0; lia|..].
  - split; [done|]. intros p t Hp Ht. apply (Hsst p); [by right|done].
  - pose proof (cp_weight _ _ _ _ _ _ _ _ _ Hc). unfold load. change (st_levels (compacted_state s ps)) with next. fold levels. lia.
  - unfold database, state_map. cbn. do 2 apply live_union. by rewrite (cp_live _ _ _ _ _ _ _ _ _ Hc).
Qed.
End Committed.

(** * One compaction *)

Hypothesis Hrel : reliable w.
Hypothesis Hload : load c xs imm levels ≤ kTotalLimit.
Hypothesis Hdepth : Z.of_nat (cw_level work) + 2 ≤ kDepthLimit.
Context (U : Z).
Hypothesis Hids : n0 + load c xs imm levels / target (st_options st) + 1 ≤ U.
Hypothesis HU : U ≤ UINT32_MAX.

Lemma wp_compact_finish next w1 st1 n s : reliable w1 → in_range s → st1 = st_set_next_id n (st_set_stats s st) →
  n0 ≤ n ≤ U → (∃ c', compacted c levels work n0 w c' next n w1) → manifest_file (w_files w1) (level_set_of next n) →
  wp (compaction_install work next;; compaction_finish work;; mret true) st1 w1
    (λ r st' w', r = true ∧ ∃ c', evolves c xs imm st w c' imm st' w' ∧ st_next_id st' ≤ U ∧ same_flags st st')
    (λ _ _ _, False)
    (λ w', recoverable (w_files w') (database c xs imm st)).
Proof.
  intros Hrel1 Hr -> Hn [c' Hc] Hman. unfold compaction_install, compaction_finish, publish_locked. wp_pure.
  apply wp_bind_bump. wp_pure.
  match goal with |- context [lo_fail_at ?o] => replace (lo_fail_at o) with FpNone by (symmetry; by apply so_fail, Hs) end.
  wp_pure. apply wp_bind_bump. wp_pure.
  set (s2 := bump tables_obsoleted (sz (cw_inputs work ++ cw_overlaps work)) (bump compactions 1 s)).
  set (ps := <[cw_level work := cw_end work]> (grow [] (S (cw_level work)) (st_compact_pointer st))).
  assert (Hr2 : in_range s2) by (by do 2 apply in_range_bump).
  match goal with |- wp _ ?x _ _ _ _ => change x with (compacted_state next n s2 ps) end.
  assert (Hn' : n0 ≤ n ≤ UINT32_MAX) by lia.
  pose proof (compacted_evolves c' next n w1 Hc Hman Hn' Hdepth s2 ps Hr2) as Hev.
  wp_call (wp_collect c' xs imm _ w1 (ev_serving _ _ _ _ _ _ _ _ _ Hev)).
  2: { intros w2 _ Hs2. rewrite <-(ev_database _ _ _ _ _ _ _ _ _ Hev). by eapply serving_recoverable. }
  intros [] st2 w2 Hc2 (-> & Hs2 & Hst2). wp_call wp_lsm_sync_dir.
  - intros [] st3 w3 _ (-> & Hsf). apply wp_ret. split; [done|]. exists c'. split_and!; [|cbn; lia|done].
    destruct Hev as [H1 H2 H3 H4 H5 H6]. split; try done.
    + by eapply serving_same.
    + eapply steady_trans; [exact H2|]. eapply steady_trans; [exact Hst2|by apply steady_same].
  - intros e st3 w3 _ (_ & _ & Hnr & _). apply Hnr. eauto with wp.
  - intros w3 _ Hsf. rewrite <-(ev_database _ _ _ _ _ _ _ _ _ Hev). exact (serving_recoverable _ _ _ _ _ (serving_same _ _ _ _ _ _ Hs2 Hsf)).
Qed.

Lemma wp_compact_once :
  wp (compact_once work) st w
    (λ r st' w', r = true ∧ ∃ c', evolves c xs imm st w c' imm st' w' ∧ st_next_id st' ≤ U ∧ same_flags st st')
    (λ e st' w', code_ e = InvalidArgument ∧ evolves c xs imm st w c imm st' w' ∧ st_next_id st' ≤ U ∧ same_flags st st')
    (λ w', recoverable (w_files w') (database c xs imm st)).
Proof.
  pose proof Hs as [Hsane Hst _ _ _ _ [Hlv Hd _ Hi Hnx _ Hdp] _ _ _]. unfold load in Hload, Hids.
  pose proof (weight_nonneg (map_ (mem_of xs))) as Hw1.
  assert (Hw2 : 0 ≤ from_option (λ ys, weight (map_ (mem_of ys))) 0 imm) by (destruct imm; [apply weight_nonneg|done]).
  unfold compact_once. wp_call (wp_compaction_io c work st w U Hrel); try done.
  - by apply so_fail.
  - by apply so_block.
  - apply Hnx.
  - fold levels. lia.
  - enough (weight (run_of c (concat levels)) / target (st_options st) ≤
      (weight (run_of c (concat levels)) + weight (map_ (mem_of xs)) + from_option (λ ys, weight (map_ (mem_of ys))) 0 imm) / target (st_options st)).
    { fold n0 levels. lia. } apply Z.div_le_mono; [unfold target|]; lia.
  - intros r st1 w1 Hc1 ((s & E & Hn & Hr) & HU1 & c' & next & -> & Hcp & Hman).
    eapply wp_mono; [eapply (wp_compact_finish next w1 st1 (st_next_id st1) s); eauto with wp|done|done|done].
  - intros e st1 w1 _ (Hcl & HU1 & Ht & Hcode). split; [done|].
    assert (Hsv : serving c xs imm st w1) by by apply compaction_before, fresh_files_temp.
    pose proof (serving_claimed c xs imm st st1 _ w1 Hsv Hcl ltac:(lia)) as Hsv1.
    set (n := st_next_id st1) in *. clearbody n. destruct Hcl as (s & -> & Hn & Hr).
    split; [|done]. split; try done. split; [done|]. intros p t Hp Hin. apply Ht. apply sst_not_temp.
  - intros w1 _ [Hf|(c' & next & n & Hn & Hcp & Hman)].
    + eapply serving_recoverable. by apply compaction_before.
    + eapply (compacted_recoverable c' next n w1 Hcp Hman); [lia|done].
Qed.
End Once.
End Compacted.
