(* ===== verification/LsmBackground.v ===== *)
(** The background thread: every round leaves the map a client sees as it was, and a
    client that waits for it is never left waiting. *)

From S2P Require Import Prelude Status FileNames World Wp Encoding Record SortedMap Memtable SSTableFormat LogFile Manifest LogScan SSTableLayout LsmStats SSTable SSTableBuild SSTableRead SSTableOpen IteratorMerge Wal LsmState LsmCompact Lsm LsmLevels LsmGet LsmDisk LsmPick LsmMerge LsmCommit LsmServe LsmReads LsmFlush LsmCompacted.
Import sstable LsmState LsmCompact LsmOps WalOps.

#[local] Opaque record.encode record.decode record.decode_header.

Section Background.
Context `{Platform}.

Lemma evolves_refl c xs imm st w : serving c xs imm st w → evolves c xs imm st w c imm st w.
Proof. intros Hs. split; try done. Qed.

Lemma evolves_trans c xs imm st w c1 imm1 st1 w1 c2 imm2 st2 w2 :
  evolves c xs imm st w c1 imm1 st1 w1 → evolves c1 xs imm1 st1 w1 c2 imm2 st2 w2 → evolves c xs imm st w c2 imm2 st2 w2.
Proof.
  intros [A1 A2 A3 A4 A5 A6] [B1 B2 B3 B4 B5 B6]. split; [done|by eapply steady_trans|congruence|lia|lia|congruence].
Qed.

#[export] Instance same_flags_preorder : PreOrder same_flags.
Proof. split; [done|]. unfold same_flags. intros st1 st2 st3 (?&?&?&?) (?&?&?&?). split_and!; congruence. Qed.

(** Ids one compaction may use. *)
Definition step_ids (c : Z → list entry) (xs : list write) (imm : option (list write)) (st : LsmStore) : Z :=
  load c xs imm (st_levels st) / target (st_options st) + 1.

Lemma load_nonneg c xs imm levels : 0 ≤ load c xs imm levels.
Proof.
  unfold load. pose proof (weight_nonneg (run_of c (concat levels))). pose proof (weight_nonneg (map_ (mem_of xs))).
  destruct imm as [ys|]; cbn [from_option]; [pose proof (weight_nonneg (map_ (mem_of ys)))|]; lia.
Qed.

Lemma step_ids_pos c xs imm st : 1 ≤ step_ids c xs imm st.
Proof. unfold step_ids. pose proof (load_nonneg c xs imm (st_levels st)). assert (0 < target (st_options st)) by (unfold target; lia).
  pose proof (Z.div_pos (load c xs imm (st_levels st)) (target (st_options st))). lia. Qed.

Lemma evolves_ids c xs imm st w c' imm' st' w' : evolves c xs imm st w c' imm' st' w' → step_ids c' xs imm' st' ≤ step_ids c xs imm st.
Proof.
  intros [_ _ Ho _ Hl _]. unfold step_ids. rewrite Ho. enough (load c' xs imm' (st_levels st') / target (st_options st) ≤
    load c xs imm (st_levels st) / target (st_options st)) by lia. apply Z.div_le_mono; [unfold target; lia|done].
Qed.

(** * Compactions *)

(** What a round leaves: nothing a client sees, and not too many ids used. *)
Definition ran (U : Z) (c : Z → list entry) (xs : list write) (imm : option (list write)) (st : LsmStore) (w : World)
    (st' : LsmStore) (w' : World) : Prop :=
  ∃ c', evolves c xs imm st w c' imm st' w' ∧ st_next_id st' ≤ U ∧ same_flags st st'.

Lemma ran_trans U c xs imm st w c1 st1 w1 st2 w2 : evolves c xs imm st w c1 imm st1 w1 → same_flags st st1 →
  ran U c1 xs imm st1 w1 st2 w2 → ran U c xs imm st w st2 w2.
Proof. intros He Hf (c2 & He2 & Hn & Hf2). exists c2. split_and!; [by eapply evolves_trans|done|by etrans]. Qed.

Lemma pick_ready c xs imm st w force : serving c xs imm st w →
  ∃ r, pick_compaction st force = ROk r ∧ match r with
    Some work => picked (st_levels st) work ∧ Z.of_nat (cw_level work) + 2 ≤ kDepthLimit | None => True end.
Proof.
  intros Hs. pose proof (sv_sane _ _ _ _ _ Hs) as Hsane. pose proof (sv_tables _ _ _ _ _ Hs) as Ht.
  destruct (pick_compaction_ok c st force (tk_levels _ _ _ _ Ht) (so_trigger _ Hsane)) as (r & E & Hr).
  exists r. split; [done|]. destruct r as [work|]; [|done]. split; [done|]. apply pick_compaction_depth in E.
  pose proof (so_levels _ Hsane). pose proof (tk_depth _ _ _ _ Ht). unfold kDepthLimit in *. lia.
Qed.

Lemma needs_ready c xs imm st w : serving c xs imm st w → ∃ b, needs_compaction st = ROk b.
Proof. intros Hs. destruct (pick_ready c xs imm st w false Hs) as (r & Er & _). unfold needs_compaction. rewrite Er. by eexists. Qed.

Lemma wp_compaction_loop xs imm force steps : ∀ c st w progressed U, serving c xs imm st w → reliable w →
  load c xs imm (st_levels st) ≤ kTotalLimit → st_next_id st + Z.of_nat steps * step_ids c xs imm st ≤ U → U ≤ UINT32_MAX →
  wp (compaction_loop steps force progressed) st w
    (λ r st' w', ran U c xs imm st w st' w' ∧ (needs_compaction st = ROk true ∨ progressed = true → r = true))
    (λ e st' w', (code_ e = InvalidArgument ∨ code_ e = IOError) ∧ ran U c xs imm st w st' w')
    (λ w', recoverable (w_files w') (database c xs imm st)).
Proof.
  induction steps as [|steps IH]; intros c st w progressed U Hs Hrel Hload HU Hmax; cbn [compaction_loop].
  { apply wp_fail. split; [by right|]. exists c. split_and!; [by apply evolves_refl|lia|done..]. }
  pose proof (step_ids_pos c xs imm st) as Hpos. wp_pure. rewrite (sv_flags _ _ _ _ _ Hs).
  destruct (pick_ready c xs imm st w false Hs) as (r & Er & Hr). rewrite Er. wp_pure.
  assert (Hself : ran U c xs imm st w st w) by (exists c; split_and!; [by apply evolves_refl|lia|done..]).
  assert (Hgo : ∀ work, picked (st_levels st) work ∧ Z.of_nat (cw_level work) + 2 ≤ kDepthLimit →
    wp (installed ← compact_once work;
        if negb installed then mret progressed else if negb force then mret true else compaction_loop steps force true) st w
      (λ r st' w', ran U c xs imm st w st' w' ∧ (needs_compaction st = ROk true ∨ progressed = true → r = true))
      (λ e st' w', (code_ e = InvalidArgument ∨ code_ e = IOError) ∧ ran U c xs imm st w st' w')
      (λ w', recoverable (w_files w') (database c xs imm st))).
  { intros work [Hpk Hdep]. wp_call (wp_compact_once c xs imm st w work Hs Hpk Hrel Hload Hdep (st_next_id st + step_ids c xs imm st)).
    - unfold step_ids. lia.
    - lia.
    - intros r1 st1 w1 Hc1 (-> & c1 & He & Hn1 & Hf). cbn [negb]. destruct force; cbn [negb].
      + pose proof (evolves_ids _ _ _ _ _ _ _ _ _ He) as Hids. pose proof (ev_load _ _ _ _ _ _ _ _ _ He).
        eapply wp_mono; [eapply (IH c1 st1 w1 true U (ev_serving _ _ _ _ _ _ _ _ _ He)); [eauto with wp|lia|nia|done]|..]; cbn beta.
        * intros r2 st2 w2 _ [Hran Hp]. split; [by eapply ran_trans|]. intros _. apply Hp. by right.
        * intros e st2 w2 _ [Hcode Hran]. split; [done|by eapply ran_trans].
        * intros w2 _. by rewrite (ev_database _ _ _ _ _ _ _ _ _ He).
      + apply wp_ret. split; [|done]. exists c1. split_and!; [done|lia|apply Hf..].
    - intros e st1 w1 _ (Hcode & He & Hn & Hf). split; [by left|]. exists c. split_and!; [done|lia|apply Hf..]. }
  destruct r as [work|]; wp_pure; [by apply Hgo|].
  assert (Hnone : needs_compaction st = ROk true → False) by (unfold needs_compaction; rewrite Er; by cbn).
  destruct force.
  - destruct (pick_ready c xs imm st w true Hs) as (r2 & Er' & Hr'). rewrite Er'. wp_pure. destruct r2 as [work|]; [by apply Hgo|].
    apply wp_ret. split; [done|]. intros [?|?]; [by exfalso|done].
  - wp_pure. apply wp_ret. split; [done|]. intros [?|?]; [by exfalso|done].
Qed.

(** * Rounds *)

(** A state with other flags of the background thread. *)
Definition relabel (b q h : bool) (r : Status) (st : LsmStore) : LsmStore :=
  st_set_background_busy b (st_set_compact_requested q (st_set_halted_by_fail_point h (st_set_background_status r st))).

Lemma serving_relabel c xs imm st w b q h r : serving c xs imm st w → serving c xs imm (relabel b q h r st) w.
Proof. intros [H1 H2 H3 H4 H5 H6 H7 H8 H9 H10]. split; try done; [by eapply logs_ok_state|by destruct H10]. Qed.

Lemma evolves_relabel c xs imm st w c' imm' st' w' b q h r b' q' h' r' :
  evolves c xs imm (relabel b q h r st) w c' imm' st' w' → evolves c xs imm st w c' imm' (relabel b' q' h' r' st') w'.
Proof. intros [H1 H2 H3 H4 H5 H6]. split; try done. by apply serving_relabel. Qed.

Lemma relabel_busy b st : st_set_background_busy b st =
  relabel b (st_compact_requested st) (st_halted_by_fail_point st) (st_background_status st) st.
Proof. by destruct st. Qed.

Lemma relabel_status e st : st_set_background_busy false (st_set_background_status e st) =
  relabel false (st_compact_requested st) (st_halted_by_fail_point st) e st.
Proof. by destruct st. Qed.

Lemma relabel_requested st : st_set_background_busy false (st_set_compact_requested false st) =
  relabel false false (st_halted_by_fail_point st) (st_background_status st) st.
Proof. by destruct st. Qed.

(** The engine before and after rounds of the background thread. *)
Record rounds (U : Z) (c : Z → list entry) (xs : list write) (imm : option (list write)) (st : LsmStore) (w : World)
    (c' : Z → list entry) (imm' : option (list write)) (st' : LsmStore) (w' : World) : Prop := {
  rd_evolves : evolves c xs imm st w c' imm' st' w';
  rd_ids : st_next_id st' ≤ U;
  rd_busy : st_background_busy st' = false;
  rd_imm : imm' = imm ∨ imm' = None;
}.

Definition bool_nat (b : bool) : nat := if b then 1 else 0.
Definition is_some {A} (o : option A) : bool := match o with Some _ => true | None => false end.

(** Rounds the thread has to do before it may sleep. *)
Definition pending (imm : option (list write)) (st : LsmStore) : nat :=
  bool_nat (is_some imm) + bool_nat (st_compact_requested st).

Lemma status_sticks e st : code_ e = InvalidArgument ∨ code_ e = IOError → idle (st_set_background_status e st) = true.
Proof. intros He. unfold idle, is_ok. cbn. destruct He as [-> | ->]; cbn; by rewrite !orb_true_r. Qed.

(** The ids a wait for the thread may use. *)
Definition kRoundSteps : Z := 10000.

Section Round.
Context (c : Z → list entry) (xs : list write) (imm : option (list write)) (st : LsmStore) (w : World) (U : Z).
Hypothesis Hs : serving c xs imm st w.
Hypothesis Hrel : reliable w.
Hypothesis Hbusy : st_background_busy st = false.
Hypothesis Hload : load c xs imm (st_levels st) ≤ kTotalLimit.
Hypothesis HU : st_next_id st + kRoundSteps * step_ids c xs imm st ≤ U.
Hypothesis Hmax : U ≤ UINT32_MAX.

(** What a round has done. *)
Definition round_done (worked : bool) (st' : LsmStore) (w' : World) : Prop :=
  ∃ c' imm', rounds U c xs imm st w c' imm' st' w' ∧
    if worked then idle st = false ∧ (idle st' = true ∨ (pending imm' st' < pending imm st)%nat ∨ pending imm st = 0%nat)
    else st' = st ∧ (idle st = true ∨ pending imm st = 0%nat).

Lemma wp_flush_round ys : imm = Some ys → idle st = false →
  wp (modify (st_set_background_busy true);;
      r ← attempt run_flush;
      background_outcome r;;
      modify (st_set_background_busy false);;
      mret true) st w
    round_done (λ _ _ _, False) (λ w', recoverable (w_files w') (database c xs imm st)).
Proof.
  unfold round_done. intros -> Hidle. wp_pure. pose proof (step_ids_pos c xs (Some ys) st). unfold kRoundSteps in HU.
  set (st0 := st_set_background_busy true st).
  pose proof (relabel_busy true st : st0 = _) as E0.
  assert (Hs0 : serving c xs (Some ys) st0 w) by (rewrite E0; by apply serving_relabel).
  eapply wp_bind_attempt; [by eapply (wp_run_flush c xs ys st0 w Hs0 Hrel)|..]; cbn beta; [..|done].
  - intros r st1 w1 _ (-> & c' & He & Hf & Hn). cbn [background_outcome]. wp_pure. apply wp_ret. rewrite E0 in He.
    rewrite (relabel_busy false st1). exists c', None. split.
    + split; [eapply evolves_relabel, He|cbn; rewrite Hn; cbn; lia|done|by right].
    + split; [done|]. right. left. unfold pending. cbn. destruct Hf as (_ & _ & -> & _). cbn. lia.
  - intros e st1 w1 _ (Hcode & He & Hf & Hn). cbn [background_outcome]. wp_pure. apply wp_ret. rewrite E0 in He.
    rewrite (relabel_status e st1). exists c, (Some ys). split.
    + split; [eapply evolves_relabel, He|cbn; rewrite Hn; cbn; lia|done|by left].
    + split; [done|]. left. apply (status_sticks e st1). by left.
Qed.

Lemma wp_compaction_round force : idle st = false → imm = None →
  wp (modify (st_set_background_busy true);;
      r ← attempt (run_compaction force);
      background_outcome r;;
      modify (st_set_compact_requested false);;
      modify (st_set_background_busy false);;
      mret true) st w
    round_done (λ _ _ _, False) (λ w', recoverable (w_files w') (database c xs imm st)).
Proof.
  intros Hidle Himm. wp_pure. set (st0 := st_set_background_busy true st).
  pose proof (relabel_busy true st : st0 = _) as E0.
  assert (Hs0 : serving c xs imm st0 w) by (rewrite E0; by apply serving_relabel).
  assert (Hdone : ∀ st1 h r w1, ran U c xs imm st0 w st1 w1 → round_done true (relabel false false h r st1) w1).
  { intros st1 h r w1 (c' & He & Hn & Hf). rewrite E0 in He. exists c', imm. split.
    - split; [eapply evolves_relabel, He|done|done|by left].
    - split; [done|]. right. unfold pending. rewrite Himm. cbn. destruct (st_compact_requested st); cbn; [left|right]; lia. }
  unfold run_compaction. assert (Esteps : Z.of_nat (Z.to_nat 10000) = kRoundSteps) by (rewrite Z2Nat.id; [done|lia]).
  generalize dependent (Z.to_nat 10000). intros steps Esteps.
  eapply wp_bind_attempt; [eapply (wp_compaction_loop xs imm _ steps c st0 w false U Hs0 Hrel Hload); [|done]|..]; cbn beta.
  - rewrite Esteps. exact HU.
  - intros r st1 w1 _ [Hran _]. cbn [background_outcome]. destruct r; wp_pure; apply wp_ret.
    + rewrite (relabel_requested st1). by apply Hdone.
    + exact (Hdone st1 true (st_background_status st1) w1 Hran).
  - intros e st1 w1 _ [_ Hran]. cbn [background_outcome]. wp_pure. apply wp_ret.
    exact (Hdone st1 (st_halted_by_fail_point st1) e w1 Hran).
  - done.
Qed.

Lemma wp_background_round :
  wp background_round st w round_done (λ _ _ _, False) (λ w', recoverable (w_files w') (database c xs imm st)).
Proof.
  pose proof (step_ids_pos c xs imm st). unfold kRoundSteps in HU.
  assert (Hrd : rounds U c xs imm st w c imm st w) by (split; [by apply evolves_refl|lia|done|by left]).
  unfold background_round. wp_pure. rewrite (sv_flags _ _ _ _ _ Hs), (sv_imm _ _ _ _ _ Hs).
  destruct (idle st) eqn:Eidle; cbn [negb andb].
  { wp_pure. apply wp_ret. exists c, imm. split; [done|]. split; [done|by left]. }
  assert (Ei : ∃ o, imm = o) by eauto. destruct Ei as [[ys|] Ei]; rewrite Ei; cbn [fmap option_fmap option_map].
  { rewrite <-Ei. by eapply wp_flush_round. }
  rewrite <-Ei. destruct (st_compact_requested st) eqn:Eq.
  { apply wp_bind_ret. by apply wp_compaction_round. }
  destruct (needs_ready c xs imm st w Hs) as [[] Eb]; rewrite Eb; apply wp_bind_ok.
  { by apply wp_compaction_round. }
  apply wp_ret. exists c, imm. split; [done|]. split; [done|]. right. unfold pending. by rewrite Ei, Eq.
Qed.
End Round.

(** * Waiting *)

Lemma rounds_trans U c xs imm st w c1 imm1 st1 w1 c2 imm2 st2 w2 :
  evolves c xs imm st w c1 imm1 st1 w1 → imm1 = imm ∨ imm1 = None →
  rounds U c1 xs imm1 st1 w1 c2 imm2 st2 w2 → rounds U c xs imm st w c2 imm2 st2 w2.
Proof.
  intros He Hi [A1 A2 A3 A4]. split; [by eapply evolves_trans|done|done|]. destruct A4 as [->| ->]; [done|by right].
Qed.

(** A predicate that holds when the thread is idle or has nothing to do. *)
Definition awaits (xs : list write) (pred : LsmStore → bool) : Prop :=
  ∀ c imm st w, serving c xs imm st w → st_background_busy st = false → pred st = false →
    idle st = false ∧ pending imm st ≠ 0%nat.

Lemma awaits_slot xs : awaits xs flush_slot_free.
Proof.
  intros c imm st w Hs _. unfold flush_slot_free, pending. rewrite (sv_imm _ _ _ _ _ Hs), orb_false_iff.
  by destruct imm; cbn; intros [? ?].
Qed.

Lemma awaits_settled xs : awaits xs background_settled.
Proof.
  intros c imm st w Hs Hb. unfold background_settled, pending. rewrite (sv_imm _ _ _ _ _ Hs), Hb, orb_false_iff.
  destruct imm; cbn; intros [? E]; (split; [done|]); [lia|]. by destruct (st_compact_requested st).
Qed.

Lemma wp_wait xs pred fuel : awaits xs pred → ∀ c imm st w U, serving c xs imm st w → reliable w →
  st_background_busy st = false → load c xs imm (st_levels st) ≤ kTotalLimit →
  st_next_id st + Z.of_nat fuel * (kRoundSteps * step_ids c xs imm st) ≤ U → U ≤ UINT32_MAX →
  idle st = true ∨ (pending imm st ≤ fuel)%nat →
  wp (wait fuel pred) st w
    (λ _ st' w', pred st' = true ∧ ∃ c' imm', rounds U c xs imm st w c' imm' st' w')
    (λ _ _ _, False) (λ w', recoverable (w_files w') (database c xs imm st)).
Proof.
  intros Hpred. induction fuel as [|fuel IH]; intros c imm st w U Hs Hrel Hb Hload HU Hmax Hp; cbn [wait]; wp_pure.
  all: pose proof (step_ids_pos c xs imm st) as Hpos; unfold kRoundSteps in HU.
  all: destruct (pred st) eqn:Epred.
  1,3: apply wp_ret; split; [done|]; exists c, imm; split; [by apply evolves_refl|lia|done|by left].
  all: destruct (Hpred c imm st w Hs Hb Epred) as [Hid Hpend]; destruct Hp as [?|Hp]; [congruence|].
  { lia. }
  wp_call (wp_background_round c xs imm st w (st_next_id st + kRoundSteps * step_ids c xs imm st) Hs Hrel Hb Hload).
  - done.
  - unfold kRoundSteps. lia.
  - intros worked st1 w1 Hc1 (c1 & imm1 & [He Hn1 Hb1 Hi1] & Hw). destruct worked; [|destruct Hw as [_ [?|?]]; congruence].
    pose proof (evolves_ids _ _ _ _ _ _ _ _ _ He) as Hids. pose proof (ev_load _ _ _ _ _ _ _ _ _ He). unfold kRoundSteps in Hn1.
    eapply wp_mono; [eapply (IH c1 imm1 st1 w1 U (ev_serving _ _ _ _ _ _ _ _ _ He)); [eauto with wp|done|lia| |done|]|..]; cbn beta.
    + unfold kRoundSteps. nia.
    + destruct Hw as [_ [?|[?|?]]]; [by left|right; lia|done].
    + intros _ st2 w2 _ (Hp2 & c2 & imm2 & Hr). split; [done|]. exists c2, imm2. by eapply rounds_trans.
    + done.
    + intros w2 _. by rewrite (ev_database _ _ _ _ _ _ _ _ _ He).
Qed.

Lemma pending_rounds imm st : (pending imm st ≤ wait_rounds)%nat.
Proof. unfold pending, wait_rounds. destruct (is_some imm), (st_compact_requested st); cbn; lia. Qed.
End Background.
