(* ===== verification/LsmWrite.v ===== *)
(** Writes to a running engine: rotating a full memtable, and the write itself, which
    has happened once its log record is complete. *)

From S2P Require Import Prelude Status FileNames World Wp Encoding Record SortedMap Memtable SSTableFormat LogFile Manifest LogScan SSTableLayout LsmStats SSTable SSTableBuild SSTableRead SSTableOpen IteratorMerge Wal LsmState LsmCompact Lsm LsmLevels LsmGet LsmDisk LsmPick LsmMerge LsmCommit LsmServe LsmReads LsmFlush LsmCompacted LsmBackground.
Import sstable LsmState LsmCompact LsmOps WalOps.

#[local] Opaque record.encode record.decode record.decode_header.

Section Write.
Context `{Platform}.

Lemma wp_on_wal {A} (m : M Wal A) st wal w Q E D : st_wal st = Some wal → wp m wal w Q E D →
  wp (on_wal m) st w (λ a st' w', ∃ wal', st' = st_set_wal (Some wal') st ∧ Q a wal' w')
    (λ e st' w', ∃ wal', st' = st_set_wal (Some wal') st ∧ E e wal' w') D.
Proof. intros Ew Hm. unfold wp, on_wal in *. rewrite Ew. unfold zoom. destruct (m wal w); naive_solver. Qed.

Lemma wp_close_wal st wal w : st_wal st = Some wal → lf_open (wal_file wal) = true →
  wp (on_wal WalOps.close) st w
    (λ _ st' w', (∃ wal', st' = st_set_wal (Some wal') st) ∧ same_files w w')
    (λ _ _ _, ¬ reliable w) (same_files w).
Proof.
  intros Ew Ho. eapply wp_mono.
  - by eapply (wp_on_wal WalOps.close st wal w), wp_wal_close.
  - naive_solver.
  - naive_solver.
  - done.
Qed.

(** * Rotation *)

Section Rotate.
Context (c : Z → list entry) (xs : list write) (st : LsmStore) (w : World).
Hypothesis Hs : serving c xs None st w.
Hypothesis Hne : xs ≠ [].
Hypothesis Hrel : reliable w.
Let n := st_next_id st.
Hypothesis Hids : n + 2 ≤ UINT32_MAX.

(** The state [rotate_begin] leaves, and the one the rotation ends in. *)
Definition rotating : LsmStore :=
  st_set_next_id (n + 2) (st_set_mem MemtableOps.empty_table (st_set_imm_table_id n (st_set_imm_wal_id (st_wal_id st)
    (st_set_imm (Some (st_mem st)) st)))).
Definition rotated (wal : Wal) : LsmStore := st_set_wal_id (n + 1) (st_set_wal (Some wal) rotating).

Lemma rotate_begin_eq : rotate_begin st w = Ok (n + 1) rotating w.
Proof.
  pose proof (tk_next _ _ _ _ (sv_tables _ _ _ _ _ Hs)) as Hn. fold n in Hn. unfold rotating, n in *.
  unfold rotate_begin, claim_id, mbind, M_bind, get, modify. cbn.
  rewrite (u32_id (st_next_id st + 1)) by (unfold kFirstFileId, UINT32_MAX in *; lia).
  rewrite (u32_id (st_next_id st + 1 + 1)) by (unfold kFirstFileId, UINT32_MAX in *; lia).
  by rewrite <-Z.add_assoc.
Qed.

Lemma no_such_log : w_files w !! wal_file_name (n + 1) = None.
Proof.
  pose proof (tk_next _ _ _ _ (sv_tables _ _ _ _ _ Hs)) as Hn. fold n in Hn.
  destruct (sv_logs _ _ _ _ _ Hs) as [_ [_ Hlt] _ Honly]. fold n in Hlt.
  destruct (w_files w !! wal_file_name (n + 1)) eqn:E; [|done].
  destruct (Honly (wal_file_name (n + 1)) (n + 1)) as [_ Hin]; [by rewrite E| |].
  - apply parse_wal_name. unfold valid_id, kFirstFileId in *. lia.
  - unfold log_list in Hin. cbn in Hin. apply list_elem_of_singleton in Hin. lia.
Qed.

Lemma rotated_logs mode w' : w_files w' = <[wal_file_name (n + 1) := mkFile [] 0]> (w_files w) →
  logs_ok [] (Some xs) (rotated (mkWal (mkLogFile true (wal_file_name (n + 1)) 0 mode))) (w_files w').
Proof.
  pose proof (tk_next _ _ _ _ (sv_tables _ _ _ _ _ Hs)) as Hn. fold n in Hn.
  destruct (sv_logs _ _ _ _ _ Hs) as [(wal & Ew & Hh & Hp) [Hid Hlt] _ Honly]. fold n in Hlt. intros E.
  assert (Hv : valid_id (n + 1)) by (unfold valid_id, kFirstFileId in *; lia).
  destruct (Hh w eq_refl) as (Hvx & f & Ho & Hf & Hd & He). rewrite Hp in Hf. rewrite app_nil_r in Hd. split.
  - eexists. split_and!; [done| |done]. intros w0 E0. split; [done|]. exists (mkFile [] 0). split_and!; [done| |done|done].
    cbn. by rewrite E0, E, lookup_insert_eq.
  - split; [done|]. cbn. lia.
  - intros ys [= <-]. split_and!; [done|done|cbn; lia|]. exists f. split; [|done]. cbn. rewrite E, lookup_insert_ne; [done|].
    intros E2%wal_file_name_inj; [lia|done|done].
  - intros name id Hin Hpn. rewrite E in Hin. destruct (decide (name = wal_file_name (n + 1))) as [->|Hneq].
    + rewrite parse_wal_name in Hpn by done. injection Hpn as <-. split; [done|]. cbn. by right; left.
    + rewrite lookup_insert_ne in Hin by done. destruct (Honly name id Hin Hpn) as [-> Hi]. split; [done|]. cbn in *.
      apply list_elem_of_singleton in Hi as ->. by left.
Qed.

Lemma rotated_serving mode w' : w_files w' = <[wal_file_name (n + 1) := mkFile [] 0]> (w_files w) →
  serving c [] (Some xs) (rotated (mkWal (mkLogFile true (wal_file_name (n + 1)) 0 mode))) w'.
Proof.
  intros E. pose proof (rotated_logs mode w' E) as Hl. pose proof Hs as [H1 H2 H3 H4 H5 H6 H7 H8 H9 H10].
  pose proof (tk_next _ _ _ _ H7) as Hn. fold n in Hn.
  assert (Hsst : ∀ i, w_files w' !! sst_file_name i = w_files w !! sst_file_name i).
  { intros i. rewrite E, lookup_insert_ne; [done|]. apply wal_not_sst. }
  assert (Hnew : ∀ p, p ∈ st_levels st :: st_pins st → n ∉ t_id <$> concat p).
  { intros p Hp (t & Et & Ht)%list_elem_of_fmap. destruct (in_use c xs None st w Hs p t Hp Ht) as [_ Hlt]. unfold n in Et. lia. }
  split; try done.
  - cbn. by rewrite H4.
  - eapply tables_ok_files; [exact H7|cbn; fold n; lia|by intros|]. rewrite E, lookup_insert_ne; [done|]. apply wal_not_manifest.
  - intros ys [= <-]. cbn. split_and!; [done|unfold valid_id; lia|lia|done|].
    intros (t & Et & Ht)%list_elem_of_fmap. pose proof (pn_obsolete _ _ _ H10) as Ho. rewrite Forall_forall in Ho.
    destruct (Ho t Ht) as (_ & Hlt & _). unfold n in Et. lia.
  - apply (pins_ok_files c _ w); [|by intros]. destruct H10 as [Hp Ho]. split; cbn.
    + eapply Forall_impl; [exact Hp|]. cbn. intros p (? & ? & Hi). split_and!; [done|done|]. eapply Forall_impl; [exact Hi|].
      cbn. fold n. intros t [? ?]. split; [done|lia].
    + eapply Forall_impl; [exact Ho|]. cbn. fold n. intros t (? & ? & ? & ?). split_and!; try done. lia.
Qed.

(** A rotation moves the memtable aside and starts an empty log. *)
Record rotation (st' : LsmStore) (w' : World) : Prop := {
  rt_serving : serving c [] (Some xs) st' w';
  rt_steady : steady st st' w w';
  rt_options : st_options st' = st_options st;
  rt_next : st_next_id st' = n + 2;
  rt_levels : st_levels st' = st_levels st;
  rt_flags : same_flags st st';
}.

Lemma rotation_database st' w' : rotation st' w' → database c [] (Some xs) st' = database c xs None st.
Proof.
  intros Hr. unfold database, state_map. rewrite (rt_levels _ _ Hr). cbn [from_option].
  by rewrite written_nil, !map_empty_union.
Qed.

Lemma rotated_rotation mode w' : w_files w' = <[wal_file_name (n + 1) := mkFile [] 0]> (w_files w) →
  rotation (rotated (mkWal (mkLogFile true (wal_file_name (n + 1)) 0 mode))) w'.
Proof.
  intros E. split; try done; [by apply rotated_serving|]. split; [done|]. intros p t _ _.
  rewrite E, lookup_insert_ne; [done|]. apply wal_not_sst.
Qed.

Lemma wp_rotate_memtable :
  wp rotate_memtable st w (λ _ st' w', rotation st' w') (λ _ _ _, False)
    (λ w', recoverable (w_files w') (database c xs None st)).
Proof.
  unfold rotate_memtable. eapply wp_bind_eq; [apply rotate_begin_eq|]. unfold rotate_wal.
  destruct (sv_logs _ _ _ _ _ Hs) as [(wal & Ew & Hh & Hp) _ _ _]. destruct (Hh w eq_refl) as (_ & f & Ho & _).
  assert (Hold : ∀ w', same_files w w' → recoverable (w_files w') (database c xs None st)).
  { intros w' Hsf. by eapply serving_recoverable, serving_same. }
  assert (Hnew : ∀ w', w_files w' = <[wal_file_name (n + 1) := mkFile [] 0]> (w_files w) →
    recoverable (w_files w') (database c xs None st)).
  { intros w' E. pose proof (rotated_rotation Always w' E) as Hr. rewrite <-(rotation_database _ _ Hr).
    eapply serving_recoverable, rt_serving, Hr. }
  eapply wp_bind_attempt; [by eapply (wp_close_wal rotating wal w)|..]; cbn beta; [|done|by auto].
  intros [] st1 w1 Hc1 ((wal' & ->) & Hsf1). wp_pure. set (st1 := st_set_wal (Some wal') rotating).
  pose proof no_such_log as Hno. rewrite <-(proj1 Hsf1) in Hno.
  assert (Ef : LogFileOps.opened (wal_file_name (n + 1)) (w_files w1) = <[wal_file_name (n + 1) := mkFile [] 0]> (w_files w)).
  { unfold LogFileOps.opened. by rewrite Hno, (proj1 Hsf1). }
  assert (Ed : LogFileOps.opened_file (wal_file_name (n + 1)) (w_files w1) = mkFile [] 0).
  { unfold LogFileOps.opened_file. by rewrite Hno. }
  eapply wp_bind_attempt; [apply (wp_wal_open (wal_file_name (n + 1)) _ st1 w1); [eauto with wp|by rewrite Ed]|..]; cbn beta; [|done|].
  2: { intros w2 _ [Hsf|[E _]]; [apply Hold; by etrans|]. apply Hnew. by rewrite E, Ef. }
  intros wal2 st2 w2 Hc2 (-> & [E _] & ->). rewrite Ed, Ef in *.
  eapply wp_bind_attempt; [apply wp_lsm_sync_dir|..]; cbn beta.
  - intros [] st3 w3 Hc3 (-> & Hsf3). wp_pure. apply wp_modify. apply rotated_rotation. by rewrite (proj1 Hsf3).
  - intros e st3 w3 _ (_ & _ & Hq & _). exfalso. apply Hq. eauto with wp.
  - intros w3 _ Hsf3. apply Hnew. by rewrite (proj1 Hsf3).
Qed.
End Rotate.

(** * The log record and the memtable *)

(** A write carried out on the map. *)
Definition effect (key value : bytes) (tombstone : bool) (db : gmap bytes bytes) : gmap bytes bytes :=
  if tombstone then delete key db else <[key := value]> db.

Lemma database_write c xs imm st key value tomb ts :
  database c (xs ++ [write_of key value tomb ts]) imm st = effect key value tomb (database c xs imm st).
Proof.
  unfold database, state_map. rewrite written_snoc, <-insert_union_l, kv_of_write. cbn [fst snd].
  generalize (written xs ∪ (from_option written ∅ imm ∪ view c (st_levels st))). intros m.
  apply map_eq. intros k. rewrite live_lookup. unfold effect. change (wr_key (write_of key value tomb ts)) with key.
  destruct (decide (k = key)) as [->|Hne].
  - rewrite lookup_insert_eq. destruct tomb; [by rewrite lookup_delete_eq|by rewrite lookup_insert_eq].
  - rewrite lookup_insert_ne by done. destruct tomb; [rewrite lookup_delete_ne by done|rewrite lookup_insert_ne by done]; by rewrite live_lookup.
Qed.

Section Append.
Context (c : Z → list entry) (xs : list write) (imm : option (list write)) (st : LsmStore) (w w' : World) (f' : file).
Hypothesis Hs : serving c xs imm st w.
Let path := wal_file_name (st_wal_id st).
Hypothesis Hw : w_files w' = <[path := f']> (w_files w).

Lemma append_sst i : w_files w' !! sst_file_name i = w_files w !! sst_file_name i.
Proof. rewrite Hw, lookup_insert_ne; [done|]. apply wal_not_sst. Qed.

Lemma append_tables : tables_ok c (st_levels st) (st_next_id st) w'.
Proof.
  pose proof (tk_next _ _ _ _ (sv_tables _ _ _ _ _ Hs)). eapply tables_ok_files; [by apply (sv_tables _ _ _ _ _ Hs)|lia|..].
  - intros t _. apply append_sst.
  - rewrite Hw, lookup_insert_ne; [done|]. apply wal_not_manifest.
Qed.

Lemma append_only name id : is_Some (w_files w' !! name) → parse_wal_file_id name = Some id →
  name = wal_file_name id ∧ id ∈ (log_list xs imm st).*1.
Proof.
  destruct (sv_logs _ _ _ _ _ Hs) as [_ [Hid _] _ Honly]. rewrite Hw. intros Hin Hp.
  destruct (decide (name = path)) as [->|Hne]; [|rewrite lookup_insert_ne in Hin by done; by apply Honly].
  unfold path in Hp. rewrite parse_wal_name in Hp by done. injection Hp as <-. split; [done|].
  unfold log_list. rewrite fmap_app, elem_of_app. right. by left.
Qed.

Lemma append_imm ys : imm = Some ys → ∃ f, w_files w' !! wal_file_name (st_imm_wal_id st) = Some f ∧ f_data f = log_of ys.
Proof.
  intros Ei. destruct (sv_logs _ _ _ _ _ Hs) as [_ [Hid _] Himm _]. destruct (Himm ys Ei) as (_ & Hv & Hlt & f & Hf & Hd).
  exists f. rewrite Hw, lookup_insert_ne; [done|]. intros E%wal_file_name_inj; [lia|done|done].
Qed.

(** A log that ends in part of a record can be recovered. *)
Lemma append_recoverable xs' tl : Forall valid_write xs' → torn tl → f_data f' = log_of xs' ++ tl →
  recoverable (w_files w') (database c xs' imm st).
Proof.
  intros Hv Htl Hd. destruct (tables_ok_stored _ _ _ _ append_tables) as (m & metas & Hm & Hts & Hview).
  destruct (sv_logs _ _ _ _ _ Hs) as [_ [Hid Hlt] Himm _]. pose proof (tk_next _ _ _ _ (sv_tables _ _ _ _ _ Hs)) as Hn.
  pose proof append_imm as Hai. exists c, metas, m, (log_list xs' imm st). split.
  - assert (Hx : log_stored (w_files w') (st_wal_id st, xs')).
    { split_and!; [done|cbn; lia|done|]. exists f', tl. split_and!; [|done|done]. cbn. by rewrite Hw, lookup_insert_eq. }
    split; try done.
    + unfold log_list. destruct imm as [ys|] eqn:Ei; cbn; [|repeat constructor].
      destruct (Himm ys eq_refl) as (_ & _ & ? & _). repeat constructor. done.
    + unfold log_list. apply Forall_app. split; [|by constructor]. destruct imm as [ys|] eqn:Ei; [|done].
      destruct (Himm ys eq_refl) as (Hvy & Hiy & Hlty & _). destruct (Hai ys eq_refl) as (g & Hg & Hgd).
      constructor; [|done]. split_and!; [done|cbn; lia|done|]. exists g, []. rewrite app_nil_r. split_and!; [done|done|apply torn_nil].
    + intros name id Hin Hp. destruct (append_only name id Hin Hp) as [-> Hi]. split; [done|].
      unfold log_list in *. by rewrite fmap_app in *.
  - unfold recovered, database, state_map. by rewrite log_list_written, Hview, map_union_assoc.
Qed.

Lemma append_serving wal' xs' : holds_log wal' w' xs' → lf_path (wal_file wal') = path →
  serving c xs' imm (st_set_mem (mem_of xs') (st_set_wal (Some wal') st)) w'.
Proof.
  intros Hh Hp. pose proof Hs as [H1 H2 H3 H4 H5 H6 H7 H8 H9 H10]. split; try done.
  - exact append_tables.
  - destruct H8 as [_ Hid Himm _]. split; [|done|..].
    + exists wal'. split_and!; [done| |done]. intros w0 E0. destruct Hh as (Hv & f & Ho & Hf & Hd & He). split; [done|].
      exists f. split_and!; [done|by rewrite E0|done..].
    + intros ys Ey. destruct (Himm ys Ey) as (? & ? & ? & _). split_and!; try done. by apply append_imm.
    + intros name id Hin Hpn. destruct (append_only name id Hin Hpn) as [-> Hi]. split; [done|].
      unfold log_list in *. by rewrite fmap_app in *.
  - apply (pins_ok_files c _ w); [by destruct H10|]. intros p t _ _. apply append_sst.
Qed.
End Append.

(** * The call *)

Lemma check_write_spec key value tomb : sz key + sz value ≤ UINT64_MAX →
  check_write key value tomb = ROk tt ∧ record.fits key value tomb ∨
  (∃ e, check_write key value tomb = RErr e ∧ code_ e = InvalidArgument) ∧ ¬ record.fits key value tomb.
Proof.
  intros Hmax. unfold check_write, record.fits. pose proof (sz_nonneg key). pose proof (sz_nonneg value).
  destruct (Z.eqb_spec (sz key) 0) as [E|E]; cbn [fail_if].
  { right. split; [by eexists|]. intros [Hne _]. by apply Hne, sz_zero_nil. }
  assert (Hne : key ≠ []) by (by intros ->).
  assert (Es : (if tomb then 0 else sz value) = sz (record.stored value tomb)) by (unfold record.stored; by destruct tomb).
  rewrite u64_id by (destruct tomb; lia). rewrite Es. destruct (Z.ltb_spec (record.kMaxRecordSize - record.kHeaderSize) (sz key + sz (record.stored value tomb))); cbn.
  - right. split; [by eexists|]. intros [_ ?]. lia.
  - left. split; [done|]. split; [done|lia].
Qed.

(** Work a client does not see, the memtable may move. *)
Record unseen (c : Z → list entry) (xs : list write) (imm : option (list write)) (st : LsmStore) (w : World)
    (c' : Z → list entry) (xs' : list write) (imm' : option (list write)) (st' : LsmStore) (w' : World) : Prop := {
  un_serving : serving c' xs' imm' st' w';
  un_steady : steady st st' w w';
  un_options : st_options st' = st_options st;
  un_database : database c' xs' imm' st' = database c xs imm st;
  un_busy : st_background_busy st' = false;
  un_log : xs' = xs ∨ xs' = [];
  un_load : load c' xs' imm' (st_levels st') ≤ load c xs imm (st_levels st);
}.

(** Room for what one call does. *)
Definition kCallRounds : Z := 4.
Record roomy (c : Z → list entry) (xs : list write) (imm : option (list write)) (st : LsmStore) : Prop := {
  ro_load : load c xs imm (st_levels st) ≤ kTotalLimit;
  ro_ids : st_next_id st + kCallRounds * (kRoundSteps * step_ids c xs imm st) + 2 ≤ UINT32_MAX;
  ro_log : sz (log_of xs) ≤ kTotalLimit;
}.

Lemma unseen_refl c xs imm st w : serving c xs imm st w → st_background_busy st = false → unseen c xs imm st w c xs imm st w.
Proof. intros Hs Hb. split; try done. by left. Qed.

Lemma unseen_trans c xs imm st w c1 xs1 imm1 st1 w1 c2 xs2 imm2 st2 w2 :
  unseen c xs imm st w c1 xs1 imm1 st1 w1 → unseen c1 xs1 imm1 st1 w1 c2 xs2 imm2 st2 w2 → unseen c xs imm st w c2 xs2 imm2 st2 w2.
Proof.
  intros [A1 A2 A3 A4 A5 A6 A7] [B1 B2 B3 B4 B5 B6 B7].
  split; [done|by eapply steady_trans|congruence|congruence|done| |lia]. destruct B6 as [->| ->]; [done|by right].
Qed.

Lemma rounds_unseen U c xs imm st w c' imm' st' w' : rounds U c xs imm st w c' imm' st' w' → unseen c xs imm st w c' xs imm' st' w'.
Proof. intros [[A1 A2 A3 A4 A5 A6] B1 B2 B3]. split; try done. by left. Qed.

Lemma rotation_unseen c xs st w st' w' : rotation c xs st w st' w' → st_background_busy st = false →
  unseen c xs None st w c [] (Some xs) st' w'.
Proof.
  intros Hr Hb. pose proof Hr as [A1 A2 A3 A4 A5 (_ & _ & _ & A6)].
  split; try done; [by eapply rotation_database|congruence|by right|]. unfold load. rewrite A5. cbn. lia.
Qed.

(** A refusal: the background thread has failed for good. *)
Definition refusal (e : Status) (st' : LsmStore) : Prop := e = st_background_status st' ∧ is_ok e = false.

Lemma wp_check_background (st : LsmStore) w Q (E : Status → LsmStore → World → Prop) D :
  (is_ok (st_background_status st) = true → Q tt st w) →
  (refusal (st_background_status st) st → E (st_background_status st) st w) → wp check_background st w Q E D.
Proof.
  intros HQ HE. unfold check_background. wp_pure. destruct (is_ok _) eqn:Eok; cbn [negb fail_when].
  - apply wp_ret. auto.
  - apply wp_fail. by apply HE.
Qed.

Lemma full_nonempty c xs imm st w : serving c xs imm st w → memtable_full st = true → xs ≠ [].
Proof.
  intros Hs Hf ->. unfold memtable_full in Hf. rewrite (sv_mem _ _ _ _ _ Hs) in Hf. apply Z.leb_le in Hf.
  pose proof (so_mem _ (sv_sane _ _ _ _ _ Hs)). cbn in Hf. lia.
Qed.

(** What a crash in the append of a write leaves. *)
Lemma append_crash c xs imm st w w' f' key value tomb ts : serving c xs imm st w → Forall valid_write xs →
  w_files w' = <[wal_file_name (st_wal_id st) := f']> (w_files w) → record.fits key value tomb → 0 ≤ ts ≤ UINT64_MAX →
  crash_log xs (write_of key value tomb ts) (f_data f') →
  recoverable (w_files w') (database c xs imm st) ∨ recoverable (w_files w') (effect key value tomb (database c xs imm st)).
Proof.
  intros Hs Hv Hf Hfits Hts Hcr. pose proof (valid_write_of key value tomb ts Hfits Hts) as Hx. destruct Hcr as [Hd|(tl & Htl & Hd)].
  - right. rewrite <-(database_write c xs imm st key value tomb ts).
    eapply (append_recoverable c xs imm st w w' f' Hs Hf _ []); [apply Forall_app; split; [done|by constructor]|apply torn_nil|by rewrite app_nil_r].
  - left. by eapply (append_recoverable c xs imm st w w' f' Hs Hf _ tl).
Qed.

Section Call.
Context (c : Z → list entry) (xs : list write) (imm : option (list write)) (st : LsmStore) (w : World).
Hypothesis Hs : serving c xs imm st w.
Hypothesis Hrel : reliable w.
Hypothesis Hbusy : st_background_busy st = false.
Hypothesis Hroom : roomy c xs imm st.
Let db := database c xs imm st.

(** Work no client sees, within the ids of one wait and a rotation. *)
Definition wait_ids : Z := 2 * (kRoundSteps * step_ids c xs imm st).
Definition unseen_to (st' : LsmStore) (w' : World) : Prop := ∃ c' xs' imm', unseen c xs imm st w c' xs' imm' st' w'.

Lemma wp_wait_call pred : awaits xs pred →
  wp (wait wait_rounds pred) st w
    (λ _ st' w', pred st' = true ∧ ∃ c' imm', rounds (st_next_id st + wait_ids) c xs imm st w c' imm' st' w')
    (λ _ _ _, False) (λ w', recoverable (w_files w') db).
Proof.
  intros Hp. destruct Hroom as [Hl Hi _]. pose proof (step_ids_pos c xs imm st). unfold wait_ids, kCallRounds, kRoundSteps in *.
  eapply (wp_wait xs pred wait_rounds Hp c imm st w); try done.
  - lia.
  - right. apply pending_rounds.
Qed.

(** What waiting for the slot and rotating on [cond] leaves. *)
Definition room_made (cond : LsmStore → bool) (st' : LsmStore) (w' : World) : Prop :=
  ∃ c' xs' imm', unseen c xs imm st w c' xs' imm' st' w' ∧ st_next_id st' ≤ st_next_id st + wait_ids + 2 ∧
    is_ok (st_background_status st') = true ∧ (xs' = [] ∨ xs' = xs ∧ cond st' = false ∧ flush_slot_free st' = true).

(** Both [write_entry] and [flush] wait for the slot and rotate when [cond] says so. *)
Lemma wp_make_room (cond : LsmStore → bool) :
  (∀ c imm st w, serving c xs imm st w → cond st = true → imm = None ∧ xs ≠ []) →
  wp (wait wait_rounds flush_slot_free;; check_background;; st ← get; if cond st then rotate_memtable else mret tt) st w
    (λ _ st' w', room_made cond st' w') (λ e st' w', refusal e st' ∧ unseen_to st' w') (λ w', recoverable (w_files w') db).
Proof.
  intros Hcond. pose proof (step_ids_pos c xs imm st) as Hpos. wp_call (wp_wait_call _ (awaits_slot xs)).
  intros [] st1 w1 Hc1 (Hslot & c1 & imm1 & Hrd). pose proof (rounds_unseen _ _ _ _ _ _ _ _ _ _ Hrd) as Hun.
  pose proof (rd_ids _ _ _ _ _ _ _ _ _ _ Hrd) as Hids1.
  eapply wp_bind; [apply (wp_check_background st1 w1 (λ _ st' w', st' = st1 ∧ w' = w1 ∧ is_ok (st_background_status st1) = true)
    (λ e st' w', refusal e st' ∧ unseen_to st' w') (λ _, False))|..]; cbn beta; [done| | |done|done].
  { intros Href. split; [done|]. by eexists _, _, _. }
  intros [] ? ? _ (-> & -> & Hok). wp_pure. destruct (cond st1) eqn:Ec.
  - destruct (Hcond _ _ _ _ (un_serving _ _ _ _ _ _ _ _ _ _ Hun) Ec) as [-> Hne].
    destruct Hroom as [_ Hi _]. unfold wait_ids, kCallRounds, kRoundSteps in *.
    eapply wp_mono; [apply (wp_rotate_memtable c1 xs st1 w1 (un_serving _ _ _ _ _ _ _ _ _ _ Hun) Hne); [eauto with wp|lia]|..]; cbn beta.
    + intros [] st2 w2 _ Hr. exists c1, [], (Some xs). split_and!; [|rewrite (rt_next _ _ _ _ _ _ Hr); unfold wait_ids, kRoundSteps; lia| |by left].
      * eapply unseen_trans; [exact Hun|]. eapply rotation_unseen; [done|]. by apply (un_busy _ _ _ _ _ _ _ _ _ _ Hun).
      * by rewrite (proj1 (rt_flags _ _ _ _ _ _ Hr)).
    + done.
    + intros w2 _. by rewrite (un_database _ _ _ _ _ _ _ _ _ _ Hun).
  - apply wp_ret. exists c1, xs, imm1. split_and!; [done|lia|done|by right].
Qed.

Lemma wp_write_begin :
  wp write_begin st w (λ _ st' w', unseen_to st' w') (λ e st' w', refusal e st' ∧ unseen_to st' w')
    (λ w', recoverable (w_files w') db).
Proof.
  assert (Hself : unseen_to st w) by (exists c, xs, imm; by apply unseen_refl).
  unfold write_begin. eapply wp_bind; [apply (wp_check_background st w (λ _ st' w', st' = st ∧ w' = w) (λ e st' w', refusal e st' ∧ unseen_to st' w') (λ _, False)); [done|by auto]|..]; cbn beta; [|done|done].
  intros [] ? ? _ (-> & ->). wp_pure.
  eapply wp_bind with (Q1 := λ _ st' w', unseen_to st' w') (E1 := λ e st' w', refusal e st' ∧ unseen_to st' w')
    (D1 := λ w', recoverable (w_files w') db).
  - destruct (memtable_full st); [|by apply wp_ret].
    eapply wp_mono; [apply (wp_make_room (λ st, match st_imm st with None => memtable_full st | Some _ => false end))|..]; cbn beta; [| |done|done].
    2: { intros [] st1 w1 _ (c1 & xs1 & imm1 & Hun & _). by exists c1, xs1, imm1. }
    intros c1 imm1 st1 w1 Hs1 Hc. rewrite (sv_imm _ _ _ _ _ Hs1) in Hc. destruct imm1; cbn in Hc; [done|].
    split; [done|by eapply full_nonempty].
  - intros [] st1 w1 _ Hun. wp_pure. destruct Hun as (c1 & xs1 & imm1 & Hun).
    destruct (sv_logs _ _ _ _ _ (un_serving _ _ _ _ _ _ _ _ _ _ Hun)) as [(wal & -> & _) _ _ _]. apply wp_ret. by exists c1, xs1, imm1.
  - done.
  - done.
Qed.

(** The engine after a call that changed its map to [db']. *)
Definition changed_to (db' : gmap bytes bytes) (st' : LsmStore) (w' : World) : Prop :=
  ∃ c' xs' imm', serving c' xs' imm' st' w' ∧ steady st st' w w' ∧ st_options st' = st_options st ∧
    st_background_busy st' = false ∧ database c' xs' imm' st' = db'.

Lemma unseen_changed st' w' : unseen_to st' w' → changed_to db st' w'.
Proof. intros (c' & xs' & imm' & [A1 A2 A3 A4 A5 A6 A7]). by exists c', xs', imm'. Qed.

Lemma write_memory xs' st1 key value (tomb : bool) ts : st_mem st1 = mem_of xs' →
  (if tomb then MemtableOps.remove key (st_mem st1) else MemtableOps.put key value (st_mem st1)) =
  mem_of (xs' ++ [write_of key value tomb ts]).
Proof. intros ->. rewrite mem_of_snoc, kv_of_write. by destruct tomb. Qed.

Lemma wp_write_logged key value tomb c1 xs1 imm1 st1 w1 : record.fits key value tomb → reliable w1 →
  unseen c xs imm st w c1 xs1 imm1 st1 w1 →
  wp (on_wal (WalOps.append key value tomb);; write_insert key value tomb) st1 w1
    (λ _ st' w', changed_to (effect key value tomb db) st' w') (λ _ _ _, False)
    (λ w', recoverable (w_files w') db ∨ recoverable (w_files w') (effect key value tomb db)).
Proof.
  intros Hfits Hrel1 [A1 A2 A3 A4 A5 A6 A7]. destruct (sv_logs _ _ _ _ _ A1) as [(wal & Ew & Hh & Hp) _ _ _].
  pose proof (Hh w1 eq_refl) as Hlog. pose proof Hlog as [Hv _].
  assert (Hsz : sz (log_of xs1) ≤ kTotalLimit) by (destruct A6 as [->| ->]; [by destruct Hroom|done]).
  eapply wp_bind; [eapply wp_on_wal; [exact Ew|apply (wp_wal_append wal w1 xs1 key value tomb Hrel1 Hlog Hfits)]|..]; cbn beta.
  - unfold kTotalLimit, record.kMaxRecordSize, UINT32_MAX, UINT64_MAX in *. lia.
  - intros [] st2 w2 _ (wal' & -> & ts & f' & Hts & Hlog' & Hf & Hp' & _). rewrite Hp in Hf. rewrite Hp in Hp'. apply wp_modify.
    rewrite (write_memory xs1 _ key value tomb ts) by (by destruct A1). set (xs2 := xs1 ++ _) in *.
    exists c1, xs2, imm1. split_and!; [by eapply (append_serving c1 xs1 imm1 st1 w1 w2 f')| |done|done|].
    + eapply steady_trans; [exact A2|]. split; [done|]. intros p t _ _. by eapply append_sst.
    + unfold db. rewrite <-A4. apply (database_write c1 xs1 imm1 st1).
  - intros e st2 w2 _ (wal' & _ & []).
  - intros w2 _ (ts & f' & Hts & Hf & Hcr & _). rewrite Hp in Hf. unfold db. rewrite <-A4. by eapply append_crash.
Qed.

Lemma wp_write_entry key value tomb : sz key + sz value ≤ UINT64_MAX →
  wp (write_entry key value tomb) st w
    (λ _ st' w', record.fits key value tomb ∧ changed_to (effect key value tomb db) st' w')
    (λ e st' w', changed_to db st' w' ∧
       (code_ e = InvalidArgument ∧ ¬ record.fits key value tomb ∨ record.fits key value tomb ∧ refusal e st'))
    (λ w', recoverable (w_files w') db ∨ recoverable (w_files w') (effect key value tomb db)).
Proof.
  intros Hmax. unfold write_entry. destruct (check_write_spec key value tomb Hmax) as [[-> Hf]|[(e & -> & He) Hf]].
  - wp_pure. wp_call wp_write_begin.
    + intros [] st1 w1 Hc1 (c1 & xs1 & imm1 & Hun). eapply wp_mono; [eapply wp_write_logged; [done| |exact Hun]; eauto with wp|..]; cbn beta; [|done|done].
      intros [] st2 w2 _ Hch. done.
    + intros e st1 w1 _ [Hr Hun]. split; [by apply unseen_changed|by right].
    + intros w1 _ Hrec. by left.
  - apply wp_bind_err. split; [|by left]. apply unseen_changed. exists c, xs, imm. by apply unseen_refl.
Qed.
End Call.
End Write.
