(* ===== verification/LsmCalls.v ===== *)
(** Flushes, compactions and syncs a client asks for, and the bytes in the directory as a bound
    on everything the engine computes with. *)

From S2P Require Import Prelude Status FileNames World Wp Encoding Record SortedMap Memtable SSTableFormat LogFile Manifest.
From S2P Require Import LogScan SSTableLayout LsmStats SSTable SSTableBuild SSTableRead SSTableOpen IteratorMerge Wal LsmState LsmCompact Lsm.
From S2P Require Import LsmLevels LsmGet LsmDisk LsmPick LsmMerge LsmCommit LsmServe LsmReads LsmFlush LsmCompacted.
From S2P Require Import LsmBackground LsmWrite.
Import sstable LsmState LsmCompact LsmOps WalOps.

#[local] Opaque record.encode record.decode record.decode_header.

Section Calls.
Context `{Platform}.

Lemma wait_now fuel pred st w : pred st = true → wait fuel pred st w = Ok tt st w.
Proof. intros E. destruct fuel; cbn [wait]; unfold mbind, M_bind, get; by rewrite E. Qed.

(** Everything is in tables, unless the thread has stopped working. *)
Definition flushed_out (st : LsmStore) : Prop :=
  st_halted_by_fail_point st = true ∨ st_mem st = MemtableOps.empty_table ∧ st_imm st = None.

Lemma idle_halted c xs imm st w : serving c xs imm st w → is_ok (st_background_status st) = true → idle st = true →
  st_halted_by_fail_point st = true.
Proof. intros Hs Hok. unfold idle. by rewrite (sv_flags _ _ _ _ _ Hs), Hok. Qed.

(** Waiting for the thread. *)
Lemma wp_settle c xs imm st w U : serving c xs imm st w → reliable w → st_background_busy st = false →
  load c xs imm (st_levels st) ≤ kTotalLimit → st_next_id st + wait_ids c xs imm st ≤ U → U ≤ UINT32_MAX →
  wp wait_for_background st w
    (λ _ st' w', ∃ c' imm', rounds U c xs imm st w c' imm' st' w' ∧ (xs = [] ∨ idle st = true → flushed_out st'))
    (λ e st' w', refusal e st' ∧ ∃ c' imm', rounds U c xs imm st w c' imm' st' w')
    (λ w', recoverable (w_files w') (database c xs imm st)).
Proof.
  intros Hs Hrel Hb Hl HU Hmax. unfold wait_for_background.
  assert (Hout : ∀ c' imm' st' w', rounds U c xs imm st w c' imm' st' w' → background_settled st' = true →
    xs = [] ∨ idle st' = true → is_ok (st_background_status st') = true → flushed_out st').
  { intros c' imm' st' w' [[Hs' _ _ _ _ _] _ _ _] Hset Hx Hok. destruct (idle st') eqn:Ei; [left; by eapply idle_halted|].
    destruct Hx as [->|?]; [|done]. right. split; [by rewrite (sv_mem _ _ _ _ _ Hs')|].
    unfold background_settled in Hset. rewrite Ei in Hset. destruct (st_imm st'); [|done]. by rewrite andb_false_r in Hset. }
  destruct (idle st) eqn:Eidle.
  - pose proof (step_ids_pos c xs imm st). unfold wait_ids, kRoundSteps in HU.
    assert (Hrd : rounds U c xs imm st w c imm st w) by (split; [by apply evolves_refl|lia|done|by left]).
    assert (Hset : background_settled st = true) by (unfold background_settled; by rewrite Eidle).
    eapply wp_bind_eq; [by apply wait_now|]. apply wp_check_background.
    + intros Hok. exists c, imm. split; [done|]. intros _. eapply (Hout c imm st w); [done|done|by right|done].
    + intros Href. split; [done|]. by exists c, imm.
  - wp_call (wp_wait xs background_settled wait_rounds (awaits_settled xs) c imm st w U); try done.
    + right. apply pending_rounds.
    + intros [] st1 w1 _ (Hset & c1 & imm1 & Hrd). apply wp_check_background.
      * intros Hok. exists c1, imm1. split; [done|]. intros [Hx|?]; [|done]. eapply Hout; [done|done|by left|done].
      * intros Href. split; [done|]. by exists c1, imm1.
Qed.

Section Call.
Context (c : Z → list entry) (xs : list write) (imm : option (list write)) (st : LsmStore) (w : World).
Hypothesis Hs : serving c xs imm st w.
Hypothesis Hrel : reliable w.
Hypothesis Hbusy : st_background_busy st = false.
Hypothesis Hroom : roomy c xs imm st.
Let db := database c xs imm st.

Lemma settle_after c1 xs1 imm1 st1 w1 : reliable w1 → unseen c xs imm st w c1 xs1 imm1 st1 w1 →
  st_next_id st1 ≤ st_next_id st + wait_ids c xs imm st + 2 →
  wp wait_for_background st1 w1
    (λ _ st' w', changed_to st w db st' w' ∧ (xs1 = [] ∨ idle st1 = true → flushed_out st'))
    (λ e st' w', refusal e st' ∧ changed_to st w db st' w')
    (λ w', recoverable (w_files w') db).
Proof.
  intros Hrel1 Hun Hn. destruct Hroom as [Hl Hi _]. pose proof Hun as [A1 A2 A3 A4 A5 A6 A7].
  assert (Hids : step_ids c1 xs1 imm1 st1 ≤ step_ids c xs imm st).
  { unfold step_ids. rewrite A3. enough (load c1 xs1 imm1 (st_levels st1) / target (st_options st) ≤
      load c xs imm (st_levels st) / target (st_options st)) by lia. apply Z.div_le_mono; [unfold target; lia|done]. }
  assert (Hch : ∀ U c' imm' st' w', rounds U c1 xs1 imm1 st1 w1 c' imm' st' w' → changed_to st w db st' w').
  { intros U c' imm' st' w' Hrd. apply unseen_changed. eexists _, _, _. eapply unseen_trans; [exact Hun|by eapply rounds_unseen]. }
  eapply wp_mono; [eapply (wp_settle c1 xs1 imm1 st1 w1 UINT32_MAX A1 Hrel1 A5); [lia| |done]|..]; cbn beta.
  - unfold wait_ids, kCallRounds, kRoundSteps in *. lia.
  - intros [] st2 w2 _ (c2 & imm2 & Hrd & Hout). split; [by eapply Hch|done].
  - intros e st2 w2 _ (Href & c2 & imm2 & Hrd). split; [done|by eapply Hch].
  - intros w2 _. by rewrite A4.
Qed.

Lemma mem_empty xs0 : MemtableOps.empty (mem_of xs0) = true ↔ xs0 = [].
Proof.
  split; [|by intros ->]. intros He. destruct (decide (xs0 = [])) as [|Hne]; [done|]. apply mem_of_nonempty in Hne.
  unfold MemtableOps.empty in He. by destruct (map_ (mem_of xs0)).
Qed.

Definition flush_cond (st : LsmStore) : bool :=
  negb (st_stopping st) && match st_imm st with None => true | Some _ => false end && negb (MemtableOps.empty (st_mem st)).

Lemma flush_cond_ok c0 xs0 imm0 st0 w0 : serving c0 xs0 imm0 st0 w0 →
  (flush_cond st0 = true → imm0 = None ∧ xs0 ≠ []) ∧
  (flush_cond st0 = false → flush_slot_free st0 = true → xs0 = [] ∨ idle st0 = true).
Proof.
  intros Hs0. unfold flush_cond, flush_slot_free. rewrite (sv_flags _ _ _ _ _ Hs0), (sv_imm _ _ _ _ _ Hs0), (sv_mem _ _ _ _ _ Hs0).
  destruct imm0; cbn; [rewrite orb_false_r; split; [done|by right]|]. destruct (MemtableOps.empty (mem_of xs0)) eqn:E; cbn.
  - split; [done|]. intros _ _. left. by apply mem_empty.
  - split; [|done]. intros _. split; [done|]. intros ->. done.
Qed.

(** What [flush_begin] leaves for the wait. *)
Lemma wp_flush_begin :
  wp flush_begin st w
    (λ r st' w', if r : bool then ∃ c1 xs1 imm1, unseen c xs imm st w c1 xs1 imm1 st' w' ∧
         st_next_id st' ≤ st_next_id st + wait_ids c xs imm st + 2 ∧ (xs1 = [] ∨ idle st' = true)
       else st' = st ∧ w' = w ∧ flushed_out st)
    (λ e st' w', refusal e st' ∧ changed_to st w db st' w')
    (λ w', recoverable (w_files w') db).
Proof.
  pose proof (unseen_refl c xs imm st w Hs Hbusy) as Hself. pose proof (step_ids_pos c xs imm st) as Hpos.
  assert (Hself' : changed_to st w db st w) by (by eapply unseen_changed; eexists _, _, _).
  unfold flush_begin. eapply wp_bind; [apply (wp_check_background st w (λ _ st' w', st' = st ∧ w' = w)
    (λ e st' w', refusal e st' ∧ changed_to st w db st' w') (λ _, False)); [done|by auto]|..]; cbn beta; [|done|done].
  intros [] ? ? _ (-> & ->). apply wp_bind_get. destruct (MemtableOps.empty (st_mem st)) eqn:Ee; cbn [negb andb].
  - pose proof Ee as Ex. rewrite (sv_mem _ _ _ _ _ Hs) in Ex. apply mem_empty in Ex.
    destruct (st_imm st) eqn:Ei; wp_pure; apply wp_ret.
    + exists c, xs, imm. split_and!; [done| |by left]. unfold wait_ids, kRoundSteps. lia.
    + split_and!; [done|done|]. right. split; [|done]. by rewrite (sv_mem _ _ _ _ _ Hs), Ex.
  - eapply wp_bind; [apply (wp_make_room c xs imm st w Hs Hrel Hbusy Hroom flush_cond)|..]; cbn beta; [| | |done].
    + intros c0 imm0 st0 w0 Hs0. by eapply flush_cond_ok.
    + intros [] st1 w1 _ (c1 & xs1 & imm1 & Hun & Hn & Hok & Hx). apply wp_ret. exists c1, xs1, imm1. split_and!; [done|done|].
      destruct Hx as [->|(-> & Hc & Hf)]; [by left|]. eapply flush_cond_ok; [by apply (un_serving _ _ _ _ _ _ _ _ _ _ Hun)|done|done].
    + intros e st1 w1 _ [Href Hun]. split; [done|]. by eapply unseen_changed.
Qed.

Lemma wp_flush :
  wp flush st w
    (λ _ st' w', changed_to st w db st' w' ∧ flushed_out st')
    (λ e st' w', refusal e st' ∧ changed_to st w db st' w')
    (λ w', recoverable (w_files w') db).
Proof.
  unfold flush. wp_call wp_flush_begin. intros [] st1 w1 Hc1.
  - intros (c1 & xs1 & imm1 & Hun & Hn & Hx). eapply wp_mono; [eapply settle_after; [|exact Hun|exact Hn]; eauto with wp|..]; cbn beta; [|done|done].
    intros [] st2 w2 _ [Hch Hout]. split; [done|by apply Hout].
  - intros (-> & -> & Hout). apply wp_ret. split; [|done]. eapply unseen_changed. eexists _, _, _. by apply unseen_refl.
Qed.

Lemma wp_lsm_compact :
  wp compact st w
    (λ _ st' w', changed_to st w db st' w')
    (λ e st' w', refusal e st' ∧ changed_to st w db st' w')
    (λ w', recoverable (w_files w') db).
Proof.
  pose proof (unseen_refl c xs imm st w Hs Hbusy) as Hself. pose proof (step_ids_pos c xs imm st) as Hpos.
  assert (Hself' : changed_to st w db st w) by (by eapply unseen_changed; eexists _, _, _).
  unfold compact. eapply wp_bind; [apply (wp_check_background st w (λ _ st' w', st' = st ∧ w' = w)
    (λ e st' w', refusal e st' ∧ changed_to st w db st' w') (λ _, False)); [done|by auto]|..]; cbn beta; [|done|done].
  intros [] ? ? _ (-> & ->). wp_pure. set (st1 := st_set_compact_requested true st).
  assert (E1 : st1 = relabel (st_background_busy st) true (st_halted_by_fail_point st) (st_background_status st) st) by by destruct st.
  assert (Hun : unseen c xs imm st w c xs imm st1 w).
  { rewrite E1. destruct Hself as [A1 A2 A3 A4 A5 A6 A7]. split; try done. by apply serving_relabel. }
  eapply wp_mono; [eapply settle_after; [done|exact Hun|]|..]; cbn beta; [| |done|done].
  - change (st_next_id st1) with (st_next_id st). unfold wait_ids, kRoundSteps. lia.
  - intros [] st2 w2 _ [Hch _]. done.
Qed.

Lemma wp_lsm_sync :
  wp LsmOps.sync st w (λ _ st' w', changed_to st w db st' w') (λ _ _ _, False) (λ w', recoverable (w_files w') db).
Proof.
  clear Hroom.
  destruct (sv_logs _ _ _ _ _ Hs) as [(wal & Ew & Hh & Hp) _ _ _]. destruct (Hh w eq_refl) as (Hv & f & Ho & Hf & Hd & He).
  unfold LsmOps.sync. wp_pure. rewrite Ew. eapply wp_mono.
  - eapply (wp_on_wal WalOps.sync st wal w (λ _ wal' w', wal' = wal ∧ w_files w' = alter LogFileOps.fsynced (lf_path (wal_file wal)) (w_files w))
      (λ _ _ _, False) (same_files w)); [done|]. unfold WalOps.sync. apply wp_zoom.
    eapply wp_mono; [by apply LogFileOps.wp_sync|..]; cbn beta; [|naive_solver|done].
    intros _ l w' _ (-> & E & _). split; [by destruct wal|done].
  - intros [] st' w' _ (wal' & -> & -> & E). rewrite Hp in E, Hf.
    assert (E' : w_files w' = <[wal_file_name (st_wal_id st) := LogFileOps.fsynced f]> (w_files w)).
    { rewrite E. apply map_eq. intros name. destruct (decide (name = wal_file_name (st_wal_id st))) as [->|Hne].
      - by rewrite lookup_alter_eq, Hf, lookup_insert_eq.
      - by rewrite lookup_alter_ne, lookup_insert_ne. }
    assert (Est : st_set_wal (Some wal) st = st_set_mem (mem_of xs) (st_set_wal (Some wal) st)).
    { pose proof (sv_mem _ _ _ _ _ Hs) as Em. destruct st. cbn in *. by rewrite Em. }
    rewrite Est. exists c, xs, imm. split_and!; [|split; [done|]|done|done|done].
    + eapply append_serving; [done|done| |done]. split; [done|]. exists (LogFileOps.fsynced f).
      split_and!; [done| |done|done]. by rewrite Hp, E', lookup_insert_eq.
    + intros p t _ _. by eapply append_sst.
  - by intros e st' w' _ (? & ? & []).
  - intros w' _ Hsf. eapply serving_recoverable, serving_same; done.
Qed.
End Call.
End Calls.

(** * The bytes in the directory bound everything the engine computes with *)

#[local] Opaque record.encode record.decode record.decode_header.

Definition file_bytes (fs : gmap bytes file) (name : bytes) : Z := from_option (λ f, sz (f_data f)) 0 (fs !! name).
Definition dir_bytes (fs : gmap bytes file) : Z := map_fold (λ _ f n, sz (f_data f) + n) 0 fs.
Definition names_bytes (fs : gmap bytes file) (names : list bytes) : Z := foldr (λ name n, file_bytes fs name + n) 0 names.

Lemma file_bytes_nonneg fs name : 0 ≤ file_bytes fs name.
Proof. unfold file_bytes. destruct (fs !! name); cbn; [apply sz_nonneg|done]. Qed.

Lemma dir_bytes_delete fs name f : fs !! name = Some f → dir_bytes fs = sz (f_data f) + dir_bytes (delete name fs).
Proof.
  intros Hf. unfold dir_bytes. rewrite <-(insert_delete_id fs name f Hf) at 1.
  rewrite map_fold_insert_L; [done|intros; lia|apply lookup_delete_eq].
Qed.

Lemma dir_bytes_nonneg fs : 0 ≤ dir_bytes fs.
Proof.
  induction fs as [|name f fs Hn IH] using map_ind; [done|]. rewrite (dir_bytes_delete _ name f) by apply lookup_insert_eq.
  rewrite delete_insert_id by done. pose proof (sz_nonneg (f_data f)). lia.
Qed.

Lemma names_bytes_app fs a b : names_bytes fs (a ++ b) = names_bytes fs a + names_bytes fs b.
Proof. induction a as [|x a IH]; [done|]. cbn. fold (names_bytes fs (a ++ b)) (names_bytes fs a). lia. Qed.

Lemma names_bytes_delete fs names name : name ∉ names → names_bytes (delete name fs) names = names_bytes fs names.
Proof.
  induction names as [|x names IH]; intros Hn; [done|]. apply not_elem_of_cons in Hn as [Hx Hn]. cbn.
  fold (names_bytes (delete name fs) names) (names_bytes fs names). rewrite IH by done. unfold file_bytes. by rewrite lookup_delete_ne.
Qed.

Lemma names_dir_bytes names : ∀ fs, NoDup names → names_bytes fs names ≤ dir_bytes fs.
Proof.
  induction names as [|name names IH]; intros fs Hnd; [apply dir_bytes_nonneg|]. apply NoDup_cons in Hnd as [Hn Hnd]. cbn.
  fold (names_bytes fs names). unfold file_bytes at 1. destruct (fs !! name) as [f|] eqn:E; cbn.
  - rewrite (dir_bytes_delete fs name f E), <-(names_bytes_delete fs names name Hn). specialize (IH (delete name fs) Hnd). lia.
  - by apply IH.
Qed.

Lemma file_dir_bytes fs name f : fs !! name = Some f → sz (f_data f) ≤ dir_bytes fs.
Proof. intros E. rewrite (dir_bytes_delete fs name f E). pose proof (dir_bytes_nonneg (delete name fs)). lia. Qed.

(** * Tables and logs *)

Section Room.
Context `{Platform}.

Lemma weight_enc es : Forall entry_fits es → weight es ≤ 2 * sz (enc_block es).
Proof.
  intros Hf. rewrite <-enc_block_weight. enough (4 * sz es ≤ sz (enc_block es)) by lia.
  induction Hf as [|e es [Hk _] Hf IH]; [done|]. rewrite enc_block_cons, sz_app, sz_cons.
  unfold enc_entry. rewrite !sz_app, !sz_le32. change (sz [_]) with 1. pose proof (sz_nonneg e.1). pose proof (sz_nonneg (stored e.2)). lia.
Qed.

Lemma data_region_enc bs : sz (enc_block (concat bs)) ≤ sz (data_region bs).
Proof.
  induction bs as [|b bs IH]; [done|]. rewrite data_region_cons, concat_cons, enc_block_app, !sz_app, sz_sealed. lia.
Qed.

Lemma stored_at_weight fs id es : stored_at fs id es → weight es ≤ 2 * file_bytes fs (sst_file_name id).
Proof.
  intros (bits & bs & f & Hf & Hd & Hwf & <-). unfold file_bytes. rewrite Hf. cbn. rewrite Hd.
  assert (Hfit : Forall entry_fits (concat bs)).
  { apply Forall_concat. eapply Forall_impl; [apply (wf_each _ _ Hwf)|]. by intros b (_ & ? & _). }
  pose proof (weight_enc _ Hfit). pose proof (data_region_enc bs). unfold table_bytes. rewrite sz_app.
  pose proof (sz_nonneg (filter_block bits (concat bs) ++ index_block bs ++ encode_footer (table_footer bits bs))). lia.
Qed.

Lemma run_weight {A} (f : A → list entry) (g : A → Z) fs (l : list A) : (∀ x, x ∈ l → stored_at fs (g x) (f x)) →
  weight (concat (f <$> l)) ≤ 2 * names_bytes fs (sst_file_name <$> (g <$> l)).
Proof.
  induction l as [|x l IH]; intros Hall; [done|]. csimpl. rewrite weight_app.
  pose proof (stored_at_weight _ _ _ (Hall x ltac:(by left))). fold (names_bytes fs (sst_file_name <$> (g <$> l))).
  assert (weight (concat (f <$> l)) ≤ 2 * names_bytes fs (sst_file_name <$> (g <$> l))); [|cbn; lia].
  apply IH. intros y Hy. apply Hall. by right.
Qed.

Lemma sst_names_nodup (ids : list Z) : NoDup ids → Forall valid_id ids → NoDup (sst_file_name <$> ids).
Proof.
  induction 1 as [|id ids Hid Hnd IH]; intros Hv; [constructor|]. apply Forall_cons in Hv as [Hv Hvs]. csimpl.
  constructor; [|by apply IH]. intros (j & E & Hj)%list_elem_of_fmap. rewrite Forall_forall in Hvs.
  apply sst_file_name_inj in E as ->; [done|done|by apply Hvs].
Qed.

Lemma wal_names_nodup (ids : list Z) : NoDup ids → Forall valid_id ids → NoDup (wal_file_name <$> ids).
Proof.
  induction 1 as [|id ids Hid Hnd IH]; intros Hv; [constructor|]. apply Forall_cons in Hv as [Hv Hvs]. csimpl.
  constructor; [|by apply IH]. intros (j & E & Hj)%list_elem_of_fmap. rewrite Forall_forall in Hvs.
  apply wal_file_name_inj in E as ->; [done|done|by apply Hvs].
Qed.

(** Tables and logs are different files. *)
Lemma files_nodup (sst wal : list Z) : NoDup sst → Forall valid_id sst → NoDup wal → Forall valid_id wal →
  NoDup ((sst_file_name <$> sst) ++ (wal_file_name <$> wal)).
Proof.
  intros H1 H2 H3 H4. apply NoDup_app. split_and!; [by apply sst_names_nodup| |by apply wal_names_nodup].
  intros name (i & -> & _)%list_elem_of_fmap (j & E & _)%list_elem_of_fmap. symmetry in E. by apply wal_not_sst in E.
Qed.

Lemma logs_bytes fs logs : Forall (log_stored fs) logs →
  sz (log_of (concat logs.*2)) ≤ names_bytes fs (wal_file_name <$> logs.*1).
Proof.
  induction 1 as [|l logs (_ & _ & _ & f & tl & Hf & Hd & _) Hl IH]; [done|].
  csimpl. fold (names_bytes fs (wal_file_name <$> logs.*1)). rewrite log_of_app, sz_app. unfold file_bytes at 1. rewrite Hf. cbn.
  rewrite Hd, sz_app. pose proof (sz_nonneg tl). lia.
Qed.

Lemma logs_valid fs logs : Forall (log_stored fs) logs → Forall valid_write (concat logs.*2).
Proof. intros Hl. apply Forall_concat, Forall_fmap. eapply Forall_impl; [exact Hl|]. by intros l (_ & _ & ? & _). Qed.

Lemma sorted_nodup (ids : list Z) : StronglySorted Z.lt ids → NoDup ids.
Proof.
  induction 1 as [|id ids Hs IH Hlt]; constructor; [|done]. intros Hin. rewrite Forall_forall in Hlt. specialize (Hlt id Hin). lia.
Qed.

(** Tables, each with its entries, and logs. *)
Lemma files_bytes {A} (f : A → list entry) (g : A → Z) (l : list A) logs fs :
  (∀ x, x ∈ l → stored_at fs (g x) (f x)) → NoDup (g <$> l) → Forall valid_id (g <$> l) →
  StronglySorted Z.lt logs.*1 → Forall (log_stored fs) logs →
  weight (concat (f <$> l)) + sz (log_of (concat logs.*2)) ≤ 2 * dir_bytes fs.
Proof.
  intros Hst Hnd Hv Hord Hl. pose proof (run_weight f g fs l Hst) as Hrun. pose proof (logs_bytes fs logs Hl) as Hlog.
  pose proof (sz_nonneg (log_of (concat logs.*2))) as Hnn.
  pose proof (names_dir_bytes ((sst_file_name <$> (g <$> l)) ++ (wal_file_name <$> logs.*1)) fs) as Hsum.
  rewrite names_bytes_app in Hsum. enough (names_bytes fs (sst_file_name <$> (g <$> l)) +
    names_bytes fs (wal_file_name <$> logs.*1) ≤ dir_bytes fs) by lia. apply Hsum, files_nodup; [done|done|by apply sorted_nodup|].
  apply Forall_fmap. eapply Forall_impl; [exact Hl|]. by intros l' (? & _).
Qed.

Lemma durable_bytes c metas n logs fs : durable c metas n logs fs →
  weight (concat (meta_entries c <$> concat metas)) + sz (log_of (concat logs.*2)) ≤ 2 * dir_bytes fs.
Proof.
  intros [_ [Hst Hnd _ _] Hord Hl _]. apply (files_bytes (meta_entries c) manifest.tm_id); [|done| |done|done].
  - intros m Hm. by apply Hst.
  - apply Forall_fmap, Forall_forall. intros m Hm. by apply Hst.
Qed.

(** * The running engine *)

Lemma serving_bytes c xs imm st w : serving c xs imm st w →
  load c xs imm (st_levels st) ≤ 2 * dir_bytes (w_files w) ∧ sz (log_of xs) ≤ 2 * dir_bytes (w_files w).
Proof.
  intros Hs. destruct (sv_tables _ _ _ _ _ Hs) as [Hlv Hd Hst Hi Hn _ _].
  destruct (logs_ok_stored _ _ _ _ (sv_logs _ _ _ _ _ Hs)) as [Hl Hord]; [lia|].
  pose proof (logs_valid _ _ Hl) as Hv. pose proof (weight_nonneg (run_of c (concat (st_levels st)))) as Hw0.
  assert (Hbytes : weight (run_of c (concat (st_levels st))) + sz (log_of (concat (log_list xs imm st).*2)) ≤ 2 * dir_bytes (w_files w)).
  { apply (files_bytes (entries_of c) t_id); [|by eapply lv_ids| |done|done].
    - rewrite Forall_forall in Hst. exact Hst.
    - apply Forall_fmap. eapply Forall_impl; [exact Hi|]. by intros t [? _]. }
  unfold load, log_list in *. destruct imm as [ys|]; cbn [from_option app fmap list_fmap concat snd] in *; rewrite app_nil_r in *.
  - rewrite log_of_app, sz_app in Hbytes. apply Forall_app in Hv as [Hvy Hvx]. pose proof (mem_of_weight xs Hvx). pose proof (mem_of_weight ys Hvy).
    pose proof (sz_nonneg (log_of ys)). lia.
  - pose proof (mem_of_weight xs Hv). lia.
Qed.

(** Room for a call, in terms of the files. *)
Definition room_for (st : LsmStore) (fs : gmap bytes file) : Prop :=
  2 * dir_bytes fs ≤ kTotalLimit ∧
  st_next_id st + kCallRounds * (kRoundSteps * (2 * dir_bytes fs / target (st_options st) + 1)) + 2 ≤ UINT32_MAX.

Lemma room_roomy c xs imm st w : serving c xs imm st w → room_for st (w_files w) → roomy c xs imm st.
Proof.
  intros Hs [Hb Hi]. destruct (serving_bytes _ _ _ _ _ Hs) as [Hl Hx]. split; [lia| |lia].
  enough (step_ids c xs imm st ≤ 2 * dir_bytes (w_files w) / target (st_options st) + 1) by (unfold kCallRounds, kRoundSteps in *; lia).
  unfold step_ids. enough (load c xs imm (st_levels st) / target (st_options st) ≤ 2 * dir_bytes (w_files w) / target (st_options st)) by lia.
  apply Z.div_le_mono; [unfold target|]; lia.
Qed.
End Room.
