(* ===== verification/LsmOpen.v ===== *)
(** The LSM engine, part four: opening a directory and recovering its state, and the
    diagnostics, [src/lsm.cpp]. *)

From S2P Require Import Prelude Status FileNames World Encoding Record LogFile Bloom SortedMap Memtable SSTableFormat Manifest LsmStats SSTable Iterator Wal LsmState LsmCompact Lsm.

Module LsmOpen.
Section LsmOpen.
Context `{Platform}.
Import LsmState LsmCompact LsmOps.

(** A pass over the directory that removes the chosen files: whether there was one. *)
Fixpoint sweep_loop (chosen : bytes → bool) (count : bool) (names : list bytes) (removed_any : bool) : M LsmStore bool :=
  match names with
  | [] => mret removed_any
  | name :: rest =>
      if negb (chosen name) then sweep_loop chosen count rest removed_any
      else
        ec ← platform.remove name;
        fail_when ec (io_error (lit "remove " ++ name ++ lit ": " ++ os_error_text));;
        (if count then bump_stat tables_obsoleted 1 else mret tt);;
        sweep_loop chosen count rest true
  end.

(** [std::filesystem::directory_iterator(dir_, ec)]. *)
Definition read_directory : M LsmStore (list bytes) :=
  st ← get;
  names ← platform.list_directory;
  match names with
  | None => fail (io_error (lit "read directory " ++ st_dir st ++ lit ": " ++ os_error_text))
  | Some names => mret names
  end.

(** [LsmStore::sweep_temp_files]. *)
Definition sweep_temp_files : M LsmStore unit :=
  names ← read_directory;
  removed_any ← sweep_loop is_temp_name false names false;
  if removed_any : bool then sync_dir else mret tt.

(** [LsmStore::sweep_orphan_tables]. *)
Definition is_orphan (named : list Z) (name : bytes) : bool :=
  match parse_sst_file_id name with
  | Some id => negb (bool_decide (id ∈ named))
  | None => false
  end.
Definition sweep_orphan_tables (named : list Z) : M LsmStore unit :=
  names ← read_directory;
  removed_any ← sweep_loop (is_orphan named) true names false;
  if removed_any : bool then sync_dir else mret tt.

(** The body of the loops of [LsmStore::open_from_manifest]. *)
Definition open_named (meta : manifest.TableMeta) : M LsmStore SSTable :=
  st ← get;
  fail_when (st_next_id st <=? manifest.tm_id meta)
    (corruption (lit "manifest names a table at or beyond next_id"));;
  table ← open_table (manifest.tm_id meta);
  fail_when (negb (sstable.ft_entry_count (t_footer table) =? manifest.tm_entry_count meta) ||
             negb (key_eqb (t_min_key table) (manifest.tm_min_key meta)) ||
             negb (key_eqb (t_max_key table) (manifest.tm_max_key meta)))
    (corruption (lit "manifest disagrees with " ++ sst_file_name (manifest.tm_id meta)));;
  mret table.

Fixpoint open_level (metas : list manifest.TableMeta) : M LsmStore (list SSTable) :=
  match metas with
  | [] => mret []
  | meta :: rest => table ← open_named meta; tables ← open_level rest; mret (table :: tables)
  end.

Fixpoint open_levels (levels : list (list manifest.TableMeta)) : M LsmStore Levels :=
  match levels with
  | [] => mret []
  | metas :: rest => level ← open_level metas; deeper ← open_levels rest; mret (level :: deeper)
  end.

(** [LsmStore::open_from_manifest]. *)
Definition open_from_manifest (set : manifest.LevelSet) : M LsmStore unit :=
  modify (st_set_next_id (manifest.ls_next_id set));;
  levels ← open_levels (manifest.ls_levels set);
  modify (st_set_levels levels);;
  sweep_orphan_tables (t_id <$> concat levels).

(** The ids of the files of a kind, in order. *)
Definition ids_of (parse : bytes → option Z) (names : list bytes) : list Z := std_sort (omap parse names).

(** The loop that keeps [next_id_] above every id. *)
Fixpoint raise_next_id (ids : list Z) : M LsmStore unit :=
  match ids with
  | [] => mret tt
  | id :: rest =>
      fail_when (id =? UINT32_MAX) (io_error (lit "file ids exhausted"));;
      modify (λ st, st_set_next_id (Z.max (st_next_id st) (id + 1)) st);;
      raise_next_id rest
  end.

(** [LsmStore::adopt_unmanifested_layout]. *)
Definition adopt_unmanifested_layout : M LsmStore unit :=
  names ← read_directory;
  let ids := ids_of parse_sst_file_id names in
  modify (st_set_next_id kFirstFileId);;
  raise_next_id ids;;
  tables ← open_outputs (reverse ids);
  modify (st_set_levels [tables]).

(** [LsmStore::open_wal]. *)
Definition open_wal (id : Z) : M LsmStore unit :=
  st ← get;
  wal ← WalOps.open (wal_file_name id) (lo_sync_mode (st_options st));
  modify (st_set_wal (Some wal));;
  modify (st_set_wal_id id);;
  sync_dir.

(** [opened.replay_into(mem_.get())]. *)
Definition replay_wal (wal : Wal) : M LsmStore (Z * Wal) := λ st w,
  match WalOps.replay_into (wal, st_mem st) w with
  | Ok n s w' => Ok (n, s.1) (st_set_mem s.2 st) w'
  | Err e s w' => Err e (st_set_mem s.2 st) w'
  | Died w' => Died w'
  | MStuck => MStuck
  end.

(** The loop over the logs, oldest first. *)
Fixpoint replay_wals (ids : list Z) : M LsmStore unit :=
  match ids with
  | [] => mret tt
  | id :: rest =>
      st ← get;
      wal ← WalOps.open (wal_file_name id) (lo_sync_mode (st_options st));
      r ← replay_wal wal;
      bump_stat wal_records_replayed r.1;;
      _ ← with_local r.2 WalOps.close;
      replay_wals rest
  end.

(** The loop that removes the logs. *)
Fixpoint remove_wals (ids : list Z) : M LsmStore unit :=
  match ids with
  | [] => mret tt
  | id :: rest =>
      ec ← platform.remove (wal_file_name id);
      fail_when ec (io_error (lit "remove " ++ wal_file_name id ++ lit ": " ++ os_error_text));;
      remove_wals rest
  end.

(** [LsmStore::recover], with the fail point paused. *)
Definition recover_paused : M LsmStore unit :=
  sweep_temp_files;;
  stored ← manifest.read;
  (match stored with
   | Some set => open_from_manifest set
   | None => adopt_unmanifested_layout
   end);;
  names ← read_directory;
  let wal_ids := ids_of parse_wal_file_id names in
  raise_next_id wal_ids;;
  replay_wals wal_ids;;
  st ← get;
  (if negb (MemtableOps.empty (st_mem st)) then
     id ← claim_id;
     st ← get;
     levels ← build_table_unlocked (st_mem st) id (st_levels st) (st_next_id st);
     modify (st_set_levels levels);;
     modify (λ st, st_set_mem (MemtableOps.clear (st_mem st)) st)
   else
     match stored with
     | Some _ => mret tt
     | None => commit_manifest (st_levels st) (st_next_id st)
     end);;
  remove_wals wal_ids;;
  (match wal_ids with [] => mret tt | _ => sync_dir end);;
  id ← claim_id;
  open_wal id.

Definition set_fail_at (fp : LsmFailPoint) (o : LsmOptions) : LsmOptions :=
  mkLsmOptions (lo_sync_mode o) (lo_memtable_size o) (lo_block_size o) (lo_bits_per_key o)
    (lo_bloom_enabled o) (lo_read_mode o) (lo_l0_compaction_trigger o) (lo_level_base_bytes o)
    (lo_level_multiplier o) (lo_target_table_size o) (lo_max_levels o) fp.

(** [LsmStore::recover]: [FailPointPause] clears the fail point and restores it on
    every way out. *)
Definition recover : M LsmStore unit :=
  st ← get;
  let saved := lo_fail_at (st_options st) in
  modify (λ st, st_set_options (set_fail_at FpNone (st_options st)) st);;
  r ← attempt recover_paused;
  modify (λ st, st_set_options (set_fail_at saved (st_options st)) st);;
  match r with inl _ => mret tt | inr e => fail e end.

(** [LsmStore::open]; the directory itself exists. *)
Definition open {S : Type} (directory : bytes) (options : LsmOptions) : M S LsmStore :=
  if lo_block_size options =? 0 then fail (invalid_argument (lit "block size must not be zero"))
  else
    r ← with_local (new_store directory options) (recover;; publish_locked);
    mret r.2.

(** * Diagnostics *)

Definition table_count (st : LsmStore) : Z := foldl (λ n level, u64 (n + sz level)) 0 (st_levels st).
Definition level_count (st : LsmStore) : Z := sz (st_levels st).
Definition tables_at (st : LsmStore) (level : nat) : Z := sz (default [] (st_levels st !! level)).
Definition memtable_entries (st : LsmStore) : Z := MemtableOps.size (st_mem st).
Definition memtable_bytes (st : LsmStore) : Z := MemtableOps.approximate_bytes (st_mem st).
Definition table_ids (st : LsmStore) : list Z := t_id <$> concat (st_levels st).
Definition table_ids_at (st : LsmStore) (level : nat) : list Z := t_id <$> default [] (st_levels st !! level).

(** [LsmStore::total_disk_size]. *)
Definition total_disk_size (st : LsmStore) : Z :=
  let total := foldl (λ n level, u64 (n + level_bytes_locked st level)) 0 (seq 0 (length (st_levels st))) in
  match st_wal st with Some wal => u64 (total + WalOps.size wal) | None => total end.

End LsmOpen.
End LsmOpen.
