(* ===== verification/LsmRecover.v ===== *)
(** Recovery, step by step: at every moment the directory holds the same database. *)

From S2P Require Import Prelude Status FileNames World Wp Encoding Record SortedMap Memtable SSTableFormat LogFile Manifest LogScan SSTableLayout LsmStats SSTable SSTableBuild SSTableRead SSTableOpen IteratorMerge Wal LsmState LsmCompact Lsm LsmLevels LsmGet LsmDisk LsmPick LsmMerge LsmCommit LsmServe LsmReads LsmFlush LsmOpen.
Import sstable LsmState LsmCompact LsmOps WalOps LsmOpen.

#[local] Opaque record.encode record.decode record.decode_header.

(** * Sweeping *)

(** Chosen files may be gone; nothing else changed. *)
Definition pruned (chosen : bytes → bool) (w w' : World) : Prop :=
  ∀ name, w_files w' !! name = w_files w !! name ∨ chosen name = true ∧ w_files w' !! name = None.

#[export] Instance pruned_preorder chosen : PreOrder (pruned chosen).
Proof.
  split; [by left|]. intros w1 w2 w3 H1 H2 name. destruct (H2 name) as [->|?]; [apply H1|by right].
Qed.

Lemma pruned_same chosen w w' : same_files w w' → pruned chosen w w'.
Proof. intros [E _] name. left. by rewrite E. Qed.

(** Files may be gone; nothing else changed. *)
Abbreviation shrunk := (pruned (λ _, true)).

Lemma pruned_shrunk chosen w w' : pruned chosen w w' → shrunk w w'.
Proof. intros Hp name. destruct (Hp name) as [?|[_ ?]]; auto. Qed.

Lemma pruned_keeps chosen w w' name : pruned chosen w w' → chosen name = false → w_files w' !! name = w_files w !! name.
Proof. intros Hp Hc. destruct (Hp name) as [?|[? _]]; [done|congruence]. Qed.

Section Recover.
Context `{Platform}.

Lemma wp_lsm_sweep_loop chosen count names : ∀ flag st w, reliable w → in_range (st_stats st) →
  wp (sweep_loop chosen count names flag) st w
    (λ _ st' w', counting st st' ∧ (count = false → st' = st) ∧ pruned chosen w w') (λ _ _ _, False) (pruned chosen w).
Proof.
  induction names as [|name names IH]; intros flag st w Hrel Hs; cbn [sweep_loop].
  { apply wp_ret. split; [by apply counting_refl|done]. }
  destruct (chosen name) eqn:Ec; cbn [negb]; [|by apply IH]. wp_call wp_remove.
  intros ec st1 w1 Hc1 (-> & [(-> & Hfs & _)|(_ & Hq & _)]); [|done]. cbn [fail_when]. wp_pure.
  assert (Hp : pruned chosen w w1).
  { intros n. rewrite Hfs. destruct (decide (n = name)) as [->|]; [right; by rewrite lookup_delete_eq|left; by rewrite lookup_delete_ne]. }
  assert (Hgo : ∀ st1, counting st st1 → (count = false → st1 = st) → wp (sweep_loop chosen count names true) st1 w1
    (λ _ st' w', counting st st' ∧ (count = false → st' = st) ∧ pruned chosen w w') (λ _ _ _, False) (pruned chosen w)).
  { intros st1 Hcn Heq. eapply wp_mono; [apply IH; [eauto with wp|by eapply counting_range]|..]; cbn beta; [|done|].
    - intros _ st2 w2 _ (Hcn2 & Heq2 & Hp2). split_and!; [by eapply counting_trans|intros Ec'; by rewrite Heq2, Heq|by etrans].
    - intros w2 _ Hp2. by etrans. }
  destruct count; [apply wp_bind_bump|wp_pure]; apply Hgo; try done; [by apply counting_bump|by apply counting_refl].
Qed.

Lemma wp_read_directory st w : reliable w →
  wp read_directory st w (λ names st' w', st' = st ∧ same_files w w' ∧ names = (map_to_list (w_files w)).*1)
    (λ _ _ _, False) (same_files w).
Proof.
  intros Hrel. unfold read_directory. wp_pure. wp_call wp_list_directory.
  intros r st1 w1 _ (-> & Hsf & [->|[-> ?]]); [|done]. by apply wp_ret.
Qed.

(** Both passes over the directory. *)
Lemma wp_sweep chosen count st w : reliable w → in_range (st_stats st) →
  wp (names ← read_directory; removed_any ← sweep_loop chosen count names false;
      if removed_any : bool then sync_dir else mret tt) st w
    (λ _ st' w', counting st st' ∧ (count = false → st' = st) ∧ pruned chosen w w') (λ _ _ _, False) (pruned chosen w).
Proof.
  intros Hrel Hs. wp_call wp_read_directory; [done| |by intros; apply pruned_same].
  intros names st1 w1 Hc1 (-> & Hsf & _). apply (pruned_same chosen) in Hsf.
  wp_call (wp_lsm_sweep_loop chosen count names false st w1); [eauto with wp|done| |by intros; etrans].
  intros flag st2 w2 Hc2 (Hcn & Heq & Hp). assert (Hp2 : pruned chosen w w2) by by etrans. destruct flag; [|by apply wp_ret].
  eapply wp_mono; [apply wp_lsm_sync_dir|..]; cbn beta.
  - intros _ st3 w3 _ (-> & Hsf3). split_and!; [done|done|]. etrans; [done|by apply pruned_same].
  - intros e st3 w3 _ (_ & _ & Hq & _). apply Hq. eauto with wp.
  - intros w3 _ Hsf3. etrans; [done|by apply pruned_same].
Qed.

(** ** What recovery may remove *)

Lemma durable_agree c metas n logs fs fs' : durable c metas n logs fs →
  (∀ m, m ∈ concat metas → fs' !! sst_file_name (manifest.tm_id m) = fs !! sst_file_name (manifest.tm_id m)) →
  fs' !! kManifestName = fs !! kManifestName →
  (∀ name id, parse_wal_file_id name = Some id → fs' !! name = fs !! name) →
  (fs !! kManifestName = None → ∀ name id, parse_sst_file_id name = Some id → fs' !! name = fs !! name ∨ fs' !! name = None) →
  durable c metas n logs fs'.
Proof.
  intros [Hm [H1 H2 H3 H4] Ho Hl Honly] Hsst Hman Hwal Hgone. split; [|split| |..]; try done.
  - destruct Hm as [(Hf & Hok & Hn)|(Hno & -> & -> & Hs & Hw)]; [left|right].
    + split; [|done]. destruct Hf as (f & Hf & Hd). exists f. by rewrite Hman.
    + split_and!; [by rewrite Hman|done|done| |].
      * intros name id Hp. destruct (Hgone Hno name id Hp) as [->|?]; [by eapply Hs|done].
      * intros name id Hp. rewrite (Hwal name id Hp). by eapply Hw.
  - intros m Hin. destruct (H1 m Hin) as (Hst & Hrest). split; [|done]. eapply stored_at_files; [done|by apply Hsst].
  - eapply Forall_impl; [exact Hl|]. intros l (Hi & Hx & Hv & f & tl & Hf & Hd). split_and!; [done|done|done|].
    exists f, tl. by erewrite Hwal by by apply parse_wal_name.
  - intros name id Hin Hp. eapply Honly; [|done]. by rewrite <-(Hwal name id Hp).
Qed.

Lemma durable_pruned c metas n logs chosen w w' : durable c metas n logs (w_files w) → pruned chosen w w' →
  (∀ m, m ∈ concat metas → chosen (sst_file_name (manifest.tm_id m)) = false) → chosen kManifestName = false →
  (∀ name id, parse_wal_file_id name = Some id → chosen name = false) → durable c metas n logs (w_files w').
Proof.
  intros Hd Hp Hsst Hman Hwal. eapply durable_agree; [done|..].
  - intros m Hm. by eapply pruned_keeps, Hsst.
  - by eapply pruned_keeps.
  - intros name id Hn. by eapply pruned_keeps, Hwal.
  - intros _ name id _. destruct (Hp name) as [?|[_ ?]]; auto.
Qed.

Lemma temp_chosen name : (∀ stem, name ≠ temp_name stem) → is_temp_name name = false.
Proof. intros Hn. destruct (is_temp_name name) eqn:E; [|done]. apply is_temp_name_inv in E as [stem ->]. by destruct (Hn stem). Qed.

Lemma durable_temps c metas n logs w w' : durable c metas n logs (w_files w) → pruned is_temp_name w w' →
  durable c metas n logs (w_files w').
Proof.
  intros Hd Hp. eapply durable_pruned; [done|done|..].
  - intros m _. apply temp_chosen, sst_not_temp.
  - apply temp_chosen, manifest_not_temp.
  - intros name id Hn. apply temp_chosen. intros stem ->. by rewrite parse_wal_temp in Hn.
Qed.

Lemma named_kept named id : valid_id id → id ∈ named → is_orphan named (sst_file_name id) = false.
Proof. intros Hv Hin. unfold is_orphan. rewrite parse_sst_name by done. by rewrite bool_decide_eq_true_2. Qed.

Lemma durable_orphans c metas n logs w w' : durable c metas n logs (w_files w) →
  pruned (is_orphan (manifest.tm_id <$> concat metas)) w w' → durable c metas n logs (w_files w').
Proof.
  intros Hd Hp. eapply durable_pruned; [done|done|..].
  - intros m Hm. destruct (ts_each _ _ _ _ (du_tables _ _ _ _ _ Hd) m Hm) as (_ & _ & _ & Hv & _).
    apply named_kept; [done|]. by apply list_elem_of_fmap_2.
  - done.
  - intros name id Hn. unfold is_orphan. destruct (parse_sst_file_id name) as [j|] eqn:E; [|done].
    apply parse_suffix_inv in Hn as (digits & -> & _). unfold parse_sst_file_id in E.
    by rewrite (parse_other_suffix digits kWalSuffix kTableSuffix Byte.x6c Byte.x74) in E.
Qed.

(** * The manifest *)

(** The manifest as it is found: the level set it describes, or none in a directory
    that was never opened. *)
Definition found (metas : list (list manifest.TableMeta)) (n : Z) (fs : gmap bytes file) (r : option manifest.LevelSet) : Prop :=
  match r with
  | Some set => set = manifest.mkLevelSet n metas ∧ manifest_file fs set ∧ manifest.set_ok set
  | None => fs !! kManifestName = None ∧ metas = [] ∧ n = kFirstFileId ∧
      (∀ name id, parse_sst_file_id name = Some id → fs !! name = None) ∧
      (∀ name id, parse_wal_file_id name = Some id → fs !! name = None)
  end.

Definition manifest_small (fs : gmap bytes file) : Prop :=
  ∀ f, fs !! kManifestName = Some f → sz (f_data f) ≤ manifest.kMaxManifestSize.

Lemma wp_read_manifest {S} metas n (s : S) w : reliable w → manifest_names metas n (w_files w) → manifest_small (w_files w) →
  wp manifest.read s w (λ r s' w', s' = s ∧ same_files w w' ∧ found metas n (w_files w') r ∧ kFirstFileId ≤ n)
    (λ _ _ _, False) (same_files w).
Proof.
  intros Hrel Hm Hsmall. assert (Hr : ∃ r, manifest.read_ref (w_files w) = ROk r ∧ found metas n (w_files w) r ∧ kFirstFileId ≤ n).
  { destruct Hm as [(Hf & Hok & Hn)|(Hno & -> & -> & Hs & Hw)].
    - exists (Some (manifest.mkLevelSet n metas)). split; [|done]. destruct Hf as (f & Hf & Hd).
      assert (Hsz : sz (manifest.encode (manifest.mkLevelSet n metas)) ≤ manifest.kMaxManifestSize) by (rewrite <-Hd; by apply Hsmall).
      by eapply manifest.read_ref_file.
    - exists None. split_and!; [|done..]. unfold manifest.read_ref. by rewrite Hno. }
  destruct Hr as (r & Er & Hfound & Hn).
  eapply wp_mono; [apply manifest.wp_read|..]; cbn beta.
  - intros r' s' w' _ (-> & Hsf & [E|[? _]]); [|done]. rewrite Er in E. injection E as <-. split_and!; [done|done| |done].
    by rewrite (proj1 Hsf).
  - intros e s' w' _ (_ & _ & [[? _]|E]); [done|congruence].
  - done.
Qed.

(** * Opening the tables *)

Lemma wp_open_named c m st w : reliable w → stored_at (w_files w) (manifest.tm_id m) (meta_entries c m) →
  describes m (meta_entries c m) → meta_entries c m ≠ [] → manifest.tm_id m < st_next_id st →
  wp (open_named m) st w (λ t st' w', st' = st ∧ same_files w w' ∧ alike m t ∧ on_disk c w' t) (λ _ _ _, False) (same_files w).
Proof.
  intros Hrel Hst (D1 & D2 & D3) Hne Hlt. unfold open_named. wp_pure. rewrite (proj2 (Z.leb_gt _ _)) by lia. cbn [fail_when]. wp_pure.
  wp_call (wp_open_table _ _ st w Hst Hne).
  2: { intros e st1 w1 _ (_ & _ & Hq & _). done. }
  intros t st1 w1 _ (-> & Hsf & Hid & (E1 & E2 & E3) & _ & Ho). cbn in E1, E2, E3.
  rewrite E1, E2, E3, <-D1, <-D2, <-D3, Z.eqb_refl. unfold key_eqb. rewrite !bool_decide_eq_true_2 by done.
  cbn [negb orb fail_when]. wp_pure. apply wp_ret. split_and!; [done|done| |by apply Ho].
  unfold alike. rewrite Hid, E1, E2, E3. done.
Qed.

Lemma wp_open_level c metas : ∀ st w, reliable w →
  (∀ m, m ∈ metas → stored_at (w_files w) (manifest.tm_id m) (meta_entries c m) ∧ describes m (meta_entries c m) ∧
     meta_entries c m ≠ [] ∧ manifest.tm_id m < st_next_id st) →
  wp (open_level metas) st w
    (λ ts st' w', st' = st ∧ same_files w w' ∧ Forall2 alike metas ts ∧ Forall (on_disk c w') ts) (λ _ _ _, False) (same_files w).
Proof.
  induction metas as [|m metas IH]; intros st w Hrel Hall; cbn [open_level].
  { apply wp_ret. split_and!; [done|done|constructor|constructor]. }
  destruct (Hall m ltac:(by left)) as (H1 & H2 & H3 & H4). wp_call (wp_open_named c m st w Hrel H1 H2 H3 H4).
  intros t st1 w1 Hc1 (-> & Hsf1 & Hal & Ho). wp_call (IH st w1); [eauto with wp| |..].
  { intros m' Hm'. destruct (Hall m' ltac:(by right)) as (G1 & G2 & G3 & G4). split_and!; [|done..].
    eapply stored_at_files; [done|]. by rewrite (proj1 Hsf1). }
  2: { intros w2 _ Hsf2. by etrans. }
  intros ts st2 w2 Hc2 (-> & Hsf2 & Hals & Hos). apply wp_ret. split_and!; [done|by etrans|by constructor|].
  constructor; [|done]. by eapply on_disk_same.
Qed.

Lemma wp_open_levels c metas : ∀ st w, reliable w →
  (∀ m, m ∈ concat metas → stored_at (w_files w) (manifest.tm_id m) (meta_entries c m) ∧ describes m (meta_entries c m) ∧
     meta_entries c m ≠ [] ∧ manifest.tm_id m < st_next_id st) →
  wp (open_levels metas) st w
    (λ levels st' w', st' = st ∧ same_files w w' ∧ Forall2 (Forall2 alike) metas levels ∧ Forall (on_disk c w') (concat levels))
    (λ _ _ _, False) (same_files w).
Proof.
  induction metas as [|l metas IH]; intros st w Hrel Hall; cbn [open_levels].
  { apply wp_ret. split_and!; [done|done|constructor|constructor]. }
  wp_call (wp_open_level c l st w Hrel).
  { intros m Hm. apply Hall. cbn. apply elem_of_app. by left. }
  intros ts st1 w1 Hc1 (-> & Hsf1 & Hal & Ho). wp_call (IH st w1); [eauto with wp| |..].
  { intros m' Hm'. destruct (Hall m') as (G1 & G2 & G3 & G4); [cbn; apply elem_of_app; by right|]. split_and!; [|done..].
    eapply stored_at_files; [done|]. by rewrite (proj1 Hsf1). }
  2: { intros w2 _ Hsf2. by etrans. }
  intros levels st2 w2 Hc2 (-> & Hsf2 & Hals & Hos). apply wp_ret. split_and!; [done|by etrans|by constructor|].
  cbn. apply Forall_app. split; [|done]. eapply Forall_impl; [exact Ho|]. intros t Ht. by eapply on_disk_same.
Qed.

(** The tables are open. *)
Record loaded (c : Z → list entry) (metas : list (list manifest.TableMeta)) (n : Z) (logs : list (Z * list write))
    (levels : Levels) (w : World) : Prop := {
  ld_durable : durable c metas n logs (w_files w);
  ld_levels : levels_ok c levels;
  ld_disk : Forall (on_disk c w) (concat levels);
  ld_stored : Forall (λ t, stored_at (w_files w) (t_id t) (c (t_id t))) (concat levels);
  ld_ids : Forall (λ t, valid_id (t_id t) ∧ t_id t < n) (concat levels);
  ld_run : run_of c (concat levels) = concat (meta_entries c <$> concat metas);
  ld_depth : sz levels ≤ kDepthLimit;
}.

Lemma ld_view c metas n logs levels w : loaded c metas n logs levels w → view c levels = disk_view c metas.
Proof. intros Hld. unfold view, disk_view. by rewrite (ld_run _ _ _ _ _ _ Hld). Qed.

Lemma loaded_opened c metas n logs levels w : durable c metas n logs (w_files w) → Forall2 (Forall2 alike) metas levels →
  Forall (on_disk c w) (concat levels) → loaded c metas n logs levels w.
Proof.
  intros Hd Hal Ho. pose proof (alike_concat _ _ Hal) as Hac. destruct (du_tables _ _ _ _ _ Hd) as [H1 H2 H3 H4].
  assert (Hback : ∀ t, t ∈ concat levels → ∃ m, m ∈ concat metas ∧ manifest.tm_id m = t_id t).
  { intros t [i Hi]%list_elem_of_lookup_1. destruct (Forall2_lookup_r _ _ _ _ _ Hac Hi) as (m & Hm & E & _).
    exists m. split; [by eapply list_elem_of_lookup_2|done]. }
  split; try done.
  - split.
    + eapply Forall_impl; [exact Ho|]. intros t. apply on_disk_keyed.
    + destruct Hal as [|l0 t0 metas levels _ Hal]; [constructor|]. cbn in *. clear -H3 Hal.
      induction Hal as [|l ts metas levels Hl Hal IH]; [constructor|]. apply Forall_cons in H3 as [H1 H2].
      constructor; [|by apply IH]. unfold run_of. by rewrite <-(alike_entries c _ _ Hl).
    + by rewrite <-(alike_ids _ _ Hac).
  - apply Forall_forall. intros t Ht. destruct (Hback t Ht) as (m & Hm & <-). by apply (H1 m Hm).
  - apply Forall_forall. intros t Ht. destruct (Hback t Ht) as (m & Hm & <-). by destruct (H1 m Hm) as (_ & _ & _ & ? & ?).
  - unfold run_of. by rewrite (alike_entries c _ _ Hac).
  - unfold sz in *. by rewrite <-(Forall2_length _ _ _ Hal).
Qed.

(** What loading the tables leaves in the store. *)
Definition loading (levels : Levels) (n : Z) (st st' : LsmStore) : Prop :=
  ∃ s, st' = st_set_levels levels (st_set_next_id n (st_set_stats s st)) ∧ in_range s.

Lemma on_disk_pruned c chosen w w' t : on_disk c w t → pruned chosen w w' → chosen (sst_file_name (t_id t)) = false → on_disk c w' t.
Proof. intros Ho Hp Hc. eapply on_disk_files; [done|]. by eapply pruned_keeps. Qed.

Lemma wp_open_from_manifest c metas n logs st w : reliable w → in_range (st_stats st) → durable c metas n logs (w_files w) →
  manifest_file (w_files w) (manifest.mkLevelSet n metas) → manifest.set_ok (manifest.mkLevelSet n metas) →
  wp (open_from_manifest (manifest.mkLevelSet n metas)) st w
    (λ _ st' w', shrunk w w' ∧ ∃ levels, loading levels n st st' ∧ loaded c metas n logs levels w' ∧ names_levels (w_files w') levels n)
    (λ _ _ _, False) (λ w', durable c metas n logs (w_files w')).
Proof.
  intros Hrel Hs Hd Hf Hok. unfold open_from_manifest. wp_pure. cbn [manifest.ls_next_id manifest.ls_levels].
  wp_call (wp_open_levels c metas (st_set_next_id n st) w Hrel).
  { intros m Hm. destruct (ts_each _ _ _ _ (du_tables _ _ _ _ _ Hd) m Hm) as (? & ? & ? & ? & ?). done. }
  2: { intros w1 _ [E _]. by rewrite E. }
  intros levels st1 w1 Hc1 (-> & Hsf & Hal & Ho). wp_pure. rewrite <-(proj1 Hsf) in Hd, Hf.
  pose proof (alike_concat _ _ Hal) as Hac. rewrite <-(alike_ids _ _ Hac). unfold sweep_orphan_tables.
  eapply wp_mono; [apply (wp_sweep (is_orphan _) true); [eauto with wp|done]|..]; cbn beta; [|done|].
  - intros _ st2 w2 _ ((s & -> & Hr) & _ & Hp). split; [etrans; [by apply pruned_same|by eapply pruned_shrunk]|].
    exists levels. split_and!; [by exists s| |].
    + apply loaded_opened; [by eapply durable_orphans|done|]. rewrite Forall_forall in Ho |- *. intros t Ht.
      eapply on_disk_pruned; [by apply Ho|exact Hp|].
      pose proof (list_elem_of_fmap_2 t_id _ _ Ht) as Hin. rewrite <-(alike_ids _ _ Hac) in Hin. apply named_kept; [|done].
      apply list_elem_of_fmap in Hin as (m & -> & Hm). by apply (ts_each _ _ _ _ (du_tables _ _ _ _ _ Hd) m Hm).
    + exists metas. split_and!; [|done|done]. destruct Hf as (f & Hf & Hfd). exists f. split; [|done].
      by erewrite pruned_keeps.
  - intros w2 _ Hp. by eapply durable_orphans.
Qed.

Lemma names_of_directory (fs : gmap bytes file) name : name ∈ (map_to_list fs).*1 ↔ is_Some (fs !! name).
Proof.
  rewrite list_elem_of_fmap. split.
  - intros ([n f] & -> & Hin%elem_of_map_to_list). by exists f.
  - intros [f Hf]. exists (name, f). split; [done|]. by apply elem_of_map_to_list.
Qed.

Lemma no_ids (parse : bytes → option Z) (fs : gmap bytes file) : (∀ name id, parse name = Some id → fs !! name = None) →
  ids_of parse (map_to_list fs).*1 = [].
Proof.
  intros Hno. unfold ids_of. assert (omap parse (map_to_list fs).*1 = []) as ->; [|done].
  assert (Hn : ∀ id, id ∉ omap parse (map_to_list fs).*1).
  { intros id (name & [f Hf]%names_of_directory & E)%list_elem_of_omap. by rewrite (Hno name id E) in Hf. }
  destruct (omap parse _) as [|id l]; [done|]. destruct (Hn id). by left.
Qed.

Lemma wp_lsm_adopt c metas n logs st w : reliable w → in_range (st_stats st) → durable c metas n logs (w_files w) →
  found metas n (w_files w) None →
  wp adopt_unmanifested_layout st w
    (λ _ st' w', shrunk w w' ∧ ∃ levels, loading levels n st st' ∧ loaded c metas n logs levels w' ∧ found metas n (w_files w') None)
    (λ _ _ _, False) (λ w', durable c metas n logs (w_files w')).
Proof.
  intros Hrel Hs Hd Hf. pose proof Hf as (Hno & -> & -> & Hsst & Hwal). unfold adopt_unmanifested_layout.
  wp_call wp_read_directory; [done| |by intros w1 _ [E _]; rewrite E].
  intros names st1 w1 _ (-> & Hsf & ->). pose proof Hsf as [E _]. rewrite no_ids by done. wp_pure. cbn [raise_next_id]. wp_pure.
  change (reverse []) with (@nil Z). cbn [open_outputs]. wp_pure. apply wp_modify. split; [by apply pruned_same|]. exists [[]].
  split_and!; [exists (st_stats st); split; [by destruct st|done]| |by rewrite E].
  split; [by rewrite E|split|..]; try by constructor. done.
Qed.

(** * The logs *)

Lemma wal_ids c metas n logs fs : durable c metas n logs fs → ids_of parse_wal_file_id (map_to_list fs).*1 = logs.*1.
Proof.
  intros Hd. pose proof (du_only _ _ _ _ _ Hd) as Honly. unfold ids_of.
  apply std_sort_enum; [..|apply (du_order _ _ _ _ _ Hd)].
  - apply NoDup_omap; [apply NoDup_fst_map_to_list|]. intros x y a Hx%names_of_directory Hy%names_of_directory Ex Ey.
    by rewrite (proj1 (Honly _ _ Hx Ex)), (proj1 (Honly _ _ Hy Ey)).
  - intros id. rewrite list_elem_of_omap. split.
    + intros (name & Hin%names_of_directory & E). by apply (Honly _ _ Hin E).
    + intros Hin. apply list_elem_of_fmap in Hin as (l & -> & Hl). pose proof (du_logs _ _ _ _ _ Hd) as Hlog.
      rewrite Forall_forall in Hlog. destruct (Hlog l Hl) as (Hv & _ & _ & f & tl & Hf & _).
      exists (wal_file_name l.1). rewrite names_of_directory. split; [by exists f|by apply parse_wal_name].
Qed.

(** The next id is above every id in use. *)
Definition above (ids : list Z) (n n' : Z) : Prop :=
  n ≤ n' ∧ (∀ id, id ∈ ids → id < n') ∧ (n' = n ∨ ∃ id, id ∈ ids ∧ n' = id + 1).

Lemma wp_raise_next_id ids : ∀ st w, Forall (λ id, id < UINT32_MAX) ids →
  wp (raise_next_id ids) st w
    (λ _ st' w', w' = w ∧ ∃ n', st' = st_set_next_id n' st ∧ above ids (st_next_id st) n') (λ _ _ _, False) (λ _, False).
Proof.
  induction ids as [|id ids IH]; intros st w Hall; cbn [raise_next_id].
  { apply wp_ret. split; [done|]. exists (st_next_id st). split; [by destruct st|]. split_and!; [lia| |by left].
    intros id Hid. by apply elem_of_nil in Hid. }
  apply Forall_cons in Hall as [Hid Hall]. rewrite (proj2 (Z.eqb_neq _ _)) by lia. cbn [fail_when]. wp_pure.
  eapply wp_mono; [by apply IH|..]; cbn beta; [|done|done].
  intros _ st' w' _ (-> & n' & -> & H1 & H2 & H3). split; [done|]. exists n'. split; [by destruct st|]. cbn [st_next_id st_set_next_id] in *.
  split_and!; [lia| |].
  - intros i [->|Hi]%elem_of_cons; [lia|auto].
  - destruct H3 as [->|(i & Hi & ->)].
    + destruct (Z.max_spec (st_next_id st) (id + 1)) as [[_ ->]|[_ ->]]; [right|by left]. exists id. split; [by left|done].
    + right. exists i. split; [by right|done].
Qed.

(** Replaying may shorten a log, but loses none of its writes. *)
Definition relogged (logs : list (Z * list write)) (w w' : World) : Prop :=
  (∀ name, name ∉ wal_file_name <$> logs.*1 → w_files w' !! name = w_files w !! name) ∧ Forall (log_stored (w_files w')) logs.

Lemma log_stored_trimmed fs l f : log_stored fs l → f_data f = log_of l.2 → log_stored (<[wal_file_name l.1 := f]> fs) l.
Proof.
  intros (Hv & Hlt & Hw & _) Hd. split_and!; [done|done|done|]. exists f, []. rewrite lookup_insert_eq, app_nil_r.
  split_and!; [done|done|apply torn_nil].
Qed.

Lemma nodup_fst_eq {A} (l : list (Z * A)) x y : NoDup l.*1 → x ∈ l → y ∈ l → x.1 = y.1 → x = y.
Proof.
  induction l as [|z l IH]; intros Hnd Hx Hy E; [by apply elem_of_nil in Hx|]. csimpl in Hnd. apply NoDup_cons in Hnd as [Hz Hl].
  apply elem_of_cons in Hx as [->|Hx], Hy as [->|Hy]; auto; exfalso; apply Hz; [rewrite E|rewrite <-E]; by apply list_elem_of_fmap_2.
Qed.

Lemma relogged_insert logs l w w' f : Forall (log_stored (w_files w)) logs → l ∈ logs → NoDup logs.*1 →
  w_files w' = <[wal_file_name l.1 := f]> (w_files w) → log_stored (w_files w') l → relogged logs w w'.
Proof.
  intros Hall Hin Hnd E Hl. split.
  - intros name Hn. rewrite E, lookup_insert_ne; [done|]. intros <-. apply Hn. by do 2 apply list_elem_of_fmap_2.
  - rewrite Forall_forall in Hall |- *. intros l' Hl'. destruct (decide (l'.1 = l.1)) as [Ei|Hne].
    + by rewrite (nodup_fst_eq logs l' l).
    + destruct (Hall l' Hl') as (Hv & Hlt & Hw & g & tl & Hg & Hgd). split_and!; [done|done|done|]. exists g, tl.
      rewrite E, lookup_insert_ne; [done|]. intros E2%wal_file_name_inj; [done| |done]. by destruct Hl.
Qed.

Lemma wp_replay_wal l st w f tl xs0 path mode : reliable w → Forall valid_write l → torn tl →
  w_files w !! path = Some f → f_data f = log_of l ++ tl → sz (f_data f) ≤ INT64_MAX → st_mem st = mem_of xs0 →
  wp (replay_wal (mkWal (mkLogFile true path (sz (f_data f)) mode))) st w
    (λ r st' w', st' = st_set_mem (mem_of (xs0 ++ l)) st ∧ lf_open (wal_file r.2) = true ∧
       ∃ f', w_files w' = <[path := f']> (w_files w) ∧ f_data f' = log_of l)
    (λ _ _ _, False)
    (λ w', ∃ f', w_files w' = <[path := f']> (w_files w) ∧ (f_data f' = log_of l ++ tl ∨ f_data f' = log_of l)).
Proof.
  intros Hrel Hv Htl Hf Hd Hsz Hmem. set (wal := mkWal _).
  assert (Hh : LogFileOps.holds (wal_file wal) w f (log_of l ++ tl) []).
  { split_and!; [done|done|by rewrite app_nil_r|]. cbn. by rewrite Hd. }
  rewrite Hd in Hsz. pose proof (wp_replay_into wal w f l tl (mem_of xs0) Hrel Hv Htl Hh Hsz) as Hwp.
  unfold wp, replay_wal in *. rewrite Hmem. destruct (replay_into (wal, mem_of xs0) w) as [r [wal' m] w'|e [wal' m] w'|w'|]; try done.
  destruct Hwp as (Hc & -> & Hm & (_ & f2 & Ho & Hf2 & Hd2 & _) & Hp & f' & E). cbn [fst snd] in *. rewrite app_nil_r in Hd2.
  split; [done|]. split_and!; [by rewrite Hm, mem_of_app|done|]. exists f'. split; [done|]. rewrite Hp, E in Hf2. cbn in Hf2.
  rewrite lookup_insert_eq in Hf2. injection Hf2 as ->. done.
Qed.

Lemma relogged_cons l logs w w1 w2 : relogged (l :: logs) w w1 → relogged logs w1 w2 → NoDup (l :: logs).*1 → relogged (l :: logs) w w2.
Proof.
  intros [H1 H2] [G1 G2] Hnd. split.
  - intros name Hn. rewrite G1; [by apply H1|]. intros Hin. apply Hn. csimpl. by right.
  - constructor; [|done]. apply Forall_cons in H2 as [(Hv & Hlt & Hw & f & tl & Hf & Hd) H2]. split_and!; [done|done|done|].
    exists f, tl. rewrite G1; [done|]. csimpl in Hnd. apply NoDup_cons in Hnd as [Hno _].
    intros (i & E & Hi)%list_elem_of_fmap. apply Hno. apply wal_file_name_inj in E as ->; [done|done|].
    apply list_elem_of_fmap in Hi as (l' & -> & Hl'). rewrite Forall_forall in H2. by apply (H2 l' Hl').
Qed.

Lemma wp_replay_wals logs : ∀ st w xs0, reliable w → in_range (st_stats st) → Forall (log_stored (w_files w)) logs →
  NoDup logs.*1 → (∀ name f, w_files w !! name = Some f → sz (f_data f) ≤ INT64_MAX) → st_mem st = mem_of xs0 →
  wp (replay_wals logs.*1) st w
    (λ _ st' w', (∃ s, st' = st_set_mem (mem_of (xs0 ++ concat logs.*2)) (st_set_stats s st) ∧ in_range s) ∧ relogged logs w w')
    (λ _ _ _, False) (relogged logs w).
Proof.
  induction logs as [|[id l] logs IH]; intros st w xs0 Hrel Hs Hall Hnd Hsz Hmem; cbn [replay_wals fmap list_fmap].
  { apply wp_ret. split; [|by split]. exists (st_stats st). cbn. rewrite app_nil_r, <-Hmem. split; [by destruct st|done]. }
  cbn [fst]. pose proof Hall as [(Hv & Hlt & Hw & f & tl & Hf & Hd & Htl) Hrest]%Forall_cons. cbn [fst snd] in *. wp_pure.
  assert (Hself : relogged ((id, l) :: logs) w w) by done.
  assert (Hins : ∀ w' f', w_files w' = <[wal_file_name id := f']> (w_files w) → f_data f' = log_of l ++ tl ∨ f_data f' = log_of l →
    relogged ((id, l) :: logs) w w').
  { intros w' f' E Hd'. eapply (relogged_insert _ (id, l)); [done|by left|done|exact E|]. rewrite E. split_and!; [done|done|done|].
    destruct Hd' as [?|?]; [exists f', tl|exists f', []; rewrite app_nil_r]; cbn; rewrite lookup_insert_eq; split_and!; try done.
    apply torn_nil. }
  assert (Eo : LogFileOps.opened (wal_file_name id) (w_files w) = w_files w) by (unfold LogFileOps.opened; by rewrite Hf).
  assert (Ef : LogFileOps.opened_file (wal_file_name id) (w_files w) = f) by (unfold LogFileOps.opened_file; by rewrite Hf).
  pose proof (Hsz _ _ Hf) as Hszf. wp_call (wp_wal_open (wal_file_name id) (lo_sync_mode (st_options st)) st w Hrel).
  { rewrite Ef. unfold INT64_MAX, UINT64_MAX in *. lia. }
  2: { intros w1 _ [[E _]|[E _]]; rewrite ?Eo in E; by split; [|rewrite E]; [intros; by rewrite E|]. }
  rewrite Eo, Ef. intros wal st1 w1 Hc1 (-> & [E1 _] & ->). rewrite <-E1 in Hf.
  wp_call (wp_replay_wal l st w1 f tl xs0 (wal_file_name id) (lo_sync_mode (st_options st))); try done; [eauto with wp| |].
  2: { intros w2 _ (f' & E & Hd'). rewrite E1 in E. by eapply Hins. }
  intros r st2 w2 Hc2 (-> & Hopen & f' & E2 & Hd2). rewrite E1 in E2. apply wp_bind_bump.
  pose proof (Hins w2 f' E2 (or_intror Hd2)) as Hre2.
  eapply wp_bind_local; [by apply wp_wal_close|..]; cbn beta.
  - intros [] wal3 w3 Hc3 [E3 _]. wp_pure.
    assert (Hre3 : relogged ((id, l) :: logs) w w3) by (destruct Hre2 as [G1 G2]; split; rewrite E3; done).
    assert (Hsz3 : ∀ name g, w_files w3 !! name = Some g → sz (f_data g) ≤ INT64_MAX).
    { intros name g. rewrite E3, E2. destruct (decide (name = wal_file_name id)) as [->|Hne].
      - rewrite lookup_insert_eq. intros [= <-]. rewrite Hd2. rewrite Hd, sz_app in Hszf. pose proof (sz_nonneg tl). lia.
      - rewrite lookup_insert_ne by done. apply Hsz. }
    eapply wp_mono; [apply (IH _ w3 (xs0 ++ l)); [eauto 10 with wp|by apply in_range_bump| |by csimpl in Hnd; apply NoDup_cons in Hnd as [_ ?]|done|done]|..]; cbn beta; [|..].
    + by destruct Hre3 as [_ [_ ?]%Forall_cons].
    + intros _ st4 w4 _ ((s & -> & Hr) & Hre). split; [|by eapply relogged_cons]. exists s. split; [|done]. csimpl. by rewrite app_assoc.
    + done.
    + intros w4 _ Hre. by eapply relogged_cons.
  - intros e wal3 w3 _ Hq. apply Hq. eauto 10 with wp.
  - intros w3 _ [E3 _]. destruct Hre2 as [G1 G2]. split; rewrite E3; done.
Qed.

Lemma wal_names_sst (logs : list (Z * list write)) id : sst_file_name id ∉ wal_file_name <$> logs.*1.
Proof. intros (i & E & _)%list_elem_of_fmap. symmetry in E. by apply wal_not_sst in E. Qed.
Lemma wal_names_manifest (logs : list (Z * list write)) : kManifestName ∉ wal_file_name <$> logs.*1.
Proof. intros (i & E & _)%list_elem_of_fmap. symmetry in E. by apply wal_not_manifest in E. Qed.

Lemma durable_relogged c metas n logs w w' : durable c metas n logs (w_files w) → relogged logs w w' → durable c metas n logs (w_files w').
Proof.
  intros [Hm [H1 H2 H3 H4] Ho Hl Honly] [Hsame Hl']. split; [|split| |..]; try done.
  - destruct Hm as [(Hf & Hok & Hn)|(Hno & -> & -> & Hs & Hw)]; [left|right].
    + split; [|done]. destruct Hf as (f & Hf & Hd). exists f. rewrite Hsame; [done|apply wal_names_manifest].
    + assert (Hnil : logs = []).
      { destruct logs as [|l logs]; [done|]. apply Forall_cons in Hl as [(Hv & _ & _ & f & tl & Hf & _) _].
        by rewrite (Hw _ _ (parse_wal_name _ Hv)) in Hf. }
      subst logs. split_and!; [|done|done|..]; intros; rewrite Hsame by (by apply not_elem_of_nil); eauto.
  - intros m Hin. destruct (H1 m Hin) as (Hst & Hrest). split; [|done]. eapply stored_at_files; [done|]. apply Hsame, wal_names_sst.
  - intros name id Hin Hp. destruct (decide (name ∈ wal_file_name <$> logs.*1)) as [Hn|Hn].
    + apply list_elem_of_fmap in Hn as (i & -> & Hi). apply list_elem_of_fmap in Hi as (l & -> & Hin').
      rewrite Forall_forall in Hl. destruct (Hl l Hin') as (Hv & _). rewrite parse_wal_name in Hp by done.
      injection Hp as <-. split; [done|by apply list_elem_of_fmap_2].
    + apply Honly; [|done]. by rewrite <-(Hsame name Hn).
Qed.

Lemma loaded_relogged c metas n logs levels w w' : loaded c metas n logs levels w → relogged logs w w' → loaded c metas n logs levels w'.
Proof.
  intros [H1 H2 H3 H4 H5 H6 H7] Hre. pose proof Hre as [Hsame _]. split; try done.
  - by eapply durable_relogged.
  - eapply Forall_impl; [exact H3|]. intros t Ht. eapply on_disk_files; [exact Ht|]. apply Hsame, wal_names_sst.
  - eapply Forall_impl; [exact H4|]. intros t Ht. eapply stored_at_files; [exact Ht|]. apply Hsame, wal_names_sst.
Qed.

Lemma loaded_same c metas n logs levels w w' : loaded c metas n logs levels w → same_files w w' → loaded c metas n logs levels w'.
Proof.
  intros Hld [E _]. eapply loaded_relogged; [exact Hld|]. split; [by intros name _; rewrite E|].
  rewrite E. by apply (du_logs _ _ _ _ _ (ld_durable _ _ _ _ _ _ Hld)).
Qed.

Lemma names_levels_files fs fs' levels n : names_levels fs levels n → fs' !! kManifestName = fs !! kManifestName → names_levels fs' levels n.
Proof. intros (metas & (f & Hf & Hd) & Hrest) E. exists metas. split; [|done]. exists f. by rewrite E. Qed.
End Recover.
