(* ===== verification/LsmRestart.v ===== *)
(** The end of recovery: the replayed writes become a table, the logs go, oldest
    first, and a new log is started.  What is left is a running engine. *)

From S2P Require Import Prelude Status FileNames World Wp Encoding Record SortedMap Memtable SSTableFormat LogFile Manifest LogScan SSTableLayout LsmStats SSTable SSTableBuild SSTableRead SSTableOpen IteratorMerge Wal LsmState LsmCompact Lsm LsmLevels LsmGet LsmDisk LsmPick LsmMerge LsmCommit LsmServe LsmReads LsmFlush LsmOpen LsmRecover.
Import sstable LsmState LsmCompact LsmOps WalOps LsmOpen.

#[local] Opaque record.encode record.decode record.decode_header.

Section Restart.
Context `{Platform}.

(** The logs of a directory. *)
Record logs_left (logs : list (Z * list write)) (fs : gmap bytes file) : Prop := {
  ll_order : StronglySorted Z.lt logs.*1;
  ll_stored : Forall (log_stored fs) logs;
  ll_only : ∀ name id, is_Some (fs !! name) → parse_wal_file_id name = Some id → name = wal_file_name id ∧ id ∈ logs.*1;
}.

Lemma durable_logs c metas n logs fs : durable c metas n logs fs → logs_left logs fs.
Proof. by intros [_ _ ? ? ?]. Qed.

Lemma logs_left_files logs fs fs' : logs_left logs fs →
  (∀ name id, parse_wal_file_id name = Some id → fs' !! name = fs !! name) → logs_left logs fs'.
Proof.
  intros [H1 H2 H3] Hf. split; [done|..].
  - eapply Forall_impl; [exact H2|]. intros l (Hv & Hlt & Hw & f & tl & Hfl & Hd). split_and!; [done|done|done|]. exists f, tl.
    by erewrite Hf by by apply parse_wal_name.
  - intros name id Hin Hp. eapply H3; [|done]. by rewrite <-(Hf name id Hp).
Qed.

Lemma tables_recoverable c levels n w logs : tables_ok c levels n w → logs_left logs (w_files w) →
  recoverable (w_files w) (live (written (concat logs.*2) ∪ view c levels)).
Proof.
  intros Ht [H1 H2 H3]. destruct (tables_ok_stored _ _ _ _ Ht) as (m & metas & Hm & Hts & Hv).
  exists c, metas, m, logs. split; [by split|]. unfold recovered. by rewrite Hv.
Qed.

(** * The table of the replayed writes *)

Section Flushed.
Context (c : Z → list entry) (metas : list (list manifest.TableMeta)) (n : Z) (logs : list (Z * list write)) (levels : Levels).
Context (w w' : World) (t : SSTable) (id m : Z) (es : list entry).
Hypothesis Hld : loaded c metas n logs levels w.
Hypothesis Hid : n ≤ id ∧ valid_id id ∧ id < m ≤ UINT32_MAX.
Let c' := assign [(id, es)] c.
Let levels' := push_l0 t levels.

Lemma replayed_frame names : untouched names w w' →
  names ⊆ [temp_name (sst_file_name id); sst_file_name id; temp_name kManifestName; kManifestName] →
  (∀ x, x ∈ concat levels → w_files w' !! sst_file_name (t_id x) = w_files w !! sst_file_name (t_id x)) ∧
  (∀ name i, parse_wal_file_id name = Some i → w_files w' !! name = w_files w !! name).
Proof.
  intros Hu Hsub. pose proof (ld_ids _ _ _ _ _ _ Hld) as Hi. rewrite Forall_forall in Hi. split.
  - intros x Hx. destruct (Hi x Hx) as [Hv Hlt]. apply Hu. intros Hin%Hsub.
    repeat (apply elem_of_cons in Hin as [E|Hin]); [..|by apply elem_of_nil in Hin].
    + by apply sst_not_temp in E.
    + apply sst_file_name_inj in E; [lia|done|by apply Hid].
    + by apply sst_not_temp in E.
    + by apply sst_not_manifest in E.
  - intros name i Hp. apply Hu. intros Hin%Hsub. repeat (apply elem_of_cons in Hin as [->|Hin]); [..|by apply elem_of_nil in Hin].
    + by rewrite parse_wal_temp in Hp.
    + by rewrite parse_wal_sst in Hp.
    + by rewrite parse_wal_temp in Hp.
    + done.
Qed.

Hypothesis Hf : flushed id es levels m w w' t.

Lemma replayed_contents : c' id = es ∧ extends n c c'.
Proof.
  split; [by apply assign_in; [apply NoDup_singleton|left]|]. apply assign_extends. constructor; [cbn; lia|constructor].
Qed.

Lemma replayed_low : Forall (λ x, t_id x < n) (concat levels).
Proof. eapply Forall_impl; [by apply (ld_ids _ _ _ _ _ _ Hld)|]. by intros x [_ ?]. Qed.

Lemma replayed_tables : tables_ok c' levels' m w'.
Proof.
  destruct replayed_contents as [Ec Hext]. pose proof replayed_low as Hlow. pose proof Hld as [_ Hlv Hd Hst Hi _ Hdep].
  destruct (replayed_frame _ (fl_files _ _ _ _ _ _ _ Hf) ltac:(done)) as [Hsst _]. pose proof Hf as [Eid _ _ Hsto Ho Hman _].
  assert (Hl' : levels_ok c' levels').
  { pose proof (levels_ok_extends n c c' levels Hext Hlow Hlv) as [Hk Hr Hnd]. split; unfold levels'; rewrite ?concat_push_l0.
    - constructor; [|done]. by apply (on_disk_keyed c' w'), Ho.
    - by destruct levels.
    - csimpl. apply NoDup_cons. split; [|done]. rewrite Eid. intros (x & E & Hx)%list_elem_of_fmap.
      rewrite Forall_forall in Hlow. specialize (Hlow x Hx). lia. }
  assert (Hd' : Forall (on_disk c' w') (concat levels')).
  { unfold levels'. rewrite concat_push_l0. constructor; [by apply Ho|]. rewrite Forall_forall in Hd, Hlow |- *. intros x Hx.
    eapply on_disk_extends; [|exact Hext|by apply Hlow]. eapply on_disk_files; [by apply Hd|by apply Hsst]. }
  assert (Hi' : Forall (λ x, valid_id (t_id x) ∧ t_id x < m) (concat levels')).
  { unfold levels'. rewrite concat_push_l0. constructor; [rewrite Eid; split; [by apply Hid|lia]|].
    eapply Forall_impl; [exact Hi|]. cbn. intros x [? ?]. split; [done|lia]. }
  assert (Hdep' : sz levels' ≤ kDepthLimit) by (pose proof (push_l0_depth t levels); unfold levels', kDepthLimit in *; lia).
  destruct Hid as (? & [? ?] & ?). split; try done.
  - unfold levels'. rewrite concat_push_l0. constructor; [by rewrite Eid, Ec|]. rewrite Forall_forall in Hst, Hlow |- *. intros x Hx.
    rewrite Hext by by apply Hlow. eapply stored_at_files; [by apply Hst|by apply Hsst].
  - lia.
  - exists m. split_and!; [lia|lia|eapply Forall_impl; [exact Hi'|]; by intros x [_ ?]|].
    apply (names_written c' w'); [done|done|done| |done|unfold kFirstFileId in *; lia]. eapply Forall_impl; [exact Hi'|]. by intros x [? _].
Qed.

Lemma replayed_view : view c' levels' = as_map es ∪ view c levels.
Proof.
  destruct replayed_contents as [Ec Hext]. unfold view, levels'. rewrite concat_push_l0, run_of_cons, as_map_app.
  rewrite (run_of_extends n c c' _ Hext replayed_low). unfold entries_of. by rewrite (fl_id _ _ _ _ _ _ _ Hf), Ec.
Qed.

Lemma replayed_logs : logs_left logs (w_files w').
Proof.
  destruct (replayed_frame _ (fl_files _ _ _ _ _ _ _ Hf) ltac:(done)) as [_ Hwal].
  eapply logs_left_files; [by eapply durable_logs, (ld_durable _ _ _ _ _ _ Hld)|done].
Qed.
End Flushed.

(** Logs whose writes are all in the tables. *)
Definition absorbed (logs : list (Z * list write)) (v : gmap bytes MemEntry) : Prop := written (concat logs.*2) ∪ v = v.

Lemma absorbed_tail l logs v : absorbed (l :: logs) v → absorbed logs v.
Proof.
  unfold absorbed. csimpl. rewrite written_app. intros E. rewrite <-E at 1.
  by rewrite <-(map_union_assoc (written (concat logs.*2)) (written l.2)), map_union_assoc, map_union_idemp, map_union_assoc.
Qed.

Lemma absorbed_union logs v : absorbed logs (written (concat logs.*2) ∪ v).
Proof. unfold absorbed. by rewrite map_union_assoc, map_union_idemp. Qed.

(** The directory after the replayed writes are stored. *)
Record stored_up (logs : list (Z * list write)) (c : Z → list entry) (levels : Levels) (n : Z) (db : gmap bytes bytes) (w : World) : Prop := {
  su_tables : tables_ok c levels n w;
  su_logs : logs_left logs (w_files w);
  su_absorbed : absorbed logs (view c levels);
  su_db : live (view c levels) = db;
}.

Lemma stored_up_recoverable logs c levels n db w : stored_up logs c levels n db w → recoverable (w_files w) db.
Proof. intros [H1 H2 H3 <-]. rewrite <-H3. by eapply tables_recoverable. Qed.

Section Store.
Context (c : Z → list entry) (metas : list (list manifest.TableMeta)) (n : Z) (logs : list (Z * list write)) (levels : Levels).
Context (st : LsmStore) (w : World).
Let xs := concat logs.*2.
Let db := recovered c metas logs.
Hypothesis Hld : loaded c metas n logs levels w.
Hypothesis Hrel : reliable w.
Hypothesis Hopts : lo_fail_at (st_options st) = FpNone ∧ lo_block_size (st_options st) ≠ 0.
Hypothesis Hstats : in_range (st_stats st).
Hypothesis Hmem : st_mem st = mem_of xs.
Hypothesis Hlev : st_levels st = levels.
Hypothesis Hnext : n ≤ st_next_id st ∧ st_next_id st + 2 ≤ UINT32_MAX ∧ kFirstFileId ≤ n.
Hypothesis Hweight : weight (run_of c (concat levels)) + weight (map_ (mem_of xs)) ≤ kTotalLimit.

Lemma store_valid : Forall valid_write xs.
Proof.
  pose proof (du_logs _ _ _ _ _ (ld_durable _ _ _ _ _ _ Hld)) as Hl. apply Forall_forall. intros x (l & Hx & Hl')%elem_of_concat.
  apply list_elem_of_fmap in Hx as (l0 & -> & Hin). rewrite Forall_forall in Hl. destruct (Hl l0 Hin) as (_ & _ & Hv & _).
  rewrite Forall_forall in Hv. by apply Hv.
Qed.

Lemma store_db : live (written xs ∪ view c levels) = db.
Proof. unfold db, recovered. by rewrite (ld_view _ _ _ _ _ _ Hld). Qed.

(** What the step leaves in the store. *)
Definition stored_in (st' : LsmStore) (w' : World) : Prop :=
  ∃ c' levels' m s, st' = st_set_mem MemtableOps.empty_table (st_set_levels levels' (st_set_next_id m (st_set_stats s st))) ∧
    in_range s ∧ st_next_id st ≤ m ≤ st_next_id st + 1 ∧ stored_up logs c' levels' m db w'.

Lemma store_manifest : xs ≠ [] → w_files w !! kManifestName ≠ None.
Proof.
  intros Hne E. destruct (ld_durable _ _ _ _ _ _ Hld) as [Hm _ _ Hl _]. destruct Hm as [((f & Hf & _) & _)|(_ & _ & _ & _ & Hw)]; [congruence|].
  unfold xs in Hne. destruct logs as [|l ls]; [done|]. apply Forall_cons in Hl as [(Hv & _ & _ & f & tl & Hf & _) _].
  by rewrite (Hw _ _ (parse_wal_name _ Hv)) in Hf.
Qed.

Lemma store_before id names w' : n ≤ id ∧ valid_id id → xs ≠ [] → untouched names w w' →
  names ⊆ [temp_name (sst_file_name id); sst_file_name id; temp_name kManifestName] → recoverable (w_files w') db.
Proof.
  intros [Hn Hv] Hne Hu Hsub. assert (Hsub' : names ⊆ [temp_name (sst_file_name id); sst_file_name id; temp_name kManifestName; kManifestName]) by set_solver.
  pose proof (ld_durable _ _ _ _ _ _ Hld) as Hd. exists c, metas, n, logs. split; [|done]. eapply durable_agree; [exact Hd|..].
  - intros m Hm. destruct (ts_each _ _ _ _ (du_tables _ _ _ _ _ Hd) m Hm) as (_ & _ & _ & Hvm & Hlt). apply Hu. intros Hin%Hsub.
    repeat (apply elem_of_cons in Hin as [E|Hin]); [..|by apply elem_of_nil in Hin].
    + by apply sst_not_temp in E.
    + apply sst_file_name_inj in E; [lia|done|done].
    + by apply sst_not_temp in E.
  - apply Hu. intros Hin%Hsub. repeat (apply elem_of_cons in Hin as [E|Hin]); [..|by apply elem_of_nil in Hin].
    + by apply manifest_not_temp in E.
    + by apply manifest_not_sst in E.
    + by apply manifest_not_temp in E.
  - intros name i Hp. apply Hu. intros Hin%Hsub. repeat (apply elem_of_cons in Hin as [->|Hin]); [..|by apply elem_of_nil in Hin].
    + by rewrite parse_wal_temp in Hp.
    + by rewrite parse_wal_sst in Hp.
    + by rewrite parse_wal_temp in Hp.
  - intros E. by apply store_manifest in E.
Qed.

Lemma store_after id t w' : n ≤ id ∧ valid_id id ∧ id + 1 ≤ UINT32_MAX → flushed id (map_ (mem_of xs)) levels (id + 1) w w' t →
  stored_up logs (assign [(id, map_ (mem_of xs))] c) (push_l0 t levels) (id + 1) db w'.
Proof.
  intros (Hn & Hv & Hmax) Hf. assert (Hid : n ≤ id ∧ valid_id id ∧ id < id + 1 ≤ UINT32_MAX) by (split_and!; try done; lia).
  pose proof (replayed_view c metas n logs levels w w' t id (id + 1) _ Hld Hid Hf) as Hview.
  change (as_map (map_ (mem_of xs))) with (written xs) in Hview.
  split; [by eapply replayed_tables|by eapply replayed_logs|rewrite Hview; apply absorbed_union|]. rewrite Hview. apply store_db.
Qed.

Lemma wp_store_flush : xs ≠ [] →
  wp (id ← claim_id;
      st ← get;
      levels ← build_table_unlocked (st_mem st) id (st_levels st) (st_next_id st);
      modify (st_set_levels levels);;
      modify (λ st, st_set_mem (MemtableOps.clear (st_mem st)) st)) st w
    (λ _ st' w', stored_in st' w')
    (λ e st' w', code_ e = InvalidArgument ∧ recoverable (w_files w') db)
    (λ w', recoverable (w_files w') db).
Proof.
  intros Hne. destruct Hnext as (Hn1 & Hn2 & Hn3). set (id := st_next_id st) in *.
  assert (Hv : valid_id id) by (unfold valid_id; lia). pose proof store_valid as Hvx.
  pose proof (mem_of_nonempty xs Hne) as Hes. pose proof (mem_of_fits xs Hvx) as Hfit.
  apply wp_bind_claim; [unfold kFirstFileId in *; lia|]. fold id. wp_pure.
  change (st_mem (st_set_next_id (id + 1) st)) with (st_mem st). change (st_levels (st_set_next_id (id + 1) st)) with (st_levels st).
  change (st_next_id (st_set_next_id (id + 1) st)) with (id + 1). rewrite Hmem, Hlev.
  wp_call (wp_build_table_unlocked (mem_of xs) id levels (id + 1) (st_set_next_id (id + 1) st) w Hrel); try (by apply Hopts); try done.
  - pose proof (weight_nonneg (run_of c (concat levels))). unfold kWeightLimit, kTotalLimit in *.
    split_and!; [done|done|apply mem_of_plain|apply mem_of_sorted|lia].
  - intros t Et Hdesc. destruct (replayed_contents c n id (id + 1) (map_ (mem_of xs))) as [Ec Hext]; [split_and!; [done|done|lia|lia]|].
    eapply (push_room c (assign [(id, map_ (mem_of xs))] c) w levels t (map_ (mem_of xs))); try done; [by rewrite Et| |..].
    + intros x Hx. apply Hext. pose proof (replayed_low c metas n logs levels w Hld) as Hlow. rewrite Forall_forall in Hlow. by apply Hlow.
    + apply (ld_disk _ _ _ _ _ _ Hld).
    + apply (ld_depth _ _ _ _ _ _ Hld).
  - intros levels' st1 w1 _ ((s & -> & Hr) & t & -> & Hf). wp_pure. apply wp_modify.
    eexists _, _, (id + 1), s. split_and!; [done|done|fold id; lia..|]. apply store_after; [|done]. split_and!; [done|done|lia].
  - intros e st1 w1 _ (_ & Hcode & Ht). split; [done|]. eapply (store_before id [temp_name (sst_file_name id)]); [done|done| |set_solver].
    intros name Hn. apply Ht. set_solver.
  - intros w1 _ [Hu|[t Hf]].
    + eapply (store_before id); [done|done|exact Hu|done].
    + eapply stored_up_recoverable, store_after; [|exact Hf]. split_and!; [done|done|lia].
Qed.

(** Nothing was replayed: the directory needs at most its first manifest. *)
Lemma stored_empty m w' : xs = [] → names_levels (w_files w') levels m → st_next_id st = m ∨ m = n →
  (∀ name, name ≠ kManifestName → (∀ stem, name ≠ temp_name stem) → w_files w' !! name = w_files w !! name) →
  stored_up logs c levels (st_next_id st) db w'.
Proof.
  intros Hx Hnm Hm Hsame. pose proof Hld as [Hd Hlv Hdk Hst Hi Hv Hdep]. destruct Hnext as (Hn1 & Hn2 & Hn3).
  assert (Hsst : ∀ i, w_files w' !! sst_file_name i = w_files w !! sst_file_name i).
  { intros i. apply Hsame; [apply sst_not_manifest|intros stem; apply sst_not_temp]. }
  split.
  - split; try done.
    + eapply Forall_impl; [exact Hdk|]. intros t Ht. by eapply on_disk_files.
    + eapply Forall_impl; [exact Hst|]. intros t Ht. by eapply stored_at_files; [exact Ht|].
    + eapply Forall_impl; [exact Hi|]. cbn. intros t [? ?]. split; [done|lia].
    + lia.
    + exists m. split_and!; [lia|lia| |done]. eapply Forall_impl; [exact Hi|]. cbn. intros t [_ ?]. lia.
  - eapply logs_left_files; [by eapply durable_logs|]. intros name id Hp. apply Hsame.
    + by intros ->.
    + intros stem ->. by rewrite parse_wal_temp in Hp.
  - unfold absorbed. fold xs. by rewrite Hx, written_nil, map_empty_union.
  - rewrite <-store_db, Hx, written_nil. by rewrite map_empty_union.
Qed.

Lemma wp_store_first : xs = [] → found metas n (w_files w) None →
  wp (commit_manifest (st_levels st) (st_next_id st)) st w
    (λ _ st' w', stored_in st' w') (λ _ _ _, False) (λ w', recoverable (w_files w') db).
Proof.
  intros Hx Hfound. pose proof Hld as [Hd Hlv Hdk Hst Hi Hv Hdep]. destruct Hnext as (Hn1 & Hn2 & Hn3). rewrite Hlev.
  assert (Hdone : ∀ w', manifest.committed (level_set_of levels (st_next_id st)) w w' → stored_up logs c levels (st_next_id st) db w').
  { intros w' [Hman Hother]. apply (stored_empty (st_next_id st)); [done| |by left|].
    - apply (names_written c w); [by eexists|done|done| |done|unfold kFirstFileId in *; lia].
      eapply Forall_impl; [exact Hi|]. by intros t [? _].
    - intros name Hm Ht. by apply Hother. }
  unfold commit_manifest. eapply wp_mono; [apply manifest.wp_write_atomic; [|by left]|..]; cbn beta.
  - pose proof (level_set_size c w levels (st_next_id st) Hdk). pose proof (weight_nonneg (map_ (mem_of xs))).
    unfold kTotalLimit, kDepthLimit, UINT64_MAX in *. lia.
  - intros _ st' w' _ (-> & Hc). eexists c, levels, (st_next_id st), (st_stats st).
    split_and!; [|done|lia|lia|by apply Hdone]. rewrite <-Hlev. rewrite Hx in Hmem. destruct st. cbn in *. by rewrite Hmem.
  - intros e st' w' _ (_ & Hq & _). done.
  - intros w' _ [Ht|Hc]; [|by eapply stored_up_recoverable, Hdone]. exists c, metas, n, logs. split; [|done].
    eapply durable_agree; [exact Hd|..].
    + intros m Hm. apply Ht, sst_not_temp.
    + apply Ht, manifest_not_temp.
    + intros name i Hp. apply Ht. intros ->. by rewrite parse_wal_temp in Hp.
    + intros _ name i Hp. left. apply Ht. intros ->. by rewrite parse_sst_temp in Hp.
Qed.

Lemma wp_store (r : option manifest.LevelSet) :
  match r with Some _ => names_levels (w_files w) levels n | None => found metas n (w_files w) None end →
  wp (if negb (MemtableOps.empty (st_mem st)) then
        id ← claim_id;
        st ← get;
        levels ← build_table_unlocked (st_mem st) id (st_levels st) (st_next_id st);
        modify (st_set_levels levels);;
        modify (λ st, st_set_mem (MemtableOps.clear (st_mem st)) st)
      else match r with Some _ => mret tt | None => commit_manifest (st_levels st) (st_next_id st) end) st w
    (λ _ st' w', stored_in st' w')
    (λ e st' w', code_ e = InvalidArgument ∧ recoverable (w_files w') db)
    (λ w', recoverable (w_files w') db).
Proof.
  intros Hr. rewrite Hmem. destruct (decide (xs = [])) as [Hx|Hx].
  - rewrite Hx. cbn [MemtableOps.empty mem_of fmap list_fmap foldl MemtableOps.empty_table map_ negb]. destruct r as [set|].
    + apply wp_ret. eexists c, levels, (st_next_id st), (st_stats st).
      split_and!; [|done|lia|lia|by eapply stored_empty; [|exact Hr|right|]].
      rewrite <-Hlev. rewrite Hx in Hmem. destruct st. cbn in *. by rewrite Hmem.
    + eapply wp_mono; [by apply wp_store_first|done|done|done].
  - assert (MemtableOps.empty (mem_of xs) = false) as ->.
    { apply mem_of_nonempty in Hx. unfold MemtableOps.empty. by destruct (map_ (mem_of xs)). }
    by apply wp_store_flush.
Qed.
End Store.

(** * Removing the logs *)

Lemma logs_left_removed l logs fs : logs_left (l :: logs) fs → logs_left logs (delete (wal_file_name l.1) fs).
Proof.
  intros [H1 H2 H3]. csimpl in H1. apply StronglySorted_inv in H1 as [Hs Hlt]. apply Forall_cons in H2 as [Hl H2].
  destruct Hl as (Hv & _). rewrite Forall_forall in Hlt. split; [done|..].
  - rewrite Forall_forall in H2 |- *. intros l' Hl'. destruct (H2 l' Hl') as (Hv' & ? & ? & f & tl & Hf & Hd).
    split_and!; [done|done|done|]. exists f, tl. rewrite lookup_delete_ne; [done|]. intros E%wal_file_name_inj; [|done|done].
    specialize (Hlt l'.1 (list_elem_of_fmap_2 _ _ _ Hl')). lia.
  - intros name id Hin Hp. destruct (decide (name = wal_file_name l.1)) as [->|Hne].
    { rewrite lookup_delete_eq in Hin. by destruct Hin. }
    rewrite lookup_delete_ne in Hin by done. destruct (H3 name id Hin Hp) as [-> [->|Hi]%elem_of_cons]; done.
Qed.

Lemma stored_up_removed l logs c levels n db w w' : stored_up (l :: logs) c levels n db w →
  w_files w' = delete (wal_file_name l.1) (w_files w) → stored_up logs c levels n db w'.
Proof.
  intros [H1 H2 H3 H4] E. split; [|rewrite E; by apply logs_left_removed|by eapply absorbed_tail|done].
  pose proof (tk_next _ _ _ _ H1). eapply tables_ok_files; [exact H1|lia|..].
  - intros t _. rewrite E, lookup_delete_ne; [done|]. apply wal_not_sst.
  - rewrite E, lookup_delete_ne; [done|]. apply wal_not_manifest.
Qed.

(** Oldest first: what is left is always newer than what is gone. *)
Lemma wp_remove_wals c levels n db logs : ∀ (st : LsmStore) w, reliable w → stored_up logs c levels n db w →
  wp (remove_wals logs.*1) st w
    (λ _ st' w', st' = st ∧ stored_up [] c levels n db w') (λ _ _ _, False) (λ w', recoverable (w_files w') db).
Proof.
  induction logs as [|l logs IH]; intros st w Hrel Hup; cbn [remove_wals fmap list_fmap]; [by apply wp_ret|].
  wp_call wp_remove.
  2: { intros w1 _ ->. by eapply stored_up_recoverable. }
  intros ec st1 w1 Hc1 (-> & [(-> & Hfs & _)|(_ & Hq & _)]); [|done]. cbn [fail_when]. wp_pure.
  eapply wp_mono; [apply IH; [eauto with wp|by eapply stored_up_removed]|done|done|done].
Qed.

Lemma stored_up_same logs c levels n db w w' : stored_up logs c levels n db w → same_files w w' → stored_up logs c levels n db w'.
Proof.
  intros [H1 H2 H3 H4] [E _]. split; [|by rewrite E|done|done]. pose proof (tk_next _ _ _ _ H1).
  eapply tables_ok_files; [exact H1|lia|..]; intros; by rewrite E.
Qed.
End Restart.
