(* ===== verification/LsmOpened.v ===== *)
(** Opening a directory: whatever a crash left of a database, [open] gives an engine
    that serves exactly that database. *)

From S2P Require Import Prelude Status FileNames World Wp Encoding Record SortedMap Memtable SSTableFormat LogFile Manifest LogScan SSTableLayout LsmStats SSTable SSTableBuild SSTableRead SSTableOpen IteratorMerge Wal LsmState LsmCompact Lsm LsmLevels LsmGet LsmDisk LsmPick LsmMerge LsmCommit LsmServe LsmReads LsmFlush LsmCompacted LsmBackground LsmWrite LsmCalls LsmOpen LsmRecover LsmRestart.
Import sstable LsmState LsmCompact LsmOps WalOps LsmOpen.

#[local] Opaque record.encode record.decode record.decode_header.

Section Opened.
Context `{Platform}.

(** * The new log *)

(** A store whose background thread has not run and whose memtables are empty. *)
Record fresh_store (st : LsmStore) : Prop := {
  fs_sane : sane (st_options st);
  fs_stats : in_range (st_stats st);
  fs_flags : st_stopping st = false ∧ st_background_busy st = false ∧ st_compact_requested st = false ∧
    st_halted_by_fail_point st = false ∧ st_background_status st = ok;
  fs_mem : st_mem st = MemtableOps.empty_table ∧ st_imm st = None;
  fs_pins : st_pins st = [] ∧ st_obsolete st = [];
}.

Section NewLog.
Context (c : Z → list entry) (levels : Levels) (n : Z) (db : gmap bytes bytes) (st : LsmStore) (w : World).
Hypothesis Hup : stored_up [] c levels n db w.
Hypothesis Hfresh : fresh_store st.
Hypothesis Hlev : st_levels st = levels.
Hypothesis Hnext : st_next_id st = n.
Hypothesis Hmax : n + 1 ≤ UINT32_MAX.
Hypothesis Hrel : reliable w.

Definition restarted (mode : SyncMode) : LsmStore :=
  st_set_wal_id n (st_set_wal (Some (mkWal (mkLogFile true (wal_file_name n) 0 mode))) (st_set_next_id (n + 1) st)).

Lemma restart_valid : valid_id n.
Proof. pose proof (tk_next _ _ _ _ (su_tables _ _ _ _ _ _ Hup)). unfold valid_id. lia. Qed.

Lemma restart_no_log : w_files w !! wal_file_name n = None.
Proof.
  pose proof restart_valid as Hv. destruct (w_files w !! wal_file_name n) eqn:E; [|done].
  destruct (ll_only _ _ (su_logs _ _ _ _ _ _ Hup) (wal_file_name n) n) as [_ Hin]; [by rewrite E|by apply parse_wal_name|].
  by apply elem_of_nil in Hin.
Qed.

Lemma restarted_logs mode fs : fs = <[wal_file_name n := mkFile [] 0]> (w_files w) → logs_ok [] None (restarted mode) fs.
Proof.
  pose proof restart_valid as Hv. intros E. split.
  - eexists. split_and!; [done| |done]. intros w0 E0. split; [done|]. exists (mkFile [] 0). split_and!; [done| |done|done].
    cbn. by rewrite E0, E, lookup_insert_eq.
  - split; [done|]. cbn. lia.
  - done.
  - intros name id Hin Hp. rewrite E in Hin. destruct (decide (name = wal_file_name n)) as [->|Hne].
    + rewrite parse_wal_name in Hp by done. injection Hp as <-. split; [done|]. by left.
    + rewrite lookup_insert_ne in Hin by done. destruct (ll_only _ _ (su_logs _ _ _ _ _ _ Hup) name id Hin Hp) as [_ Hi].
      by apply elem_of_nil in Hi.
Qed.

Lemma restarted_serving mode w' : w_files w' = <[wal_file_name n := mkFile [] 0]> (w_files w) →
  serving c [] None (st_set_current levels (restarted mode)) w' ∧
  database c [] None (st_set_current levels (restarted mode)) = db.
Proof.
  intros E. pose proof (restarted_logs mode _ E) as Hl. destruct Hup as [Ht _ _ Hdb]. destruct Hfresh as [F1 F2 (F3 & _) [F4 F5] [F6 F7]].
  pose proof (tk_next _ _ _ _ Ht) as Hn. split.
  - split; try done.
    + eapply (tables_ok_files c _ n _ w); [|cbn; lia| |].
      * cbn. rewrite Hlev. exact Ht.
      * intros t _. rewrite E, lookup_insert_ne; [done|]. apply wal_not_sst.
      * rewrite E, lookup_insert_ne; [done|]. apply wal_not_manifest.
    + by eapply logs_ok_state.
    + split; cbn; [by rewrite F6|by rewrite F7].
  - unfold database, state_map. cbn. rewrite Hlev, written_nil, !map_empty_union. done.
Qed.

Lemma wp_new_log :
  wp (id ← claim_id; open_wal id) st w
    (λ _ st' w', ∃ mode, st' = restarted mode ∧ w_files w' = <[wal_file_name n := mkFile [] 0]> (w_files w))
    (λ _ _ _, False) (λ w', recoverable (w_files w') db).
Proof.
  pose proof restart_no_log as Hno. pose proof restart_valid as Hv.
  assert (Hnew : ∀ w', w_files w' = <[wal_file_name n := mkFile [] 0]> (w_files w) → recoverable (w_files w') db).
  { intros w' E. destruct (restarted_serving Always w' E) as [Hs <-]. by eapply serving_recoverable. }
  apply wp_bind_claim; [rewrite Hnext; unfold valid_id, kFirstFileId in *; lia|]. rewrite Hnext. unfold open_wal. wp_pure.
  assert (Ef : LogFileOps.opened (wal_file_name n) (w_files w) = <[wal_file_name n := mkFile [] 0]> (w_files w)).
  { unfold LogFileOps.opened. by rewrite Hno. }
  assert (Ed : LogFileOps.opened_file (wal_file_name n) (w_files w) = mkFile [] 0) by (unfold LogFileOps.opened_file; by rewrite Hno).
  wp_call (wp_wal_open (wal_file_name n) _ (st_set_next_id (n + 1) st) w Hrel); [by rewrite Ed| |].
  2: { intros w1 _ [Hsf|[E _]]; [by eapply stored_up_recoverable, stored_up_same|]. apply Hnew. by rewrite E, Ef. }
  intros wal st1 w1 Hc1 (-> & [E _] & ->). rewrite Ed, Ef in *. wp_pure.
  eapply wp_mono; [apply wp_lsm_sync_dir|..]; cbn beta.
  - intros _ st2 w2 _ (-> & Hsf). eexists. split; [done|]. by rewrite (proj1 Hsf).
  - intros e st2 w2 _ (_ & _ & Hq & _). apply Hq. eauto with wp.
  - intros w2 _ Hsf. apply Hnew. by rewrite (proj1 Hsf).
Qed.
End NewLog.

(** * Recovery *)

(** A directory within the limits of the format: its manifest is small enough to be
    read back, its files fit the address space, and there are ids left. *)
Definition stored_next_id (fs : gmap bytes file) : Z :=
  match fs !! kManifestName with
  | Some f => match manifest.decode (f_data f) with ROk set => manifest.ls_next_id set | _ => 0 end
  | None => 0
  end.
Definition log_id_low (name : bytes) : bool :=
  match parse_wal_file_id name with Some id => id + 4 <=? UINT32_MAX | None => true end.

Record openable (fs : gmap bytes file) : Prop := {
  oa_manifest : from_option (λ f, sz (f_data f)) 0 (fs !! kManifestName) ≤ manifest.kMaxManifestSize;
  oa_bytes : 2 * dir_bytes fs ≤ kTotalLimit;
  oa_next : stored_next_id fs + 3 ≤ UINT32_MAX;
  oa_logs : map_Forall (λ name _, log_id_low name = true) fs;
}.

(** An engine that has just started and serves [db]. *)
Definition starts (st : LsmStore) (db : gmap bytes bytes) (st' : LsmStore) (w' : World) : Prop :=
  ∃ c, serving c [] None (st_set_current (st_levels st') st') w' ∧
    database c [] None (st_set_current (st_levels st') st') = db ∧ fresh_store st' ∧ st_options st' = st_options st.

Section Recovery.
Context (c : Z → list entry) (metas : list (list manifest.TableMeta)) (n : Z) (logs : list (Z * list write)).
Context (st : LsmStore) (w : World).
Let db := recovered c metas logs.
Hypothesis Hd : durable c metas n logs (w_files w).
Hypothesis Hfresh : fresh_store st.
Hypothesis Hrel : reliable w.
Hypothesis Hok : openable (w_files w).

Lemma recovery_weight : weight (concat (meta_entries c <$> concat metas)) + weight (map_ (mem_of (concat logs.*2))) ≤ kTotalLimit.
Proof.
  pose proof (durable_bytes _ _ _ _ _ Hd). pose proof (mem_of_weight _ (logs_valid _ _ (du_logs _ _ _ _ _ Hd))).
  pose proof (oa_bytes _ Hok). lia.
Qed.

Lemma recovery_ids n' : above logs.*1 n n' → kFirstFileId ≤ n → n' + 3 ≤ UINT32_MAX.
Proof.
  intros (_ & _ & Hn) Hfirst. destruct Hn as [->|(id & Hid & ->)].
  - destruct (du_manifest _ _ _ _ _ Hd) as [((f & Hf & Ef) & Hset & _)|(_ & _ & -> & _)].
    { pose proof (oa_next _ Hok) as Hm. unfold stored_next_id in Hm. by rewrite Hf, Ef, manifest.decode_encode_set in Hm. }
    unfold kFirstFileId, UINT32_MAX. lia.
  - apply list_elem_of_fmap in Hid as (l & -> & Hl). pose proof (du_logs _ _ _ _ _ Hd) as Hlog. rewrite Forall_forall in Hlog.
    destruct (Hlog l Hl) as (Hv & _ & _ & f & tl & Hfl & _). pose proof (oa_logs _ Hok _ _ Hfl) as Ho.
    unfold log_id_low in Ho. rewrite parse_wal_name in Ho by done. lia.
Qed.

Lemma recovery_small w' : shrunk w w' →
  ∀ name f, w_files w' !! name = Some f → sz (f_data f) ≤ INT64_MAX.
Proof.
  intros Hsub name f Hf. destruct (Hsub name) as [E|[_ E]]; [|congruence]. rewrite E in Hf. apply file_dir_bytes in Hf.
  pose proof (oa_bytes _ Hok). unfold kTotalLimit, INT64_MAX in *. lia.
Qed.

(** ** Up to the replay *)

Lemma wp_load_tables r w1 : reliable w1 → durable c metas n logs (w_files w1) → found metas n (w_files w1) r →
  wp (match r with Some set => open_from_manifest set | None => adopt_unmanifested_layout end) st w1
    (λ _ st' w', shrunk w1 w' ∧ ∃ levels, loading levels n st st' ∧ loaded c metas n logs levels w' ∧
       match r with Some _ => names_levels (w_files w') levels n | None => found metas n (w_files w') None end)
    (λ _ _ _, False) (λ w', recoverable (w_files w') db).
Proof.
  intros Hrel1 Hd1 Hfound. assert (Hrec : ∀ w', durable c metas n logs (w_files w') → recoverable (w_files w') db).
  { intros w' Hd'. by exists c, metas, n, logs. }
  destruct r as [set|]; cbn [found] in Hfound.
  - destruct Hfound as (-> & Hf & Hset). eapply wp_mono; [by apply (wp_open_from_manifest c metas n logs st w1 Hrel1 (fs_stats _ Hfresh) Hd1)|done|done|auto].
  - eapply wp_mono; [by apply (wp_lsm_adopt c metas n logs st w1 Hrel1 (fs_stats _ Hfresh) Hd1)|done|done|auto].
Qed.

(** What is known when the logs have been replayed. *)
Record replayed (r : option manifest.LevelSet) (levels : Levels) (st' : LsmStore) (w' : World) : Prop := {
  rp_loaded : loaded c metas n logs levels w';
  rp_manifest : match r with Some _ => names_levels (w_files w') levels n | None => found metas n (w_files w') None end;
  rp_state : ∃ s n', st' = st_set_mem (mem_of (concat logs.*2)) (st_set_levels levels (st_set_next_id n' (st_set_stats s st))) ∧
    in_range s ∧ n ≤ n' ∧ n' + 3 ≤ UINT32_MAX;
  rp_first : kFirstFileId ≤ n;
}.

Lemma wp_replay r levels st1 w1 : reliable w1 → kFirstFileId ≤ n → shrunk w w1 → loading levels n st st1 → loaded c metas n logs levels w1 →
  match r with Some _ => names_levels (w_files w1) levels n | None => found metas n (w_files w1) None end →
  wp (raise_next_id logs.*1;; replay_wals logs.*1) st1 w1
    (λ _ st' w', replayed r levels st' w') (λ _ _ _, False) (λ w', recoverable (w_files w') db).
Proof.
  intros Hrel1 Hfirst Hsh (s & -> & Hr) Hld Hman. pose proof (du_logs _ _ _ _ _ (ld_durable _ _ _ _ _ _ Hld)) as Hl.
  pose proof (sorted_nodup _ (du_order _ _ _ _ _ (ld_durable _ _ _ _ _ _ Hld))) as Hnd.
  wp_call (wp_raise_next_id logs.*1).
  { apply Forall_fmap. eapply Forall_impl; [exact Hl|]. by intros l (_ & ? & _). }
  intros _ st2 w2 Hc2 (-> & n' & -> & Hab). pose proof (recovery_ids n' Hab Hfirst) as Hmax. destruct Hab as (Hn & _).
  destruct (fs_mem _ Hfresh) as [Hmem _].
  eapply wp_mono; [apply (wp_replay_wals logs _ w1 []); [done|done|done|done|by eapply recovery_small|done]|..]; cbn beta; [|done|].
  - intros _ st3 w3 _ ((s3 & -> & Hr3) & Hre). split; [by eapply loaded_relogged| |by exists s3, n'|done].
    destruct Hre as [Hsame _]. destruct r as [set|].
    + eapply names_levels_files; [exact Hman|]. apply Hsame, wal_names_manifest.
    + destruct Hman as (Hno & Hm & Hnn & Hs & Hw). assert (Hnil : logs = []).
      { destruct logs as [|l ls]; [done|]. apply Forall_cons in Hl as [(Hv & _ & _ & f & tl & Hf & _) _].
        by rewrite (Hw _ _ (parse_wal_name _ Hv)) in Hf. }
      rewrite Hnil in Hsame. split_and!; [|done|done|..]; intros; rewrite Hsame by (intros Hx; by apply elem_of_nil in Hx); eauto.
  - intros w3 _ Hre. exists c, metas, n, logs. split; [|done]. eapply durable_relogged; [by apply (ld_durable _ _ _ _ _ _ Hld)|done].
Qed.

(** ** From the replay on *)

Lemma wp_end_recovery c' levels' m st1 w1 : reliable w1 → fresh_store st1 → st_options st1 = st_options st →
  st_levels st1 = levels' → st_next_id st1 = m → m + 1 ≤ UINT32_MAX → stored_up logs c' levels' m db w1 →
  wp (remove_wals logs.*1;; (match logs.*1 with [] => mret tt | _ => sync_dir end);; id ← claim_id; open_wal id) st1 w1
    (λ _ st' w', starts st db st' w') (λ _ _ _, False) (λ w', recoverable (w_files w') db).
Proof.
  intros Hrel1 Hfr1 Hopt Hlev Hnext Hmax Hup. wp_call (wp_remove_wals c' levels' m db logs st1 w1 Hrel1 Hup).
  intros _ st2 w2 Hc2 (-> & Hup2).
  assert (Hlast : ∀ w3, calm w2 w3 → same_files w2 w3 → wp (id ← claim_id; open_wal id) st1 w3
    (λ _ st' w', starts st db st' w') (λ _ _ _, False) (λ w', recoverable (w_files w') db)).
  { intros w3 Hc3 Hsf3. pose proof (stored_up_same _ _ _ _ _ _ _ Hup2 Hsf3) as Hup3.
    eapply wp_mono; [apply (wp_new_log c' levels' m db st1 w3 Hup3 Hfr1 Hlev Hnext Hmax); eauto 10 with wp|..]; cbn beta; [|done|done].
    intros _ st4 w4 _ (mode & -> & E). destruct (restarted_serving c' levels' m db st1 w3 Hup3 Hfr1 Hlev Hmax mode w4 E) as [Hs4 Hdb4].
    exists c'. change (st_levels (restarted m st1 mode)) with (st_levels st1). rewrite Hlev. split_and!; [done|done| |done].
    by destruct Hfr1 as [F1 F2 F3 F4 F5]. }
  destruct logs.*1; wp_pure; [by apply Hlast|]. wp_call wp_lsm_sync_dir.
  - intros _ st3 w3 Hc3 (-> & Hsf3). by apply Hlast.
  - intros e st3 w3 _ (_ & _ & Hq & _). exfalso. apply Hq. eauto 10 with wp.
  - intros w3 _ Hsf3. by eapply stored_up_recoverable, stored_up_same.
Qed.

Lemma wp_store_replayed r levels st1 w1 : reliable w1 → replayed r levels st1 w1 →
  wp (if negb (MemtableOps.empty (st_mem st1)) then
        id ← claim_id;
        st ← get;
        levels ← build_table_unlocked (st_mem st) id (st_levels st) (st_next_id st);
        modify (st_set_levels levels);;
        modify (λ st, st_set_mem (MemtableOps.clear (st_mem st)) st)
      else match r with Some _ => mret tt | None => commit_manifest (st_levels st1) (st_next_id st1) end) st1 w1
    (λ _ st' w', fresh_store st' ∧ st_options st' = st_options st ∧ ∃ c' levels' m, st_levels st' = levels' ∧ st_next_id st' = m ∧
       m + 1 ≤ UINT32_MAX ∧ stored_up logs c' levels' m db w')
    (λ e st' w', code_ e = InvalidArgument ∧ recoverable (w_files w') db) (λ w', recoverable (w_files w') db).
Proof.
  intros Hrel1 [Hld Hman (s & n' & -> & Hr & Hn & Hmax) Hfirst]. pose proof Hfresh as [F1 F2 F3 F4 F5].
  assert (Hw : weight (run_of c (concat levels)) + weight (map_ (mem_of (concat logs.*2))) ≤ kTotalLimit).
  { rewrite (ld_run _ _ _ _ _ _ Hld). exact recovery_weight. }
  eapply wp_mono; [apply (wp_store c metas n logs levels _ w1 Hld Hrel1)|..]; cbn beta; [|exact Hr|reflexivity|reflexivity|cbn; lia|exact Hw|exact Hman| |done|done].
  - split; [apply (so_fail _ F1)|apply (so_block _ F1)].
  - intros _ st2 w2 _ (c' & levels' & m & s' & -> & Hr' & Hm & Hup). cbn in Hm.
    split_and!; [by split; destruct F4|done|]. exists c', levels', m. split_and!; try done. lia.
Qed.

Lemma wp_recover_paused :
  wp recover_paused st w (λ _ st' w', starts st db st' w')
    (λ e st' w', code_ e = InvalidArgument ∧ recoverable (w_files w') db) (λ w', recoverable (w_files w') db).
Proof.
  assert (Hrec : ∀ w', durable c metas n logs (w_files w') → recoverable (w_files w') db) by (intros w' Hd'; by exists c, metas, n, logs).
  unfold recover_paused, sweep_temp_files. wp_call (wp_sweep is_temp_name false st w Hrel (fs_stats _ Hfresh)).
  2: { intros w1 _ Hp. apply Hrec. by eapply durable_temps. }
  intros _ st1 w1 Hc1 (_ & E1 & Hp1). rewrite (E1 eq_refl). clear st1 E1.
  pose proof (durable_temps _ _ _ _ _ _ Hd Hp1) as Hd1. pose proof (pruned_shrunk _ _ _ Hp1) as Hsh1.
  assert (Hr1 : reliable w1) by eauto with wp.
  wp_call (wp_read_manifest metas n st w1); [done|by apply (du_manifest _ _ _ _ _ Hd1)| | |].
  { intros f Hf. pose proof (oa_manifest _ Hok) as Hm. destruct (Hp1 kManifestName) as [E|[_ E]]; [|congruence]. by rewrite <-E, Hf in Hm. }
  2: { intros w2 _ [E _]. apply Hrec. by rewrite E. }
  intros r st2 w2 Hc2 (-> & Hsf2 & Hfound & Hfirst). rewrite <-(proj1 Hsf2) in Hd1.
  assert (Hr2 : reliable w2) by eauto with wp. clear Hr1.
  wp_call (wp_load_tables r w2); [done|done|done|]. intros _ st3 w3 Hc3 (Hsh3 & levels & Hload & Hld & Hman).
  assert (Hr3 : reliable w3) by eauto with wp. clear Hr2.
  wp_call wp_read_directory; [done| |].
  2: { intros w4 _ [E _]. apply Hrec. rewrite E. by apply (ld_durable _ _ _ _ _ _ Hld). }
  intros names st4 w4 Hc4 (-> & Hsf4 & ->). rewrite (wal_ids _ _ _ _ _ (ld_durable _ _ _ _ _ _ Hld)). cbv zeta.
  apply wp_bind_assoc_rev. rewrite <-(proj1 Hsf4) in Hman.
  assert (Hld4 : loaded c metas n logs levels w4) by (by eapply loaded_same).
  assert (Hr4 : reliable w4) by eauto with wp. clear Hr3.
  wp_call (wp_replay r levels st3 w4); [done|done| |done|done|by destruct r|].
  { etrans; [exact Hsh1|]. etrans; [by apply pruned_same|]. etrans; [exact Hsh3|by apply pruned_same]. }
  intros _ st5 w5 Hc5 Hrp. apply wp_bind_get.
  assert (Hr5 : reliable w5) by eauto with wp. clear Hr4.
  wp_call (wp_store_replayed r levels st5 w5); [done|done|..].
  intros _ st6 w6 Hc6 (Hfr & Hopt & c' & levels' & m & El & En & Hm & Hup).
  assert (Hr6 : reliable w6) by eauto with wp. clear Hr5.
  eapply wp_mono; [apply (wp_end_recovery c' levels' m st6 w6); [done|done..]|done|done|done].
Qed.
End Recovery.

(** ** Opening *)

Lemma set_fail_at_same o fp : lo_fail_at o = fp → set_fail_at fp o = o.
Proof. intros <-. by destruct o. Qed.

Lemma wp_lsm_recover st w db : reliable w → fresh_store st → openable (w_files w) → recoverable (w_files w) db →
  wp recover st w (λ _ st' w', starts st db st' w')
    (λ e st' w', code_ e = InvalidArgument ∧ recoverable (w_files w') db) (λ w', recoverable (w_files w') db).
Proof.
  intros Hrel Hfr Hok (c & metas & n & logs & Hd & <-). unfold recover. wp_pure.
  assert (Hpause : ∀ st0, lo_fail_at (st_options st0) = FpNone → st_set_options (set_fail_at FpNone (st_options st0)) st0 = st0).
  { intros st0 E. rewrite set_fail_at_same by done. by destruct st0. }
  pose proof (so_fail _ (fs_sane _ Hfr)) as Hfail. rewrite Hpause by done. rewrite Hfail.
  eapply wp_bind_attempt; [by apply (wp_recover_paused c metas n logs st w)|..]; cbn beta; [| |done].
  - intros [] st1 w1 _ Hs. wp_pure. apply wp_ret. destruct Hs as (c' & Hsv & Hdb & Hfr' & Ho).
    rewrite Hpause by (by rewrite Ho). by exists c'.
  - intros e st1 w1 _ He. wp_pure. by apply wp_fail.
Qed.

(** What [open] hands out. *)
Definition opened_store (options : LsmOptions) (db : gmap bytes bytes) (st : LsmStore) (w : World) : Prop :=
  ∃ c, serving c [] None st w ∧ database c [] None st = db ∧ st_options st = options ∧
    st_background_busy st = false ∧ st_background_status st = ok ∧ st_halted_by_fail_point st = false ∧ st_pins st = [].

Lemma wp_lsm_open {S} dir options (s : S) w db : reliable w → sane options → openable (w_files w) → recoverable (w_files w) db →
  wp (open dir options) s w (λ st s' w', s' = s ∧ opened_store options db st w')
    (λ e _ w', code_ e = InvalidArgument ∧ recoverable (w_files w') db) (λ w', recoverable (w_files w') db).
Proof.
  intros Hrel Hs Hok Hrec. unfold open. rewrite (proj2 (Z.eqb_neq _ _) (so_block _ Hs)).
  eapply (wp_bind_local _ _ _ _ _ (λ _ st w', opened_store options db st w')
    (λ e _ w', code_ e = InvalidArgument ∧ recoverable (w_files w') db) (λ w', recoverable (w_files w') db)); cbn beta; [| |done|done].
  - wp_call (wp_lsm_recover (new_store dir options) w db); [done| |done|done|].
    { by split. }
    intros _ st1 w1 _ (c & Hsv & Hdb & Hfr & Ho). unfold publish_locked. apply wp_bind_get, wp_modify.
    exists c. destruct Hfr as [F1 F2 (F3 & F4 & F5 & F6 & F7) F8 F9]. split_and!; try done. by destruct F9.
  - intros u st1 w1 _ Ho. by apply wp_ret.
Qed.
End Opened.
