(* ===== verification/LsmSession.v ===== *)
(** The LSM engine as a crash-safe ordered map with snapshot cursors.

    A session is a sequence of calls on the engine, rounds of its background thread
    between the calls, crashes at any system call, and restarts.  The specification is
    a machine whose state is one finite map and, for each open cursor, the rows it has
    still to show.  Every session of the engine is a session of that machine. *)

From S2P Require Import Prelude Status FileNames World Wp Encoding Record SortedMap Memtable SSTableFormat LogFile Manifest LogScan SSTableLayout LsmStats SSTable SSTableBuild SSTableRead SSTableOpen Iterator IteratorSource IteratorMerge IteratorTables Wal LsmState LsmCompact Lsm LsmLevels LsmGet LsmDisk LsmPick LsmMerge LsmCommit LsmServe LsmReads LsmFlush LsmCompacted LsmBackground LsmWrite LsmCalls LsmOpen LsmRecover LsmRestart LsmOpened.
Import sstable LsmState LsmCompact LsmOps LsmOpen.

#[local] Opaque record.encode record.decode record.decode_header.

Module LsmSession.

(** ** Calls and what an observer sees of a session *)

Inductive request : Type :=
| RPut (key value : bytes)
| RGet (key : bytes)
| RRemove (key : bytes)
| RSync
| RFlush
| RCompact
| RScan (begin_ end_ : bytes)
| RNext (i : nat)              (* the row under cursor [i], which moves on *)
| RClose (i : nat).            (* cursor [i] is destroyed *)

Inductive answer : Type :=
| Nothing
| Value (v : bytes)
| Row (r : option (bytes * bytes)).

Inductive label : Type :=
| Returned (r : request) (a : answer)         (* a call returned Ok *)
| Refused (r : request) (c : StatusCode)      (* a call returned an error *)
| DiedIn (r : request)                        (* the process died during the call *)
| Worked                                      (* the background thread did a round *)
| DiedWorking                                 (* the process died during the round *)
| Started                                     (* open returned an engine *)
| StartFailed (c : StatusCode)                (* open returned an error *)
| DiedStarting                                (* the process died during open *)
| Stopped                                     (* the process died between calls *)
| Undefined.                                  (* undefined behaviour, or a call that never returns *)

(** ** The specification *)

Abbreviation rows := (list (bytes * bytes)).

Inductive spec : Type :=
| On (m : gmap bytes bytes) (cursors : list rows)
| Off (m : gmap bytes bytes).

Definition spec_effect (r : request) (m : gmap bytes bytes) : gmap bytes bytes :=
  match r with
  | RPut k v => <[k := v]> m
  | RRemove k => delete k m
  | _ => m
  end.

(** The calls that report an error of the background thread. *)
Definition waits_for_background (r : request) : Prop :=
  match r with RPut _ _ | RRemove _ | RFlush | RCompact => True | _ => False end.

Inductive spec_step : spec → label → spec → Prop :=
| sp_put k v m cs : record.fits k v false → spec_step (On m cs) (Returned (RPut k v) Nothing) (On (<[k := v]> m) cs)
| sp_put_bad k v m cs : ¬ record.fits k v false → spec_step (On m cs) (Refused (RPut k v) InvalidArgument) (On m cs)
| sp_remove k m cs : record.fits k [] true → spec_step (On m cs) (Returned (RRemove k) Nothing) (On (delete k m) cs)
| sp_remove_bad k m cs : ¬ record.fits k [] true → spec_step (On m cs) (Refused (RRemove k) InvalidArgument) (On m cs)
| sp_get k v m cs : m !! k = Some v → spec_step (On m cs) (Returned (RGet k) (Value v)) (On m cs)
| sp_get_none k m cs : m !! k = None → spec_step (On m cs) (Refused (RGet k) NotFound) (On m cs)
| sp_sync m cs : spec_step (On m cs) (Returned RSync Nothing) (On m cs)
| sp_flush m cs : spec_step (On m cs) (Returned RFlush Nothing) (On m cs)
| sp_compact m cs : spec_step (On m cs) (Returned RCompact Nothing) (On m cs)
| sp_scan b e rs m cs : ksorted rs → as_map rs = ranged b e m →
    spec_step (On m cs) (Returned (RScan b e) Nothing) (On m (cs ++ [rs]))
| sp_next i rs m cs : cs !! i = Some rs → spec_step (On m cs) (Returned (RNext i) (Row (head rs))) (On m (<[i := tail rs]> cs))
| sp_close i m cs : spec_step (On m cs) (Returned (RClose i) Nothing) (On m (delete i cs))
| sp_refused r c m cs : waits_for_background r → c ≠ COk → spec_step (On m cs) (Refused r c) (On m cs)
| sp_died_before r m cs : spec_step (On m cs) (DiedIn r) (Off m)
| sp_died_after r m cs : spec_step (On m cs) (DiedIn r) (Off (spec_effect r m))
| sp_worked m cs : spec_step (On m cs) Worked (On m cs)
| sp_died_working m cs : spec_step (On m cs) DiedWorking (Off m)
| sp_stopped m cs : spec_step (On m cs) Stopped (Off m)
| sp_started m : spec_step (Off m) Started (On m [])
| sp_start_failed m : spec_step (Off m) (StartFailed InvalidArgument) (Off m)
| sp_died_starting m : spec_step (Off m) DiedStarting (Off m).

Section Session.
Context `{Platform}.

(** ** The engine and its cursors *)

Abbreviation cursor := (MergingIterator * Levels)%type.

Record client : Type := mkClient {
  cl_store : LsmStore;
  cl_cursors : list cursor;
}.

Definition on_store {A} (m : M LsmStore A) : M client A :=
  zoom cl_store (λ st c, mkClient st (cl_cursors c)) m.
Definition set_cursors (f : list cursor → list cursor) : M client unit :=
  modify (λ c, mkClient (cl_store c) (f (cl_cursors c))).

Definition execute (r : request) : M client answer :=
  match r with
  | RPut k v => on_store (put k v);; mret Nothing
  | RGet k => v ← on_store (get_value k); mret (Value v)
  | RRemove k => on_store (remove k);; mret Nothing
  | RSync => on_store sync;; mret Nothing
  | RFlush => on_store flush;; mret Nothing
  | RCompact => on_store compact;; mret Nothing
  | RScan b e => cur ← on_store (scan b e); set_cursors (λ cs, cs ++ [cur]);; mret Nothing
  | RNext i =>
      c ← get;
      match cl_cursors c !! i with
      | None => stuck
      | Some cur =>
          r ← on_store (cursor_next cur.1);
          set_cursors <[i := (r.2, cur.2)]>;; mret (Row r.1)
      end
  | RClose i =>
      c ← get;
      match cl_cursors c !! i with
      | None => stuck
      | Some cur => set_cursors (delete i);; on_store (unpin_version cur.2);; mret Nothing
      end
  end.

(** The machine's limits, and that a cursor is used only while it is open. *)
Definition admissible (c : client) (fs : gmap bytes file) (r : request) : Prop :=
  room_for (cl_store c) fs ∧
  match r with
  | RPut k v => sz k + sz v ≤ UINT64_MAX
  | RRemove k => sz k ≤ UINT64_MAX
  | RNext i | RClose i => (i < length (cl_cursors c))%nat
  | _ => True
  end.

Inductive machine : Type :=
| Up (c : client) (fs : gmap bytes file)
| Down (fs : gmap bytes file)
| Broken.

Definition after_call (r : request) (o : out client answer) : label * machine :=
  match o with
  | World.Ok a c' w' => (Returned r a, Up c' (w_files w'))
  | Err e c' w' => (Refused r (code_ e), Up c' (w_files w'))
  | Died w' => (DiedIn r, Down (w_files w'))
  | MStuck => (Undefined, Broken)
  end.

Definition after_round (o : out client bool) : label * machine :=
  match o with
  | World.Ok _ c' w' => (Worked, Up c' (w_files w'))
  | Err _ _ _ | MStuck => (Undefined, Broken)
  | Died w' => (DiedWorking, Down (w_files w'))
  end.

Definition after_open (o : out unit LsmStore) : label * machine :=
  match o with
  | World.Ok st' _ w' => (Started, Up (mkClient st' []) (w_files w'))
  | Err e _ w' => (StartFailed (code_ e), Down (w_files w'))
  | Died w' => (DiedStarting, Down (w_files w'))
  | MStuck => (Undefined, Broken)
  end.

(** One step; the clock and the crash point are chosen afresh each time. *)
Inductive step : machine → label → machine → Prop :=
| step_call c w r : reliable w → admissible c (w_files w) r →
    step (Up c (w_files w)) (after_call r (execute r c w)).1 (after_call r (execute r c w)).2
| step_round c w : reliable w → room_for (cl_store c) (w_files w) →
    step (Up c (w_files w)) (after_round (on_store background_round c w)).1 (after_round (on_store background_round c w)).2
| step_open w dir opts : reliable w → sane opts → openable (w_files w) →
    step (Down (w_files w)) (after_open (open dir opts tt w)).1 (after_open (open dir opts tt w)).2
| step_stop c fs : step (Up c fs) Stopped (Down fs).

Inductive run {S : Type} (st : S → label → S → Prop) : S → list label → S → Prop :=
| run_nil s : run st s [] s
| run_cons s l s1 ls s2 : st s l s1 → run st s1 ls s2 → run st s (l :: ls) s2.

(** ** The simulation *)

Definition ids_of_version (v : Levels) : list (list Z) := map (map t_id) v.

(** The cursors hold their versions, one pin each. *)
Definition pinned_by (cs : list cursor) (st : LsmStore) : Prop :=
  ids_of_version <$> cs.*2 ≡ₚ ids_of_version <$> st_pins st.

Definition shows (w : World) (cur : cursor) (rs : rows) : Prop := cursor_ok cur.1 cur.2 rs w.

Record holds (cl : client) (w : World) (m : gmap bytes bytes) (css : list rows) : Prop := {
  ho_serving : ∃ c xs imm, serving c xs imm (cl_store cl) w ∧ database c xs imm (cl_store cl) = m;
  ho_busy : st_background_busy (cl_store cl) = false;
  ho_pins : pinned_by (cl_cursors cl) (cl_store cl);
  ho_cursors : Forall2 (shows w) (cl_cursors cl) css;
}.

Definition related (s : machine) (a : spec) : Prop :=
  match s, a with
  | Up cl fs, On m css => ∃ w, w_files w = fs ∧ holds cl w m css
  | Down fs, Off m => recoverable fs m
  | _, _ => False
  end.

Lemma ids_in v p t : ids_of_version v = ids_of_version p → t ∈ concat v → ∃ t', t' ∈ concat p ∧ t_id t' = t_id t.
Proof.
  intros E Hin. assert (Hid : t_id t ∈ concat (ids_of_version v)).
  { unfold ids_of_version. rewrite <-concat_map. apply list_elem_of_In, in_map. by apply list_elem_of_In. }
  rewrite E in Hid. unfold ids_of_version in Hid. rewrite <-concat_map in Hid. apply list_elem_of_In, in_map_iff in Hid as (t' & Ht & Hin').
  exists t'. split; [by apply list_elem_of_In|done].
Qed.

(** A cursor shows the same rows as long as the pinned tables keep their files. *)
Lemma shows_steady cs css st st' w w' : pinned_by cs st → Forall2 (shows w) cs css → steady st st' w w' →
  Forall2 (shows w') cs css ∧ pinned_by cs st'.
Proof.
  intros Hp Hall [Epin Hf]. split; [|unfold pinned_by; by rewrite Epin].
  assert (Hin : ∀ cur, cur ∈ cs → ∀ t, t ∈ concat cur.2 → w_files w' !! sst_file_name (t_id t) = w_files w !! sst_file_name (t_id t)).
  { intros cur Hc t Ht. assert (Hv : ids_of_version cur.2 ∈ ids_of_version <$> st_pins st).
    { rewrite <-Hp. by apply list_elem_of_fmap_2, list_elem_of_fmap_2. }
    apply list_elem_of_fmap in Hv as (p & Ev & Hpin). destruct (ids_in _ _ t Ev Ht) as (t' & Ht' & <-). by apply (Hf p t'). }
  clear Hp Hf. induction Hall as [|cur rs cs css Hcur Hall IH]; constructor.
  - eapply cursor_files; [exact Hcur|]. apply Hin. by left.
  - apply IH. intros. eapply Hin; [by right|done].
Qed.

Lemma shows_same w w' cs css : same_files w w' → Forall2 (shows w) cs css → Forall2 (shows w') cs css.
Proof. intros [E _] Hall. eapply Forall2_impl; [exact Hall|]. intros cur rs Hc. eapply cursor_files; [exact Hc|]. by rewrite E. Qed.

Lemma holds_changed cl w m css st' w' m' : holds cl w m css → changed_to (cl_store cl) w m' st' w' →
  holds (mkClient st' (cl_cursors cl)) w' m' css.
Proof.
  intros [_ _ Hp Hc] (c & xs & imm & Hs & Hst & _ & Hb & Hdb). destruct (shows_steady _ _ _ _ _ _ Hp Hc Hst) as [Hc' Hp'].
  by split; [exists c, xs, imm|..].
Qed.

Lemma holds_recoverable cl w m css : holds cl w m css → recoverable (w_files w) m.
Proof. intros [(c & xs & imm & Hs & <-) _ _ _]. by eapply serving_recoverable. Qed.

Lemma holds_files cl w w' m css : holds cl w m css → w_files w' = w_files w → holds cl w' m css.
Proof.
  intros [(c & xs & imm & Hs & Em) Hb Hp Hc] E. split; [|done|done|].
  - exists c, xs, imm. split; [|done]. eapply serving_files; [done|..]; intros; by rewrite E.
  - eapply Forall2_impl; [exact Hc|]. intros cur rs Hcur. eapply cursor_files; [exact Hcur|]. by rewrite E.
Qed.

Section calls.
Context (cl : client) (w : World) (m : gmap bytes bytes) (css : list rows).
Hypothesis Hh : holds cl w m css.
Hypothesis Hrel : reliable w.

(** The call [r] takes a step of the specification, whatever happens during it. *)
Definition simulates (r : request) : Prop :=
  wp (execute r) cl w
    (λ a cl' w', ∃ s, spec_step (On m css) (Returned r a) s ∧ related (Up cl' (w_files w')) s)
    (λ e cl' w', ∃ s, spec_step (On m css) (Refused r (code_ e)) s ∧ related (Up cl' (w_files w')) s)
    (λ w', ∃ s, spec_step (On m css) (DiedIn r) s ∧ related (Down (w_files w')) s).

Lemma crash_same r w' : recoverable (w_files w') m → ∃ s, spec_step (On m css) (DiedIn r) s ∧ related (Down (w_files w')) s.
Proof. intros Hr. exists (Off m). split; [constructor|done]. Qed.

Lemma crash_either r w' : recoverable (w_files w') m ∨ recoverable (w_files w') (spec_effect r m) →
  ∃ s, spec_step (On m css) (DiedIn r) s ∧ related (Down (w_files w')) s.
Proof. intros [Hr|Hr]; [by apply crash_same|]. exists (Off (spec_effect r m)). split; [constructor|done]. Qed.

Lemma related_changed st' w' m' : changed_to (cl_store cl) w m' st' w' →
  related (Up (mkClient st' (cl_cursors cl)) (w_files w')) (On m' css).
Proof. intros Hc. exists w'. split; [done|by eapply holds_changed]. Qed.

Lemma refused_step r e st' w' : waits_for_background r → refusal e st' → changed_to (cl_store cl) w m st' w' →
  ∃ s, spec_step (On m css) (Refused r (code_ e)) s ∧ related (Up (mkClient st' (cl_cursors cl)) (w_files w')) s.
Proof.
  intros Hr [_ He] Hc. exists (On m css). split; [|by apply related_changed]. constructor; [done|].
  unfold is_ok in He. intros E. by rewrite E in He.
Qed.

(** The calls that return nothing. *)
Lemma simulates_plain r (f : M LsmStore unit) m' :
  execute r = (on_store f;; mret Nothing) →
  wp f (cl_store cl) w
    (λ _ st' w', spec_step (On m css) (Returned r Nothing) (On m' css) ∧ changed_to (cl_store cl) w m' st' w')
    (λ e st' w', ∃ s, spec_step (On m css) (Refused r (code_ e)) s ∧ related (Up (mkClient st' (cl_cursors cl)) (w_files w')) s)
    (λ w', recoverable (w_files w') m ∨ recoverable (w_files w') (spec_effect r m)) →
  simulates r.
Proof.
  intros E Hf. unfold simulates. rewrite E. unfold on_store. eapply wp_bind_zoom; [exact Hf|..]; cbn beta.
  - intros [] st' w' _ [Hsp Hc]. apply wp_ret. exists (On m' css). split; [done|by apply related_changed].
  - by intros e st' w' _ He.
  - intros w' _ Hr. by apply crash_either.
Qed.

Lemma simulates_write r key value tomb : waits_for_background r → room_for (cl_store cl) (w_files w) → sz key + sz value ≤ UINT64_MAX →
  execute r = (on_store (write_entry key value tomb);; mret Nothing) → spec_effect r m = effect key value tomb m →
  (record.fits key value tomb → spec_step (On m css) (Returned r Nothing) (On (spec_effect r m) css)) →
  (¬ record.fits key value tomb → spec_step (On m css) (Refused r InvalidArgument) (On m css)) →
  simulates r.
Proof.
  intros Hr Hroom Hmax E Eeff Hok Hbad. pose proof Hh as [(c & xs & imm & Hs & Em) Hb _ _].
  pose proof (wp_write_entry c xs imm _ w Hs Hrel Hb (room_roomy _ _ _ _ _ Hs Hroom) key value tomb Hmax) as Hw. rewrite Em in Hw.
  eapply simulates_plain; [done|]. eapply wp_mono; [exact Hw|..]; cbn beta.
  - intros _ st' w' _ [Hf Hc]. rewrite <-Eeff in Hc. split; [by apply Hok|done].
  - intros e st' w' _ [Hc [[-> Hf]|[Hf Href]]]; [|by apply refused_step].
    exists (On m css). split; [by apply Hbad|by apply related_changed].
  - intros w' _ Hrec. by rewrite Eeff.
Qed.

Lemma simulates_waiting r (f : M LsmStore unit) : waits_for_background r → spec_effect r m = m → spec_step (On m css) (Returned r Nothing) (On m css) →
  execute r = (on_store f;; mret Nothing) →
  wp f (cl_store cl) w (λ _ st' w', changed_to (cl_store cl) w m st' w')
    (λ e st' w', refusal e st' ∧ changed_to (cl_store cl) w m st' w') (λ w', recoverable (w_files w') m) →
  simulates r.
Proof.
  intros Hr Eeff Hsp E Hf. eapply simulates_plain; [done|]. eapply wp_mono; [exact Hf|..]; cbn beta; [by split| |by left].
  intros e st' w' _ [Href Hc]. by apply refused_step.
Qed.

Lemma lsm_simulates_put k v : admissible cl (w_files w) (RPut k v) → simulates (RPut k v).
Proof. intros [Hroom Hmax]. by apply (simulates_write _ k v false); [done..|apply sp_put|apply sp_put_bad]. Qed.

Lemma lsm_simulates_remove k : admissible cl (w_files w) (RRemove k) → simulates (RRemove k).
Proof.
  intros [Hroom Hmax]. apply (simulates_write _ k [] true); [done|done| |done|done|apply sp_remove|apply sp_remove_bad].
  rewrite sz_nil. lia.
Qed.

Lemma lsm_simulates_get k : simulates (RGet k).
Proof.
  pose proof Hh as [(c & xs & imm & Hs & Em) Hb Hp Hc].
  assert (Hreads : ∀ st' w', reads c xs imm (cl_store cl) w st' w' → related (Up (mkClient st' (cl_cursors cl)) (w_files w')) (On m css)).
  { intros st' w' (Hs' & Hst & El & Eo & Eb). apply related_changed. exists c, xs, imm. split_and!; [done|done|done|by rewrite Eb|].
    rewrite <-Em. unfold database. by rewrite El. }
  unfold simulates, execute, on_store. eapply wp_bind_zoom; [by apply (wp_get_value c xs imm _ w k Hs)|..]; cbn beta; rewrite ?Em.
  - intros v st' w' _ [Hr Hk]. apply wp_ret. exists (On m css). split; [by constructor|by apply Hreads].
  - intros e st' w' _ (Hr & -> & Hk). exists (On m css). split; [by constructor|by apply Hreads].
  - intros w' _ Hr. by apply crash_same.
Qed.

Lemma lsm_simulates_sync : room_for (cl_store cl) (w_files w) → simulates RSync.
Proof.
  intros Hroom. pose proof Hh as [(c & xs & imm & Hs & Em) Hb Hp Hc]. apply (simulates_plain RSync sync m); [done|].
  eapply wp_mono; [by apply (wp_lsm_sync c xs imm _ w Hs Hrel Hb)|..]; cbn beta; rewrite ?Em; [|done|by left].
  intros _ st' w' _ Hch. split; [constructor|done].
Qed.

Lemma simulates_flush : room_for (cl_store cl) (w_files w) → simulates RFlush.
Proof.
  intros Hroom. pose proof Hh as [(c & xs & imm & Hs & Em) Hb Hp Hc]. apply (simulates_waiting RFlush flush); [done|done|constructor|done|].
  eapply wp_mono; [by apply (wp_flush c xs imm _ w Hs Hrel Hb (room_roomy _ _ _ _ _ Hs Hroom))|..]; cbn beta; rewrite ?Em; [|done|done].
  by intros _ st' w' _ [Hch _].
Qed.

Lemma lsm_simulates_compact : room_for (cl_store cl) (w_files w) → simulates RCompact.
Proof.
  intros Hroom. pose proof Hh as [(c & xs & imm & Hs & Em) Hb Hp Hc]. apply (simulates_waiting RCompact compact); [done|done|constructor|done|].
  eapply wp_mono; [by apply (wp_lsm_compact c xs imm _ w Hs Hrel Hb (room_roomy _ _ _ _ _ Hs Hroom))|..]; cbn beta; rewrite ?Em; done.
Qed.

Lemma simulates_scan b e : simulates (RScan b e).
Proof.
  pose proof Hh as [(c & xs & imm & Hs & Em) Hb Hp Hc]. unfold simulates, execute, on_store, set_cursors.
  eapply wp_bind_zoom; [by apply (wp_scan c xs imm _ w b e Hs)|..]; cbn beta; rewrite ?Em; [|done|].
  - intros [it v] st' w' _ (Hs' & Hsf & (s & -> & _) & Ev & rs & Hcur & Hsort & Hrows). wp_pure. apply wp_ret. cbn [fst snd] in *.
    exists (On m (css ++ [rs])). split; [by constructor|]. exists w'. split; [done|]. split; cbn [cl_store cl_cursors].
    + exists c, xs, imm. by split.
    + done.
    + unfold pinned_by in *. rewrite !fmap_app, Hp, Ev. cbn. rewrite (sv_current _ _ _ _ _ Hs). apply Permutation_app_comm.
    + apply Forall2_app; [by eapply shows_same|]. by constructor.
  - intros w' _ Hr. by apply crash_same.
Qed.

Lemma simulates_next i : admissible cl (w_files w) (RNext i) → simulates (RNext i).
Proof.
  intros [_ Hi]. pose proof Hh as [(c & xs & imm & Hs & Em) Hb Hp Hc]. unfold simulates, execute, on_store, set_cursors. wp_pure.
  apply lookup_lt_is_Some_2 in Hi as [cur Hcur]. rewrite Hcur. destruct (Forall2_lookup_l _ _ _ _ _ Hc Hcur) as (rs & Hrs & Hok).
  eapply wp_bind_zoom; [apply (wp_cursor_next cur.1 cur.2 rs (cl_store cl) w Hok (sv_stats _ _ _ _ _ Hs) Hrel)|..]; cbn beta; [|done|].
  - intros [o it] st' w' _ (Hsf & Hcn & Eo & Hok'). wp_pure. apply wp_ret. cbn [fst snd] in *. rewrite Eo.
    exists (On m (<[i := tail rs]> css)). split; [by constructor|]. exists w'. split; [done|].
    pose proof (serving_same _ _ _ _ _ _ (serving_counting _ _ _ _ _ _ Hs Hcn) Hsf) as Hs'. destruct Hcn as (s & -> & Hr).
    split; cbn [cl_store cl_cursors]; [by exists c, xs, imm|done| |].
    + unfold pinned_by in *. rewrite list_fmap_insert. cbn [snd]. rewrite list_insert_id; [done|]. by rewrite list_lookup_fmap, Hcur.
    + apply Forall2_insert; [by eapply shows_same|done].
  - intros w' _ Hsf. apply crash_same. rewrite <-Em. eapply serving_recoverable, serving_same; done.
Qed.

Lemma remove_pin_ids v pins : ids_of_version v ∈ ids_of_version <$> pins →
  ids_of_version v :: (ids_of_version <$> remove_pin v pins) ≡ₚ ids_of_version <$> pins.
Proof.
  induction pins as [|p pins IH]; cbn [remove_pin fmap list_fmap]; [by intros ?%elem_of_nil|]. intros Hin. unfold same_ids at 1.
  case_bool_decide as E; fold (ids_of_version p) (ids_of_version v) in E; [by rewrite <-E|]. apply elem_of_cons in Hin as [Hin|Hin]; [done|].
  cbn [fmap list_fmap]. rewrite <-IH by done. constructor.
Qed.

Lemma simulates_close i : admissible cl (w_files w) (RClose i) → simulates (RClose i).
Proof.
  intros [_ Hi]. pose proof Hh as [(c & xs & imm & Hs & Em) Hb Hp Hc]. unfold simulates, execute, on_store, set_cursors. wp_pure.
  apply lookup_lt_is_Some_2 in Hi as [cur Hcur]. rewrite Hcur. wp_pure. cbn [cl_store cl_cursors].
  set (st1 := st_set_pins (remove_pin cur.2 (st_pins (cl_store cl))) (cl_store cl)).
  assert (Hp1 : pinned_by (delete i (cl_cursors cl)) st1).
  { unfold pinned_by in *. apply (Permutation_cons_inv (a := ids_of_version cur.2)). unfold st1. cbn [st_pins st_set_pins].
    rewrite remove_pin_ids.
    - rewrite <-Hp. rewrite <-fmap_cons, <-(fmap_cons snd). f_equiv. f_equiv. symmetry. by apply delete_Permutation.
    - rewrite <-Hp. by apply list_elem_of_fmap_2, list_elem_of_fmap_2, list_elem_of_lookup_2 with i. }
  assert (Hc1 : Forall2 (shows w) (delete i (cl_cursors cl)) (delete i css)) by (by apply Forall2_delete).
  eapply wp_bind_zoom; [apply (wp_unpin_version c xs imm (cl_store cl) w cur.2 Hs)|..]; cbn beta; [|done|].
  - intros [] st' w' _ (Hs' & -> & Hst). apply wp_ret. destruct (shows_steady _ _ _ _ _ _ Hp1 Hc1 Hst) as [Hc' Hp'].
    exists (On m (delete i css)). split; [constructor|]. exists w'. split; [done|]. split; cbn [cl_store cl_cursors]; [|done|done|done].
    by exists c, xs, imm.
  - intros w' _ Hs'. apply crash_same. rewrite <-Em. by apply serving_recoverable in Hs'.
Qed.

Lemma lsm_simulates_all r : admissible cl (w_files w) r → simulates r.
Proof.
  intros Ha. pose proof (proj1 Ha) as Hroom.
  destruct r; auto using lsm_simulates_put, lsm_simulates_get, lsm_simulates_remove, lsm_simulates_sync, simulates_flush, lsm_simulates_compact,
    simulates_scan, simulates_next, simulates_close.
Qed.

(** A round of the background thread changes nothing a client can see. *)
Lemma simulates_round : room_for (cl_store cl) (w_files w) →
  wp (on_store background_round) cl w (λ _ cl' w', related (Up cl' (w_files w')) (On m css)) (λ _ _ _, False)
    (λ w', recoverable (w_files w') m).
Proof.
  intros Hroom. pose proof Hh as [(c & xs & imm & Hs & Em) Hb Hp Hc]. pose proof (room_roomy _ _ _ _ _ Hs Hroom) as [Hl Hi _].
  pose proof (step_ids_pos c xs imm (cl_store cl)) as Hpos. unfold on_store. apply wp_zoom.
  eapply wp_mono; [apply (wp_background_round c xs imm (cl_store cl) w UINT32_MAX Hs Hrel Hb Hl); unfold kCallRounds, kRoundSteps in *; lia|..];
    cbn beta; rewrite ?Em; [|done|done].
  intros worked st' w' _ (c' & imm' & [[E1 E2 E3 _ _ E6] _ Hb' _] & _). apply related_changed. exists c', xs, imm'.
  by rewrite E6, Em.
Qed.
End calls.

Lemma lsm_simulation s a l s' : related s a → step s l s' → ∃ a', spec_step a l a' ∧ related s' a'.
Proof.
  intros Hrl Hstep. destruct Hstep as [cl w r Hr Had|cl w Hr Hroom|w dir opts Hr Hopts Hok|cl fs]; destruct a as [m css|m]; try done.
  - destruct Hrl as (w0 & Hw & Hh). assert (Hh' : holds cl w m css) by (by eapply holds_files).
    pose proof (lsm_simulates_all cl w m css Hh' Hr r Had) as Hsim. unfold simulates, wp in Hsim.
    destruct (execute r cl w); simpl; by destruct Hsim as [_ ?] || destruct Hsim.
  - destruct Hrl as (w0 & Hw & Hh). assert (Hh' : holds cl w m css) by (by eapply holds_files).
    pose proof (simulates_round cl w m css Hh' Hr Hroom) as Hsim. unfold wp in Hsim.
    destruct (on_store background_round cl w); simpl; [..|done].
    + exists (On m css). split; [constructor|]. by destruct Hsim.
    + by destruct Hsim.
    + exists (Off m). split; [constructor|]. by destruct Hsim.
  - pose proof (wp_lsm_open dir opts tt w m Hr Hopts Hok Hrl) as Hopen. unfold wp in Hopen.
    destruct (open dir opts tt w) as [st' [] w'|e [] w'|w'|]; simpl; [..|done].
    + destruct Hopen as (_ & _ & c & Hs & Hdb & _ & Hb & _ & _ & Hp). exists (On m []). split; [constructor|]. exists w'. split; [done|].
      split; cbn; [by exists c, [], None|done| |constructor]. unfold pinned_by. by rewrite Hp.
    + destruct Hopen as (_ & -> & Hrec). exists (Off m). split; [constructor|done].
    + destruct Hopen as (_ & Hrec). exists (Off m). split; [constructor|done].
  - destruct Hrl as (w & <- & Hh). exists (Off m). split; [constructor|]. by eapply holds_recoverable.
Qed.

(** C2: Every session with the LSM engine, over any sequence of calls, background rounds,
    crashes at any system call, and restarts, is a session with the ordered map: answers
    are those of the map; a call that returned has taken effect for good and one cut
    short by a crash has taken effect entirely or not at all; a cursor shows, in key
    order, exactly the range of the map as it was when the cursor was opened, whatever
    is written, flushed or compacted meanwhile; rounds of the background thread change
    nothing; and no call ends in undefined behaviour or waits forever. *)
Theorem lsm_refines_map fs m ls s' : recoverable fs m → run step (Down fs) ls s' →
  ∃ a', run spec_step (Off m) ls a' ∧ related s' a'.
Proof.
  intros Hrec Hrun. assert (Hrel : related (Down fs) (Off m)) by done.
  generalize dependent (Off m). clear Hrec m. induction Hrun as [s|s l s1 ls s2 Hstep Hrun IH]; intros a Hrel.
  - exists a. split; [constructor|done].
  - destruct (lsm_simulation _ _ _ _ Hrel Hstep) as (a1 & Hsp & Hrel1).
    destruct (IH a1 Hrel1) as (a2 & Hsp2 & Hrel2). exists a2. split; [by econstructor|done].
Qed.
End Session.
End LsmSession.
