(* ===== verification/LsmPower.v ===== *)
(** The LSM engine and loss of power.

    The engine writes to temporary files, which it syncs before it gives them their names,
    and to its log, which it syncs after each write with [SyncMode::Always].  So when the
    power fails, a session goes on as the ordered map of LsmSession. *)

From S2P Require Import Prelude Status FileNames World Wp Encoding Record SortedMap Memtable SSTableFormat LogFile Power MappedFile Manifest LogScan SSTableLayout LsmStats SSTable SSTableBuild SSTableRead SSTableOpen Iterator IteratorSource IteratorMerge IteratorTables Wal LsmState LsmCompact Lsm LsmLevels LsmGet LsmDisk LsmPick LsmMerge LsmCommit LsmServe LsmReads LsmFlush LsmCompacted LsmBackground LsmWrite LsmCalls LsmOpen LsmRecover LsmRestart LsmOpened LsmSession.
Import sstable LsmState LsmCompact LsmOps LsmOpen LsmSession.

#[local] Opaque record.encode record.decode record.decode_header.

Section Reading.
Context `{Platform}.

(** ** Tables and cursors *)

Lemma durably_mapped_open {S : Type} (P : S → Prop) path : durably P (MappedFileOps.open path).
Proof. unfold MappedFileOps.open. save. Qed.

Lemma looks_mapped_close (P : MappedFile → Prop) : (∀ m, P m) → looks P MappedFileOps.close.
Proof. intros Hp. unfold MappedFileOps.close. look. by apply looks_put. Qed.

Lemma looks_mapped_advise (P : MappedFile → Prop) : looks P MappedFileOps.advise_random.
Proof. unfold MappedFileOps.advise_random. look. Qed.

#[local] Hint Resolve durably_mapped_open looks_mapped_close looks_mapped_advise : power.

Lemma looks_table_read {S : Type} (P : S → Prop) t offset size : looks P (SSTableOps.read_at t offset size).
Proof. unfold SSTableOps.read_at. look. Qed.

#[local] Hint Resolve looks_table_read : power.

Lemma looks_read_block_raw {S : Type} (P : S → Prop) t i : looks P (SSTableOps.read_block_raw t i).
Proof. unfold SSTableOps.read_block_raw. look. Qed.

#[local] Hint Resolve looks_read_block_raw : power.

Lemma looks_read_block t i : looks (λ _, True) (SSTableOps.read_block t i).
Proof. unfold SSTableOps.read_block. look. Qed.

Lemma looks_probe_filter t key : looks (λ _, True) (SSTableOps.probe_filter t key).
Proof. unfold SSTableOps.probe_filter. look. Qed.

#[local] Hint Resolve looks_read_block looks_probe_filter : power.

Lemma looks_lookup t key : looks (λ _, True) (SSTableOps.lookup t key).
Proof. unfold SSTableOps.lookup. look. Qed.

Lemma durably_load : durably (λ _, True) SSTableOps.load.
Proof.
  unfold SSTableOps.load, SSTableOps.load_start, SSTableOps.load_index_block, SSTableOps.load_filter, SSTableOps.load_keys, SSTableOps.map_file.
  save.
Qed.

#[local] Hint Resolve durably_load : power.

Lemma durably_table_open {S : Type} (P : S → Prop) path id stats mode bloom : durably P (SSTableOps.open path id stats mode bloom).
Proof. unfold SSTableOps.open. save. Qed.

Lemma durably_destroy {S : Type} (P : S → Prop) obsolete t : durably P (SSTableOps.destroy obsolete t).
Proof. unfold SSTableOps.destroy. save. Qed.

Lemma looks_load_block i : looks (λ _, True) (IteratorOps.load_block i).
Proof. unfold IteratorOps.load_block, IteratorOps.on_stats, IteratorOps.modify_source. look. Qed.

Lemma looks_apply_upper_bound : looks (λ _, True) IteratorOps.apply_upper_bound.
Proof. unfold IteratorOps.apply_upper_bound, IteratorOps.modify_source. look. Qed.

#[local] Hint Resolve looks_load_block looks_apply_upper_bound : power.

Lemma looks_create_at begin_ : looks (λ _, True) (IteratorOps.create_at begin_).
Proof. unfold IteratorOps.create_at, IteratorOps.modify_source. look. Qed.

Lemma looks_advance_table : looks (λ _, True) IteratorOps.advance_table.
Proof. unfold IteratorOps.advance_table, IteratorOps.modify_source. look. Qed.

Lemma looks_source table begin_ end_ : looks (λ _, True) (IteratorOps.create table begin_ end_).
Proof.
  intros st w _. unfold IteratorOps.create.
  pose proof (looks_create_at begin_ (st, mkTableSource table 0 [] 0 end_ true) w I) as Hm. by destruct (IteratorOps.create_at _ _ _).
Qed.

Lemma looks_source_advance : looks (λ _, True) IteratorOps.source_advance.
Proof.
  intros [st [ms|ts]] w _; unfold IteratorOps.source_advance; cbn [fst snd]; [by destruct (ms_rest ms)|].
  pose proof (looks_advance_table (st, ts) w I) as Hm. by destruct (IteratorOps.advance_table _ _).
Qed.

#[local] Hint Resolve looks_source_advance : power.

Lemma looks_advance_all n i : looks (λ _, True) (MergingOps.advance_all n i).
Proof. revert i. induction n as [|n IH]; intros i; cbn [MergingOps.advance_all]; unfold MergingOps.on_source, MergingOps.modify_it; look. Qed.

#[local] Hint Resolve looks_advance_all : power.

Lemma looks_find_next_live : looks (λ _, True) MergingOps.find_next_live.
Proof.
  assert (Hloop : ∀ fuel, looks (λ _, True) (MergingOps.find_next_live_loop fuel)).
  { induction fuel as [|fuel IH]; cbn [MergingOps.find_next_live_loop]; unfold MergingOps.modify_it; look. }
  unfold MergingOps.find_next_live, MergingOps.modify_it. look.
Qed.
End Reading.

#[export] Hint Resolve looks_lookup looks_source looks_find_next_live durably_table_open durably_destroy : power.

(** ** Writing a table *)

Section Building.
Context `{Platform}.
Context (X : bytes → Prop) (HX : ∀ name, permanent name → X name).
Context (path : bytes) (Hpath : ¬ X path).

(** A builder of the file [path]. *)
Definition builds (b : SSTableBuilder) : Prop := scratch_log path (b_file b).

Lemma within_flush_block : within X builds BuilderOps.flush_block.
Proof.
  unfold BuilderOps.flush_block. save. apply (within_zoom _ _ _ _ (scratch_log path)); [by apply saves_append|done|done].
Qed.

Lemma looks_builder_modify f : (∀ b, b_file (f b) = b_file b) → looks builds (modify f).
Proof. intros Hf. apply looks_modify. intros b. unfold builds. by rewrite Hf. Qed.

Lemma within_add key value tomb : within X builds (BuilderOps.add key value tomb).
Proof.
  unfold BuilderOps.add. save. by apply within_flush_block.
Qed.

Lemma within_add_all entries : within X builds (add_all entries).
Proof. induction entries as [|[key e] entries IH]; cbn [add_all]; save. by apply within_add. Qed.

(** What [finish] leaves is on the device. *)
Lemma saves_finish : saves (clean X) builds BuilderOps.finish (λ _, clean (λ name, X name ∨ name = path)).
Proof.
  assert (Happ : ∀ bs, within X builds (BuilderOps.on_file (LogFileOps.append bs))).
  { intros bs. apply (within_zoom _ _ _ _ (scratch_log path)); [by apply saves_append|done|done]. }
  assert (Hlook : ∀ A (m : M SSTableBuilder A), looks builds m → within X builds m) by (intros; by apply within_looks).
  unfold BuilderOps.finish. apply saves_bind_get. intros b _.
  eapply saves_bind; [apply Hlook, looks_fail_when|]. intros ?.
  eapply saves_bind; [apply within_flush_block|]. intros ?. apply saves_bind_get. intros b1 _. cbv zeta.
  eapply saves_bind; [apply Hlook, looks_fail_when|]. intros ?.
  eapply saves_bind; [apply Happ|]. intros off. eapply saves_bind; [apply Hlook, looks_fail_when|]. intros ?.
  eapply saves_bind; [apply Happ|]. intros off'. eapply saves_bind; [apply Happ|]. intros ?.
  eapply saves_bind.
  { apply (saves_zoom _ _ _ _ (scratch_log path)); [apply (saves_log_sync X HX path); by intros l [? _]|done|done]. }
  intros ?. apply (within_bind (λ name, X name ∨ name = path)).
  - apply (within_zoom _ _ _ _ (scratch_log path)); [|done|done]. apply within_looks; [auto|]. by apply looks_log_close.
  - intros ?. apply within_looks; [auto|by apply looks_builder_modify].
Qed.

Lemma saves_create {S : Type} (P : S → Prop) block_size bits :
  saves (clean X) P (BuilderOps.create path block_size bits) (λ b fs, clean X fs ∧ builds b).
Proof.
  unfold BuilderOps.create. destruct (block_size =? 0); [by apply saves_fail, clean_synced|].
  eapply saves_bind; [by apply within_remove|]. intros ?. eapply saves_bind; [by apply saves_log_open|]. intros l.
  apply saves_ret. intros fs [? (? & ? & _)]. done.
Qed.
End Building.

(** ** The manifest *)

Lemma temp_unsynced stem : ¬ permanent (temp_name stem).
Proof. intros Hp. by apply (Hp stem). Qed.

Lemma durably_write_atomic `{Platform} {S : Type} (P : S → Prop) set : durably P (manifest.write_atomic set).
Proof.
  set (temp := temp_name kManifestName). set (X := λ name, permanent name ∨ name = temp).
  assert (HX : ∀ name, permanent name → X name) by (by left).
  assert (Ht : X temp) by (by right). unfold manifest.write_atomic. cbv zeta. fold temp.
  eapply saves_bind; [by apply within_remove|]. intros ?. eapply saves_bind; [by apply saves_log_open|]. intros l.
  apply (saves_mono _ _ (λ fs, synced fs ∧ scratch_log temp l) _ _ (λ _, clean X)).
  2: { intros fs [? (? & ? & _)]. done. }
  2: { intros ? fs. by apply clean_weaken. }
  apply saves_pure. intros Hl. eapply (saves_bind _ _ _ _ (λ _, clean X)).
  - eapply saves_mono; [apply (saves_local _ _ (scratch_log temp) l _ (λ _, clean X)); [|done]|done|by intros ? ? [? _]].
    eapply saves_bind; [apply saves_append; [done|apply temp_unsynced]|]. intros ?.
    eapply saves_bind; [apply (saves_log_sync permanent ltac:(done) temp); by intros ? [? _]|]. intros ?.
    by apply (within_looks X HX), looks_log_close.
  - intros ?. eapply saves_bind; [by apply (saves_rename_file _ X)|]. intros rc.
    apply (within_bind X); [apply within_looks; [done|look]|]. intros ?. apply within_looks; [done|look].
Qed.

(** ** The store *)

Section Mode.
Context (mode : SyncMode).

Section Store.
Context `{Platform}.

(** The log is synced as the mode says. *)
Definition syncing (st : LsmStore) : Prop :=
  lo_sync_mode (st_options st) = mode ∧ ∀ wal, st_wal st = Some wal → sync_mode_ (wal_file wal) = mode.

Lemma looks_on_stats {A : Type} (m : M LsmStats A) : looks (λ _, True) m → looks syncing (on_stats m).
Proof. intros Hm. by apply (looks_zoom _ _ _ (λ _, True)). Qed.

Lemma looks_bump_stat c n : looks syncing (bump_stat c n).
Proof. by apply looks_on_stats, looks_modify. Qed.

Lemma looks_on_iterator it (m : M (LsmStats * MergingIterator) unit) : looks (λ _, True) m → looks syncing (on_iterator it m).
Proof.
  intros Hm st w Hp. unfold on_iterator. specialize (Hm (st_stats st, it) w I). destruct (m (st_stats st, it) w); [| |done|done].
  - by destruct Hm as (_ & ? & ?).
  - by destruct Hm as (_ & ? & ?).
Qed.

Lemma looks_claim_id : looks syncing claim_id.
Proof. unfold claim_id. look. Qed.
Lemma looks_check_background : looks syncing check_background.
Proof. unfold check_background. look. Qed.
Lemma looks_sync_dir : looks syncing sync_dir.
Proof. unfold sync_dir. look. Qed.
Lemma looks_publish : looks syncing publish_locked.
Proof. unfold publish_locked. look. Qed.

Lemma durably_open_table id : durably syncing (open_table id).
Proof. unfold open_table. save. Qed.
Lemma durably_commit levels n : durably syncing (commit_manifest levels n).
Proof. apply durably_write_atomic. Qed.

Lemma durably_collect : durably syncing collect.
Proof.
  assert (Hall : ∀ ts, durably syncing (destroy_all ts)) by (induction ts; cbn [destroy_all]; save).
  unfold collect. save.
Qed.
End Store.

#[local] Hint Resolve looks_bump_stat looks_claim_id looks_check_background looks_sync_dir looks_publish
  durably_open_table durably_commit durably_collect : power.
#[local] Hint Extern 1 (looks _ (on_stats _)) => apply looks_on_stats; auto 2 with power : power.
#[local] Hint Extern 1 (looks _ (on_iterator _ _)) => apply looks_on_iterator; auto 2 with power : power.

(** ** Flushes *)

Section Flushing.
Context `{Platform}.

Lemma durably_build_table table id base n : durably syncing (build_table_unlocked table id base n).
Proof.
  set (temp := temp_name (sst_file_name id)). set (X := λ name, permanent name ∨ name = temp).
  assert (HX : ∀ name, permanent name → X name) by (by left). assert (Ht : X temp) by (by right).
  unfold build_table_unlocked. cbv zeta. fold temp. apply saves_bind_get. intros st Hst.
  eapply saves_bind; [apply (saves_create permanent ltac:(done) temp)|]. intros b. apply saves_pure. intros Hb.
  eapply (saves_bind _ _ _ _ (λ _, clean X)).
  - eapply saves_mono; [apply (saves_local _ _ (builds temp) b _ (λ _, clean X)); [|done]|done|by intros ? ? [? _]].
    eapply saves_bind; [apply (within_add_all permanent ltac:(done) temp); apply temp_unsynced|]. intros ?.
    apply (saves_finish permanent); [done|apply temp_unsynced].
  - intros r. eapply saves_bind; [apply (within_looks X HX), looks_bump_stat|]. intros ?.
    assert (Hstop : saves (clean X) syncing (mret base) (λ _, synced)) by (by apply saves_ret; intros; eapply clean_weaken).
    destruct (lo_fail_at (st_options st)); [|exact Hstop|..].
    all: eapply saves_bind; [by apply (saves_rename_file _ X)|]; intros rc; (apply saves_durably; [done|]).
    all: save.
Qed.

Lemma durably_flush_install levels : durably syncing (flush_install levels).
Proof. unfold flush_install. save. Qed.

Lemma durably_retire_wal id : durably syncing (retire_wal id).
Proof. unfold retire_wal. save. Qed.

#[local] Hint Resolve durably_build_table durably_flush_install durably_retire_wal : power.

Lemma durably_run_flush : durably syncing run_flush.
Proof. unfold run_flush. save. Qed.
End Flushing.

#[local] Hint Resolve durably_build_table durably_run_flush : power.

(** ** Compaction *)

Section Compacting.
Context `{Platform}.

Definition output (id : Z) : bytes := temp_name (sst_file_name id).

(** The outputs [ids] are on the device, but for the one that is being written. *)
Definition outputs (ids : list Z) (out : option (SSTableBuilder * Z)) (name : bytes) : Prop :=
  permanent name ∨ name ∈ output <$> ids ∧ match out with Some (_, id) => name ≠ output id | None => True end.
Definition building (out : option (SSTableBuilder * Z)) : Prop :=
  match out with Some (b, id) => builds (output id) b | None => True end.

Lemma outputs_permanent ids out name : permanent name → outputs ids out name.
Proof. by left. Qed.

Lemma outputs_not ids b id : ¬ outputs ids (Some (b, id)) (output id).
Proof. intros [Hp|[_ Hne]]; [by apply temp_unsynced in Hp|done]. Qed.

Lemma outputs_done ids b id ids' name : (∀ name, name ∈ output <$> ids' → name ∈ output <$> ids ∨ name = output id) →
  outputs ids' None name → outputs ids (Some (b, id)) name ∨ name = output id.
Proof.
  intros Hsub [Hp|[Hin _]]; [by left; left|]. destruct (decide (name = output id)) as [|Hne]; [by right|].
  destruct (Hsub _ Hin) as [?|?]; [|done]. left. by right.
Qed.

Lemma saves_finish_output out ids : building out →
  saves (clean (outputs ids out)) syncing (finish_output out ids) (λ ids', clean (outputs ids' None)).
Proof.
  intros Hb. destruct out as [[b id]|]; cbn [finish_output]; [|by apply saves_ret]. cbn [building] in Hb.
  destruct (BuilderOps.entry_count b =? 0).
  - unfold BuilderOps.path. destruct Hb as [-> _]. eapply saves_bind; [apply saves_remove, outputs_permanent|].
    intros ?. apply saves_ret. intros fs. apply clean_weaken. intros name. apply outputs_done. auto.
  - eapply saves_bind.
    + apply (saves_local _ _ (builds (output id))); [|done]. by apply saves_finish; [apply outputs_permanent|apply outputs_not].
    + intros r. eapply saves_bind; [apply saves_looks; [apply looks_bump_stat|]|].
      { intros fs [Hc _]. eapply clean_weaken; [|exact Hc]. intros name. left. by apply outputs_permanent. }
      intros ?. apply saves_ret. intros fs [Hc _]. eapply clean_weaken; [|exact Hc]. intros name. apply outputs_done.
      intros n. rewrite fmap_app, elem_of_app. cbn [fmap list_fmap]. rewrite list_elem_of_singleton. tauto.
Qed.

Lemma saves_start_output ids :
  saves (clean (outputs ids None)) syncing start_output (λ ob fs, clean (outputs ids (Some ob)) fs ∧ building (Some ob)).
Proof.
  unfold start_output. eapply saves_bind; [apply within_looks; [apply outputs_permanent|apply looks_claim_id]|].
  intros id. apply saves_bind_get. intros st Hst.
  apply (saves_mono _ _ (clean (λ name, outputs ids None name ∧ (permanent name ∨ name ≠ output id))) _ _
    (λ ob fs, clean (outputs ids (Some ob)) fs ∧ building (Some ob))); [|intros fs; apply clean_weaken; tauto|done].
  eapply saves_bind; [apply (saves_create _ (λ name Hp, conj (outputs_permanent ids None name Hp) (or_introl Hp)) (output id))|].
  intros b. apply saves_ret. intros fs [Hc Hb]. split; [|done]. eapply clean_weaken; [|exact Hc].
  intros name [Hp|[Hin Hne]]; (split; [|tauto]); [by left|by right].
Qed.

(** What a step of the merge leaves. *)
Definition merging (r : option (SSTableBuilder * Z) * list Z) (fs : gmap bytes file) : Prop :=
  clean (outputs r.2 r.1) fs ∧ building r.1.

Lemma saves_emit_entry work it out ids : building out →
  saves (clean (outputs ids out)) syncing (emit_entry work it out ids) merging.
Proof.
  intros Hb. unfold emit_entry. destruct (_ || _); [|by apply saves_ret].
  eapply (saves_bind _ _ _ _ (λ ob fs, clean (outputs ids (Some ob)) fs ∧ building (Some ob))).
  { destruct out as [ob|]; [by apply saves_ret|apply saves_start_output]. }
  intros [b id]. apply saves_pure. intros Hb1. cbn [fst snd]. eapply saves_bind.
  { apply (saves_local _ _ (builds (output id)) b); [|done]. by apply within_add; [apply outputs_permanent|apply outputs_not]. }
  intros [u b1]. cbn [fst snd]. apply saves_pure. intros Hb2. apply saves_bind_get. intros st _.
  destruct (_ <=? _); [|by apply saves_ret].
  eapply saves_bind; [by apply (saves_finish_output (Some (b1, id)))|]. intros ids'. by apply saves_ret.
Qed.

Lemma saves_merge_loop fuel work it out ids : building out →
  saves (clean (outputs ids out)) syncing (merge_loop fuel work it out ids) (λ ids', clean (outputs ids' None)).
Proof.
  revert it out ids. induction fuel as [|fuel IH]; intros it out ids Hb; cbn [merge_loop]; [apply saves_stuck|].
  destruct (mi_valid it).
  - eapply saves_bind; [by apply saves_emit_entry|]. intros [out1 ids1]. apply saves_pure. cbn [fst snd]. intros Hb1.
    eapply saves_bind; [apply within_looks; [apply outputs_permanent|apply looks_on_iterator, looks_find_next_live]|]. intros it'. by apply IH.
  - eapply saves_bind; [by apply saves_finish_output|]. intros ids'.
    eapply saves_bind; [apply within_looks; [apply outputs_permanent|apply looks_fail_when]|]. intros ?. by apply saves_ret.
Qed.

Lemma looks_make_sources ts : looks syncing (make_sources ts).
Proof. induction ts as [|t ts IH]; cbn [make_sources]; look. Qed.
#[local] Hint Resolve looks_make_sources : power.

Lemma saves_write_outputs work : saves synced syncing (write_outputs work) (λ ids, clean (outputs ids None)).
Proof.
  unfold write_outputs. eapply saves_bind; [apply (within_looks permanent); [done|apply looks_make_sources]|]. intros inputs.
  eapply saves_bind; [apply (within_looks permanent); [done|apply looks_make_sources]|]. intros overlaps. cbv zeta.
  eapply saves_bind; [apply (within_looks permanent); [done|apply looks_on_iterator, looks_find_next_live]|]. intros it.
  eapply saves_mono; [by apply (saves_merge_loop _ work it None [])| |done]. intros fs. apply clean_weaken.
  intros name [Hp|[Hin _]]; [done|]. by apply elem_of_nil in Hin.
Qed.

Lemma saves_rename_outputs ids all : ids ⊆ all →
  within (outputs all None) syncing (rename_outputs ids).
Proof.
  intros Hsub. induction ids as [|id ids IH]; cbn [rename_outputs].
  - apply within_looks; [apply outputs_permanent|apply looks_ret].
  - cbv zeta. apply within_bind.
    + apply saves_rename_file; [apply outputs_permanent|]. right. split; [|done]. apply (list_elem_of_fmap_2 output), Hsub. by left.
    + intros rc. apply within_bind; [apply within_looks; [apply outputs_permanent|apply looks_fail_when]|]. intros ?.
      apply IH. intros x Hx. apply Hsub. by right.
Qed.

Lemma durably_open_outputs ids : durably syncing (open_outputs ids).
Proof. induction ids as [|id ids IH]; cbn [open_outputs]; save. Qed.
#[local] Hint Resolve durably_open_outputs : power.

Lemma durably_compaction_io work : durably syncing (compaction_io work).
Proof.
  unfold compaction_io. eapply saves_bind; [apply saves_write_outputs|]. intros ids. apply saves_bind_get. intros st Hst.
  assert (Hrest : ∀ A (m : M LsmStore A), durably syncing m → saves (clean (outputs ids None)) syncing m (λ _, synced))
    by (intros A m; apply saves_durably, outputs_permanent).
  destruct (lo_fail_at (st_options st)) eqn:Ef; [|apply Hrest; save|..].
  all: eapply saves_bind; [by apply saves_rename_outputs|]; intros ?; apply Hrest; save.
Qed.

Lemma durably_compact_once work : durably syncing (compact_once work).
Proof.
  pose proof (durably_compaction_io work). unfold compact_once, compaction_install, compaction_finish. save.
Qed.
End Compacting.

#[local] Hint Resolve durably_open_outputs durably_compact_once : power.

(** ** The background thread and the calls *)

Section Calling.
Context `{Platform}.

Lemma durably_run_compaction force : durably syncing (run_compaction force).
Proof.
  assert (Hloop : ∀ n progressed, durably syncing (compaction_loop n force progressed)).
  { induction n as [|n IH]; intros progressed; cbn [compaction_loop]; save. }
  apply Hloop.
Qed.

Lemma looks_background_outcome r : looks syncing (background_outcome r).
Proof. unfold background_outcome. look. Qed.

#[local] Hint Resolve durably_run_compaction looks_background_outcome : power.

Lemma durably_background_round : durably syncing background_round.
Proof. unfold background_round. save. Qed.

#[local] Hint Resolve durably_background_round : power.

Lemma durably_wait fuel pred : durably syncing (wait fuel pred).
Proof. induction fuel as [|fuel IH]; cbn [wait]; save. Qed.

#[local] Hint Resolve durably_wait : power.

(** The log of the store. *)
Definition synced_wal (wal : Wal) : Prop := sync_mode_ (wal_file wal) = mode.

Lemma durably_on_wal {A : Type} (m : M Wal A) : durably synced_wal m → durably syncing (on_wal m).
Proof.
  intros Hm st w [Ho Hwal] Hr Hw. unfold on_wal. destruct (st_wal st) as [wal|] eqn:E; [|done].
  unfold zoom. specialize (Hm wal w (Hwal _ eq_refl) Hr Hw). destruct (m wal w) as [a wal' w'|e wal' w'|w'|]; [| |done|done].
  - destruct Hm as (? & ? & ?). split; [|done]. split; [done|]. by intros ? [= <-].
  - destruct Hm as (? & ? & ?). split; [|done]. split; [done|]. by intros ? [= <-].
Qed.

Lemma durably_wal_close : durably syncing (on_wal WalOps.close).
Proof.
  apply durably_on_wal. apply (within_zoom _ _ _ _ (λ l, sync_mode_ l = mode)); [|done|done].
  apply within_looks; [done|]. by apply looks_log_close.
Qed.

Lemma durably_wal_sync : durably syncing (on_wal WalOps.sync).
Proof.
  apply durably_on_wal. apply (within_zoom _ _ _ _ (λ l, sync_mode_ l = mode)); [|done|done]. apply durably_log_sync.
Qed.

Lemma saves_wal_open {S : Type} (P : S → Prop) path :
  saves synced P (WalOps.open path mode) (λ wal fs, synced fs ∧ just_opened path mode (wal_file wal) fs).
Proof.
  unfold WalOps.open. eapply saves_bind; [by apply (saves_log_open permanent)|]. intros l. by apply saves_ret.
Qed.

Lemma looks_set_wal wal : synced_wal wal → looks syncing (modify (st_set_wal (Some wal))).
Proof. intros Hw. apply looks_modify. intros st [Ho _]. split; [done|]. by intros ? [= <-]. Qed.

Lemma durably_rotate_wal next : durably syncing (rotate_wal next).
Proof.
  unfold rotate_wal. apply within_bind; [apply durably_attempt, durably_wal_close|]. intros closed.
  apply within_bind_get. intros st [-> _].
  eapply (saves_bind _ _ _ _ (λ r fs, synced fs ∧ match r with inl wal => synced_wal wal | inr _ => True end)).
  - eapply saves_mono; [apply saves_attempt, saves_wal_open|done|]. intros [wal|e] fs; [|done]. intros [? (_ & ? & _)]. done.
  - intros r. apply saves_pure. intros Hwal. apply (within_bind permanent); [save|]. intros s. save.
    apply within_looks; [done|by apply looks_set_wal].
Qed.
#[local] Hint Resolve durably_rotate_wal : power.

Lemma durably_rotate_memtable : durably syncing rotate_memtable.
Proof. unfold rotate_memtable, rotate_begin. save. Qed.
#[local] Hint Resolve durably_rotate_memtable : power.

Lemma durably_write_begin : durably syncing write_begin.
Proof. unfold write_begin. save. Qed.

Lemma durably_flush : durably syncing flush.
Proof. unfold flush, flush_begin, wait_for_background. save. Qed.

Lemma durably_compact : durably syncing compact.
Proof. unfold compact, wait_for_background. save. Qed.

Lemma durably_sync : durably syncing sync.
Proof. pose proof durably_wal_sync. unfold sync. save. Qed.

Lemma looks_pin_version : looks syncing pin_version.
Proof. unfold pin_version. look. Qed.

Lemma durably_unpin_version v : durably syncing (unpin_version v).
Proof. unfold unpin_version. save. Qed.
#[local] Hint Resolve looks_pin_version durably_unpin_version : power.

Lemma looks_ask_all key tables : looks syncing (ask_all key tables).
Proof. induction tables as [|t ts IH]; cbn [ask_all]; unfold ask; look. Qed.
#[local] Hint Resolve looks_ask_all : power.

Lemma durably_get_value key : durably syncing (get_value key).
Proof. unfold get_value, get_probe, get_from_version, entry_answer. save. Qed.

Lemma looks_table_sources b e ts : looks syncing (table_sources b e ts).
Proof. induction ts as [|t ts IH]; cbn [table_sources]; look. Qed.
#[local] Hint Resolve looks_table_sources : power.

Lemma durably_scan b e : durably syncing (scan b e).
Proof. unfold scan, scan_snapshot, scan_open. save. Qed.

Lemma looks_cursor_next it : looks syncing (cursor_next it).
Proof. unfold cursor_next. look. Qed.
End Calling.

#[local] Hint Resolve durably_background_round durably_write_begin durably_flush durably_compact durably_sync durably_unpin_version
  durably_get_value durably_scan looks_cursor_next : power.

(** ** Opening *)

(** The values [m] can return. *)
Definition returns {S A : Type} (φ : A → Prop) (m : M S A) : Prop := ∀ s w a s' w', m s w = World.Ok a s' w' → φ a.

Lemma returns_bind {S A B : Type} (φ : B → Prop) (m : M S A) (f : A → M S B) : (∀ a, returns φ (f a)) → returns φ (m ≫= f).
Proof.
  intros Hf s w b s' w'. unfold mbind, M_bind. destruct (m s w) as [a s1 w1|e s1 w1|w1|]; try done. apply Hf.
Qed.

Lemma returns_ret {S A : Type} (φ : A → Prop) (a : A) : φ a → returns φ (mret a : M S A).
Proof. by intros Ha s w a' s' w' [= <- <- <-]. Qed.

Section Opening.
Context `{Platform}.

Lemma returns_scan {V : Type} file (visit : Z → record.Record_ → bytes → M V unit) : 0 ≤ end_offset_ file →
  returns (λ n, n ≤ end_offset_ file) (scan_records file visit).
Proof.
  assert (Hloop : ∀ fuel offset good, good ≤ end_offset_ file → returns (λ n, n ≤ end_offset_ file) (scan_loop fuel file visit offset good)).
  { induction fuel as [|fuel IH]; intros offset good Hg; cbn [scan_loop]; [by intros s w|]. cbv zeta.
    destruct (_ <=? _); [|by apply returns_ret]. apply returns_bind. intros [[hd ?]|]; [|by apply returns_ret].
    apply returns_bind. intros [h|]; [|by apply returns_ret]. destruct (Z.ltb_spec (end_offset_ file) (u64 (offset + record.total_size h))); [by apply returns_ret|].
    apply returns_bind. intros [[bs ?]|]; [|by apply returns_ret]. apply returns_bind. intros [r|]; [|by apply returns_ret].
    apply returns_bind. intros _. by apply IH. }
  intros He. by apply Hloop.
Qed.

Lemma looks_scan {V : Type} file (visit : Z → record.Record_ → bytes → M V unit) :
  (∀ o r bs, looks (λ _, True) (visit o r bs)) → looks (λ _, True) (scan_records file visit).
Proof.
  intros Hv. assert (Hloop : ∀ fuel offset good, looks (λ _, True) (scan_loop fuel file visit offset good)).
  { induction fuel as [|fuel IH]; intros offset good; cbn [scan_loop]; look. }
  apply Hloop.
Qed.

(** A log whose object is no longer than its file. *)
Definition measured (wal : Wal) (fs : gmap bytes file) : Prop :=
  0 ≤ end_offset_ (wal_file wal) ∧ ∀ f, fs !! lf_path (wal_file wal) = Some f → end_offset_ (wal_file wal) ≤ sz (f_data f).

Lemma replay_into_saves wal m w : reliable w → synced (w_files w) → measured wal (w_files w) →
  match WalOps.replay_into (wal, m) w with
  | World.Ok _ _ w' | Err _ _ w' => reliable w' ∧ synced (w_files w')
  | Died w' => synced (w_files w')
  | MStuck => True
  end.
Proof.
  intros Hr Hs [He Hm]. set (path := lf_path (wal_file wal)) in *.
  pose (I := λ fs : gmap bytes file, synced fs ∧ ∀ f, fs !! path = Some f → end_offset_ (wal_file wal) ≤ sz (f_data f)).
  assert (HI : ∀ fs, I fs → synced fs) by (by intros fs [? _]).
  pose (P := λ s : Wal * Memtable, lf_path (wal_file s.1) = path).
  set (k := (scanned ← with_local (m, 0) (scan_records (wal_file wal) WalOps.replay_visit);
    let '(good_end, (into, replayed)) := scanned in
    World.put (wal, into);;
    (if negb (good_end =? end_offset_ (wal_file wal)) then
       zoom (λ s, wal_file s.1) (λ l s, (mkWal l, s.2)) (LogFileOps.truncate good_end)
     else mret tt);;
    mret replayed) : M (Wal * Memtable) Z).
  enough (Hsv : saves I P k (λ _, synced)).
  { change (WalOps.replay_into (wal, m) w) with (k (wal, m) w).
    specialize (Hsv (wal, m) w eq_refl Hr (conj Hs Hm)). by destruct (k (wal, m) w); destruct_and?. }
  eapply (saves_bind _ _ _ _ (λ r fs, I fs ∧ r.1 ≤ end_offset_ (wal_file wal))).
  - assert (Hl : looks P (with_local (m, 0) (scan_records (wal_file wal) WalOps.replay_visit))).
    { apply looks_local, looks_scan. intros. by apply looks_modify. }
    intros s w1 Hp Hr1 Hi. pose proof (saves_looks _ _ _ Hl HI s w1 Hp Hr1 Hi) as Hsv. revert Hsv. unfold with_local.
    destruct (scan_records _ _ _ _) as [n t w2|e t w2|w2|] eqn:E; [|done..]. intros (? & ? & ?). split_and!; [done|done|done|].
    by eapply returns_scan in E.
  - intros [good [into replayed]]. apply saves_pure. cbn [fst]. intros Hg.
    eapply saves_bind; [apply saves_looks; [by apply looks_put|exact HI]|]. intros ?.
    eapply (saves_bind _ _ _ _ (λ _, synced)); [|intros ?; by apply saves_ret].
    destruct (negb _); [|by apply saves_ret].
    apply (saves_mono _ _ (λ fs, synced fs ∧ ∀ f, fs !! path = Some f → good ≤ sz (f_data f)) _ _ (λ _, synced)); [|..|done].
    2: { intros fs [Hc Hf]. split; [done|]. intros f E. specialize (Hf f E). lia. }
    apply (saves_zoom _ _ _ _ (λ l, lf_path l = path)); [|done|done].
    by apply (saves_log_truncate permanent).
Qed.

Lemma saves_replay_wal wal : saves (λ fs, synced fs ∧ measured wal fs) syncing (replay_wal wal) (λ _, synced).
Proof.
  intros st w Hp Hr [Hs Hm]. unfold replay_wal. pose proof (replay_into_saves wal (st_mem st) w Hr Hs Hm) as Hi.
  by destruct (WalOps.replay_into (wal, st_mem st) w).
Qed.

Lemma durably_replay_wals ids : durably syncing (replay_wals ids).
Proof.
  induction ids as [|id ids IH]; cbn [replay_wals]; [by apply within_looks; [|apply looks_ret]|].
  apply within_bind_get. intros st [-> _]. eapply saves_bind; [apply saves_wal_open|]. intros wal.
  eapply saves_bind.
  { eapply saves_mono; [apply (saves_replay_wal wal)| |done]. intros fs [Hs (E & _ & He & Hf)]. split; [done|]. split; [done|by rewrite E]. }
  intros r. apply (within_bind permanent); [save|]. intros ?. unfold WalOps.close. save.
Qed.

Lemma looks_read_directory : looks syncing read_directory.
Proof. unfold read_directory. look. Qed.

Lemma durably_sweep_loop chosen count names any : durably syncing (sweep_loop chosen count names any).
Proof. revert any. induction names as [|name names IH]; intros any; cbn [sweep_loop]; save. Qed.

#[local] Hint Resolve looks_read_directory durably_sweep_loop durably_replay_wals : power.

Lemma durably_open_levels levels : durably syncing (open_levels levels).
Proof.
  assert (Hlevel : ∀ metas, durably syncing (open_level metas)) by (induction metas; cbn [open_level]; unfold open_named; save).
  induction levels as [|metas levels IH]; cbn [open_levels]; save.
Qed.

Lemma looks_raise_next_id ids : looks syncing (raise_next_id ids).
Proof. induction ids as [|id ids IH]; cbn [raise_next_id]; look. Qed.

Lemma durably_remove_wals ids : durably syncing (remove_wals ids).
Proof. induction ids as [|id ids IH]; cbn [remove_wals]; save. Qed.

Lemma durably_manifest_read {S : Type} (P : S → Prop) : durably P manifest.read.
Proof. unfold manifest.read. save. Qed.

Lemma durably_open_wal id : durably syncing (open_wal id).
Proof.
  unfold open_wal. apply within_bind_get. intros st [-> _].
  eapply saves_bind; [apply saves_wal_open|]. intros wal.
  apply (saves_mono _ _ (λ fs, synced fs ∧ synced_wal wal) _ _ (λ _, synced)); [|by intros fs [? (_ & ? & _)]|done].
  apply saves_pure. intros Hw. apply (within_bind permanent); [by apply within_looks; [|apply looks_set_wal]|]. intros ?. save.
Qed.

#[local] Hint Resolve durably_open_levels looks_raise_next_id durably_remove_wals durably_manifest_read durably_open_wal : power.

Lemma durably_recover : durably syncing recover.
Proof.
  unfold recover, recover_paused, sweep_temp_files, open_from_manifest, sweep_orphan_tables, adopt_unmanifested_layout. save.
Qed.

Lemma durably_open {S : Type} (P : S → Prop) dir opts : lo_sync_mode opts = mode →
  saves synced P (open dir opts) (λ st fs, synced fs ∧ syncing st).
Proof.
  intros Ha. unfold open. destruct (_ =? _); [by apply saves_fail|].
  eapply saves_bind.
  - apply (saves_local _ _ syncing); [|done]. apply (within_bind permanent); [apply durably_recover|]. intros ?. save.
  - intros [u st]. by apply saves_ret.
Qed.
End Opening.
End Mode.

#[export] Hint Resolve durably_background_round durably_write_begin durably_flush durably_compact durably_sync durably_unpin_version
  durably_get_value durably_scan looks_cursor_next : power.

(** The log is synced after each write to it. *)
Abbreviation syncs := (syncing Always).

(** ** What a power failure leaves *)

Section Cut.
Context `{Platform}.

Lemma permanent_wal id : permanent (wal_file_name id).
Proof. intros stem. apply wal_not_temp. Qed.
Lemma permanent_sst id : permanent (sst_file_name id).
Proof. intros stem. apply sst_not_temp. Qed.
Lemma permanent_manifest : permanent kManifestName.
Proof. intros stem. apply manifest_not_temp. Qed.
Lemma permanent_parsed_wal name id : parse_wal_file_id name = Some id → permanent name.
Proof. intros Hp stem ->. by rewrite parse_wal_temp in Hp. Qed.
Lemma permanent_parsed_sst name id : parse_sst_file_id name = Some id → permanent name.
Proof. intros Hp stem ->. by rewrite parse_sst_temp in Hp. Qed.

Lemma like_none fs fs' name : like fs fs' → permanent name → fs !! name = None → fs' !! name = None.
Proof. intros Hl Hp Hn. specialize (Hl name Hp). rewrite Hn in Hl. by destruct (fs' !! name). Qed.

Lemma durable_like c metas n logs fs fs' : like fs fs' → durable c metas n logs fs → durable c metas n logs fs'.
Proof.
  intros Hl [Hm [T1 T2 T3 T4] Ho Hlogs Honly]. split; [|split; [|done..]|done|..].
  - destruct Hm as [((f & Hf & Hd) & Hok & Hn)|(Hno & -> & -> & Hs & Hw)]; [left|right].
    + destruct (like_lookup _ _ _ _ Hl permanent_manifest Hf) as (f' & Hf' & Ed). split; [|done]. exists f'. by rewrite Ed.
    + split_and!; [by eapply like_none, Hno; [|apply permanent_manifest]|done|done|..].
      * intros name id Hp. eapply like_none; [done|by eapply permanent_parsed_sst|by eapply Hs].
      * intros name id Hp. eapply like_none; [done|by eapply permanent_parsed_wal|by eapply Hw].
  - intros m Hin. destruct (T1 m Hin) as ((bits & bs & f & Hf & Hd & Hrest) & Hrest').
    destruct (like_lookup _ _ _ _ Hl (permanent_sst _) Hf) as (f' & Hf' & Ed). split; [|done]. exists bits, bs, f'. by rewrite Ed.
  - eapply Forall_impl; [exact Hlogs|]. intros l (Hi & Hx & Hv & f & tl & Hf & Hd).
    destruct (like_lookup _ _ _ _ Hl (permanent_wal _) Hf) as (f' & Hf' & Ed). split_and!; [done|done|done|]. exists f', tl. by rewrite Ed.
  - intros name id [f' Hf'] Hp. destruct (like_some _ _ _ _ Hl (permanent_parsed_wal _ _ Hp) Hf') as (f & Hf & _). eapply Honly; eauto.
Qed.

Lemma recoverable_like fs fs' db : like fs fs' → recoverable fs db → recoverable fs' db.
Proof. intros Hl (c & metas & n & logs & Hd & Hr). exists c, metas, n, logs. split; [by eapply durable_like|done]. Qed.

Lemma lsm_recoverable_cut fs fs' db : recoverable fs db → synced fs → power_cut fs fs' → recoverable fs' db.
Proof. intros Hrec Hs Hc. eapply recoverable_like, Hrec. by apply cut_like. Qed.

(** After a power failure, the old map or the new one. *)
Definition either (db db' : gmap bytes bytes) (w : World) : Prop :=
  ∀ fs', power_cut (w_files w) fs' → recoverable fs' db ∨ recoverable fs' db'.

Lemma either_same db db' w : recoverable (w_files w) db → synced (w_files w) → either db db' w.
Proof. intros Hrec Hs fs' Hc. left. by eapply lsm_recoverable_cut. Qed.

(** The record being appended is cut off somewhere. *)
Lemma append_cut c xs imm st w w' f f' key value tomb ts : serving c xs imm st w → Forall valid_write xs → synced (w_files w) →
  w_files w !! wal_file_name (st_wal_id st) = Some f → f_data f = log_of xs →
  w_files w' = <[wal_file_name (st_wal_id st) := f']> (w_files w) → record.fits key value tomb → 0 ≤ ts ≤ UINT64_MAX →
  WalOps.crash_log xs (WalOps.write_of key value tomb ts) (f_data f') → (Nat.min (f_synced f) (length (log_of xs)) ≤ f_synced f')%nat →
  either (database c xs imm st) (effect key value tomb (database c xs imm st)) w'.
Proof.
  intros Hs Hv Hsy Hf Hd Hw Hfits Hts Hcr Hle fs' Hc. set (path := wal_file_name (st_wal_id st)) in *.
  pose proof (Hsy _ _ (permanent_wal _) Hf) as Hfull. unfold fully in Hfull. rewrite Hd in Hfull.
  pose proof (Hc path) as Hg. rewrite Hw, lookup_insert_eq in Hg. destruct Hg as (g & n & Hg & Hn & Hdg & _).
  assert (Hl : like (<[path := g]> (w_files w)) fs').
  { intros name Hp. destruct (decide (path = name)) as [<-|Hne]; [by rewrite lookup_insert_eq, Hg|]. rewrite lookup_insert_ne by done.
    rewrite (cut_same _ _ _ Hc); rewrite Hw, lookup_insert_ne by done; [done|]. intros h. by apply Hsy. }
  destruct (append_crash c xs imm st w (mkWorld (<[path := g]> (w_files w)) [] []) g key value tomb ts) as [Hrec|Hrec]; try done.
  - rewrite Hdg. apply WalOps.crash_log_take; [by apply WalOps.valid_write_of|done|lia].
  - left. by eapply recoverable_like.
  - right. by eapply recoverable_like.
Qed.

Lemma wp_append_power c xs imm st w key value tomb : serving c xs imm st w → reliable w → syncs st → synced (w_files w) →
  record.fits key value tomb → sz (log_of xs) ≤ kTotalLimit →
  wp (on_wal (WalOps.append key value tomb);; write_insert key value tomb) st w
    (λ _ st' w', syncs st' ∧ synced (w_files w')) (λ _ _ _, False)
    (either (database c xs imm st) (effect key value tomb (database c xs imm st))).
Proof.
  intros Hs Hrel [Ho Hmode] Hsy Hfits Hsz. destruct (sv_logs _ _ _ _ _ Hs) as [(wal & Ew & Hh & Hp) _ _ _].
  pose proof (Hh w eq_refl) as Hlog. pose proof Hlog as (Hv & f & _ & Hf & Hd & _). rewrite app_nil_r in Hd. rewrite Hp in Hf.
  eapply wp_bind; [eapply wp_on_wal; [exact Ew|apply (WalOps.wp_wal_append wal w xs key value tomb Hrel Hlog Hfits)]|..]; cbn beta.
  - unfold kTotalLimit, record.kMaxRecordSize, UINT32_MAX, UINT64_MAX in *. lia.
  - intros [] st2 w2 _ (wal' & -> & ts & f' & _ & _ & Hw & _ & Em & Hfull). apply wp_modify. specialize (Hmode wal Ew). split.
    + split; [done|]. intros ? [= <-]. by rewrite Em.
    + rewrite Hw. by apply clean_insert, Hfull.
  - intros e st2 w2 _ (wal' & _ & []).
  - intros w2 _ (ts & f' & Hts & Hw & Hcr & Hle). rewrite Hp in Hw, Hle. eapply append_cut; eauto.
Qed.

Lemma wp_write_power c xs imm st w key value tomb : serving c xs imm st w → reliable w → st_background_busy st = false →
  roomy c xs imm st → syncs st → synced (w_files w) → sz key + sz value ≤ UINT64_MAX →
  wp (write_entry key value tomb) st w (λ _ st' w', syncs st' ∧ synced (w_files w')) (λ _ st' w', syncs st' ∧ synced (w_files w'))
    (either (database c xs imm st) (effect key value tomb (database c xs imm st))).
Proof.
  intros Hs Hrel Hb Hroom Hsync Hsy Hmax. unfold write_entry.
  destruct (check_write_spec key value tomb Hmax) as [[-> Hf]|[(e & -> & He) Hf]]; [|by apply wp_bind_err]. wp_pure.
  eapply wp_bind; [apply (wp_saves synced syncs); [by apply (wp_write_begin c xs imm st w)|apply durably_write_begin|done..]|..]; cbn beta.
  - intros [] st1 w1 Hc1 ((c1 & xs1 & imm1 & Hun) & Hsync1 & Hsy1). pose proof Hun as [A1 A2 A3 A4 A5 A6 A7].
    rewrite <-A4. eapply wp_mono; [apply (wp_append_power c1 xs1 imm1); try done; [eauto with wp|]|done|done|done].
    destruct A6 as [->| ->]; [by destruct Hroom|done].
  - by intros e st1 w1 _ (_ & ? & ?).
  - intros w1 _ [Hrec ?]. by apply either_same.
Qed.
End Cut.

(** ** Sessions in which the power fails *)

Section Sessions.
Context `{Platform}.

(** As in LsmSession, but the engine is opened with [SyncMode::Always], and whenever it goes
    down, in a call, in a round of its thread, between them or while it opens, the power
    fails. *)
Inductive power_step : machine → label → machine → Prop :=
| power_on s l c fs : step s l (Up c fs) → lo_sync_mode (st_options (cl_store c)) = Always → power_step s l (Up c fs)
| power_lost s l fs fs' : step s l (Down fs) → power_cut fs fs' → power_step s l (Down fs').

(** What the engine has is on the device. *)
Definition lasting (s : machine) : Prop :=
  match s with
  | Up c fs => syncs (cl_store c) ∧ synced fs
  | Down fs => synced fs
  | Broken => True
  end.

Lemma durably_on_store {A : Type} (m : M LsmStore A) : durably syncs m → durably (λ c, syncs (cl_store c)) (on_store m).
Proof. intros Hm. by apply (within_zoom _ _ _ _ syncs). Qed.

(** The calls that do not write to the log. *)
Definition writes (r : request) : bool := match r with RPut _ _ | RRemove _ => true | _ => false end.

Lemma durably_execute r : writes r = false → durably (λ c, syncs (cl_store c)) (execute r).
Proof.
  assert (Hset : ∀ f, looks (λ c, syncs (cl_store c)) (set_cursors f)) by (intros; by apply looks_modify).
  assert (Hon : ∀ A (m : M LsmStore A), looks syncs m → durably (λ c, syncs (cl_store c)) (on_store m))
    by (intros; apply durably_on_store, within_looks; [done|done]).
  intros Hr. destruct r; try done; unfold execute; save; first [apply durably_on_store|apply Hon]; auto 2 with power.
Qed.

(** What a call leaves, and what a power failure in it leaves. *)
Lemma lasting_call cl w m css r : holds cl w m css → reliable w → admissible cl (w_files w) r → syncs (cl_store cl) → synced (w_files w) →
  match execute r cl w with
  | World.Ok _ cl' w' | Err _ cl' w' => syncs (cl_store cl') ∧ synced (w_files w')
  | Died w' => either m (spec_effect r m) w'
  | MStuck => True
  end.
Proof.
  intros Hh Hr Ha Hsync Hs. pose proof (lsm_simulates_all cl w m css Hh Hr r Ha) as Hsim. unfold simulates, wp in Hsim.
  destruct (writes r) eqn:Ew.
  - pose proof Hh as [(c & xs & imm & Hsv & Em) Hb _ _]. destruct Ha as [Hroom Hmax].
    pose proof (room_roomy _ _ _ _ _ Hsv Hroom) as Hro.
    assert (Hgo : ∀ key value tomb, sz key + sz value ≤ UINT64_MAX → execute r = (on_store (write_entry key value tomb);; mret Nothing) →
      spec_effect r m = effect key value tomb m →
      wp (execute r) cl w (λ _ cl' w', syncs (cl_store cl') ∧ synced (w_files w')) (λ _ cl' w', syncs (cl_store cl') ∧ synced (w_files w'))
        (either m (spec_effect r m))).
    { intros key value tomb Hsz E Ee. rewrite E, Ee. pose proof (wp_write_power c xs imm (cl_store cl) w key value tomb Hsv Hr Hb Hro Hsync Hs Hsz) as Hw.
      rewrite Em in Hw. eapply wp_bind_zoom; [exact Hw|..]; cbn beta; [|done|done]. intros [] st' w' _ ?. by apply wp_ret. }
    assert (Hw : wp (execute r) cl w (λ _ cl' w', syncs (cl_store cl') ∧ synced (w_files w'))
        (λ _ cl' w', syncs (cl_store cl') ∧ synced (w_files w')) (either m (spec_effect r m))).
    { destruct r as [k v| |k| | | | | |]; try done; [by apply (Hgo k v false)|]. apply (Hgo k [] true); [|done|done]. rewrite sz_nil. lia. }
    unfold wp in Hw. destruct (execute r cl w); naive_solver.
  - pose proof (durably_execute r Ew cl w Hsync Hr Hs) as Hd. destruct (execute r cl w); [naive_solver|naive_solver| |done].
    destruct Hsim as (_ & a & Hsp & Hrec). intros fs' Hc. inversion Hsp; subst; [left|right]; by eapply lsm_recoverable_cut.
Qed.

Lemma lsm_lasting_on s a l c fs : related s a → lasting s → step s l (Up c fs) → lo_sync_mode (st_options (cl_store c)) = Always →
  lasting (Up c fs).
Proof.
  intros Hrl Hl Hstep Hal. remember (Up c fs) as s' eqn:Es. destruct Hstep as [cl w r Hr Ha|cl w Hr Hroom|w dir opts Hr Hopts Hok|cl fs0]; [..|done];
    destruct a as [m css|m]; try done.
  - destruct Hrl as (w0 & Hw & Hh), Hl as [Hsync Hs]. assert (Hh' : holds cl w m css) by (by eapply holds_files).
    pose proof (lasting_call cl w m css r Hh' Hr Ha Hsync Hs) as Hc. destruct (execute r cl w); by simplify_eq/=.
  - destruct Hl as [Hsync Hs]. pose proof (durably_on_store _ (durably_background_round Always) cl w Hsync Hr Hs) as Hd.
    destruct (on_store background_round cl w); simplify_eq/=; naive_solver.
  - pose proof (wp_lsm_open dir opts tt w m Hr Hopts Hok Hrl) as Hopen. unfold wp in Hopen.
    assert (Ho : ∀ st w', open dir opts tt w = World.Ok st tt w' → lo_sync_mode opts = Always → lasting (Up (mkClient st []) (w_files w'))).
    { intros st w' E Ho. pose proof (durably_open Always (λ _, True) dir opts Ho tt w I Hr Hl) as Hd. rewrite E in Hd. naive_solver. }
    destruct (open dir opts tt w) as [st' [] w'|e [] w'|w'|]; simplify_eq/=. apply (Ho st' w'); [done|].
    destruct Hopen as (_ & _ & c0 & _ & _ & Eo & _). by rewrite <-Eo.
Qed.

Lemma lsm_lasting_lost s a l fs fs' : related s a → lasting s → step s l (Down fs) → power_cut fs fs' →
  ∃ a', spec_step a l a' ∧ related (Down fs') a'.
Proof.
  intros Hrl Hl Hstep Hc. destruct (lsm_simulation _ _ _ _ Hrl Hstep) as (a' & Hsp & Hrec).
  assert (Hgo : synced fs → ∃ a', spec_step a l a' ∧ related (Down fs') a').
  { intros Hs. exists a'. split; [done|]. destruct a' as [|m']; [done|]. by eapply lsm_recoverable_cut. }
  remember (Down fs) as s' eqn:Es. destruct Hstep as [cl w r Hr Ha|cl w Hr Hroom|w dir opts Hr Hopts Hok|cl fs0].
  - clear Hgo Hsp Hrec a'. destruct a as [m css|m]; [|done]. destruct Hrl as (w0 & Hw & Hh), Hl as [Hsync Hs].
    assert (Hh' : holds cl w m css) by (by eapply holds_files).
    pose proof (lasting_call cl w m css r Hh' Hr Ha Hsync Hs) as Hcall. destruct (execute r cl w); simplify_eq/=.
    destruct (Hcall fs' Hc); eexists (Off _); (split; [|eassumption]); constructor.
  - apply Hgo. destruct Hl as [Hsync Hs]. pose proof (durably_on_store _ (durably_background_round Always) cl w Hsync Hr Hs) as Hd.
    destruct (on_store background_round cl w); by simplify_eq/=.
  - apply Hgo. pose proof (durably_open (lo_sync_mode opts) (λ _, True) dir opts eq_refl tt w I Hr Hl) as Hd.
    destruct (open dir opts tt w) as [st' [] w'|e [] w'|w'|]; simplify_eq/=; naive_solver.
  - apply Hgo. destruct Hl as [_ Hs]. by simplify_eq.
Qed.

Lemma lsm_power_simulation s a l s' : related s a → lasting s → power_step s l s' →
  ∃ a', spec_step a l a' ∧ related s' a' ∧ lasting s'.
Proof.
  intros Hrl Hl Hp. destruct Hp as [s l c fs Hstep Hal|s l fs fs' Hstep Hc].
  - destruct (lsm_simulation _ _ _ _ Hrl Hstep) as (a' & ? & ?). exists a'. split; [done|]. split; [done|]. exact (lsm_lasting_on _ _ _ _ _ Hrl Hl Hstep Hal).
  - destruct (lsm_lasting_lost _ _ _ _ _ Hrl Hl Hstep Hc) as (a' & ? & ?). exists a'. split; [done|]. split; [done|]. by eapply cut_synced.
Qed.

(** C4: With [SyncMode::Always], the LSM engine is the ordered map also when the power fails,
    and not only the process: a failure may drop, of every file, any part of what was not
    synced.  After any sequence of calls, background rounds, power failures at any system
    call, and restarts, what a call acknowledged is there, a call that was cut short has
    taken effect entirely or not at all, and nothing a flush or a compaction has moved into
    tables is missing. *)
Theorem lsm_survives_power fs m ls s' : recoverable fs m → synced fs → run power_step (Down fs) ls s' →
  ∃ a', run spec_step (Off m) ls a' ∧ related s' a'.
Proof.
  intros Hrec Hs Hrun. assert (Hrl : related (Down fs) (Off m)) by done. assert (Hl : lasting (Down fs)) by done.
  generalize dependent (Off m). clear Hrec Hs m. induction Hrun as [s|s l s1 ls s2 Hstep Hrun IH]; intros a Hrl.
  - exists a. split; [constructor|done].
  - destruct (lsm_power_simulation _ _ _ _ Hrl Hl Hstep) as (a1 & Hsp & Hrl1 & Hl1).
    destruct (IH Hl1 a1 Hrl1) as (a2 & Hsp2 & Hrl2). exists a2. split; [by econstructor|done].
Qed.
End Sessions.
