(* ===== verification/LsmProps.v ===== *)
(** What the operations of the LSM engine do, one by one, to the database it holds. *)

From S2P Require Import Prelude Status FileNames World Wp Encoding Record SortedMap Memtable SSTableFormat LogFile Manifest LogScan SSTableLayout LsmStats SSTable SSTableBuild SSTableRead SSTableOpen IteratorMerge Wal LsmState LsmCompact Lsm LsmLevels LsmGet LsmDisk LsmPick LsmMerge LsmCommit LsmServe LsmReads LsmFlush LsmCompacted LsmBackground LsmWrite LsmCalls LsmOpen LsmRecover LsmRestart LsmOpened.
Import sstable LsmState LsmCompact LsmOps LsmOpen.

#[local] Opaque record.encode record.decode record.decode_header.

Section Props.
Context `{Platform}.

(** A running engine, between calls, whose database is [db]. *)
Definition engine (st : LsmStore) (w : World) (db : gmap bytes bytes) : Prop :=
  st_background_busy st = false ∧ ∃ c xs imm, serving c xs imm st w ∧ database c xs imm st = db.

(** The directory holds [db] should the process die. *)
Abbreviation crash db := (λ w', recoverable (w_files w') db).

Lemma changed_engine st w db st' w' : changed_to st w db st' w' → engine st' w' db ∧ st_options st' = st_options st.
Proof. intros (c & xs & imm & Hs & _ & Ho & Hb & Hdb). split; [|done]. split; [done|]. by exists c, xs, imm. Qed.

Lemma evolves_engine c xs imm st w c' imm' st' w' : evolves c xs imm st w c' imm' st' w' → same_flags st st' →
  engine st w (database c xs imm st) → engine st' w' (database c xs imm st).
Proof.
  intros [E1 E2 E3 _ _ E6] (_ & _ & _ & Ef) [Hb _]. split; [congruence|]. by exists c', xs, imm'.
Qed.


(** A put or remove that returns Ok has taken effect, through whatever waiting, log
    rotation and flushing it caused; one that returns an error has changed nothing, and
    the error is about the arguments or is the one the background thread stopped with;
    one that dies has taken effect entirely or not at all. *)
Theorem lsm_write st w db key value (tomb : bool) : engine st w db → reliable w → room_for st (w_files w) →
  sz key + sz value ≤ UINT64_MAX →
  wp (write_entry key value tomb) st w
    (λ _ st' w', record.fits key value tomb ∧ engine st' w' (effect key value tomb db) ∧ st_options st' = st_options st)
    (λ e st' w', engine st' w' db ∧
       (code_ e = InvalidArgument ∧ ¬ record.fits key value tomb ∨ e = st_background_status st' ∧ is_ok e = false))
    (λ w', recoverable (w_files w') db ∨ recoverable (w_files w') (effect key value tomb db)).
Proof.
  intros (Hb & c & xs & imm & Hs & <-) Hrel Hroom Hmax.
  eapply wp_mono; [by apply (wp_write_entry c xs imm st w Hs Hrel Hb (room_roomy _ _ _ _ _ Hs Hroom))|..]; cbn beta; [| |done].
  - intros _ st' w' _ [Hf Hc]. split; [done|by eapply changed_engine].
  - intros e st' w' _ [Hc Hcase]. split; [by eapply changed_engine|]. unfold refusal in Hcase. naive_solver.
Qed.

(** C11: A flush changes nothing in the database, and when it returns Ok both memtables are
    empty: everything is in tables.  The exception is an engine whose background thread
    has halted, where flush returns Ok and leaves the memtable as it is. *)
Theorem lsm_flush st w db : engine st w db → reliable w → room_for st (w_files w) →
  wp flush st w
    (λ _ st' w', engine st' w' db ∧
       (st_halted_by_fail_point st' = true ∨ st_mem st' = MemtableOps.empty_table ∧ st_imm st' = None))
    (λ e st' w', engine st' w' db ∧ e = st_background_status st' ∧ is_ok e = false) (crash db).
Proof.
  intros (Hb & c & xs & imm & Hs & <-) Hrel Hroom.
  eapply wp_mono; [apply (wp_flush c xs imm st w Hs Hrel Hb (room_roomy _ _ _ _ _ Hs Hroom))|..]; cbn beta; [| |done].
  - intros _ st' w' _ [Hc Hout]. split; [by eapply changed_engine|done].
  - intros e st' w' _ [Hr Hc]. split; [by eapply changed_engine|done].
Qed.

(** C7: Choosing a compaction never fails, and the compaction chosen, merged, committed
    and installed, leaves the database as it was, at whatever system call the process
    dies: the tombstones it drops hide nothing in deeper levels. *)
Theorem lsm_compaction st w db force : engine st w db → reliable w → room_for st (w_files w) →
  ∃ r, pick_compaction st force = ROk r ∧ ∀ work, r = Some work →
    wp (compact_once work) st w
      (λ done st' w', done = true ∧ engine st' w' db)
      (λ e st' w', code_ e = InvalidArgument ∧ engine st' w' db) (crash db).
Proof.
  intros He Hrel Hroom. pose proof He as (Hb & c & xs & imm & Hs & <-). destruct (pick_ready c xs imm st w force Hs) as (r & E & Hr).
  exists r. split; [done|]. intros work ->. destruct Hr as [Hpk Hdepth]. destruct (room_roomy _ _ _ _ _ Hs Hroom) as [Hl Hi _].
  pose proof (step_ids_pos c xs imm st) as Hpos. eapply wp_mono;
    [apply (wp_compact_once c xs imm st w work Hs Hpk Hrel Hl Hdepth UINT32_MAX);
      unfold step_ids, kCallRounds, kRoundSteps in *; lia|..]; cbn beta; [| |done].
  - intros done_ st' w' _ (-> & c' & Hev & _ & Hfl). split; [done|]. by eapply evolves_engine.
  - intros e st' w' _ (He' & Hev & _ & Hfl). split; [done|]. by eapply evolves_engine.
Qed.


End Props.
