(* ===== verification/LsmExamples.v ===== *)
(** Runs of the model of the LSM engine on concrete inputs: instances of the theorems,
    and behaviours of the code that its comments rule out. *)

From S2P Require Import Prelude Status FileNames World Wp Encoding Record SortedMap Memtable SSTableFormat LogFile Power Manifest LogScan SSTableLayout LsmStats SSTable SSTableBuild SSTableRead SSTableOpen Iterator IteratorSource IteratorMerge IteratorTables Wal LsmState LsmCompact Lsm LsmLevels LsmGet LsmDisk LsmPick LsmMerge LsmCommit LsmServe LsmReads LsmFlush LsmCompacted LsmBackground LsmWrite LsmCalls LsmOpen LsmRecover LsmRestart LsmOpened LsmSession LsmPower LsmProps.
Import sstable LsmState LsmCompact LsmOps LsmOpen LsmSession.

#[local] Existing Instance reference_platform.

Definition lsm_options : LsmOptions :=
  mkLsmOptions Always 200 64 10 true Pread 3 1024 10 256 7 FpNone.

(** An empty directory; the clock reads 7, 8, 9, then stays. *)
Definition empty_dir : World := mkWorld ∅ [] [7; 8; 9].

Definition final {S A} (o : out S A) (s : S) : S * World :=
  match o with
  | Ok _ s' w' | Err _ s' w' => (s', w')
  | Died w' => (s, w')
  | MStuck => (s, empty_dir)
  end.

Definition returned {S A} (o : out S A) : bool := match o with Ok _ _ _ => true | _ => false end.

Lemma returned_final {S} (o : out S unit) s : returned o = true → o = Ok tt (final o s).1 (final o s).2.
Proof. by destruct o as [[] ? ?|? ? ?|?|]. Qed.

Ltac returns d := unfold d; apply returned_final; vm_compute; reflexivity.

Definition lsm_opened : LsmStore * World :=
  match open (lit "db") lsm_options tt empty_dir with
  | Ok st _ w => (st, w)
  | _ => (new_store [] lsm_options, empty_dir)
  end.

Definition lsm_put : LsmStore * World := final (put (lit "k") (lit "v") lsm_opened.1 lsm_opened.2) lsm_opened.1.
Definition lsm_flushed : LsmStore * World := final (flush lsm_put.1 lsm_put.2) lsm_put.1.


(** ** The engine in the empty directory *)

Lemma empty_dir_recoverable : recoverable (w_files empty_dir) ∅.
Proof.
  exists (λ _, []), [], kFirstFileId, []. split; [|done]. split.
  - right. split_and!; done.
  - split; [by intros m Hm%elem_of_nil|constructor|constructor|done].
  - constructor.
  - constructor.
  - by intros name id [f Hf].
Qed.

Lemma lsm_options_sane : sane lsm_options.
Proof. by split. Qed.

Lemma openable_check fs :
  (from_option (λ f, sz (f_data f)) 0 (fs !! kManifestName) <=? manifest.kMaxManifestSize) = true →
  (2 * dir_bytes fs <=? kTotalLimit) = true → (stored_next_id fs + 3 <=? UINT32_MAX) = true →
  forallb (λ kv, log_id_low kv.1) (map_to_list fs) = true → openable fs.
Proof.
  intros H1 H2 H3 H4. split; [by apply Z.leb_le..|]. apply map_Forall_to_list. rewrite forallb_forall in H4.
  apply Forall_forall. intros [k f] Hin. by apply (H4 (k, f)), list_elem_of_In.
Qed.

Lemma room_check st fs : (2 * dir_bytes fs <=? kTotalLimit) &&
  (st_next_id st + kCallRounds * (kRoundSteps * (2 * dir_bytes fs / target (st_options st) + 1)) + 2 <=? UINT32_MAX) = true →
  room_for st fs.
Proof. intros [H1 H2]%andb_true_iff. by split; apply Z.leb_le. Qed.

Ltac room := apply room_check; vm_compute; reflexivity.


Lemma lsm_opened_engine : engine lsm_opened.1 lsm_opened.2 ∅.
Proof.
  assert (Ho : openable (w_files empty_dir)) by (apply openable_check; vm_compute; reflexivity).
  pose proof (wp_lsm_open (lit "db") lsm_options tt empty_dir ∅ ltac:(constructor) lsm_options_sane Ho empty_dir_recoverable) as Hw.
  unfold wp in Hw. assert (E : open (lit "db") lsm_options tt empty_dir = Ok lsm_opened.1 tt lsm_opened.2) by (vm_compute; reflexivity).
  rewrite E in Hw. destruct Hw as (_ & _ & c & Hs & Hdb & _ & Hb & _). split; [exact Hb|]. exists c, [], None. split; [exact Hs|exact Hdb].
Qed.

Definition kv_map : gmap bytes bytes := {[ lit "k" := lit "v" ]}.

(** Calls that returned Ok, one after the other. *)
Lemma engine_put st w db k v st' w' : engine st w db → reliable w → room_for st (w_files w) → (sz k + sz v <=? UINT64_MAX) = true →
  put k v st w = Ok tt st' w' → engine st' w' (<[k := v]> db).
Proof.
  intros (Hb & c & xs & imm & Hs & Hdb) Hrel Hroom Hmax%Z.leb_le E.
  pose proof (wp_write_entry c xs imm st w Hs Hrel Hb (room_roomy _ _ _ _ _ Hs Hroom) k v false Hmax) as Hw. unfold wp in Hw.
  change (put k v) with (write_entry k v false) in E. rewrite E, Hdb in Hw. destruct Hw as (_ & _ & Hc). by apply changed_engine in Hc as [Hc _].
Qed.

Lemma engine_flush st w db st' w' : engine st w db → reliable w → room_for st (w_files w) →
  flush st w = Ok tt st' w' → engine st' w' db.
Proof.
  intros (Hb & c & xs & imm & Hs & Hdb) Hrel Hroom E.
  pose proof (wp_flush c xs imm st w Hs Hrel Hb (room_roomy _ _ _ _ _ Hs Hroom)) as Hw. unfold wp in Hw.
  rewrite E, Hdb in Hw. destruct Hw as (_ & Hc & _). by apply changed_engine in Hc as [Hc _].
Qed.

Lemma lsm_put_engine : engine lsm_put.1 lsm_put.2 kv_map.
Proof.
  apply (engine_put lsm_opened.1 lsm_opened.2 ∅ (lit "k") (lit "v"));
    [exact lsm_opened_engine|vm_compute; constructor|room|vm_compute; reflexivity|returns lsm_put].
Qed.

Lemma lsm_flushed_engine : engine lsm_flushed.1 lsm_flushed.2 kv_map.
Proof.
  apply (engine_flush lsm_put.1 lsm_put.2); [exact lsm_put_engine|vm_compute; constructor|room|returns lsm_flushed].
Qed.

(** Two overlapping tables in level 0, one short of the trigger; opened again with a
    lower trigger, a compaction of them is due. *)
Definition lsm_put2 : LsmStore * World := final (put (lit "k") (lit "w") lsm_flushed.1 lsm_flushed.2) lsm_flushed.1.
Definition lsm_two : LsmStore * World := final (flush lsm_put2.1 lsm_put2.2) lsm_put2.1.
Definition kw_map : gmap bytes bytes := <[lit "k" := lit "w"]> kv_map.
Definition due_options : LsmOptions := mkLsmOptions Always 200 64 10 true Pread 2 1024 10 256 7 FpNone.
Definition lsm_due : LsmStore * World :=
  match open (lit "db") due_options tt lsm_two.2 with
  | Ok st _ w => (st, w)
  | _ => (new_store [] due_options, empty_dir)
  end.

Lemma lsm_two_engine : engine lsm_two.1 lsm_two.2 kw_map.
Proof.
  apply (engine_flush lsm_put2.1 lsm_put2.2); [|vm_compute; constructor|room|returns lsm_two].
  apply (engine_put lsm_flushed.1 lsm_flushed.2 kv_map (lit "k") (lit "w"));
    [exact lsm_flushed_engine|vm_compute; constructor|room|vm_compute; reflexivity|returns lsm_put2].
Qed.

Lemma lsm_due_engine : engine lsm_due.1 lsm_due.2 kw_map.
Proof.
  destruct lsm_two_engine as (_ & c & xs & imm & Hs & Hdb). pose proof (serving_recoverable _ _ _ _ _ Hs) as Hrec. rewrite Hdb in Hrec.
  pose proof (wp_lsm_open (lit "db") due_options tt lsm_two.2 kw_map ltac:(vm_compute; constructor) ltac:(by split)
    ltac:(apply openable_check; vm_compute; reflexivity) Hrec) as Hw.
  assert (Er : returned (open (lit "db") due_options tt lsm_two.2) = true) by (vm_compute; reflexivity).
  unfold lsm_due. unfold wp in Hw. destruct (open (lit "db") due_options tt lsm_two.2) as [st [] w|e u w|w|]; [|discriminate Er..].
  destruct Hw as (_ & _ & c' & Hs' & Hdb' & _ & Hb & _). split; [exact Hb|]. exists c', [], None. split; [exact Hs'|exact Hdb'].
Qed.

Lemma lsm_write_witness :
  wp (write_entry (lit "k") [] true) lsm_put.1 lsm_put.2
    (λ _ st' w', record.fits (lit "k") [] true ∧ engine st' w' (effect (lit "k") [] true kv_map) ∧ st_options st' = st_options lsm_put.1)
    (λ e st' w', engine st' w' kv_map ∧
       (code_ e = InvalidArgument ∧ ¬ record.fits (lit "k") [] true ∨ e = st_background_status st' ∧ is_ok e = false))
    (λ w', recoverable (w_files w') kv_map ∨ recoverable (w_files w') (effect (lit "k") [] true kv_map)).
Proof. apply lsm_write; [exact lsm_put_engine|vm_compute; constructor|room|vm_compute; done]. Defined.

Lemma lsm_flush_witness :
  wp flush lsm_put.1 lsm_put.2
    (λ _ st' w', engine st' w' kv_map ∧
       (st_halted_by_fail_point st' = true ∨ st_mem st' = MemtableOps.empty_table ∧ st_imm st' = None))
    (λ e st' w', engine st' w' kv_map ∧ e = st_background_status st' ∧ is_ok e = false) (λ w', recoverable (w_files w') kv_map).
Proof. apply lsm_flush; [exact lsm_put_engine|vm_compute; constructor|room]. Defined.


Definition chosen_ids (r : result (option Compaction)) : list Z :=
  match r with ROk (Some work) => t_id <$> cw_inputs work | _ => [] end.

Lemma lsm_compaction_witness : ∃ r, pick_compaction lsm_due.1 false = ROk r ∧ chosen_ids (ROk r) = [4; 2] ∧
  ∀ work, r = Some work → wp (compact_once work) lsm_due.1 lsm_due.2
    (λ done st' w', done = true ∧ engine st' w' kw_map)
    (λ e st' w', code_ e = InvalidArgument ∧ engine st' w' kw_map) (λ w', recoverable (w_files w') kw_map).
Proof.
  destruct (lsm_compaction lsm_due.1 lsm_due.2 kw_map false) as (r & E & Hr);
    [exact lsm_due_engine|vm_compute; constructor|room|].
  exists r. split; [exact E|]. split; [rewrite <-E; vm_compute; reflexivity|exact Hr].
Defined.

(** ** A session

    An executable form of the session machine: what happens next, with the outcomes of
    its system calls. *)

Inductive action : Type :=
| ACall (r : request)
| ARound
| AOpen
| AStop.

Definition act (a : action) (evs : list event) (s : machine) : label * machine :=
  match a, s with
  | ACall r, Up c fs => after_call r (execute r c (mkWorld fs evs [7; 8; 9]))
  | ARound, Up c fs => after_round (on_store background_round c (mkWorld fs evs [7; 8; 9]))
  | AOpen, Down fs => after_open (open (lit "db") lsm_options tt (mkWorld fs evs [7; 8; 9]))
  | AStop, Up c fs => (Stopped, Down fs)
  | _, _ => (Undefined, Broken)
  end.

Definition room_b (st : LsmStore) (fs : gmap bytes file) : bool :=
  (2 * dir_bytes fs <=? kTotalLimit) &&
  (st_next_id st + kCallRounds * (kRoundSteps * (2 * dir_bytes fs / target (st_options st) + 1)) + 2 <=? UINT32_MAX).

Definition legal (a : action) (s : machine) : bool :=
  match a, s with
  | ACall r, Up c fs => room_b (cl_store c) fs &&
      match r with
      | RPut k v => sz k + sz v <=? UINT64_MAX
      | RRemove k => sz k <=? UINT64_MAX
      | RNext i | RClose i => (i <? length (cl_cursors c))%nat
      | _ => true
      end
  | ARound, Up c fs => room_b (cl_store c) fs
  | AOpen, Down fs =>
      (from_option (λ f, sz (f_data f)) 0 (fs !! kManifestName) <=? manifest.kMaxManifestSize) &&
      (2 * dir_bytes fs <=? kTotalLimit) && (stored_next_id fs + 3 <=? UINT32_MAX) &&
      forallb (λ kv, log_id_low kv.1) (map_to_list fs)
  | AStop, Up _ _ => true
  | _, _ => false
  end.

Definition no_fault (e : event) : bool := match e with EvFail | EvShort 0 => false | _ => true end.

Lemma no_fault_reliable fs evs ts : forallb no_fault evs = true → reliable (mkWorld fs evs ts).
Proof.
  intros Hall. unfold reliable. cbn. rewrite forallb_forall in Hall. apply Forall_forall. intros e He.
  apply list_elem_of_In, Hall in He. by destruct e as [| |[]|].
Qed.

Lemma legal_step a evs s : legal a s && forallb no_fault evs = true → step s (act a evs s).1 (act a evs s).2.
Proof.
  intros [Hl He]%andb_true_iff. apply (no_fault_reliable (match s with Up _ fs | Down fs => fs | Broken => ∅ end) evs [7; 8; 9]) in He.
  destruct a as [r| | |], s as [c fs|fs|]; try done; cbn [legal act] in *.
  - apply andb_true_iff in Hl as [Hroom Hr]. apply (step_call c (mkWorld fs evs [7; 8; 9]) r); [done|].
    split; [by apply room_check|]. destruct r; try done; try (by apply Z.leb_le); by apply Nat.ltb_lt.
  - apply (step_round c (mkWorld fs evs [7; 8; 9])); [done|by apply room_check].
  - rewrite !andb_true_iff in Hl. destruct Hl as [[[H1 H2] H3] H4].
    apply (step_open (mkWorld fs evs [7; 8; 9])); [done|exact lsm_options_sane|by apply openable_check].
  - constructor.
Qed.

Fixpoint play (acts : list (action * list event)) (s : machine) : list label * machine :=
  match acts with
  | [] => ([], s)
  | (a, evs) :: acts => let r := act a evs s in let p := play acts r.2 in (r.1 :: p.1, p.2)
  end.

Fixpoint legal_all (acts : list (action * list event)) (s : machine) : bool :=
  match acts with
  | [] => true
  | (a, evs) :: acts => legal a s && forallb no_fault evs && legal_all acts (act a evs s).2
  end.

Lemma play_run acts : ∀ s, legal_all acts s = true → run step s (play acts s).1 (play acts s).2.
Proof.
  induction acts as [|[a evs] acts IH]; intros s; cbn [legal_all play]; [intros; constructor|].
  intros [Hl Hall]%andb_true_iff. apply (run_cons _ _ _ (act a evs s).2); [by apply legal_step|by apply IH].
Qed.

(** Open; put and flush; open a cursor and overwrite the key under it; die in the middle
    of writing a record; open again and read. *)
Definition lsm_acts : list (action * list event) :=
  [(AOpen, []); (ACall (RPut (lit "k") (lit "v")), []); (ACall RFlush, []); (ACall (RScan [] []), []);
   (ACall (RPut (lit "k") (lit "w")), []); (ACall RFlush, []); (ACall (RPut (lit "a") (lit "x")), []); (ACall RFlush, []);
   (ARound, []); (ACall (RNext 0), []); (ACall (RNext 0), []); (ACall (RGet (lit "k")), []); (ACall (RPut [] (lit "x")), []);
   (ACall (RClose 0), []); (ACall (RRemove (lit "a")), []); (ACall (RPut (lit "b") (lit "y")), [EvShort 9; EvCrash]); (AOpen, []);
   (ACall (RGet (lit "k")), []); (ACall (RGet (lit "a")), []); (ACall (RGet (lit "b")), [])].

Definition lsm_session : list label :=
  [Started; Returned (RPut (lit "k") (lit "v")) Nothing; Returned RFlush Nothing; Returned (RScan [] []) Nothing;
   Returned (RPut (lit "k") (lit "w")) Nothing; Returned RFlush Nothing; Returned (RPut (lit "a") (lit "x")) Nothing;
   Returned RFlush Nothing; Worked; Returned (RNext 0) (Row (Some (lit "k", lit "v"))); Returned (RNext 0) (Row None);
   Returned (RGet (lit "k")) (Value (lit "w")); Refused (RPut [] (lit "x")) InvalidArgument; Returned (RClose 0) Nothing;
   Returned (RRemove (lit "a")) Nothing; DiedIn (RPut (lit "b") (lit "y")); Started;
   Returned (RGet (lit "k")) (Value (lit "w")); Refused (RGet (lit "a")) NotFound; Refused (RGet (lit "b")) NotFound].

Lemma lsm_session_run : run step (Down ∅) lsm_session (play lsm_acts (Down ∅)).2.
Proof.
  assert (E : lsm_session = (play lsm_acts (Down ∅)).1) by (vm_compute; reflexivity). rewrite E.
  apply play_run. vm_compute. reflexivity.
Qed.

Lemma lsm_refines_map_witness : ∃ a',
  run spec_step (Off ∅) lsm_session a' ∧ related (play lsm_acts (Down ∅)).2 a'.
Proof. exact (lsm_refines_map ∅ ∅ lsm_session _ empty_dir_recoverable lsm_session_run). Defined.

(** The same with power failures: whenever the engine goes down, at most [n] bytes that were
    not synced are left of each file. *)
Definition dim (n : nat) (s : machine) : machine :=
  match s with Down fs => Down (cut_by n <$> fs) | _ => s end.

Definition always_b (s : machine) : bool :=
  match s with
  | Up c _ => match lo_sync_mode (st_options (cl_store c)) with Always => true | Never => false end
  | Down _ => true
  | Broken => false
  end.

Lemma dim_step n s l s' : step s l s' → always_b s' = true → power_step s l (dim n s').
Proof.
  intros Hs Ha. destruct s' as [c fs|fs|]; [|by apply (power_lost _ _ fs), cut_by_cut|done].
  apply power_on; [done|]. cbn in Ha. by destruct (lo_sync_mode _).
Qed.

Fixpoint dim_play (n : nat) (acts : list (action * list event)) (s : machine) : list label * machine :=
  match acts with
  | [] => ([], s)
  | (a, evs) :: acts => let r := act a evs s in let p := dim_play n acts (dim n r.2) in (r.1 :: p.1, p.2)
  end.

Fixpoint dim_legal (n : nat) (acts : list (action * list event)) (s : machine) : bool :=
  match acts with
  | [] => true
  | (a, evs) :: acts => legal a s && forallb no_fault evs && always_b (act a evs s).2 && dim_legal n acts (dim n (act a evs s).2)
  end.

Lemma dim_play_run n acts : ∀ s, dim_legal n acts s = true → run power_step s (dim_play n acts s).1 (dim_play n acts s).2.
Proof.
  induction acts as [|[a evs] acts IH]; intros s; cbn [dim_legal dim_play]; [intros; constructor|].
  intros [[Hl Ha]%andb_true_iff Hall]%andb_true_iff. apply (run_cons _ _ _ (dim n (act a evs s).2)); [|by apply IH].
  apply dim_step; [by apply legal_step|done].
Qed.

(** Open; put and flush; the power fails in the middle of writing a record, then in the
    middle of writing a table; open again and read. *)
Definition power_acts : list (action * list event) :=
  [(AOpen, []); (ACall (RPut (lit "k") (lit "v")), []); (ACall RFlush, []); (ACall (RPut (lit "a") (lit "x")), []);
   (ACall (RPut (lit "b") (lit "y")), [EvShort 9; EvCrash]); (AOpen, []); (ACall (RPut (lit "c") (lit "z")), []);
   (ACall RFlush, [EvOk; EvOk; EvOk; EvOk; EvOk; EvOk; EvOk; EvOk; EvCrash]); (AOpen, []); (ACall (RGet (lit "k")), []); (ACall (RGet (lit "a")), []);
   (ACall (RGet (lit "b")), []); (ACall (RGet (lit "c")), [])].

Definition power_labels : list label :=
  [Started; Returned (RPut (lit "k") (lit "v")) Nothing; Returned RFlush Nothing; Returned (RPut (lit "a") (lit "x")) Nothing;
   DiedIn (RPut (lit "b") (lit "y")); Started; Returned (RPut (lit "c") (lit "z")) Nothing; DiedIn RFlush; Started;
   Returned (RGet (lit "k")) (Value (lit "v")); Returned (RGet (lit "a")) (Value (lit "x"));
   Refused (RGet (lit "b")) NotFound; Returned (RGet (lit "c")) (Value (lit "z"))].

Lemma power_labels_run : run power_step (Down ∅) power_labels (dim_play 4 power_acts (Down ∅)).2.
Proof.
  assert (E : power_labels = (dim_play 4 power_acts (Down ∅)).1) by (vm_compute; reflexivity). rewrite E.
  apply dim_play_run. vm_compute. reflexivity.
Qed.

Lemma lsm_survives_power_witness : ∃ a',
  run spec_step (Off ∅) power_labels a' ∧ related (dim_play 4 power_acts (Down ∅)).2 a'.
Proof. apply (lsm_survives_power ∅ ∅ power_labels _ empty_dir_recoverable); [by intros name f _ Hf|exact power_labels_run]. Defined.

(** ** A compaction with nothing to do

    [compact()] asks the background thread for a compaction.  When there is nothing to
    merge the round makes no progress, which the loop takes for a fail point: it halts,
    without an error. *)


