(* ===== verification/Bitcask.v ===== *)
(** The Bitcask engine: [include/kvstore/bitcask.hpp], [src/bitcask.cpp],
    [include/kvstore/index.hpp].

    The members of [Bitcask] are a record; its methods are computations over it.
    [std::map::at] on a missing key is [stuck].  The compaction lives in its own
    file. *)

From S2P Require Import Prelude Status FileNames World Encoding Record Hint LogFile LogScan.

(** * The index: [include/kvstore/index.hpp] *)

Record ValuePointer : Type := mkPointer {
  vp_offset : Z; vp_timestamp : Z; vp_file_id : Z; vp_size : Z }.

Abbreviation Index := (gmap bytes ValuePointer).

Module IndexOps.

(** [Index::put]: the new map and the displaced entry. *)
Definition put (key : bytes) (pointer : ValuePointer) (map_ : Index) : Index * option ValuePointer :=
  match map_ !! key with
  | None => (<[key := pointer]> map_, None)
  | Some displaced => (<[key := pointer]> map_, Some displaced)
  end.

(** [Index::get]. *)
Definition get (key : bytes) (map_ : Index) : option ValuePointer := map_ !! key.

(** [Index::erase]: the new map and the removed entry. *)
Definition erase (key : bytes) (map_ : Index) : Index * option ValuePointer :=
  match map_ !! key with
  | None => (map_, None)
  | Some removed => (delete key map_, Some removed)
  end.

End IndexOps.

(** * State *)

Inductive CompactionFailPoint : Type :=
| FailNone | AfterWritingTemp | AfterInstallingOutput | MidInputDelete.

Record BitcaskOptions : Type := mkOptions {
  opt_sync_mode : SyncMode;
  max_file_size : Z;
  ignore_hints : bool;
  fail_at : CompactionFailPoint;
}.

Record Bitcask : Type := mkBitcask {
  dir_ : bytes;
  options_ : BitcaskOptions;
  files_ : gmap Z LogFile;
  active_id_ : Z;
  index_ : Index;
  dead_bytes_ : gmap Z Z;
}.

Definition set_log_files (x : gmap Z LogFile) (b : Bitcask) : Bitcask :=
  mkBitcask (dir_ b) (options_ b) x (active_id_ b) (index_ b) (dead_bytes_ b).
Definition set_active (x : Z) (b : Bitcask) : Bitcask :=
  mkBitcask (dir_ b) (options_ b) (files_ b) x (index_ b) (dead_bytes_ b).
Definition set_index (x : Index) (b : Bitcask) : Bitcask :=
  mkBitcask (dir_ b) (options_ b) (files_ b) (active_id_ b) x (dead_bytes_ b).
Definition set_dead (x : gmap Z Z) (b : Bitcask) : Bitcask :=
  mkBitcask (dir_ b) (options_ b) (files_ b) (active_id_ b) (index_ b) x.

(** The constructor. *)
Definition new_bitcask (directory : bytes) (options : BitcaskOptions) : Bitcask :=
  mkBitcask directory options ∅ 0 ∅ ∅.

Module BitcaskOps.
Section BitcaskOps.
Context `{Platform}.

(** A method of [files_.at(id)]. *)
Definition on_file {A : Type} (id : Z) (m : M LogFile A) : M Bitcask A :=
  b ← get;
  match files_ b !! id with
  | None => stuck
  | Some l => zoom (λ _, l) (λ l' b, set_log_files (<[id := l']> (files_ b)) b) m
  end.

(** [active_file()]. *)
Definition active_file : M Bitcask LogFile :=
  b ← get; match files_ b !! active_id_ b with None => stuck | Some l => mret l end.

Definition on_active {A : Type} (m : M LogFile A) : M Bitcask A :=
  b ← get; on_file (active_id_ b) m.

(** [files_.try_emplace(id, file)]. *)
Definition emplace_file (id : Z) (l : LogFile) : M Bitcask unit :=
  modify (λ b, match files_ b !! id with
               | Some _ => b
               | None => set_log_files (<[id := l]> (files_ b)) b
               end).

(** [mark_dead]. *)
Definition mark_dead (id size : Z) : M Bitcask unit :=
  modify (λ b, set_dead (<[id := u64 (default 0 (dead_bytes_ b !! id) + size)]> (dead_bytes_ b)) b).

(** [if (const auto p = index_.put(...)) mark_dead(p->file_id, p->size);] *)
Definition index_put_dead (key : bytes) (pointer : ValuePointer) : M Bitcask unit :=
  b ← get;
  let '(index', displaced) := IndexOps.put key pointer (index_ b) in
  modify (set_index index');;
  match displaced with
  | Some p => mark_dead (vp_file_id p) (vp_size p)
  | None => mret tt
  end.

(** [if (const auto p = index_.erase(key)) mark_dead(p->file_id, p->size);] *)
Definition index_erase_dead (key : bytes) : M Bitcask unit :=
  b ← get;
  let '(index', removed) := IndexOps.erase key (index_ b) in
  modify (set_index index');;
  match removed with
  | Some p => mark_dead (vp_file_id p) (vp_size p)
  | None => mret tt
  end.

(** [check_record_fits]. *)
Definition check_record_fits (key value : bytes) : result unit :=
  let payload := u64 (sz key + sz value) in
  fail_if (record.kMaxRecordSize - record.kHeaderSize <? payload)
    (invalid_argument (lit "record exceeds the maximum record size")).

(** [Bitcask::sync_dir]. *)
Definition sync_dir : M Bitcask unit :=
  rc ← platform.sync_directory;
  b ← get;
  if negb (rc =? 0)
  then fail (io_error (lit "fsync directory " ++ dir_ b ++ lit ": " ++ os_error_text))
  else mret tt.

(** * Recovery *)

(** The body of the loop of [Bitcask::sweep_temp_files]: whether a file was removed. *)
Fixpoint sweep_loop (names : list bytes) (removed_any : bool) : M Bitcask bool :=
  match names with
  | [] => mret removed_any
  | name :: names =>
      if negb (is_temp_name name) then sweep_loop names removed_any
      else
        ec ← platform.remove name;
        if (ec : bool) then fail (io_error (lit "remove " ++ name ++ lit ": " ++ os_error_text))
        else sweep_loop names true
  end.

(** [Bitcask::sweep_temp_files]. *)
Definition sweep_temp_files : M Bitcask unit :=
  b ← get;
  names ← platform.list_directory;
  match names with
  | None => fail (io_error (lit "scan directory " ++ dir_ b ++ lit ": " ++ os_error_text))
  | Some names =>
      removed_any ← sweep_loop names false;
      if (removed_any : bool) then sync_dir else mret tt
  end.

(** The visitor of [Bitcask::replay_file]. *)
Definition replay_visit (id : Z) (offset : Z) (rec : record.Record_) (_ : bytes) : M Bitcask unit :=
  if record.r_is_tombstone rec then
    index_erase_dead (record.r_key rec);;
    mark_dead id (record.r_total_size rec)
  else
    index_put_dead (record.r_key rec)
      (mkPointer offset (record.r_timestamp rec) id (record.r_total_size rec)).

(** [Bitcask::replay_file]. *)
Definition replay_file (id : Z) (is_active : bool) : M Bitcask unit :=
  b ← get;
  match files_ b !! id with
  | None => stuck
  | Some file =>
      good_end ← scan_records file (replay_visit id);
      if good_end =? end_offset_ file then mret tt
      else if negb is_active then
        fail (corruption (lit "sealed data file " ++ lf_path file ++
          lit " fails to verify at offset " ++ std_to_string good_end ++
          lit "; it was written and fsynced in full, so this is damage, not a torn write"))
      else on_file id (LogFileOps.truncate good_end)
  end.

(** The entry loop of [Bitcask::replay_hint]: [None] is [return false]. *)
Fixpoint hint_loop (fuel : nat) (hint_file : LogFile) (data_size entries_end offset : Z)
    (entries : list hint.Entry) : M Bitcask (option (Z * list hint.Entry)) :=
  match fuel with
  | O => stuck
  | S fuel =>
      if offset <? entries_end then
        if entries_end <? u64 (offset + hint.kEntryHeaderSize) then mret None
        else
          header_bytes ← attempt (with_local hint_file (LogFileOps.read_at offset hint.kEntryHeaderSize));
          match header_bytes with
          | inr _ => mret None
          | inl (header_bytes, _) =>
              key_size ← liftR (encoding.get_u32 header_bytes 24);
              let total := u64 (hint.kEntryHeaderSize + key_size) in
              if entries_end <? u64 (offset + total) then mret None
              else
                entry_bytes ← attempt (with_local hint_file (LogFileOps.read_at offset (u32 total)));
                match entry_bytes with
                | inr _ => mret None
                | inl (entry_bytes, _) =>
                    entry ← attempt (liftR (hint.decode_entry entry_bytes));
                    match entry with
                    | inr _ => mret None
                    | inl entry =>
                        if data_size <? u64 (hint.e_record_offset entry + hint.e_record_size entry)
                        then mret None
                        else hint_loop fuel hint_file data_size entries_end (u64 (offset + total))
                               (entries ++ [entry])
                    end
                end
          end
      else mret (Some (offset, entries))
  end.

(** The loop at the end of [Bitcask::replay_hint]. *)
Fixpoint apply_hint (id : Z) (entries : list hint.Entry) : M Bitcask unit :=
  match entries with
  | [] => mret tt
  | entry :: entries =>
      index_put_dead (hint.e_key entry)
        (mkPointer (hint.e_record_offset entry) (hint.e_timestamp entry) id (hint.e_record_size entry));;
      apply_hint id entries
  end.

(** [Bitcask::replay_hint]. *)
Definition replay_hint (id : Z) (data_file : LogFile) : M Bitcask bool :=
  let path := hint_file_name id in
  exists_ ← platform.exists_ path;
  if negb exists_ then mret false
  else
    hint_file ← attempt (LogFileOps.open path Never);
    match hint_file with
    | inr _ => mret false
    | inl hint_file =>
        let size := end_offset_ hint_file in
        if size <? hint.kFooterSize then mret false
        else
          let entries_end := size - hint.kFooterSize in
          footer_bytes ← attempt (with_local hint_file (LogFileOps.read_at entries_end hint.kFooterSize));
          match footer_bytes with
          | inr _ => mret false
          | inl (footer_bytes, _) =>
              footer ← attempt (liftR (hint.decode_footer footer_bytes));
              match footer with
              | inr _ => mret false
              | inl footer =>
                  if negb (hint.f_data_file_size footer =? end_offset_ data_file) then mret false
                  else if entries_end / hint.kEntryHeaderSize <? hint.f_entry_count footer
                  then mret false
                  else
                    r ← hint_loop (S (Z.to_nat entries_end)) hint_file (end_offset_ data_file)
                          entries_end 0 [];
                    match r with
                    | None => mret false
                    | Some (offset, entries) =>
                        if negb (offset =? entries_end) ||
                           negb (sz entries =? hint.f_entry_count footer)
                        then mret false
                        else apply_hint id entries;; mret true
                    end
              end
          end
    end.

(** The directory scan of [Bitcask::recover]: the data files and the hint files. *)
Fixpoint classify (names : list bytes) (ids hint_ids : list Z) : list Z * list Z :=
  match names with
  | [] => (ids, hint_ids)
  | name :: names =>
      match parse_log_file_id name with
      | Some id => classify names (ids ++ [id]) hint_ids
      | None =>
          match parse_hint_file_id name with
          | Some hint_id => classify names ids (hint_ids ++ [hint_id])
          | None => classify names ids hint_ids
          end
      end
  end.

(** The removal of hints without a data file; errors are ignored. *)
Fixpoint remove_orphan_hints (ids hint_ids : list Z) : M Bitcask unit :=
  match hint_ids with
  | [] => mret tt
  | hint_id :: hint_ids =>
      (if negb (binary_search ids hint_id)
       then _ ← platform.remove (hint_file_name hint_id); mret tt
       else mret tt);;
      remove_orphan_hints ids hint_ids
  end.

(** The replay loop of [Bitcask::recover]; the last id is the active file. *)
Fixpoint recover_loop (ids : list Z) : M Bitcask unit :=
  match ids with
  | [] => mret tt
  | id :: rest =>
      b ← get;
      file ← LogFileOps.open (log_file_name id) (opt_sync_mode (options_ b));
      emplace_file id file;;
      let is_active := match rest with [] => true | _ => false end in
      used_hint ← (if negb is_active && negb (ignore_hints (options_ b)) then
                     b ← get;
                     match files_ b !! id with
                     | None => stuck
                     | Some data_file => replay_hint id data_file
                     end
                   else mret false);
      (if (used_hint : bool) then mret tt else replay_file id is_active);;
      recover_loop rest
  end.

(** [Bitcask::recover]. *)
Definition recover : M Bitcask unit :=
  sweep_temp_files;;
  b ← get;
  names ← platform.list_directory;
  match names with
  | None => fail (io_error (lit "scan directory " ++ dir_ b ++ lit ": " ++ os_error_text))
  | Some names =>
      let '(ids, hint_ids) := classify names [] [] in
      let ids := std_sort ids in
      remove_orphan_hints ids hint_ids;;
      let ids := match ids with [] => [kFirstFileId] | _ => ids end in
      recover_loop ids;;
      match last ids with None => stuck | Some id => modify (set_active id) end
  end.

(** [Bitcask::open]. *)
Definition open (directory : bytes) (options : BitcaskOptions) : M unit Bitcask :=
  e ← next_event;
  match e with
  | EvFail => fail (io_error (lit "create directory " ++ directory ++ lit ": " ++ os_error_text))
  | _ =>
      r ← with_local (new_bitcask directory options) recover;
      mret r.2
  end.

(** * Rotation *)

(** [Bitcask::rotate]. *)
Definition rotate : M Bitcask unit :=
  on_active LogFileOps.sync;;
  b ← get;
  if active_id_ b =? UINT32_MAX then fail (io_error (lit "file ids exhausted"))
  else
    let next_id := active_id_ b + 1 in
    file ← LogFileOps.open (log_file_name next_id) (opt_sync_mode (options_ b));
    emplace_file next_id file;;
    modify (set_active next_id);;
    sync_dir.

(** [Bitcask::rotate_if_needed]. *)
Definition rotate_if_needed (incoming_bytes : Z) : M Bitcask unit :=
  file ← active_file;
  b ← get;
  let current := end_offset_ file in
  if current =? 0 then mret tt
  else if u64 (current + incoming_bytes) <=? max_file_size (options_ b) then mret tt
  else rotate.

(** * The KVStore contract *)

(** [Bitcask::put]. *)
Definition put (key value : bytes) : M Bitcask unit :=
  match key with
  | [] => fail (invalid_argument (lit "key must not be empty"))
  | _ =>
      liftR (check_record_fits key value);;
      timestamp ← now_nanos;
      let bs := record.encode key value timestamp false in
      rotate_if_needed (sz bs);;
      offset ← on_active (LogFileOps.append bs);
      b ← get;
      index_put_dead key (mkPointer offset timestamp (active_id_ b) (u32 (sz bs)))
  end.

(** [Bitcask::get]; the caller's out-parameter is the returned value. *)
Definition get (key : bytes) : M Bitcask bytes :=
  b ← World.get;
  match IndexOps.get key (index_ b) with
  | None => fail (not_found (lit "no such key: " ++ key))
  | Some pointer =>
      match files_ b !! vp_file_id pointer with
      | None => fail (corruption (lit "index points at file " ++
                        std_to_string (vp_file_id pointer) ++ lit ", which is not open"))
      | Some _ =>
          bs ← on_file (vp_file_id pointer) (LogFileOps.read_at (vp_offset pointer) (vp_size pointer));
          rec ← liftR (record.decode bs);
          if negb (key_eqb (record.r_key rec) key)
          then fail (corruption (lit "index points at a record for a different key"))
          else if record.r_is_tombstone rec
          then fail (corruption (lit "index points at a tombstone"))
          else mret (record.r_value rec)
      end
  end.

(** [Bitcask::remove]. *)
Definition remove (key : bytes) : M Bitcask unit :=
  match key with
  | [] => fail (invalid_argument (lit "key must not be empty"))
  | _ =>
      liftR (check_record_fits key []);;
      timestamp ← now_nanos;
      let bs := record.encode key [] timestamp true in
      rotate_if_needed (sz bs);;
      offset ← on_active (LogFileOps.append bs);
      index_erase_dead key;;
      b ← World.get;
      mark_dead (active_id_ b) (u32 (sz bs))
  end.

(** [Bitcask::sync]. *)
Definition sync : M Bitcask unit := on_active LogFileOps.sync.

(** [Bitcask::total_disk_size], [Bitcask::reclaimable_bytes], [Bitcask::key_count]. *)
Definition total_disk_size (b : Bitcask) : Z :=
  foldr (λ '(_, file) total, u64 (total + end_offset_ file)) 0 (map_to_list (files_ b)).
Definition reclaimable_bytes (b : Bitcask) : Z :=
  foldr (λ '(_, bytes_) total, u64 (total + bytes_)) 0 (map_to_list (dead_bytes_ b)).
Definition key_count (b : Bitcask) : Z := Z.of_nat (size (index_ b)).

End BitcaskOps.
End BitcaskOps.
