(* ===== verification/BitcaskCompact.v ===== *)
(** Compaction of a Bitcask database: [Bitcask::compact] of [src/compaction.cpp].

    The locals of the merge (the two temporary files, the entry count and the
    staged pointers, captured by reference in the visitor) are the record [Merge];
    the visitor and the loop over the inputs are computations over it. *)

From S2P Require Import Prelude Status FileNames World Encoding Record Hint LogFile LogScan Bitcask.
Import record BitcaskOps.

Record Merge : Type := mkMerge {
  mg_temp : LogFile;
  mg_hint_temp : LogFile;
  mg_hint_entries : Z;
  mg_staged : Index;
}.

Definition set_temp (x : LogFile) (g : Merge) : Merge :=
  mkMerge x (mg_hint_temp g) (mg_hint_entries g) (mg_staged g).
Definition set_hint_temp (x : LogFile) (g : Merge) : Merge :=
  mkMerge (mg_temp g) x (mg_hint_entries g) (mg_staged g).
Definition stage (key : bytes) (p : ValuePointer) (g : Merge) : Merge :=
  mkMerge (mg_temp g) (mg_hint_temp g) (u64 (mg_hint_entries g + 1)) (<[key := p]> (mg_staged g)).

Module CompactOps.
Section CompactOps.
Context `{Platform}.

Definition on_temp {A : Type} (m : M LogFile A) : M Merge A := zoom mg_temp set_temp m.
Definition on_hint_temp {A : Type} (m : M LogFile A) : M Merge A := zoom mg_hint_temp set_hint_temp m.

(** Whether the index points at exactly this record. *)
Definition is_live (index : Index) (id offset : Z) (key : bytes) : bool :=
  match IndexOps.get key index with
  | None => false
  | Some live => (vp_file_id live =? id) && (vp_offset live =? offset)
  end.

(** The visitor of the merge. *)
Definition merge_visit (index : Index) (out_id id : Z) (offset : Z) (rec : Record_) (raw : bytes) :
    M Merge unit :=
  if r_is_tombstone rec then mret tt
  else if negb (is_live index id offset (r_key rec)) then mret tt
  else
    new_offset ← on_temp (LogFileOps.append raw);
    let bs := hint.encode_entry (r_key rec) (r_timestamp rec) new_offset (r_total_size rec) in
    _ ← on_hint_temp (LogFileOps.append bs);
    modify (stage (r_key rec) (mkPointer new_offset (r_timestamp rec) out_id (r_total_size rec))).

(** The loop over the inputs. *)
Fixpoint merge_inputs (b : Bitcask) (out_id : Z) (inputs : list Z) : M Merge unit :=
  match inputs with
  | [] => mret tt
  | id :: inputs =>
      match files_ b !! id with
      | None => stuck
      | Some input =>
          good_end ← scan_records input (merge_visit (index_ b) out_id id);
          if negb (good_end =? end_offset_ input)
          then fail (corruption (lit "data file " ++ lf_path input ++ lit " stopped verifying at offset " ++
                       std_to_string good_end ++ lit " during compaction"))
          else merge_inputs b out_id inputs
      end
  end.

(** The end of step 2: the footer, then both temporary files forced to the device and closed. *)
Definition write_merged (b : Bitcask) (out_id : Z) (inputs : list Z) : M Merge unit :=
  merge_inputs b out_id inputs;;
  g ← World.get;
  _ ← on_hint_temp (LogFileOps.append
        (hint.encode_footer (end_offset_ (mg_temp g)) (mg_hint_entries g)));
  on_temp LogFileOps.sync;;
  on_hint_temp LogFileOps.sync;;
  on_temp LogFileOps.close;;
  on_hint_temp LogFileOps.close.

(** Step 2: the merged output and its hint, in temporary files. *)
Definition write_output (b : Bitcask) (out_id : Z) (inputs : list Z) : M Bitcask (unit * Merge) :=
  _ ← platform.remove (temp_name (log_file_name out_id));
  _ ← platform.remove (temp_name (hint_file_name out_id));
  temp ← LogFileOps.open (temp_name (log_file_name out_id)) Never;
  hint_temp ← LogFileOps.open (temp_name (hint_file_name out_id)) Never;
  with_local (mkMerge temp hint_temp 0 ∅) (write_merged b out_id inputs).

(** [files_.erase(id)]. *)
Definition erase_file (id : Z) : M Bitcask unit := modify (λ b, set_log_files (delete id (files_ b)) b).

(** [for (const auto& [key, pointer] : staged) index_.put(key, pointer);] *)
Definition apply_staged (staged : Index) (index : Index) : Index :=
  foldr (λ '(key, pointer) index, (IndexOps.put key pointer index).1) index (map_to_list staged).

Definition erase_dead (inputs : list Z) (dead : gmap Z Z) : gmap Z Z := foldr delete dead inputs.

(** Step 5: the inputs deleted, oldest first. *)
Fixpoint delete_inputs (out_id : Z) (inputs : list Z) : M Bitcask unit :=
  match inputs with
  | [] => sync_dir
  | id :: inputs =>
      if id =? out_id then delete_inputs out_id inputs
      else
        on_file id LogFileOps.close;;
        erase_file id;;
        ec ← platform.remove (log_file_name id);
        if (ec : bool) then fail (io_error (lit "remove " ++ log_file_name id ++ lit ": " ++ os_error_text))
        else
          _ ← platform.remove (hint_file_name id);
          b ← World.get;
          match fail_at (options_ b) with
          | MidInputDelete => sync_dir
          | _ => delete_inputs out_id inputs
          end
  end.

(** Step 4: the merged file adopted, its hint installed. *)
Definition adopt (out_id : Z) (inputs : list Z) (staged : Index) : M Bitcask unit :=
  b ← World.get;
  merged ← LogFileOps.open (log_file_name out_id) (opt_sync_mode (options_ b));
  emplace_file out_id merged;;
  modify (λ b, set_index (apply_staged staged (index_ b)) b);;
  modify (λ b, set_dead (erase_dead inputs (dead_bytes_ b)) b);;
  rc ← platform.rename_file (temp_name (hint_file_name out_id)) (hint_file_name out_id);
  (if negb (rc =? 0)
   then _ ← platform.remove (temp_name (hint_file_name out_id)); mret tt
   else mret tt);;
  sync_dir.

(** Step 3: the output installed over the lowest input id. *)
Definition install (out_id : Z) : M Bitcask unit :=
  _ ← platform.remove (hint_file_name out_id);
  sync_dir;;
  on_file out_id LogFileOps.close;;
  erase_file out_id;;
  rc ← platform.rename_file (temp_name (log_file_name out_id)) (log_file_name out_id);
  if negb (rc =? 0) then
    b ← World.get;
    reopened ← attempt (LogFileOps.open (log_file_name out_id) (opt_sync_mode (options_ b)));
    (match reopened with
     | inl l => emplace_file out_id l
     | inr _ => mret tt
     end);;
    fail (io_error (lit "rename " ++ temp_name (log_file_name out_id) ++ lit " -> " ++
            log_file_name out_id ++ lit ": " ++ os_error_text))
  else sync_dir.

(** The sealed files, in the order of [files_]. *)
Definition sealed (b : Bitcask) : list Z :=
  filter (λ id, id < active_id_ b) (std_sort (map_to_list (files_ b)).*1).

(** [Bitcask::compact]. *)
Definition compact : M Bitcask unit :=
  file ← active_file;
  (if 0 <? end_offset_ file then rotate else mret tt);;
  b ← World.get;
  let inputs := sealed b in
  match inputs with
  | [] => mret tt
  | out_id :: _ =>
      if (sz inputs =? 1) && (default 0 (dead_bytes_ b !! out_id) =? 0) then mret tt
      else
        r ← write_output b out_id inputs;
        match fail_at (options_ b) with
        | AfterWritingTemp => mret tt
        | _ =>
            install out_id;;
            match fail_at (options_ b) with
            | AfterInstallingOutput => mret tt
            | _ =>
                adopt out_id inputs (mg_staged r.2);;
                delete_inputs out_id inputs
            end
        end
  end.

End CompactOps.
End CompactOps.
