(* ===== verification/BitcaskState.v ===== *)
(** What a Bitcask database means, and what a merge keeps of it.

    The history of a database is, per data file in replay order, the writes the file holds.
    From it follow the key-value map a reader must see ([map_of]) and the index recovery
    builds.  The merge copies the records the index points at ([kept_writes]); these are the
    last writes of the keys that are not deleted ([live_writes]). *)

From S2P Require Import Prelude Status FileNames World Wp Encoding Record Hint LogFile LogScan Bitcask BitcaskCompact.
Import record.

#[local] Opaque encode decode decode_header.

Abbreviation history := (list (Z * list write)).

(** * The map and the index of a history *)

(** One write applied to the key-value map. *)
Definition map_step (m : gmap bytes bytes) (x : write) : gmap bytes bytes :=
  if wr_tomb x then delete (wr_key x) m else <[wr_key x := wr_value x]> m.

Definition map_writes (xs : list write) : gmap bytes bytes := foldl map_step ∅ xs.

Definition map_of (hs : history) : gmap bytes bytes := map_writes (concat hs.*2).

Section State.
Context `{Platform}.

(** One scanned record applied to the index. *)
Definition index_step (id : Z) (idx : Index) (e : Z * Record_ * bytes) : Index :=
  let '(off, r, _) := e in
  if r_is_tombstone r then delete (r_key r) idx
  else <[r_key r := mkPointer off (r_timestamp r) id (r_total_size r)]> idx.

Definition index_file (idx : Index) (hf : Z * list write) : Index :=
  foldl (index_step hf.1) idx (entries_from 0 hf.2).

Definition index_of (hs : history) : Index := foldl index_file ∅ hs.

(** ** Writes with their positions *)

(** A write, its file, and the writes before it in that file. *)
Record placed : Type := mkPlaced { pl_id : Z; pl_before : list write; pl_write : write }.

Definition pointer_of (p : placed) : ValuePointer :=
  mkPointer (sz (log_of (pl_before p))) (wr_ts (pl_write p)) (pl_id p)
    (r_total_size (rec_of (pl_write p))).

Definition placed_step (idx : Index) (p : placed) : Index :=
  let x := pl_write p in
  if wr_tomb x then delete (wr_key x) idx else <[wr_key x := pointer_of p]> idx.

Fixpoint place (id : Z) (before xs : list write) : list placed :=
  match xs with
  | [] => []
  | x :: xs => mkPlaced id before x :: place id (before ++ [x]) xs
  end.

Definition placement (hs : history) : list placed := concat ((λ hf, place hf.1 [] hf.2) <$> hs).

Lemma place_writes id before xs : pl_write <$> place id before xs = xs.
Proof. revert before. induction xs as [|x xs IH]; intros before; simpl; [done|]. by rewrite IH. Qed.

Lemma placement_cons hf hs : placement (hf :: hs) = place hf.1 [] hf.2 ++ placement hs.
Proof. done. Qed.

Lemma placement_writes hs : pl_write <$> placement hs = concat hs.*2.
Proof.
  induction hs as [|[id xs] hs IH]; [done|].
  rewrite placement_cons, fmap_app, place_writes, IH. done.
Qed.

Lemma index_entries id before xs idx :
  foldl (index_step id) idx (entries_from (sz (log_of before)) xs) =
  foldl placed_step idx (place id before xs).
Proof.
  revert before idx. induction xs as [|x xs IH]; intros before idx; simpl; [done|].
  rewrite <-IH, log_of_snoc, sz_app. done.
Qed.

Lemma index_of_placement hs : index_of hs = foldl placed_step ∅ (placement hs).
Proof.
  unfold index_of. generalize (∅ : Index).
  induction hs as [|[id xs] hs IH]; intros idx; [done|].
  rewrite placement_cons, foldl_app, <-IH. cbn [foldl]. f_equal. unfold index_file. simpl.
  change 0 with (sz (log_of [])). by rewrite index_entries.
Qed.

Lemma place_split id before xs p : p ∈ place id before xs →
  pl_id p = id ∧ ∃ xs1 xs2, xs = xs1 ++ pl_write p :: xs2 ∧ pl_before p = before ++ xs1.
Proof.
  revert before. induction xs as [|x xs IH]; intros before; simpl; [by intros ?%elem_of_nil|].
  rewrite elem_of_cons. intros [-> |Hp].
  - split; [done|]. exists [], xs. by rewrite app_nil_r.
  - apply IH in Hp as (-> & xs1 & xs2 & -> & ->). split; [done|].
    exists (x :: xs1), xs2. by rewrite <-app_assoc.
Qed.

(** A placed write lies in its file where its position says. *)
Lemma placement_split hs p : p ∈ placement hs →
  ∃ xs2, (pl_id p, pl_before p ++ pl_write p :: xs2) ∈ hs.
Proof.
  induction hs as [|[id xs] hs IH]; [by intros ?%elem_of_nil|].
  rewrite placement_cons, elem_of_app. intros [Hp|[xs2 Hp]%IH].
  - apply place_split in Hp as (-> & xs1 & xs2 & Hxs & ->). simpl in *. subst.
    exists xs2. by left.
  - exists xs2. by right.
Qed.

(** The index points at the live writes of the map, and at nothing else. *)
Lemma index_map_agree (ps : list placed) k :
  match foldl placed_step ∅ ps !! k with
  | None => map_writes (pl_write <$> ps) !! k = None
  | Some p => ∃ q, q ∈ ps ∧ p = pointer_of q ∧ wr_key (pl_write q) = k ∧
      wr_tomb (pl_write q) = false ∧
      map_writes (pl_write <$> ps) !! k = Some (wr_value (pl_write q))
  end.
Proof.
  unfold map_writes. induction ps as [|p ps IH] using rev_ind; [done|].
  rewrite fmap_app, !foldl_app. set (m := foldl map_step _ _) in *.
  set (idx := foldl placed_step _ _) in *. cbn [fmap list_fmap foldl]. unfold placed_step, map_step.
  destruct (decide (wr_key (pl_write p) = k)) as [<-|Hne].
  - destruct (wr_tomb (pl_write p)) eqn:Ht.
    + by rewrite !lookup_delete_eq.
    + rewrite !lookup_insert_eq. exists p. split_and!; auto. apply elem_of_app. right. by left.
  - destruct (wr_tomb (pl_write p)) eqn:Ht.
    + rewrite !lookup_delete_ne by done. destruct (_ !! k); [|done].
      destruct IH as (q & Hq & IH). exists q. split; [|done]. apply elem_of_app. by left.
    + rewrite !lookup_insert_ne by done. destruct (_ !! k); [|done].
      destruct IH as (q & Hq & IH). exists q. split; [|done]. apply elem_of_app. by left.
Qed.

End State.

(** * What a merge keeps of a history *)

Import record CompactOps.

#[local] Opaque encode decode decode_header.

(** ** The last element with a key *)

Fixpoint last_by {A : Type} (key : A → bytes) (k : bytes) (l : list A) : option A :=
  match l with
  | [] => None
  | x :: l => match last_by key k l with
              | Some y => Some y
              | None => if decide (key x = k) then Some x else None
              end
  end.

Section last_by.
Context {A : Type} (key : A → bytes) (k : bytes).

Lemma last_by_Some l x : last_by key k l = Some x → x ∈ l ∧ key x = k.
Proof.
  induction l as [|y l IH]; [done|]. simpl. destruct (last_by key k l) as [z|].
  - intros [= ->]. destruct IH; [done|]. split; [by right|done].
  - case_decide; [|done]. intros [= ->]. split; [by left|done].
Qed.

Lemma last_by_None l : last_by key k l = None ↔ k ∉ key <$> l.
Proof.
  induction l as [|y l IH]; simpl.
  - split; [intros _; apply not_elem_of_nil|done].
  - rewrite not_elem_of_cons. destruct (last_by key k l) as [z|].
    + split; [done|]. intros [_ ?]. by apply IH.
    + case_decide as E; [by split; [|intros [? _]]|]. split; [|done]. intros _. split; [congruence|by apply IH].
Qed.

Lemma last_by_app l1 l2 : last_by key k (l1 ++ l2) =
  match last_by key k l2 with Some y => Some y | None => last_by key k l1 end.
Proof.
  induction l1 as [|x l1 IH]; simpl; [by destruct (last_by key k l2)|]. rewrite IH.
  by destruct (last_by key k l2).
Qed.

End last_by.

(** ** Replaying writes *)

Lemma map_steps_lookup m xs k : foldl map_step m xs !! k =
  match last_by wr_key k xs with
  | Some x => if wr_tomb x then None else Some (wr_value x)
  | None => m !! k
  end.
Proof.
  revert m. induction xs as [|x xs IH]; intros m; [done|]. simpl. rewrite IH.
  destruct (last_by wr_key k xs); [done|]. unfold map_step. case_decide as E.
  - subst k. destruct (wr_tomb x); [by rewrite lookup_delete_eq|by rewrite lookup_insert_eq].
  - destruct (wr_tomb x); [by rewrite lookup_delete_ne|by rewrite lookup_insert_ne].
Qed.

(** Replaying the end of a history once more changes nothing. *)
Lemma replay_again m pre sfx :
  foldl map_step (foldl map_step m (pre ++ sfx)) sfx = foldl map_step m (pre ++ sfx).
Proof.
  apply map_eq. intros k. rewrite map_steps_lookup. destruct (last_by wr_key k sfx) as [x|] eqn:E; [|done].
  by rewrite map_steps_lookup, last_by_app, E.
Qed.

(** The last write of each key that is not a delete. *)
Fixpoint live_writes (xs : list write) : list write :=
  match xs with
  | [] => []
  | x :: xs =>
      if wr_tomb x || bool_decide (wr_key x ∈ wr_key <$> xs) then live_writes xs
      else x :: live_writes xs
  end.

Lemma live_writes_last xs k : last_by wr_key k (live_writes xs) =
  match last_by wr_key k xs with Some x => if wr_tomb x then None else Some x | None => None end.
Proof.
  induction xs as [|x xs IH]; [done|]. simpl.
  destruct (wr_tomb x) eqn:Ht; simpl.
  { rewrite IH. destruct (last_by wr_key k xs); [done|]. case_decide; [by rewrite Ht|done]. }
  case_bool_decide as Hin; simpl; rewrite ?IH.
  - destruct (last_by wr_key k xs) eqn:E; [done|]. apply last_by_None in E.
    case_decide; [by subst|done].
  - destruct (last_by wr_key k xs) as [y|] eqn:E.
    + destruct (wr_tomb y); [|done]. case_decide as Ek; [|done]. exfalso. apply Hin.
      apply last_by_Some in E as [Hy <-]. rewrite Ek. by apply list_elem_of_fmap_2.
    + by case_decide; rewrite ?Ht.
Qed.

Lemma live_writes_tomb xs : Forall (λ x, wr_tomb x = false) (live_writes xs).
Proof.
  induction xs as [|x xs IH]; simpl; [constructor|]. destruct (wr_tomb x) eqn:E; simpl; [done|].
  case_bool_decide; [done|]. by constructor.
Qed.

Lemma live_writes_sub P xs : Forall P xs → Forall P (live_writes xs).
Proof.
  induction 1 as [|x xs Hx Hxs IH]; simpl; [constructor|]. destruct (_ || _); [done|]. by constructor.
Qed.

Lemma map_live_writes xs : map_writes (live_writes xs) = map_writes xs.
Proof.
  apply map_eq. intros k. unfold map_writes. rewrite !map_steps_lookup, live_writes_last.
  pose proof (live_writes_tomb xs) as Ht. rewrite Forall_forall in Ht.
  destruct (last_by wr_key k xs) as [x|]; [|done]. destruct (wr_tomb x) eqn:E; [done|]. by rewrite E.
Qed.

(** The replay invariant: the live writes as a base layer, under any suffix of the
    history, rebuild the map. *)
Lemma map_of_merged out hs1 hs2 :
  map_of ((out, live_writes (concat (hs1 ++ hs2).*2)) :: hs2) = map_of (hs1 ++ hs2).
Proof.
  unfold map_of. rewrite fmap_cons. cbn [concat snd]. unfold map_writes at 1. rewrite foldl_app.
  change (foldl map_step ∅ (live_writes ?xs)) with (map_writes (live_writes xs)).
  rewrite map_live_writes. unfold map_writes. rewrite fmap_app, concat_app. apply replay_again.
Qed.

(** ** The records the index points at *)

Section Merge.
Context `{Platform}.

Definition pl_key (p : placed) : bytes := wr_key (pl_write p).
Definition pl_offset (p : placed) : Z := sz (log_of (pl_before p)).
Definition position (p : placed) : Z * Z := (pl_id p, pl_offset p).

Lemma placed_steps_lookup idx ps k : foldl placed_step idx ps !! k =
  match last_by pl_key k ps with
  | Some p => if wr_tomb (pl_write p) then None else Some (pointer_of p)
  | None => idx !! k
  end.
Proof.
  revert idx. induction ps as [|p ps IH]; intros idx; [done|]. simpl. rewrite IH.
  destruct (last_by pl_key k ps); [done|]. unfold placed_step, pl_key. case_decide as E.
  - subst k. destruct (wr_tomb (pl_write p)); [by rewrite lookup_delete_eq|by rewrite lookup_insert_eq].
  - destruct (wr_tomb (pl_write p)); [by rewrite lookup_delete_ne|by rewrite lookup_insert_ne].
Qed.

(** The test of [merge_visit]. *)
Definition keep (idx : Index) (p : placed) : bool :=
  negb (wr_tomb (pl_write p)) && is_live idx (pl_id p) (pl_offset p) (pl_key p).

Definition kept_writes (idx : Index) (ps : list placed) : list write :=
  pl_write <$> filter (λ p, keep idx p = true) ps.

Lemma kept_writes_app idx ps1 ps2 : kept_writes idx (ps1 ++ ps2) = kept_writes idx ps1 ++ kept_writes idx ps2.
Proof. unfold kept_writes. by rewrite filter_app, fmap_app. Qed.

Lemma kept_writes_one idx p : kept_writes idx [p] = if keep idx p then [pl_write p] else [].
Proof. unfold kept_writes. rewrite filter_cons, filter_nil. by destruct (keep idx p). Qed.

Lemma kept_writes_live ps ps1 ps2 : ps = ps1 ++ ps2 → NoDup (position <$> ps) →
  kept_writes (foldl placed_step ∅ ps) ps2 = live_writes (pl_write <$> ps2).
Proof.
  revert ps1. induction ps2 as [|q ps2 IH]; intros ps1 Hps Hnd; [done|].
  change (q :: ps2) with ([q] ++ ps2). rewrite kept_writes_app, kept_writes_one, (IH (ps1 ++ [q]));
    [|by rewrite <-app_assoc|done].
  cbn [app fmap list_fmap live_writes]. rewrite <-list_fmap_compose.
  change (wr_key ∘ pl_write) with pl_key. unfold keep, is_live, IndexOps.get.
  rewrite placed_steps_lookup, Hps, last_by_app. cbn [last_by].
  destruct (wr_tomb (pl_write q)) eqn:Ht; [done|]. cbn [negb andb orb].
  change (wr_key (pl_write q)) with (pl_key q).
  destruct (last_by pl_key (pl_key q) ps2) as [q'|] eqn:E.
  - apply last_by_Some in E as [Hq' Hk].
    rewrite bool_decide_eq_true_2 by (rewrite <-Hk; by apply list_elem_of_fmap_2).
    destruct (wr_tomb (pl_write q')); [done|]. simpl.
    destruct (Z.eqb_spec (pl_id q') (pl_id q)) as [E1|]; [|done].
    destruct (Z.eqb_spec (sz (log_of (pl_before q'))) (pl_offset q)) as [E2|]; [|done].
    exfalso. rewrite Hps, fmap_app, fmap_cons in Hnd. apply NoDup_app in Hnd as (_ & _ & Hnd).
    apply NoDup_cons in Hnd as [Hnin _]. apply Hnin. unfold position at 1. rewrite <-E1, <-E2.
    by apply (list_elem_of_fmap_2 position).
  - apply last_by_None in E. rewrite bool_decide_eq_false_2 by done.
    rewrite decide_True by done. rewrite Ht. simpl. unfold pl_offset. by rewrite !Z.eqb_refl.
Qed.

Lemma place_positions id before xs : Forall valid_write xs →
  NoDup (position <$> place id before xs) ∧
  ∀ p, p ∈ place id before xs → pl_id p = id ∧ sz (log_of before) ≤ pl_offset p.
Proof.
  intros Hv. revert before. induction Hv as [|x xs Hx Hv IH]; intros before; simpl.
  { split; [constructor|]. intros p []%elem_of_nil. }
  destruct (IH (before ++ [x])) as [Hnd Hle].
  assert (Hlt : sz (log_of before) < sz (log_of (before ++ [x]))).
  { rewrite log_of_snoc, sz_app. pose proof (is_record_size _ _ (enc_is_record x Hx)).
    unfold kHeaderSize in *. lia. }
  split.
  - constructor; [|done]. intros (p & Hp & Hin)%list_elem_of_fmap. apply Hle in Hin as [_ Hin].
    unfold position, pl_offset in *. simpl in Hp. injection Hp as _ Hp. lia.
  - intros p [->|Hp]%elem_of_cons; [by split|]. apply Hle in Hp as [-> Hp]. split; [done|lia].
Qed.

Lemma placement_positions (hs : history) : StronglySorted Z.lt hs.*1 →
  Forall (λ hf, valid_id hf.1 ∧ Forall valid_write hf.2) hs → NoDup (position <$> placement hs).
Proof.
  induction hs as [|[id xs] hs IH]; intros Hs Hv; [constructor|].
  apply Forall_cons in Hv as [[_ Hx] Hv]. rewrite fmap_cons in Hs.
  apply StronglySorted_inv in Hs as [Hs Hlt]. rewrite placement_cons, fmap_app.
  destruct (place_positions id [] xs Hx) as [Hnd Hid]. apply NoDup_app. split_and!; [done| |by apply IH].
  intros ? (p & -> & Hp)%list_elem_of_fmap (q & Hpos & Hq)%list_elem_of_fmap.
  apply Hid in Hp as [Hp _]. apply placement_split in Hq as [ys Hq].
  rewrite Forall_forall in Hlt. specialize (Hlt (pl_id q)). simpl in Hlt.
  assert (id < pl_id q) by (apply Hlt; by apply (list_elem_of_fmap_2 fst _ _ Hq)).
  unfold position in Hpos. injection Hpos as Hpos _. lia.
Qed.

(** The merge of a whole history keeps its live writes. *)
Lemma kept_writes_history (hs : history) : StronglySorted Z.lt hs.*1 →
  Forall (λ hf, valid_id hf.1 ∧ Forall valid_write hf.2) hs →
  kept_writes (index_of hs) (placement hs) = live_writes (concat hs.*2).
Proof.
  intros Hs Hv. rewrite index_of_placement, (kept_writes_live (placement hs) []), placement_writes; [done|done|].
  by apply placement_positions.
Qed.

Lemma place_app id before xs ys :
  place id before (xs ++ ys) = place id before xs ++ place id (before ++ xs) ys.
Proof.
  revert before. induction xs as [|x xs IH]; intros before; simpl; [by rewrite app_nil_r|].
  by rewrite IH, <-app_assoc.
Qed.

Lemma kept_writes_sub P idx ps : Forall P (pl_write <$> ps) → Forall P (kept_writes idx ps).
Proof.
  unfold kept_writes. rewrite !Forall_fmap, !Forall_forall. intros HP p [_ Hp]%list_elem_of_filter. auto.
Qed.

Lemma sz_kept_writes idx ps : sz (log_of (kept_writes idx ps)) ≤ sz (log_of (pl_write <$> ps)).
Proof.
  induction ps as [|p ps IH]; [done|]. change (p :: ps) with ([p] ++ ps).
  rewrite kept_writes_app, fmap_app, !log_of_app, !sz_app, kept_writes_one.
  cbn [fmap list_fmap] in *. destruct (keep idx p); [lia|]. change (log_of []) with (@nil byte). rewrite sz_nil.
  pose proof (sz_nonneg (log_of [pl_write p])). lia.
Qed.

Lemma sz_writes ws : Forall valid_write ws → sz ws ≤ sz (log_of ws).
Proof.
  induction 1 as [|x ws Hx Hws IH]; [done|]. rewrite log_of_cons, sz_app.
  pose proof (is_record_size _ _ (enc_is_record x Hx)). unfold kHeaderSize, sz in *. simpl in *. lia.
Qed.

(** The staged pointers replace every entry of the index. *)
Lemma apply_staged_union staged idx : apply_staged staged idx = staged ∪ idx.
Proof.
  unfold apply_staged.
  assert (E : ∀ l : list (bytes * ValuePointer),
    foldr (λ '(key, pointer) index, (IndexOps.put key pointer index).1) idx l =
    foldr (λ p, <[p.1 := p.2]>) idx l).
  { induction l as [|[k p] l IH]; [done|]. cbn [foldr]. rewrite IH. unfold IndexOps.put.
    by destruct (_ !! k). }
  rewrite E, foldr_insert_union. by rewrite list_to_map_to_list.
Qed.

Lemma staged_all (hs hs' : history) : map_of hs' = map_of hs →
  index_of hs' ∪ index_of hs = index_of hs'.
Proof.
  intros Hm. apply map_eq. intros k. rewrite lookup_union.
  destruct (index_of hs' !! k) eqn:E'; [by destruct (index_of hs !! k)|].
  destruct (index_of hs !! k) as [p|] eqn:E; [|done]. exfalso.
  pose proof (index_map_agree (placement hs) k) as Ha. pose proof (index_map_agree (placement hs') k) as Ha'.
  rewrite <-index_of_placement, placement_writes in Ha, Ha'. fold (map_of hs) in Ha. fold (map_of hs') in Ha'.
  rewrite E in Ha. rewrite E' in Ha'. destruct Ha as (q & _ & _ & _ & _ & Ha). congruence.
Qed.

End Merge.
