(* ===== verification/BitcaskSteps.v ===== *)
(** What each step of a Bitcask write does to the object and the directory, under
    every fault: [rotate], [rotate_if_needed] and the append to the active file. *)

From S2P Require Import Prelude Status FileNames World Wp Encoding Record Hint LogFile LogScan.
From S2P Require Import Bitcask BitcaskState.
Import record BitcaskOps.

#[local] Opaque encode decode decode_header.

Section Steps.
Context `{Platform}.

Lemma set_log_files_id b : set_log_files (files_ b) b = b.
Proof. by destruct b. Qed.

Lemma wp_on_file {A} id (m : M LogFile A) b w l Q E D : files_ b !! id = Some l →
  wp m l w (λ a l' w', Q a (set_log_files (<[id := l']> (files_ b)) b) w')
    (λ e l' w', E e (set_log_files (<[id := l']> (files_ b)) b) w') D →
  wp (on_file id m) b w Q E D.
Proof. intros Hl Hm. unfold on_file. wp_pure. rewrite Hl. by apply wp_zoom. Qed.

Lemma wp_on_active {A} (m : M LogFile A) b w l Q E D : files_ b !! active_id_ b = Some l →
  wp m l w (λ a l' w', Q a (set_log_files (<[active_id_ b := l']> (files_ b)) b) w')
    (λ e l' w', E e (set_log_files (<[active_id_ b := l']> (files_ b)) b) w') D →
  wp (on_active m) b w Q E D.
Proof. intros Hl Hm. unfold on_active. wp_pure. by eapply wp_on_file. Qed.

Lemma wp_bind_on_file {A B} id (m : M LogFile A) (k : A → M Bitcask B) b w l Q1 E1 D1 Q E
    (D : World → Prop) :
  files_ b !! id = Some l → wp m l w Q1 E1 D1 →
  (∀ a l1 w1, calm w w1 → Q1 a l1 w1 →
     wp (k a) (set_log_files (<[id := l1]> (files_ b)) b) w1 Q E D) →
  (∀ e l1 w1, calm w w1 → E1 e l1 w1 →
     E e (set_log_files (<[id := l1]> (files_ b)) b) w1) →
  (∀ w1, ¬ quiet w → D1 w1 → D w1) →
  wp (on_file id m ≫= k) b w Q E D.
Proof.
  intros Hl Hm Hok Herr Hd.
  eapply (wp_bind _ _ _ _ (λ a b1 w1, ∃ l1, b1 = set_log_files (<[id := l1]> (files_ b)) b ∧ Q1 a l1 w1)
    (λ e b1 w1, ∃ l1, b1 = set_log_files (<[id := l1]> (files_ b)) b ∧ E1 e l1 w1) D1);
    [eapply wp_on_file; [done|]; eapply wp_mono; [done|naive_solver..]| | |done].
  - intros a ? w1 Hc (l1 & -> & Hr). auto.
  - intros e ? w1 Hc (l1 & -> & Hr). auto.
Qed.

Lemma wp_bind_on_active {A B} (m : M LogFile A) (k : A → M Bitcask B) b w l Q1 E1 D1 Q E
    (D : World → Prop) :
  files_ b !! active_id_ b = Some l → wp m l w Q1 E1 D1 →
  (∀ a l1 w1, calm w w1 → Q1 a l1 w1 →
     wp (k a) (set_log_files (<[active_id_ b := l1]> (files_ b)) b) w1 Q E D) →
  (∀ e l1 w1, calm w w1 → E1 e l1 w1 →
     E e (set_log_files (<[active_id_ b := l1]> (files_ b)) b) w1) →
  (∀ w1, ¬ quiet w → D1 w1 → D w1) →
  wp (on_active m ≫= k) b w Q E D.
Proof. intros. unfold on_active. wp_pure. by eapply wp_bind_on_file. Qed.

Lemma set_log_files_same b id l : files_ b !! id = Some l →
  set_log_files (<[id := l]> (files_ b)) b = b.
Proof. intros. rewrite insert_id by done. apply set_log_files_id. Qed.

(** The engine can append: its active file is open and the next id is free. *)
Record ready (b : Bitcask) (w : World) (l : LogFile) (f : file) : Prop := {
  rd_active : files_ b !! active_id_ b = Some l;
  rd_open : lf_open l = true;
  rd_path : lf_path l = log_file_name (active_id_ b);
  rd_file : w_files w !! lf_path l = Some f;
  rd_end : 0 ≤ end_offset_ l ≤ sz (f_data f) ∧ sz (f_data f) ≤ INT64_MAX;
  rd_id : valid_id (active_id_ b);
  rd_free : files_ b !! (active_id_ b + 1) = None;
  rd_next : ∀ f', active_id_ b ≠ UINT32_MAX → w_files w !! log_file_name (active_id_ b + 1) = Some f' → f_data f' = [];
  rd_mode : sync_mode_ l = opt_sync_mode (options_ b);
}.

(** The object after a rotation. *)
Definition rotated (b : Bitcask) : Bitcask :=
  let next := active_id_ b + 1 in
  set_active next (set_log_files (<[next := mkLogFile true (log_file_name next) 0
    (opt_sync_mode (options_ b))]> (files_ b)) b).

(** The directory after it: the old file synced, the new one created. *)
Definition sealed_files (b : Bitcask) (fs : gmap bytes file) : gmap bytes file :=
  alter LogFileOps.fsynced (log_file_name (active_id_ b)) fs.
Definition rotated_files (b : Bitcask) (fs : gmap bytes file) : gmap bytes file :=
  LogFileOps.opened (log_file_name (active_id_ b + 1)) (sealed_files b fs).

(** What a rotation that does not finish can leave. *)
Definition rotating (b : Bitcask) (w w' : World) : Prop :=
  same_files w w' ∨ files_are (sealed_files b (w_files w)) w w' ∨
  active_id_ b ≠ UINT32_MAX ∧ files_are (rotated_files b (w_files w)) w w'.

Lemma next_name_ne b : valid_id (active_id_ b) → active_id_ b ≠ UINT32_MAX →
  log_file_name (active_id_ b) ≠ log_file_name (active_id_ b + 1).
Proof.
  intros Hid Hmax E. apply log_file_name_inj in E; [lia|done|].
  unfold valid_id in *. unfold UINT32_MAX in *. lia.
Qed.

Lemma wp_sync_dir b w :
  wp sync_dir b w
    (λ _ b' w', b' = b ∧ same_files w w')
    (λ e b' w', b' = b ∧ ¬ reliable w ∧ same_files w w') (same_files w).
Proof.
  unfold sync_dir. wp_call wp_sync_directory. intros rc ? w1 _ (-> & Hs & [-> |[-> Hr]]); wp_pure; simpl.
  - by apply wp_ret.
  - by apply wp_fail.
Qed.

Lemma wp_rotate b w l f : ready b w l f →
  wp rotate b w
    (λ _ b' w', active_id_ b ≠ UINT32_MAX ∧ b' = rotated b ∧
       files_are (rotated_files b (w_files w)) w w')
    (λ e b' w', (active_id_ b = UINT32_MAX ∨ ¬ reliable w) ∧
       (b' = b ∧ rotating b w w' ∨ b' = rotated b ∧ active_id_ b ≠ UINT32_MAX ∧
          files_are (rotated_files b (w_files w)) w w'))
    (λ w', rotating b w w').
Proof.
  intros [Ha Ho Hp Hf Hend Hid Hfree Hnext Hm]. unfold rotate.
  eapply wp_bind_on_active; [done|by apply LogFileOps.wp_sync| | |]; cbn beta.
  2: { intros e ? w1 _ (-> & Hr & _ & Hs). rewrite set_log_files_same by done.
       split; [by right|]. left. split; [done|by left]. }
  2: { intros w1 _ Hs. by left. }
  intros [] ? w1 Hc1 [-> [Hs1 Ht1]]. rewrite set_log_files_same by done.
  rewrite Hp in Hs1. fold (sealed_files b (w_files w)) in Hs1. wp_pure.
  destruct (Z.eqb_spec (active_id_ b) UINT32_MAX) as [Hmax|Hmax].
  { apply wp_fail. split; [by left|]. left. split; [done|]. right; left. by split. }
  pose proof (next_name_ne b Hid Hmax) as Hne.
  assert (Hempty : LogFileOps.opened_file (log_file_name (active_id_ b + 1)) (w_files w1) =
    LogFileOps.opened_file (log_file_name (active_id_ b + 1)) (w_files w)).
  { rewrite Hs1. unfold LogFileOps.opened_file, sealed_files. by rewrite lookup_alter_ne. }
  assert (Hdata : f_data (LogFileOps.opened_file (log_file_name (active_id_ b + 1)) (w_files w1)) = []).
  { rewrite Hempty. unfold LogFileOps.opened_file.
    destruct (w_files w !! log_file_name (active_id_ b + 1)) as [f'|] eqn:E; [by apply Hnext|done]. }
  wp_call LogFileOps.wp_open.
  { rewrite Hdata. unfold sz, UINT64_MAX. simpl. lia. }
  - intros l' ? w2 Hc2 (-> & [Hs2 Ht2] & ->). rewrite Hdata. wp_pure. unfold emplace_file. wp_pure.
    rewrite Hfree. change (set_active _ _) with (rotated b).
    rewrite Hs1 in Hs2. fold (rotated_files b (w_files w)) in Hs2.
    eapply wp_mono; [apply wp_sync_dir|..]; cbn beta.
    + intros [] ? w3 _ [-> [Hs3 Ht3]]. split_and!; [done|done|]. split; congruence.
    + intros e ? w3 _ (-> & Hr & [Hs3 Ht3]). split; [right; eauto with wp|].
      right. split_and!; [done|done|]. split; congruence.
    + intros w3 _ [Hs3 Ht3]. right; right. split; [done|]. split; congruence.
  - intros e ? w2 Hc2 (-> & Hr & _ & Hs). split; [right; eauto with wp|]. left. split; [done|].
    destruct Hs as [[Hs2 Ht2]|[Hs2 Ht2]]; right; [left; split; congruence|right].
    split; [done|]. split; [by rewrite Hs2, Hs1|congruence].
  - intros w2 _ [[Hs2 Ht2]|[Hs2 Ht2]]; right; [left; split; congruence|right].
    split; [done|]. split; [by rewrite Hs2, Hs1|congruence].
Qed.

(** The object and the directory an append goes to: as they are, or rotated. *)
Definition target (b : Bitcask) (w : World) (b' : Bitcask) (fs : gmap bytes file) : Prop :=
  b' = b ∧ fs = w_files w ∨
  b' = rotated b ∧ fs = rotated_files b (w_files w) ∧ active_id_ b ≠ UINT32_MAX.

(** [rotate_if_needed] makes room: the record fits the file it will go to, or has
    that file to itself. *)
Lemma wp_rotate_if_needed b w l f n : ready b w l f → 0 ≤ n ≤ UINT32_MAX →
  0 ≤ max_file_size (options_ b) ≤ INT64_MAX →
  wp (rotate_if_needed n) b w
    (λ _ b' w', target b w b' (w_files w') ∧ w_times w' = w_times w ∧
       ∃ l', files_ b' !! active_id_ b' = Some l' ∧ end_offset_ l' + n ≤ INT64_MAX)
    (λ e b' w', (active_id_ b = UINT32_MAX ∨ ¬ reliable w) ∧
       (b' = b ∧ rotating b w w' ∨ b' = rotated b ∧ active_id_ b ≠ UINT32_MAX ∧
          files_are (rotated_files b (w_files w)) w w'))
    (λ w', rotating b w w').
Proof.
  intros Hr Hn Hmax. pose proof Hr as [Ha Ho Hp Hf Hend Hid Hfree Hnext Hm].
  unfold rotate_if_needed, active_file. wp_pure. rewrite Ha. wp_pure.
  destruct (Z.eqb_spec (end_offset_ l) 0) as [E|E].
  { apply wp_ret. split_and!; [by left|done|]. exists l. split; [done|].
    unfold UINT32_MAX, INT64_MAX in *. lia. }
  rewrite u64_id by (unfold UINT64_MAX, UINT32_MAX, INT64_MAX in *; lia).
  destruct (Z.leb_spec (end_offset_ l + n) (max_file_size (options_ b))) as [Hle|Hgt].
  { apply wp_ret. split_and!; [by left|done|]. exists l. split; [done|lia]. }
  eapply wp_mono; [by eapply wp_rotate|..]; cbn beta; [|done|done].
  intros [] ? w1 _ (Hne & -> & [Hs Ht]). split_and!; [right; by rewrite Hs|done|].
  exists (mkLogFile true (log_file_name (active_id_ b + 1)) 0 (opt_sync_mode (options_ b))).
  split; [unfold rotated; simpl; by rewrite lookup_insert_eq|]. simpl. unfold UINT32_MAX, INT64_MAX in *. lia.
Qed.

(** * Serving a map

    [serves b w m]: whatever junk failed writes have left in the files, the object
    answers reads from [m]. *)

(** Pointer [p] leads to an intact record of [k] with value [v]. *)
Definition points_at (b : Bitcask) (w : World) (k : bytes) (p : ValuePointer) (v : bytes) : Prop :=
  ∃ l f r, files_ b !! vp_file_id p = Some l ∧ w_files w !! log_file_name (vp_file_id p) = Some f ∧
    0 ≤ vp_offset p ∧ 0 ≤ vp_size p ∧ vp_offset p + vp_size p ≤ end_offset_ l ∧
    decode (slice (f_data f) (vp_offset p) (vp_size p)) = ROk r ∧
    r_key r = k ∧ r_is_tombstone r = false ∧ r_value r = v.

(** An open data file whose acknowledged bytes are in the directory. *)
Definition file_ok (b : Bitcask) (w : World) (id : Z) (l : LogFile) : Prop :=
  lf_open l = true ∧ lf_path l = log_file_name id ∧ sync_mode_ l = opt_sync_mode (options_ b) ∧
  valid_id id ∧ id ≤ active_id_ b ∧
  ∃ f, w_files w !! log_file_name id = Some f ∧ 0 ≤ end_offset_ l ≤ sz (f_data f) ∧
    sz (f_data f) ≤ INT64_MAX.

Record serves (b : Bitcask) (w : World) (m : gmap bytes bytes) : Prop := {
  sv_files : map_Forall (file_ok b w) (files_ b);
  sv_active : is_Some (files_ b !! active_id_ b);
  sv_later : ∀ id f, valid_id id → active_id_ b < id →
    w_files w !! log_file_name id = Some f → f_data f = [];
  sv_index : ∀ k, match index_ b !! k with
                  | None => m !! k = None
                  | Some p => ∃ v, m !! k = Some v ∧ points_at b w k p v
                  end;
}.

Lemma valid_id_next id : valid_id id → id ≠ UINT32_MAX → valid_id (id + 1).
Proof. unfold valid_id, UINT32_MAX. lia. Qed.

Lemma serves_ready b w m : serves b w m → ∃ l f, ready b w l f.
Proof.
  intros [Hfiles [l Ha] Hlater _]. destruct (Hfiles _ _ Ha) as (Ho & Hp & Hm & Hid & _ & f & Hf & He & Hmax).
  exists l, f. split; try done.
  - by rewrite Hp.
  - destruct (files_ b !! (active_id_ b + 1)) as [l'|] eqn:E; [|done]. exfalso.
    apply Hfiles in E as (_ & _ & _ & _ & Hle & _). lia.
  - intros f' Hne Hf'. eapply Hlater; [|..|done]; [by apply valid_id_next|lia].
Qed.

(** ** Frame: the directory changes behind what the object relies on *)

(** [w'] still has every byte of [w] that some open file has acknowledged. *)
Definition keeps (b : Bitcask) (w w' : World) : Prop :=
  ∀ id l f, files_ b !! id = Some l → w_files w !! log_file_name id = Some f →
    ∃ f', w_files w' !! log_file_name id = Some f' ∧
      take (Z.to_nat (end_offset_ l)) (f_data f') = take (Z.to_nat (end_offset_ l)) (f_data f) ∧
      end_offset_ l ≤ sz (f_data f') ≤ INT64_MAX.

Lemma slice_take (d d' : bytes) off n e : 0 ≤ off → 0 ≤ n → off + n ≤ e →
  take (Z.to_nat e) d' = take (Z.to_nat e) d → slice d' off n = slice d off n.
Proof.
  intros Ho Hn He Ht. unfold slice.
  assert (∀ x : bytes, take (Z.to_nat n) (drop (Z.to_nat off) x) =
    take (Z.to_nat n) (drop (Z.to_nat off) (take (Z.to_nat e) x))) as Hx.
  { intros x. rewrite skipn_firstn_comm, take_take. f_equal. lia. }
  by rewrite Hx, Ht, <-Hx.
Qed.

Lemma points_at_keeps b w w' k p v : keeps b w w' → points_at b w k p v → points_at b w' k p v.
Proof.
  intros Hk (l & f & r & Hl & Hf & H1 & H2 & H3 & H4 & H5).
  destruct (Hk _ _ _ Hl Hf) as (f' & Hf' & Ht & _). exists l, f', r. split_and!; try done; try apply H5.
  by rewrite (slice_take (f_data f) _ _ _ _ H1 H2 H3 Ht).
Qed.

Lemma serves_keeps b w w' m : serves b w m → keeps b w w' →
  (∀ id f, valid_id id → active_id_ b < id → w_files w' !! log_file_name id = Some f → f_data f = []) →
  serves b w' m.
Proof.
  intros [Hfiles Ha Hlater Hidx] Hk Hlater'. split; [|done|done|].
  - intros id l Hl. destruct (Hfiles _ _ Hl) as (? & ? & ? & ? & ? & f & Hf & He & _).
    destruct (Hk _ _ _ Hl Hf) as (f' & Hf' & _ & He'). split_and!; try done.
    exists f'. split_and!; [done|lia..].
  - intros k. specialize (Hidx k). destruct (index_ b !! k) as [p|]; [|done].
    destruct Hidx as (v & ? & ?). exists v. split; [done|]. by eapply points_at_keeps.
Qed.

Lemma serves_same_data b w w' m : serves b w m →
  LogFileOps.same_data (w_files w) (w_files w') → serves b w' m.
Proof.
  intros Hs [Hkeep Hnew]. apply (serves_keeps _ _ _ _ Hs); destruct Hs as [Hfiles _ Hlater _].
  - intros id l f Hl Hf. destruct (Hkeep _ _ Hf) as (f' & Hf' & E). exists f'. rewrite E.
    destruct (Hfiles _ _ Hl) as (_ & _ & _ & _ & _ & f2 & Hf2 & ? & ?). simplify_eq.
    split_and!; [done|done|lia|lia].
  - intros id f' Hid Hlt Hf'. destruct (w_files w !! log_file_name id) as [f|] eqn:E; [|by eapply Hnew].
    destruct (Hkeep _ _ E) as (f2 & Hf2 & E2). simplify_eq. rewrite E2. by eapply Hlater.
Qed.

Lemma serves_same_files b w w' m : serves b w m → same_files w w' → serves b w' m.
Proof.
  intros Hs [Hw _]. apply (serves_same_data _ _ _ _ Hs). rewrite Hw. apply LogFileOps.same_data_refl.
Qed.

Lemma rotated_same_data b fs : LogFileOps.same_data fs (rotated_files b fs).
Proof.
  eapply LogFileOps.same_data_trans; [apply LogFileOps.same_data_fsynced|apply LogFileOps.same_data_opened].
Qed.

Lemma serves_rotating b w w' m : serves b w m → rotating b w w' → serves b w' m.
Proof.
  intros Hs [Hw|[[Hw _]|(_ & Hw & _)]]; [by eapply serves_same_files|..];
    apply (serves_same_data _ _ _ _ Hs); rewrite Hw.
  - apply LogFileOps.same_data_fsynced.
  - apply rotated_same_data.
Qed.

Lemma serves_rotated b w w' m : serves b w m → w_files w' = rotated_files b (w_files w) →
  active_id_ b ≠ UINT32_MAX → serves (rotated b) w' m.
Proof.
  intros Hs Hw Hmax. destruct (serves_ready _ _ _ Hs) as (l0 & f0 & Hr).
  assert (Hs' : serves b w' m) by (eapply serves_same_data; [done|rewrite Hw; apply rotated_same_data]).
  destruct Hr as [_ _ _ _ _ Hid Hfree Hnext _]. destruct Hs' as [Hfiles Ha Hlater Hidx].
  pose proof (valid_id_next _ Hid Hmax) as Hid'.
  assert (Hn : w_files w' !! log_file_name (active_id_ b + 1) =
    Some (LogFileOps.opened_file (log_file_name (active_id_ b + 1)) (sealed_files b (w_files w)))).
  { rewrite Hw. apply LogFileOps.opened_lookup. }
  pose proof (Hlater _ _ Hid' ltac:(lia) Hn) as Hempty.
  split; simpl.
  - intros id l Hl. rewrite lookup_insert in Hl. case_decide as Heq.
    + simplify_eq. split_and!; try done. eexists. split; [exact Hn|].
      rewrite Hempty. unfold INT64_MAX. simpl. split; [split|]; done.
    + destruct (Hfiles _ _ Hl) as (? & ? & ? & ? & ? & ?). split_and!; try done. simpl. lia.
  - by rewrite lookup_insert_eq.
  - intros id f ??. apply Hlater; [done|lia].
  - intros k. specialize (Hidx k). destruct (index_ b !! k) as [p|]; [|done].
    destruct Hidx as (v & ? & l & f & r & Hl & Hp). exists v. split; [done|].
    exists l, f, r. split; [|done]. simpl. rewrite lookup_insert_ne; [done|]. congruence.
Qed.

(** ** Appends *)

(** The active file as [LogFileOps.holds] wants it. *)
Lemma ready_holds b w l f : ready b w l f →
  LogFileOps.holds l w f (take (Z.to_nat (end_offset_ l)) (f_data f))
    (drop (Z.to_nat (end_offset_ l)) (f_data f)).
Proof.
  intros [Ha Ho Hp Hf Hend _ _ _ _]. split_and!; [done|done|by rewrite take_drop|]. len.
Qed.

Lemma serves_append b w w' m l f bs k f' : serves b w m → ready b w l f →
  end_offset_ l + sz bs ≤ INT64_MAX →
  w_files w' = <[lf_path l := f']> (w_files w) →
  LogFileOps.after_bytes (take (Z.to_nat (end_offset_ l)) (f_data f))
    (drop (Z.to_nat (end_offset_ l)) (f_data f)) bs k f f' →
  serves b w' m.
Proof.
  intros Hs [Ha Ho Hp Hf Hend Hid Hfree Hnext Hm] Hmax Hw (Hk & Hd & _).
  pose proof Hs as [Hfiles _ Hlater _].
  apply (serves_keeps _ _ _ _ Hs); unfold keeps; rewrite Hw, Hp.
  - intros id l1 f1 Hl1 Hf1. rewrite lookup_insert. case_decide as Heq.
    + destruct (Hfiles _ _ Hl1) as (_ & _ & _ & Hid1 & _).
      apply log_file_name_inj in Heq; [|done..]. subst id. rewrite Hp in Hf. simplify_eq.
      exists f'. rewrite Hd. split_and!; [done| |len|].
      * rewrite take_app_le by len. rewrite take_take. f_equal. lia.
      * unfold sz in *. rewrite !length_app, !length_take, !length_drop. lia.
    + exists f1. destruct (Hfiles _ _ Hl1) as (_ & _ & _ & _ & _ & f2 & Hf2 & ? & ?). simplify_eq.
      split_and!; [done|done|lia|lia].
  - intros id f1 Hid1 Hlt. rewrite lookup_insert_ne; [by apply Hlater|].
    intros Heq. apply log_file_name_inj in Heq; [lia|done..].
Qed.

(** The object with [n] more acknowledged bytes in its active file. *)
Definition grown (b : Bitcask) (l : LogFile) (n : Z) : Bitcask :=
  set_log_files (<[active_id_ b := LogFileOps.set_end (end_offset_ l + n) l]> (files_ b)) b.

Lemma serves_grown b w m l f n : serves b w m → ready b w l f → 0 ≤ n →
  end_offset_ l + n ≤ sz (f_data f) → serves (grown b l n) w m.
Proof.
  intros [Hfiles _ Hlater Hidx] [Ha Ho Hp Hf Hend Hid Hfree Hnext Hm] Hn Hle. split; simpl.
  - intros id l1 Hl1. rewrite lookup_insert in Hl1. case_decide as Heq; [|by apply Hfiles].
    simplify_eq. destruct (Hfiles _ _ Ha) as (? & ? & ? & ? & ? & f2 & Hf2 & ? & ?).
    rewrite Hp in Hf. simplify_eq. split_and!; try done. exists f. simpl. split_and!; [done|lia..].
  - by rewrite lookup_insert_eq.
  - done.
  - intros k. specialize (Hidx k). destruct (index_ b !! k) as [p|]; [|done].
    destruct Hidx as (v & ? & l1 & f1 & r & Hl1 & Hf1 & ? & ? & ? & ? & ? & ? & ?). exists v. split; [done|].
    destruct (decide (active_id_ b = vp_file_id p)) as [E|E].
    + rewrite <-E in Hl1. simplify_eq. eexists _, f1, r. simpl. rewrite E, lookup_insert_eq.
      split_and!; try done. simpl. lia.
    + exists l1, f1, r. simpl. rewrite lookup_insert_ne by done. by split_and!.
Qed.

(** ** One write of the log: make room, then append *)

(** The state an append of [bs] reaches from [b] and [w] when [k] bytes of it have
    arrived, [b'] being the object then. *)
Definition writing (b : Bitcask) (w : World) (bs : bytes) (k : nat) (b' : Bitcask) (w' : World) : Prop :=
  ∃ b1 w1 l1 f1 f', target b w b1 (w_files w1) ∧ ready b1 w1 l1 f1 ∧
    end_offset_ l1 + sz bs ≤ INT64_MAX ∧
    w_files w' = <[lf_path l1 := f']> (w_files w1) ∧
    LogFileOps.after_bytes (take (Z.to_nat (end_offset_ l1)) (f_data f1))
      (drop (Z.to_nat (end_offset_ l1)) (f_data f1)) bs k f1 f' ∧
    (b' = b1 ∨ b' = grown b1 l1 (sz bs) ∧ k = length bs).

(** What a write that does not finish can leave. *)
Definition interrupted (b : Bitcask) (w : World) (bs : bytes) (b' : Bitcask) (w' : World) : Prop :=
  b' = b ∧ rotating b w w' ∨
  b' = rotated b ∧ w_files w' = rotated_files b (w_files w) ∧ active_id_ b ≠ UINT32_MAX ∨
  ∃ k, writing b w bs k b' w'.

Lemma serves_target b w b1 w1 m : serves b w m → target b w b1 (w_files w1) → serves b1 w1 m.
Proof.
  intros Hs [[-> Hw]|(-> & Hw & Hmax)].
  - apply (serves_same_data _ _ _ _ Hs). rewrite Hw. apply LogFileOps.same_data_refl.
  - by eapply serves_rotated.
Qed.

Lemma wp_log_write {A} bs (k : Z → M Bitcask A) b w m Q E (D : World → Prop) :
  serves b w m → 0 ≤ sz bs ≤ UINT32_MAX → 0 ≤ max_file_size (options_ b) ≤ INT64_MAX →
  (∀ b1 w1 l1 f1 f2 w2, target b w b1 (w_files w1) → ready b1 w1 l1 f1 →
     end_offset_ l1 + sz bs ≤ INT64_MAX → calm w w2 →
     w_files w2 = <[lf_path l1 := f2]> (w_files w1) →
     LogFileOps.after_bytes (take (Z.to_nat (end_offset_ l1)) (f_data f1))
       (drop (Z.to_nat (end_offset_ l1)) (f_data f1)) bs (length bs) f1 f2 →
     (sync_mode_ l1 = Always → f_synced f2 = length (f_data f2)) →
     wp (k (end_offset_ l1)) (grown b1 l1 (sz bs)) w2 Q E D) →
  (∀ e b' w', active_id_ b = UINT32_MAX ∨ ¬ reliable w → interrupted b w bs b' w' → E e b' w') →
  (∀ b' w', interrupted b w bs b' w' → D w') →
  wp (rotate_if_needed (sz bs);; offset ← on_active (LogFileOps.append bs); k offset) b w Q E D.
Proof.
  intros Hs Hbs Hmfs Hok Herr Hdied. destruct (serves_ready _ _ _ Hs) as (l & f & Hr).
  eapply wp_bind; [by eapply wp_rotate_if_needed| | |]; cbn beta.
  - intros [] b1 w1 Hc1 (Ht & _ & l1' & Hl1' & Hmax).
    destruct (serves_ready _ _ _ (serves_target _ _ _ _ _ Hs Ht)) as (l1 & f1 & Hr1).
    pose proof Hr1 as [Ha1 _ _ _ [Hend1 _] _ _ _ _].
    rewrite Ha1 in Hl1'. injection Hl1' as <-.
    assert (Hsz1 : sz (take (Z.to_nat (end_offset_ l1)) (f_data f1)) = end_offset_ l1) by len.
    eapply wp_bind_on_active; [done|eapply LogFileOps.wp_append; [by eapply ready_holds|]| | |].
    + rewrite Hsz1. unfold UINT64_MAX, INT64_MAX in *. lia.
    + rewrite Hsz1. intros off ? w2 Hc2 (-> & -> & f2 & [Hw2 _] & Ha & Hsync).
      apply (Hok b1 w1 l1 f1 f2); try done. by etrans.
    + rewrite Hsz1. intros e l2 w2 _ (Hu & _ & f2 & j & [Hw2 _] & Ha & Hl2).
      apply Herr; [right; eauto with wp|]. right; right. exists j, b1, w1, l1, f1, f2.
      split_and!; try done. destruct Hl2 as [-> |[-> ->]]; [left|by right].
      by rewrite set_log_files_same.
    + intros w2 _ (f2 & j & [Hw2 _] & Ha). apply (Hdied b1). right; right.
      exists j, b1, w1, l1, f1, f2. split_and!; try done. by left.
  - intros e b1 w1 _ [Hu Hcase]. apply Herr; [done|].
    destruct Hcase as [[-> ?]|(-> & ? & [? _])]; [by left|]. right; left. done.
  - intros w1 _ Hrot. apply (Hdied b). by left.
Qed.

(** In every state a write can leave, reads still see the old map. *)
Lemma serves_interrupted b w bs b' w' m : serves b w m → interrupted b w bs b' w' →
  serves b' w' m.
Proof.
  intros Hs [[-> Hrot]|[(-> & Hw & Hmax)|(k & b1 & w1 & l1 & f1 & f' & Ht & Hr & Hmax & Hw & Ha & Hb)]].
  - by eapply serves_rotating.
  - by eapply serves_rotated.
  - pose proof (serves_target _ _ _ _ _ Hs Ht) as Hs1.
    pose proof (serves_append _ _ _ _ _ _ _ _ _ Hs1 Hr Hmax Hw Ha) as Hs'.
    destruct Hb as [-> |[-> ->]]; [done|].
    assert (Hr' : ready b1 w' l1 f').
    { destruct (serves_ready _ _ _ Hs') as (l2 & f2 & Hr2).
      assert (l2 = l1) as -> by (destruct Hr, Hr2; congruence).
      assert (f2 = f') as -> by (destruct Hr2 as [_ _ _ Hf2 _ _ _ _ _];
        rewrite Hw, lookup_insert_eq in Hf2; congruence). done. }
    apply (serves_grown _ _ _ _ f'); [done|done|apply sz_nonneg|].
    destruct Ha as (_ & -> & _). destruct Hr as [_ _ _ _ [? _] _ _ _ _]. len.
Qed.

End Steps.
