(* ===== verification/BitcaskServe.v ===== *)
(** The key-value contract of Bitcask under every fault: reads return the map,
    a write that returns Ok has changed it, a write that fails has not. *)

From S2P Require Import Prelude Status FileNames World Wp Encoding Record Hint LogFile LogScan.
From S2P Require Import Bitcask BitcaskState BitcaskSteps.
Import record BitcaskOps.

#[local] Opaque encode decode decode_header.

Section Serve.
Context `{Platform}.

(** ** The index bookkeeping *)

Lemma wp_index_put_dead k p b w (Q : unit → Bitcask → World → Prop) E D :
  (∀ d, Q tt (set_dead d (set_index (<[k := p]> (index_ b)) b)) w) →
  wp (index_put_dead k p) b w Q E D.
Proof.
  intros HQ. unfold index_put_dead. wp_pure. unfold IndexOps.put.
  destruct (index_ b !! k) as [old|]; cbv iota beta; wp_pure.
  - unfold mark_dead. apply wp_modify. apply HQ.
  - apply wp_ret. specialize (HQ (dead_bytes_ b)). by destruct b.
Qed.

Lemma wp_index_erase_dead k b w (Q : unit → Bitcask → World → Prop) E D :
  (∀ d, Q tt (set_dead d (set_index (delete k (index_ b)) b)) w) →
  wp (index_erase_dead k) b w Q E D.
Proof.
  intros HQ. unfold index_erase_dead. wp_pure. unfold IndexOps.erase.
  destruct (index_ b !! k) as [old|] eqn:E1; cbv iota beta; wp_pure.
  - unfold mark_dead. apply wp_modify. apply HQ.
  - apply wp_ret. specialize (HQ (dead_bytes_ b)). rewrite delete_id in HQ by done. by destruct b.
Qed.

Lemma serves_set_dead b w m d : serves b w m → serves (set_dead d b) w m.
Proof. intros [H1 H2 H3 H4]. by split. Qed.

Lemma serves_index_put b w m k p v : serves b w m → points_at b w k p v →
  serves (set_index (<[k := p]> (index_ b)) b) w (<[k := v]> m).
Proof.
  intros [H1 H2 H3 H4] Hp. split; [done|done|done|]. intros k'. simpl.
  destruct (decide (k = k')) as [<-|Hne].
  - rewrite !lookup_insert_eq. eauto.
  - rewrite !lookup_insert_ne by done. apply H4.
Qed.

Lemma serves_index_erase b w m k : serves b w m →
  serves (set_index (delete k (index_ b)) b) w (delete k m).
Proof.
  intros [H1 H2 H3 H4]. split; [done|done|done|]. intros k'. simpl.
  destruct (decide (k = k')) as [<-|Hne].
  - by rewrite !lookup_delete_eq.
  - rewrite !lookup_delete_ne by done. apply H4.
Qed.

(** The record a finished append has put into the active file. *)
Lemma appended_points_at b1 w1 l1 f1 f2 w2 x : ready b1 w1 l1 f1 → valid_write x → wr_tomb x = false →
  w_files w2 = <[lf_path l1 := f2]> (w_files w1) →
  LogFileOps.after_bytes (take (Z.to_nat (end_offset_ l1)) (f_data f1))
    (drop (Z.to_nat (end_offset_ l1)) (f_data f1)) (enc x) (length (enc x)) f1 f2 →
  points_at (grown b1 l1 (sz (enc x))) w2 (wr_key x)
    (mkPointer (end_offset_ l1) (wr_ts x) (active_id_ b1) (u32 (sz (enc x)))) (wr_value x).
Proof.
  intros [Ha Ho Hp Hf [Hend Hmax] Hid Hfree Hnext Hm] Hx Htomb Hw (_ & Hd & _).
  pose proof (enc_is_record x Hx) as Hrec. pose proof (is_record_size _ _ Hrec) as Hsz.
  destruct Hrec as [Hdec _]. rewrite u32_id by (unfold kHeaderSize in *; lia).
  eexists _, f2, (rec_of x). simpl. rewrite lookup_insert_eq.
  split_and!; [done| |lia|unfold kHeaderSize in *; lia|simpl; lia| |done|done|].
  - rewrite Hw, Hp. by rewrite lookup_insert_eq.
  - rewrite Hd, firstn_all, slice_mid; [done| |done]. len.
  - unfold rec_of, record_of. simpl. by rewrite Htomb.
Qed.

(** [check_record_fits] accepts exactly what fits. *)
Lemma check_record_fits_ok key value tomb : key ≠ [] → sz key + sz value ≤ UINT64_MAX →
  check_record_fits key (stored value tomb) = ROk tt ↔ fits key value tomb.
Proof.
  intros Hk Hmax. unfold check_record_fits, fits, kMaxRecordSize, kHeaderSize.
  pose proof (sz_nonneg key). pose proof (sz_nonneg value).
  assert (0 ≤ sz (stored value tomb) ≤ sz value) by (destruct tomb; unfold stored, sz; simpl; lia).
  rewrite u64_id by lia. destruct (Z.ltb_spec (UINT32_MAX - 21) (sz key + sz (stored value tomb))).
  - split; [done|]. lia.
  - split; [|done]. intros _. split; [done|lia].
Qed.

Lemma check_record_fits_err key value : check_record_fits key value = ROk tt ∨
  check_record_fits key value = RErr (invalid_argument (lit "record exceeds the maximum record size")).
Proof. unfold check_record_fits. destruct (_ <? _); [by right|by left]. Qed.

(** ** The contract *)

Lemma wp_bitcask_get b w m k : serves b w m →
  wp (get k) b w
    (λ v b' w', m !! k = Some v ∧ b' = b ∧ same_files w w')
    (λ e b' w', b' = b ∧ same_files w w' ∧
       (m !! k = None ∧ e = not_found (lit "no such key: " ++ k) ∨ ¬ reliable w))
    (same_files w).
Proof.
  intros [Hfiles Ha Hlater Hidx]. specialize (Hidx k). unfold get. wp_pure. unfold IndexOps.get.
  destruct (index_ b !! k) as [p|]; [|apply wp_fail; split_and!; [done|done|by left]].
  destruct Hidx as (v & Hv & l & f & r & Hl & Hf & Hoff & Hsz & Hend & Hdec & Hkey & Ht & Hval).
  destruct (Hfiles _ _ Hl) as (Ho & Hp & _ & _ & _ & f' & Hf' & He & Hmax). simplify_eq.
  rewrite Hl. eapply wp_bind_on_file; [done|
    apply (LogFileOps.wp_read_at l w f (vp_offset p) (vp_size p)); try done;
      [by rewrite Hp|unfold UINT64_MAX, INT64_MAX in *; lia]|..]; cbn beta.
  - intros bs ? w1 _ (-> & Hs & -> & _). rewrite set_log_files_same, Hdec by done. wp_pure.
    unfold key_eqb. rewrite bool_decide_eq_true_2, Ht by done. by apply wp_ret.
  - intros e ? w1 _ (-> & Hs & [[? _]|[? _]]); [|lia]. rewrite set_log_files_same by done. eauto.
  - done.
Qed.

(** [Bitcask::get] returns exactly the value the map has for the key, or
    [NotFound] when it has none; any other error means a call to the operating
    system failed, and nothing changes in any case. *)
Theorem bitcask_get b w m k : serves b w m →
  wp (get k) b w
    (λ v b' w', m !! k = Some v ∧ b' = b ∧ same_files w w')
    (λ e b' w', b' = b ∧ same_files w w' ∧
       (m !! k = None ∧ e = not_found (lit "no such key: " ++ k) ∨ ¬ reliable w))
    (same_files w).
Proof. apply wp_bitcask_get. Qed.

(** C10: [Bitcask::put] that returns Ok has bound the key to the value in the map
    reads see; it refuses exactly the empty key and the record that is too large,
    and when it fails for any reason reads still see the old map. *)
Theorem bitcask_put b w m k v : serves b w m → 0 ≤ max_file_size (options_ b) ≤ INT64_MAX →
  sz k + sz v ≤ UINT64_MAX →
  wp (put k v) b w
    (λ _ b' w', fits k v false ∧ serves b' w' (<[k := v]> m))
    (λ e b' w', serves b' w' m ∧
       (¬ fits k v false ∧ code_ e = InvalidArgument ∨ active_id_ b = UINT32_MAX ∨ ¬ reliable w))
    (λ _, True).
Proof.
  intros Hs Hmfs Hmax. unfold put. destruct k as [|c k0]; [|set (k := c :: k0) in *].
  { apply wp_fail. split; [done|]. left. split; [|done]. by intros [? _]. }
  assert (Hk : k ≠ []) by done.
  destruct (check_record_fits_err k v) as [E|E]; rewrite E.
  2: { apply wp_bind_fail. split; [done|]. left. split; [|done].
       intros Hf%(check_record_fits_ok k v false Hk Hmax). unfold stored in Hf. congruence. }
  apply (check_record_fits_ok k v false Hk Hmax) in E as Hf. wp_pure.
  wp_call wp_now_nanos. intros ts ? w1 Hc1 (-> & Hw1 & Hts). cbv zeta.
  set (x := mkWrite k v ts false). assert (Hx : valid_write x) by done.
  change (encode k v ts false) with (enc x).
  pose proof (is_record_size _ _ (enc_is_record x Hx)) as Hsz. unfold kHeaderSize in Hsz.
  assert (Hs1 : serves b w1 m).
  { apply (serves_same_data _ _ _ _ Hs). rewrite Hw1. apply LogFileOps.same_data_refl. }
  eapply wp_log_write; [done|lia|done| | |done].
  - intros b1 w2 l1 f1 f2 w3 Ht Hr Hm2 Hc3 Hw3 Ha _. wp_pure.
    assert (Hint : interrupted b w1 (enc x) (grown b1 l1 (sz (enc x))) w3).
    { right; right. exists (length (enc x)), b1, w2, l1, f1, f2. split_and!; try done. by right. }
    apply wp_index_put_dead. intros d. split; [done|]. apply serves_set_dead.
    apply (serves_index_put _ _ _ _ _ v); [by eapply serves_interrupted|].
    by apply (appended_points_at b1 w2 l1 f1 f2 w3 x).
  - intros e b' w' Hu Hint. split; [by eapply serves_interrupted|].
    right. destruct Hu; [by left|right; eauto with wp].
Qed.

(** [Bitcask::remove] that returns Ok has removed the key from the map reads
    see, whether or not it was there; when it fails reads still see the old map. *)
Theorem bitcask_remove b w m k : serves b w m → 0 ≤ max_file_size (options_ b) ≤ INT64_MAX →
  sz k ≤ UINT64_MAX →
  wp (remove k) b w
    (λ _ b' w', fits k [] true ∧ serves b' w' (delete k m))
    (λ e b' w', serves b' w' m ∧
       (¬ fits k [] true ∧ code_ e = InvalidArgument ∨ active_id_ b = UINT32_MAX ∨ ¬ reliable w))
    (λ _, True).
Proof.
  intros Hs Hmfs Hmax. unfold remove. destruct k as [|c k0]; [|set (k := c :: k0) in *].
  { apply wp_fail. split; [done|]. left. split; [|done]. by intros [? _]. }
  assert (Hk : k ≠ []) by done. assert (Hmax' : sz k + sz (@nil byte) ≤ UINT64_MAX) by (rewrite sz_nil; lia).
  destruct (check_record_fits_err k []) as [E|E]; rewrite E.
  2: { apply wp_bind_fail. split; [done|]. left. split; [|done].
       intros Hf%(check_record_fits_ok k [] true Hk Hmax'). unfold stored in Hf. congruence. }
  apply (check_record_fits_ok k [] true Hk Hmax') in E as Hf. wp_pure.
  wp_call wp_now_nanos. intros ts ? w1 Hc1 (-> & Hw1 & Hts). cbv zeta.
  set (x := mkWrite k [] ts true). assert (Hx : valid_write x) by done.
  change (encode k [] ts true) with (enc x).
  pose proof (is_record_size _ _ (enc_is_record x Hx)) as Hsz. unfold kHeaderSize in Hsz.
  assert (Hs1 : serves b w1 m).
  { apply (serves_same_data _ _ _ _ Hs). rewrite Hw1. apply LogFileOps.same_data_refl. }
  eapply wp_log_write; [done|lia|done| | |done].
  - intros b1 w2 l1 f1 f2 w3 Ht Hr Hm2 Hc3 Hw3 Ha _.
    assert (Hint : interrupted b w1 (enc x) (grown b1 l1 (sz (enc x))) w3).
    { right; right. exists (length (enc x)), b1, w2, l1, f1, f2. split_and!; try done. by right. }
    eapply wp_bind; [apply (wp_index_erase_dead k _ _ (λ _ b' w', serves b' w' (delete k m)) (λ _ _ _, False)
      (λ _, False))| |done|done]; cbn beta.
    + intros d. apply serves_set_dead, serves_index_erase. by eapply serves_interrupted.
    + intros [] b4 w4 _ Hs4. wp_pure. unfold mark_dead. apply wp_modify.
      split; [done|]. by apply serves_set_dead.
  - intros e b' w' Hu Hint. split; [by eapply serves_interrupted|].
    right. destruct Hu; [by left|right; eauto with wp].
Qed.

End Serve.
