(* ===== verification/BitcaskDisk.v ===== *)
(** The directory of a Bitcask database, and what a write leaves in it.

    [disk fs hs tl]: the directory [fs] holds the history [hs], followed in the
    active file by a torn tail [tl].  [rep b w hs]: the object [b] is the one a
    recovery of [hs] builds.  A write that returns appends to the history; a crash
    anywhere in it leaves the old history or the new one. *)

From S2P Require Import Prelude Status FileNames World Wp Encoding Record Hint LogFile Power LogScan.
From S2P Require Import Bitcask BitcaskState BitcaskSteps BitcaskServe.
Import record BitcaskOps.

#[local] Opaque encode decode decode_header.

Section Disk.
Context `{Platform}.

(** ** What is on the device *)

Lemma log_not_temp id stem : log_file_name id ≠ temp_name stem.
Proof. intros E. apply (f_equal last) in E. unfold log_file_name, temp_name in E. by rewrite !last_app in E. Qed.
Lemma hint_not_temp id stem : hint_file_name id ≠ temp_name stem.
Proof. intros E. apply (f_equal last) in E. unfold hint_file_name, temp_name in E. by rewrite !last_app in E. Qed.

(** ** Which files have been synced *)

Lemma permanent_log id : permanent (log_file_name id).
Proof. intros stem. apply log_not_temp. Qed.

Lemma permanent_hint id : permanent (hint_file_name id).
Proof. intros stem. apply hint_not_temp. Qed.

Lemma synced_log fs id f : synced fs → fs !! log_file_name id = Some f → fully f.
Proof. intros Hs. apply Hs, permanent_log. Qed.

Lemma fully_truncate f d junk : f_data f = d ++ junk → fully f → fully (platform.truncate_file (sz d) f).
Proof.
  intros Hd Hf. unfold fully. rewrite (LogFileOps.truncate_file_data f _ d junk Hd eq_refl). cbn. rewrite Hf, Hd, length_app. unfold sz. lia.
Qed.

(** ** Hints *)

Fixpoint hint_entries (off : Z) (xs : list write) : bytes :=
  match xs with
  | [] => []
  | x :: xs => hint.encode_entry (wr_key x) (wr_ts x) off (r_total_size (rec_of x)) ++
               hint_entries (off + sz (enc x)) xs
  end.

(** The hint file of a data file that holds [xs]. *)
Definition hint_bytes (xs : list write) : bytes :=
  hint_entries 0 xs ++ hint.encode_footer (sz (log_of xs)) (sz xs).

(** ** The directory *)

(** The bytes of a data file; a file that is not there yet counts as empty. *)
Definition log_data (fs : gmap bytes file) (id : Z) : bytes :=
  f_data (LogFileOps.opened_file (log_file_name id) fs).

Fixpoint logs_at (fs : gmap bytes file) (hs : history) (tl : bytes) : Prop :=
  match hs with
  | [] => tl = []
  | hf :: rest =>
      match rest with
      | [] => log_data fs hf.1 = log_of hf.2 ++ tl
      | _ => log_data fs hf.1 = log_of hf.2 ∧ logs_at fs rest tl
      end
  end.

Record disk (fs : gmap bytes file) (hs : history) (tl : bytes) : Prop := {
  dk_sorted : StronglySorted Z.lt hs.*1;
  dk_valid : Forall (λ hf, valid_id hf.1 ∧ Forall valid_write hf.2) hs;
  dk_logs : logs_at fs hs tl;
  dk_torn : next_record tl = None;
  dk_only : ∀ name id, is_Some (fs !! name) → parse_log_file_id name = Some id →
    name = log_file_name id ∧ id ∈ hs.*1;
  dk_hints : ∀ id xs f, (id, xs) ∈ hs → fs !! hint_file_name id = Some f →
    f_data f = hint_bytes xs ∧ Forall (λ x, wr_tomb x = false) xs;
  dk_below : ∀ id f, valid_id id → fs !! hint_file_name id = Some f →
    ∃ a, last hs.*1 = Some a ∧ id < a;
  dk_sizes : ∀ name f, fs !! name = Some f → sz (f_data f) ≤ INT64_MAX;
}.

(** Every file of the history is there. *)
Definition present (fs : gmap bytes file) (hs : history) : Prop :=
  ∀ id, id ∈ hs.*1 → is_Some (fs !! log_file_name id).

(** The open files of a recovered database. *)
Definition log_of_file (mode : SyncMode) (hf : Z * list write) : Z * LogFile :=
  (hf.1, mkLogFile true (log_file_name hf.1) (sz (log_of hf.2)) mode).

Definition files_of (mode : SyncMode) (hs : history) : gmap Z LogFile :=
  list_to_map (log_of_file mode <$> hs).

Record rep (b : Bitcask) (w : World) (hs : history) : Prop := {
  rp_disk : disk (w_files w) hs [];
  rp_present : present (w_files w) hs;
  rp_files : files_ b = files_of (opt_sync_mode (options_ b)) hs;
  rp_index : index_ b = index_of hs;
  rp_active : last hs.*1 = Some (active_id_ b);
}.

(** ** The files of a history *)

Lemma logs_at_app fs hs1 hf hs2 tl : logs_at fs (hs1 ++ hf :: hs2) tl ↔
  (∀ hf1, hf1 ∈ hs1 → log_data fs hf1.1 = log_of hf1.2) ∧ logs_at fs (hf :: hs2) tl.
Proof.
  induction hs1 as [|hf1 hs1 IH].
  - split; [|by intros [_ ?]]. intros Hl. split; [|done]. intros ? []%elem_of_nil.
  - assert (E : logs_at fs ((hf1 :: hs1) ++ hf :: hs2) tl ↔
      log_data fs hf1.1 = log_of hf1.2 ∧ logs_at fs (hs1 ++ hf :: hs2) tl) by (by destruct hs1).
    rewrite E, IH. split.
    + intros (H1 & H2 & H3). split; [|done]. intros hf2 [->|?]%elem_of_cons; auto.
    + intros [H1 H2]. split_and!; [apply H1; by left|intros; apply H1; by right|done].
Qed.

(** The data file of a member of the history. *)
Lemma disk_log fs hs tl id xs : disk fs hs tl → (id, xs) ∈ hs →
  valid_id id ∧ Forall valid_write xs ∧ ∃ tl', log_data fs id = log_of xs ++ tl' ∧ (tl' = [] ∨ tl' = tl).
Proof.
  intros [_ Hv Hl _ _ _ _ _] Hin. rewrite Forall_forall in Hv. destruct (Hv _ Hin). split_and!; [done..|].
  apply list_elem_of_split in Hin as (hs1 & hs2 & ->). apply logs_at_app in Hl as [_ Hl].
  destruct hs2; simpl in Hl; [exists tl; auto|]. exists []. rewrite app_nil_r. destruct Hl. auto.
Qed.

Lemma files_of_lookup mode hs id l : StronglySorted Z.lt hs.*1 →
  files_of mode hs !! id = Some l ↔
  ∃ xs, (id, xs) ∈ hs ∧ l = mkLogFile true (log_file_name id) (sz (log_of xs)) mode.
Proof.
  intros Hs. unfold files_of. rewrite <-elem_of_list_to_map.
  - rewrite list_elem_of_fmap. split.
    + intros ([id' xs] & [= -> ->] & Hin). eauto.
    + intros (xs & Hin & ->). by exists (id, xs).
  - rewrite <-list_fmap_compose. change (fst ∘ log_of_file mode) with (@fst Z (list write)).
    clear -Hs. induction Hs as [|id ids Hs IH Hall]; constructor; [|done].
    intros Hin. rewrite Forall_forall in Hall. specialize (Hall _ Hin). lia.
Qed.

Lemma last_ids (hs : history) hf : last (hs ++ [hf]).*1 = Some hf.1.
Proof. rewrite fmap_app. apply last_snoc. Qed.

Lemma sorted_last_max (ids : list Z) a id : StronglySorted Z.lt ids → last ids = Some a →
  id ∈ ids → id ≤ a.
Proof.
  intros Hs Ha Hin. apply last_Some in Ha as [l ->].
  apply elem_of_app in Hin as [Hin|Hin%list_elem_of_singleton]; [|lia].
  apply StronglySorted_app_1_elem_of with (x1 := id) (x2 := a) in Hs; [lia|done|by left].
Qed.

(** ** Changes of the directory *)

Lemma log_data_ext fs fs' id :
  f_data <$> fs' !! log_file_name id = f_data <$> fs !! log_file_name id →
  log_data fs' id = log_data fs id.
Proof.
  unfold log_data, LogFileOps.opened_file. intros E.
  destruct (fs' !! _), (fs !! _); simpl in *; congruence.
Qed.

Lemma logs_at_ext fs fs' hs tl : (∀ id, id ∈ hs.*1 → log_data fs' id = log_data fs id) →
  logs_at fs hs tl → logs_at fs' hs tl.
Proof.
  induction hs as [|hf hs IH]; [done|]. intros He.
  assert (Hhd : log_data fs' hf.1 = log_data fs hf.1) by (apply He; by left).
  destruct hs as [|hf2 hs]; simpl in *.
  - by rewrite Hhd.
  - intros [H1 H2]. rewrite Hhd. split; [done|]. apply IH; [|done]. intros id Hid. apply He. by right.
Qed.

(** The bytes in the files are all that matters. *)
Lemma disk_ext fs fs' hs tl : (∀ name, f_data <$> fs' !! name = f_data <$> fs !! name) →
  disk fs hs tl → disk fs' hs tl.
Proof.
  intros He [H1 H2 H3 H4 H5 H6 H7 H8].
  assert (Hback : ∀ name f', fs' !! name = Some f' → ∃ f, fs !! name = Some f ∧ f_data f' = f_data f).
  { intros name f' Hf'. specialize (He name). rewrite Hf' in He.
    destruct (fs !! name) as [f|]; simplify_eq/=. eauto. }
  split; try done.
  - eapply logs_at_ext; [|done]. intros id _. by apply log_data_ext.
  - intros name id [f' (f & Hf & _)%Hback] Hp. eapply H5; eauto.
  - intros id xs f' Hin (f & Hf & ->)%Hback. eauto.
  - intros id f' Hid (f & Hf & _)%Hback. eauto.
  - intros name f' (f & Hf & ->)%Hback. eauto.
Qed.

(** New contents of the active file. *)
Lemma disk_update fs hs0 a xs xs' tl tl' f' :
  disk fs (hs0 ++ [(a, xs)]) tl → f_data f' = log_of xs' ++ tl' →
  Forall valid_write xs' → next_record tl' = None → sz (f_data f') ≤ INT64_MAX →
  disk (<[log_file_name a := f']> fs) (hs0 ++ [(a, xs')]) tl'.
Proof.
  intros [H1 H2 H3 H4 H5 H6 H7 H8] Hd Hv Htl Hsz.
  assert (Hids : (hs0 ++ [(a, xs')]).*1 = (hs0 ++ [(a, xs)]).*1) by (by rewrite !fmap_app).
  apply Forall_app in H2 as [H2 [[Ha _] _]%Forall_cons].
  assert (Hlast : last (hs0 ++ [(a, xs)]).*1 = Some a) by apply last_ids.
  assert (Hhint : ∀ id, log_file_name a ≠ hint_file_name id).
  { intros id E. apply (f_equal parse_log_file_id) in E.
    by rewrite parse_log_name, parse_log_hint in E. }
  split; rewrite ?Hids; try done.
  - apply Forall_app. split; [done|]. by apply Forall_singleton.
  - apply logs_at_app in H3 as [H3 _]. apply logs_at_app. split.
    + intros hf Hin. rewrite <-(H3 _ Hin). apply log_data_ext. rewrite lookup_insert_ne; [done|].
      intros E. rewrite Forall_forall in H2. destruct (H2 _ Hin) as [Hid _].
      apply log_file_name_inj in E; [|done|done].
      rewrite fmap_app in H1. apply StronglySorted_app_1_elem_of with (x1 := hf.1) (x2 := a) in H1;
        [simpl in *; lia| |by left]. by apply list_elem_of_fmap_2.
    + simpl. unfold log_data, LogFileOps.opened_file. by rewrite lookup_insert_eq.
  - intros name id Hn Hp. destruct (decide (log_file_name a = name)) as [<-|Hne].
    + rewrite parse_log_name in Hp by done. injection Hp as <-. split; [done|].
      rewrite fmap_app. apply elem_of_app. right. by left.
    + rewrite lookup_insert_ne in Hn by done. by apply H5.
  - intros id ys f Hin. rewrite lookup_insert_ne by done. intros Hf.
    apply elem_of_app in Hin as [Hin|Hin%list_elem_of_singleton].
    + eapply H6; [|done]. apply elem_of_app. by left.
    + simplify_eq. destruct (H7 _ _ Ha Hf) as (a' & Ha' & Hlt). rewrite Hlast in Ha'. simplify_eq/=. lia.
  - intros id f Hid. rewrite lookup_insert_ne by done. apply H7, Hid.
  - intros name f. destruct (decide (log_file_name a = name)) as [<-|Hne].
    + rewrite lookup_insert_eq. by intros [= <-].
    + rewrite lookup_insert_ne by done. apply H8.
Qed.

Lemma present_snoc fs hs hf : present fs (hs ++ [hf]) ↔ present fs hs ∧ is_Some (fs !! log_file_name hf.1).
Proof.
  unfold present. rewrite fmap_app. simpl. split.
  - intros Hp. split; [intros id Hid|]; apply Hp, elem_of_app; [by left|right; by left].
  - intros [H1 H2] id [Hid|Hid%list_elem_of_singleton]%elem_of_app; [auto|by subst].
Qed.

(** A new active file. *)
Lemma disk_new fs hs a : disk fs hs [] → last hs.*1 = Some a → a ≠ UINT32_MAX →
  disk (LogFileOps.opened (log_file_name (a + 1)) fs) (hs ++ [(a + 1, [])]) [].
Proof.
  intros Hdisk Hlast Hmax. pose proof Hdisk as [H1 H2 H3 H4 H5 H6 H7 H8].
  assert (Hin : ∃ xs, (a, xs) ∈ hs).
  { apply last_Some_elem_of, list_elem_of_fmap in Hlast as ([? xs] & -> & ?). by exists xs. }
  destruct Hin as [xs Hin]. destruct (disk_log _ _ _ _ _ Hdisk Hin) as (Ha & _).
  pose proof (valid_id_next _ Ha Hmax) as Ha'.
  assert (Hnone : fs !! log_file_name (a + 1) = None).
  { destruct (fs !! log_file_name (a + 1)) as [f|] eqn:E; [|done]. exfalso.
    destruct (H5 (log_file_name (a + 1)) (a + 1)) as [_ Hel]; [by eauto|by apply parse_log_name|].
    pose proof (sorted_last_max _ _ _ H1 Hlast Hel). lia. }
  assert (Hhint : ∀ id, log_file_name (a + 1) ≠ hint_file_name id).
  { intros id E. apply (f_equal parse_log_file_id) in E.
    by rewrite parse_log_name, parse_log_hint in E. }
  assert (Hold : ∀ name, name ≠ log_file_name (a + 1) →
    LogFileOps.opened (log_file_name (a + 1)) fs !! name = fs !! name).
  { intros. by apply LogFileOps.opened_lookup_ne. }
  split.
  - rewrite fmap_app. apply StronglySorted_app_2; [|done|by repeat constructor].
    intros x y Hx Hy%list_elem_of_singleton. simpl in Hy. subst.
    pose proof (sorted_last_max _ _ _ H1 Hlast Hx). lia.
  - apply Forall_app. split; [done|]. by apply Forall_singleton.
  - apply logs_at_app. split.
    + intros hf Hhf. destruct hs as [|h0 hs _] using rev_ind; [done|].
      rewrite last_ids in Hlast. injection Hlast as <-.
      assert (E : log_data fs hf.1 = log_of hf.2).
      { apply logs_at_app in H3 as [H3 H3']. simpl in H3'. rewrite app_nil_r in H3'.
        apply elem_of_app in Hhf as [Hhf|Hhf%list_elem_of_singleton]; [by apply H3|by subst]. }
      rewrite <-E. apply log_data_ext. rewrite Hold; [done|]. intros E2.
      rewrite Forall_forall in H2. destruct (H2 _ Hhf) as [Hid _].
      apply log_file_name_inj in E2; [|done|done].
      assert (hf.1 ≤ h0.1); [|lia]. eapply sorted_last_max; [done|apply last_ids|].
      by apply list_elem_of_fmap_2.
    + simpl. unfold log_data, LogFileOps.opened_file, LogFileOps.opened. rewrite Hnone.
      by rewrite lookup_insert_eq.
  - done.
  - intros name id Hn Hp. rewrite fmap_app.
    destruct (decide (name = log_file_name (a + 1))) as [->|Hne].
    + rewrite parse_log_name in Hp by done. injection Hp as <-. split; [done|].
      apply elem_of_app. right. by left.
    + rewrite Hold in Hn by done. destruct (H5 _ _ Hn Hp). split; [done|].
      apply elem_of_app. by left.
  - intros id ys f Hel Hf. rewrite Hold in Hf by (intros E; by eapply Hhint).
    apply elem_of_app in Hel as [Hel|Hel%list_elem_of_singleton]; [by eapply H6|].
    simplify_eq. destruct (H7 _ _ Ha' Hf) as (a' & Hl & Hlt). rewrite Hlast in Hl. simplify_eq. lia.
  - intros id f Hid Hf. rewrite Hold in Hf by (intros E; by eapply Hhint).
    destruct (H7 _ _ Hid Hf) as (a' & Hl & Hlt). rewrite Hlast in Hl. simplify_eq.
    exists (a' + 1). rewrite last_ids. split; [done|lia].
  - intros name f Hf. destruct (decide (name = log_file_name (a + 1))) as [->|Hne].
    + unfold LogFileOps.opened in Hf. rewrite Hnone, lookup_insert_eq in Hf. by simplify_eq.
    + rewrite Hold in Hf by done. by eapply H8.
Qed.

(** ** The object of a history *)

Lemma rep_log b w hs id xs : rep b w hs → (id, xs) ∈ hs →
  ∃ f, w_files w !! log_file_name id = Some f ∧ f_data f = log_of xs.
Proof.
  intros [Hd Hp _ _ _] Hin. destruct (disk_log _ _ _ _ _ Hd Hin) as (_ & _ & tl & Hl & Htl).
  assert (tl = []) as -> by (by destruct Htl). rewrite app_nil_r in Hl.
  destruct (Hp id) as [f Hf]; [by apply (list_elem_of_fmap_2 fst _ _ Hin)|]. exists f. split; [done|].
  rewrite <-Hl. unfold log_data, LogFileOps.opened_file. by rewrite Hf.
Qed.

Lemma rep_file b w hs id l : rep b w hs → files_ b !! id = Some l →
  ∃ xs f, (id, xs) ∈ hs ∧ l = mkLogFile true (log_file_name id) (sz (log_of xs)) (opt_sync_mode (options_ b)) ∧
    w_files w !! log_file_name id = Some f ∧ f_data f = log_of xs.
Proof.
  intros Hr Hl. pose proof Hr as [Hd _ Hf _ _]. rewrite Hf in Hl.
  apply files_of_lookup in Hl as (xs & Hin & ->); [|apply Hd].
  destruct (rep_log _ _ _ _ _ Hr Hin) as (f & ? & ?). eauto 10.
Qed.

Lemma log_of_mid xs1 x xs2 : log_of (xs1 ++ x :: xs2) = log_of xs1 ++ enc x ++ log_of xs2.
Proof. by rewrite log_of_app, log_of_cons. Qed.

(** The object of a history serves its map. *)
Lemma rep_serves b w hs : rep b w hs → serves b w (map_of hs).
Proof.
  intros Hr. pose proof Hr as [Hd Hp Hf Hi Ha]. pose proof Hd as [H1 H2 H3 H4 H5 H6 H7 H8].
  assert (Hfile : ∀ id xs, (id, xs) ∈ hs → files_ b !! id =
    Some (mkLogFile true (log_file_name id) (sz (log_of xs)) (opt_sync_mode (options_ b)))).
  { intros id xs Hin. rewrite Hf. apply files_of_lookup; eauto. }
  split.
  - intros id l Hl. destruct (rep_file _ _ _ _ _ Hr Hl) as (xs & f & Hin & -> & Hw & Hdata).
    destruct (disk_log _ _ _ _ _ Hd Hin) as (Hid & _ & _). split_and!; try done.
    + eapply sorted_last_max; [done|done|]. by apply (list_elem_of_fmap_2 fst _ _ Hin).
    + exists f. rewrite Hdata. simpl. split_and!; [done|apply sz_nonneg|done|].
      rewrite <-Hdata. by eapply H8.
  - apply last_Some_elem_of, list_elem_of_fmap in Ha as ([id xs] & -> & Hin). simpl.
    rewrite (Hfile _ _ Hin). eauto.
  - intros id f Hid Hlt Hw. exfalso. destruct (H5 (log_file_name id) id) as [_ Hel];
      [by eauto|by apply parse_log_name|]. pose proof (sorted_last_max _ _ _ H1 Ha Hel). lia.
  - intros k. rewrite Hi, index_of_placement. pose proof (index_map_agree (placement hs) k) as Hk.
    rewrite placement_writes in Hk. fold (map_of hs) in Hk.
    destruct (foldl placed_step ∅ (placement hs) !! k) as [p|]; [|done].
    destruct Hk as (q & Hq & -> & <- & Htomb & Hm). exists (wr_value (pl_write q)). split; [done|].
    apply placement_split in Hq as [xs2 Hin].
    destruct (rep_log _ _ _ _ _ Hr Hin) as (f & Hw & Hdata).
    destruct (disk_log _ _ _ _ _ Hd Hin) as (_ & Hv & _).
    apply Forall_app in Hv as [_ [Hx _]%Forall_cons].
    pose proof (enc_is_record _ Hx) as Hrec. pose proof (is_record_size _ _ Hrec) as Hsz.
    destruct Hrec as [Hdec Htot]. unfold kHeaderSize in Hsz.
    eexists _, f, (rec_of (pl_write q)). cbn [vp_file_id vp_offset vp_size pointer_of].
    rewrite (Hfile _ _ Hin), <-Htot, Hdata, log_of_mid.
    split_and!; [done|done|apply sz_nonneg|lia| | |done|done|].
    + simpl. rewrite !sz_app. pose proof (sz_nonneg (log_of xs2)). lia.
    + by rewrite slice_mid.
    + unfold rec_of, record_of. simpl. by rewrite Htomb.
Qed.

(** ** Writes *)

Lemma map_of_snoc hs hf : map_of (hs ++ [hf]) = foldl map_step (map_of hs) hf.2.
Proof.
  unfold map_of, map_writes. rewrite fmap_app, concat_app, foldl_app. simpl.
  by rewrite app_nil_r.
Qed.

Lemma map_of_write hs a xs x : map_of (hs ++ [(a, xs ++ [x])]) = map_step (map_of (hs ++ [(a, xs)])) x.
Proof. rewrite !map_of_snoc. simpl. by rewrite foldl_app. Qed.

Lemma index_of_snoc hs hf : index_of (hs ++ [hf]) = index_file (index_of hs) hf.
Proof. unfold index_of. by rewrite foldl_app. Qed.

Lemma index_of_write hs a xs x : index_of (hs ++ [(a, xs ++ [x])]) =
  index_step a (index_of (hs ++ [(a, xs)])) (sz (log_of xs), rec_of x, enc x).
Proof.
  rewrite !index_of_snoc. unfold index_file. simpl. by rewrite entries_from_app, foldl_app.
Qed.

Lemma files_of_snoc mode hs hf : hf.1 ∉ hs.*1 →
  files_of mode (hs ++ [hf]) = <[hf.1 := (log_of_file mode hf).2]> (files_of mode hs).
Proof.
  intros Hn. unfold files_of. rewrite fmap_app, list_to_map_app. simpl.
  rewrite <-insert_union_r, (right_id_L ∅ (∪)); [done|]. apply not_elem_of_list_to_map.
  by rewrite <-list_fmap_compose.
Qed.

Lemma disk_sealed b fs hs tl : disk fs hs tl → disk (sealed_files b fs) hs tl.
Proof.
  apply disk_ext. intros name. unfold sealed_files. rewrite lookup_alter.
  case_decide; [|done]. subst. by destruct (_ !! _).
Qed.

Lemma present_sealed b fs hs : present fs hs → present (sealed_files b fs) hs.
Proof. intros Hp id Hid. unfold sealed_files. apply lookup_alter_is_Some. by apply Hp. Qed.

(** A rotation adds an empty file to the history. *)
Lemma rep_rotated b w hs w1 : rep b w hs → w_files w1 = rotated_files b (w_files w) →
  active_id_ b ≠ UINT32_MAX → rep (rotated b) w1 (hs ++ [(active_id_ b + 1, [])]).
Proof.
  intros Hr Hw Hmax. pose proof Hr as [H1 H2 H3 H4 H5].
  pose proof (disk_sealed b _ _ _ H1) as Hsd.
  split; simpl.
  - rewrite Hw. by apply disk_new.
  - rewrite Hw. unfold rotated_files. apply present_snoc. split.
    + intros id Hid. destruct (present_sealed b _ _ H2 id Hid) as [f Hf].
      destruct (LogFileOps.same_data_opened (log_file_name (active_id_ b + 1)) (sealed_files b (w_files w)))
        as [Hk _]. destruct (Hk _ _ Hf) as (f' & -> & _). by eauto.
    + simpl. rewrite LogFileOps.opened_lookup. eauto.
  - rewrite files_of_snoc, <-H3; [done|]. simpl. intros Hin.
    pose proof (sorted_last_max _ _ _ (dk_sorted _ _ _ H1) H5 Hin). lia.
  - by rewrite index_of_snoc.
  - apply last_ids.
Qed.

Lemma rep_target b w hs b1 w1 : rep b w hs → target b w b1 (w_files w1) →
  ∃ hs1, rep b1 w1 hs1 ∧ map_of hs1 = map_of hs.
Proof.
  intros Hr [[-> Hw]|(-> & Hw & Hmax)].
  - exists hs. split; [|done]. destruct Hr as [H1 H2 H3 H4 H5]. split; rewrite ?Hw; done.
  - eexists. split; [by eapply rep_rotated|]. by rewrite map_of_snoc.
Qed.

(** A crash in a rotation leaves the map. *)
Lemma rotating_disk b w hs w' : rep b w hs → rotating b w w' →
  ∃ hs', disk (w_files w') hs' [] ∧ present (w_files w') hs' ∧ map_of hs' = map_of hs.
Proof.
  intros Hr [[Hs _]|[[Hs _]|(Hmax & Hs & _)]].
  - destruct Hr as [Hd Hp _ _ _]. exists hs. by rewrite Hs.
  - destruct Hr as [Hd Hp _ _ _]. exists hs. rewrite Hs.
    split_and!; [by apply disk_sealed|by apply present_sealed|done].
  - destruct (rep_target b w hs (rotated b) w' Hr) as (hs1 & [Hd Hp _ _ _] & Hm); [right; by rewrite Hs|].
    by exists hs1.
Qed.

(** The history of an object that is ready to append. *)
Lemma rep_active b w hs l f : rep b w hs → ready b w l f →
  ∃ hs0 xs, hs = hs0 ++ [(active_id_ b, xs)] ∧ end_offset_ l = sz (log_of xs) ∧ f_data f = log_of xs.
Proof.
  intros Hr [Ha _ Hp Hf _ _ _ _ _]. destruct (rep_file _ _ _ _ _ Hr Ha) as (xs & f' & Hin & -> & Hf' & Hd).
  simpl in *. simplify_eq. destruct Hr as [[H1 _ _ _ _ _ _ _] _ _ _ H5].
  destruct hs as [|[a ys] hs0 _] using rev_ind; [done|].
  rewrite last_ids in H5. injection H5 as H5. simpl in H5. subst a.
  assert (ys = xs) as ->; [|by eauto].
  apply elem_of_app in Hin as [Hin|Hin%list_elem_of_singleton]; [|by simplify_eq]. exfalso.
  rewrite fmap_app in H1.
  apply StronglySorted_app_1_elem_of with (x1 := active_id_ b) (x2 := active_id_ b) in H1; [lia| |by left].
  by apply (list_elem_of_fmap_2 fst _ _ Hin).
Qed.

(** The directory [k] bytes into an append, and after it. *)
Lemma rep_after_bytes b w hs l f x k f' : rep b w hs → ready b w l f → valid_write x →
  end_offset_ l + sz (enc x) ≤ INT64_MAX →
  LogFileOps.after_bytes (take (Z.to_nat (end_offset_ l)) (f_data f))
    (drop (Z.to_nat (end_offset_ l)) (f_data f)) (enc x) k f f' →
  ∃ hs0 xs, hs = hs0 ++ [(active_id_ b, xs)] ∧ end_offset_ l = sz (log_of xs) ∧
    if decide (k = length (enc x))
    then disk (<[lf_path l := f']> (w_files w)) (hs0 ++ [(active_id_ b, xs ++ [x])]) []
    else disk (<[lf_path l := f']> (w_files w)) hs (take k (enc x)).
Proof.
  intros Hr Hready Hx Hmax (Hk & Hd & _). destruct (rep_active _ _ _ _ _ Hr Hready) as (hs0 & xs & -> & He & Hf).
  exists hs0, xs. split_and!; [done|done|].
  assert (Hd' : f_data f' = log_of xs ++ take k (enc x)).
  { rewrite Hd, He, Hf. unfold sz. rewrite Nat2Z.id, firstn_all, skipn_all. by rewrite drop_nil, app_nil_r. }
  destruct Hr as [Hdisk _ _ _ _]. destruct Hready as [_ _ Hp _ _ _ _ _ _]. rewrite Hp.
  assert (Hv : Forall valid_write xs).
  { destruct (disk_log _ _ _ (active_id_ b) xs Hdisk) as (_ & ? & _); [|done]. apply elem_of_app. right. by left. }
  assert (Hsz : sz (f_data f') ≤ INT64_MAX).
  { rewrite Hd', sz_app. unfold sz in *. rewrite length_take. lia. }
  case_decide as Hlen.
  - eapply disk_update; [done| |..|done]; [|by apply Forall_app, conj, Forall_singleton|done].
    by rewrite Hd', Hlen, firstn_all, log_of_snoc, app_nil_r.
  - eapply disk_update; [done|done|done| |done]. apply torn_no_record; [done|lia].
Qed.

Lemma present_insert fs hs name f : present fs hs → present (<[name := f]> fs) hs.
Proof. intros Hp id Hid. rewrite lookup_insert. case_decide; [by eauto|]. by apply Hp. Qed.

Lemma present_ids fs hs hs' : hs.*1 = hs'.*1 → present fs hs → present fs hs'.
Proof. intros E Hp id Hid. apply Hp. by rewrite E. Qed.

(** The index entry of a finished write. *)
Definition indexed (b : Bitcask) (l : LogFile) (x : write) : Index :=
  index_step (active_id_ b) (index_ b) (end_offset_ l, rec_of x, enc x).

Lemma rep_written b w hs l f x f' w' d : rep b w hs → ready b w l f → valid_write x →
  end_offset_ l + sz (enc x) ≤ INT64_MAX →
  w_files w' = <[lf_path l := f']> (w_files w) →
  LogFileOps.after_bytes (take (Z.to_nat (end_offset_ l)) (f_data f))
    (drop (Z.to_nat (end_offset_ l)) (f_data f)) (enc x) (length (enc x)) f f' →
  ∃ hs', rep (set_dead d (set_index (indexed b l x) (grown b l (sz (enc x))))) w' hs' ∧
    map_of hs' = map_step (map_of hs) x.
Proof.
  intros Hr Hready Hx Hmax Hw Ha.
  destruct (rep_after_bytes _ _ _ _ _ _ _ _ Hr Hready Hx Hmax Ha) as (hs0 & xs & -> & He & Hd).
  rewrite decide_True in Hd by done. exists (hs0 ++ [(active_id_ b, xs ++ [x])]).
  split; [|apply map_of_write]. pose proof Hr as [Hdisk Hpres Hfiles Hindex Hactive].
  assert (Hn : active_id_ b ∉ hs0.*1).
  { intros Hin. pose proof (dk_sorted _ _ _ Hdisk) as Hs. rewrite fmap_app in Hs.
    apply StronglySorted_app_1_elem_of with (x1 := active_id_ b) (x2 := active_id_ b) in Hs; [lia|done|by left]. }
  split; simpl.
  - by rewrite Hw.
  - rewrite Hw. apply present_insert. eapply present_ids, Hpres. by rewrite !fmap_app.
  - destruct Hready as [Hact _ _ _ _ _ _ _ _].
    destruct (rep_file _ _ _ _ _ Hr Hact) as (xs' & ? & _ & -> & _). simpl in *.
    rewrite Hfiles, !files_of_snoc, insert_insert_eq by done. simpl.
    unfold LogFileOps.set_end. simpl. rewrite He, log_of_snoc, sz_app. done.
  - unfold indexed. rewrite He, Hindex. by rewrite index_of_write.
  - apply last_ids.
Qed.

(** A crash anywhere in a write leaves the old history or the new one. *)
Lemma interrupted_disk b w hs x b' w' : rep b w hs → valid_write x →
  interrupted b w (enc x) b' w' →
  ∃ hs' tl, disk (w_files w') hs' tl ∧ present (w_files w') hs' ∧
    (map_of hs' = map_of hs ∨ map_of hs' = map_step (map_of hs) x).
Proof.
  intros Hr Hx [[-> Hrot]|[(-> & Hw & Hmax)|
    (k & b1 & w1 & l1 & f1 & f' & Ht & Hready & Hmax & Hw & Ha & _)]].
  - destruct (rotating_disk _ _ _ _ Hr Hrot) as (hs' & ? & ? & ?). exists hs', []. auto.
  - destruct (rep_target b w hs (rotated b) w' Hr) as (hs1 & [Hd Hp _ _ _] & Hm); [right; by rewrite Hw|].
    exists hs1, []. auto.
  - destruct (rep_target _ _ _ _ _ Hr Ht) as (hs1 & Hr1 & Hm).
    destruct (rep_after_bytes _ _ _ _ _ _ _ _ Hr1 Hready Hx Hmax Ha) as (hs0 & xs & -> & _ & Hd).
    rewrite <-Hw in Hd. destruct Hr1 as [_ Hpres _ _ _].
    assert (Hpres' : present (w_files w') (hs0 ++ [(active_id_ b1, xs)]))
      by (rewrite Hw; by apply present_insert).
    case_decide.
    + eexists _, []. split_and!; [done| |right; by rewrite map_of_write, Hm].
      eapply present_ids, Hpres'. by rewrite !fmap_app.
    + eexists _, _. split_and!; [done|done|by left].
Qed.

Lemma indexed_put b l x : valid_write x → wr_tomb x = false →
  indexed b l x = <[wr_key x := mkPointer (end_offset_ l) (wr_ts x) (active_id_ b) (u32 (sz (enc x)))]> (index_ b).
Proof.
  intros Hx Ht. pose proof (is_record_size _ _ (enc_is_record x Hx)) as Hsz. unfold kHeaderSize in Hsz.
  destruct (enc_is_record x Hx) as [_ Htot]. rewrite u32_id by lia. rewrite Htot.
  unfold indexed, index_step, rec_of, record_of. simpl. by rewrite Ht.
Qed.

Lemma indexed_remove b l x : wr_tomb x = true → indexed b l x = delete (wr_key x) (index_ b).
Proof. intros Ht. unfold indexed, index_step, rec_of, record_of. simpl. by rewrite Ht. Qed.

(** ** A write, from the outside *)

Lemma synced_sealed b fs : synced fs → synced (sealed_files b fs).
Proof.
  intros Hs name f Hp. unfold sealed_files. rewrite lookup_alter. case_decide; [|by apply Hs].
  by intros (f0 & _ & ->)%fmap_Some.
Qed.

Lemma synced_rotating b w w' : synced (w_files w) → rotating b w w' → synced (w_files w').
Proof. intros Hs [[-> _]|[[-> _]|(_ & -> & _)]]; [done|by apply synced_sealed|by apply clean_opened, synced_sealed]. Qed.

Lemma synced_target b w b1 fs : synced (w_files w) → target b w b1 fs → synced fs.
Proof. intros Hs [[_ ->]|(_ & -> & _)]; [done|]. by apply clean_opened, synced_sealed. Qed.

(** The write [x] of a binding or a tombstone, with the time the clock gave. *)
Definition write_of (k v : bytes) (tomb : bool) (x : write) : Prop :=
  valid_write x ∧ wr_key x = k ∧ wr_value x = v ∧ wr_tomb x = tomb.

(** The write is done. *)
Definition finished (b : Bitcask) (w : World) (hs : history) (x : write) (b' : Bitcask) (w' : World) : Prop :=
  (∃ hs', rep b' w' hs' ∧ map_of hs' = map_step (map_of hs) x) ∧
  (opt_sync_mode (options_ b) = Always → synced (w_files w) → synced (w_files w')).

Lemma finished_written b w hs b1 w1 l1 f1 x f2 w2 d : rep b w hs → target b w b1 (w_files w1) → ready b1 w1 l1 f1 → valid_write x →
  end_offset_ l1 + sz (enc x) ≤ INT64_MAX → w_files w2 = <[lf_path l1 := f2]> (w_files w1) →
  LogFileOps.after_bytes (take (Z.to_nat (end_offset_ l1)) (f_data f1)) (drop (Z.to_nat (end_offset_ l1)) (f_data f1)) (enc x) (length (enc x)) f1 f2 →
  (sync_mode_ l1 = Always → f_synced f2 = length (f_data f2)) →
  finished b w hs x (set_dead d (set_index (indexed b1 l1 x) (grown b1 l1 (sz (enc x))))) w2.
Proof.
  intros Hr Ht Hready Hx Hmax Hw Ha Hsync. destruct (rep_target _ _ _ _ _ Hr Ht) as (hs1 & Hr1 & Hm). split.
  - destruct (rep_written _ _ _ _ _ _ _ _ d Hr1 Hready Hx Hmax Hw Ha) as (hs' & Hr' & Hm'). exists hs'. by rewrite Hm', Hm.
  - intros Hmode Hs. rewrite Hw. apply clean_insert; [by eapply synced_target|]. apply Hsync.
    destruct (rep_file _ _ _ _ _ Hr1 (rd_active _ _ _ _ Hready)) as (xs & f & _ & -> & _). cbn.
    by destruct Ht as [[-> _]|[-> _]].
Qed.

(** A put from a state a recovery would rebuild appends one record; it fails in a reliable
    world only for an argument it must refuse, with nothing changed. *)
Lemma wp_put_written b w hs k v : rep b w hs → 0 ≤ max_file_size (options_ b) ≤ INT64_MAX →
  sz k + sz v ≤ UINT64_MAX → active_id_ b ≠ UINT32_MAX →
  wp (put k v) b w
    (λ _ b' w', options_ b' = options_ b ∧ fits k v false ∧
       ∃ x w0, write_of k v false x ∧ w_files w0 = w_files w ∧ finished b w0 hs x b' w')
    (λ e b' w', reliable w → b' = b ∧ w_files w' = w_files w ∧ code_ e = InvalidArgument ∧ ¬ fits k v false)
    (λ w', ∃ x b' w0, write_of k v false x ∧ w_files w0 = w_files w ∧ interrupted b w0 (enc x) b' w').
Proof.
  intros Hr Hmfs Hmax Hids. unfold put. destruct k as [|c k0]; [|set (k := c :: k0) in *].
  { apply wp_fail. intros _. split_and!; [done..|]. by intros [? _]. }
  assert (Hk : k ≠ []) by done.
  destruct (check_record_fits_err k v) as [E|E]; rewrite E.
  2: { apply wp_bind_fail. intros _. split_and!; [done..|].
       intros Hf%(check_record_fits_ok k v false Hk Hmax). unfold stored in Hf. congruence. }
  apply (check_record_fits_ok k v false Hk Hmax) in E as Hf. wp_pure.
  wp_call wp_now_nanos. intros ts ? w1 Hc1 (-> & Hw1 & Hts). cbv zeta.
  set (x := mkWrite k v ts false). assert (Hx : valid_write x) by done.
  change (encode k v ts false) with (enc x).
  pose proof (is_record_size _ _ (enc_is_record x Hx)) as Hsz. unfold kHeaderSize in Hsz.
  assert (Hr1 : rep b w1 hs) by (destruct Hr as [H1 H2 H3 H4 H5]; split; by rewrite ?Hw1).
  eapply wp_log_write; [by apply rep_serves|lia|done| | |].
  - intros b1 w2 l1 f1 f2 w3 Ht Hready Hm2 Hc3 Hw3 Ha Hsync. wp_pure.
    apply wp_index_put_dead. intros d. split_and!; [by destruct Ht as [[-> _]|[-> _]]|done|].
    exists x, w1. split; [by split_and!|]. split; [done|].
    pose proof (finished_written _ _ _ _ _ _ _ _ _ _ d Hr1 Ht Hready Hx Hm2 Hw3 Ha Hsync) as Hfin.
    by rewrite (indexed_put b1 l1 x Hx eq_refl) in Hfin.
  - intros e b' w' [?|Hu]; [done|]. intros _ Hrel. exfalso. eauto with wp.
  - intros b' w' Hint. exists x, b', w1. split; [by split_and!|done].
Qed.

(** So does a remove. *)
Lemma wp_remove_written b w hs k : rep b w hs → 0 ≤ max_file_size (options_ b) ≤ INT64_MAX →
  sz k ≤ UINT64_MAX → active_id_ b ≠ UINT32_MAX →
  wp (remove k) b w
    (λ _ b' w', options_ b' = options_ b ∧ fits k [] true ∧
       ∃ x w0, write_of k [] true x ∧ w_files w0 = w_files w ∧ finished b w0 hs x b' w')
    (λ e b' w', reliable w → b' = b ∧ w_files w' = w_files w ∧ code_ e = InvalidArgument ∧ ¬ fits k [] true)
    (λ w', ∃ x b' w0, write_of k [] true x ∧ w_files w0 = w_files w ∧ interrupted b w0 (enc x) b' w').
Proof.
  intros Hr Hmfs Hmax Hids. unfold remove. destruct k as [|c k0]; [|set (k := c :: k0) in *].
  { apply wp_fail. intros _. split_and!; [done..|]. by intros [? _]. }
  assert (Hk : k ≠ []) by done. assert (Hmax' : sz k + sz (@nil byte) ≤ UINT64_MAX) by (rewrite sz_nil; lia).
  destruct (check_record_fits_err k []) as [E|E]; rewrite E.
  2: { apply wp_bind_fail. intros _. split_and!; [done..|].
       intros Hf%(check_record_fits_ok k [] true Hk Hmax'). unfold stored in Hf. congruence. }
  apply (check_record_fits_ok k [] true Hk Hmax') in E as Hf. wp_pure.
  wp_call wp_now_nanos. intros ts ? w1 Hc1 (-> & Hw1 & Hts). cbv zeta.
  set (x := mkWrite k [] ts true). assert (Hx : valid_write x) by done.
  change (encode k [] ts true) with (enc x).
  pose proof (is_record_size _ _ (enc_is_record x Hx)) as Hsz. unfold kHeaderSize in Hsz.
  assert (Hr1 : rep b w1 hs) by (destruct Hr as [H1 H2 H3 H4 H5]; split; by rewrite ?Hw1).
  eapply wp_log_write; [by apply rep_serves|lia|done| | |].
  - intros b1 w2 l1 f1 f2 w3 Ht Hready Hm2 Hc3 Hw3 Ha Hsync.
    eapply wp_bind; [apply (wp_index_erase_dead k _ _ (λ _ b' w', w' = w3 ∧
      ∃ d, b' = set_dead d (set_index (delete k (index_ b1)) (grown b1 l1 (sz (enc x)))))
      (λ _ _ _, False) (λ _, False)); by eauto| |done|done]; cbn beta.
    intros [] b4 w4 _ (-> & d & ->). wp_pure. unfold mark_dead. apply wp_modify.
    split_and!; [by destruct Ht as [[-> _]|[-> _]]|done|].
    exists x, w1. split; [by split_and!|]. split; [done|].
    pose proof (finished_written _ _ _ _ _ _ _ _ _ _ (<[active_id_ b1 := u64 (default 0 (d !! active_id_ b1) +
      u32 (sz (enc x)))]> d) Hr1 Ht Hready Hx Hm2 Hw3 Ha Hsync) as Hfin.
    by rewrite (indexed_remove b1 l1 x eq_refl) in Hfin.
  - intros e b' w' [?|Hu]; [done|]. intros _ Hrel. exfalso. eauto with wp.
  - intros b' w' Hint. exists x, b', w1. split; [by split_and!|done].
Qed.

Lemma map_step_put m k v x : write_of k v false x → map_step m x = <[k := v]> m.
Proof. intros (_ & <- & <- & Ht). unfold map_step. by rewrite Ht. Qed.

Lemma map_step_remove m k v x : write_of k v true x → map_step m x = delete k m.
Proof. intros (_ & <- & _ & Ht). unfold map_step. by rewrite Ht. Qed.

(** What a crash during [put] or [remove] can leave: the old map or the new one. *)
Definition crash_left (w' : World) (m m' : gmap bytes bytes) : Prop :=
  ∃ hs tl, disk (w_files w') hs tl ∧ present (w_files w') hs ∧ (map_of hs = m ∨ map_of hs = m').

(** A put from a state a recovery would rebuild ends in such a state, with the new
    binding; it fails in a reliable world only for an argument it must refuse, with
    nothing changed; and a crash anywhere in it leaves the old or the new map. *)
Lemma wp_put_rep b w hs k v : rep b w hs → 0 ≤ max_file_size (options_ b) ≤ INT64_MAX →
  sz k + sz v ≤ UINT64_MAX → active_id_ b ≠ UINT32_MAX →
  wp (put k v) b w
    (λ _ b' w', options_ b' = options_ b ∧ fits k v false ∧
       ∃ hs', rep b' w' hs' ∧ map_of hs' = <[k := v]> (map_of hs))
    (λ e b' w', reliable w → b' = b ∧ w_files w' = w_files w ∧ code_ e = InvalidArgument ∧ ¬ fits k v false)
    (λ w', crash_left w' (map_of hs) (<[k := v]> (map_of hs))).
Proof.
  intros Hr Hmfs Hmax Hids. eapply wp_mono; [by apply (wp_put_written b w hs)| |done|]; cbn beta.
  - intros _ b' w' _ (Ho & Hf & x & w0 & Hx & _ & (hs' & Hr' & Hm) & _). split_and!; [done|done|]. exists hs'. by rewrite Hm, (map_step_put _ k v x).
  - intros w' _ (x & b' & w0 & Hx & Hw & Hint). destruct (interrupted_disk b w0 hs x b' w') as (hs' & tl & ? & ? & Hm); [|apply Hx|done|].
    + destruct Hr as [H1 H2 H3 H4 H5]. split; by rewrite ?Hw.
    + rewrite (map_step_put _ k v x Hx) in Hm. by exists hs', tl.
Qed.

Lemma wp_remove_rep b w hs k : rep b w hs → 0 ≤ max_file_size (options_ b) ≤ INT64_MAX →
  sz k ≤ UINT64_MAX → active_id_ b ≠ UINT32_MAX →
  wp (remove k) b w
    (λ _ b' w', options_ b' = options_ b ∧ fits k [] true ∧
       ∃ hs', rep b' w' hs' ∧ map_of hs' = delete k (map_of hs))
    (λ e b' w', reliable w → b' = b ∧ w_files w' = w_files w ∧ code_ e = InvalidArgument ∧ ¬ fits k [] true)
    (λ w', crash_left w' (map_of hs) (delete k (map_of hs))).
Proof.
  intros Hr Hmfs Hmax Hids. eapply wp_mono; [by apply (wp_remove_written b w hs)| |done|]; cbn beta.
  - intros _ b' w' _ (Ho & Hf & x & w0 & Hx & _ & (hs' & Hr' & Hm) & _). split_and!; [done|done|]. exists hs'. by rewrite Hm, (map_step_remove _ k [] x).
  - intros w' _ (x & b' & w0 & Hx & Hw & Hint). destruct (interrupted_disk b w0 hs x b' w') as (hs' & tl & ? & ? & Hm); [|apply Hx|done|].
    + destruct Hr as [H1 H2 H3 H4 H5]. split; by rewrite ?Hw.
    + rewrite (map_step_remove _ k [] x Hx) in Hm. by exists hs', tl.
Qed.

End Disk.
