(* ===== verification/BitcaskRecover.v ===== *)
(** Recovery of a Bitcask directory: [Bitcask::open], [recover], [replay_file],
    [replay_hint], [sweep_temp_files]. *)

From S2P Require Import Prelude Status FileNames World Wp Encoding Record Hint LogFile Power LogScan.
From S2P Require Import Bitcask BitcaskState BitcaskSteps BitcaskServe BitcaskDisk.
Import record BitcaskOps.

#[local] Opaque encode decode decode_header hint.encode_entry hint.decode_entry
  hint.encode_footer hint.decode_footer.

Section Recover.
Context `{Platform}.

(** The object with a new index; the dead-byte counters are left open. *)
Definition reindexed (b : Bitcask) (idx : Index) (b' : Bitcask) : Prop :=
  ∃ d, b' = set_dead d (set_index idx b).

Lemma reindexed_refl b : reindexed b (index_ b) b.
Proof. exists (dead_bytes_ b). by destruct b. Qed.

Lemma reindexed_trans b idx1 b1 idx2 b2 : reindexed b idx1 b1 → reindexed b1 idx2 b2 → reindexed b idx2 b2.
Proof. intros [d1 ->] [d2 ->]. by exists d2. Qed.

Lemma reindexed_index b idx b' : reindexed b idx b' → index_ b' = idx.
Proof. by intros [d ->]. Qed.

(** ** Replaying a data file *)

Lemma wp_replay_visit id o r raw b w :
  wp (replay_visit id o r raw) b w
    (λ _ b' w', w' = w ∧ reindexed b (index_step id (index_ b) (o, r, raw)) b')
    (λ _ _ _, False) (λ _, False).
Proof.
  unfold replay_visit, index_step. destruct (r_is_tombstone r).
  - eapply wp_bind; [apply (wp_index_erase_dead _ _ _ (λ _ b' w', w' = w ∧
      reindexed b (delete (r_key r) (index_ b)) b') (λ _ _ _, False) (λ _, False)); intros d;
      split; [done|by exists d]| |done|done]; cbn beta.
    intros [] b1 w1 _ [-> [d ->]]. unfold mark_dead. apply wp_modify. split; [done|].
    eexists. simpl. done.
  - apply wp_index_put_dead. intros d. split; [done|by exists d].
Qed.

(** A prefix of the entries of a log is the entries of a prefix of its writes. *)
Lemma entries_prefix off xs done rest : entries_from off xs = done ++ rest →
  ∃ xs1 xs2, xs = xs1 ++ xs2 ∧ done = entries_from off xs1.
Proof.
  revert off done. induction xs as [|x xs IH]; intros off done; simpl.
  - intros E. symmetry in E. apply app_eq_nil in E as [-> ->]. by exists [], [].
  - destruct done as [|e done]; simpl.
    + intros _. by exists [], (x :: xs).
    + intros [= <- E]. apply IH in E as (xs1 & xs2 & -> & ->). by exists (x :: xs1), xs2.
Qed.

Lemma log_of_no_more xs1 xs2 n : Forall valid_write xs2 → 0 ≤ n →
  sz (log_of xs1) = sz (log_of (xs1 ++ xs2)) + n → xs2 = [] ∧ n = 0.
Proof.
  intros Hv Hn E. rewrite log_of_app, sz_app in E.
  destruct Hv as [|x xs2 Hx Hv]; [change (log_of []) with (@nil byte) in E; rewrite sz_nil in E; split; [done|lia]|].
  exfalso. pose proof (is_record_size _ _ (enc_is_record _ Hx)) as Hsz. unfold kHeaderSize in Hsz.
  rewrite log_of_cons, !sz_app in E. pose proof (sz_nonneg (log_of xs2)). lia.
Qed.

(** What replaying the file of [xs] leaves of it: the file, or the file cut off
    behind [xs'], a prefix of [xs] that is all of it unless a call failed. *)
Definition replayed (w : World) (id : Z) (is_active : bool) (xs xs' : list write) (tl' : bytes)
    (w' : World) : Prop :=
  xs' `prefix_of` xs ∧ (reliable w → xs' = xs) ∧ (is_active = false → xs' = xs ∧ tl' = []) ∧
  next_record tl' = None ∧
  ∃ f', w_files w' = <[log_file_name id := f']> (w_files w) ∧ f_data f' = log_of xs' ++ tl' ∧
    sz (f_data f') ≤ INT64_MAX ∧ (synced (w_files w) → fully f').

Lemma wp_replay_file b w id l f xs tl is_active :
  files_ b !! id = Some l → lf_open l = true → lf_path l = log_file_name id →
  w_files w !! log_file_name id = Some f → f_data f = log_of xs ++ tl →
  end_offset_ l = sz (f_data f) → sz (f_data f) ≤ INT64_MAX →
  Forall valid_write xs → next_record tl = None → (is_active = false → tl = []) →
  wp (replay_file id is_active) b w
    (λ _ b' w', ∃ xs', replayed w id is_active xs xs' [] w' ∧
       reindexed (set_log_files (<[id := LogFileOps.set_end (sz (log_of xs')) l]> (files_ b)) b)
         (index_file (index_ b) (id, xs')) b')
    (λ e b' w', ¬ reliable w)
    (λ w', ∃ xs' tl', replayed w id is_active xs xs' tl' w').
Proof.
  intros Hl Ho Hp Hf Hd He Hmax Hv Htl Hact. unfold replay_file. wp_pure. rewrite Hl.
  assert (Hsame : ∀ w', same_files w w' → replayed w id is_active xs xs tl w').
  { intros w' [Hw _]. split_and!; [done|done|auto|done|]. exists f.
    rewrite Hw, insert_id by done. split_and!; [done..|]. intros Hsy. by eapply synced_log. }
  eapply wp_bind; [eapply (wp_scan_records l f (f_data f) [] (replay_visit id)
    (λ done b' w', same_files w w' ∧ reindexed b (foldl (index_step id) (index_ b) done) b')
    (λ _ _ _, False) (λ w', ∃ xs' tl', replayed w id is_active xs xs' tl' w')
    (entries_from 0 xs) tl w); try done| | |]; cbn beta.
  - by rewrite app_nil_r.
  - rewrite Hd. by apply parse_log_of.
  - intros done b' w' [[Hw _] _]. by rewrite Hw, Hp.
  - intros done b1 w1 w2 [[??] ?] [??] _. split; [split; congruence|done].
  - intros done b1 w1 w2 [[??] ?] _ [??]. exists xs, tl. apply Hsame. split; congruence.
  - intros done o r raw rest b1 w1 _ _ _ [Hs Hb1] _.
    eapply wp_mono; [apply wp_replay_visit| |done|done]; cbn beta.
    intros [] b2 w2 _ [-> Hb2]. split; [done|]. rewrite foldl_app. simpl.
    eapply reindexed_trans; [done|]. by rewrite (reindexed_index _ _ _ Hb1) in Hb2.
  - split; [done|apply reindexed_refl].
  - intros n b1 w1 Hc1 (done & rest & Hes & -> & [Hs Hb1] & Hrel).
    apply entries_prefix in Hes as Hpre. destruct Hpre as (xs1 & xs2 & -> & ->).
    rewrite raws_entries.
    assert (Hxs1 : reliable w → xs1 = xs1 ++ xs2).
    { intros Hr. apply Hrel in Hr as ->. rewrite app_nil_r in Hes.
      apply (f_equal (sz ∘ raws)) in Hes. simpl in Hes. rewrite !raws_entries in Hes.
      apply Forall_app in Hv as [_ Hv2].
      destruct (log_of_no_more xs1 xs2 0 Hv2) as [-> _]; [done|lia|by rewrite app_nil_r]. }
    assert (Hcut : f_data f = log_of xs1 ++ (log_of xs2 ++ tl)) by (by rewrite Hd, log_of_app, app_assoc).
    assert (Hl1 : files_ b1 !! id = Some l) by (by destruct Hb1 as [d ->]).
    destruct (Z.eqb_spec (sz (log_of xs1)) (end_offset_ l)) as [Heq|Hneq].
    + apply Forall_app in Hv as [_ Hv2]. rewrite He, Hd, sz_app in Heq.
      destruct (log_of_no_more xs1 xs2 (sz tl) Hv2) as [-> Htl0]; [apply sz_nonneg|done|].
      apply sz_zero_nil in Htl0 as ->. rewrite !app_nil_r in *. apply wp_ret. exists xs1. split; [by apply Hsame|].
      replace (LogFileOps.set_end (sz (log_of xs1)) l) with l.
      * by rewrite set_log_files_same.
      * assert (E : sz (log_of xs1) = end_offset_ l) by (by rewrite He, Hd, ?app_nil_r).
        rewrite E. by destruct l.
    + assert (Hs1 : w_files w1 = w_files w) by (by destruct Hs).
      assert (Hmax1 : sz (log_of xs1) ≤ INT64_MAX).
      { rewrite Hcut, sz_app in Hmax. pose proof (sz_nonneg (log_of xs2 ++ tl)). lia. }
      pose proof (LogFileOps.truncate_file_data f _ _ _ Hcut eq_refl) as Htr.
      destruct is_active; simpl.
      2: { apply wp_fail. intros Hr. apply Hneq. rewrite (Hact eq_refl), app_nil_r in Hd.
           by rewrite He, Hd, <-(Hxs1 Hr). }
      eapply wp_on_file; [done|]. eapply wp_mono; [apply (LogFileOps.wp_truncate l w1 f)|..]; cbn beta.
      * done.
      * by rewrite Hs1, Hp.
      * rewrite Hcut, sz_app. pose proof (sz_nonneg (log_of xs1)). pose proof (sz_nonneg (log_of xs2 ++ tl)). lia.
      * intros [] l2 w2 Hc2 [-> [Hw2 _]]. exists xs1. split.
        -- split_and!; [by exists xs2|done|done|done|].
           eexists. rewrite Hw2, Hs1, Hp. split; [done|].
           rewrite app_nil_r. split_and!; [exact Htr|by rewrite <-Htr in Hmax1|done].
        -- destruct Hb1 as [d ->]. by exists d.
      * intros e l2 w2 Hc2 (Hu & _). eauto with wp.
      * intros w2 _ [Hw2|[Hw2 _]].
        -- exists (xs1 ++ xs2), tl. apply Hsame. destruct Hw2, Hs. split; congruence.
        -- exists xs1, []. split_and!; [by exists xs2|done|done|done|].
           eexists. rewrite Hw2, Hs1, Hp. split; [done|].
           rewrite app_nil_r. split_and!; [exact Htr|by rewrite <-Htr in Hmax1|].
           intros Hsy. eapply fully_truncate; [exact Hcut|by eapply synced_log].
  - done.
  - done.
Qed.

(** ** Replaying a hint *)

(** The entries a hint file describes [xs] with. *)
Fixpoint hint_list (off : Z) (xs : list write) : list hint.Entry :=
  match xs with
  | [] => []
  | x :: xs => hint.mkEntry (wr_ts x) off (r_total_size (rec_of x)) (wr_key x) ::
               hint_list (off + sz (enc x)) xs
  end.

Lemma hint_list_app off xs ys :
  hint_list off (xs ++ ys) = hint_list off xs ++ hint_list (off + sz (log_of xs)) ys.
Proof.
  revert off. induction xs as [|x xs IH]; intros off; simpl.
  - by rewrite Z.add_0_r.
  - by rewrite IH, log_of_cons, sz_app, Z.add_assoc.
Qed.

Lemma hint_entries_app off xs ys :
  hint_entries off (xs ++ ys) = hint_entries off xs ++ hint_entries (off + sz (log_of xs)) ys.
Proof.
  revert off. induction xs as [|x xs IH]; intros off; simpl.
  - by rewrite Z.add_0_r.
  - by rewrite IH, log_of_cons, sz_app, Z.add_assoc, app_assoc.
Qed.

Lemma sz_hint_list off xs : sz (hint_list off xs) = sz xs.
Proof. revert off. induction xs as [|x xs IH]; intros off; [done|]. simpl. by rewrite !sz_cons, IH. Qed.

(** The encoded form of one hint entry. *)
Definition hint_enc (off : Z) (x : write) : bytes :=
  hint.encode_entry (wr_key x) (wr_ts x) off (r_total_size (rec_of x)).

Lemma valid_write_key x : valid_write x → wr_key x ≠ [] ∧ 0 < sz (wr_key x) ≤ UINT32_MAX.
Proof. intros [Hf _]. pose proof (fits_bounds _ _ _ Hf) as [? _]. by destruct Hf. Qed.

Lemma hint_enc_facts off x : valid_write x → 0 ≤ off ≤ INT64_MAX →
  sz (hint_enc off x) = hint.kEntryHeaderSize + sz (wr_key x) ∧
  hint.decode_entry (hint_enc off x) =
    ROk (hint.mkEntry (wr_ts x) off (r_total_size (rec_of x)) (wr_key x)) ∧
  ∀ rest, encoding.get_u32 (take 28 (hint_enc off x ++ rest)) 24 = ROk (sz (wr_key x)).
Proof.
  intros Hx Hoff. pose proof (valid_write_key _ Hx) as [Hk Hksz]. pose proof (enc_is_record x Hx) as Hr.
  pose proof (is_record_size _ _ Hr) as Hsz. destruct Hr as [_ Htot]. rewrite Htot in Hsz.
  unfold hint_enc. split_and!.
  - apply hint.sz_encode_entry. lia.
  - rewrite <-(app_nil_r (hint.encode_entry _ _ _ _)).
    apply hint.decode_encoded_entry; unfold UINT64_MAX, INT64_MAX in *; try lia; try done.
    destruct Hx. done.
  - intros rest. rewrite hint.encode_entry_split, <-app_assoc by lia.
    rewrite take_app_length' by (pose proof (hint.sz_entry_header (wr_key x) (wr_ts x) off
      (r_total_size (rec_of x))); unfold sz in *; lia).
    unfold hint.entry_header. autorewrite with rd. rewrite <-(app_nil_r (le32 (sz (wr_key x)))).
    apply rd_u32_here; lia.
Qed.

Lemma slice_drop_take (d : bytes) off n : 0 ≤ off → slice d off n = take (Z.to_nat n) (drop (Z.to_nat off) d).
Proof. done. Qed.

Section hint_loop.
Context (hl : LogFile) (f : file) (xs : list write) (tl : bytes) (b : Bitcask) (w : World).
Hypothesis Hopen : lf_open hl = true.
Hypothesis Hfile : w_files w !! lf_path hl = Some f.
Hypothesis Hdata : f_data f = hint_entries 0 xs ++ tl.
Hypothesis Hmax : sz (f_data f) ≤ INT64_MAX.
Hypothesis Hlog : sz (log_of xs) ≤ INT64_MAX.
Hypothesis Hvalid : Forall valid_write xs.

(** A read of the hint file gives the bytes, or fails and makes the hint unusable. *)
Lemma wp_hint_read {B} off n (k : (bytes * LogFile) + Status → M Bitcask B) w1 Q E :
  same_files w w1 → 0 ≤ off → 0 ≤ n → off + n ≤ sz (f_data f) →
  (∀ w', same_files w w' → calm w1 w' →
     wp (k (inl (slice (f_data f) off n, hl))) b w' Q E (same_files w)) →
  (∀ e w', same_files w w' → wp (k (inr e)) b w' Q E (same_files w)) →
  wp (attempt (with_local hl (LogFileOps.read_at off n)) ≫= k) b w1 Q E (same_files w).
Proof.
  intros [Hs Ht] Ho Hn Hle Hok Herr.
  eapply wp_bind_attempt_local; [apply (LogFileOps.wp_read_at hl w1 f off n); try done;
    [by rewrite Hs|unfold UINT64_MAX, INT64_MAX in *; lia]|..]; cbn beta.
  - intros bs ? w' Hc (-> & [??] & -> & _). apply Hok; [split; congruence|done].
  - intros e ? w' Hc (-> & [??] & _). apply Herr. split; congruence.
  - intros w' _ [??]. split; congruence.
Qed.

Lemma wp_hint_loop fuel xs1 xs2 w1 : xs = xs1 ++ xs2 → same_files w w1 →
  sz (hint_entries 0 xs) - sz (hint_entries 0 xs1) < Z.of_nat fuel →
  wp (hint_loop fuel hl (sz (log_of xs)) (sz (hint_entries 0 xs)) (sz (hint_entries 0 xs1))
        (hint_list 0 xs1)) b w1
    (λ r b' w', b' = b ∧ same_files w w' ∧
       match r with
       | None => True
       | Some (off, es) => off = sz (hint_entries 0 xs) ∧ es = hint_list 0 xs
       end)
    (λ _ _ _, False) (same_files w).
Proof.
  revert xs1 xs2 w1. induction fuel as [|fuel IH]; intros xs1 xs2 w1 Hxs Hs Hfuel.
  { exfalso. rewrite Hxs, hint_entries_app, sz_app in Hfuel.
    pose proof (sz_nonneg (hint_entries (0 + sz (log_of xs1)) xs2)). lia. }
  set (cur := sz (hint_entries 0 xs1)) in *. set (fin := sz (hint_entries 0 xs)) in *.
  assert (Hcur0 : 0 ≤ cur) by apply sz_nonneg.
  assert (Hfin : fin ≤ sz (f_data f)) by (rewrite Hdata, sz_app; unfold fin; pose proof (sz_nonneg tl); lia).
  cbn [hint_loop]. destruct xs2 as [|x xs2].
  { rewrite app_nil_r in Hxs. subst xs1. rewrite Z.ltb_irrefl. by apply wp_ret. }
  assert (Hx : valid_write x) by (rewrite Hxs, Forall_app, Forall_cons in Hvalid; naive_solver).
  set (off := sz (log_of xs1)).
  assert (Hoff : 0 ≤ off ∧ off + sz (enc x) ≤ sz (log_of xs)).
  { unfold off. rewrite Hxs, log_of_mid, !sz_app. pose proof (sz_nonneg (log_of xs1)).
    pose proof (sz_nonneg (log_of xs2)). lia. }
  pose proof (sz_nonneg (enc x)).
  destruct (hint_enc_facts off x Hx) as (Hsz & Hdec & Hkey); [lia|].
  pose proof (valid_write_key _ Hx) as [_ Hk].
  assert (Hent : hint_entries 0 xs = hint_entries 0 xs1 ++ hint_enc off x ++ hint_entries (off + sz (enc x)) xs2).
  { rewrite Hxs, hint_entries_app. simpl. done. }
  set (rest := hint_entries (off + sz (enc x)) xs2) in *.
  assert (Hfin' : fin = cur + (hint.kEntryHeaderSize + sz (wr_key x)) + sz rest).
  { unfold fin, cur. rewrite Hent, !sz_app, Hsz. lia. }
  pose proof (sz_nonneg rest). unfold hint.kEntryHeaderSize in *.
  assert (Hsl : ∀ n, slice (f_data f) cur n = take (Z.to_nat n) (hint_enc off x ++ rest ++ tl)).
  { intros n. rewrite Hdata, Hent. unfold slice, cur, sz.
    rewrite Nat2Z.id, <-!app_assoc, drop_app_length. done. }
  rewrite (proj2 (Z.ltb_lt _ _)) by lia.
  rewrite u64_id by (unfold UINT64_MAX, INT64_MAX in *; lia).
  rewrite (proj2 (Z.ltb_ge _ _)) by lia.
  apply wp_hint_read; [done|lia|lia|lia| |].
  2: { intros e w' Hs'. by apply wp_ret. }
  intros w2 Hs2 Hc2. rewrite Hsl. change (Z.to_nat 28) with 28%nat. rewrite Hkey. wp_pure.
  rewrite (u64_id (28 + _)) by (unfold UINT64_MAX, UINT32_MAX in *; lia).
  rewrite u64_id by (unfold UINT64_MAX, INT64_MAX in *; lia).
  rewrite (proj2 (Z.ltb_ge _ _)) by lia.
  pose proof (u32_range (28 + sz (wr_key x))) as Hu. unfold UINT32_MAX in Hu, Hk.
  apply wp_hint_read; [done|lia|lia| | |].
  { destruct (decide (28 + sz (wr_key x) ≤ UINT32_MAX)); [rewrite u32_id by lia; lia|].
    unfold u32. pose proof (Z.mod_le (28 + sz (wr_key x)) 4294967296). lia. }
  2: { intros e w' Hs'. by apply wp_ret. }
  intros w3 Hs3 Hc3. rewrite Hsl.
  destruct (decide (28 + sz (wr_key x) ≤ UINT32_MAX)) as [Hfit|Hbig].
  2: { (* the size does not fit the cast: the entry cannot be read *)
       rewrite hint.decode_entry_short; [wp_pure; by apply wp_ret|].
       unfold UINT32_MAX, hint.kEntryHeaderSize in *. rewrite <-u32_wrap by lia. len. }
  rewrite u32_id by lia.
  rewrite take_app_length' by (unfold sz in *; lia). rewrite Hdec. wp_pure.
  destruct (enc_is_record x Hx) as [_ Htot]. cbn [hint.e_record_offset hint.e_record_size]. rewrite <-Htot.
  rewrite u64_id by (unfold UINT64_MAX, INT64_MAX in *; lia).
  rewrite (proj2 (Z.ltb_ge _ _)) by lia.
  assert (Hnext : cur + (28 + sz (wr_key x)) = sz (hint_entries 0 (xs1 ++ [x]))).
  { rewrite hint_entries_app, sz_app.
    change (hint_entries (0 + sz (log_of xs1)) [x]) with (hint_enc (0 + off) x ++ []).
    by rewrite app_nil_r, Z.add_0_l, Hsz. }
  rewrite Hnext. rewrite Htot.
  replace (hint_list 0 xs1 ++ [hint.mkEntry (wr_ts x) off (r_total_size (rec_of x)) (wr_key x)])
    with (hint_list 0 (xs1 ++ [x])) by (by rewrite hint_list_app).
  apply (IH _ xs2); [by rewrite Hxs, <-app_assoc|done|]. rewrite <-Hnext. lia.
Qed.

End hint_loop.

Lemma wp_apply_hint id off xs b w : Forall (λ x, wr_tomb x = false) xs →
  wp (apply_hint id (hint_list off xs)) b w
    (λ _ b' w', w' = w ∧ reindexed b (foldl (index_step id) (index_ b) (entries_from off xs)) b')
    (λ _ _ _, False) (λ _, False).
Proof.
  intros Ht. revert off b. induction Ht as [|x xs Hx Ht IH]; intros off b; simpl.
  { apply wp_ret. split; [done|apply reindexed_refl]. }
  eapply wp_bind; [apply (wp_index_put_dead _ _ _ _ (λ _ b' w', w' = w ∧
    reindexed b (index_step id (index_ b) (off, rec_of x, enc x)) b') (λ _ _ _, False) (λ _, False))
    | |done|done]; cbn beta.
  - intros d. split; [done|]. exists d. unfold index_step, rec_of, record_of. simpl. by rewrite Hx.
  - intros [] b1 w1 _ [-> Hb1]. eapply wp_mono; [apply IH| |done|done]; cbn beta.
    intros [] b2 w2 _ [-> Hb2]. split; [done|]. eapply reindexed_trans; [done|].
    by rewrite (reindexed_index _ _ _ Hb1) in Hb2.
Qed.

(** A hint is a cache: using it gives the index a scan would give, and not using
    it changes nothing. *)
Lemma wp_replay_hint id l xs b w :
  (∀ f, w_files w !! hint_file_name id = Some f →
     f_data f = hint_bytes xs ∧ Forall (λ x, wr_tomb x = false) xs ∧ sz (f_data f) ≤ INT64_MAX) →
  end_offset_ l = sz (log_of xs) → sz (log_of xs) ≤ INT64_MAX → Forall valid_write xs →
  wp (replay_hint id l) b w
    (λ r b' w', same_files w w' ∧
       if r : bool then reindexed b (index_file (index_ b) (id, xs)) b' else b' = b)
    (λ _ _ _, False) (same_files w).
Proof.
  intros Hhint Hend Hlog Hv. unfold replay_hint. wp_call wp_exists.
  intros ex ? w1 Hc1 (-> & [Hw1 Ht1] & Hex). destruct ex; simpl; [|by apply wp_ret].
  destruct (w_files w !! hint_file_name id) as [f|] eqn:Hf.
  2: { exfalso. destruct Hex as [Hex|[? _]]; [|done]. symmetry in Hex.
       apply bool_decide_eq_true in Hex. by apply is_Some_None in Hex. }
  destruct (Hhint f eq_refl) as (Hd & Htomb & Hmax).
  assert (Hof : LogFileOps.opened_file (hint_file_name id) (w_files w1) = f)
    by (unfold LogFileOps.opened_file; by rewrite Hw1, Hf).
  eapply wp_bind_attempt; [apply LogFileOps.wp_open; rewrite Hof; unfold UINT64_MAX, INT64_MAX in *; lia|..];
    cbn beta.
  2: { intros e ? w2 _ (-> & _ & _ & Hs). apply wp_ret. split; [|done].
       destruct Hs as [[??]|[Hw2 ?]]; [split; congruence|].
       rewrite (LogFileOps.opened_existing _ _ f) in Hw2 by congruence. split; congruence. }
  2: { intros w2 _ [[??]|[Hw2 ?]]; [split; congruence|].
       rewrite (LogFileOps.opened_existing _ _ f) in Hw2 by congruence. split; congruence. }
  intros hl ? w2 Hc2 (-> & [Hw2 Ht2] & ->). rewrite Hof.
  rewrite (LogFileOps.opened_existing _ _ f) in Hw2 by congruence.
  assert (Hs2 : same_files w w2) by (split; congruence).
  cbn [end_offset_]. unfold hint_bytes in Hd.
  destruct (Z.ltb_spec (sz (f_data f)) hint.kFooterSize) as [|Hge]; [by apply wp_ret|].
  assert (Hsz : sz (f_data f) - hint.kFooterSize = sz (hint_entries 0 xs)).
  { rewrite Hd, sz_app, hint.sz_encode_footer. lia. }
  rewrite Hsz. pose proof (sz_nonneg (hint_entries 0 xs)).
  set (hl := mkLogFile true (hint_file_name id) (sz (f_data f)) Never).
  apply (wp_hint_read hl f b w); [done|done|done|done|done|done|lia| |].
  2: { intros e w' Hs'. by apply wp_ret. }
  intros w3 Hs3 Hc3.
  assert (Hfoot : slice (f_data f) (sz (hint_entries 0 xs)) hint.kFooterSize =
    hint.encode_footer (sz (log_of xs)) (sz xs)).
  { rewrite Hd. apply slice_suffix; [done|]. by rewrite hint.sz_encode_footer. }
  rewrite Hfoot.
  destruct (hint.decode_footer _) as [ft|e|] eqn:Hdec.
  2: { wp_pure. by apply wp_ret. }
  2: { exfalso. pose proof (hint.decode_footer_safe (hint.encode_footer (sz (log_of xs)) (sz xs))) as Hsafe.
       by rewrite Hdec in Hsafe. }
  wp_pure. destruct (negb _); [by apply wp_ret|]. destruct (_ <? _); [by apply wp_ret|].
  assert (Hloop := wp_hint_loop hl f xs (hint.encode_footer (sz (log_of xs)) (sz xs)) b w eq_refl Hf Hd Hmax
    Hlog Hv (S (Z.to_nat (sz (hint_entries 0 xs)))) [] xs w3 eq_refl Hs3).
  change (sz (hint_entries 0 [])) with 0 in Hloop.
  rewrite Hend. eapply wp_bind; [apply Hloop; lia| |done|done]; cbn beta.
  intros r ? w4 Hc4 (-> & Hs4 & Hr). destruct r as [[off es]|]; [|by apply wp_ret].
  destruct Hr as [-> ->]. destruct (_ || _); [by apply wp_ret|].
  eapply wp_bind; [by apply wp_apply_hint| |done|done]; cbn beta.
  intros [] b5 w5 _ [-> Hb5]. by apply wp_ret.
Qed.

(** ** The directory pass *)

(** [fs'] is [fs] without some files that hold no data. *)
Definition trimmed (fs fs' : gmap bytes file) : Prop :=
  fs' ⊆ fs ∧ ∀ id, fs' !! log_file_name id = fs !! log_file_name id.

#[export] Instance trimmed_preorder : PreOrder trimmed.
Proof.
  split; [by intros fs; split|]. intros fs1 fs2 fs3 [H1 H2] [H3 H4].
  split; [by etrans|]. intros id. by rewrite H4.
Qed.

Lemma trimmed_delete fs name : (∀ id, name ≠ log_file_name id) → trimmed fs (delete name fs).
Proof.
  intros Hn. split; [apply delete_subseteq|]. intros id. rewrite lookup_delete_ne; [done|]. apply Hn.
Qed.

Lemma disk_trimmed fs fs' hs tl : trimmed fs fs' → disk fs hs tl → disk fs' hs tl.
Proof.
  intros [Hsub Hlogs] [H1 H2 H3 H4 H5 H6 H7 H8].
  assert (Hback : ∀ name f, fs' !! name = Some f → fs !! name = Some f)
    by (intros; by eapply lookup_weaken).
  split; try done; eauto.
  - eapply logs_at_ext; [|done]. intros id _. apply log_data_ext. by rewrite Hlogs.
  - intros name id [f Hf] Hp. eapply H5; [|done]. eauto.
Qed.

Lemma present_trimmed fs fs' hs : trimmed fs fs' → present fs hs → present fs' hs.
Proof. intros [_ Hlogs] Hp id Hid. rewrite Hlogs. by apply Hp. Qed.

Definition trims (w w' : World) : Prop := trimmed (w_files w) (w_files w').

(** A directory of which everything is on the device stays one. *)
Definition settles (w w' : World) : Prop := synced (w_files w) → synced (w_files w').

Lemma settles_trims w w' : trims w w' → settles w w'.
Proof. intros [Hsub _] Hs. by apply (clean_subseteq _ _ Hsub). Qed.

#[local] Instance trims_preorder : PreOrder trims.
Proof. split; [intros w|intros w1 w2 w3]; unfold trims; [done|apply transitivity]. Qed.

Lemma trims_same w w' : same_files w w' → trims w w'.
Proof. intros [Hw _]. unfold trims. by rewrite Hw. Qed.

Lemma wp_remove_trims {S} path (b : S) w : (∀ id, path ≠ log_file_name id) →
  wp (platform.remove path) b w
    (λ ec b' w', b' = b ∧ trims w w' ∧ (ec = true → ¬ reliable w))
    (λ _ _ _, False) (λ w', w' = w).
Proof.
  intros Hn. eapply wp_mono; [apply wp_remove| |done|done]; cbn beta.
  intros ec ? w1 _ [-> [[-> [Hw _]]|(-> & Hu & Hs)]]; split_and!; try done.
  - unfold trims. rewrite Hw. by apply trimmed_delete.
  - by apply trims_same.
Qed.

Lemma wp_sweep_loop names b w flag :
  wp (sweep_loop names flag) b w
    (λ _ b' w', b' = b ∧ trims w w') (λ e b' w', b' = b ∧ trims w w' ∧ ¬ reliable w) (trims w).
Proof.
  revert w flag. induction names as [|name names IH]; intros w flag; simpl.
  { by apply wp_ret. }
  destruct (is_temp_name name) eqn:E; simpl; [|apply IH].
  eapply wp_bind; [apply wp_remove_trims| |done|by intros ? _ ->]; cbn beta.
  { intros id ->. by rewrite is_temp_name_log in E. }
  intros ec ? w1 Hc (-> & Ht & Hu). destruct ec.
  - apply wp_fail. auto.
  - eapply wp_mono; [apply IH|..]; cbn beta.
    + intros _ ? w2 _ [-> ?]. split; [done|]. by etrans.
    + intros e ? w2 _ (-> & ? & ?). split_and!; [done|by etrans|eauto with wp].
    + intros w2 _ ?. by etrans.
Qed.

Lemma wp_sweep_temp_files b w :
  wp sweep_temp_files b w
    (λ _ b' w', b' = b ∧ trims w w') (λ e b' w', b' = b ∧ trims w w' ∧ ¬ reliable w) (trims w).
Proof.
  unfold sweep_temp_files. wp_pure. wp_call wp_list_directory.
  intros r ? w1 Hc1 (-> & Hs1 & Hr). apply trims_same in Hs1.
  destruct r as [names|].
  2: { apply wp_fail. destruct Hr as [?|[_ ?]]; [done|]. auto. }
  eapply wp_bind; [apply wp_sweep_loop| | |]; cbn beta.
  - intros flag ? w2 Hc2 [-> Hs2]. assert (trims w w2) by (by etrans).
    destruct flag; [|by apply wp_ret]. eapply wp_mono; [apply wp_sync_dir|..]; cbn beta.
    + intros _ ? w3 _ [-> Hs3%trims_same]. split; [done|]. by etrans.
    + intros e ? w3 _ (-> & ? & Hs3%trims_same). split_and!; [done|by etrans|eauto with wp].
    + intros w3 _ Hs3%trims_same. by etrans.
  - intros e ? w2 _ (-> & ? & ?). split_and!; [done|by etrans|eauto with wp].
  - intros w2 _ ?. by etrans.
Qed.

Lemma wp_remove_orphan_hints ids hint_ids b w :
  wp (remove_orphan_hints ids hint_ids) b w
    (λ _ b' w', b' = b ∧ trims w w') (λ _ _ _, False) (trims w).
Proof.
  revert w. induction hint_ids as [|hid hint_ids IH]; intros w; simpl; [by apply wp_ret|].
  assert (Hrest : ∀ w1, trims w w1 → wp (remove_orphan_hints ids hint_ids) b w1
    (λ _ b' w', b' = b ∧ trims w w') (λ _ _ _, False) (trims w)).
  { intros w1 Ht. eapply wp_mono; [apply IH|..]; cbn beta; [|done|].
    - intros _ ? w2 _ [-> ?]. split; [done|]. by etrans.
    - intros w2 _ ?. by etrans. }
  destruct (negb _); [|wp_pure; by apply Hrest].
  wp_pure. eapply wp_bind; [apply wp_remove_trims| |done|by intros ? _ ->]; cbn beta.
  { intros id. apply hint_log_name_ne. }
  intros ec ? w1 _ (-> & ? & _). wp_pure. by apply Hrest.
Qed.

(** ** The list of data files *)

Lemma classify_ids names ids hids : (classify names ids hids).1 = ids ++ omap parse_log_file_id names.
Proof.
  revert ids hids. induction names as [|name names IH]; intros ids hids; simpl; [by rewrite app_nil_r|].
  destruct (parse_log_file_id name) as [id|]; [by rewrite IH, <-app_assoc|].
  by destruct (parse_hint_file_id name); rewrite IH.
Qed.

Lemma sorted_ids fs hs tl : disk fs hs tl → present fs hs →
  std_sort (omap parse_log_file_id (map_to_list fs).*1) = hs.*1.
Proof.
  intros Hd Hp.
  assert (Hdom : ∀ name, name ∈ (map_to_list fs).*1 ↔ is_Some (fs !! name)).
  { intros name. rewrite list_elem_of_fmap. split.
    - intros ([n f] & -> & Hin%elem_of_map_to_list). by exists f.
    - intros [f Hf]. exists (name, f). split; [done|]. by apply elem_of_map_to_list. }
  apply std_sort_enum; [..|apply (dk_sorted _ _ _ Hd)].
  - apply NoDup_omap; [apply NoDup_fst_map_to_list|]. intros x y a Hx%Hdom Hy%Hdom Ex Ey.
    by rewrite (proj1 (dk_only _ _ _ Hd _ _ Hx Ex)), (proj1 (dk_only _ _ _ Hd _ _ Hy Ey)).
  - intros id. rewrite list_elem_of_omap. split.
    + intros (name & Hin%Hdom & E). by apply (dk_only _ _ _ Hd _ _ Hin E).
    + intros Hin. exists (log_file_name id). rewrite Hdom. split; [by apply Hp|].
      apply parse_log_name. apply list_elem_of_fmap in Hin as ([? xs] & -> & Hin).
      by apply (disk_log _ _ _ _ _ Hd Hin).
Qed.

(** Opening a data file of the history creates it when it is absent, and changes
    no data. *)
Lemma log_data_opened path fs id : log_data (LogFileOps.opened path fs) id = log_data fs id.
Proof.
  unfold log_data, LogFileOps.opened_file, LogFileOps.opened. destruct (fs !! path) eqn:E; [done|].
  destruct (decide (path = log_file_name id)) as [<-|Hne].
  - by rewrite lookup_insert_eq, E.
  - by rewrite lookup_insert_ne.
Qed.

Lemma disk_opened fs hs tl a : disk fs hs tl → a ∈ hs.*1 →
  disk (LogFileOps.opened (log_file_name a) fs) hs tl.
Proof.
  intros Hd Ha. destruct (fs !! log_file_name a) as [f|] eqn:E.
  { by rewrite (LogFileOps.opened_existing _ _ f). }
  pose proof Hd as [H1 H2 H3 H4 H5 H6 H7 H8].
  assert (Hva : valid_id a).
  { apply list_elem_of_fmap in Ha as ([? xs] & -> & Hin). by apply (disk_log _ _ _ _ _ Hd Hin). }
  assert (Hhint : ∀ id, LogFileOps.opened (log_file_name a) fs !! hint_file_name id = fs !! hint_file_name id).
  { intros id. rewrite LogFileOps.opened_lookup_ne; [done|]. intros E'. by apply (hint_log_name_ne id a). }
  split; try done.
  - eapply logs_at_ext; [|done]. intros id _. apply log_data_opened.
  - intros name id Hin Hp. destruct (decide (log_file_name a = name)) as [<-|Hne].
    + rewrite parse_log_name in Hp by done. by injection Hp as <-.
    + rewrite LogFileOps.opened_lookup_ne in Hin by done. by apply H5.
  - intros id xs f. rewrite Hhint. apply H6.
  - intros id f. rewrite Hhint. apply H7.
  - intros name f. destruct (decide (log_file_name a = name)) as [<-|Hne].
    + rewrite LogFileOps.opened_lookup. intros [= <-]. unfold LogFileOps.opened_file. by rewrite E.
    + rewrite LogFileOps.opened_lookup_ne by done. apply H8.
Qed.

Definition keeps (w w' : World) : Prop :=
  (∀ name, is_Some (w_files w !! name) → is_Some (w_files w' !! name)) ∧
  (synced (w_files w) → synced (w_files w')).

#[local] Instance keeps_preorder : PreOrder keeps.
Proof. split; [by intros w; split|]. intros w1 w2 w3 [H1 S1] [H2 S2]. split; auto. Qed.

Lemma keeps_opened path w w' : files_are (LogFileOps.opened path (w_files w)) w w' → keeps w w'.
Proof.
  intros [Hw _]. unfold keeps. rewrite Hw. split; [|apply clean_opened].
  intros name [f Hf]. unfold LogFileOps.opened.
  destruct (w_files w !! path) eqn:E; [by eauto|].
  rewrite lookup_insert_ne by congruence. eauto.
Qed.

Lemma keeps_same w w' : same_files w w' → keeps w w'.
Proof. intros [Hw _]. unfold keeps. by rewrite Hw. Qed.

Lemma present_keeps w w' hs : keeps w w' → present (w_files w) hs → present (w_files w') hs.
Proof. intros [Hk _] Hp id Hid. by apply Hk, Hp. Qed.

(** What the replay of the file [(id, xs)] of the history makes of it. *)
Definition kept (w : World) (hs2 : history) (xs xs' : list write) : Prop :=
  (hs2 ≠ [] → xs' = xs) ∧ (reliable w → xs' = xs).

Lemma disk_replayed w hs1 id xs hs2 tl act xs' tl' w' :
  disk (w_files w) (hs1 ++ (id, xs) :: hs2) tl → act = match hs2 with [] => true | _ => false end →
  replayed w id act xs xs' tl' w' → is_Some (w_files w !! log_file_name id) →
  disk (w_files w') (hs1 ++ (id, xs') :: hs2) (if act then tl' else tl) ∧ kept w hs2 xs xs' ∧ keeps w w'.
Proof.
  intros Hd -> (Hpre & Hrel & Hin & Htl & f' & Hw & Hf' & Hmax & Hfull) [f Hf].
  assert (Hk : keeps w w').
  { split; [|intros Hsy; rewrite Hw; by apply clean_insert; [|apply Hfull]]. intros name [g Hg]. rewrite Hw, lookup_insert. case_decide; by eauto. }
  assert (Hlog : log_data (w_files w) id = f_data f)
    by (unfold log_data, LogFileOps.opened_file; by rewrite Hf).
  destruct hs2 as [|hf2 hs2].
  - split_and!; [|by split|done]. rewrite Hw.
    assert (Hv : Forall valid_write xs) by (eapply disk_log; [done|apply elem_of_app; right; by left]).
    destruct Hpre as [ys ->]. apply Forall_app in Hv as [Hv _]. by eapply disk_update.
  - destruct (Hin eq_refl) as [-> ->]. rewrite app_nil_r in Hf'. split_and!; [|by split|done].
    eapply disk_ext; [|done]. intros name. rewrite Hw, lookup_insert. case_decide as E; [|done].
    subst name. rewrite Hf. simpl. f_equal. rewrite Hf', <-Hlog. symmetry.
    destruct Hd as [_ _ Hl _ _ _ _ _]. apply logs_at_app in Hl as [_ Hl]. apply Hl.
Qed.

(** ** The replay loop *)

(** The object after the files [hs1] were replayed. *)
Record loaded (opts : BitcaskOptions) (b : Bitcask) (w : World) (hs1 : history) : Prop := {
  ld_options : options_ b = opts;
  ld_files : files_ b = files_of (opt_sync_mode opts) hs1;
  ld_index : index_ b = index_of hs1;
  ld_present : present (w_files w) hs1;
}.

(** The history [hs'] a crash or the end of the replay leaves of [hs]. *)
Definition settled (w : World) (hs : history) (w' : World) (hs' : history) (tl' : bytes) : Prop :=
  disk (w_files w') hs' tl' ∧ keeps w w' ∧ hs'.*1 = hs.*1 ∧ (reliable w → hs' = hs).

Lemma settled_trans w hs w1 hs1 tl1 w2 hs2 tl2 : calm w w1 →
  settled w hs w1 hs1 tl1 → settled w1 hs1 w2 hs2 tl2 → settled w hs w2 hs2 tl2.
Proof.
  intros [_ Hrel] (_ & K1 & I1 & R1) (D2 & K2 & I2 & R2). split_and!; [done|by etrans|congruence|].
  intros Hr. rewrite R2 by auto. auto.
Qed.

Lemma settled_replayed w hs1 id xs hs2 tl act xs' tl' w' :
  disk (w_files w) (hs1 ++ (id, xs) :: hs2) tl → act = match hs2 with [] => true | _ => false end →
  replayed w id act xs xs' tl' w' → is_Some (w_files w !! log_file_name id) →
  settled w (hs1 ++ (id, xs) :: hs2) w' (hs1 ++ (id, xs') :: hs2) (if act then tl' else tl) ∧
  kept w hs2 xs xs'.
Proof.
  intros Hd Ha Hr Hs. destruct (disk_replayed _ _ _ _ _ _ _ _ _ _ Hd Ha Hr Hs) as (Hd' & Hk & Hkeep).
  split; [|done]. split_and!; [done|done|by rewrite !fmap_app|]. intros Hrel. by rewrite (proj2 Hk).
Qed.

Lemma settled_same w w' hs tl : disk (w_files w) hs tl → same_files w w' → settled w hs w' hs tl.
Proof. intros Hd Hs. split_and!; [|by apply keeps_same|done..]. destruct Hs as [-> _]. done. Qed.

Lemma settled_opened w w' hs tl id : disk (w_files w) hs tl → id ∈ hs.*1 →
  files_are (LogFileOps.opened (log_file_name id) (w_files w)) w w' → settled w hs w' hs tl.
Proof.
  intros Hd Hid Hs. split_and!; [|by eapply keeps_opened|done..].
  destruct Hs as [-> _]. by apply disk_opened.
Qed.

Lemma loaded_file opts b w hs1 id xs hs2 tl : loaded opts b w hs1 →
  disk (w_files w) (hs1 ++ (id, xs) :: hs2) tl →
  files_ b !! id = None ∧ ∀ xs', files_of (opt_sync_mode opts) (hs1 ++ [(id, xs')]) =
    <[id := mkLogFile true (log_file_name id) (sz (log_of xs')) (opt_sync_mode opts)]> (files_ b).
Proof.
  intros [_ Hf _ _] Hd.
  assert (Hn : id ∉ hs1.*1).
  { destruct Hd as [Hs _ _ _ _ _ _ _]. rewrite fmap_app in Hs. intros Hin.
    apply StronglySorted_app_1_elem_of with (x1 := id) (x2 := id) in Hs; [lia|done|by left]. }
  rewrite Hf. split.
  - unfold files_of. apply not_elem_of_list_to_map. by rewrite <-list_fmap_compose.
  - intros xs'. by rewrite files_of_snoc.
Qed.

(** One file, by its hint or by a scan. *)
Lemma wp_load_file opts b w hs1 id xs hs2 tl f act (use_hint : bool) :
  loaded opts b w hs1 → disk (w_files w) (hs1 ++ (id, xs) :: hs2) tl →
  act = match hs2 with [] => true | _ => false end → (use_hint = true → act = false) →
  w_files w !! log_file_name id = Some f →
  let l := mkLogFile true (log_file_name id) (sz (f_data f)) (opt_sync_mode opts) in
  let b1 := set_log_files (<[id := l]> (files_ b)) b in
  wp (used ← (if use_hint then replay_hint id l else mret false);
      if (used : bool) then mret tt else replay_file id act) b1 w
    (λ _ b' w', ∃ xs', settled w (hs1 ++ (id, xs) :: hs2) w' (hs1 ++ (id, xs') :: hs2)
       (if act then [] else tl) ∧ loaded opts b' w' (hs1 ++ [(id, xs')]))
    (λ _ _ _, ¬ reliable w)
    (λ w', ∃ hs' tl', settled w (hs1 ++ (id, xs) :: hs2) w' hs' tl').
Proof.
  intros Hl Hd Hact Huse Hf l b1.
  destruct (loaded_file _ _ _ _ _ _ _ _ Hl Hd) as [Hnone Hfiles].
  destruct (disk_log _ _ _ id xs Hd) as (Hid & Hv & _); [apply elem_of_app; right; by left|].
  assert (Hlog : f_data f = log_of xs ++ if act then tl else []).
  { destruct Hd as [_ _ Hlg _ _ _ _ _]. apply logs_at_app in Hlg as [_ Hlg].
    unfold logs_at, log_data, LogFileOps.opened_file in Hlg. simpl in Hlg. rewrite Hf in Hlg.
    subst act. destruct hs2; [done|]. rewrite app_nil_r. apply Hlg. }
  assert (Hmax : sz (f_data f) ≤ INT64_MAX) by (eapply dk_sizes; eauto).
  assert (Hload : ∀ b' w' xs', keeps w w' →
    reindexed (set_log_files (<[id := LogFileOps.set_end (sz (log_of xs')) l]> (files_ b1)) b1)
      (index_file (index_ b1) (id, xs')) b' → is_Some (w_files w !! log_file_name id) →
    loaded opts b' w' (hs1 ++ [(id, xs')])).
  { intros b' w' xs' Hk [d ->] Hs. pose proof Hl as [L1 L2 L3 L4]. split; simpl.
    - done.
    - rewrite insert_insert_eq, Hfiles. done.
    - by rewrite index_of_snoc, L3.
    - apply present_snoc. split; [by eapply present_keeps|]. by apply Hk. }
  assert (Hend : ∀ w' w2 xs' tl', same_files w w' → replayed w' id act xs xs' tl' w2 →
    settled w' (hs1 ++ (id, xs) :: hs2) w2 (hs1 ++ (id, xs') :: hs2) (if act then tl' else tl) ∧
    kept w' hs2 xs xs').
  { intros w' w2 xs' tl' [Hs1 _] Hr. apply settled_replayed; [by rewrite Hs1|done..|].
    rewrite Hs1. eauto. }
  eapply (wp_bind _ _ _ _ (λ used b' w', same_files w w' ∧
     if used : bool then act = false ∧ reindexed b1 (index_file (index_ b1) (id, xs)) b' else b' = b1)
     (λ _ _ _, False) (same_files w)).
  { destruct use_hint; [|apply wp_ret; by split]. rewrite (Huse eq_refl) in *. rewrite app_nil_r in Hlog.
    eapply wp_mono; [apply wp_replay_hint with (xs := xs)|..]; cbn beta; try done.
    - intros g Hg. destruct (dk_hints _ _ _ Hd id xs g) as [? ?]; [|done|].
      { apply elem_of_app; right; by left. }
      split_and!; [done..|]. by eapply dk_sizes.
    - simpl. by rewrite Hlog.
    - by rewrite <-Hlog.
    - intros [] b' w' _ [? ?]; by split. }
  - intros [] b' w' Hc [Hs Hb].
    + destruct Hb as [-> Hb]. apply wp_ret. exists xs. split.
      * subst. by apply settled_same.
      * apply Hload; [by apply keeps_same| |by eauto].
        replace (set_log_files _ b1) with b1; [done|].
        simpl. rewrite insert_insert_eq.
        assert (E : LogFileOps.set_end (sz (log_of xs)) l = l); [|by rewrite E].
        unfold l, LogFileOps.set_end. simpl. by rewrite Hlog, app_nil_r.
    + subst b'.
      assert (Hs1 : w_files w' = w_files w) by (by destruct Hs).
      eapply wp_mono; [apply (wp_replay_file b1 w' id l f xs (if act then tl else []) act)|..]; cbn beta; try done.
      * unfold b1. simpl. by rewrite lookup_insert_eq.
      * by rewrite Hs1.
      * destruct act; [by apply (dk_torn _ _ _ Hd)|done].
      * by intros ->.
      * intros _ b' w2 _ (xs' & Hr & Hb'). exists xs'.
        destruct (Hend _ _ _ _ Hs Hr) as [Hse _].
        assert (Hse' : settled w (hs1 ++ (id, xs) :: hs2) w2 (hs1 ++ (id, xs') :: hs2) (if act then [] else tl))
          by (eapply settled_trans; [done|by apply settled_same|done]).
        split; [done|]. apply Hload; [apply Hse'|done|by eauto].
      * intros _ _ w2 _. eauto with wp.
      * intros w2 _ (xs' & tl' & Hr). destruct (Hend _ _ _ _ Hs Hr) as [Hse _].
        eexists _, _. eapply settled_trans; [done|by apply settled_same|done].
  - done.
  - intros w' _ Hs. eexists _, _. by eapply settled_same.
Qed.

Lemma wp_recover_loop opts b w hs1 hs2 tl : loaded opts b w hs1 → hs2 ≠ [] →
  disk (w_files w) (hs1 ++ hs2) tl →
  wp (recover_loop hs2.*1) b w
    (λ _ b' w', ∃ hs', settled w (hs1 ++ hs2) w' hs' [] ∧ loaded opts b' w' hs')
    (λ _ _ _, ¬ reliable w)
    (λ w', ∃ hs' tl', settled w (hs1 ++ hs2) w' hs' tl').
Proof.
  revert b w hs1 tl. induction hs2 as [|[id xs] hs2 IH]; intros b w hs1 tl Hl Hne Hd; [done|]. clear Hne.
  cbn [recover_loop fmap list_fmap fst]. wp_pure.
  assert (Hid : id ∈ (hs1 ++ (id, xs) :: hs2).*1)
    by (rewrite fmap_app; apply elem_of_app; right; by left).
  assert (Hmax : sz (f_data (LogFileOps.opened_file (log_file_name id) (w_files w))) ≤ INT64_MAX).
  { unfold LogFileOps.opened_file. destruct (w_files w !! log_file_name id) eqn:E; [|done].
    by eapply dk_sizes. }
  eapply wp_bind; [apply LogFileOps.wp_open; unfold UINT64_MAX, INT64_MAX in *; lia|..]; cbn beta.
  2: { by intros e ? w1 _ (_ & ? & _). }
  2: { intros w1 _ [Hs|Hs]; eexists _, _; [by eapply settled_same|by eapply settled_opened]. }
  intros l ? w1 Hc1 (-> & Hs1 & ->).
  pose proof (settled_opened _ _ _ _ _ Hd Hid Hs1) as Hset1. pose proof Hset1 as (Hd1 & Hk1 & _).
  set (f := LogFileOps.opened_file (log_file_name id) (w_files w)) in *.
  assert (Hf : w_files w1 !! log_file_name id = Some f)
    by (destruct Hs1 as [-> _]; apply LogFileOps.opened_lookup).
  assert (Hl1 : loaded opts b w1 hs1).
  { destruct Hl as [L1 L2 L3 L4]. split; try done. by eapply present_keeps. }
  destruct (loaded_file _ _ _ _ _ _ _ _ Hl1 Hd1) as [Hnone _].
  assert (Hopt : options_ b = opts) by apply Hl. unfold emplace_file. wp_pure. rewrite Hnone, Hopt.
  assert (Hact : match hs2.*1 with [] => true | _ => false end =
    match hs2 with [] => true | _ => false end) by (by destruct hs2). rewrite Hact.
  set (act := match hs2 with [] => true | _ => false end) in *.
  set (b1 := set_log_files _ b).
  eapply wp_bind_run with (m' := if negb act && negb (ignore_hints opts)
    then replay_hint id _ else mret false).
  { destruct (negb act && _); [|done]. unfold mbind, M_bind, World.get. simpl. by rewrite lookup_insert_eq. }
  apply wp_bind_assoc_rev.
  eapply wp_bind; [apply (wp_load_file opts b w1 hs1 id xs hs2 tl f act); try done; by destruct act|..];
    cbn beta.
  2: { intros _ _ w2 _. eauto with wp. }
  2: { intros w2 _ (hs' & tl' & Hset2). eexists _, _. by eapply settled_trans. }
  intros _ b2 w2 Hc2 (xs' & Hset2 & Hl2). pose proof (settled_trans _ _ _ _ _ _ _ _ Hc1 Hset1 Hset2) as Hset.
  assert (Hc : calm w w2) by (by etrans).
  destruct hs2 as [|hf hs2].
  { apply wp_ret. by eexists. }
  assert (Hset' : settled w (hs1 ++ (id, xs) :: hf :: hs2) w2 ((hs1 ++ [(id, xs')]) ++ hf :: hs2) tl)
    by (by rewrite <-app_assoc). pose proof Hset' as (Hd2 & _).
  eapply wp_mono; [eapply IH; [done|done|exact Hd2]|..]; cbn beta.
  - intros _ b3 w3 _ (hs' & ? & ?). exists hs'. split; [|done]. by eapply settled_trans.
  - intros _ _ _ _. eauto with wp.
  - intros w3 _ (hs' & tl' & ?). eexists _, _. by eapply settled_trans.
Qed.

(** ** Opening a database *)

(** The directory holds the database [m]. *)
Definition recoverable (fs : gmap bytes file) (m : gmap bytes bytes) : Prop :=
  ∃ hs tl, disk fs hs tl ∧ present fs hs ∧ map_of hs = m.

(** An empty database has no file yet; its first file has id 1. *)
Lemma disk_first fs tl : disk fs [] tl → disk fs [(kFirstFileId, [])] [].
Proof.
  intros [H1 H2 H3 H4 H5 H6 H7 H8].
  assert (Hno : ∀ name id, is_Some (fs !! name) → parse_log_file_id name = Some id → False).
  { intros name id Hs Hp. destruct (H5 _ _ Hs Hp) as [_ Hin]. by apply elem_of_nil in Hin. }
  assert (Hv : valid_id kFirstFileId) by done.
  split; try done.
  - repeat constructor.
  - by repeat constructor.
  - simpl. unfold log_data, LogFileOps.opened_file.
    destruct (fs !! log_file_name kFirstFileId) eqn:E; [|done].
    exfalso. eapply Hno; [by eauto|by apply parse_log_name].
  - intros name id Hs Hp. by destruct (Hno _ _ Hs Hp).
  - intros id xs f [= -> ->]%list_elem_of_singleton Hf. by destruct (H7 _ _ Hv Hf) as (? & ? & _).
  - intros id f Hid Hf. by destruct (H7 _ _ Hid Hf) as (? & ? & _).
Qed.

Lemma disk_no_first fs ys tl : disk fs [(kFirstFileId, ys)] tl →
  fs !! log_file_name kFirstFileId = None → disk fs [] [].
Proof.
  intros [H1 H2 H3 H4 H5 H6 H7 H8] Hn. split; try done.
  - constructor.
  - intros name id Hs Hp. destruct (H5 _ _ Hs Hp) as [-> ->%list_elem_of_singleton].
    destruct Hs as [g Hg]. change (fs !! log_file_name kFirstFileId = Some g) in Hg. congruence.
  - intros id xs f []%elem_of_nil.
  - intros id f Hid Hf. destruct (H7 _ _ Hid Hf) as (a & [= <-] & Hlt). destruct Hid. lia.
Qed.

Lemma recoverable_settled w hs w' hs' tl' : present (w_files w) hs → settled w hs w' hs' tl' →
  ∃ m', recoverable (w_files w') m' ∧ (reliable w → m' = map_of hs) ∧ settles w w'.
Proof.
  intros Hp (Hd & Hk & Hids & Hr). exists (map_of hs'). split; [|split; [by intros ->%Hr|exact (proj2 Hk)]].
  exists hs', tl'. split_and!; [done| |done]. eapply present_ids; [done|]. by eapply present_keeps.
Qed.

Lemma recoverable_first w w' hs' tl' : settled w [(kFirstFileId, [])] w' hs' tl' →
  ∃ m', recoverable (w_files w') m' ∧ (reliable w → m' = ∅) ∧ settles w w'.
Proof.
  intros (Hd & [_ Hsy] & Hids & Hr). destruct hs' as [|[i ys] [|]]; try done. injection Hids as ->.
  destruct (w_files w' !! log_file_name kFirstFileId) as [f|] eqn:E.
  - exists (map_of [(kFirstFileId, ys)]). split; [|split; [by intros [= ->]%Hr|done]].
    exists [(kFirstFileId, ys)], tl'. split_and!; [done| |done].
    intros id ->%list_elem_of_singleton. eauto.
  - exists ∅. split; [|by split]. exists [], []. split_and!; [by eapply disk_no_first| |done].
    intros id []%elem_of_nil.
Qed.

Lemma recoverable_trims w w' m : recoverable (w_files w) m → trims w w' → recoverable (w_files w') m.
Proof.
  intros (hs & tl & Hd & Hp & Hm) Ht. exists hs, tl.
  split_and!; [by eapply disk_trimmed|by eapply present_trimmed|done].
Qed.

(** The files to replay, in order: those of the history, or the first file of a new database. *)
Lemma wp_recover_files opts b w0 w m names : recoverable (w_files w0) m → trims w0 w →
  files_ b = ∅ → index_ b = ∅ → options_ b = opts →
  names = (map_to_list (w_files w0)).*1 →
  let ids := std_sort (classify names [] []).1 in
  let ids := match ids with [] => [kFirstFileId] | _ => ids end in
  wp (recover_loop ids) b w
    (λ _ b' w', ∃ hs', ids = hs'.*1 ∧ hs' ≠ [] ∧ loaded opts b' w' hs' ∧ disk (w_files w') hs' [] ∧
       (reliable w → map_of hs' = m) ∧ settles w w')
    (λ _ _ _, ¬ reliable w)
    (λ w', ∃ m', recoverable (w_files w') m' ∧ (reliable w → m' = m) ∧ settles w w').
Proof.
  intros (hs & tl & Hd & Hp & Hm) Ht Hf Hi Ho ->. rewrite classify_ids. simpl.
  rewrite (sorted_ids _ _ _ Hd Hp). apply (disk_trimmed _ _ _ _ Ht) in Hd.
  apply (present_trimmed _ _ _ Ht) in Hp.
  assert (Hl : loaded opts b w []).
  { split; [done..|]. intros id []%elem_of_nil. }
  destruct hs as [|hf hs]; simpl.
  - apply disk_first in Hd. subst m.
    eapply wp_mono; [apply (wp_recover_loop opts b w [] [(kFirstFileId, [])] []); done|..]; cbn beta.
    + intros _ b' w' _ (hs' & Hs & Hl'). exists hs'. pose proof Hs as (Hd' & [_ Hsy] & Hids & Hr).
      split_and!; [done|by intros ->|done|done|by intros ->%Hr|done].
    + done.
    + intros w' _ (hs' & tl' & Hs). by eapply recoverable_first.
  - eapply wp_mono; [apply (wp_recover_loop opts b w [] (hf :: hs) tl); done|..]; cbn beta.
    + intros _ b' w' _ (hs' & Hs & Hl'). exists hs'. pose proof Hs as (Hd' & [_ Hsy] & Hids & Hr).
      split_and!; [done|by intros ->|done|done|by intros ->%Hr|done].
    + done.
    + intros w' _ (hs' & tl' & Hs). subst m. by eapply recoverable_settled.
Qed.

Lemma wp_recover b w m : recoverable (w_files w) m → files_ b = ∅ → index_ b = ∅ →
  wp recover b w
    (λ _ b' w', options_ b' = options_ b ∧ settles w w' ∧ ∃ hs, rep b' w' hs ∧ (reliable w → map_of hs = m))
    (λ _ _ _, ¬ reliable w)
    (λ w', ∃ m', recoverable (w_files w') m' ∧ (reliable w → m' = m) ∧ settles w w').
Proof.
  intros Hrec Hf Hi. unfold recover.
  eapply wp_bind; [apply wp_sweep_temp_files|..]; cbn beta.
  2: { by intros e ? w1 _ (_ & _ & ?). }
  2: { intros w1 _ Ht. exists m. split_and!; [by eapply recoverable_trims|done|by apply settles_trims]. }
  intros _ ? w1 Hc1 [-> Ht1]. wp_pure. wp_call wp_list_directory.
  2: { intros w2 _ ->. exists m. split_and!; [by eapply recoverable_trims|done|by apply settles_trims]. }
  intros r ? w2 Hc2 (-> & Hs2 & Hr). assert (Hc : calm w w2) by (by etrans).
  destruct Hr as [->|[-> Hu]]; [|apply wp_fail; eauto with wp].
  rewrite (surjective_pairing (classify _ _ _)).
  assert (Ht2 : trims w w2) by (etrans; [done|by apply trims_same]).
  eapply wp_bind; [apply wp_remove_orphan_hints| |done|]; cbn beta.
  2: { intros w3 _ Ht3. assert (trims w w3) by (by etrans). exists m. split_and!; [by eapply recoverable_trims|done|by apply settles_trims]. }
  intros _ ? w3 Hc3 [-> Ht3]. cbv zeta. assert (Hc' : calm w w3) by (by etrans).
  assert (Ht03 : trims w w3) by (by etrans).
  assert (Ht13 : trims w1 w3) by (etrans; [by apply trims_same|done]).
  eapply wp_bind; [apply (wp_recover_files (options_ b) b w1 w3 m _ (recoverable_trims _ _ _ Hrec Ht1) Ht13
    Hf Hi eq_refl eq_refl)|..]; cbn beta.
  2: { intros _ _ w4 _. eauto with wp. }
  2: { intros w4 _ (m' & ? & Hr & Hsy). exists m'. split_and!; [done|intros Hrel; apply Hr, Hc', Hrel|intros Hs0; by apply Hsy, (settles_trims w)]. }
  intros _ b4 w4 Hc4 (hs & Hids & Hne & [L1 L2 L3 L4] & Hd & Hr & Hsy). rewrite Hids.
  destruct hs as [|hf hs0 _] using rev_ind; [done|]. rewrite last_ids.
  apply wp_modify. split_and!; [done|intros Hs0; by apply Hsy, (settles_trims w)|]. exists (hs0 ++ [hf]).
  split; [|intros Hrel; by apply Hr, Hc'].
  split; simpl; [done|done|by rewrite L1|done|]. apply last_ids.
Qed.

Lemma wp_open_internal directory opts w m : recoverable (w_files w) m →
  wp (open directory opts) tt w
    (λ b _ w', options_ b = opts ∧ settles w w' ∧ ∃ hs, rep b w' hs ∧ (reliable w → map_of hs = m))
    (λ _ _ _, ¬ reliable w)
    (λ w', ∃ m', recoverable (w_files w') m' ∧ (reliable w → m' = m) ∧ settles w w').
Proof.
  intros Hrec. unfold open.
  assert (Hdied : ∀ w', w_files w' = w_files w →
    ∃ m', recoverable (w_files w') m' ∧ (reliable w → m' = m) ∧ settles w w').
  { intros w' Hw. exists m. unfold settles. by rewrite Hw. }
  wp_call wp_next_event. 2: { intros w1 _ ->. by apply Hdied. }
  intros e u w1 Hc1 (-> & [Hw1 _] & _ & Hr). rewrite <-Hw1 in Hrec.
  assert (Hgo : wp (r ← with_local (new_bitcask directory opts) recover; mret r.2) tt w1
    (λ b _ w', options_ b = opts ∧ settles w w' ∧ ∃ hs, rep b w' hs ∧ (reliable w → map_of hs = m))
    (λ _ _ _, ¬ reliable w)
    (λ w', ∃ m', recoverable (w_files w') m' ∧ (reliable w → m' = m) ∧ settles w w')).
  { eapply wp_bind_local; [by apply wp_recover|..]; cbn beta.
    - intros a b w2 _ (? & Hsy & hs & ? & Hm). apply wp_ret. split_and!; [done|unfold settles in *; by rewrite <-Hw1|]. exists hs. split; [done|].
      intros Hrel. by apply Hm, Hc1.
    - intros _ _ w2 _. eauto with wp.
    - intros w2 _ (m' & ? & Hm & Hsy). exists m'. split_and!; [done|intros Hrel; by apply Hm, Hc1|unfold settles in *; by rewrite <-Hw1]. }
  destruct e; try exact Hgo. apply wp_fail. intros Hrel. by destruct (Hr Hrel).
Qed.

(** C9: Opening a directory that holds the database [m] (whole data files, each with
    an absent or matching hint, and at most a torn record at the end of the last one)
    gives an engine that serves exactly [m], if no system call fails; it reports an
    error only after a failed system call; and a crash anywhere during recovery leaves
    a directory that still holds [m]. *)
Theorem bitcask_open directory opts w m : recoverable (w_files w) m →
  wp (open directory opts) tt w
    (λ b _ w', options_ b = opts ∧ ∃ m', serves b w' m' ∧ recoverable (w_files w') m' ∧
       (reliable w → m' = m))
    (λ _ _ _, ¬ reliable w)
    (λ w', ∃ m', recoverable (w_files w') m' ∧ (reliable w → m' = m)).
Proof.
  intros Hrec. eapply wp_mono; [by apply wp_open_internal| |done|]; cbn beta.
  2: { intros w' _ (m' & ? & ? & _). by exists m'. }
  intros b _ w' _ (Ho & _ & hs & Hrep & Hm). split; [done|]. exists (map_of hs).
  split_and!; [by apply rep_serves| |done]. exists hs, []. split_and!; [by apply Hrep..|done].
Qed.

End Recover.
