(* ===== verification/BitcaskCompactDisk.v ===== *)
(** What each step of a compaction does to the directory: after every one of them the directory
    holds a history, and the map of that history is the same; the merge pass writes the kept
    records and their hint to the temporary files and changes nothing else. *)

From S2P Require Import Prelude Status FileNames World Wp Encoding Record Hint LogFile Power LogScan Bitcask BitcaskCompact.
From S2P Require Import BitcaskState BitcaskSteps BitcaskServe BitcaskDisk BitcaskRecover.
Import record BitcaskOps CompactOps.

#[local] Opaque encode decode decode_header hint.encode_entry hint.encode_footer.

Section CompactDisk.
Context `{Platform}.

(** Only files with a temporary name differ. *)
Definition scratch (fs fs' : gmap bytes file) : Prop :=
  (∀ name, (∀ stem, name ≠ temp_name stem) → fs' !! name = fs !! name) ∧
  (∀ name f, fs' !! name = Some f → sz (f_data f) ≤ INT64_MAX).

Lemma disk_scratch fs fs' hs tl : scratch fs fs' → disk fs hs tl → disk fs' hs tl.
Proof.
  intros [Hs Hz] [H1 H2 H3 H4 H5 H6 H7 H8].
  assert (Hlog : ∀ id, fs' !! log_file_name id = fs !! log_file_name id) by (intros; apply Hs, log_not_temp).
  assert (Hhint : ∀ id, fs' !! hint_file_name id = fs !! hint_file_name id) by (intros; apply Hs, hint_not_temp).
  split; try done.
  - eapply logs_at_ext; [|done]. intros id _. apply log_data_ext. by rewrite Hlog.
  - intros name id Hin Hp. apply (H5 name id); [|done]. rewrite <-Hs; [done|].
    intros stem ->. by rewrite parse_log_temp in Hp.
  - intros id xs f. rewrite Hhint. apply H6.
  - intros id f. rewrite Hhint. apply H7.
Qed.

Lemma present_scratch fs fs' hs : scratch fs fs' → present fs hs → present fs' hs.
Proof. intros [Hs _] Hp id Hid. rewrite Hs by apply log_not_temp. by apply Hp. Qed.

Lemma scratch_insert fs fs' stem f : scratch fs fs' → sz (f_data f) ≤ INT64_MAX →
  scratch fs (<[temp_name stem := f]> fs').
Proof.
  intros [Hs Hz] Hf. split.
  - intros name Hn. rewrite lookup_insert_ne by (intros E; by apply (Hn stem)). by apply Hs.
  - intros name g. rewrite lookup_insert. case_decide; [by intros [= <-]|]. apply Hz.
Qed.

Lemma scratch_delete fs fs' stem : scratch fs fs' → scratch fs (delete (temp_name stem) fs').
Proof.
  intros [Hs Hz]. split.
  - intros name Hn. rewrite lookup_delete_ne by (intros E; by apply (Hn stem)). by apply Hs.
  - intros name g [_ Hg]%lookup_delete_Some. by eapply Hz.
Qed.

(** The merged file in place of the first file. *)
Lemma disk_install fs out xs live hf rest tl f : disk fs ((out, xs) :: hf :: rest) tl →
  fs !! hint_file_name out = None → f_data f = log_of live → Forall valid_write live →
  sz (f_data f) ≤ INT64_MAX →
  disk (<[log_file_name out := f]> fs) ((out, live) :: hf :: rest) tl.
Proof.
  intros Hd Hh Hf Hv Hz. pose proof Hd as [H1 H2 H3 H4 H5 H6 H7 H8].
  apply Forall_cons in H2 as [[Hout _] H2].
  assert (Hhint : ∀ id, <[log_file_name out := f]> fs !! hint_file_name id = fs !! hint_file_name id).
  { intros id. rewrite lookup_insert_ne; [done|]. intros E. by apply (hint_log_name_ne id out). }
  assert (Hne : ∀ id, id ∈ (hf :: rest).*1 → log_file_name out ≠ log_file_name id).
  { intros id Hid E. rewrite fmap_cons in H1. apply StronglySorted_inv in H1 as [_ Hlt].
    rewrite Forall_forall in Hlt. apply Hlt in Hid as Hlt'. apply list_elem_of_fmap in Hid as ([i ys] & -> & Hin).
    assert (out = i) by (apply log_file_name_inj; [done| |done]; rewrite Forall_forall in H2; by apply (H2 (i, ys))).
    simpl in *. lia. }
  split; try done.
  - by constructor.
  - change (log_data (<[log_file_name out := f]> fs) out = log_of live ∧
            logs_at (<[log_file_name out := f]> fs) (hf :: rest) tl).
    destruct H3 as [_ H3]. split.
    + unfold log_data, LogFileOps.opened_file. by rewrite lookup_insert_eq.
    + eapply logs_at_ext; [|exact H3]. intros id Hid. apply log_data_ext.
      by rewrite lookup_insert_ne by auto.
  - intros name id Hin Hp. destruct (decide (log_file_name out = name)) as [<-|Hn].
    + rewrite parse_log_name in Hp by done. injection Hp as <-. split; [done|by left].
    + rewrite lookup_insert_ne in Hin by done. by apply (H5 name id).
  - intros id ys g Hin. rewrite Hhint. intros Hg. apply elem_of_cons in Hin as [[= -> ->]|Hin]; [congruence|].
    apply (H6 id ys); [by right|done].
  - intros id g. rewrite Hhint. apply H7.
  - intros name g. rewrite lookup_insert. case_decide; [by intros [= <-]|]. apply H8.
Qed.

(** The first id is below the others, which are distinct from it. *)
Lemma first_below (out : Z) (ids : list Z) a : StronglySorted Z.lt (out :: ids) → ids ≠ [] →
  last (out :: ids) = Some a → out < a.
Proof.
  intros [_ Hlt]%StronglySorted_inv Hne Ha. rewrite Forall_forall in Hlt. apply Hlt.
  destruct ids as [|i ids]; [done|]. by apply last_Some_elem_of.
Qed.

Lemma first_unique out (live xs : list write) rest : StronglySorted Z.lt (out :: rest.*1) →
  (out, xs) ∈ (out, live) :: rest → xs = live.
Proof.
  intros [_ Hlt]%StronglySorted_inv [[= ->]|Hin]%elem_of_cons; [done|].
  rewrite Forall_forall in Hlt. apply (list_elem_of_fmap_2 fst) in Hin. apply Hlt in Hin. simpl in Hin. lia.
Qed.

(** The hint of the first file put in place. *)
Lemma disk_hint fs out live hf rest tl f : disk fs ((out, live) :: hf :: rest) tl →
  f_data f = hint_bytes live → Forall (λ x, wr_tomb x = false) live → sz (f_data f) ≤ INT64_MAX →
  disk (<[hint_file_name out := f]> fs) ((out, live) :: hf :: rest) tl.
Proof.
  intros Hd Hf Ht Hz. pose proof Hd as [H1 H2 H3 H4 H5 H6 H7 H8].
  assert (Hv : ∀ id ys, (id, ys) ∈ (out, live) :: hf :: rest → valid_id id).
  { intros id ys Hin. rewrite Forall_forall in H2. by apply (H2 (id, ys)). }
  assert (Hout : valid_id out) by (apply (Hv out live); by left).
  assert (Hlog : ∀ id, <[hint_file_name out := f]> fs !! log_file_name id = fs !! log_file_name id).
  { intros id. rewrite lookup_insert_ne; [done|]. apply hint_log_name_ne. }
  split; try done.
  - eapply logs_at_ext; [|done]. intros id _. apply log_data_ext. by rewrite Hlog.
  - intros name id Hin Hp. apply (H5 name id); [|done]. rewrite lookup_insert_ne in Hin; [done|].
    intros <-. by rewrite parse_log_hint in Hp.
  - intros id xs g Hin. rewrite lookup_insert. case_decide as E; [|by apply H6].
    intros [= <-]. apply hint_file_name_inj in E as <-; [|done|by eapply Hv].
    apply first_unique in Hin as ->; [done|]. exact H1.
  - intros id g Hid. rewrite lookup_insert. case_decide as E; [|by apply H7].
    intros _. apply hint_file_name_inj in E as <-; [|done..].
    destruct (last ((out, live) :: hf :: rest).*1) as [a|] eqn:Ha; [|by apply last_None in Ha].
    exists a. split; [done|]. by eapply first_below.
  - intros name g. rewrite lookup_insert. case_decide; [by intros [= <-]|]. apply H8.
Qed.

(** The second file removed. *)
Lemma disk_drop fs hf0 hf hf' rest tl : disk fs (hf0 :: hf :: hf' :: rest) tl →
  disk (delete (log_file_name hf.1) fs) (hf0 :: hf' :: rest) tl.
Proof.
  intros Hd. pose proof Hd as [H1 H2 H3 H4 H5 H6 H7 H8].
  assert (Hsub : ∀ x, x ∈ hf0 :: hf' :: rest → x ∈ hf0 :: hf :: hf' :: rest).
  { intros x [->|Hx]%elem_of_cons; [by left|by right; right]. }
  assert (Hv : ∀ x, x ∈ hf0 :: hf :: hf' :: rest → valid_id x.1).
  { intros x Hx. rewrite Forall_forall in H2. by apply (H2 x). }
  assert (Hlt : ∀ x, x ∈ hf0 :: hf' :: rest → x.1 ≠ hf.1).
  { rewrite !fmap_cons in H1. apply StronglySorted_inv in H1 as [Ha Hb].
    apply StronglySorted_inv in Ha as [_ Ha]. rewrite Forall_forall in Ha. apply Forall_cons in Hb as [Hb _].
    intros x [->|Hx]%elem_of_cons; [lia|].
    assert (hf.1 < x.1) by (apply Ha; apply (list_elem_of_fmap_2 fst _ _ Hx)). lia. }
  assert (Hkeep : ∀ x, x ∈ hf0 :: hf' :: rest →
    delete (log_file_name hf.1) fs !! log_file_name x.1 = fs !! log_file_name x.1).
  { intros x Hx. rewrite lookup_delete_ne; [done|]. intros E. apply (Hlt x Hx). symmetry.
    apply log_file_name_inj in E; [done|apply Hv; right; by left|by apply Hv, Hsub]. }
  assert (Hback : ∀ name f, delete (log_file_name hf.1) fs !! name = Some f → fs !! name = Some f).
  { intros name f [_ ?]%lookup_delete_Some. done. }
  split; try by eauto.
  - rewrite !fmap_cons in *. apply StronglySorted_inv in H1 as [Ha Hb].
    apply StronglySorted_inv in Ha as [Ha _]. apply Forall_cons in Hb as [_ Hb]. by constructor.
  - rewrite !Forall_cons in *. tauto.
  - assert (Hl : logs_at fs (hf0 :: hf' :: rest) tl).
    { destruct H3 as [Ha [_ Hb]]. by split. }
    eapply logs_at_ext; [|exact Hl]. intros id (x & -> & Hx)%list_elem_of_fmap.
    apply log_data_ext. by rewrite Hkeep.
  - intros name id [f Hf] Hp. destruct (H5 name id) as [-> Hin]; [by eauto|done|]. split; [done|].
    rewrite !fmap_cons, !elem_of_cons in Hin. rewrite !fmap_cons, !elem_of_cons.
    destruct Hin as [?|[->|?]]; [tauto| |tauto]. by rewrite lookup_delete_eq in Hf.
Qed.

End CompactDisk.

(** * The merge pass of a compaction *)

#[local] Opaque encode decode decode_header hint.encode_entry hint.encode_footer.

Section CompactSteps.
Context `{Platform}.

(** Appending to a file whose end is the end of the data. *)
Lemma wp_append_end path mode d bs f w : w_files w !! path = Some f → f_data f = d →
  sz d + sz bs ≤ INT64_MAX →
  wp (LogFileOps.append bs) (mkLogFile true path (sz d) mode) w
    (λ off l' w', off = sz d ∧ l' = mkLogFile true path (sz (d ++ bs)) mode ∧
       ∃ f', w_files w' = <[path := f']> (w_files w) ∧ f_data f' = d ++ bs)
    (λ _ _ _, ¬ reliable w)
    (λ w', ∃ f', w_files w' = <[path := f']> (w_files w) ∧ sz (f_data f') ≤ INT64_MAX).
Proof.
  intros Hf Hd Hmax.
  eapply wp_mono; [apply (LogFileOps.wp_append _ w f d [] bs)|..]; cbn beta.
  - split_and!; [done|done|by rewrite app_nil_r|done].
  - unfold UINT64_MAX, INT64_MAX in *. lia.
  - intros off l' w' _ (-> & -> & f' & [Hw _] & (_ & Hd' & _) & _).
    split_and!; [done|by rewrite sz_app|]. exists f'. split; [done|].
    by rewrite Hd', firstn_all, drop_nil, app_nil_r.
  - by intros e l' w' _ [? _].
  - intros w' _ (f' & k & [Hw _] & Hk & Hd' & _). exists f'. split; [done|].
    rewrite Hd', drop_nil, app_nil_r, sz_app. unfold sz in *. rewrite length_take. lia.
Qed.

Lemma scratch_insert2 fs0 w w' stem f : scratch fs0 (w_files w) →
  w_files w' = <[temp_name stem := f]> (w_files w) → sz (f_data f) ≤ INT64_MAX →
  scratch fs0 (w_files w').
Proof. intros Hs -> Hf. by apply scratch_insert. Qed.

(** ** The state of the merge *)

Section merging.
Context (fs0 : gmap bytes file) (out : Z).
Hypothesis Hsizes : ∀ name f, fs0 !! name = Some f → sz (f_data f) ≤ INT64_MAX.

Abbreviation temp_path := (temp_name (log_file_name out)).
Abbreviation hint_temp_path := (temp_name (hint_file_name out)).

(** The writes [ws] have been copied. *)
Definition merging (ws : list write) (g : Merge) (w : World) : Prop :=
  (∃ ft fh, w_files w !! temp_path = Some ft ∧ w_files w !! hint_temp_path = Some fh ∧
     f_data ft = log_of ws ∧ f_data fh = hint_entries 0 ws) ∧
  scratch fs0 (w_files w) ∧
  g = mkMerge (mkLogFile true temp_path (sz (log_of ws)) Never)
        (mkLogFile true hint_temp_path (sz (hint_entries 0 ws)) Never) (sz ws) (index_of [(out, ws)]).

Lemma temp_paths_ne : temp_path ≠ hint_temp_path.
Proof.
  intros E. unfold temp_name in E. apply app_inv_tail in E. by apply (hint_log_name_ne out out).
Qed.

Lemma merging_same ws g w w' : merging ws g w → same_files w w' → merging ws g w'.
Proof. intros Hm [Hw _]. unfold merging in *. by rewrite Hw. Qed.

(** Hints are not much larger than what they describe. *)
Lemma sz_hint_entries off ws : Forall valid_write ws → 0 ≤ off →
  off + sz (log_of ws) ≤ INT64_MAX → sz (hint_entries off ws) ≤ 2 * sz (log_of ws).
Proof.
  intros Hv. revert off. induction Hv as [|x ws Hx Hv IH]; intros off Ho Hmax; [done|].
  cbn [hint_entries]. rewrite log_of_cons in *. rewrite !sz_app in *.
  pose proof (sz_nonneg (enc x)). pose proof (sz_nonneg (log_of ws)).
  assert (Hk : sz (enc x) = kHeaderSize + sz (wr_key x) + sz (stored (wr_value x) (wr_tomb x)))
    by (unfold enc; apply sz_encode, Hx).
  destruct (hint_enc_facts off x Hx) as [Hs _]; [lia|]. unfold hint_enc in Hs. rewrite Hs.
  specialize (IH (off + sz (enc x))). pose proof (sz_nonneg (stored (wr_value x) (wr_tomb x))).
  pose proof (sz_nonneg (wr_key x)). unfold kHeaderSize, hint.kEntryHeaderSize in *. lia.
Qed.

Lemma index_of_one_snoc ws x : wr_tomb x = false →
  index_of [(out, ws ++ [x])] =
  <[wr_key x := mkPointer (sz (log_of ws)) (wr_ts x) out (r_total_size (rec_of x))]> (index_of [(out, ws)]).
Proof.
  intros Ht. pose proof (index_of_write [] out ws x) as E. rewrite !app_nil_l in E.
  rewrite E. unfold index_step. unfold rec_of, record_of. simpl. by rewrite Ht.
Qed.

Lemma sz_snoc {A} (l : list A) x : sz (l ++ [x]) = sz l + 1.
Proof. unfold sz. rewrite length_app. simpl. lia. Qed.

Lemma wp_merge_visit idx id off ws x g w : merging ws g w → valid_write x → Forall valid_write ws →
  2 * (sz (log_of ws) + sz (enc x)) ≤ INT64_MAX → sz ws < UINT64_MAX →
  wp (merge_visit idx out id off (rec_of x) (enc x)) g w
    (λ _ g' w', merging (ws ++ if negb (wr_tomb x) && is_live idx id off (wr_key x) then [x] else []) g' w')
    (λ _ _ _, ¬ reliable w) (λ w', scratch fs0 (w_files w')).
Proof.
  intros Hm Hx Hws Hmax Hcount. unfold merge_visit.
  change (r_is_tombstone (rec_of x)) with (wr_tomb x). change (r_key (rec_of x)) with (wr_key x).
  change (r_timestamp (rec_of x)) with (wr_ts x).
  destruct (wr_tomb x) eqn:Ht; cbn [negb andb]; [apply wp_ret; by rewrite app_nil_r|].
  destruct (is_live idx id off (wr_key x)); cbn [negb]; [|apply wp_ret; by rewrite app_nil_r].
  destruct Hm as ((ft & fh & Hft & Hfh & Hdt & Hdh) & Hs & ->).
  pose proof (sz_nonneg (log_of ws)). pose proof (sz_nonneg (enc x)).
  assert (Hsh : sz (hint_entries 0 (ws ++ [x])) ≤ INT64_MAX).
  { etrans; [apply sz_hint_entries|]; [by apply Forall_app; split; [|constructor]|done|..];
      rewrite log_of_snoc, sz_app; lia. }
  eapply wp_bind_zoom; [apply (wp_append_end temp_path Never (log_of ws) (enc x) ft w Hft Hdt);
    unfold INT64_MAX in *; lia|..]; cbn beta.
  2: done.
  2: { intros w1 _ (f' & Hw & Hf'). by eapply scratch_insert2. }
  intros off1 l1 w1 Hc1 (-> & -> & ft' & Hw1 & Hdt').
  assert (Hs1 : scratch fs0 (w_files w1)).
  { eapply scratch_insert2; [done..|]. rewrite Hdt', sz_app. unfold INT64_MAX in *. lia. }
  assert (Hfh1 : w_files w1 !! hint_temp_path = Some fh)
    by (rewrite Hw1, lookup_insert_ne by apply temp_paths_ne; done).
  assert (Hsnoc : hint_entries 0 (ws ++ [x]) = hint_entries 0 ws ++
    hint.encode_entry (wr_key x) (wr_ts x) (sz (log_of ws)) (r_total_size (rec_of x))).
  { rewrite hint_entries_app. cbn [hint_entries]. by rewrite app_nil_r. }
  rewrite Hsnoc, sz_app in Hsh. cbv zeta.
  eapply wp_bind_zoom; [apply (wp_append_end hint_temp_path Never (hint_entries 0 ws) _ fh w1 Hfh1 Hdh Hsh)|..];
    cbn beta.
  2: { intros _ _ w2 _. eauto with wp. }
  2: { intros w2 _ (f' & Hw & Hf'). by eapply scratch_insert2. }
  intros off2 l2 w2 Hc2 (-> & -> & fh' & Hw2 & Hdh'). apply wp_modify. rewrite <-Hsnoc in *.
  split_and!.
  - exists ft', fh'. rewrite Hw2, lookup_insert_eq, lookup_insert_ne by (symmetry; apply temp_paths_ne).
    rewrite Hw1, lookup_insert_eq, log_of_snoc. done.
  - eapply scratch_insert2; [done..|]. rewrite Hdh', Hsnoc, sz_app. done.
  - unfold stage. cbn [set_temp set_hint_temp mg_temp mg_hint_temp mg_hint_entries mg_staged].
    rewrite index_of_one_snoc, log_of_snoc, sz_snoc, u64_id by (done || (unfold sz in *; lia)). done.
Qed.

(** One input file. *)
Lemma wp_merge_file idx id l f xs ps g w :
  merging (kept_writes idx ps) g w →
  l = mkLogFile true (log_file_name id) (sz (log_of xs)) (sync_mode_ l) →
  fs0 !! log_file_name id = Some f → f_data f = log_of xs →
  Forall valid_write (pl_write <$> (ps ++ place id [] xs)) →
  2 * sz (log_of (pl_write <$> (ps ++ place id [] xs))) ≤ INT64_MAX →
  wp (scan_records l (merge_visit idx out id)) g w
    (λ n g' w', (n = end_offset_ l → merging (kept_writes idx (ps ++ place id [] xs)) g' w') ∧
       (reliable w → n = end_offset_ l))
    (λ _ _ _, ¬ reliable w) (λ w', scratch fs0 (w_files w')).
Proof.
  intros Hm Hl Hf Hd Hv Hmax.
  assert (Hvx : Forall valid_write xs) by (rewrite fmap_app, place_writes in Hv; by apply Forall_app in Hv as [_ ?]).
  assert (Hlog : sz (log_of xs) ≤ INT64_MAX).
  { rewrite fmap_app, place_writes, log_of_app, sz_app in Hmax.
    pose proof (sz_nonneg (log_of (pl_write <$> ps))). pose proof (sz_nonneg (log_of xs)). lia. }
  eapply wp_mono; [eapply (wp_scan_records l f (log_of xs) [] (merge_visit idx out id)
    (λ done g w', ∃ xs1 xs2, xs = xs1 ++ xs2 ∧ done = entries_from 0 xs1 ∧
       merging (kept_writes idx (ps ++ place id [] xs1)) g w')
    (λ _ _ _, ¬ reliable w) (λ w', scratch fs0 (w_files w')) (entries_from 0 xs) [] w)|..]; cbn beta.
  - by rewrite Hl.
  - by rewrite Hl.
  - by rewrite app_nil_r.
  - done.
  - rewrite <-(app_nil_r (log_of xs)). by apply parse_log_of.
  - intros done v w' (xs1 & xs2 & _ & _ & _ & [Hs _] & _). rewrite Hl. simpl.
    rewrite Hs by apply log_not_temp. done.
  - intros done v w1 w2 (xs1 & xs2 & ? & ? & Hm1) Hs _. exists xs1, xs2. split_and!; [done..|].
    by eapply merging_same.
  - intros done v w1 w2 (xs1 & xs2 & ? & ? & _ & Hs1 & _) _ [Hs _]. by rewrite Hs.
  - intros done o r raw rest v w1 Hes Ho Hr (xs1 & xs2 & -> & -> & Hm1) Hc.
    rewrite entries_from_app in Hes. apply app_inv_head in Hes.
    destruct xs2 as [|x xs2]; [done|]. cbn [entries_from] in Hes. injection Hes as <- <- <- _.
    rewrite place_app, app_assoc, fmap_app in Hv, Hmax. cbn [place fmap list_fmap pl_write] in Hv, Hmax.
    apply Forall_app in Hv as [Hv1 [Hx _]%Forall_cons].
    rewrite log_of_app, log_of_cons, !sz_app in Hmax.
    set (qs := ps ++ place id [] xs1) in *.
    pose proof (sz_kept_writes idx qs). pose proof (sz_nonneg (log_of (pl_write <$> place id (([] ++ xs1) ++ [x]) xs2))).
    pose proof (sz_writes _ (kept_writes_sub _ idx _ Hv1)). pose proof (sz_nonneg (enc x)).
    pose proof (sz_nonneg (log_of (kept_writes idx qs))).
    eapply wp_mono; [apply (wp_merge_visit idx id _ (kept_writes idx qs) x); try done|..]; cbn beta.
    + by apply kept_writes_sub.
    + lia.
    + unfold UINT64_MAX, INT64_MAX in *. lia.
    + intros _ g' w2 _ Hm2. exists (xs1 ++ [x]), xs2. split_and!; [by rewrite <-app_assoc| |].
      * by rewrite entries_from_app.
      * rewrite place_app, app_assoc, kept_writes_app. cbn [place]. rewrite kept_writes_one.
        unfold keep, pl_offset, pl_key. simpl. rewrite Z.add_0_l in Hm2. exact Hm2.
    + intros _ _ w2 _. eauto with wp.
    + done.
  - exists [], xs. split_and!; [done|done|]. cbn [place]. by rewrite app_nil_r.
  - intros n g' w' _ (done & rest & Hes & -> & (xs1 & xs2 & -> & -> & Hm1) & Hrel).
    rewrite raws_entries. apply Forall_app in Hvx as [_ Hv2]. rewrite Hl. simpl. split.
    + intros E. destruct (log_of_no_more xs1 xs2 0 Hv2) as [-> _]; [done|lia|]. by rewrite app_nil_r.
    + intros Hr. apply Hrel in Hr as ->. rewrite app_nil_r in Hes.
      apply (f_equal (sz ∘ raws)) in Hes. simpl in Hes. rewrite !raws_entries in Hes. lia.
  - done.
  - done.
Qed.

(** The object has the input files open, at their full length. *)
Definition inputs_open (b : Bitcask) (ins : history) : Prop :=
  ∀ id xs, (id, xs) ∈ ins →
    (∃ mode, files_ b !! id = Some (mkLogFile true (log_file_name id) (sz (log_of xs)) mode)) ∧
    ∃ f, fs0 !! log_file_name id = Some f ∧ f_data f = log_of xs.

Lemma wp_merge_inputs b ins ps g w :
  merging (kept_writes (index_ b) ps) g w → inputs_open b ins →
  Forall valid_write (pl_write <$> (ps ++ placement ins)) →
  2 * sz (log_of (pl_write <$> (ps ++ placement ins))) ≤ INT64_MAX →
  wp (merge_inputs b out ins.*1) g w
    (λ _ g' w', merging (kept_writes (index_ b) (ps ++ placement ins)) g' w')
    (λ _ _ _, ¬ reliable w) (λ w', scratch fs0 (w_files w')).
Proof.
  revert ps g w. induction ins as [|[id xs] ins IH]; intros ps g w Hm Hin Hv Hmax; cbn [fmap list_fmap merge_inputs].
  { apply wp_ret. by rewrite app_nil_r. }
  destruct (Hin id xs) as [[mode Hl] (f & Hf & Hd)]; [by left|]. cbn [fst]. rewrite Hl.
  rewrite placement_cons, app_assoc in Hv, Hmax. cbn [fst snd] in Hv, Hmax.
  assert (Hv1 := Hv). assert (Hmax1 := Hmax). rewrite fmap_app in Hv1, Hmax1.
  apply Forall_app in Hv1 as [Hv1 _]. rewrite log_of_app, sz_app in Hmax1.
  pose proof (sz_nonneg (log_of (pl_write <$> placement ins))).
  eapply wp_bind; [apply (wp_merge_file (index_ b) id _ f xs ps g w Hm); [done..|lia]| |done|done]; cbn beta.
  intros n g1 w1 Hc [Hm1 Hr]. destruct (Z.eqb_spec n (end_offset_ (mkLogFile true (log_file_name id)
    (sz (log_of xs)) mode))) as [E|E]; cbn [negb].
  2: { apply wp_fail. intros Hrel. by apply E, Hr. }
  eapply wp_mono; [apply (IH (ps ++ place id [] xs)); auto|..]; cbn beta.
  - intros i ys Hi. apply Hin. by right.
  - intros _ g2 w2 _. by rewrite placement_cons, app_assoc.
  - intros _ _ w2 _. eauto with wp.
  - done.
Qed.

(** The temporary files are complete. *)
Definition written (log_synced hint_synced : bool) (ws : list write) (w : World) : Prop :=
  ∃ ft fh, w_files w !! temp_path = Some ft ∧ w_files w !! hint_temp_path = Some fh ∧
    f_data ft = log_of ws ∧ f_data fh = hint_bytes ws ∧ scratch fs0 (w_files w) ∧
    (log_synced → fully ft) ∧ (hint_synced → fully fh).

Lemma scratch_fsynced fs stem : scratch fs0 fs → scratch fs0 (alter LogFileOps.fsynced (temp_name stem) fs).
Proof.
  intros [Hs Hz]. split.
  - intros name Hn. rewrite lookup_alter_ne by (intros E; by apply (Hn stem)). by apply Hs.
  - intros name f'. destruct (decide (temp_name stem = name)) as [<-|Hne].
    + rewrite lookup_alter_eq. intros (f & Hf & ->)%fmap_Some. exact (Hz _ _ Hf).
    + rewrite lookup_alter_ne by done. apply Hz.
Qed.

Lemma written_log sl sh ws w w' : written sl sh ws w →
  w_files w' = alter LogFileOps.fsynced temp_path (w_files w) → written true sh ws w'.
Proof.
  intros (ft & fh & Ht & Hh & Hdt & Hdh & Hs & _ & Hyh) Hw. exists (LogFileOps.fsynced ft), fh.
  rewrite Hw, lookup_alter_eq, lookup_alter_ne, Ht, Hh by apply temp_paths_ne.
  split_and!; [done|done|done|done|by apply scratch_fsynced|done|done].
Qed.

Lemma written_hint sl sh ws w w' : written sl sh ws w →
  w_files w' = alter LogFileOps.fsynced hint_temp_path (w_files w) → written sl true ws w'.
Proof.
  intros (ft & fh & Ht & Hh & Hdt & Hdh & Hs & Hyt & _) Hw. exists ft, (LogFileOps.fsynced fh).
  rewrite Hw, lookup_alter_eq, lookup_alter_ne, Ht, Hh by (symmetry; apply temp_paths_ne).
  split_and!; [done|done|done|done|by apply scratch_fsynced|done|done].
Qed.

Lemma written_same sl sh ws w w' : written sl sh ws w → same_files w w' → written sl sh ws w'.
Proof. intros Hm [Hw _]. unfold written in *. by rewrite Hw. Qed.

Lemma written_scratch sl sh ws w : written sl sh ws w → scratch fs0 (w_files w).
Proof. by intros (? & ? & _ & _ & _ & _ & ? & _). Qed.

Lemma wp_write_merged b ins g w :
  merging [] g w → inputs_open b ins →
  Forall valid_write (concat ins.*2) → 2 * sz (log_of (concat ins.*2)) + hint.kFooterSize ≤ INT64_MAX →
  wp (write_merged b out ins.*1) g w
    (λ _ g' w', let ws := kept_writes (index_ b) (placement ins) in
       written true true ws w' ∧ mg_staged g' = index_of [(out, ws)])
    (λ _ _ _, ¬ reliable w) (λ w', scratch fs0 (w_files w')).
Proof.
  intros Hm Hin Hv Hmax. unfold write_merged. rewrite <-placement_writes in Hv, Hmax.
  unfold hint.kFooterSize in Hmax.
  eapply wp_bind; [apply (wp_merge_inputs b ins [] g w Hm Hin Hv); rewrite app_nil_l; lia| |done|done]; cbn beta.
  intros _ g1 w1 Hc1 Hm1. wp_pure. rewrite app_nil_l in Hm1. set (ws := kept_writes _ _) in *.
  assert (Hws : Forall valid_write ws) by (by apply kept_writes_sub).
  assert (Hlog : sz (log_of ws) ≤ sz (log_of (pl_write <$> placement ins))) by apply sz_kept_writes.
  pose proof (sz_nonneg (log_of ws)).
  pose proof (sz_hint_entries 0 ws Hws ltac:(lia) ltac:(lia)) as Hsh.
  destruct Hm1 as ((ft & fh & Hft & Hfh & Hdt & Hdh) & Hs & ->). cbn [mg_temp mg_hint_entries end_offset_].
  eapply wp_bind_zoom; [apply (wp_append_end hint_temp_path Never (hint_entries 0 ws) _ fh w1 Hfh Hdh);
    rewrite hint.sz_encode_footer; unfold hint.kFooterSize; lia|..]; cbn beta.
  2: { intros _ _ w2 _. eauto with wp. }
  2: { intros w2 _ (f' & Hw & Hf'). by eapply scratch_insert2. }
  intros off l2 w2 Hc2 (_ & -> & fh' & Hw2 & Hdh'). fold (hint_bytes ws) in Hdh'.
  assert (Hwr2 : written false false ws w2).
  { exists ft, fh'. rewrite Hw2, lookup_insert_eq, lookup_insert_ne by (symmetry; apply temp_paths_ne).
    split_and!; [done..| |done|done]. apply scratch_insert; [done|].
    rewrite Hdh'. unfold hint_bytes. rewrite sz_app, hint.sz_encode_footer. unfold hint.kFooterSize. lia. }
  assert (Hc : calm w w2) by (by etrans).
  eapply wp_bind_zoom; [by apply LogFileOps.wp_sync|..]; cbn beta.
  2: { intros e ? w3 _ (_ & ? & _). eauto with wp. }
  2: { intros w3 _ ?. eapply written_scratch. by eapply written_same. }
  intros [] ? w3 Hc3 (-> & [Hw3 _]). eapply written_log in Hwr2; [|exact Hw3]. clear Hw3.
  eapply wp_bind_zoom; [by apply LogFileOps.wp_sync|..]; cbn beta.
  2: { intros e ? w4 _ (_ & ? & _). eauto with wp. }
  2: { intros w4 _ ?. eapply written_scratch. by eapply written_same. }
  intros [] ? w4 Hc4 (-> & [Hw4 _]). eapply written_hint in Hwr2; [|exact Hw4].
  eapply wp_bind_zoom; [by apply LogFileOps.wp_close|..]; cbn beta.
  2: { intros e ? w5 _ (_ & ? & _). eauto 6 with wp. }
  2: { intros w5 _ ?. eapply written_scratch. by eapply written_same. }
  intros [] ? w5 Hc5 (-> & Hs5). eapply written_same in Hwr2; [|done].
  apply wp_zoom. eapply wp_mono; [by apply LogFileOps.wp_close|..]; cbn beta.
  - intros [] ? w6 _ (-> & Hs6). split; [by eapply written_same|done].
  - intros e ? w6 _ (_ & ? & _). eauto 7 with wp.
  - intros w6 _ ?. eapply written_scratch. by eapply written_same.
Qed.

End merging.
End CompactSteps.
