(* ===== verification/BitcaskCompaction.v ===== *)
(** Compaction preserves the database: [Bitcask::compact] end to end.

    The proofs are for a world in which system calls do not fail, so that the
    outcomes are: it returns, or the process dies at some call. *)

From S2P Require Import Prelude Status FileNames World Wp Encoding Record Hint LogFile Power LogScan.
From S2P Require Import Bitcask BitcaskCompact BitcaskState BitcaskSteps BitcaskServe.
From S2P Require Import BitcaskDisk BitcaskRecover BitcaskCompactDisk.
Import record BitcaskOps CompactOps.

#[local] Opaque encode decode decode_header hint.encode_entry hint.encode_footer.

Section Compaction.
Context `{Platform}.

(** Whether the directory is on the device to begin with. *)
Context (durable : Prop).

(** The directory holds the history [hs], whose map is [m]. *)
Definition holding (m : gmap bytes bytes) (fs : gmap bytes file) (hs : history) : Prop :=
  disk fs hs [] ∧ present fs hs ∧ map_of hs = m ∧ (durable → synced fs).

(** What a crash leaves. *)
Definition safe (m : gmap bytes bytes) (fs : gmap bytes file) : Prop := recoverable fs m ∧ (durable → synced fs).

Lemma holding_safe m fs hs : holding m fs hs → safe m fs.
Proof. intros (? & ? & ? & ?). split; [|done]. by exists hs, []. Qed.

Lemma holding_same m w w' hs : holding m (w_files w) hs → same_files w w' → holding m (w_files w') hs.
Proof. intros Hh [Hw _]. by rewrite Hw. Qed.

Lemma synced_scratch fs fs' : scratch fs fs' → synced fs → synced fs'.
Proof. intros [Hs _] Hy name f Hp Hf. rewrite Hs in Hf by done. by eapply Hy. Qed.

Lemma holding_scratch m fs fs' hs : holding m fs hs → scratch fs fs' → holding m fs' hs.
Proof.
  intros (? & ? & ? & Hd) Hs. split_and!; [by eapply disk_scratch|by eapply present_scratch|done|].
  intros Hdur. eapply synced_scratch; eauto.
Qed.

Lemma holding_trimmed m fs fs' hs : holding m fs hs → trimmed fs fs' → holding m fs' hs.
Proof.
  intros (? & ? & ? & Hd) Hs. split_and!; [by eapply disk_trimmed|by eapply present_trimmed|done|].
  intros Hdur. eapply clean_subseteq; [apply Hs|auto].
Qed.

Lemma scratch_refl fs : (∀ name f, fs !! name = Some f → sz (f_data f) ≤ INT64_MAX) → scratch fs fs.
Proof. by split. Qed.

(** ** System calls that do not fail *)

Section reliable.
Context (m : gmap bytes bytes).

Lemma wp_sync_dir_ok b w hs : reliable w → holding m (w_files w) hs →
  wp sync_dir b w (λ _ b' w', b' = b ∧ same_files w w') (λ _ _ _, False)
    (λ w', safe m (w_files w')).
Proof.
  intros Hr Hh. eapply wp_mono; [apply wp_sync_dir|done|..]; cbn beta.
  - by intros e b' w' _ (_ & Hu & _).
  - intros w' _ Hs. eapply holding_safe. by eapply holding_same.
Qed.

Lemma wp_remove_ok {S} path (s : S) w hs : reliable w → holding m (w_files w) hs →
  wp (platform.remove path) s w
    (λ ec s' w', ec = false ∧ s' = s ∧ w_files w' = delete path (w_files w)) (λ _ _ _, False)
    (λ w', safe m (w_files w')).
Proof.
  intros Hr Hh. eapply wp_mono; [apply wp_remove|..]; cbn beta.
  - intros ec s' w' _ [-> [[-> [Hw _]]|(_ & Hu & _)]]; done.
  - done.
  - intros w' _ ->. by eapply holding_safe.
Qed.

Lemma wp_rename_ok {S} from to (s : S) w hs f : reliable w → holding m (w_files w) hs →
  w_files w !! from = Some f →
  wp (platform.rename_file from to) s w
    (λ rc s' w', rc = 0 ∧ s' = s ∧ w_files w' = <[to := f]> (delete from (w_files w))) (λ _ _ _, False)
    (λ w', safe m (w_files w')).
Proof.
  intros Hr Hh Hf. eapply wp_mono; [by apply wp_rename_file|..]; cbn beta.
  - intros ec s' w' _ [-> [[-> [Hw _]]|(_ & Hu & _)]]; done.
  - done.
  - intros w' _ ->. by eapply holding_safe.
Qed.

Lemma wp_close_ok id b w hs l : reliable w → holding m (w_files w) hs → files_ b !! id = Some l →
  lf_open l = true →
  wp (on_file id LogFileOps.close) b w
    (λ _ b' w', (∃ l', b' = set_log_files (<[id := l']> (files_ b)) b) ∧ same_files w w') (λ _ _ _, False)
    (λ w', safe m (w_files w')).
Proof.
  intros Hr Hh Hl Ho. eapply wp_on_file; [done|]. eapply wp_mono; [by apply LogFileOps.wp_close|..]; cbn beta.
  - intros _ l' w' _ [-> Hs]. split; [by eexists|done].
  - by intros e l' w' _ (_ & Hu & _).
  - intros w' _ Hs. eapply holding_safe. by eapply holding_same.
Qed.

(** ** Installing the merged file *)

Lemma wp_install b w out xs0 live hf rest l ft fh : reliable w →
  holding m (w_files w) ((out, xs0) :: hf :: rest) → map_of ((out, live) :: hf :: rest) = m →
  files_ b !! out = Some l → lf_open l = true →
  w_files w !! temp_name (log_file_name out) = Some ft → f_data ft = log_of live →
  Forall valid_write live → (durable → fully ft) →
  w_files w !! temp_name (hint_file_name out) = Some fh →
  wp (install out) b w
    (λ _ b' w', b' = set_log_files (delete out (files_ b)) b ∧
       holding m (w_files w') ((out, live) :: hf :: rest) ∧
       w_files w' !! log_file_name out = Some ft ∧
       w_files w' !! temp_name (hint_file_name out) = Some fh)
    (λ _ _ _, False) (λ w', safe m (w_files w')).
Proof.
  intros Hr Hh Hm Hl Ho Hft Hdt Hv Hfull Hfh. unfold install.
  wp_call (wp_remove_ok _ _ _ _ Hr Hh). intros ec ? w1 Hc1 (-> & -> & Hw1).
  assert (Hr1 : reliable w1) by eauto using calm_reliable.
  assert (Hh1 : holding m (w_files w1) ((out, xs0) :: hf :: rest)).
  { eapply holding_trimmed; [done|]. rewrite Hw1. apply trimmed_delete. intros id. apply hint_log_name_ne. }
  wp_call (wp_sync_dir_ok _ _ _ Hr1 Hh1). intros _ ? w2 Hc2 (-> & Hs2).
  assert (Hr2 : reliable w2) by eauto using calm_reliable.
  eapply holding_same in Hh1 as Hh2; [|done]. destruct Hs2 as [Hw2 _].
  wp_call (wp_close_ok _ _ _ _ _ Hr2 Hh2 Hl Ho). intros _ ? w3 Hc3 ([l' ->] & Hs3).
  assert (Hr3 : reliable w3) by eauto using calm_reliable.
  eapply holding_same in Hh2 as Hh3; [|done]. destruct Hs3 as [Hw3 _].
  unfold erase_file. wp_pure. rewrite Hw2, Hw1 in Hw3.
  assert (Hkeep : ∀ stem, w_files w3 !! temp_name stem = w_files w !! temp_name stem).
  { intros stem. rewrite Hw3, lookup_delete_ne; [done|]. apply hint_not_temp. }
  assert (Hft3 := Hft). assert (Hfh3 := Hfh). rewrite <-Hkeep in Hft3, Hfh3.
  wp_call (wp_rename_ok _ (log_file_name out) _ _ _ _ Hr3 Hh3 Hft3). intros rc ? w4 Hc4 (-> & -> & Hw4).
  assert (Hr4 : reliable w4) by eauto using calm_reliable. cbn [Z.eqb negb].
  assert (Hh4 : holding m (w_files w4) ((out, live) :: hf :: rest)).
  { destruct Hh3 as (Hd3 & Hp3 & _ & Hy3).
    assert (Hs3 : scratch (w_files w3) (delete (temp_name (log_file_name out)) (w_files w3))) by apply scratch_delete, scratch_refl, Hd3.
    split_and!; [| |done|intros Hdur; rewrite Hw4; apply clean_insert; [by apply (synced_scratch _ _ Hs3), Hy3|by apply Hfull]].
    - rewrite Hw4. eapply disk_install; [|..].
      + eapply disk_scratch; [|exact Hd3]. apply scratch_delete, scratch_refl, Hd3.
      + rewrite lookup_delete_ne by (intros E; by apply (hint_not_temp out (log_file_name out))).
        by rewrite Hw3, lookup_delete_eq.
      + done.
      + done.
      + by apply (dk_sizes _ _ _ Hd3 _ _ Hft3).
    - rewrite Hw4. apply present_insert. eapply present_ids; [|eapply present_scratch; [|exact Hp3]]; [done|].
      apply scratch_delete, scratch_refl, Hd3. }
  eapply wp_mono; [apply (wp_sync_dir_ok _ _ _ Hr4 Hh4)|..]; cbn beta; [|done|done].
  intros _ ? w5 _ (-> & Hs5). eapply holding_same in Hh4; [|done]. destruct Hs5 as [Hw5 _].
  split_and!; [|done|..].
  - simpl. by rewrite delete_insert_eq.
  - by rewrite Hw5, Hw4, lookup_insert_eq.
  - rewrite Hw5, Hw4, lookup_insert_ne by apply log_not_temp.
    by rewrite lookup_delete_ne by apply temp_paths_ne.
Qed.

(** Opening a file of the history. *)
Lemma wp_open_ok {S} path mode (s : S) w hs f : reliable w → holding m (w_files w) hs →
  w_files w !! path = Some f →
  wp (LogFileOps.open path mode) s w
    (λ l s' w', l = mkLogFile true path (sz (f_data f)) mode ∧ s' = s ∧ same_files w w') (λ _ _ _, False)
    (λ w', safe m (w_files w')).
Proof.
  intros Hr Hh Hf. pose proof Hh as (Hd & _). pose proof (dk_sizes _ _ _ Hd _ _ Hf) as Hz.
  assert (Hof : LogFileOps.opened_file path (w_files w) = f) by (unfold LogFileOps.opened_file; by rewrite Hf).
  assert (Hop : LogFileOps.opened path (w_files w) = w_files w) by (by eapply LogFileOps.opened_existing).
  eapply wp_mono; [apply LogFileOps.wp_open; rewrite Hof; unfold UINT64_MAX, INT64_MAX in *; lia|..]; cbn beta.
  - intros l s' w' _ (-> & Hs & ->). rewrite Hof, Hop in *. done.
  - by intros e s' w' _ (_ & Hu & _).
  - intros w' _ Hs. rewrite Hop in Hs. eapply holding_safe, holding_same; [done|]. by destruct Hs.
Qed.

(** ** Adopting it *)

Definition adopted (b : Bitcask) (out : Z) (inputs : list Z) (staged : Index) (live : list write) : Bitcask :=
  set_dead (erase_dead inputs (dead_bytes_ b)) (set_index (apply_staged staged (index_ b))
    (set_log_files (<[out := mkLogFile true (log_file_name out) (sz (log_of live)) (opt_sync_mode (options_ b))]>
       (files_ b)) b)).

Lemma wp_adopt b w out inputs staged live hf rest ft fh : reliable w →
  holding m (w_files w) ((out, live) :: hf :: rest) → Forall (λ x, wr_tomb x = false) live →
  files_ b !! out = None →
  w_files w !! log_file_name out = Some ft → f_data ft = log_of live →
  w_files w !! temp_name (hint_file_name out) = Some fh → f_data fh = hint_bytes live → (durable → fully fh) →
  wp (adopt out inputs staged) b w
    (λ _ b' w', b' = adopted b out inputs staged live ∧ holding m (w_files w') ((out, live) :: hf :: rest))
    (λ _ _ _, False) (λ w', safe m (w_files w')).
Proof.
  intros Hr Hh Ht Hnone Hft Hdt Hfh Hdh Hfull. unfold adopt. wp_pure.
  wp_call (wp_open_ok _ _ _ _ _ _ Hr Hh Hft). intros l ? w1 Hc1 (-> & -> & Hs1).
  assert (Hr1 : reliable w1) by eauto using calm_reliable.
  eapply holding_same in Hh as Hh1; [|done]. destruct Hs1 as [Hw1 _]. rewrite <-Hw1 in Hfh.
  unfold emplace_file. wp_pure. rewrite Hnone.
  wp_call (wp_rename_ok _ (hint_file_name out) _ _ _ _ Hr1 Hh1 Hfh). intros rc ? w2 Hc2 (-> & -> & Hw2).
  assert (Hr2 : reliable w2) by eauto using calm_reliable. cbn [Z.eqb negb]. wp_pure.
  assert (Hh2 : holding m (w_files w2) ((out, live) :: hf :: rest)).
  { destruct Hh1 as (Hd1 & Hp1 & Hm1 & Hy1).
    assert (Hs : scratch (w_files w1) (delete (temp_name (hint_file_name out)) (w_files w1)))
      by apply scratch_delete, scratch_refl, Hd1.
    split_and!; [| |done|]; rewrite Hw2.
    - eapply disk_hint; [by eapply disk_scratch|done|done|]. by apply (dk_sizes _ _ _ Hd1 _ _ Hfh).
    - apply present_insert. by eapply present_scratch.
    - intros Hdur. apply clean_insert; [by apply (synced_scratch _ _ Hs), Hy1|by apply Hfull]. }
  eapply wp_mono; [apply (wp_sync_dir_ok _ _ _ Hr2 Hh2)|..]; cbn beta; [|done|done].
  intros _ ? w3 _ (-> & Hs3). split; [|by eapply holding_same].
  unfold adopted. by rewrite Hdt.
Qed.

(** ** Deleting the inputs *)

Lemma files_of_cons mode hf hs : files_of mode (hf :: hs) = <[hf.1 := (log_of_file mode hf).2]> (files_of mode hs).
Proof. done. Qed.

Lemma sorted_second (hf0 hf : Z * list write) (rest : history) : StronglySorted Z.lt (hf0 :: hf :: rest).*1 →
  hf0.1 ≠ hf.1 ∧ hf.1 ∉ rest.*1.
Proof.
  rewrite !fmap_cons. intros [Ha Hb]%StronglySorted_inv. apply StronglySorted_inv in Ha as [_ Ha].
  apply Forall_cons in Hb as [Hb _]. split; [lia|]. intros Hin. rewrite Forall_forall in Ha.
  apply Ha in Hin. lia.
Qed.

Lemma files_of_drop mode hf0 hf rest : StronglySorted Z.lt (hf0 :: hf :: rest).*1 →
  delete hf.1 (files_of mode (hf0 :: hf :: rest)) = files_of mode (hf0 :: rest).
Proof.
  intros [Hne Hnin]%sorted_second. rewrite !files_of_cons, delete_insert_ne by done. f_equal.
  rewrite delete_insert_id; [done|]. unfold files_of. apply not_elem_of_list_to_map.
  by rewrite <-list_fmap_compose.
Qed.

Lemma present_drop fs hf0 hf rest : StronglySorted Z.lt (hf0 :: hf :: rest).*1 →
  Forall (λ hf, valid_id hf.1) (hf0 :: hf :: rest) →
  present fs (hf0 :: hf :: rest) → present (delete (log_file_name hf.1) fs) (hf0 :: rest).
Proof.
  intros [Hne Hnin]%sorted_second Hv Hp id Hid. rewrite Forall_forall in Hv.
  assert (Hvid : valid_id id).
  { apply list_elem_of_fmap in Hid as (x & -> & Hx). apply Hv.
    apply elem_of_cons in Hx as [->|Hx]; [by left|by right; right]. }
  rewrite lookup_delete_ne.
  - apply Hp. rewrite fmap_cons, elem_of_cons in Hid. destruct Hid as [->|Hid]; [by left|by right; right].
  - intros E. apply log_file_name_inj in E; [|apply Hv; right; by left|done].
    rewrite fmap_cons, elem_of_cons in Hid. destruct Hid; [congruence|]. by subst id.
Qed.

(** One input gone. *)
Lemma holding_drop fs hf0 hf hf' rest : holding m fs (hf0 :: hf :: hf' :: rest) →
  map_of (hf0 :: hf' :: rest) = m → holding m (delete (log_file_name hf.1) fs) (hf0 :: hf' :: rest).
Proof.
  intros (Hd & Hp & _ & Hy) Hm.
  split_and!; [by apply disk_drop| |done|intros Hdur; eapply clean_subseteq; [apply delete_subseteq|auto]].
  apply present_drop; [by apply (dk_sorted _ _ _ Hd)| |done].
  eapply Forall_impl; [apply (dk_valid _ _ _ Hd)|]. by intros x [? _].
Qed.

Lemma wp_delete_inputs b w out live mid hf : reliable w →
  holding m (w_files w) ((out, live) :: mid ++ [hf]) →
  files_ b = files_of (opt_sync_mode (options_ b)) ((out, live) :: mid ++ [hf]) →
  (∀ mid', mid' `suffix_of` mid → map_of ((out, live) :: mid' ++ [hf]) = m) →
  wp (delete_inputs out mid.*1) b w
    (λ _ b' w', safe m (w_files w') ∧ (fail_at (options_ b) ≠ MidInputDelete →
       holding m (w_files w') [(out, live); hf] ∧
       b' = set_log_files (files_of (opt_sync_mode (options_ b)) [(out, live); hf]) b))
    (λ _ _ _, False) (λ w', safe m (w_files w')).
Proof.
  revert b w. induction mid as [|[id xs] mid IH]; intros b w Hr Hh Hf Hm.
  { eapply wp_mono; [apply (wp_sync_dir_ok _ _ _ Hr Hh)|..]; cbn beta; [|done|done].
    intros _ ? w1 _ (-> & Hs). eapply holding_same in Hh; [|done].
    split; [by eapply holding_safe|]. intros _. split; [done|]. rewrite app_nil_l in Hf.
    rewrite <-Hf. by destruct b. }
  cbn [fmap list_fmap delete_inputs]. pose proof Hh as (Hd & _).
  assert (Hne : (out, live).1 ≠ (id, xs).1) by (eapply sorted_second, (dk_sorted _ _ _ Hd)).
  cbn [fst] in *. rewrite (proj2 (Z.eqb_neq id out)) by congruence.
  assert (Hl : files_ b !! id = Some (mkLogFile true (log_file_name id) (sz (log_of xs)) (opt_sync_mode (options_ b)))).
  { rewrite Hf. apply files_of_lookup; [by apply (dk_sorted _ _ _ Hd)|]. exists xs. split; [|done].
    right. apply elem_of_app. left. by left. }
  wp_call (wp_close_ok _ _ _ _ _ Hr Hh Hl eq_refl). intros _ ? w1 Hc1 ([l' ->] & Hs1).
  assert (Hr1 : reliable w1) by eauto using calm_reliable. eapply holding_same in Hh as Hh1; [|done].
  unfold erase_file. wp_pure.
  wp_call (wp_remove_ok _ _ _ _ Hr1 Hh1). intros ec ? w2 Hc2 (-> & -> & Hw2).
  assert (Hr2 : reliable w2) by eauto using calm_reliable.
  assert (Hh2 : holding m (w_files w2) ((out, live) :: mid ++ [hf])).
  { rewrite Hw2. specialize (Hm mid (suffix_cons_r _ _ _ (reflexivity _))).
    destruct (mid ++ [hf]) as [|hf' rest] eqn:E; [by destruct mid|].
    apply (holding_drop _ _ (id, xs)); [|done]. cbn [app] in Hh1. by rewrite E in Hh1. }
  wp_call (wp_remove_ok _ _ _ _ Hr2 Hh2). intros ec ? w3 Hc3 (-> & -> & Hw3).
  assert (Hr3 : reliable w3) by eauto using calm_reliable. wp_pure.
  assert (Hh3 : holding m (w_files w3) ((out, live) :: mid ++ [hf])).
  { eapply holding_trimmed; [done|]. rewrite Hw3. apply trimmed_delete. intros i. apply hint_log_name_ne. }
  set (b3 := set_log_files (delete id _) _).
  assert (Hb3 : b3 = set_log_files (files_of (opt_sync_mode (options_ b)) ((out, live) :: mid ++ [hf])) b).
  { unfold b3. simpl. rewrite delete_insert_eq, Hf. cbn [app].
    rewrite (files_of_drop _ _ (id, xs)) by (by apply (dk_sorted _ _ _ Hd)). done. }
  assert (Hgo : fail_at (options_ b) ≠ MidInputDelete → wp (delete_inputs out mid.*1) b3 w3
    (λ _ b' w', safe m (w_files w') ∧ (fail_at (options_ b) ≠ MidInputDelete →
       holding m (w_files w') [(out, live); hf] ∧
       b' = set_log_files (files_of (opt_sync_mode (options_ b)) [(out, live); hf]) b))
    (λ _ _ _, False) (λ w', safe m (w_files w'))).
  { intros _. rewrite Hb3. eapply wp_mono; [apply IH; [done|done|done|]|..]; cbn beta; [|done..].
    intros mid' Hs. apply Hm. by apply suffix_cons_r. }
  change (options_ b3) with (options_ b).
  destruct (fail_at (options_ b)) eqn:E; try (by apply Hgo).
  eapply wp_mono; [apply (wp_sync_dir_ok _ _ _ Hr3 Hh3)|..]; cbn beta; [|done|done].
  intros _ ? w4 _ (-> & Hs4). eapply holding_same in Hh3; [|done].
  split; [by eapply holding_safe|done].
Qed.

End reliable.
(** ** The whole operation *)

Lemma sealed_inputs b w ins a : rep b w (ins ++ [(a, [])]) → sealed b = ins.*1.
Proof.
  intros [Hd _ Hf _ Ha]. rewrite last_ids in Ha. injection Ha as Ha. simpl in Ha.
  pose proof (dk_sorted _ _ _ Hd) as Hs. unfold sealed.
  assert (Hids : std_sort (map_to_list (files_ b)).*1 = (ins ++ [(a, [])]).*1).
  { apply std_sort_enum; [apply NoDup_fst_map_to_list| |done]. intros id.
    rewrite list_elem_of_fmap, list_elem_of_fmap. split.
    - intros ([i l] & -> & Hin%elem_of_map_to_list). rewrite Hf in Hin.
      apply files_of_lookup in Hin as (xs & Hin & _); [|done]. by exists (i, xs).
    - intros ([i xs] & -> & Hin). eexists (i, _). split; [done|]. apply elem_of_map_to_list.
      rewrite Hf. apply files_of_lookup; [done|]. by exists xs. }
  rewrite Hids, fmap_app, filter_app, <-Ha. cbn [fmap list_fmap fst].
  rewrite filter_cons_False, filter_nil, app_nil_r by lia.
  rewrite fmap_app in Hs. clear -Hs. induction (ins.*1) as [|i l IH]; [done|].
  apply StronglySorted_inv in Hs as [Hs Hlt]. rewrite filter_cons_True; [by rewrite IH|].
  rewrite Forall_forall in Hlt. apply Hlt, elem_of_app. right. by left.
Qed.

Lemma rep_inputs_open b w hs ins : rep b w hs → (∀ x, x ∈ ins → x ∈ hs) → inputs_open (w_files w) b ins.
Proof.
  intros Hr Hsub id xs Hin%Hsub. split.
  - exists (opt_sync_mode (options_ b)). destruct Hr as [Hd _ -> _ _].
    apply files_of_lookup; [apply Hd|]. eauto.
  - by eapply rep_log.
Qed.

Lemma rep_holding b w hs : rep b w hs → (durable → synced (w_files w)) → holding (map_of hs) (w_files w) hs.
Proof. by intros [? ? _ _ _]. Qed.

(** A database with the active file sealed: a compaction merges all of [ins]. *)
Lemma rep_sealed b w hs : rep b w hs → (durable → synced (w_files w)) → reliable w → active_id_ b ≠ UINT32_MAX →
  wp (file ← active_file; if 0 <? end_offset_ file then rotate else mret tt) b w
    (λ _ b' w', options_ b' = options_ b ∧ ∃ ins a, rep b' w' (ins ++ [(a, [])]) ∧
       map_of (ins ++ [(a, [])]) = map_of hs ∧ concat (ins ++ [(a, [])]).*2 = concat hs.*2 ∧ (durable → synced (w_files w')))
    (λ _ _ _, False) (λ w', safe (map_of hs) (w_files w')).
Proof.
  intros Hr Hy Hrel Hids. destruct (serves_ready _ _ _ (rep_serves _ _ _ Hr)) as (l & f & Hready).
  unfold active_file. wp_pure. rewrite (rd_active _ _ _ _ Hready). wp_pure.
  destruct (Z.ltb_spec 0 (end_offset_ l)) as [Hpos|Hpos].
  - eapply wp_mono; [by eapply wp_rotate|..]; cbn beta.
    + intros _ b' w' _ (Hmax & -> & Hw & _). split; [done|]. exists hs, (active_id_ b + 1).
      split_and!; [by eapply rep_rotated|by rewrite map_of_snoc|by rewrite fmap_app, concat_app, app_nil_r|].
      intros Hdur. rewrite Hw. by apply clean_opened, synced_sealed, Hy.
    + by intros e b' w' _ [[?|?] _].
    + intros w' _ Hrot. destruct (rotating_disk _ _ _ _ Hr Hrot) as (hs' & ? & ? & ?). split; [by exists hs', []|].
      intros Hdur. by eapply synced_rotating, Hrot; apply Hy.
  - apply wp_ret. split; [done|].
    destruct (rep_active _ _ _ _ _ Hr Hready) as (hs0 & xs & -> & He & _).
    assert (xs = []) as ->.
    { pose proof (sz_nonneg (log_of xs)).
      destruct Hr as [Hd _ _ _ _]. destruct (disk_log _ _ _ (active_id_ b) xs Hd) as (_ & Hv & _).
      { apply elem_of_app. right. by left. }
      destruct (log_of_no_more [] xs 0 Hv) as [-> _]; [done| |done].
      rewrite app_nil_l. change (log_of []) with (@nil byte). rewrite sz_nil. lia. }
    by exists hs0, (active_id_ b).
Qed.

(** A new temporary file. *)
Lemma wp_open_temp {S} m stem (s : S) w hs : reliable w → holding m (w_files w) hs →
  w_files w !! temp_name stem = None →
  wp (LogFileOps.open (temp_name stem) Never) s w
    (λ l s' w', s' = s ∧ l = mkLogFile true (temp_name stem) 0 Never ∧ holding m (w_files w') hs ∧
       ∃ f, w_files w' = <[temp_name stem := f]> (w_files w) ∧ f_data f = [])
    (λ _ _ _, False) (λ w', safe m (w_files w')).
Proof.
  intros Hr Hh Hn. pose proof Hh as (Hd & _).
  assert (Hf : f_data (LogFileOps.opened_file (temp_name stem) (w_files w)) = [])
    by (unfold LogFileOps.opened_file; by rewrite Hn).
  assert (Hop : ∃ f, LogFileOps.opened (temp_name stem) (w_files w) = <[temp_name stem := f]> (w_files w) ∧
    f_data f = []) by (unfold LogFileOps.opened; rewrite Hn; by eexists).
  assert (Hh' : ∀ w', w_files w' = LogFileOps.opened (temp_name stem) (w_files w) → holding m (w_files w') hs).
  { intros w' Hw. destruct Hop as (f & Hop & Hf'). rewrite Hw, Hop. eapply holding_scratch; [done|].
    apply scratch_insert; [apply scratch_refl, Hd|]. rewrite Hf'. done. }
  eapply wp_mono; [apply LogFileOps.wp_open; by rewrite Hf|..]; cbn beta.
  - intros l s' w' _ (-> & [Hw _] & ->). rewrite Hf. split_and!; [done|done|by apply Hh'|].
    destruct Hop as (f & Hop & Hf'). exists f. by rewrite Hw.
  - by intros e s' w' _ (_ & Hu & _).
  - intros w' _ [Hs|[Hs _]]; eapply holding_safe; [by eapply holding_same|by apply Hh'].
Qed.

(** Step 2: complete temporary files. *)
Lemma wp_write_output b w out ins hs : reliable w → rep b w hs → (durable → synced (w_files w)) → (∀ x, x ∈ ins → x ∈ hs) →
  Forall valid_write (concat ins.*2) → 2 * sz (log_of (concat ins.*2)) + hint.kFooterSize ≤ INT64_MAX →
  wp (write_output b out ins.*1) b w
    (λ r b' w', let ws := kept_writes (index_ b) (placement ins) in
       b' = b ∧ holding (map_of hs) (w_files w') hs ∧ mg_staged r.2 = index_of [(out, ws)] ∧
       ∃ ft fh, w_files w' !! temp_name (log_file_name out) = Some ft ∧ f_data ft = log_of ws ∧
         w_files w' !! temp_name (hint_file_name out) = Some fh ∧ f_data fh = hint_bytes ws ∧ fully ft ∧ fully fh)
    (λ _ _ _, False) (λ w', safe (map_of hs) (w_files w')).
Proof.
  intros Hr Hrep Hy Hsub Hv Hmax. pose proof (rep_holding _ _ _ Hrep Hy) as Hh. unfold write_output.
  wp_call (wp_remove_ok _ _ _ _ _ Hr Hh). intros ec ? w1 Hc1 (-> & -> & Hw1).
  assert (Hr1 : reliable w1) by eauto using calm_reliable.
  assert (Hh1 : holding (map_of hs) (w_files w1) hs).
  { eapply holding_scratch; [done|]. rewrite Hw1. apply scratch_delete, scratch_refl, Hh. }
  wp_call (wp_remove_ok _ _ _ _ _ Hr1 Hh1). intros ec ? w2 Hc2 (-> & -> & Hw2).
  assert (Hr2 : reliable w2) by eauto using calm_reliable.
  assert (Hh2 : holding (map_of hs) (w_files w2) hs).
  { eapply holding_scratch; [done|]. rewrite Hw2. apply scratch_delete, scratch_refl, Hh1. }
  pose proof (temp_paths_ne out) as Hne.
  assert (Hn2 : w_files w2 !! temp_name (log_file_name out) = None)
    by (rewrite Hw2, lookup_delete_ne, Hw1, lookup_delete_eq by done; done).
  wp_call (wp_open_temp _ _ _ _ _ Hr2 Hh2 Hn2). intros l3 ? w3 Hc3 (-> & -> & Hh3 & f3 & Hw3 & Hf3).
  assert (Hr3 : reliable w3) by eauto using calm_reliable.
  assert (Hn3 : w_files w3 !! temp_name (hint_file_name out) = None)
    by (rewrite Hw3, lookup_insert_ne, Hw2, lookup_delete_eq by done; done).
  wp_call (wp_open_temp _ _ _ _ _ Hr3 Hh3 Hn3). intros l4 ? w4 Hc4 (-> & -> & Hh4 & f4 & Hw4 & Hf4).
  assert (Hr4 : reliable w4) by eauto using calm_reliable.
  assert (Hs4 : scratch (w_files w) (w_files w4)).
  { rewrite Hw4, Hw3, Hw2, Hw1. repeat apply scratch_insert; [|by rewrite Hf3|by rewrite Hf4].
    repeat apply scratch_delete. apply scratch_refl, Hh. }
  apply wp_with_local. eapply wp_mono; [apply (wp_write_merged (w_files w) out b ins)|..]; cbn beta.
  - split_and!; [|done|done]. exists f3, f4.
    rewrite Hw4, lookup_insert_eq, lookup_insert_ne, Hw3, lookup_insert_eq by done. done.
  - by eapply rep_inputs_open.
  - done.
  - done.
  - intros [] g w5 _ [(ft & fh & Hft & Hfh & Hdt & Hdh & Hs5 & Hyt & Hyh) Hst].
    split_and!; [done|exact (holding_scratch _ _ _ _ Hh Hs5)|done|].
    exists ft, fh. split_and!; [done..|by apply Hyt|by apply Hyh].
  - by intros _ _ w5 _ Hu.
  - intros w5 _ Hs5. exact (holding_safe _ _ _ (holding_scratch _ _ _ _ Hh Hs5)).
Qed.

(** What the merge of all sealed files copies. *)
Lemma kept_sealed b w ins a : rep b w (ins ++ [(a, [])]) →
  kept_writes (index_ b) (placement ins) = live_writes (concat ins.*2).
Proof.
  intros [Hd _ _ -> _]. rewrite index_of_snoc. unfold index_file. cbn [entries_from foldl snd].
  destruct Hd as [Hs Hv _ _ _ _ _ _]. apply Forall_app in Hv as [Hv _].
  rewrite fmap_app in Hs. apply StronglySorted_app_1_l in Hs as Hs'.
  by apply kept_writes_history.
Qed.

Lemma map_of_base out xs0 mid a mid' : mid' `suffix_of` mid →
  map_of ((out, live_writes (concat ((out, xs0) :: mid).*2)) :: mid' ++ [(a, [])]) =
  map_of (((out, xs0) :: mid) ++ [(a, [])]).
Proof.
  intros [pre ->].
  pose proof (map_of_merged out ((out, xs0) :: pre) (mid' ++ [(a, [])])) as E.
  assert (Ec : concat (((out, xs0) :: pre) ++ mid' ++ [(a, [])]).*2 = concat ((out, xs0) :: pre ++ mid').*2).
  { rewrite !app_comm_cons, !fmap_app, !concat_app. simpl. by rewrite app_nil_r. }
  rewrite Ec in E. rewrite E. f_equal. by rewrite app_comm_cons, <-app_assoc.
Qed.

Lemma files_adopted b w out xs0 rest live inputs staged : rep b w ((out, xs0) :: rest) →
  files_ (adopted (set_log_files (delete out (files_ b)) b) out inputs staged live) =
  files_of (opt_sync_mode (options_ b)) ((out, live) :: rest).
Proof.
  intros [Hd _ Hf _ _]. unfold adopted. simpl. rewrite Hf, !files_of_cons. cbn [fst].
  rewrite insert_delete_eq, insert_insert_eq. done.
Qed.

Lemma rep_compacted b w w' out xs0 mid a live inputs :
  rep b w (((out, xs0) :: mid) ++ [(a, [])]) →
  holding (map_of (((out, xs0) :: mid) ++ [(a, [])])) (w_files w') [(out, live); (a, [])] →
  rep (set_log_files (files_of (opt_sync_mode (options_ b)) [(out, live); (a, [])])
        (adopted (set_log_files (delete out (files_ b)) b) out inputs (index_of [(out, live)]) live))
    w' [(out, live); (a, [])].
Proof.
  intros [_ _ _ Hi Ha] (Hd & Hp & Hm & _). rewrite last_ids in Ha. injection Ha as Ha. simpl in Ha.
  split; simpl; [done|done|done| |by rewrite Ha].
  rewrite apply_staged_union, Hi.
  assert (E : index_of [(out, live)] = index_of [(out, live); (a, [])])
    by (change [(out, live); (a, [])] with ([(out, live)] ++ [(a, [] : list write)]); by rewrite index_of_snoc).
  rewrite E. by apply staged_all.
Qed.

(** Steps 3 to 5. *)
Lemma wp_replace b w w1 out xs0 mid a live ft fh :
  rep b w (((out, xs0) :: mid) ++ [(a, [])]) → reliable w1 →
  let m := map_of (((out, xs0) :: mid) ++ [(a, [])]) in
  holding m (w_files w1) (((out, xs0) :: mid) ++ [(a, [])]) →
  (∀ mid', mid' `suffix_of` mid → map_of ((out, live) :: mid' ++ [(a, [])]) = m) →
  Forall valid_write live → Forall (λ x, wr_tomb x = false) live →
  w_files w1 !! temp_name (log_file_name out) = Some ft → f_data ft = log_of live →
  w_files w1 !! temp_name (hint_file_name out) = Some fh → f_data fh = hint_bytes live →
  fully ft → fully fh →
  wp (install out;;
      match fail_at (options_ b) with
      | AfterInstallingOutput => mret tt
      | _ => adopt out (out :: mid.*1) (index_of [(out, live)]);; delete_inputs out (out :: mid.*1)
      end) b w1
    (λ _ b' w', safe m (w_files w') ∧ (fail_at (options_ b) = FailNone →
       options_ b' = options_ b ∧ ∃ hs', rep b' w' hs' ∧ map_of hs' = m))
    (λ _ _ _, False) (λ w', safe m (w_files w')).
Proof.
  intros Hrep Hr1 m Hh1 Hmap Hv Ht Hft Hdt Hfh Hdh Hyt Hyh.
  assert (Hrest : ∃ hf rest, mid ++ [(a, [])] = hf :: rest) by (destruct mid; by eexists _, _).
  destruct Hrest as (hf & rest & Hrest). pose proof (Hmap mid (reflexivity _)) as Hm. rewrite Hrest in Hm.
  rewrite <-app_comm_cons, Hrest in Hh1.
  assert (Hl : files_ b !! out = Some (mkLogFile true (log_file_name out) (sz (log_of xs0)) (opt_sync_mode (options_ b)))).
  { destruct Hrep as [Hd _ -> _ _]. apply files_of_lookup; [apply Hd|]. exists xs0. split; [by left|done]. }
  wp_call (wp_install m b w1 out xs0 live hf rest _ ft fh Hr1 Hh1 Hm Hl eq_refl Hft Hdt Hv (λ _, Hyt) Hfh).
  intros _ ? w2 Hc2 (-> & Hh2 & Hft2 & Hfh2). assert (Hr2 : reliable w2) by eauto using calm_reliable.
  assert (Hnone : files_ (set_log_files (delete out (files_ b)) b) !! out = None) by (simpl; by rewrite lookup_delete_eq).
  assert (Hgo : fail_at (options_ b) ≠ AfterInstallingOutput →
    wp (adopt out (out :: mid.*1) (index_of [(out, live)]);; delete_inputs out (out :: mid.*1))
      (set_log_files (delete out (files_ b)) b) w2
    (λ _ b' w', safe m (w_files w') ∧ (fail_at (options_ b) = FailNone →
       options_ b' = options_ b ∧ ∃ hs', rep b' w' hs' ∧ map_of hs' = m))
    (λ _ _ _, False) (λ w', safe m (w_files w'))).
  { intros _. eapply wp_bind; [by eapply wp_adopt| |done|done]; cbn beta.
    intros _ ? w3 Hc3 (-> & Hh3). assert (Hr3 : reliable w3) by eauto using calm_reliable.
    cbn [delete_inputs]. rewrite Z.eqb_refl. rewrite <-Hrest in Hh3.
    eapply wp_mono; [apply (wp_delete_inputs m _ _ out live mid (a, [])); [done|done|exact (files_adopted b w out xs0 _ live _ _ Hrep)|done]|..];
      cbn beta; [|done|done].
    intros _ b4 w4 _ [Hrec Hdone]. split; [done|]. intros Hf.
    assert (Hmid : fail_at (options_ b) ≠ MidInputDelete) by (by rewrite Hf).
    destruct (Hdone Hmid) as [Hh4 ->]. split; [done|].
    exists [(out, live); (a, [])]. split; [exact (rep_compacted b w w4 out xs0 mid a live _ Hrep Hh4)|]. by apply Hh4. }
  destruct (fail_at (options_ b)) eqn:E; try (by apply Hgo).
  apply wp_ret. split; [by eapply holding_safe|done].
Qed.

(** [compact] after the active file was sealed. *)
Lemma wp_merge_sealed b w ins a out inputs : rep b w (ins ++ [(a, [])]) → (durable → synced (w_files w)) → reliable w →
  ins.*1 = out :: inputs →
  2 * sz (log_of (concat ins.*2)) + hint.kFooterSize ≤ INT64_MAX →
  wp (r ← write_output b out (out :: inputs);
      match fail_at (options_ b) with
      | AfterWritingTemp => mret tt
      | _ => install out;;
             match fail_at (options_ b) with
             | AfterInstallingOutput => mret tt
             | _ => adopt out (out :: inputs) (mg_staged r.2);; delete_inputs out (out :: inputs)
             end
      end) b w
    (λ _ b' w', safe (map_of (ins ++ [(a, [])])) (w_files w') ∧
       (fail_at (options_ b) = FailNone → options_ b' = options_ b ∧
          ∃ hs', rep b' w' hs' ∧ map_of hs' = map_of (ins ++ [(a, [])])))
    (λ _ _ _, False) (λ w', safe (map_of (ins ++ [(a, [])])) (w_files w')).
Proof.
  intros Hrep Hy Hr Hids Hmax. rewrite <-Hids.
  assert (Hv : Forall valid_write (concat ins.*2)).
  { destruct Hrep as [Hd _ _ _ _]. pose proof (dk_valid _ _ _ Hd) as Hv. apply Forall_app in Hv as [Hv _].
    apply Forall_concat, Forall_fmap. eapply Forall_impl; [exact Hv|]. by intros x [_ ?]. }
  eapply wp_bind; [apply (wp_write_output b w out ins (ins ++ [(a, [])])); try done;
    intros x Hx; apply elem_of_app; by left| |done|done]; cbn beta zeta.
  intros r ? w1 Hc1 (-> & Hh1 & Hst & ft & fh & Hft & Hdt & Hfh & Hdh & Hyt & Hyh).
  assert (Hr1 : reliable w1) by eauto using calm_reliable.
  rewrite (kept_sealed _ _ _ _ Hrep) in *. set (live := live_writes _) in *.
  destruct ins as [|[out' xs0] mid]; [done|]. injection Hids as -> Hids.
  set (m := map_of (((out, xs0) :: mid) ++ [(a, [])])) in *.
  assert (Hmap : ∀ mid', mid' `suffix_of` mid → map_of ((out, live) :: mid' ++ [(a, [])]) = m)
    by (intros mid'; apply map_of_base).
  assert (Hlive : Forall valid_write live ∧ Forall (λ x, wr_tomb x = false) live)
    by (split; [by apply live_writes_sub|apply live_writes_tomb]).
  assert (Hgo := wp_replace b w w1 out xs0 mid a live ft fh Hrep Hr1 Hh1 Hmap (proj1 Hlive) (proj2 Hlive)
    Hft Hdt Hfh Hdh Hyt Hyh). rewrite Hst. fold m in Hgo.
  change (((out, xs0) :: mid).*1) with (out :: mid.*1).
  destruct (fail_at (options_ b)) eqn:E; try exact Hgo.
  apply wp_ret. split; [by eapply holding_safe|done].
Qed.

Lemma wp_compact b w hs : rep b w hs → (durable → synced (w_files w)) → reliable w → active_id_ b ≠ UINT32_MAX →
  2 * sz (log_of (concat hs.*2)) + hint.kFooterSize ≤ INT64_MAX →
  wp compact b w
    (λ _ b' w', safe (map_of hs) (w_files w') ∧
       (fail_at (options_ b) = FailNone → options_ b' = options_ b ∧
          ∃ hs', rep b' w' hs' ∧ map_of hs' = map_of hs))
    (λ _ _ _, False) (λ w', safe (map_of hs) (w_files w')).
Proof.
  intros Hrep Hy Hr Hids Hmax. unfold compact. apply wp_bind_assoc_rev.
  eapply wp_bind; [by apply (rep_sealed _ _ _ Hrep Hy)| |done|done]; cbn beta.
  intros _ b1 w1 Hc1 (Hopt & ins & a & Hrep1 & Hm1 & Hcat & Hy1).
  assert (Hr1 : reliable w1) by eauto using calm_reliable. wp_pure. cbv zeta.
  rewrite (sealed_inputs _ _ _ _ Hrep1).
  assert (Hsame : safe (map_of hs) (w_files w1) ∧ (fail_at (options_ b) = FailNone →
    options_ b1 = options_ b ∧ ∃ hs', rep b1 w1 hs' ∧ map_of hs' = map_of hs)).
  { rewrite <-Hm1. split; [by eapply holding_safe, rep_holding|]. intros _. split; [done|]. by eexists. }
  destruct (ins.*1) as [|out inputs] eqn:Eins; [by apply wp_ret|].
  destruct (_ && _); [by apply wp_ret|].
  rewrite <-Hm1, <-Hopt.
  assert (Hcat' : concat ins.*2 = concat hs.*2).
  { rewrite <-Hcat, fmap_app, concat_app. simpl. by rewrite app_nil_r. }
  rewrite <-Hcat' in Hmax.
  pose proof (wp_merge_sealed b1 w1 ins a out inputs Hrep1 Hy1 Hr1 Eins Hmax) as Hgo.
  exact Hgo.
Qed.

End Compaction.

Section Compacted.
Context `{Platform}.

Lemma rep_recoverable b w w' hs : rep b w hs → same_files w w' → recoverable (w_files w') (map_of hs).
Proof. intros [Hd Hp _ _ _] [-> _]. by exists hs, []. Qed.

(** C8: [Bitcask::compact], at every test fail point and every crash point, leaves a
    directory that holds the same database; run to its end, it leaves an engine that
    serves that same database.  It never fails when the system calls succeed. *)
Theorem bitcask_compact b w hs : rep b w hs → reliable w → active_id_ b ≠ UINT32_MAX →
  2 * sz (log_of (concat hs.*2)) + hint.kFooterSize ≤ INT64_MAX →
  wp compact b w
    (λ _ b' w', recoverable (w_files w') (map_of hs) ∧
       (fail_at (options_ b) = FailNone → serves b' w' (map_of hs)))
    (λ _ _ _, False) (λ w', recoverable (w_files w') (map_of hs)).
Proof.
  intros Hrep Hr Hids Hmax. eapply wp_mono; [by apply (wp_compact False)| |done|by intros w' _ []]; cbn beta.
  intros _ b' w' _ [[Hrec _] Hdone]. split; [done|]. intros Hf. destruct (Hdone Hf) as (_ & hs' & Hrep' & <-).
  by apply rep_serves.
Qed.

End Compacted.
