(* ===== verification/BitcaskSession.v ===== *)
(** Bitcask as a crash-safe map.

    A session is a sequence of requests to the engine, crashes, and restarts, in any
    order, at any system call.  Its specification is a machine whose state is one
    finite map.  Every session of the engine is a session of the map: the engine
    refines it. *)

From S2P Require Import Prelude Status FileNames World Wp Encoding Record Hint LogFile Power LogScan.
From S2P Require Import Bitcask BitcaskCompact BitcaskState BitcaskSteps BitcaskServe.
From S2P Require Import BitcaskDisk BitcaskRecover BitcaskCompactDisk.
From S2P Require Import BitcaskCompaction.
Import record BitcaskOps CompactOps.

#[local] Opaque encode decode decode_header hint.encode_entry hint.encode_footer.

(** ** Requests and what an observer sees of a session *)

Inductive request : Type :=
| RPut (key value : bytes)
| RGet (key : bytes)
| RRemove (key : bytes)
| RSync
| RCompact.

Inductive label : Type :=
| Returned (r : request) (v : option bytes)   (* a call returned Ok, with this value *)
| Refused (r : request) (c : StatusCode)      (* a call returned an error *)
| DiedIn (r : request)                        (* the process died during the call *)
| Started                                     (* open returned an engine *)
| DiedStarting                                (* the process died during open *)
| StartFailed (c : StatusCode)                (* open returned an error *)
| Stopped                                     (* the process died between calls *)
| Undefined.                                  (* undefined behaviour *)

(** ** The specification *)

Abbreviation store := (gmap bytes bytes).

(** What a request that is carried out does to the map. *)
Definition spec_effect (r : request) (m : store) : store :=
  match r with
  | RPut k v => <[k := v]> m
  | RRemove k => delete k m
  | RGet _ | RSync | RCompact => m
  end.

Inductive spec_step : bool * store → label → bool * store → Prop :=
| sp_put k v m : fits k v false → spec_step (true, m) (Returned (RPut k v) None) (true, <[k := v]> m)
| sp_put_bad k v m : ¬ fits k v false →
    spec_step (true, m) (Refused (RPut k v) InvalidArgument) (true, m)
| sp_remove k m : fits k [] true → spec_step (true, m) (Returned (RRemove k) None) (true, delete k m)
| sp_remove_bad k m : ¬ fits k [] true →
    spec_step (true, m) (Refused (RRemove k) InvalidArgument) (true, m)
| sp_get k v m : m !! k = Some v → spec_step (true, m) (Returned (RGet k) (Some v)) (true, m)
| sp_get_none k m : m !! k = None → spec_step (true, m) (Refused (RGet k) NotFound) (true, m)
| sp_sync m : spec_step (true, m) (Returned RSync None) (true, m)
| sp_compact m : spec_step (true, m) (Returned RCompact None) (true, m)
| sp_died_before r m : spec_step (true, m) (DiedIn r) (false, m)
| sp_died_after r m : spec_step (true, m) (DiedIn r) (false, spec_effect r m)
| sp_stopped m : spec_step (true, m) Stopped (false, m)
| sp_started m : spec_step (false, m) Started (true, m)
| sp_died_starting m : spec_step (false, m) DiedStarting (false, m).

Section Session.
Context `{Platform}.

(** ** The engine *)

Definition execute (r : request) : M Bitcask (option bytes) :=
  match r with
  | RPut k v => put k v;; mret None
  | RGet k => v ← get k; mret (Some v)
  | RRemove k => remove k;; mret None
  | RSync => sync;; mret None
  | RCompact => compact;; mret None
  end.

(** The bytes in the data files. *)
Definition data_bytes (b : Bitcask) : Z := map_fold (λ _ l n, end_offset_ l + n) 0 (files_ b).

(** The machine's limits: [std::string] sizes are 64-bit, a file id is 32-bit, and a
    merged file and its hint must fit an [off_t]. *)
Definition admissible (b : Bitcask) (r : request) : Prop :=
  active_id_ b ≠ UINT32_MAX ∧
  match r with
  | RPut k v => sz k + sz v ≤ UINT64_MAX
  | RRemove k => sz k ≤ UINT64_MAX
  | RCompact => 2 * data_bytes b + hint.kFooterSize ≤ INT64_MAX
  | RGet _ | RSync => True
  end.

Definition sane (opts : BitcaskOptions) : Prop :=
  0 ≤ max_file_size opts ≤ INT64_MAX ∧ fail_at opts = FailNone.

Inductive machine : Type :=
| Up (b : Bitcask) (fs : gmap bytes file)
| Down (fs : gmap bytes file)
| Broken.

Definition after_call (r : request) (o : out Bitcask (option bytes)) : label * machine :=
  match o with
  | Ok v b' w' => (Returned r v, Up b' (w_files w'))
  | Err e b' w' => (Refused r (code_ e), Up b' (w_files w'))
  | Died w' => (DiedIn r, Down (w_files w'))
  | MStuck => (Undefined, Broken)
  end.

Definition after_open (o : out unit Bitcask) : label * machine :=
  match o with
  | Ok b' _ w' => (Started, Up b' (w_files w'))
  | Err e _ w' => (StartFailed (code_ e), Down (w_files w'))
  | Died w' => (DiedStarting, Down (w_files w'))
  | MStuck => (Undefined, Broken)
  end.

(** One step; the clock and the crash point are chosen afresh each time. *)
Inductive step : machine → label → machine → Prop :=
| step_call b w r : reliable w → admissible b r →
    step (Up b (w_files w)) (after_call r (execute r b w)).1 (after_call r (execute r b w)).2
| step_open w dir opts : reliable w → sane opts →
    step (Down (w_files w)) (after_open (open dir opts tt w)).1 (after_open (open dir opts tt w)).2
| step_stop b fs : step (Up b fs) Stopped (Down fs).

Lemma call_step b w r fs l s : reliable w → admissible b r → fs = w_files w →
  after_call r (execute r b w) = (l, s) → step (Up b fs) l s.
Proof. intros Hr Ha -> E. pose proof (step_call b w r Hr Ha) as Hs. by rewrite E in Hs. Qed.

Lemma open_step w dir opts fs l s : reliable w → sane opts → fs = w_files w →
  after_open (open dir opts tt w) = (l, s) → step (Down fs) l s.
Proof. intros Hr Ha -> E. pose proof (step_open w dir opts Hr Ha) as Hs. by rewrite E in Hs. Qed.

Inductive run {S : Type} (st : S → label → S → Prop) : S → list label → S → Prop :=
| run_nil s : run st s [] s
| run_cons s l s1 ls s2 : st s l s1 → run st s1 ls s2 → run st s (l :: ls) s2.

(** ** The simulation *)

Definition related (s : machine) (a : bool * store) : Prop :=
  match s with
  | Up b fs => a.1 = true ∧ sane (options_ b) ∧ ∃ w hs, w_files w = fs ∧ rep b w hs ∧ map_of hs = a.2
  | Down fs => a.1 = false ∧ recoverable fs a.2
  | Broken => False
  end.

Lemma rep_files b w w' hs : rep b w hs → w_files w' = w_files w → rep b w' hs.
Proof. intros [H1 H2 H3 H4 H5] Hw. split; rewrite ?Hw; done. Qed.

Lemma related_up b w w' hs opts : rep b w' hs → options_ b = opts → sane opts → w_files w' = w_files w →
  related (Up b (w_files w)) (true, map_of hs).
Proof. intros Hr Ho Hs Hw. split_and!; [done|by rewrite Ho|]. by exists w', hs. Qed.

Lemma data_bytes_rep b w hs : rep b w hs → data_bytes b = sz (log_of (concat hs.*2)).
Proof.
  intros [Hd _ Hf _ _]. unfold data_bytes. rewrite Hf. pose proof (dk_sorted _ _ _ Hd) as Hs. clear -Hs.
  induction hs as [|[id xs] hs IH]; [done|]. rewrite files_of_cons, fmap_cons in *.
  apply StronglySorted_inv in Hs as [Hs Hlt]. rewrite map_fold_insert_L.
  - rewrite IH by done. cbn [fmap list_fmap concat snd]. rewrite log_of_app, sz_app. done.
  - intros. lia.
  - unfold files_of. apply not_elem_of_list_to_map. rewrite <-list_fmap_compose. intros Hin.
    rewrite Forall_forall in Hlt. apply Hlt in Hin. simpl in Hin. lia.
Qed.

Lemma wp_sync_rep b w hs : rep b w hs →
  wp sync b w (λ _ b' w', b' = b ∧ rep b w' hs ∧ settles w w') (λ _ _ _, ¬ reliable w)
    (same_files w).
Proof.
  intros Hr. destruct (serves_ready _ _ _ (rep_serves _ _ _ Hr)) as (l & f & [Ha Ho Hp _ _ _ _ _ _]).
  unfold sync, on_active. wp_pure. eapply wp_on_file; [done|].
  eapply wp_mono; [by apply LogFileOps.wp_sync|..]; cbn beta.
  - intros _ ? w' _ (-> & [Hw _]). rewrite set_log_files_same by done. split; [done|].
    rewrite Hp in Hw. fold (sealed_files b (w_files w)) in Hw. destruct Hr as [H1 H2 H3 H4 H5].
    split; [split; rewrite ?Hw; [by apply disk_sealed|by apply present_sealed|done..]|].
    intros Hs. rewrite Hw. by apply synced_sealed.
  - by intros e l' w' _ (_ & ? & _).
  - done.
Qed.

Section calls.
Context (b : Bitcask) (w : World) (hs : history).
Hypothesis Hrep : rep b w hs.
Hypothesis Hrel : reliable w.
Hypothesis Hsane : sane (options_ b).

(** The call [r] takes a step of the specification, whatever happens during it. *)
Definition simulates (r : request) : Prop :=
  wp (execute r) b w
    (λ v b' w', ∃ a, spec_step (true, map_of hs) (Returned r v) a ∧ related (Up b' (w_files w')) a)
    (λ e b' w', ∃ a, spec_step (true, map_of hs) (Refused r (code_ e)) a ∧ related (Up b' (w_files w')) a)
    (λ w', ∃ a, spec_step (true, map_of hs) (DiedIn r) a ∧ related (Down (w_files w')) a).

Lemma related_crash_left r w' : crash_left w' (map_of hs) (spec_effect r (map_of hs)) →
  ∃ a, spec_step (true, map_of hs) (DiedIn r) a ∧ related (Down (w_files w')) a.
Proof.
  intros (hs' & tl & Hd & Hp & [Hm|Hm]).
  - exists (false, map_of hs). split; [constructor|]. split; [done|]. by exists hs', tl.
  - exists (false, spec_effect r (map_of hs)). split; [constructor|]. split; [done|]. by exists hs', tl.
Qed.

Lemma related_crash_same r w' : recoverable (w_files w') (map_of hs) →
  ∃ a, spec_step (true, map_of hs) (DiedIn r) a ∧ related (Down (w_files w')) a.
Proof. intros Hr. exists (false, map_of hs). split; [constructor|by split]. Qed.

Lemma related_rep b' w' hs' : rep b' w' hs' → options_ b' = options_ b →
  related (Up b' (w_files w')) (true, map_of hs').
Proof. intros Hr Ho. split_and!; [done|by rewrite Ho|]. by exists w', hs'. Qed.

Lemma related_unchanged w' : w_files w' = w_files w → related (Up b (w_files w')) (true, map_of hs).
Proof. intros Hw. split_and!; [done|done|]. by exists w, hs. Qed.

Lemma simulates_put k v : admissible b (RPut k v) → simulates (RPut k v).
Proof.
  intros [Hids Hk]. unfold simulates, execute. destruct Hsane as [Hmfs _].
  eapply wp_bind; [by apply (wp_put_rep b w hs)|..]; cbn beta.
  - intros _ b' w' _ (Ho & Hf & hs' & Hr' & Hm). apply wp_ret.
    exists (true, <[k := v]> (map_of hs)). split; [by constructor|]. rewrite <-Hm. by apply related_rep.
  - intros e b' w' _ Hu. destruct (Hu Hrel) as (-> & Hw & -> & Hf).
    exists (true, map_of hs). split; [by constructor|by apply related_unchanged].
  - intros w' _ Hc. by apply related_crash_left.
Qed.

Lemma simulates_remove k : admissible b (RRemove k) → simulates (RRemove k).
Proof.
  intros [Hids Hk]. unfold simulates, execute. destruct Hsane as [Hmfs _].
  eapply wp_bind; [by apply (wp_remove_rep b w hs)|..]; cbn beta.
  - intros _ b' w' _ (Ho & Hf & hs' & Hr' & Hm). apply wp_ret.
    exists (true, delete k (map_of hs)). split; [by constructor|]. rewrite <-Hm. by apply related_rep.
  - intros e b' w' _ Hu. destruct (Hu Hrel) as (-> & Hw & -> & Hf).
    exists (true, map_of hs). split; [by constructor|by apply related_unchanged].
  - intros w' _ Hc. by apply related_crash_left.
Qed.

Lemma simulates_get k : simulates (RGet k).
Proof.
  unfold simulates, execute. eapply wp_bind; [by apply (wp_bitcask_get b w), rep_serves|..]; cbn beta.
  - intros v ? w' _ (Hm & -> & [Hw _]). apply wp_ret. exists (true, map_of hs).
    split; [by constructor|by apply related_unchanged].
  - intros e ? w' _ (-> & [Hw _] & [[Hm ->]|?]); [|done]. exists (true, map_of hs).
    split; [by constructor|by apply related_unchanged].
  - intros w' _ Hs. apply related_crash_same.
    by eapply rep_recoverable.
Qed.

Lemma simulates_sync : simulates RSync.
Proof.
  unfold simulates, execute. eapply wp_bind; [by apply (wp_sync_rep b w)|..]; cbn beta.
  - intros _ ? w' _ (-> & Hr' & _). apply wp_ret. exists (true, map_of hs).
    split; [by constructor|by apply related_rep].
  - done.
  - intros w' _ Hs. apply related_crash_same. by eapply rep_recoverable.
Qed.

Lemma simulates_compact : admissible b RCompact → simulates RCompact.
Proof.
  intros [Hids Hmax]. rewrite (data_bytes_rep _ _ _ Hrep) in Hmax. destruct Hsane as [_ Hfail].
  unfold simulates, execute. eapply wp_bind; [by apply (wp_compact False b w hs)|..]; cbn beta.
  - intros _ b' w' _ [_ Hdone]. destruct (Hdone Hfail) as (Ho & hs' & Hr' & Hm). apply wp_ret.
    exists (true, map_of hs). split; [by constructor|]. rewrite <-Hm. by apply related_rep.
  - done.
  - intros w' _ [Hs _]. by apply related_crash_same.
Qed.

Lemma simulates_all r : admissible b r → simulates r.
Proof.
  destruct r; [apply simulates_put|intros; apply simulates_get|apply simulates_remove|
    intros; apply simulates_sync|apply simulates_compact].
Qed.

End calls.

Lemma simulation s a l s' : related s a → step s l s' → ∃ a', spec_step a l a' ∧ related s' a'.
Proof.
  intros Hrel Hstep. destruct Hstep as [b w r Hr Had|w dir opts Hr Hopts|b fs]; destruct a as [up m].
  - destruct Hrel as (Hup & Hs & w0 & hs & Hw & Hrep & Hm). simpl in Hup, Hm. subst up m.
    apply (rep_files _ _ w) in Hrep; [|done].
    pose proof (simulates_all b w hs Hrep Hr Hs r Had) as Hsim. unfold simulates, wp in Hsim.
    destruct (execute r b w); simpl; by destruct Hsim as [_ ?] || destruct Hsim.
  - destruct Hrel as [Hup Hrec]. simpl in Hup, Hrec. subst up.
    pose proof (wp_open_internal dir opts w m Hrec) as Hopen. unfold wp in Hopen.
    destruct (open dir opts tt w) as [b' [] w'|e [] w'|w'|]; simpl; [..|done].
    + destruct Hopen as (_ & Ho & _ & hs & Hrep & Hm). exists (true, m). split; [constructor|].
      rewrite <-(Hm Hr). split_and!; [done|by rewrite Ho|]. by exists w', hs.
    + by destruct Hopen.
    + destruct Hopen as (_ & m' & Hrec' & Hm & _). rewrite (Hm Hr) in Hrec'. exists (false, m).
      split; [constructor|by split].
  - destruct Hrel as (Hup & _ & w & hs & <- & Hrep & Hm). simpl in *. subst up m.
    exists (false, map_of hs). split; [constructor|]. split; [done|].
    by eapply rep_recoverable.
Qed.

(** C1: Every session with the engine, over any sequence of requests, crashes at any
    system call, and restarts, is a session with the map: answers are those of the
    map, a request that returned has taken effect for good, one cut short by a crash
    has taken effect entirely or not at all, opening always succeeds, and nothing
    ends in undefined behaviour.  The session starts from a directory without data. *)
Theorem bitcask_refines_map fs ls s' : recoverable fs ∅ → run step (Down fs) ls s' →
  ∃ a', run spec_step (false, ∅) ls a' ∧ related s' a'.
Proof.
  intros Hrec Hrun. assert (Hrel : related (Down fs) (false, ∅)) by (by split).
  remember (false, ∅) as a eqn:Ea. clear Ea Hrec. revert a Hrel.
  induction Hrun as [s|s l s1 ls s2 Hstep Hrun IH]; intros a Hrel.
  - exists a. split; [constructor|done].
  - destruct (simulation _ _ _ _ Hrel Hstep) as (a1 & Hsp & Hrel1).
    destruct (IH a1 Hrel1) as (a2 & Hsp2 & Hrel2). exists a2. split; [by econstructor|done].
Qed.

End Session.
