(* ===== verification/BitcaskPower.v ===== *)
(** Bitcask and loss of power.

    Opened with [SyncMode::Always], the engine is still the map of BitcaskSession when the
    power fails: what a call has acknowledged is there after the power came back, and a call
    that was cut short has taken effect entirely or not at all. *)

From S2P Require Import Prelude Status FileNames World Wp Encoding Record Hint LogFile Power LogScan.
From S2P Require Import Bitcask BitcaskCompact BitcaskState BitcaskSteps BitcaskServe.
From S2P Require Import BitcaskDisk BitcaskRecover BitcaskCompactDisk.
From S2P Require Import BitcaskCompaction BitcaskSession.
Import record BitcaskOps CompactOps.

#[local] Opaque encode decode decode_header hint.encode_entry hint.encode_footer.

Section Power.
Context `{Platform}.

(** [fs'] has the contents of [fs], its temporary files apart, and files that fit. *)
Definition twin (fs fs' : gmap bytes file) : Prop :=
  like fs fs' ∧ (∀ name f, fs' !! name = Some f → sz (f_data f) ≤ INT64_MAX).

Lemma present_twin fs fs' hs : twin fs fs' → present fs hs → present fs' hs.
Proof.
  intros [He _] Hp id Hid. destruct (Hp id Hid) as [f Hf]. specialize (He (log_file_name id) (permanent_log id)).
  rewrite Hf in He. destruct (fs' !! log_file_name id); [by eauto|done].
Qed.

Lemma disk_twin fs fs' hs tl : twin fs fs' → disk fs hs tl → disk fs' hs tl.
Proof.
  intros Hlike [H1 H2 H3 H4 H5 H6 H7 H8]. split; try done.
  - eapply logs_at_ext; [|done]. intros id _. apply log_data_ext, Hlike, permanent_log.
  - intros name id [f' Hf'] Hp. destruct (like_some fs fs' name f') as (f & Hf & _); [apply Hlike| |done|by eapply H5; eauto].
    intros stem ->. by rewrite parse_log_temp in Hp.
  - intros id xs f' Hin Hf'. destruct (like_some _ _ _ _ (proj1 Hlike) (permanent_hint id) Hf') as (f & Hf & ->). eauto.
  - intros id f' Hid Hf'. destruct (like_some _ _ _ _ (proj1 Hlike) (permanent_hint id) Hf') as (f & Hf & _). eauto.
  - apply Hlike.
Qed.

Lemma recoverable_twin fs fs' m : twin fs fs' → recoverable fs m → recoverable fs' m.
Proof. intros Hl (hs & tl & Hd & Hp & Hm). exists hs, tl. split_and!; [by eapply disk_twin|by eapply present_twin|done]. Qed.

(** Nothing is lost of a directory that is on the device. *)
Lemma cut_nothing fs fs' hs tl : disk fs hs tl → synced fs → power_cut fs fs' → twin fs fs'.
Proof.
  intros Hd Hs Hc. split.
  - by apply cut_like.
  - intros name f' Hf'. destruct (cut_some _ _ _ _ Hc Hf') as (f & Hf & Hle). pose proof (dk_sizes _ _ _ Hd _ _ Hf). lia.
Qed.

Lemma recoverable_cut fs fs' m : recoverable fs m → synced fs → power_cut fs fs' → recoverable fs' m.
Proof.
  intros Hrec Hs Hc. pose proof Hrec as (hs & tl & Hd & _). eapply recoverable_twin, Hrec. by eapply cut_nothing.
Qed.

(** ** A write during which the power fails *)

(** The new record is cut off somewhere. *)
Lemma after_bytes_cut d bs k f f' fs n : fully f → f_data f = d → LogFileOps.after_bytes d [] bs k f f' →
  (f_synced f' ≤ n)%nat → f_data fs = take n (f_data f') → fully fs → ∃ j, LogFileOps.after_bytes d [] bs j f fs.
Proof.
  intros Hfull Hdf (Hk & Hd & Hsy) Hn Hcut Hfs. unfold fully in *. rewrite drop_nil, app_nil_r in Hd.
  exists (Nat.min (n - length d) k). rewrite Hfull, Hdf, Nat.min_id in Hsy. split_and!; [lia| |].
  - rewrite Hcut, Hd, drop_nil, app_nil_r, take_app_ge by lia. by rewrite take_take.
  - rewrite Hfs, Hcut, Hd, length_take, length_app. lia.
Qed.

Lemma appending_cut b w hs l f x k f' fs' : rep b w hs → ready b w l f → synced (w_files w) → valid_write x →
  end_offset_ l + sz (enc x) ≤ INT64_MAX →
  LogFileOps.after_bytes (take (Z.to_nat (end_offset_ l)) (f_data f)) (drop (Z.to_nat (end_offset_ l)) (f_data f)) (enc x) k f f' →
  power_cut (<[lf_path l := f']> (w_files w)) fs' →
  recoverable fs' (map_of hs) ∨ recoverable fs' (map_step (map_of hs) x).
Proof.
  intros Hr Hready Hs Hx Hmax Ha Hc. destruct (rep_active _ _ _ _ _ Hr Hready) as (_ & xs & _ & He & Hf).
  pose proof (rd_file _ _ _ _ Hready) as Hl. pose proof (rd_path _ _ _ _ Hready) as Hpath.
  assert (Hfull : fully f) by (rewrite Hpath in Hl; by eapply synced_log).
  pose proof (Hc (lf_path l)) as Hcl. rewrite lookup_insert_eq in Hcl. destruct Hcl as (g & n & Hg & Hn & Hdg & Hgf).
  assert (Hj : ∃ j, LogFileOps.after_bytes (take (Z.to_nat (end_offset_ l)) (f_data f)) (drop (Z.to_nat (end_offset_ l)) (f_data f)) (enc x) j f g).
  { assert (Edrop : drop (Z.to_nat (end_offset_ l)) (f_data f) = []) by (rewrite He, Hf; unfold sz; by rewrite Nat2Z.id, skipn_all).
    rewrite Edrop in *. eapply after_bytes_cut; [done| |done..]. rewrite He, Hf. unfold sz. by rewrite Nat2Z.id, firstn_all. }
  destruct Hj as [j Hj]. destruct (rep_after_bytes b w hs l f x j g Hr Hready Hx Hmax Hj) as (hs0 & ys & -> & _ & Hd).
  assert (Hlike : twin (<[lf_path l := g]> (w_files w)) fs').
  { split; intros name; (destruct (decide (lf_path l = name)) as [<-|E]; [rewrite ?lookup_insert_eq, Hg|rewrite ?lookup_insert_ne by done]).
    - done.
    - intros Hp. rewrite (cut_same _ _ _ Hc); rewrite lookup_insert_ne by done; [done|]. intros h. by apply Hs.
    - intros ? [= <-]. case_decide; (eapply dk_sizes; [exact Hd|apply lookup_insert_eq]).
    - intros h Hh. destruct (cut_some _ _ _ _ Hc Hh) as (h0 & Hh0 & Hle). rewrite lookup_insert_ne in Hh0 by done.
      pose proof (dk_sizes _ _ _ (rp_disk _ _ _ Hr) _ _ Hh0). lia. }
  assert (Hpres : present fs' (hs0 ++ [(active_id_ b, ys)])) by (eapply present_twin; [exact Hlike|]; apply present_insert, Hr).
  case_decide.
  - right. eexists _, []. split_and!; [by eapply disk_twin| |by rewrite map_of_write]. eapply present_ids, Hpres. by rewrite !fmap_app.
  - left. eexists _, _. split_and!; [by eapply disk_twin|done|done].
Qed.

Lemma interrupted_cut b w hs x b' w' fs' : rep b w hs → synced (w_files w) → valid_write x →
  interrupted b w (enc x) b' w' → power_cut (w_files w') fs' →
  recoverable fs' (map_of hs) ∨ recoverable fs' (map_step (map_of hs) x).
Proof.
  intros Hr Hs Hx Hint Hc.
  assert (Hall : synced (w_files w') → recoverable fs' (map_of hs) ∨ recoverable fs' (map_step (map_of hs) x)).
  { intros Hs'. destruct (interrupted_disk _ _ _ _ _ _ Hr Hx Hint) as (hs' & tl & Hd & Hp & [Hm|Hm]); [left|right];
      (eapply recoverable_cut; [|done|done]; by exists hs', tl). }
  destruct Hint as [[-> Hrot]|[(-> & Hw & Hmax)|(k & b1 & w1 & l1 & f1 & f' & Ht & Hready & Hmax & Hw & Ha & _)]].
  - by eapply Hall, synced_rotating.
  - apply Hall. rewrite Hw. by apply clean_opened, synced_sealed.
  - destruct (rep_target _ _ _ _ _ Hr Ht) as (hs1 & Hr1 & <-). apply (appending_cut b1 w1 hs1 l1 f1 x k f' fs'); try done.
    + by eapply synced_target.
    + by rewrite <-Hw.
Qed.
(** ** Sessions in which the power fails *)

(** As in BitcaskSession, but the engine is opened with [SyncMode::Always], and whenever it
    goes down, in a call, between calls or while it opens, the power fails. *)
Inductive power_step : machine → label → machine → Prop :=
| power_on s l b fs : step s l (Up b fs) → opt_sync_mode (options_ b) = Always → power_step s l (Up b fs)
| power_lost s l fs fs' : step s l (Down fs) → power_cut fs fs' → power_step s l (Down fs').

(** What the engine has is on the device. *)
Definition lasting (s : machine) : Prop :=
  match s with
  | Up b fs => opt_sync_mode (options_ b) = Always ∧ synced fs
  | Down fs => synced fs
  | Broken => True
  end.

Section calls.
Context (b : Bitcask) (w : World) (hs : history).
Hypothesis Hrep : rep b w hs.
Hypothesis Hrel : reliable w.
Hypothesis Hsane : sane (options_ b).
Hypothesis Halways : opt_sync_mode (options_ b) = Always.
Hypothesis Hsynced : synced (w_files w).

(** What power failing in the call [r] leaves. *)
Definition old_or_new (r : request) (w' : World) : Prop :=
  ∀ fs', power_cut (w_files w') fs' →
    recoverable fs' (map_of hs) ∨ recoverable fs' (spec_effect r (map_of hs)).

(** The call [r] leaves everything on the device, and when the power fails in it, it has
    taken effect or not. *)
Definition lasts (r : request) : Prop :=
  wp (execute r) b w (λ _ _ w', synced (w_files w')) (λ _ _ w', synced (w_files w')) (old_or_new r).

Lemma old_or_new_same r w' : recoverable (w_files w') (map_of hs) → synced (w_files w') → old_or_new r w'.
Proof. intros Hrec Hs fs' Hc. left. by eapply recoverable_cut. Qed.

Lemma same_files_synced w' : same_files w w' → synced (w_files w').
Proof. by intros [-> _]. Qed.

Lemma old_or_new_write r x b' w0 w' : w_files w0 = w_files w → valid_write x → interrupted b w0 (enc x) b' w' →
  map_step (map_of hs) x = spec_effect r (map_of hs) → old_or_new r w'.
Proof.
  intros Hw Hx Hint He fs' Hc. rewrite <-He. eapply interrupted_cut; [|by rewrite Hw|done..].
  by eapply rep_files.
Qed.

Lemma lasts_put k v : admissible b (RPut k v) → lasts (RPut k v).
Proof.
  intros [Hids Hk]. unfold lasts, execute. destruct Hsane as [Hmfs _].
  eapply wp_bind; [by apply (wp_put_written b w hs)|..]; cbn beta.
  - intros _ b' w' _ (_ & _ & x & w0 & _ & Hw & _ & Hs). apply wp_ret. apply Hs; [done|by rewrite Hw].
  - intros e b' w' _ Hu. destruct (Hu Hrel) as (_ & -> & _). done.
  - intros w' _ (x & b' & w0 & Hx & Hw & Hint). eapply old_or_new_write; [done|apply Hx|done|by apply map_step_put].
Qed.

Lemma lasts_remove k : admissible b (RRemove k) → lasts (RRemove k).
Proof.
  intros [Hids Hk]. unfold lasts, execute. destruct Hsane as [Hmfs _].
  eapply wp_bind; [by apply (wp_remove_written b w hs)|..]; cbn beta.
  - intros _ b' w' _ (_ & _ & x & w0 & _ & Hw & _ & Hs). apply wp_ret. apply Hs; [done|by rewrite Hw].
  - intros e b' w' _ Hu. destruct (Hu Hrel) as (_ & -> & _). done.
  - intros w' _ (x & b' & w0 & Hx & Hw & Hint). eapply old_or_new_write; [done|apply Hx|done|by eapply map_step_remove].
Qed.

Lemma lasts_get k : lasts (RGet k).
Proof.
  unfold lasts, execute. eapply wp_bind; [by apply (wp_bitcask_get b w), rep_serves|..]; cbn beta.
  - intros v ? w' _ (_ & _ & Hs). by apply wp_ret, same_files_synced.
  - intros e ? w' _ (_ & Hs & _). by apply same_files_synced.
  - intros w' _ Hs. apply old_or_new_same; [by eapply rep_recoverable|by apply same_files_synced].
Qed.

Lemma lasts_sync : lasts RSync.
Proof.
  unfold lasts, execute. eapply wp_bind; [by apply (wp_sync_rep b w)|..]; cbn beta.
  - intros _ ? w' _ (_ & _ & Hs). by apply wp_ret, Hs.
  - done.
  - intros w' _ Hs. apply old_or_new_same; [by eapply rep_recoverable|by apply same_files_synced].
Qed.

Lemma lasts_compact : admissible b RCompact → lasts RCompact.
Proof.
  intros [Hids Hmax]. rewrite (data_bytes_rep _ _ _ Hrep) in Hmax.
  unfold lasts, execute. eapply wp_bind; [by apply (wp_compact True b w hs)|..]; cbn beta.
  - intros _ b' w' _ [[_ Hs] _]. by apply wp_ret, Hs.
  - done.
  - intros w' _ [Hrec Hs]. by apply old_or_new_same, Hs.
Qed.

Lemma lasts_all r : admissible b r → lasts r.
Proof.
  destruct r; [apply lasts_put|intros; apply lasts_get|apply lasts_remove|intros; apply lasts_sync|apply lasts_compact].
Qed.
End calls.

Lemma lasting_on s a l b fs : related s a → lasting s → step s l (Up b fs) → synced fs.
Proof.
  intros Hrel Hl Hstep. remember (Up b fs) as s' eqn:Es. destruct Hstep as [b0 w r Hr Had|w dir opts Hr Hopts|b0 fs0]; [| |done].
  - destruct Hrel as (_ & Hsane & w0 & hs & Hw & Hrep & _), Hl as [Hal Hs]. apply (rep_files _ _ w) in Hrep; [|done].
    pose proof (lasts_all b0 w hs Hrep Hr Hsane Hal Hs r Had) as Hsim. unfold lasts, wp in Hsim.
    destruct (execute r b0 w); simplify_eq/=; naive_solver.
  - destruct Hrel as [_ Hrec]. pose proof (wp_open_internal dir opts w _ Hrec) as Hopen. unfold wp in Hopen.
    destruct (open dir opts tt w) as [b' [] w'|e [] w'|w'|]; simplify_eq/=. destruct Hopen as (_ & _ & Hset & _). by apply Hset.
Qed.

Lemma lasting_lost s a l fs fs' : related s a → lasting s → step s l (Down fs) → power_cut fs fs' →
  ∃ a', spec_step a l a' ∧ related (Down fs') a'.
Proof.
  intros Hrel Hl Hstep Hc. remember (Down fs) as s' eqn:Es.
  destruct Hstep as [b w r Hr Had|w dir opts Hr Hopts|b fs0]; destruct a as [up m].
  - destruct Hrel as (Hup & Hsane & w0 & hs & Hw & Hrep & Hm), Hl as [Hal Hs]. simpl in Hup, Hm. subst up m.
    apply (rep_files _ _ w) in Hrep; [|done].
    pose proof (lasts_all b w hs Hrep Hr Hsane Hal Hs r Had) as Hsim. unfold lasts, wp in Hsim.
    destruct (execute r b w); simplify_eq/=. destruct Hsim as [_ Hsim].
    destruct (Hsim _ Hc); eexists (false, _); (split; [|split; [done|eassumption]]); constructor.
  - destruct Hrel as [Hup Hrec]. simpl in Hup, Hrec. subst up. simpl in Hl.
    pose proof (wp_open_internal dir opts w m Hrec) as Hopen. unfold wp in Hopen.
    destruct (open dir opts tt w) as [b' [] w'|e [] w'|w'|]; simplify_eq/=; [by destruct Hopen|].
    destruct Hopen as (_ & m' & Hrec' & Hm & Hset). rewrite (Hm Hr) in Hrec'. exists (false, m).
    split; [constructor|]. split; [done|]. eapply recoverable_cut; [done|by apply Hset|done].
  - destruct Hrel as (Hup & _ & w & hs & <- & Hrep & Hm), Hl as [_ Hs]. simplify_eq/=.
    exists (false, map_of hs). split; [constructor|]. split; [done|]. eapply recoverable_cut; [by eapply rep_recoverable|done|done].
Qed.

Lemma power_simulation s a l s' : related s a → lasting s → power_step s l s' →
  ∃ a', spec_step a l a' ∧ related s' a' ∧ lasting s'.
Proof.
  intros Hrel Hl Hp. destruct Hp as [s l b fs Hstep Hal|s l fs fs' Hstep Hc].
  - destruct (simulation _ _ _ _ Hrel Hstep) as (a' & ? & ?). exists a'. split_and!; [done|done|]. split; [done|exact (lasting_on _ _ _ _ _ Hrel Hl Hstep)].
  - destruct (lasting_lost _ _ _ _ _ Hrel Hl Hstep Hc) as (a' & ? & ?). exists a'. split_and!; [done|done|]. by eapply cut_synced.
Qed.

(** C3: With [SyncMode::Always], the engine is the map also when the power fails, and not
    only the process: a failure may drop, of every file, any part of what was not synced.
    After any sequence of requests (compactions among them), power failures at any system
    call, and restarts, what a call acknowledged is there, a call that was cut short has
    taken effect entirely or not at all, and the engine opens again. *)
Theorem bitcask_survives_power fs ls s' : recoverable fs ∅ → synced fs → run power_step (Down fs) ls s' →
  ∃ a', run spec_step (false, ∅) ls a' ∧ related s' a'.
Proof.
  intros Hrec Hs Hrun. assert (Hrel : related (Down fs) (false, ∅)) by (by split).
  assert (Hl : lasting (Down fs)) by done.
  remember (false, ∅) as a eqn:Ea. clear Ea Hrec Hs. revert a Hrel Hl.
  induction Hrun as [s|s l s1 ls s2 Hstep Hrun IH]; intros a Hrel Hl.
  - exists a. split; [constructor|done].
  - destruct (power_simulation _ _ _ _ Hrel Hl Hstep) as (a1 & Hsp & Hrel1 & Hl1).
    destruct (IH a1 Hrel1 Hl1) as (a2 & Hsp2 & Hrel2). exists a2. split; [by econstructor|done].
Qed.
End Power.
