(* ===== verification/BitcaskExamples.v ===== *)
(** Runs of the Bitcask model on concrete inputs: instances of the theorems, and
    behaviours of the code that its comments rule out. *)

From S2P Require Import Prelude Status FileNames World Wp Encoding Record Hint LogFile Power LogScan.
From S2P Require Import Bitcask BitcaskCompact BitcaskState BitcaskSteps BitcaskServe.
From S2P Require Import BitcaskDisk BitcaskRecover BitcaskCompactDisk.
From S2P Require Import BitcaskCompaction BitcaskSession BitcaskPower.
Import record BitcaskOps CompactOps.

#[local] Existing Instance reference_platform.

Definition sample_options : BitcaskOptions := mkOptions Always 64 false FailNone.

(** An empty directory; the clock reads 7, 8, 9, then stays. *)
Definition empty_world : World := mkWorld ∅ [] [7; 8; 9].

Definition run_of {S A} (o : out S A) (s : S) : S * World :=
  match o with
  | Ok _ s' w' | Err _ s' w' => (s', w')
  | Died w' => (s, w')
  | MStuck => (s, empty_world)
  end.

(** A database opened in the empty directory, before and after one put. *)
Definition opened_db : Bitcask * World :=
  match open (lit "db") sample_options tt empty_world with
  | Ok b _ w => (b, w)
  | _ => (new_bitcask [] sample_options, empty_world)
  end.

Definition put_db : Bitcask * World :=
  run_of (put (lit "k") (lit "v") opened_db.1 opened_db.2) opened_db.1.

Lemma empty_recoverable : recoverable (w_files empty_world) ∅.
Proof.
  exists [], []. split_and!; [|by intros id []%elem_of_nil|done].
  split; try done.
  - constructor.
  - by intros name id [f Hf].
Qed.

Lemma opened_db_rep : ∃ hs, rep opened_db.1 opened_db.2 hs ∧ map_of hs = ∅.
Proof.
  pose proof (wp_open_internal (lit "db") sample_options empty_world ∅ empty_recoverable) as Hw.
  unfold wp in Hw.
  assert (E : open (lit "db") sample_options tt empty_world = Ok opened_db.1 tt opened_db.2)
    by (vm_compute; reflexivity).
  rewrite E in Hw. destruct Hw as (_ & _ & _ & hs & Hr & Hm). exists hs. split; [done|]. apply Hm. constructor.
Qed.

Lemma put_db_rep : ∃ hs, rep put_db.1 put_db.2 hs ∧ map_of hs = {[ lit "k" := lit "v" ]}.
Proof.
  destruct opened_db_rep as (hs & Hr & Hm).
  assert (Ho : options_ opened_db.1 = sample_options) by (vm_compute; reflexivity).
  pose proof (wp_put_rep opened_db.1 opened_db.2 hs (lit "k") (lit "v") Hr) as Hw.
  rewrite Ho in Hw. specialize (Hw ltac:(done) ltac:(done)).
  assert (Ha : active_id_ opened_db.1 = 1) by (vm_compute; reflexivity).
  specialize (Hw ltac:(by rewrite Ha)). unfold wp in Hw.
  assert (E : put (lit "k") (lit "v") opened_db.1 opened_db.2 = Ok tt put_db.1 put_db.2)
    by (vm_compute; reflexivity).
  rewrite E in Hw. destruct Hw as (_ & _ & _ & hs' & Hr' & Hm'). exists hs'. split; [done|].
  rewrite Hm', Hm. done.
Qed.

Lemma put_db_serves : serves put_db.1 put_db.2 {[ lit "k" := lit "v" ]}.
Proof. destruct put_db_rep as (hs & Hr & <-). by apply rep_serves. Qed.

(** ** Instances of the theorems *)

Lemma bitcask_get_witness :
  wp (get (lit "k")) put_db.1 put_db.2
    (λ v b' w', ({[ lit "k" := lit "v" ]} : store) !! lit "k" = Some v ∧ b' = put_db.1 ∧ same_files put_db.2 w')
    (λ e b' w', b' = put_db.1 ∧ same_files put_db.2 w' ∧
       (({[ lit "k" := lit "v" ]} : store) !! lit "k" = None ∧ e = not_found (lit "no such key: " ++ lit "k") ∨
        ¬ reliable put_db.2))
    (same_files put_db.2).
Proof. apply bitcask_get. exact put_db_serves. Defined.

Lemma bitcask_put_witness :
  wp (put (lit "k") (lit "w")) put_db.1 put_db.2
    (λ _ b' w', fits (lit "k") (lit "w") false ∧
       serves b' w' (<[lit "k" := lit "w"]> {[ lit "k" := lit "v" ]}))
    (λ e b' w', serves b' w' {[ lit "k" := lit "v" ]} ∧
       (¬ fits (lit "k") (lit "w") false ∧ code_ e = InvalidArgument ∨
        active_id_ put_db.1 = UINT32_MAX ∨ ¬ reliable put_db.2))
    (λ _, True).
Proof. apply bitcask_put; [exact put_db_serves|vm_compute; by split|vm_compute; done]. Defined.

Lemma bitcask_remove_witness :
  wp (remove (lit "k")) put_db.1 put_db.2
    (λ _ b' w', fits (lit "k") [] true ∧ serves b' w' (delete (lit "k") {[ lit "k" := lit "v" ]}))
    (λ e b' w', serves b' w' {[ lit "k" := lit "v" ]} ∧
       (¬ fits (lit "k") [] true ∧ code_ e = InvalidArgument ∨
        active_id_ put_db.1 = UINT32_MAX ∨ ¬ reliable put_db.2))
    (λ _, True).
Proof. apply bitcask_remove; [exact put_db_serves|vm_compute; by split|vm_compute; done]. Defined.

Lemma bitcask_open_witness :
  wp (open (lit "db") sample_options) tt put_db.2
    (λ b _ w', options_ b = sample_options ∧ ∃ m', serves b w' m' ∧ recoverable (w_files w') m' ∧
       (reliable put_db.2 → m' = {[ lit "k" := lit "v" ]}))
    (λ _ _ _, ¬ reliable put_db.2)
    (λ w', ∃ m', recoverable (w_files w') m' ∧ (reliable put_db.2 → m' = {[ lit "k" := lit "v" ]})).
Proof.
  apply bitcask_open. destruct put_db_rep as (hs & Hr & <-). by eapply rep_recoverable.
Defined.

Lemma bitcask_compact_witness : ∃ hs, map_of hs = {[ lit "k" := lit "v" ]} ∧
  wp compact put_db.1 put_db.2
    (λ _ b' w', recoverable (w_files w') (map_of hs) ∧
       (fail_at (options_ put_db.1) = FailNone → serves b' w' (map_of hs)))
    (λ _ _ _, False) (λ w', recoverable (w_files w') (map_of hs)).
Proof.
  destruct put_db_rep as (hs & Hr & Hm). exists hs. split; [exact Hm|].
  apply bitcask_compact; [exact Hr|vm_compute; constructor|vm_compute; done|].
  rewrite <-(data_bytes_rep _ _ _ Hr). vm_compute. done.
Defined.

(** A session: open, put, read back, refuse an empty key, crash with nine bytes of a
    record written, open again. *)
Definition crash_world : World := mkWorld (w_files put_db.2) [EvShort 9; EvCrash] [8].

Definition sample_session : list label :=
  [Started; Returned (RPut (lit "k") (lit "v")) None; Returned (RGet (lit "k")) (Some (lit "v"));
   Refused (RPut [] (lit "v")) InvalidArgument; DiedIn (RPut (lit "k") (lit "w")); Started].

Definition crashed_files : gmap bytes file :=
  match put (lit "k") (lit "w") put_db.1 crash_world with Died w => w_files w | _ => ∅ end.

Definition reopened : machine :=
  (after_open (open (lit "db") sample_options tt (mkWorld crashed_files [] []))).2.

Lemma sample_sane : sane sample_options.
Proof. vm_compute. done. Qed.

Lemma sample_open : step (Down ∅) Started (Up opened_db.1 (w_files opened_db.2)).
Proof. apply (open_step empty_world (lit "db") sample_options); [constructor|apply sample_sane|done|vm_compute; reflexivity]. Qed.

Lemma sample_put : step (Up opened_db.1 (w_files opened_db.2)) (Returned (RPut (lit "k") (lit "v")) None) (Up put_db.1 (w_files put_db.2)).
Proof.
  apply (call_step _ opened_db.2 (RPut (lit "k") (lit "v"))); [vm_compute; constructor|vm_compute; done|done|vm_compute; reflexivity].
Qed.

Lemma sample_crash : step (Up put_db.1 (w_files put_db.2)) (DiedIn (RPut (lit "k") (lit "w"))) (Down crashed_files).
Proof.
  apply (call_step _ crash_world (RPut (lit "k") (lit "w"))); [by repeat constructor|vm_compute; done|done|vm_compute; reflexivity].
Qed.

Lemma sample_session_run : run step (Down ∅) sample_session reopened.
Proof.
  apply (run_cons _ _ _ _ _ _ sample_open), (run_cons _ _ _ _ _ _ sample_put).
  apply (run_cons _ _ _ (Up put_db.1 (w_files put_db.2))).
  { apply (call_step _ put_db.2 (RGet (lit "k"))); [vm_compute; constructor|vm_compute; done|done|vm_compute; reflexivity]. }
  apply (run_cons _ _ _ (Up put_db.1 (w_files put_db.2))).
  { apply (call_step _ put_db.2 (RPut [] (lit "v"))); [vm_compute; constructor|vm_compute; done|done|vm_compute; reflexivity]. }
  apply (run_cons _ _ _ _ _ _ sample_crash).
  apply (run_cons _ _ _ reopened); [|constructor].
  apply (open_step (mkWorld crashed_files [] []) (lit "db") sample_options);
    [constructor|apply sample_sane|done|vm_compute; reflexivity].
Qed.

Lemma bitcask_refines_map_witness : ∃ a',
  run spec_step (false, ∅) sample_session a' ∧ related reopened a'.
Proof. apply (bitcask_refines_map ∅ sample_session reopened empty_recoverable sample_session_run). Defined.

(** A session in which the power fails during the second put: of the nine bytes that were
    written, four reach the device.  The engine opens again, with the first value. *)
Definition dark_files : gmap bytes file := cut_by 4 <$> crashed_files.

Definition relit_db : Bitcask * World :=
  match open (lit "db") sample_options tt (mkWorld dark_files [] []) with
  | Ok b _ w => (b, w)
  | _ => opened_db
  end.

Definition power_session : list label :=
  [Started; Returned (RPut (lit "k") (lit "v")) None; DiedIn (RPut (lit "k") (lit "w")); Started;
   Returned (RGet (lit "k")) (Some (lit "v"))].

Lemma power_session_run : run power_step (Down ∅) power_session (Up relit_db.1 (w_files relit_db.2)).
Proof.
  apply (run_cons _ _ _ _ _ _ (power_on _ _ _ _ sample_open ltac:(vm_compute; reflexivity))).
  apply (run_cons _ _ _ _ _ _ (power_on _ _ _ _ sample_put ltac:(vm_compute; reflexivity))).
  apply (run_cons _ _ _ _ _ _ (power_lost _ _ _ _ sample_crash (cut_by_cut 4 _))).
  apply (run_cons _ _ _ (Up relit_db.1 (w_files relit_db.2))).
  { apply power_on; [|vm_compute; reflexivity]. apply (open_step (mkWorld dark_files [] []) (lit "db") sample_options);
      [constructor|apply sample_sane|done|vm_compute; reflexivity]. }
  apply (run_cons _ _ _ (Up relit_db.1 (w_files relit_db.2))); [|constructor].
  apply power_on; [|vm_compute; reflexivity].
  apply (call_step _ relit_db.2 (RGet (lit "k"))); [vm_compute; constructor|vm_compute; done|done|vm_compute; reflexivity].
Qed.

Lemma bitcask_survives_power_witness : ∃ a',
  run spec_step (false, ∅) power_session a' ∧ related (Up relit_db.1 (w_files relit_db.2)) a'.
Proof.
  apply (bitcask_survives_power ∅ power_session (Up relit_db.1 (w_files relit_db.2)) empty_recoverable); [|exact power_session_run].
  by intros name f _ Hf.
Defined.

(** ** Behaviour under failing calls

    Runs of the model in which one system call fails and the damage shows later. *)

(** [m] with this script of system call outcomes. *)
Definition under {S A} (evs : list event) (m : M S A) : M S A :=
  λ s w, m s (mkWorld (w_files w) evs (w_times w)).




(** The process dies after a record was written and before it was synced; the engine opens
    and answers with it; then the power fails. *)
Definition unsynced_files : gmap bytes file :=
  match under [EvOk; EvCrash] (put (lit "k") (lit "w")) put_db.1 put_db.2 with Died w => w_files w | _ => ∅ end.
Definition open_and_get (fs : gmap bytes file) : option bytes :=
  match open (lit "db") sample_options tt (mkWorld fs [] []) with
  | Ok b _ w => match get (lit "k") b w with Ok v _ _ => Some v | _ => None end
  | _ => None
  end.
Definition files_opened (fs : gmap bytes file) : gmap bytes file :=
  match open (lit "db") sample_options tt (mkWorld fs [] []) with Ok _ _ w => w_files w | _ => ∅ end.

(** [open] does not sync the file it goes on writing to: a value the engine has answered
    with can be gone after the next power failure, with [SyncMode::Always]. *)
Fact answered_then_lost :
  open_and_get unsynced_files = Some (lit "w") ∧
  open_and_get (cut_by 0 <$> files_opened unsynced_files) = Some (lit "v").
Proof. vm_compute. done. Qed.



