(* ===== verification/Protocol.v ===== *)
(** The wire protocol: [include/kvstore/protocol.hpp] and the payload codec of
    [src/protocol.cpp].  Requests and responses to bytes and back. *)

From S2P Require Import Prelude Status FileNames Encoding.

(** * Payloads *)

Inductive Op : Type := OpGet | OpPut | OpDelete.

#[export] Instance Op_eq_dec : EqDecision Op.
Proof. solve_decision. Defined.

Record Request : Type := mkRequest { rq_op : Op; rq_key : bytes; rq_value : bytes }.
Record Response : Type := mkResponse { rs_code : StatusCode; rs_body : bytes }.

Module protocol.

Definition kMaxFrameSize : Z := 8388608.
Definition kLengthPrefixSize : Z := 4.
Definition kRequestHeaderSize : Z := 5.
Definition kResponseHeaderSize : Z := 1.

(** The values of [enum class Op]. *)
Definition op_byte (op : Op) : Z :=
  match op with OpGet => 1 | OpPut => 2 | OpDelete => 3 end.

(** [op_name]. *)
Definition op_name (op : Op) : bytes :=
  match op with OpGet => lit "GET" | OpPut => lit "PUT" | OpDelete => lit "DELETE" end.

(** [status_byte]. *)
Definition status_byte (code : StatusCode) : Z :=
  match code with
  | COk => 0
  | NotFound => 1
  | IOError => 2
  | Corruption => 3
  | InvalidArgument => 4
  end.

(** [status_from_byte]. *)
Definition status_from_byte (b : Z) : result StatusCode :=
  if b =? 0 then ROk COk
  else if b =? 1 then ROk NotFound
  else if b =? 2 then ROk IOError
  else if b =? 3 then ROk Corruption
  else if b =? 4 then ROk InvalidArgument
  else RErr (invalid_argument (lit "unknown status byte " ++ std_to_string b)).

(** [to_status]. *)
Definition to_status (response : Response) : Status :=
  match rs_code response with
  | COk => ok
  | NotFound => not_found (rs_body response)
  | IOError => io_error (rs_body response)
  | Corruption => corruption (rs_body response)
  | InvalidArgument => invalid_argument (rs_body response)
  end.

(** [append_string]. *)
Definition append_string (out s : bytes) : bytes := out ++ s.

(** [encode_request]. *)
Definition encode_request (request : Request) : bytes :=
  let out := [byte.of_Z (op_byte (rq_op request))] in
  let out := wire.append_u32 out (u32 (sz (rq_key request))) in
  let out := append_string out (rq_key request) in
  if bool_decide (rq_op request = OpPut) then append_string out (rq_value request) else out.

(** [encode_response]. *)
Definition encode_response (response : Response) : bytes :=
  append_string [byte.of_Z (status_byte (rs_code response))] (rs_body response).

(** [span::subspan], defined only inside the span. *)
Definition subspan (l : bytes) (at_ : Z) : result bytes :=
  require (at_ <=? sz l) (drop (Z.to_nat at_) l).
Definition subspan_count (l : bytes) (at_ count : Z) : result bytes :=
  require ((at_ <=? sz l) && (count <=? sz l - at_)) (slice l at_ count).

(** The switch over the op byte. *)
Definition decode_op (b : Z) : result Op :=
  if b =? 1 then ROk OpGet
  else if b =? 2 then ROk OpPut
  else if b =? 3 then ROk OpDelete
  else RErr (invalid_argument (lit "unknown op byte " ++ std_to_string b)).

(** [decode_request]. *)
Definition decode_request (payload : bytes) : result Request :=
  fail_if (sz payload <? kRequestHeaderSize)
    (invalid_argument (lit "request payload is " ++ std_to_string (sz payload) ++
       lit " bytes, shorter than its " ++ std_to_string kRequestHeaderSize ++ lit "-byte header"));;
  first ← index payload 0;
  op ← decode_op first;
  key_size ← wire.get_u32 payload 1;
  let after_header := sz payload - kRequestHeaderSize in
  fail_if (after_header <? key_size)
    (invalid_argument (lit "key_size " ++ std_to_string key_size ++ lit " exceeds the " ++
       std_to_string after_header ++ lit " bytes left in the frame"));;
  key ← subspan_count payload kRequestHeaderSize key_size;
  rest ← subspan payload (kRequestHeaderSize + key_size);
  if bool_decide (op = OpPut) then ROk (mkRequest op key rest)
  else
    fail_if (negb (sz rest =? 0))
      (invalid_argument (op_name op ++ lit " carries " ++ std_to_string (sz rest) ++ lit " unexpected trailing bytes"));;
    ROk (mkRequest op key []).

(** [decode_response]. *)
Definition decode_response (payload : bytes) : result Response :=
  fail_if (sz payload =? 0) (invalid_argument (lit "response payload is empty"));;
  first ← index payload 0;
  code ← status_from_byte first;
  body ← subspan payload kResponseHeaderSize;
  ROk (mkResponse code body).

(** * Big-endian fields *)

Abbreviation be32 v := (rev (le_split 4 v)).

Lemma append_be32 out v : wire.append_u32 out v = out ++ be32 v.
Proof. unfold wire.append_u32. by rewrite <-!app_assoc. Qed.

Lemma sz_be32 v : sz (be32 v) = 4.
Proof. done. Qed.

Lemma get_be32_slice l at_ : 0 ≤ at_ → at_ + 4 ≤ sz l → wire.get_u32 l at_ = ROk (le_combine (rev (slice l at_ 4))).
Proof.
  intros. unfold wire.get_u32.
  destruct (index_ok l (at_ + 0)) as (b0 & E0 & ->); [lia|].
  destruct (index_ok l (at_ + 1)) as (b1 & E1 & ->); [lia|].
  destruct (index_ok l (at_ + 2)) as (b2 & E2 & ->); [lia|].
  destruct (index_ok l (at_ + 3)) as (b3 & E3 & ->); [lia|].
  assert (slice l at_ 4 = [b0; b1; b2; b3]) as ->.
  { unfold slice. rewrite !Z2Nat.inj_add in * by lia. simpl in *. rewrite Nat.add_0_r in E0.
    rewrite (drop_S _ _ _ E0), (drop_S _ b1), (drop_S _ b2), (drop_S _ b3);
      [done|..]; rewrite <-?E1, <-?E2, <-?E3; f_equal; lia. }
  simpl. f_equal. unfold le_combine.
  rewrite !Z.shiftl_lor, !Z.shiftl_shiftl, Z.shiftl_0_l, Z.lor_0_r by lia. simpl.
  rewrite !(Z.lor_comm _ (byte.unsigned b3)), !(Z.lor_comm _ (Z.shiftl (byte.unsigned b2) 8)), (Z.lor_comm (Z.shiftl (byte.unsigned b0) 24)).
  done.
Qed.

Lemma get_be32_app a b v n : n = sz a → 0 ≤ v ≤ UINT32_MAX → wire.get_u32 (a ++ be32 v ++ b) n = ROk v.
Proof.
  intros -> ?. rewrite get_be32_slice.
  - by rewrite slice_mid, rev_involutive, le_combine_le32 by done.
  - apply sz_nonneg.
  - rewrite !sz_app, sz_be32. pose proof (sz_nonneg b). lia.
Qed.

(** * The codec *)

(** What [encode_request] can express: a key with a 32-bit length, and a value only
    with a put. *)
Definition request_ok (r : Request) : Prop :=
  sz (rq_key r) ≤ UINT32_MAX ∧ (rq_op r ≠ OpPut → rq_value r = []).

Lemma encode_request_eq r : sz (rq_key r) ≤ UINT32_MAX →
  encode_request r = byte.of_Z (op_byte (rq_op r)) :: be32 (sz (rq_key r)) ++ rq_key r ++
    (if bool_decide (rq_op r = OpPut) then rq_value r else []).
Proof.
  intros Hk. unfold encode_request, append_string. rewrite append_be32, u32_id by (pose proof (sz_nonneg (rq_key r)); lia).
  case_bool_decide; by rewrite <-?app_assoc, ?app_nil_r.
Qed.

Lemma decode_op_byte op : decode_op (byte.unsigned (byte.of_Z (op_byte op))) = ROk op.
Proof. by destruct op. Qed.

Lemma decode_encode_request r : request_ok r → decode_request (encode_request r) = ROk r.
Proof.
  intros [Hk Hv]. rewrite encode_request_eq by done. destruct r as [op key value]. cbn [rq_op rq_key rq_value] in *.
  set (tl := if bool_decide (op = OpPut) then value else []). pose proof (sz_nonneg key). pose proof (sz_nonneg tl).
  set (p := byte.of_Z (op_byte op) :: be32 (sz key) ++ key ++ tl).
  assert (Hsz : sz p = 5 + sz key + sz tl) by (unfold p; rewrite sz_cons, !sz_app, sz_be32; lia).
  assert (Hp : p = (byte.of_Z (op_byte op) :: be32 (sz key)) ++ key ++ tl) by done.
  assert (Eu : wire.get_u32 p 1 = ROk (sz key)) by (by apply (get_be32_app [byte.of_Z (op_byte op)] (key ++ tl) (sz key) 1)).
  unfold decode_request. rewrite (proj2 (Z.ltb_ge _ _)) by (unfold kRequestHeaderSize; lia). cbn [fail_if mbind result_bind].
  change (index p 0) with (ROk (byte.unsigned (byte.of_Z (op_byte op)))). cbn [mbind result_bind]. rewrite decode_op_byte.
  cbn [mbind result_bind]. rewrite Eu. cbn [mbind result_bind]. unfold kRequestHeaderSize.
  rewrite (proj2 (Z.ltb_ge _ _)) by lia. cbn [fail_if mbind result_bind]. unfold subspan_count, subspan.
  rewrite !(proj2 (Z.leb_le _ _)) by lia. cbn [andb require mbind result_bind].
  assert (Ekey : slice p 5 (sz key) = key) by (rewrite Hp; by apply slice_mid).
  assert (Erest : drop (Z.to_nat (5 + sz key)) p = tl).
  { rewrite Hp, app_assoc. apply drop_app_length'. rewrite length_app. unfold sz. simpl. lia. }
  rewrite Ekey, Erest. unfold tl in *. case_bool_decide as Ho; [done|]. by rewrite Hv.
Qed.

Lemma be32_combine (b1 b2 b3 b4 : byte) : be32 (le_combine [b4; b3; b2; b1]) = [b1; b2; b3; b4].
Proof. by rewrite (split_le_combine' [b4; b3; b2; b1] 4). Qed.

Lemma combine_range (b1 b2 b3 b4 : byte) : 0 ≤ le_combine [b4; b3; b2; b1] ≤ UINT32_MAX.
Proof. pose proof (le_combine_bound [b4; b3; b2; b1]) as Hb. simpl length in Hb. unfold UINT32_MAX. lia. Qed.

Lemma decode_op_inv b op : decode_op (byte.unsigned b) = ROk op → byte.of_Z (op_byte op) = b.
Proof.
  unfold decode_op. pose proof (byte.of_Z_unsigned b) as Hb.
  repeat (case_match eqn:E; [intros [= <-]; apply Z.eqb_eq in E; by rewrite <-Hb, E|clear E]). done.
Qed.

(** The decoder on a payload with its header taken apart. *)
Lemma decode_request_cons b0 b1 b2 b3 b4 q : let k := le_combine [b4; b3; b2; b1] in
  decode_request (b0 :: b1 :: b2 :: b3 :: b4 :: q) =
    (op ← decode_op (byte.unsigned b0);
     fail_if (sz q <? k) (invalid_argument (lit "key_size " ++ std_to_string k ++ lit " exceeds the " ++
       std_to_string (sz q) ++ lit " bytes left in the frame"));;
     if bool_decide (op = OpPut) then ROk (mkRequest op (take (Z.to_nat k) q) (drop (Z.to_nat k) q))
     else
       fail_if (negb (sz (drop (Z.to_nat k) q) =? 0))
         (invalid_argument (op_name op ++ lit " carries " ++ std_to_string (sz (drop (Z.to_nat k) q)) ++ lit " unexpected trailing bytes"));;
       ROk (mkRequest op (take (Z.to_nat k) q) [])).
Proof.
  intros k. set (p := b0 :: b1 :: b2 :: b3 :: b4 :: q). pose proof (sz_nonneg q). pose proof (combine_range b1 b2 b3 b4) as Hk. fold k in Hk.
  assert (Hsz : sz p = 5 + sz q) by (unfold p; rewrite !sz_cons; lia).
  unfold decode_request, kRequestHeaderSize. rewrite (proj2 (Z.ltb_ge _ _)) by lia. cbn [fail_if mbind result_bind].
  change (index p 0) with (ROk (byte.unsigned b0)). cbn [mbind result_bind]. destruct (decode_op (byte.unsigned b0)) as [op| |]; [|done..].
  cbn [mbind result_bind]. rewrite get_be32_slice by lia. change (le_combine (rev (slice p 1 4))) with k. cbn [mbind result_bind].
  replace (sz p - 5) with (sz q) by lia. destruct (Z.ltb_spec (sz q) k); [done|]. cbn [fail_if mbind result_bind].
  unfold subspan_count, subspan. rewrite !(proj2 (Z.leb_le _ _)) by lia. cbn [andb require mbind result_bind].
  replace (drop (Z.to_nat (5 + k)) p) with (drop (Z.to_nat k) q) by (rewrite Z2Nat.inj_add by lia; done). done.
Qed.

(** A payload too short to have a header. *)
Lemma decode_request_short p : sz p < kRequestHeaderSize → ∃ m, decode_request p = RErr (invalid_argument m).
Proof. intros Hlen. unfold decode_request. rewrite (proj2 (Z.ltb_lt _ _)) by done. by eexists. Qed.

Lemma payload_cases (p : bytes) : sz p < kRequestHeaderSize ∨ ∃ b0 b1 b2 b3 b4 q, p = b0 :: b1 :: b2 :: b3 :: b4 :: q.
Proof.
  do 5 (destruct p as [|? p]; [by left|]). right. eauto 10.
Qed.

(** A payload that decodes is the encoding of what it decodes to. *)
Lemma decode_request_inv p r : decode_request p = ROk r → request_ok r ∧ encode_request r = p.
Proof.
  destruct (payload_cases p) as [Hs|(b0 & b1 & b2 & b3 & b4 & q & ->)].
  { destruct (decode_request_short p Hs) as [m ->]. done. }
  rewrite decode_request_cons. set (k := le_combine [b4; b3; b2; b1]). pose proof (combine_range b1 b2 b3 b4) as Hk. fold k in Hk.
  destruct (decode_op (byte.unsigned b0)) as [op| |] eqn:Eop; [|done..]. apply decode_op_inv in Eop. cbn [mbind result_bind].
  destruct (Z.ltb_spec (sz q) k) as [|Hle]; [done|]. cbn [fail_if mbind result_bind].
  assert (Hkey : sz (take (Z.to_nat k) q) = k) by (unfold sz in *; rewrite length_take; lia).
  assert (Hgo : ∀ v, (if bool_decide (op = OpPut) then v else []) = drop (Z.to_nat k) q → (op ≠ OpPut → v = []) →
    request_ok (mkRequest op (take (Z.to_nat k) q) v) ∧ encode_request (mkRequest op (take (Z.to_nat k) q) v) = b0 :: b1 :: b2 :: b3 :: b4 :: q).
  { intros v Ev Hv. split; [split; cbn; [lia|done]|]. rewrite encode_request_eq by (cbn; lia). cbn [rq_op rq_key rq_value].
    rewrite Hkey, Ev, Eop. unfold k at 1. rewrite be32_combine. by rewrite take_drop. }
  destruct (bool_decide (op = OpPut)) eqn:Eput.
  - intros [= <-]. apply Hgo; [done|]. by apply bool_decide_eq_true in Eput.
  - destruct (Z.eqb_spec (sz (drop (Z.to_nat k) q)) 0) as [E|]; [|done]. intros [= <-]. apply sz_zero_nil in E. by apply Hgo.
Qed.

Lemma decode_op_safe b : safe InvalidArgument (decode_op b).
Proof. unfold decode_op. by repeat case_match. Qed.

Lemma decode_request_safe p : safe InvalidArgument (decode_request p).
Proof.
  destruct (payload_cases p) as [Hs|(b0 & b1 & b2 & b3 & b4 & q & ->)].
  { by destruct (decode_request_short p Hs) as [m ->]. }
  rewrite decode_request_cons. pose proof (decode_op_safe (byte.unsigned b0)) as Hop.
  destruct (decode_op (byte.unsigned b0)); [|exact Hop|exact Hop]. cbn [mbind result_bind].
  destruct (_ <? _); [reflexivity|]. cbn [fail_if mbind result_bind]. destruct (bool_decide _); [exact I|].
  destruct (negb _); [reflexivity|exact I].
Qed.

(** ** Responses *)

Lemma decode_encode_response r : decode_response (encode_response r) = ROk r.
Proof. destruct r as [[] body]; unfold decode_response, encode_response, append_string; cbn; unfold subspan; simpl;
  rewrite (proj2 (Z.leb_le _ _)) by (unfold sz, kResponseHeaderSize; cbn; lia); done. Qed.

Lemma decode_response_inv p r : decode_response p = ROk r → encode_response r = p.
Proof.
  unfold decode_response. destruct p as [|b p]; [done|]. rewrite (proj2 (Z.eqb_neq _ _)) by (rewrite sz_cons; pose proof (sz_nonneg p); lia).
  cbn [fail_if mbind result_bind]. change (index (b :: p) 0) with (ROk (byte.unsigned b)). cbn [mbind result_bind].
  unfold subspan. rewrite (proj2 (Z.leb_le _ _)) by (rewrite sz_cons; unfold kResponseHeaderSize; pose proof (sz_nonneg p); lia).
  cbn [require]. unfold status_from_byte, encode_response, append_string.
  repeat (case_match eqn:E; [cbn; intros [= <-]; apply Z.eqb_eq in E; pose proof (byte.of_Z_unsigned b) as Hb; rewrite E in Hb; cbn; by rewrite drop_0, <-Hb|clear E]). done.
Qed.

Lemma decode_response_safe p : safe InvalidArgument (decode_response p).
Proof.
  unfold decode_response. destruct p as [|b p]; [done|]. rewrite (proj2 (Z.eqb_neq _ _)) by (rewrite sz_cons; pose proof (sz_nonneg p); lia).
  cbn [fail_if mbind result_bind]. change (index (b :: p) 0) with (ROk (byte.unsigned b)). cbn [mbind result_bind].
  unfold subspan. rewrite (proj2 (Z.leb_le _ _)) by (rewrite sz_cons; unfold kResponseHeaderSize; pose proof (sz_nonneg p); lia).
  unfold status_from_byte. by repeat case_match.
Qed.

(** C19: The payload codec is exact.  Every request and response survives encoding; every
    payload that decodes at all is the encoding of what it decodes to, so a message has
    one form on the wire; and decoding arbitrary bytes from the network never reads
    outside the payload and fails only with InvalidArgument. *)
Theorem protocol_codec :
  (∀ r, request_ok r → decode_request (encode_request r) = ROk r) ∧
  (∀ p r, decode_request p = ROk r → request_ok r ∧ encode_request r = p) ∧
  (∀ p, safe InvalidArgument (decode_request p)) ∧
  (∀ r, decode_response (encode_response r) = ROk r) ∧
  (∀ p r, decode_response p = ROk r → encode_response r = p) ∧
  (∀ p, safe InvalidArgument (decode_response p)).
Proof.
  split_and!; [apply decode_encode_request|apply decode_request_inv|apply decode_request_safe|
    apply decode_encode_response|apply decode_response_inv|apply decode_response_safe].
Qed.

End protocol.
