(* ===== verification/Net.v ===== *)
(** Sockets: [src/platform_socket.cpp], [include/kvstore/socket.hpp], [src/socket.cpp].

    A connected socket is seen from one end.  The other end is a function: given all the
    bytes it has received so far, all the bytes it has sent so far and whether it has
    closed its end.  TCP delivers those bytes in order; how they are cut into transfers,
    which calls fail and which waits time out is up to a script, one event per call.
    When the script has run out, calls transfer as much as they can.

    A call that would block for good because the other end neither sends nor closes has
    no result in C++; here it returns the value that says so ([Waits]). *)

From S2P Require Import Prelude Status FileNames World Wp.

Inductive net_event : Type :=
| NOk
| NFail
| NShort (n : nat)
| NTimeout.

Record Socket : Type := mkSocket {
  sk_open : bool;                      (* [sock_] is valid *)
  sk_peer : bytes → bytes * bool;      (* the other end *)
  sk_sent : bytes;                     (* what the kernel has taken from us *)
  sk_taken : nat;                      (* how much of the other end's we have received *)
  sk_down : bool;                      (* [shutdown] was called *)
  sk_events : list net_event;
}.

(** Assignments to members. *)
Definition sk_set_open (x : bool) (s : Socket) : Socket :=
  mkSocket x (sk_peer s) (sk_sent s) (sk_taken s) (sk_down s) (sk_events s).
Definition sk_set_sent (x : bytes) (s : Socket) : Socket :=
  mkSocket (sk_open s) (sk_peer s) x (sk_taken s) (sk_down s) (sk_events s).
Definition sk_set_taken (x : nat) (s : Socket) : Socket :=
  mkSocket (sk_open s) (sk_peer s) (sk_sent s) x (sk_down s) (sk_events s).
Definition sk_set_down (x : bool) (s : Socket) : Socket :=
  mkSocket (sk_open s) (sk_peer s) (sk_sent s) (sk_taken s) x (sk_events s).
Definition sk_set_events (x : list net_event) (s : Socket) : Socket :=
  mkSocket (sk_open s) (sk_peer s) (sk_sent s) (sk_taken s) (sk_down s) x.

(** What has arrived and not been received, and whether anything can follow it. *)
Definition arrived (s : Socket) : bytes := drop (sk_taken s) (sk_peer s (sk_sent s)).1.
Definition ended (s : Socket) : bool := (sk_peer s (sk_sent s)).2 || sk_down s.

Definition next_net : M Socket net_event :=
  s ← get;
  match sk_events s with
  | [] => mret NOk
  | e :: rest => put (sk_set_events rest s);; mret e
  end.

Inductive Received : Type :=
| RecvFailed
| RecvBytes (bs : bytes)
| Waits.

Module platform_socket.

Definition kMaxChunk : Z := 1048576.

(** [chunk_len]. *)
Definition chunk_len (count : Z) : Z := Z.min count kMaxChunk.

(** [platform::close_socket]. *)
Definition close_socket : M Socket Z :=
  e ← next_net; mret (match e with NFail => -1 | _ => 0 end).

(** [platform::shutdown_both]. *)
Definition shutdown_both : M Socket Z :=
  e ← next_net;
  match e with NFail => mret (-1) | _ => modify (sk_set_down true);; mret 0 end.

(** [platform::poll_readable]: 1, 0 on a timeout, -1. *)
Definition poll_readable : M Socket Z :=
  e ← next_net;
  s ← get;
  mret (match e with
        | NFail => -1
        | NTimeout => 0
        | _ => if negb (bool_decide (arrived s = [])) || ended s then 1 else 0
        end).

(** [platform::recv_some]: at least one byte when there is one; none when the other end
    has closed. *)
Definition recv_some (count : Z) : M Socket Received :=
  e ← next_net;
  s ← get;
  match e, arrived s with
  | NFail, _ => mret RecvFailed
  | _, [] => mret (if ended s then RecvBytes [] else Waits)
  | _, bs =>
      let n := match e with
               | NShort k => Z.min (chunk_len count) (Z.max 1 (Z.of_nat k))
               | _ => chunk_len count
               end in
      let got := take (Z.to_nat n) bs in
      put (sk_set_taken (sk_taken s + length got) s);;
      mret (RecvBytes got)
  end.

(** [platform::send_some]: how many bytes the kernel took, -1 on failure. *)
Definition send_some (bs : bytes) : M Socket Z :=
  e ← next_net;
  s ← get;
  if sk_down s then mret (-1)
  else
    match e with
    | NFail => mret (-1)
    | _ =>
        let n := match e with
                 | NShort k => Z.min (chunk_len (sz bs)) (Z.of_nat k)
                 | _ => chunk_len (sz bs)
                 end in
        let took := take (Z.to_nat n) bs in
        put (sk_set_sent (sk_sent s ++ took) s);;
        mret (sz took)
    end.

End platform_socket.

(** A listening socket and the connections that wait in its queue. *)
Record Listener : Type := mkListener {
  ls_open : bool;
  ls_port : Z;
  ls_queue : list Socket;
  ls_events : list net_event;
}.

Definition ls_set_open (x : bool) (l : Listener) : Listener := mkListener x (ls_port l) (ls_queue l) (ls_events l).
Definition ls_set_queue (x : list Socket) (l : Listener) : Listener := mkListener (ls_open l) (ls_port l) x (ls_events l).

Definition next_listen : M Listener net_event :=
  l ← get;
  match ls_events l with
  | [] => mret NOk
  | e :: rest => put (mkListener (ls_open l) (ls_port l) (ls_queue l) rest);; mret e
  end.

(** ** Getting a socket *)

(** What the operating system answers on the way to a socket: which strings are IPv4
    addresses, whether there is a descriptor, whether an address can be bound and listened
    on, which connection a server accepts, and what address a socket is bound to. *)
Record NetSystem : Type := mkNetSystem {
  ns_inet_pton : bytes → option Z;
  ns_socket : bool;
  ns_bind : Z → Z → bool;
  ns_listen : Z → option Listener;
  ns_connect : Z → Z → option Socket;
  ns_getsockname : Listener → option Z;
}.

Module platform_connect.
Section platform_connect.
Context (sys : NetSystem).

(** [fill_address]: the address and the port, which fits its 16 bits. *)
Definition fill_address (host : bytes) (port : Z) : option (Z * Z) :=
  match ns_inet_pton sys (c_str host) with
  | None => None
  | Some addr => Some (addr, port mod 65536)
  end.

(** [platform::listen_on]; a socket that cannot be bound or listened on is closed again. *)
Definition listen_on (host : bytes) (port backlog : Z) : option Listener :=
  match fill_address host port with
  | None => None
  | Some (addr, port) =>
      if negb (ns_socket sys) then None
      else if negb (ns_bind sys addr port) then None
      else ns_listen sys backlog
  end.

(** [platform::connect_to]. *)
Definition connect_to (host : bytes) (port : Z) : option Socket :=
  match fill_address host port with
  | None => None
  | Some (addr, port) => if negb (ns_socket sys) then None else ns_connect sys addr port
  end.

(** [platform::local_port]. *)
Definition local_port (l : Listener) : Z :=
  match ns_getsockname sys l with None => -1 | Some port => port mod 65536 end.

End platform_connect.
End platform_connect.

Module SocketOps.
Section SocketOps.
Context `{Platform}.

(** [Socket::connect]. *)
Definition connect (sys : NetSystem) (host : bytes) (port : Z) : result Socket :=
  match platform_connect.connect_to sys host port with
  | None => RErr (io_error (lit "connect to " ++ host ++ lit ":" ++ std_to_string port ++ lit ": " ++ os_error_text))
  | Some sock => ROk sock
  end.

(** [Socket::check_open]. *)
Definition check_open (what : bytes) : M Socket unit :=
  s ← get;
  if negb (sk_open s) then fail (io_error (what ++ lit " on a closed socket")) else mret tt.

(** [Socket::close]. *)
Definition close : M Socket unit :=
  s ← get;
  if negb (sk_open s) then mret tt
  else
    rc ← platform_socket.close_socket;
    modify (sk_set_open false);;
    if negb (rc =? 0) then fail (io_error (lit "close socket: " ++ os_error_text)) else mret tt.

(** [Socket::close_if_open], the destructor. *)
Definition close_if_open : M Socket unit :=
  s ← get;
  if sk_open s then
    _ ← platform_socket.close_socket;
    modify (sk_set_open false)
  else mret tt.

(** [Socket::wait_readable]; how long it waits is the script's affair. *)
Definition wait_readable : M Socket bool :=
  check_open (lit "poll");;
  rc ← platform_socket.poll_readable;
  if rc <? 0 then fail (io_error (lit "poll: " ++ os_error_text)) else mret (0 <? rc).

(** [Socket::shutdown]. *)
Definition shutdown : M Socket unit :=
  check_open (lit "shutdown");;
  rc ← platform_socket.shutdown_both;
  if negb (rc =? 0) then fail (io_error (lit "shutdown: " ++ os_error_text)) else mret tt.

(** The loop of [Socket::send_all]. *)
Fixpoint send_loop (fuel : nat) (bs : bytes) (sent : Z) : M Socket unit :=
  match fuel with
  | O => stuck
  | S fuel =>
      if sent <? sz bs then
        n ← platform_socket.send_some (drop (Z.to_nat sent) bs);
        if n <? 0 then fail (io_error (lit "send: " ++ os_error_text))
        else if n =? 0 then fail (io_error (lit "send made no progress"))
        else send_loop fuel bs (sent + n)
      else mret tt
  end.

(** [Socket::send_all]: every pass sends a byte. *)
Definition send_all (bs : bytes) : M Socket unit :=
  check_open (lit "send");;
  send_loop (S (length bs)) bs 0.

(** [Socket::recv_some] into a buffer of [count] bytes; [None] when it waits for good. *)
Definition recv_some (count : Z) : M Socket (option bytes) :=
  check_open (lit "recv");;
  if count =? 0 then mret (Some [])
  else
    r ← platform_socket.recv_some count;
    match r with
    | RecvFailed => fail (io_error (lit "recv: " ++ os_error_text))
    | RecvBytes bs => mret (Some bs)
    | Waits => mret None
    end.

End SocketOps.
End SocketOps.

(** ** Listeners *)

Module ListenerOps.
Section ListenerOps.
Context `{Platform}.

(** [Listener::bind]. *)
Definition bind (sys : NetSystem) (host : bytes) (port backlog : Z) : result Listener :=
  match platform_connect.listen_on sys host port backlog with
  | None => RErr (io_error (lit "listen on " ++ host ++ lit ":" ++ std_to_string port ++ lit ": " ++ os_error_text))
  | Some l =>
      let bound := platform_connect.local_port sys l in
      if bound <? 0 then RErr (io_error (lit "getsockname: " ++ os_error_text))
      else ROk (mkListener true (bound mod 65536) (ls_queue l) (ls_events l))
  end.

(** [Listener::check_open]. *)
Definition check_open (what : bytes) : M Listener unit :=
  l ← get;
  if negb (ls_open l) then fail (io_error (what ++ lit " on a closed listener")) else mret tt.

(** [Listener::close]. *)
Definition close : M Listener unit :=
  l ← get;
  if negb (ls_open l) then mret tt
  else
    e ← next_listen;
    modify (ls_set_open false);;
    match e with NFail => fail (io_error (lit "close listener: " ++ os_error_text)) | _ => mret tt end.

(** [Listener::close_if_open], the destructor. *)
Definition close_if_open : M Listener unit :=
  l ← get;
  if ls_open l then
    _ ← next_listen;
    modify (ls_set_open false)
  else mret tt.

(** [Listener::wait_readable] with [platform::poll_readable]. *)
Definition wait_readable : M Listener bool :=
  check_open (lit "poll");;
  e ← next_listen;
  l ← get;
  match e with
  | NFail => fail (io_error (lit "poll: " ++ os_error_text))
  | NTimeout => mret false
  | _ => mret (negb (bool_decide (ls_queue l = [])))
  end.

(** [Listener::accept] with [platform::accept_one]; [None] when it waits for good. *)
Definition accept : M Listener (option Socket) :=
  check_open (lit "accept");;
  e ← next_listen;
  l ← get;
  match e, ls_queue l with
  | NFail, _ => fail (io_error (lit "accept: " ++ os_error_text))
  | _, [] => mret None
  | _, s :: rest => put (ls_set_queue rest l);; mret (Some s)
  end.

End ListenerOps.
End ListenerOps.
