(* ===== verification/Frames.v ===== *)
(** The frame layer of [src/protocol.cpp]: [write_frame] and the class [FrameReader],
    which cuts the byte stream of a socket back into messages. *)

From S2P Require Import Prelude Status FileNames World Wp Encoding Protocol Net.

(** [FrameReader] with its [ReadPolicy]; the flag it polls is the value it has during a
    call. *)
Record FrameReader : Type := mkFrameReader {
  max_frame_ : Z;
  poll_timeout_ms : Z;
  cancelled : option bool;
  buf_ : bytes;
}.

(** [explicit FrameReader(Socket&, ...)] with the default arguments. *)
Definition default_reader : FrameReader := mkFrameReader protocol.kMaxFrameSize 0 None [].

(** A reader and the socket it refers to. *)
Record Link : Type := mkLink { lk_sock : Socket; lk_reader : FrameReader }.

Definition set_sock (s : Socket) (lk : Link) : Link := mkLink s (lk_reader lk).
Definition set_buf (b : bytes) (lk : Link) : Link :=
  mkLink (lk_sock lk) (mkFrameReader (max_frame_ (lk_reader lk)) (poll_timeout_ms (lk_reader lk)) (cancelled (lk_reader lk)) b).

Inductive Fill : Type := Filled | FPeerClosed | FCancelled | FWaits.
Inductive FrameStatus : Type := Complete (payload : bytes) | PeerClosed | Cancelled | StillWaits.
#[export] Instance FrameStatus_eq : EqDecision FrameStatus.
Proof. solve_decision. Defined.


(** What one look at the socket before a read decides. *)
Inductive Polled : Type := ReadNow | PollAgain | GiveUp (f : Fill).

Module FrameOps.
Section FrameOps.
Context `{Platform}.

Definition kReadChunk : Z := 4096.

Definition on_sock {A : Type} (m : M Socket A) : M Link A := zoom lk_sock set_sock m.

(** [write_frame]. *)
Definition write_frame (payload : bytes) : M Socket unit :=
  if protocol.kMaxFrameSize <? sz payload then
    fail (invalid_argument (lit "frame payload of " ++ std_to_string (sz payload) ++ lit " bytes exceeds the " ++
      std_to_string protocol.kMaxFrameSize ++ lit "-byte cap"))
  else
    let frame := wire.append_u32 [] (u32 (sz payload)) in
    let frame := frame ++ payload in
    SocketOps.send_all frame.

(** The wait in the loop of [fill_to].  A time-out without the flag goes around again;
    when nothing will ever arrive it does so for good. *)
Definition poll_step : M Link Polled :=
  lk ← get;
  if 0 <? poll_timeout_ms (lk_reader lk) then
    ready ← on_sock SocketOps.wait_readable;
    if ready : bool then mret ReadNow
    else
      lk ← get;
      if bool_decide (cancelled (lk_reader lk) = Some true) then mret (GiveUp FCancelled)
      else
        let s := lk_sock lk in
        if bool_decide (sk_events s = []) && bool_decide (arrived s = []) && negb (ended s)
        then mret (GiveUp FWaits)
        else mret PollAgain
  else mret ReadNow.

(** [FrameReader::fill_to]. *)
Fixpoint fill_loop (fuel : nat) (wanted : Z) : M Link Fill :=
  match fuel with
  | O => stuck
  | S fuel =>
      lk ← get;
      if sz (buf_ (lk_reader lk)) <? wanted then
        p ← poll_step;
        match p with
        | GiveUp f => mret f
        | PollAgain => fill_loop fuel wanted
        | ReadNow =>
            let have := sz (buf_ (lk_reader lk)) in
            let ask := Z.max (wanted - have) kReadChunk in
            got ← on_sock (SocketOps.recv_some ask);
            match got with
            | None => mret FWaits
            | Some bs =>
                modify (set_buf (buf_ (lk_reader lk) ++ bs));;
                if sz bs =? 0 then mret FPeerClosed else fill_loop fuel wanted
            end
        end
      else mret Filled
  end.

(** Every pass uses up an event or receives a byte. *)
Definition fill_to (wanted : Z) : M Link Fill :=
  lk ← get;
  fill_loop (S (length (sk_events (lk_sock lk)) + Z.to_nat wanted)) wanted.

(** [FrameReader::read_frame]; the payload comes with the status. *)
Definition read_frame : M Link FrameStatus :=
  have_prefix ← fill_to protocol.kLengthPrefixSize;
  match have_prefix with
  | FCancelled => mret Cancelled
  | FWaits => mret StillWaits
  | FPeerClosed =>
      lk ← get;
      let buf := buf_ (lk_reader lk) in
      if sz buf =? 0 then mret PeerClosed
      else fail (corruption (lit "connection ended after " ++ std_to_string (sz buf) ++ lit " of " ++
             std_to_string protocol.kLengthPrefixSize ++ lit " length-prefix bytes"))
  | Filled =>
      lk ← get;
      length_ ← liftR (wire.get_u32 (buf_ (lk_reader lk)) 0);
      fail_when (max_frame_ (lk_reader lk) <? length_)
        (corruption (lit "frame length " ++ std_to_string length_ ++ lit " exceeds the " ++
          std_to_string (max_frame_ (lk_reader lk)) ++ lit "-byte cap"));;
      let total := protocol.kLengthPrefixSize + length_ in
      have_payload ← fill_to total;
      match have_payload with
      | FCancelled => mret Cancelled
      | FWaits => mret StillWaits
      | FPeerClosed =>
          lk ← get;
          fail (corruption (lit "connection ended after " ++
            std_to_string (sz (buf_ (lk_reader lk)) - protocol.kLengthPrefixSize) ++ lit " of " ++
            std_to_string length_ ++ lit " payload bytes"))
      | Filled =>
          lk ← get;
          let buf := buf_ (lk_reader lk) in
          modify (set_buf (drop (Z.to_nat total) buf));;
          mret (Complete (slice buf protocol.kLengthPrefixSize length_))
      end
  end.

End FrameOps.
End FrameOps.
