(* ===== verification/FrameSpec.v ===== *)
(** Framing is right: whatever way the network cuts the stream, the reader hands out the
    frames that were written, one at a time and in order. *)

From S2P Require Import Prelude Status FileNames World Wp Encoding Protocol Net Frames.
Import FrameOps.

#[local] Opaque std_to_string.

Section Spec.
Context `{Platform}.

(** * Sockets *)

(** No call fails. *)
Definition net_ok (evs : list net_event) : Prop := Forall (λ e, e ≠ NFail ∧ e ≠ NShort 0) evs.

Lemma net_ok_suffix evs evs' : evs' `suffix_of` evs → net_ok evs → net_ok evs'.
Proof. intros [pre ->] Hok. by apply Forall_app in Hok as [_ ?]. Qed.

(** The next event. *)
Definition pops (evs : list net_event) (e : net_event) (evs' : list net_event) : Prop :=
  evs = e :: evs' ∨ evs = [] ∧ evs' = [] ∧ e = NOk.

Lemma pops_suffix evs e evs' : pops evs e evs' → evs' `suffix_of` evs.
Proof. intros [->|(-> & -> & _)]; [by exists [e]|done]. Qed.

Lemma pops_ok evs e evs' : pops evs e evs' → net_ok evs → e ≠ NFail ∧ e ≠ NShort 0.
Proof. intros [->|(-> & -> & ->)] Hok; [by apply Forall_cons in Hok as [? _]|done]. Qed.

Lemma wp_next_net {A} (k : net_event → M Socket A) s w Q E D :
  (∀ e evs', pops (sk_events s) e evs' → wp (k e) (sk_set_events evs' s) w Q E D) →
  wp (next_net ≫= k) s w Q E D.
Proof.
  intros Hk. unfold next_net. apply wp_bind_assoc, wp_bind_get. destruct s as [o p st tk d evs]. cbn [sk_events]. destruct evs as [|e evs].
  - apply wp_bind_ret. apply (Hk NOk []). by right.
  - apply wp_bind_assoc, wp_bind_put, wp_bind_ret. apply Hk. by left.
Qed.

Lemma wp_check_sock {A} what (k : unit → M Socket A) s w Q E D : sk_open s = true →
  wp (k tt) s w Q E D → wp (SocketOps.check_open what ≫= k) s w Q E D.
Proof. intros Ho Hk. unfold SocketOps.check_open. apply wp_bind_assoc, wp_bind_get. rewrite Ho. by apply wp_bind_ret. Qed.

(** One transfer out. *)
Lemma wp_send_some {A} bs (k : Z → M Socket A) s w Q E D : sk_down s = false →
  (∀ n evs', evs' `suffix_of` sk_events s → 0 ≤ n ≤ sz bs → (net_ok (sk_events s) → bs ≠ [] → 0 < n) →
     wp (k n) (sk_set_sent (sk_sent s ++ take (Z.to_nat n) bs) (sk_set_events evs' s)) w Q E D) →
  (∀ evs', evs' `suffix_of` sk_events s → ¬ net_ok (sk_events s) → wp (k (-1)) (sk_set_events evs' s) w Q E D) →
  wp (platform_socket.send_some bs ≫= k) s w Q E D.
Proof.
  intros Hd Hn Hf. unfold platform_socket.send_some. apply wp_bind_assoc, wp_next_net. intros e evs' Hp.
  pose proof (pops_suffix _ _ _ Hp) as Hs. pose proof (pops_ok _ _ _ Hp) as Hok. apply wp_bind_assoc, wp_bind_get.
  cbn [sk_down sk_set_events]. rewrite Hd. pose proof (sz_nonneg bs) as Hnn. unfold platform_socket.chunk_len, platform_socket.kMaxChunk.
  assert (Hgo : ∀ n, 0 ≤ n ≤ sz bs → (net_ok (sk_events s) → bs ≠ [] → 0 < n) →
    wp (put (sk_set_sent (sk_sent (sk_set_events evs' s) ++ take (Z.to_nat n) bs) (sk_set_events evs' s));;
        mret (sz (take (Z.to_nat n) bs))) (sk_set_events evs' s) w (λ a s1 w1, wp (k a) s1 w1 Q E D) (λ _ _ _, False) (λ _, False)).
  { intros n Hr Hpos. unfold wp at 1. cbn. split; [done|]. replace (sz (take (Z.to_nat n) bs)) with n; [by apply Hn|].
    unfold sz in *. rewrite length_take. lia. }
  assert (Hpos : bs ≠ [] → 0 < sz bs) by (destruct bs; [done|intros _; rewrite sz_cons; pose proof (sz_nonneg bs); lia]).
  destruct e as [| |j|]; (eapply wp_bind; [|intros a s1 w1 _ Ha; exact Ha|done|done]).
  - apply Hgo; [lia|intros _ ?%Hpos; lia].
  - unfold wp. cbn. split; [done|]. apply Hf; [done|]. intros Hall. by destruct (Hok Hall).
  - apply Hgo; [lia|]. intros Hall Hb. destruct (Hok Hall) as [_ Hj]. assert (j ≠ 0%nat) by congruence. specialize (Hpos Hb). lia.
  - apply Hgo; [lia|intros _ ?%Hpos; lia].
Qed.
(** The socket after these bytes went out. *)
Definition told (bs : bytes) (evs' : list net_event) (s : Socket) : Socket :=
  sk_set_sent (sk_sent s ++ bs) (sk_set_events evs' s).

Lemma told_told b1 b2 e1 e2 s : told b2 e2 (told b1 e1 s) = told (b1 ++ b2) e2 s.
Proof. unfold told, sk_set_sent, sk_set_events. cbn. by rewrite app_assoc. Qed.

Lemma wp_send_loop fuel bs : ∀ sent s w, 0 ≤ sent ≤ sz bs → sz bs - sent < Z.of_nat fuel → sk_down s = false →
  wp (SocketOps.send_loop fuel bs sent) s w
    (λ _ s' w', w' = w ∧ ∃ evs', evs' `suffix_of` sk_events s ∧ s' = told (drop (Z.to_nat sent) bs) evs' s)
    (λ _ s' w', w' = w ∧ ¬ net_ok (sk_events s) ∧ ∃ pre evs', pre `prefix_of` drop (Z.to_nat sent) bs ∧ s' = told pre evs' s) (λ _, False).
Proof.
  induction fuel as [|fuel IH]; intros sent s w Hs Hf Hd; [lia|]. cbn [SocketOps.send_loop].
  assert (Hself : s = told [] (sk_events s) s) by (destruct s; unfold told, sk_set_sent, sk_set_events; cbn; by rewrite app_nil_r).
  destruct (Z.ltb_spec sent (sz bs)) as [Hlt|Hge].
  2: { apply wp_ret. split; [done|]. exists (sk_events s). split; [done|].
       rewrite drop_ge; [exact Hself|]. unfold sz in *. lia. }
  set (rest := drop (Z.to_nat sent) bs). assert (Hrest : sz rest = sz bs - sent) by (unfold rest, sz in *; rewrite length_drop; lia).
  apply wp_send_some; [done|..].
  - intros n evs' Hsuf Hn Hpos. rewrite (proj2 (Z.ltb_ge _ _)) by lia. fold (told (take (Z.to_nat n) rest) evs' s).
    destruct (Z.eqb_spec n 0) as [->|Hn0].
    + apply wp_fail. split; [done|]. split.
      * intros Hok. assert (0 < 0); [|lia]. apply Hpos; [done|]. intros E. rewrite E in Hrest. change (sz []) with 0 in Hrest. lia.
      * exists [], evs'. split; [apply prefix_nil|done].
    + eapply wp_mono; [apply IH; [lia|lia|done]|..]; cbn beta; [| |done].
      * intros _ s' w' _ (-> & evs2 & Hsuf2 & ->). split; [done|]. exists evs2. split; [by etrans|]. rewrite told_told. f_equal.
        unfold rest. rewrite Z2Nat.inj_add, <-drop_drop, take_drop by lia. done.
      * intros e s' w' _ (-> & Hbad & pre & evs2 & Hpre & ->). split; [done|]. split.
        -- intros Hok. apply Hbad. by eapply net_ok_suffix.
        -- exists (take (Z.to_nat n) rest ++ pre), evs2. rewrite told_told. split; [|done].
           rewrite <-(take_drop (Z.to_nat n) rest) at 2. apply prefix_app. unfold rest. rewrite drop_drop.
           by rewrite <-Z2Nat.inj_add by lia.
  - intros evs' Hsuf Hbad. rewrite (proj2 (Z.ltb_lt _ _)) by lia. apply wp_fail. split; [done|]. split; [done|].
    exists [], evs'. split; [apply prefix_nil|]. destruct s. unfold told, sk_set_sent, sk_set_events. cbn. by rewrite app_nil_r.
Qed.

Lemma wp_send_all bs s w : sk_open s = true → sk_down s = false →
  wp (SocketOps.send_all bs) s w
    (λ _ s' w', w' = w ∧ ∃ evs', evs' `suffix_of` sk_events s ∧ s' = told bs evs' s)
    (λ _ s' w', w' = w ∧ ¬ net_ok (sk_events s) ∧ ∃ pre evs', pre `prefix_of` bs ∧ s' = told pre evs' s) (λ _, False).
Proof.
  intros Ho Hd. unfold SocketOps.send_all. apply wp_check_sock; [done|].
  pose proof (sz_nonneg bs). apply (wp_send_loop (S (length bs)) bs 0 s w); [lia|unfold sz; lia|done].
Qed.

(** Receiving. *)
Definition heard (n : nat) (evs' : list net_event) (s : Socket) : Socket :=
  sk_set_taken (sk_taken s + n) (sk_set_events evs' s).

Lemma arrived_heard n evs' s : arrived (heard n evs' s) = drop n (arrived s).
Proof. unfold arrived, heard. cbn. by rewrite drop_drop. Qed.

Lemma wp_recv count {A} (k : option bytes → M Socket A) s w Q (E : Status → Socket → World → Prop) D : sk_open s = true → 0 < count →
  (∀ n evs', evs' `suffix_of` sk_events s → (0 < n ≤ length (arrived s))%nat →
     wp (k (Some (take n (arrived s)))) (heard n evs' s) w Q E D) →
  (∀ evs', evs' `suffix_of` sk_events s → arrived s = [] →
     wp (k (if ended s then Some [] else None)) (sk_set_events evs' s) w Q E D) →
  (∀ e evs', evs' `suffix_of` sk_events s → ¬ net_ok (sk_events s) → E e (sk_set_events evs' s) w) →
  wp (SocketOps.recv_some count ≫= k) s w Q E D.
Proof.
  intros Ho Hc Hgot Hnone Hf. unfold SocketOps.recv_some, platform_socket.recv_some. apply wp_bind_assoc, wp_check_sock; [done|].
  rewrite (proj2 (Z.eqb_neq _ _)) by lia. do 2 apply wp_bind_assoc. apply wp_next_net. intros e evs' Hp.
  pose proof (pops_suffix _ _ _ Hp) as Hs. pose proof (pops_ok _ _ _ Hp) as Hok. apply wp_bind_assoc, wp_bind_get.
  change (arrived (sk_set_events evs' s)) with (arrived s). change (ended (sk_set_events evs' s)) with (ended s).
  assert (Hdry : arrived s = [] → wp (mret (if ended s then RecvBytes [] else Waits) ≫= λ r,
      match r with RecvFailed => fail (io_error (lit "recv: " ++ os_error_text)) | RecvBytes bs => mret (Some bs) | Waits => mret None end ≫= k)
      (sk_set_events evs' s) w Q E D).
  { intros Ea. apply wp_bind_ret. specialize (Hnone evs' Hs Ea). destruct (ended s); by apply wp_bind_ret. }
  assert (Htake : ∀ n, 0 < n → arrived s ≠ [] → wp (
      (put (sk_set_taken (sk_taken (sk_set_events evs' s) + length (take (Z.to_nat n) (arrived s))) (sk_set_events evs' s));;
       mret (RecvBytes (take (Z.to_nat n) (arrived s)))) ≫= λ r,
      match r with RecvFailed => fail (io_error (lit "recv: " ++ os_error_text)) | RecvBytes bs => mret (Some bs) | Waits => mret None end ≫= k)
      (sk_set_events evs' s) w Q E D).
  { intros n Hn Ha. apply wp_bind_assoc, wp_bind_put. do 2 apply wp_bind_ret.
    set (j := Nat.min (Z.to_nat n) (length (arrived s))). assert (Hl : (0 < length (arrived s))%nat) by (destruct (arrived s); [done|cbn; lia]).
    specialize (Hgot j evs' Hs ltac:(lia)). rewrite length_take. replace (take (Z.to_nat n) (arrived s)) with (take j (arrived s)); [exact Hgot|].
    unfold j. destruct (Nat.min_spec (Z.to_nat n) (length (arrived s))) as [[? ->]|[? ->]]; [done|]. by rewrite !take_ge by lia. }
  assert (Hcl : 0 < platform_socket.chunk_len count) by (unfold platform_socket.chunk_len, platform_socket.kMaxChunk; lia).
  destruct e as [| |j|]; destruct (arrived s) as [|x rest] eqn:Ea.
  all: try (by apply Hdry).
  all: try (by apply Htake; [lia|done]).
  all: apply wp_bind_ret; unfold fail; cbn; unfold wp; cbn; split; [done|]; apply Hf; [done|]; intros Hall; by destruct (Hok Hall).
Qed.
Lemma wp_sock_recv count s w : sk_open s = true → 0 < count →
  wp (SocketOps.recv_some count) s w
    (λ r s' w', w' = w ∧ ∃ evs', evs' `suffix_of` sk_events s ∧
       ((∃ n, (0 < n ≤ length (arrived s))%nat ∧ r = Some (take n (arrived s)) ∧ s' = heard n evs' s) ∨
        (arrived s = [] ∧ r = (if ended s then Some [] else None) ∧ s' = sk_set_events evs' s)))
    (λ _ s' w', w' = w ∧ ¬ net_ok (sk_events s) ∧ ∃ evs', evs' `suffix_of` sk_events s ∧ s' = sk_set_events evs' s) (λ _, False).
Proof.
  intros Ho Hc. assert (Hret : ∀ (m : M Socket (option bytes)) Q E D, wp (m ≫= λ a, mret a) s w Q E D → wp m s w Q E D).
  { intros m Q E D. unfold wp, mbind, M_bind, mret, M_ret. by destruct (m s w). }
  apply Hret, wp_recv; [done|done|..].
  - intros n evs' Hs Hn. apply wp_ret. split; [done|]. exists evs'. split; [done|]. left. by exists n.
  - intros evs' Hs Ha. apply wp_ret. split; [done|]. exists evs'. split; [done|]. by right.
  - intros e evs' Hs Hbad. split; [done|]. split; [done|]. by exists evs'.
Qed.

(** * The reader *)

(** The bytes a reader has not handed out: its buffer, and what is still in the socket. *)
Definition unread (lk : Link) : bytes := buf_ (lk_reader lk) ++ arrived (lk_sock lk).

(** No more has been received than was sent. *)
Definition within (s : Socket) : Prop := (sk_taken s ≤ length (sk_peer s (sk_sent s)).1)%nat.

(** The two ends stay what they are. *)
Record follows (lk lk' : Link) : Prop := {
  fo_open : sk_open (lk_sock lk') = sk_open (lk_sock lk);
  fo_peer : sk_peer (lk_sock lk') = sk_peer (lk_sock lk);
  fo_sent : sk_sent (lk_sock lk') = sk_sent (lk_sock lk);
  fo_down : sk_down (lk_sock lk') = sk_down (lk_sock lk);
  fo_events : sk_events (lk_sock lk') `suffix_of` sk_events (lk_sock lk);
  fo_max : max_frame_ (lk_reader lk') = max_frame_ (lk_reader lk);
  fo_timeout : poll_timeout_ms (lk_reader lk') = poll_timeout_ms (lk_reader lk);
  fo_cancelled : cancelled (lk_reader lk') = cancelled (lk_reader lk);
  fo_within : within (lk_sock lk) → within (lk_sock lk');
}.

#[local] Instance follows_preorder : PreOrder follows.
Proof.
  split; [by split|]. intros l1 l2 l3 [A1 A2 A3 A4 A5 A6 A7 A8 A9] [B1 B2 B3 B4 B5 B6 B7 B8 B9].
  split; try congruence; [by etrans|auto].
Qed.

(** Reading ahead moves bytes from the socket to the buffer and does nothing else. *)
Definition advances (lk lk' : Link) : Prop := follows lk lk' ∧ unread lk' = unread lk.

#[local] Instance advances_preorder : PreOrder advances.
Proof. split; [done|]. intros l1 l2 l3 [A1 A2] [B1 B2]. split; [by etrans|congruence]. Qed.

Lemma follows_ended lk lk' : follows lk lk' → ended (lk_sock lk') = ended (lk_sock lk).
Proof. intros [_ A2 A3 A4 _ _ _ _ _]. unfold ended. by rewrite A2, A3, A4. Qed.

Lemma advances_events lk evs' : evs' `suffix_of` sk_events (lk_sock lk) → advances lk (set_sock (sk_set_events evs' (lk_sock lk)) lk).
Proof. intros Hs. split; [by split|done]. Qed.

Lemma advances_heard lk n evs' : evs' `suffix_of` sk_events (lk_sock lk) → (n ≤ length (arrived (lk_sock lk)))%nat →
  advances lk (set_buf (buf_ (lk_reader lk) ++ take n (arrived (lk_sock lk))) (set_sock (heard n evs' (lk_sock lk)) lk)).
Proof.
  intros Hs Hn. split.
  { split; try done. unfold within. unfold arrived in Hn. rewrite length_drop in Hn. cbn. lia. }
  unfold unread. cbn [set_buf set_sock lk_sock lk_reader buf_].
  by rewrite arrived_heard, <-app_assoc, take_drop.
Qed.

Lemma wp_wait_readable s w : sk_open s = true →
  wp SocketOps.wait_readable s w
    (λ b s' w', w' = w ∧ ∃ e evs', pops (sk_events s) e evs' ∧ s' = sk_set_events evs' s ∧
       (b = false → e = NTimeout ∨ arrived s = [] ∧ ended s = false) ∧ (b = true → arrived s ≠ [] ∨ ended s = true))
    (λ _ s' w', w' = w ∧ ¬ net_ok (sk_events s) ∧ ∃ evs', evs' `suffix_of` sk_events s ∧ s' = sk_set_events evs' s) (λ _, False).
Proof.
  intros Ho. unfold SocketOps.wait_readable. apply wp_check_sock; [done|]. unfold platform_socket.poll_readable.
  apply wp_bind_assoc, wp_next_net. intros e evs' Hp. pose proof (pops_suffix _ _ _ Hp) as Hs. pose proof (pops_ok _ _ _ Hp) as Hok.
  apply wp_bind_assoc, wp_bind_get, wp_bind_ret.
  change (arrived (sk_set_events evs' s)) with (arrived s). change (ended (sk_set_events evs' s)) with (ended s).
  assert (Hgo : ∀ rc, (rc = 0 → e = NTimeout ∨ arrived s = [] ∧ ended s = false) → (rc ≠ 0 → arrived s ≠ [] ∨ ended s = true) → 0 ≤ rc →
    wp (if rc <? 0 then fail (io_error (lit "poll: " ++ os_error_text)) else mret (0 <? rc)) (sk_set_events evs' s) w
      (λ b s' w', w' = w ∧ ∃ e evs', pops (sk_events s) e evs' ∧ s' = sk_set_events evs' s ∧
         (b = false → e = NTimeout ∨ arrived s = [] ∧ ended s = false) ∧ (b = true → arrived s ≠ [] ∨ ended s = true))
      (λ _ s' w', w' = w ∧ ¬ net_ok (sk_events s) ∧ ∃ evs', evs' `suffix_of` sk_events s ∧ s' = sk_set_events evs' s) (λ _, False)).
  { intros rc Hrc Hrc' H0. rewrite (proj2 (Z.ltb_ge _ _)) by lia. apply wp_ret. split; [done|]. exists e, evs'. split_and!; [done|done|..].
    - intros Hb%Z.ltb_ge. apply Hrc. lia.
    - intros Hb%Z.ltb_lt. apply Hrc'. lia. }
  assert (Hdata : ∀ rc, rc = (if negb (bool_decide (arrived s = [])) || ended s then 1 else 0) →
    (rc = 0 → e = NTimeout ∨ arrived s = [] ∧ ended s = false) ∧ (rc ≠ 0 → arrived s ≠ [] ∨ ended s = true) ∧ 0 ≤ rc).
  { intros rc ->. destruct (negb (bool_decide (arrived s = [])) || ended s) eqn:Eb; (split_and!; [|intros Hz|lia]); [lia|..].
    - rewrite orb_true_iff, negb_true_iff, bool_decide_eq_false in Eb. done.
    - intros _. right. by rewrite orb_false_iff, negb_false_iff, bool_decide_eq_true in Eb.
    - done. }
  destruct e; try (apply Hgo; by apply Hdata).
  - change (-1 <? 0) with true. cbv iota. apply wp_fail. split; [done|]. split; [intros Hall; by destruct (Hok Hall)|by exists evs'].
  - apply Hgo; [by left|done|done].
Qed.

Lemma wp_poll_step lk w : sk_open (lk_sock lk) = true →
  wp poll_step lk w
    (λ p lk' w', w' = w ∧ ∃ evs', evs' `suffix_of` sk_events (lk_sock lk) ∧ lk' = set_sock (sk_set_events evs' (lk_sock lk)) lk ∧
       match p with
       | ReadNow => 0 < poll_timeout_ms (lk_reader lk) → arrived (lk_sock lk) ≠ [] ∨ ended (lk_sock lk) = true
       | PollAgain => (length evs' < length (sk_events (lk_sock lk)))%nat
       | GiveUp FCancelled => cancelled (lk_reader lk) = Some true
       | GiveUp FWaits => arrived (lk_sock lk) = [] ∧ ended (lk_sock lk) = false ∧ cancelled (lk_reader lk) ≠ Some true
       | GiveUp _ => False
       end)
    (λ _ lk' w', w' = w ∧ ¬ net_ok (sk_events (lk_sock lk)) ∧ advances lk lk') (λ _, False).
Proof.
  intros Ho. unfold poll_step. apply wp_bind_get. destruct (Z.ltb_spec 0 (poll_timeout_ms (lk_reader lk))).
  2: { apply wp_ret. split; [done|]. exists (sk_events (lk_sock lk)). split_and!; [done| |lia]. by destruct lk as [[] []]. }
  unfold on_sock. eapply wp_bind_zoom; [by apply wp_wait_readable|..]; cbn beta; [| |done].
  2: { intros e s' w' _ (-> & Hbad & evs' & Hs & ->). split_and!; [done|done|by apply advances_events]. }
  intros b s' w' _ (-> & e & evs' & Hp & -> & Hb & Hb'). pose proof (pops_suffix _ _ _ Hp) as Hs.
  destruct b; [apply wp_ret; split; [done|]; exists evs'; split_and!; auto|]. specialize (Hb eq_refl). apply wp_bind_get. cbn [set_sock lk_reader lk_sock].
  case_bool_decide as Ec; [apply wp_ret; split; [done|]; by exists evs'|]. cbv zeta.
  set (s1 := sk_set_events evs' (lk_sock lk)).
  change (sk_events s1) with evs'. change (arrived s1) with (arrived (lk_sock lk)). change (ended s1) with (ended (lk_sock lk)).
  destruct (bool_decide (evs' = []) && bool_decide (arrived (lk_sock lk) = []) && negb (ended (lk_sock lk))) eqn:Eb; apply wp_ret;
    (split; [done|]); exists evs'; (split; [done|]); (split; [done|]).
  - rewrite !andb_true_iff, !bool_decide_eq_true, negb_true_iff in Eb. naive_solver.
  - destruct Hp as [->|(-> & -> & ->)]; [cbn; lia|]. destruct Hb as [?|[Ea Ee]]; [done|]. by rewrite Ea, Ee in Eb.
Qed.

(** What a fill leaves. *)
Definition filled (wanted : Z) (lk : Link) (f : Fill) (lk' : Link) : Prop :=
  advances lk lk' ∧
  match f with
  | Filled => wanted ≤ sz (buf_ (lk_reader lk'))
  | FPeerClosed => arrived (lk_sock lk') = [] ∧ ended (lk_sock lk) = true ∧ sz (unread lk) < wanted
  | FCancelled => cancelled (lk_reader lk) = Some true
  | FWaits => arrived (lk_sock lk') = [] ∧ ended (lk_sock lk) = false ∧ sz (unread lk) < wanted ∧
      (0 < poll_timeout_ms (lk_reader lk) → cancelled (lk_reader lk) ≠ Some true)
  end.

Lemma filled_trans wanted l1 l2 l3 f : advances l1 l2 → filled wanted l2 f l3 → filled wanted l1 f l3.
Proof.
  intros Ha [Hb Hf]. split; [by etrans|]. destruct Ha as [Hfo Hu]. rewrite <-(fo_timeout _ _ Hfo), <-(fo_cancelled _ _ Hfo), <-Hu, <-(follows_ended _ _ Hfo). done.
Qed.

Lemma unread_dry lk : arrived (lk_sock lk) = [] → unread lk = buf_ (lk_reader lk).
Proof. intros E. unfold unread. by rewrite E, app_nil_r. Qed.

Lemma wp_fill_loop wanted fuel : ∀ lk w, sk_open (lk_sock lk) = true →
  Z.of_nat (length (sk_events (lk_sock lk))) + Z.max 0 (wanted - sz (buf_ (lk_reader lk))) < Z.of_nat fuel →
  wp (fill_loop fuel wanted) lk w
    (λ f lk' w', w' = w ∧ filled wanted lk f lk')
    (λ _ lk' w', w' = w ∧ ¬ net_ok (sk_events (lk_sock lk)) ∧ advances lk lk') (λ _, False).
Proof.
  induction fuel as [|fuel IH]; intros lk w Ho Hf.
  all: cbn [fill_loop].
  { lia. }
  apply wp_bind_get. destruct (Z.ltb_spec (sz (buf_ (lk_reader lk))) wanted) as [Hlt|Hge].
  2: { apply wp_ret. split; [done|]. split; [done|lia]. }
  wp_call (wp_poll_step lk w Ho). intros p lk1 w1 _ (-> & evs1 & Hs1 & -> & Hp). pose proof (advances_events lk evs1 Hs1) as Ha1.
  pose proof (suffix_length _ _ Hs1) as Hl1. set (lk1 := set_sock (sk_set_events evs1 (lk_sock lk)) lk) in *.
  assert (Hrec : ∀ lk2, advances lk lk2 → Z.of_nat (length (sk_events (lk_sock lk2))) + Z.max 0 (wanted - sz (buf_ (lk_reader lk2))) < Z.of_nat fuel →
    wp (fill_loop fuel wanted) lk2 w (λ f lk' w', w' = w ∧ filled wanted lk f lk')
      (λ _ lk' w', w' = w ∧ ¬ net_ok (sk_events (lk_sock lk)) ∧ advances lk lk') (λ _, False)).
  { intros lk2 Ha Hm. eapply wp_mono; [apply (IH lk2 w); [by rewrite (fo_open _ _ (proj1 Ha))|done]|..]; cbn beta; [| |done].
    - intros f lk' w' _ [-> Hfi]. split; [done|]. by eapply filled_trans.
    - intros e lk' w' _ (-> & Hbad & Ha'). split_and!; [done| |by etrans]. intros Hok. apply Hbad. eapply net_ok_suffix; [by apply fo_events, Ha|done]. }
  destruct p as [| |f].
  - cbv zeta. set (ask := Z.max _ _). assert (Hask : 0 < ask) by (unfold ask, kReadChunk; lia).
    assert (Ho1 : sk_open (lk_sock lk1) = true) by done.
    unfold on_sock. eapply wp_bind_zoom; [by apply (wp_sock_recv ask (lk_sock lk1) w)|..]; cbn beta; [| |done].
    + intros r s2 w2 _ (-> & evs2 & Hs2 & Hr). assert (Hs : evs2 `suffix_of` sk_events (lk_sock lk)) by (by etrans).
      change (arrived (lk_sock lk1)) with (arrived (lk_sock lk)) in Hr. change (ended (lk_sock lk1)) with (ended (lk_sock lk)) in Hr.
      destruct Hr as [(n & Hn & -> & ->)|(Ea & -> & ->)].
      * apply wp_bind_modify. pose proof (advances_heard lk n evs2 Hs (proj2 Hn)) as Ha. apply suffix_length in Hs.
        assert (Hsz : sz (take n (arrived (lk_sock lk))) = Z.of_nat n) by (unfold sz; rewrite length_take; lia).
        rewrite (proj2 (Z.eqb_neq _ _)) by lia. apply Hrec; [exact Ha|]. cbn [set_buf set_sock lk_reader lk_sock buf_ heard sk_events sk_set_taken sk_set_events].
        rewrite sz_app. lia.
      * pose proof (advances_events lk evs2 Hs) as Ha. assert (Hshort : sz (unread lk) < wanted) by (by rewrite unread_dry).
        destruct (ended (lk_sock lk)) eqn:Ee; [|apply wp_ret; split; [done|]; split; [exact Ha|]; split_and!; try done; intros Ht; destruct (Hp Ht); congruence]. apply wp_bind_modify. cbn [sz length]. apply wp_ret.
        split; [done|]. rewrite app_nil_r. split; [|done]. destruct lk as [s0 []]. exact Ha.
    + intros e s2 w2 _ (-> & Hbad & evs2 & Hs2 & ->). assert (Hs : evs2 `suffix_of` sk_events (lk_sock lk)) by (by etrans).
      split; [done|]. split; [intros Hok; apply Hbad; by eapply net_ok_suffix|by apply (advances_events lk evs2)].
  - apply Hrec; [done|]. cbn. lia.
  - apply wp_ret. split; [done|]. split; [done|]. destruct f; try done. destruct Hp as (Ea & Ee & Ec). split_and!; [done|done| |done].
    rewrite unread_dry by done. done.
Qed.

Lemma wp_fill_to wanted lk w : sk_open (lk_sock lk) = true →
  wp (fill_to wanted) lk w
    (λ f lk' w', w' = w ∧ filled wanted lk f lk')
    (λ _ lk' w', w' = w ∧ ¬ net_ok (sk_events (lk_sock lk)) ∧ advances lk lk') (λ _, False).
Proof.
  intros Ho. unfold fill_to. apply wp_bind_get. apply wp_fill_loop; [done|]. pose proof (sz_nonneg (buf_ (lk_reader lk))). lia.
Qed.

(** * Frames *)

(** A payload on the wire. *)
Definition frame (payload : bytes) : bytes := protocol.be32 (sz payload) ++ payload.

Lemma sz_frame p : sz (frame p) = 4 + sz p.
Proof. unfold frame. by rewrite sz_app, protocol.sz_be32. Qed.

Lemma wp_write_frame payload s w : sk_open s = true → sk_down s = false →
  wp (write_frame payload) s w
    (λ _ s' w', w' = w ∧ sz payload ≤ protocol.kMaxFrameSize ∧ ∃ evs', evs' `suffix_of` sk_events s ∧ s' = told (frame payload) evs' s)
    (λ e s' w', w' = w ∧ (protocol.kMaxFrameSize < sz payload ∧ s' = s ∧ code_ e = InvalidArgument ∨
       ¬ net_ok (sk_events s) ∧ ∃ pre evs', pre `prefix_of` frame payload ∧ s' = told pre evs' s)) (λ _, False).
Proof.
  intros Ho Hd. unfold write_frame. destruct (Z.ltb_spec protocol.kMaxFrameSize (sz payload)) as [Hbig|Hfit].
  { apply wp_fail. split; [done|]. by left. }
  pose proof (sz_nonneg payload). cbv zeta. rewrite protocol.append_be32, u32_id by (unfold protocol.kMaxFrameSize, UINT32_MAX in *; lia).
  eapply wp_mono; [by apply wp_send_all|..]; cbn beta; [| |done].
  - intros _ s' w' _ (-> & evs' & Hs & ->). split_and!; [done|done|]. by exists evs'.
  - intros e s' w' _ (-> & Hbad & pre & evs' & Hpre & ->). split; [done|]. right. split; [done|]. by exists pre, evs'.
Qed.

(** What a stream starts with, given whether it ends there. *)
Inductive parsed : Type :=
| PFrame (payload rest : bytes)    (* a whole frame *)
| PEnd                             (* nothing, and nothing will follow *)
| PMore                            (* less than a frame; the rest may follow *)
| PBroken.                         (* less than a frame, and nothing will follow; or a length past the cap *)

Definition parse_frame (cap : Z) (over : bool) (u : bytes) : parsed :=
  if sz u <? 4 then if over then (if sz u =? 0 then PEnd else PBroken) else PMore
  else
    let len := le_combine (rev (take 4 u)) in
    if cap <? len then PBroken
    else if sz u <? 4 + len then (if over then PBroken else PMore)
    else PFrame (slice u 4 len) (drop (Z.to_nat (4 + len)) u).

Lemma parse_frame_inv cap over u p rest : parse_frame cap over u = PFrame p rest → u = frame p ++ rest ∧ sz p ≤ cap.
Proof.
  unfold parse_frame. destruct (Z.ltb_spec (sz u) 4); [by destruct over, (sz u =? 0)|]. cbv zeta. set (len := le_combine (rev (take 4 u))).
  assert (Hlen : length (take 4 u) = 4%nat) by (rewrite length_take; unfold sz in *; lia).
  assert (Hr : 0 ≤ len) by (unfold len; pose proof (le_combine_bound (rev (take 4 u))); lia).
  destruct (Z.ltb_spec cap len); [done|]. destruct (Z.ltb_spec (sz u) (4 + len)); [by destruct over|]. intros [= <- <-].
  assert (Hsz : sz (slice u 4 len) = len) by (unfold slice, sz in *; rewrite length_take, length_drop; lia).
  split; [|lia]. unfold frame. rewrite Hsz. replace (protocol.be32 len) with (take 4 u).
  - rewrite <-app_assoc. rewrite <-(take_drop 4 u) at 1. f_equal. unfold slice. rewrite Z2Nat.inj_add by lia.
    change (Z.to_nat 4) with 4%nat. rewrite <-drop_drop. by rewrite take_drop.
  - unfold len. rewrite split_le_combine' by (by rewrite length_rev). by rewrite rev_involutive.
Qed.

Lemma parse_frame_app cap over p rest : sz p ≤ cap → cap ≤ UINT32_MAX → parse_frame cap over (frame p ++ rest) = PFrame p rest.
Proof.
  intros Hp Hc. pose proof (sz_nonneg p). pose proof (sz_nonneg rest). unfold parse_frame. rewrite sz_app, sz_frame.
  rewrite (proj2 (Z.ltb_ge _ _)) by lia. cbv zeta.
  replace (take 4 (frame p ++ rest)) with (protocol.be32 (sz p)) by done. rewrite rev_involutive, le_combine_le32 by lia.
  rewrite !(proj2 (Z.ltb_ge _ _)) by lia. f_equal.
  - unfold frame. rewrite <-app_assoc. by apply slice_mid.
  - apply drop_app_length'. pose proof (sz_frame p) as E. unfold sz in *. lia.
Qed.

(** What [read_frame] answers for a stream. *)
Definition reads_as (cap : Z) (over : bool) (u : bytes) (r : FrameStatus) (u' : bytes) : Prop :=
  match r with
  | Complete p => parse_frame cap over u = PFrame p u'
  | PeerClosed => parse_frame cap over u = PEnd ∧ u' = u
  | StillWaits => parse_frame cap over u = PMore ∧ u' = u
  | Cancelled => True
  end.

(** The length prefix, read from the buffer once it is there. *)
Lemma prefix_read lk : 4 ≤ sz (buf_ (lk_reader lk)) →
  wire.get_u32 (buf_ (lk_reader lk)) 0 = ROk (le_combine (rev (take 4 (unread lk)))).
Proof.
  intros Hb. rewrite protocol.get_be32_slice by lia. unfold slice, unread. cbn [Z.to_nat drop]. rewrite take_app_le; [done|].
  unfold sz in Hb. change (Pos.to_nat 4) with 4%nat. lia.
Qed.

Lemma prefix_range (u : bytes) : 0 ≤ le_combine (rev (take 4 u)) ≤ UINT32_MAX.
Proof.
  pose proof (le_combine_bound (rev (take 4 u))) as Hb. rewrite length_rev, length_take in Hb. unfold UINT32_MAX.
  assert (2 ^ (8 * Z.of_nat (Nat.min 4 (length u))) ≤ 2 ^ 32) by (apply Z.pow_le_mono_r; lia). lia.
Qed.

(** The second half of [read_frame]. *)
Lemma wp_read_payload lk w len : sk_open (lk_sock lk) = true → 4 ≤ sz (unread lk) → len = le_combine (rev (take 4 (unread lk))) →
  len ≤ max_frame_ (lk_reader lk) →
  wp (have_payload ← fill_to (4 + len);
      match have_payload with
      | FCancelled => mret Cancelled
      | FWaits => mret StillWaits
      | FPeerClosed =>
          lk ← get;
          fail (corruption (lit "connection ended after " ++
            std_to_string (sz (buf_ (lk_reader lk)) - 4) ++ lit " of " ++ std_to_string len ++ lit " payload bytes"))
      | Filled =>
          lk ← get;
          let buf := buf_ (lk_reader lk) in
          modify (set_buf (drop (Z.to_nat (4 + len)) buf));;
          mret (Complete (slice buf 4 len))
      end) lk w
    (λ r lk' w', w' = w ∧ follows lk lk' ∧ (r = Cancelled → cancelled (lk_reader lk) = Some true) ∧
       (r = StillWaits → 0 < poll_timeout_ms (lk_reader lk) → cancelled (lk_reader lk) ≠ Some true) ∧
       reads_as (max_frame_ (lk_reader lk)) (ended (lk_sock lk)) (unread lk) r (unread lk'))
    (λ e lk' w', w' = w ∧ follows lk lk' ∧
       (code_ e = Corruption ∧ parse_frame (max_frame_ (lk_reader lk)) (ended (lk_sock lk)) (unread lk) = PBroken ∨
        ¬ net_ok (sk_events (lk_sock lk)))) (λ _, False).
Proof.
  intros Ho H4 Elen Hcap. pose proof (prefix_range (unread lk)) as Hr. rewrite <-Elen in Hr.
  set (u := unread lk) in *. set (over := ended (lk_sock lk)). set (cap := max_frame_ (lk_reader lk)) in *.
  assert (Hp : parse_frame cap over u = if sz u <? 4 + len then (if over then PBroken else PMore)
    else PFrame (slice u 4 len) (drop (Z.to_nat (4 + len)) u)).
  { unfold parse_frame. rewrite (proj2 (Z.ltb_ge _ 4)) by lia. cbv zeta. rewrite <-Elen. by rewrite (proj2 (Z.ltb_ge cap len)) by lia. }
  wp_call (wp_fill_to (4 + len) lk w Ho).
  2: { intros e lk1 w1 _ (-> & Hbad & [Hf _]). split; [done|]. split; [done|by right]. }
  intros f lk1 w1 _ (-> & [[Hf1 Hu1] Hfill]). fold u over in Hu1, Hfill. destruct f.
  - apply wp_bind_get. cbv zeta. apply wp_bind_modify, wp_ret. set (buf := buf_ (lk_reader lk1)) in *.
    assert (Hbuf : (Z.to_nat (4 + len) ≤ length buf)%nat) by (unfold sz in Hfill; lia).
    assert (Eu : u = buf ++ arrived (lk_sock lk1)) by (by rewrite <-Hu1). split; [done|]. split; [by destruct Hf1|]. do 2 (split; [done|]).
    cbn [reads_as]. rewrite Hp, (proj2 (Z.ltb_ge _ _)) by (rewrite Eu, sz_app; pose proof (sz_nonneg (arrived (lk_sock lk1))); lia).
    rewrite Eu. f_equal.
    + unfold slice. rewrite drop_app_le by lia. rewrite take_app_le; [done|]. rewrite length_drop. lia.
    + unfold unread. cbn [set_buf lk_reader lk_sock buf_]. by rewrite drop_app_le by lia.
  - destruct Hfill as (Ea & Eo & Hlt). apply wp_bind_get, wp_fail. split_and!; [done|done|]. left. split; [done|].
    by rewrite Hp, (proj2 (Z.ltb_lt _ _)), Eo by done.
  - apply wp_ret. by split_and!.
  - destruct Hfill as (Ea & Eo & Hlt & Hpoll). apply wp_ret. do 4 (split; [done|]). split; [|done].
    by rewrite Hp, (proj2 (Z.ltb_lt _ _)), Eo by done.
Qed.

(** The reader on a stream. *)
Lemma wp_read_frame lk w : sk_open (lk_sock lk) = true →
  wp read_frame lk w
    (λ r lk' w', w' = w ∧ follows lk lk' ∧ (r = Cancelled → cancelled (lk_reader lk) = Some true) ∧
       (r = StillWaits → 0 < poll_timeout_ms (lk_reader lk) → cancelled (lk_reader lk) ≠ Some true) ∧
       reads_as (max_frame_ (lk_reader lk)) (ended (lk_sock lk)) (unread lk) r (unread lk'))
    (λ e lk' w', w' = w ∧ follows lk lk' ∧
       (code_ e = Corruption ∧ parse_frame (max_frame_ (lk_reader lk)) (ended (lk_sock lk)) (unread lk) = PBroken ∨
        ¬ net_ok (sk_events (lk_sock lk)))) (λ _, False).
Proof.
  intros Ho. unfold read_frame, protocol.kLengthPrefixSize. set (u := unread lk). set (over := ended (lk_sock lk)). set (cap := max_frame_ (lk_reader lk)).
  wp_call (wp_fill_to 4 lk w Ho).
  2: { intros e lk1 w1 _ (-> & Hbad & [Hf _]). split; [done|]. split; [done|by right]. }
  intros f lk1 w1 _ (-> & [[Hf1 Hu1] Hfill]). fold u over in Hu1, Hfill. destruct f.
  - apply wp_bind_get. rewrite prefix_read, Hu1 by done. apply wp_bind_ok. set (len := le_combine (rev (take 4 u))).
    assert (H4 : 4 ≤ sz u) by (rewrite <-Hu1; unfold unread; rewrite sz_app; pose proof (sz_nonneg (arrived (lk_sock lk1))); lia).
    rewrite (fo_max _ _ Hf1). fold cap. destruct (Z.ltb_spec cap len) as [Hbig|Hfit]; cbn [fail_when].
    { apply wp_bind_fail. split_and!; [done|done|]. left. split; [done|]. unfold parse_frame. fold len.
      by rewrite (proj2 (Z.ltb_ge _ 4)), (proj2 (Z.ltb_lt cap len)) by lia. }
    apply wp_bind_ret. cbv zeta. eapply wp_mono; [apply (wp_read_payload lk1 w len)|..]; cbn beta;
      rewrite ?Hu1, ?(fo_max _ _ Hf1), ?(fo_open _ _ Hf1), ?(follows_ended _ _ Hf1), ?(fo_cancelled _ _ Hf1), ?(fo_timeout _ _ Hf1); fold u over cap; try done.
    + intros r lk2 w2 _ (-> & Hf2 & Hc & Hwait & Hr). split_and!; [done|by etrans|done|done|done].
    + intros e lk2 w2 _ (-> & Hf2 & Hr). split_and!; [done|by etrans|]. destruct Hr as [?|Hbad]; [by left|]. right.
      intros Hok. apply Hbad. eapply net_ok_suffix; [by apply fo_events|done].
  - destruct Hfill as (Ea & Eo & Hlt). assert (Eb : buf_ (lk_reader lk1) = u) by (by rewrite <-Hu1, unread_dry).
    apply wp_bind_get. cbv zeta. rewrite Eb. assert (Hp : parse_frame cap over u = if sz u =? 0 then PEnd else PBroken).
    { unfold parse_frame. by rewrite (proj2 (Z.ltb_lt _ _)), Eo by done. }
    destruct (sz u =? 0); [apply wp_ret; by split_and!|]. apply wp_fail. split_and!; [done|done|]. by left.
  - apply wp_ret. by split_and!.
  - destruct Hfill as (Ea & Eo & Hlt & Hpoll). apply wp_ret. do 4 (split; [done|]). split; [|done].
    unfold parse_frame. by rewrite (proj2 (Z.ltb_lt _ _)), Eo by done.
Qed.

(** C17: Framing is independent of how the stream is cut.  However many transfers the bytes
    come in, whatever is left over from the previous call, [read_frame] hands out exactly
    the next frame of the stream and keeps exactly what follows it; it reports a hang-up
    only at a frame boundary, and Corruption only when the stream ends inside a frame or
    announces one past the cap. *)
Theorem frames_reassembled lk w : sk_open (lk_sock lk) = true →
  wp read_frame lk w
    (λ r lk' w', w' = w ∧ follows lk lk' ∧ (r = Cancelled → cancelled (lk_reader lk) = Some true) ∧
       (r = StillWaits → 0 < poll_timeout_ms (lk_reader lk) → cancelled (lk_reader lk) ≠ Some true) ∧
       reads_as (max_frame_ (lk_reader lk)) (ended (lk_sock lk)) (unread lk) r (unread lk'))
    (λ e lk' w', w' = w ∧ follows lk lk' ∧
       (code_ e = Corruption ∧ parse_frame (max_frame_ (lk_reader lk)) (ended (lk_sock lk)) (unread lk) = PBroken ∨
        ¬ net_ok (sk_events (lk_sock lk)))) (λ _, False).
Proof. apply wp_read_frame. Qed.
End Spec.
