(* ===== verification/Stores.v ===== *)
(** The storage interface [include/kvstore/kvstore.hpp] and its implementations:
    [src/memory_store.cpp], [src/locked_store.cpp], and the two engines.

    The interface is a class of operations.  What the header's comments promise is a second
    class, of laws; each implementation is an instance of both, so that a client of the
    interface is verified once, against the laws. *)

From S2P Require Import Prelude Status FileNames World Wp Encoding Record LogFile LogScan.
From S2P Require Import Bitcask BitcaskState BitcaskSteps BitcaskServe BitcaskDisk BitcaskRecover BitcaskCompactDisk BitcaskCompaction BitcaskSession.
From S2P Require Import LsmState Lsm LsmServe LsmReads LsmWrite LsmCalls LsmProps.
From S2P Require Import LsmBackground Protocol.

(** * The interface *)

(** The pure virtual methods of [class KVStore]. *)
Class KVStore (S : Type) := {
  kv_put : bytes → bytes → M S unit;
  kv_get : bytes → M S bytes;
  kv_remove : bytes → M S unit;
}.

(** What the threads of an implementation do between calls: one round of their work. *)
Class Background (S : Type) := { kv_round : M S unit }.

(** What an implementation promises: there is a map it holds; a put binds, a remove unbinds,
    a get looks up; a call that fails has changed nothing; a process that dies leaves the
    map as it was before or after the call; its own threads leave the map alone.  [kv_ready]
    and [kv_calm] are the limits within which it promises this. *)
Class Contract (S : Type) `{KVStore S} `{Background S} := {
  kv_holds : S → World → gmap bytes bytes → Prop;
  kv_left : World → gmap bytes bytes → Prop;
  kv_ready : Request → S → World → Prop;
  kv_calm : S → World → Prop;
  kv_put_law k v s w m : kv_holds s w m → kv_ready (mkRequest OpPut k v) s w →
    wp (kv_put k v) s w
      (λ _ s' w', k ≠ [] ∧ kv_holds s' w' (<[k := v]> m))
      (λ e s' w', is_ok e = false ∧ kv_holds s' w' m)
      (λ w', kv_left w' m ∨ kv_left w' (<[k := v]> m));
  kv_get_law k s w m : kv_holds s w m → kv_ready (mkRequest OpGet k []) s w →
    wp (kv_get k) s w
      (λ v s' w', m !! k = Some v ∧ kv_holds s' w' m)
      (λ e s' w', code_ e = NotFound ∧ m !! k = None ∧ kv_holds s' w' m)
      (λ w', kv_left w' m);
  kv_remove_law k s w m : kv_holds s w m → kv_ready (mkRequest OpDelete k []) s w →
    wp (kv_remove k) s w
      (λ _ s' w', kv_holds s' w' (delete k m))
      (λ e s' w', is_ok e = false ∧ kv_holds s' w' m)
      (λ w', kv_left w' m ∨ kv_left w' (delete k m));
  kv_round_law s w m : kv_holds s w m → kv_calm s w →
    wp kv_round s w (λ _ s' w', kv_holds s' w' m) (λ _ _ _, False) (λ w', kv_left w' m);
}.

(** * The store in memory *)

Record MemoryStore : Type := mkMemoryStore { ms_map : gmap bytes bytes }.

Module MemoryOps.

(** [MemoryStore::put]. *)
Definition put (key value : bytes) : M MemoryStore unit :=
  if sz key =? 0 then fail (invalid_argument (lit "key must not be empty"))
  else modify (λ s, mkMemoryStore (<[key := value]> (ms_map s))).

(** [MemoryStore::get]; the out-parameter is never null here. *)
Definition get (key : bytes) : M MemoryStore bytes :=
  s ← World.get;
  match ms_map s !! key with
  | None => fail (not_found (lit "no such key: " ++ key))
  | Some value => mret value
  end.

(** [MemoryStore::remove]. *)
Definition remove (key : bytes) : M MemoryStore unit :=
  modify (λ s, mkMemoryStore (delete key (ms_map s))).

(** [MemoryStore::size]. *)
Definition size (s : MemoryStore) : Z := Z.of_nat (base.size (ms_map s)).

End MemoryOps.

#[export] Instance memory_store : KVStore MemoryStore := {
  kv_put := MemoryOps.put;
  kv_get := MemoryOps.get;
  kv_remove := MemoryOps.remove;
}.

(** * The store behind a mutex *)

(** [LockedStore]: the store it wraps and the mutex. *)
Record LockedStore (S : Type) : Type := mkLockedStore { lk_inner : S; lk_held : bool }.
Arguments mkLockedStore {S} _ _.
Arguments lk_inner {S} _.
Arguments lk_held {S} _.

Module LockedOps.
Section LockedOps.
Context {S : Type} `{KVStore S}.

(** [std::lock_guard guard{mu_}; return inner_.call();]: the destructor of the guard runs on
    every way out.  Locking a mutex this thread holds never returns. *)
Definition guarded {A : Type} (call : M S A) : M (LockedStore S) A :=
  s ← World.get;
  if lk_held s then stuck
  else
    modify (λ s, mkLockedStore (lk_inner s) true);;
    r ← attempt (zoom lk_inner (λ i s, mkLockedStore i (lk_held s)) call);
    modify (λ s, mkLockedStore (lk_inner s) false);;
    match r with inl a => mret a | inr e => fail e end.

(** [LockedStore::put], [LockedStore::get], [LockedStore::remove]. *)
Definition put (key value : bytes) : M (LockedStore S) unit := guarded (kv_put key value).
Definition get (key : bytes) : M (LockedStore S) bytes := guarded (kv_get key).
Definition remove (key : bytes) : M (LockedStore S) unit := guarded (kv_remove key).

End LockedOps.
End LockedOps.

#[export] Instance locked_store {S} `{KVStore S} : KVStore (LockedStore S) := {
  kv_put := LockedOps.put;
  kv_get := LockedOps.get;
  kv_remove := LockedOps.remove;
}.

(** * The engines *)

#[export] Instance bitcask_store `{Platform} : KVStore Bitcask := {
  kv_put := BitcaskOps.put;
  kv_get := BitcaskOps.get;
  kv_remove := BitcaskOps.remove;
}.

#[export] Instance lsm_store `{Platform} : KVStore LsmStore := {
  kv_put := LsmOps.put;
  kv_get := LsmOps.get_value;
  kv_remove := LsmOps.remove;
}.

(** Only the LSM engine has a thread of its own; it does not take the lock of [LockedStore]. *)
#[export] Instance memory_idle : Background MemoryStore := { kv_round := mret tt }.
#[export] Instance bitcask_idle : Background Bitcask := { kv_round := mret tt }.
#[export] Instance locked_round {S} `{Background S} : Background (LockedStore S) := {
  kv_round := zoom lk_inner (λ i s, mkLockedStore i (lk_held s)) kv_round;
}.
#[export] Instance lsm_round `{Platform} : Background LsmStore := {
  kv_round := LsmOps.background_round;; mret tt;
}.

(** * The implementations keep the contract *)

#[export] Program Instance memory_contract : Contract MemoryStore := {
  kv_holds s w m := ms_map s = m;
  kv_left w m := False;
  kv_ready r s w := True;
  kv_calm s w := True;
}.
Next Obligation.
  intros k v s w m <- _. unfold kv_put, memory_store, MemoryOps.put. destruct (Z.eqb_spec (sz k) 0) as [E|E].
  - by apply wp_fail.
  - apply wp_modify. split; [|done]. intros ->. done.
Qed.
Next Obligation.
  intros k s w m <- _. unfold kv_get, memory_store, MemoryOps.get. apply wp_bind_get.
  destruct (ms_map s !! k) eqn:E; [by apply wp_ret|by apply wp_fail].
Qed.
Next Obligation. intros k s w m <- _. unfold kv_remove, memory_store, MemoryOps.remove. by apply wp_modify. Qed.
Next Obligation. intros s w m <- _. by apply wp_ret. Qed.

Lemma wp_guarded {S} `{KVStore S} {A} (call : M S A) s w (Q : A → S → World → Prop) E (D : World → Prop) : lk_held s = false →
  wp call (lk_inner s) w Q E D →
  wp (LockedOps.guarded call) s w (λ a s' w', lk_held s' = false ∧ Q a (lk_inner s') w')
    (λ e s' w', lk_held s' = false ∧ E e (lk_inner s') w') D.
Proof.
  intros Hl Hc. unfold LockedOps.guarded. apply wp_bind_get. rewrite Hl. apply wp_bind_modify.
  eapply wp_bind_attempt_zoom; [exact Hc|..]; cbn beta.
  - intros a i w' _ HQ. apply wp_bind_modify. by apply wp_ret.
  - intros e i w' _ HE. apply wp_bind_modify. by apply wp_fail.
  - done.
Qed.

#[export] Program Instance locked_contract {S} `{Contract S} : Contract (LockedStore S) := {
  kv_holds s w m := lk_held s = false ∧ kv_holds (lk_inner s) w m;
  kv_left w m := kv_left w m;
  kv_ready r s w := kv_ready r (lk_inner s) w;
  kv_calm s w := kv_calm (lk_inner s) w;
}.
Next Obligation.
  intros S HS HB HC k v s w m [Hl Hh] Hr. eapply wp_mono; [apply (wp_guarded _ s w _ _ _ Hl (kv_put_law k v _ w m Hh Hr))|..]; cbn beta; naive_solver.
Qed.
Next Obligation.
  intros S HS HB HC k s w m [Hl Hh] Hr. eapply wp_mono; [apply (wp_guarded _ s w _ _ _ Hl (kv_get_law k _ w m Hh Hr))|..]; cbn beta; naive_solver.
Qed.
Next Obligation.
  intros S HS HB HC k s w m [Hl Hh] Hr. eapply wp_mono; [apply (wp_guarded _ s w _ _ _ Hl (kv_remove_law k _ w m Hh Hr))|..]; cbn beta; naive_solver.
Qed.

Next Obligation.
  intros S HS HB HC s w m [Hl Hh] Hr. unfold kv_round, locked_round. apply wp_zoom.
  eapply wp_mono; [by apply (kv_round_law _ w m Hh Hr)|..]; cbn beta; [|done|done]. by intros _ s' w' _ Hh'.
Qed.

(** The size of a request, which a 64-bit [size_t] has to hold. *)
Definition request_size (r : Request) : Z := sz (rq_key r) + sz (rq_value r).

Section Engines.
Context `{Platform}.

Lemma bitcask_crash m m' w : BitcaskDisk.crash_left w m m' → BitcaskRecover.recoverable (w_files w) m ∨ BitcaskRecover.recoverable (w_files w) m'.
Proof. intros (hs & tl & Hd & Hp & [Hm|Hm]); [left|right]; by exists hs, tl. Qed.

#[export] Program Instance bitcask_contract : Contract Bitcask := {
  kv_holds b w m := BitcaskSession.sane (options_ b) ∧ ∃ hs, rep b w hs ∧ map_of hs = m;
  kv_left w m := BitcaskRecover.recoverable (w_files w) m;
  kv_ready r b w := reliable w ∧ active_id_ b ≠ UINT32_MAX ∧ request_size r ≤ UINT64_MAX;
  kv_calm b w := True;
}.
Next Obligation.
  intros k v b w m [Hsane (hs & Hr & <-)] (Hrel & Hid & Hmax). cbn [request_size rq_key rq_value] in Hmax.
  eapply wp_mono; [apply (wp_put_rep b w hs k v Hr (proj1 Hsane) Hmax Hid)|..]; cbn beta.
  - intros _ b' w' _ (Ho & [Hk _] & Hh). split; [done|]. split; [by rewrite Ho|done].
  - intros e b' w' _ He. destruct (He Hrel) as (-> & Hw & Hc & _). split; [unfold is_ok; by rewrite Hc|]. split; [done|].
    exists hs. split; [by eapply rep_files|done].
  - intros w' _ Hc. by apply bitcask_crash.
Qed.
Next Obligation.
  intros k b w m [Hsane (hs & Hr & <-)] (Hrel & _ & _).
  assert (Hsame : ∀ w', same_files w w' → BitcaskSession.sane (options_ b) ∧ ∃ hs', rep b w' hs' ∧ map_of hs' = map_of hs).
  { intros w' [Hw _]. split; [done|]. exists hs. split; [by eapply rep_files|done]. }
  eapply wp_mono; [by apply (wp_bitcask_get b w (map_of hs) k), rep_serves|..]; cbn beta.
  - intros v b' w' _ (Hk & -> & Hs). split; [done|by apply Hsame].
  - intros e b' w' _ (-> & Hs & [[Hk ->]|?]); [|done]. split; [done|]. split; [done|by apply Hsame].
  - intros w' _ Hs. by eapply rep_recoverable.
Qed.
Next Obligation.
  intros k b w m [Hsane (hs & Hr & <-)] (Hrel & Hid & Hmax).
  assert (Hmax' : sz k ≤ UINT64_MAX) by (change (sz k + 0 ≤ UINT64_MAX) in Hmax; lia).
  eapply wp_mono; [apply (wp_remove_rep b w hs k Hr (proj1 Hsane) Hmax' Hid)|..]; cbn beta.
  - intros _ b' w' _ (Ho & _ & Hh). split; [by rewrite Ho|done].
  - intros e b' w' _ He. destruct (He Hrel) as (-> & Hw & Hc & _). split; [unfold is_ok; by rewrite Hc|]. split; [done|].
    exists hs. split; [by eapply rep_files|done].
  - intros w' _ Hc. by apply bitcask_crash.
Qed.
Next Obligation. intros b w m Hh _. by apply wp_ret. Qed.

Lemma lsm_write_law st w m key value tomb : engine st w m → reliable w ∧ room_for st (w_files w) ∧ sz key + sz value ≤ UINT64_MAX →
  wp (LsmOps.write_entry key value tomb) st w
    (λ _ st' w', key ≠ [] ∧ engine st' w' (effect key value tomb m))
    (λ e st' w', is_ok e = false ∧ engine st' w' m)
    (λ w', LsmServe.recoverable (w_files w') m ∨ LsmServe.recoverable (w_files w') (effect key value tomb m)).
Proof.
  intros (Hb & c & xs & imm & Hs & <-) (Hrel & Hroom & Hmax).
  eapply wp_mono; [by apply (wp_write_entry c xs imm st w Hs Hrel Hb (room_roomy _ _ _ _ _ Hs Hroom))|..]; cbn beta; [| |done].
  - intros _ st' w' _ [[Hk _] Hc]. split; [done|by eapply changed_engine].
  - intros e st' w' _ [Hc Hcase]. split; [|by eapply changed_engine].
    destruct Hcase as [[He _]|[_ [_ He]]]; [unfold is_ok; by rewrite He|done].
Qed.

(** A round of the background thread leaves the database as it is. *)
Lemma engine_round st w m : engine st w m → reliable w → room_for st (w_files w) →
  wp (LsmOps.background_round;; mret tt) st w (λ _ st' w', engine st' w' m) (λ _ _ _, False) (λ w', LsmServe.recoverable (w_files w') m).
Proof.
  intros (Hb & c & xs & imm & Hs & <-) Hrel Hroom. destruct (room_roomy _ _ _ _ _ Hs Hroom) as [Hl Hi _]. pose proof (step_ids_pos c xs imm st) as Hpos.
  eapply wp_bind; [apply (wp_background_round c xs imm st w UINT32_MAX Hs Hrel Hb Hl); unfold kCallRounds, kRoundSteps in *; lia|..]; cbn beta; [|done|done].
  intros worked st' w' _ (c' & imm' & [[E1 _ _ _ _ E6] _ Hb' _] & _). apply wp_ret. split; [done|]. by exists c', xs, imm'.
Qed.

#[export] Program Instance lsm_contract : Contract LsmStore := {
  kv_holds st w m := engine st w m;
  kv_left w m := LsmServe.recoverable (w_files w) m;
  kv_ready r st w := reliable w ∧ (rq_op r ≠ OpGet → room_for st (w_files w) ∧ request_size r ≤ UINT64_MAX);
  kv_calm st w := reliable w ∧ room_for st (w_files w);
}.
Next Obligation. intros k v st w m Hh [Hrel Hr]. destruct (Hr ltac:(done)). by apply (lsm_write_law st w m k v false). Qed.
Next Obligation.
  intros k st w m (Hb & c & xs & imm & Hs & <-) [Hrel _].
  assert (Hkeep : ∀ st' w', reads c xs imm st w st' w' → engine st' w' (database c xs imm st)).
  { intros st' w' (Hs' & _ & El & _ & Eb). split; [by rewrite Eb|]. exists c, xs, imm. split; [done|]. unfold database. by rewrite El. }
  eapply wp_mono; [by apply (wp_get_value c xs imm st w k Hs)|..]; cbn beta; [naive_solver|naive_solver|done].
Qed.
Next Obligation.
  intros k st w m Hh [Hrel Hr]. destruct (Hr ltac:(done)). eapply wp_mono; [by apply (lsm_write_law st w m k [] true)|..]; cbn beta; naive_solver.
Qed.
Next Obligation. intros st w m Hh [Hrel Hroom]. by apply engine_round. Qed.
End Engines.
