(* ===== verification/Server.v ===== *)
(** The server: [include/kvstore/server.hpp], [src/server.cpp].

    Each connection has a thread that reads a frame, has the store answer it and writes the
    answer; the accept thread takes new connections and removes finished ones; [stop] may be
    called from any other thread.  A thread's step here is one pass of its loop: threads
    meet only in the store, whose calls are serialised by its lock, in the list of
    connections, which has a mutex, and in the flag [stopping_]. *)

From S2P Require Import Prelude Status FileNames World Wp Encoding Protocol Net Frames Stores.
Import FrameOps.

(** [ServerOptions] and the default member initialisers. *)
Record ServerOptions : Type := mkServerOptions {
  so_host : bytes;
  so_port : Z;
  so_backlog : Z;
  so_poll_timeout_ms : Z;
  so_max_frame : Z;
}.
Definition default_server_options : ServerOptions :=
  mkServerOptions (lit "127.0.0.1") 0 128 100 protocol.kMaxFrameSize.

(** [Server::Connection]: its socket with the thread's reader, and [finished].  The number
    tells connections apart; it is the value of [accepted_] when it was taken. *)
Record Connection : Type := mkConnection { cn_id : Z; cn_link : Link; cn_finished : bool }.

Record Server (S : Type) : Type := mkServer {
  sv_store : S;
  sv_options : ServerOptions;
  sv_listener : Listener;
  sv_stopping : bool;
  sv_accepting : bool;          (* the accept thread runs *)
  sv_conns : list Connection;
  sv_accepted : Z;
}.
Arguments mkServer {S} _ _ _ _ _ _ _.
Arguments sv_store {S} _.
Arguments sv_options {S} _.
Arguments sv_listener {S} _.
Arguments sv_stopping {S} _.
Arguments sv_accepting {S} _.
Arguments sv_conns {S} _.
Arguments sv_accepted {S} _.

(** How a pass of a connection's loop ends: the loop goes on, the thread waits for its client
    for good, or the thread returns. *)
Inductive Served : Type :=
| GoesOn (payload : bytes) (response : Response)
| KeepsWaiting
| Ends (last : option (bytes * Response)).   (* a request answered although the answer was not delivered *)

Module ServerOps.
Section ServerOps.
Context {S : Type} `{Platform} `{KVStore S}.

(** A status as a response. *)
Definition response_of (status : Status) : Response := mkResponse (code_ status) (message_ status).

(** [Server::handle]. *)
Definition handle (payload : bytes) : M S Response :=
  match protocol.decode_request payload with
  | Stuck => stuck
  | RErr status => mret (response_of status)
  | ROk request =>
      match rq_op request with
      | OpGet =>
          r ← attempt (kv_get (rq_key request));
          mret (match r with inl value => mkResponse COk value | inr status => response_of status end)
      | OpPut =>
          r ← attempt (kv_put (rq_key request) (rq_value request));
          mret (match r with inl _ => response_of ok | inr status => response_of status end)
      | OpDelete =>
          r ← attempt (kv_remove (rq_key request));
          mret (match r with inl _ => response_of ok | inr status => response_of status end)
      end
  end.

Definition on_link {A : Type} (m : M Link A) : M (Link * S) A := zoom fst (λ lk p, (lk, p.2)) m.
Definition on_kv {A : Type} (m : M S A) : M (Link * S) A := zoom snd (λ s p, (p.1, s)) m.

(** One pass of the loop of [Server::serve_connection]. *)
Definition serve_pass (stopping : bool) : M (Link * S) Served :=
  if stopping then mret (Ends None)
  else
    incoming ← attempt (on_link read_frame);
    match incoming with
    | inr _ => mret (Ends None)
    | inl PeerClosed => mret (Ends None)
    | inl Cancelled => mret (Ends None)
    | inl StillWaits => mret KeepsWaiting
    | inl (Complete payload) =>
        response ← on_kv (handle payload);
        sent ← attempt (on_link (on_sock (write_frame (protocol.encode_response response))));
        match sent with
        | inr _ => mret (Ends (Some (payload, response)))
        | inl _ => mret (GoesOn payload response)
        end
    end.

(** [Server::serve_connection], [fuel] passes of it. *)
Fixpoint serve_connection (fuel : nat) (stopping : bool) : M (Link * S) Served :=
  match fuel with
  | O => stuck
  | Datatypes.S fuel =>
      r ← serve_pass stopping;
      match r with GoesOn _ _ => serve_connection fuel stopping | _ => mret r end
  end.

(** [Server::start] and the constructor. *)
Definition start (sys : NetSystem) (store : S) (options : ServerOptions) : result (Server S) :=
  listener ← ListenerOps.bind sys (so_host options) (so_port options) (so_backlog options);
  mret (mkServer store options listener false true [] 0).

(** [Server::port]. *)
Definition port (sv : Server S) : Z := ls_port (sv_listener sv).

(** The reader a connection starts with. *)
Definition new_link (options : ServerOptions) (stopping : bool) (sock : Socket) : Link :=
  mkLink sock (mkFrameReader (so_max_frame options) (so_poll_timeout_ms options) (Some stopping) []).

(** [Server::reap_finished]: a finished thread is joined and its connection destroyed. *)
Definition reap_finished (sv : Server S) : Server S :=
  mkServer (sv_store sv) (sv_options sv) (sv_listener sv) (sv_stopping sv) (sv_accepting sv)
    (filter (λ c, cn_finished c = false) (sv_conns sv)) (sv_accepted sv).

Definition set_listener (l : Listener) (sv : Server S) : Server S :=
  mkServer (sv_store sv) (sv_options sv) l (sv_stopping sv) (sv_accepting sv) (sv_conns sv) (sv_accepted sv).
Definition on_listener {A : Type} (m : M Listener A) : M (Server S) A := zoom sv_listener set_listener m.

(** A connection is added, with its thread. *)
Definition add_connection (sock : Socket) (sv : Server S) : Server S :=
  mkServer (sv_store sv) (sv_options sv) (sv_listener sv) (sv_stopping sv) (sv_accepting sv)
    (sv_conns sv ++ [mkConnection (sv_accepted sv) (new_link (sv_options sv) (sv_stopping sv) sock) false])
    (u64 (sv_accepted sv + 1)).

Definition set_accepting (b : bool) (sv : Server S) : Server S :=
  mkServer (sv_store sv) (sv_options sv) (sv_listener sv) (sv_stopping sv) b (sv_conns sv) (sv_accepted sv).

(** One pass of [Server::accept_loop]. *)
Definition accept_pass : M (Server S) unit :=
  sv ← get;
  if sv_stopping sv then modify (set_accepting false)
  else
    ready ← attempt (on_listener ListenerOps.wait_readable);
    match ready with
    | inr _ => modify (set_accepting false)
    | inl ready =>
        modify reap_finished;;
        if negb ready then mret tt
        else
          sv ← get;
          if sv_stopping sv then modify (set_accepting false)
          else
            accepted ← attempt (on_listener ListenerOps.accept);
            match accepted with
            | inr _ => mret tt
            | inl None => stuck            (* blocked in accept() *)
            | inl (Some sock) => modify (add_connection sock)
            end
    end.

(** The connection whose thread runs next, with the store. *)
Definition set_conn (i : nat) (c : Connection) (s : S) (sv : Server S) : Server S :=
  mkServer s (sv_options sv) (sv_listener sv) (sv_stopping sv) (sv_accepting sv)
    (<[i := c]> (sv_conns sv)) (sv_accepted sv).

Definition ends (r : Served) : bool := match r with Ends _ => true | _ => false end.

(** One pass of the thread of connection [i]; raising [finished] is its last act. *)
Definition connection_pass (i : nat) : M (Server S) Served := λ sv w,
  match sv_conns sv !! i with
  | None => MStuck
  | Some c =>
      match serve_pass (sv_stopping sv) (cn_link c, sv_store sv) w with
      | Ok r (lk, s) w' => Ok r (set_conn i (mkConnection (cn_id c) lk (ends r)) s sv) w'
      | Err e (lk, s) w' => Err e (set_conn i (mkConnection (cn_id c) lk true) s sv) w'
      | Died w' => Died w'
      | MStuck => MStuck
      end
  end.

(** The flag, seen by every reader that polls it. *)
Definition raise_flag (c : Connection) : Connection :=
  mkConnection (cn_id c) (mkLink (lk_sock (cn_link c))
    (mkFrameReader (max_frame_ (lk_reader (cn_link c))) (poll_timeout_ms (lk_reader (cn_link c))) (Some true)
      (buf_ (lk_reader (cn_link c))))) (cn_finished c).

(** [(void)conn->sock.shutdown()]. *)
Definition shut_connection (c : Connection) (w : World) : Connection :=
  match SocketOps.shutdown (lk_sock (cn_link c)) w with
  | Ok _ s' _ | Err _ s' _ => mkConnection (cn_id c) (set_sock s' (cn_link c)) (cn_finished c)
  | _ => c
  end.

(** [Server::stop], up to the first join. *)
Definition stop_begin : M (Server S) unit := λ sv w,
  if sv_stopping sv then Ok tt sv w
  else
    let conns := (λ c, shut_connection (raise_flag c) w) <$> sv_conns sv in
    Ok tt (mkServer (sv_store sv) (sv_options sv) (sv_listener sv) true (sv_accepting sv) conns (sv_accepted sv)) w.

(** [Server::stop], from the joins on; it waits while a thread runs. *)
Definition stop_end : M (Server S) unit :=
  sv ← get;
  if sv_accepting sv || existsb (λ c, negb (cn_finished c)) (sv_conns sv) then stuck
  else
    modify (λ sv, mkServer (sv_store sv) (sv_options sv) (sv_listener sv) (sv_stopping sv) (sv_accepting sv) [] (sv_accepted sv));;
    _ ← attempt (on_listener ListenerOps.close);
    mret tt.

(** [Server::active_connections]. *)
Definition active_connections (sv : Server S) : Z := sz (sv_conns sv).

End ServerOps.
End ServerOps.
