(* ===== verification/Client.v ===== *)
(** The client: [include/kvstore/client.hpp], [src/client.cpp].  A store at the other end of
    a socket. *)

From S2P Require Import Prelude Status FileNames World Wp Encoding Protocol Net Frames Stores.
Import FrameOps.

(** [class Client]: its socket and the reader on it. *)
Record Client : Type := mkClient { cl_link : Link }.

Module ClientOps.
Section ClientOps.
Context `{Platform}.

Definition on_conn {A : Type} (m : M Link A) : M Client A := zoom cl_link (λ lk _, mkClient lk) m.

(** [Client::connect]. *)
Definition connect (sys : NetSystem) (host : bytes) (port : Z) : result Client :=
  sock ← SocketOps.connect sys host port;
  mret (mkClient (mkLink sock default_reader)).

(** [Client::exchange]; it waits for good when no answer ever comes. *)
Definition exchange (request : Request) : M Client Response :=
  on_conn (on_sock (write_frame (protocol.encode_request request)));;
  incoming ← on_conn read_frame;
  match incoming with
  | PeerClosed => fail (io_error (lit "server closed the connection without answering"))
  | StillWaits => stuck
  | Cancelled => liftR (protocol.decode_response [])
  | Complete payload => liftR (protocol.decode_response payload)
  end.

(** The status a response reports, returned. *)
Definition return_status (response : Response) : M Client unit :=
  let status := protocol.to_status response in
  if is_ok status then mret tt else fail status.

(** [Client::put]. *)
Definition put (key value : bytes) : M Client unit :=
  response ← exchange (mkRequest OpPut key value);
  return_status response.

(** [Client::get]. *)
Definition get (key : bytes) : M Client bytes :=
  response ← exchange (mkRequest OpGet key []);
  if negb (bool_decide (rs_code response = COk)) then fail (protocol.to_status response)
  else mret (rs_body response).

(** [Client::remove]. *)
Definition remove (key : bytes) : M Client unit :=
  response ← exchange (mkRequest OpDelete key []);
  return_status response.

(** [Client::close]. *)
Definition close : M Client unit := on_conn (on_sock SocketOps.close).

End ClientOps.
End ClientOps.

#[export] Instance client_idle : Background Client := { kv_round := mret tt }.
#[export] Instance client_store `{Platform} : KVStore Client := {
  kv_put := ClientOps.put;
  kv_get := ClientOps.get;
  kv_remove := ClientOps.remove;
}.
