(* ===== verification/ServerSpec.v ===== *)
(** What a server answers. *)

From S2P Require Import Prelude Status FileNames World Wp Encoding Protocol Net Frames FrameSpec Stores Server.
Import FrameOps ServerOps.

#[local] Opaque std_to_string.

Section Spec.
Context {S : Type} `{Platform} `{Contract S}.

(** The answer to a payload by a map, and the map after it. *)
Definition answers (m : gmap bytes bytes) (payload : bytes) (r : Response) (m' : gmap bytes bytes) : Prop :=
  match protocol.decode_request payload with
  | ROk q =>
      match rq_op q with
      | OpGet => m' = m ∧ match m !! rq_key q with Some v => r = mkResponse COk v | None => rs_code r = NotFound end
      | OpPut => r = mkResponse COk [] ∧ rq_key q ≠ [] ∧ m' = <[rq_key q := rq_value q]> m ∨ rs_code r ≠ COk ∧ m' = m
      | OpDelete => r = mkResponse COk [] ∧ m' = delete (rq_key q) m ∨ rs_code r ≠ COk ∧ m' = m
      end
  | RErr e => r = mkResponse (code_ e) (message_ e) ∧ rs_code r = InvalidArgument ∧ m' = m
  | Stuck => False
  end.

(** The store is within its limits for what the payload asks. *)
Definition ready_for (payload : bytes) (s : S) (w : World) : Prop :=
  ∀ q, protocol.decode_request payload = ROk q → kv_ready q s w.

Lemma decoded_value p q : protocol.decode_request p = ROk q → rq_op q ≠ OpPut → rq_value q = [].
Proof. intros E. apply protocol.decode_request_inv in E as [[_ Hv] _]. done. Qed.

Lemma not_ok_code e : is_ok e = false → rs_code (response_of e) ≠ COk.
Proof. unfold is_ok. cbn. intros E Hc. by rewrite Hc in E. Qed.

(** The map once the request has been carried out. *)
Definition carried_out (m : gmap bytes bytes) (payload : bytes) : gmap bytes bytes :=
  match protocol.decode_request payload with
  | ROk (mkRequest OpPut key value) => <[key := value]> m
  | ROk (mkRequest OpDelete key _) => delete key m
  | _ => m
  end.

(** The map a process leaves that dies while it handles the payload. *)
Definition cut_short (m : gmap bytes bytes) (payload : bytes) (w' : World) : Prop :=
  kv_left w' m ∨ kv_left w' (carried_out m payload).

Lemma wp_handle payload s w m : kv_holds s w m → ready_for payload s w →
  wp (handle payload) s w (λ r s' w', ∃ m', answers m payload r m' ∧ kv_holds s' w' m') (λ _ _ _, False) (cut_short m payload).
Proof.
  intros Hh Hready. unfold handle, cut_short, carried_out, answers. pose proof (protocol.decode_request_safe payload) as Hsafe.
  destruct (protocol.decode_request payload) as [q|e|] eqn:Ed; [|by apply wp_ret; exists m|done].
  specialize (Hready q Ed). pose proof (decoded_value _ _ Ed) as Hval. destruct q as [[] key value]; cbn [rq_op rq_key rq_value] in *.
  - rewrite (Hval ltac:(done)) in Hready. eapply wp_bind_attempt; [by apply (kv_get_law key s w m)|..]; cbn beta.
    + intros v s' w' _ (Hk & Hh'). apply wp_ret. exists m. by rewrite Hk.
    + intros e s' w' _ (He & Hk & Hh'). apply wp_ret. exists m. by rewrite Hk.
    + intros w' _ Hl. by left.
  - eapply wp_bind_attempt; [by apply (kv_put_law key value s w m)|..]; cbn beta.
    + intros _ s' w' _ [Hk Hh']. apply wp_ret. eexists. split; [by left|done].
    + intros e s' w' _ [He Hh']. apply wp_ret. exists m. split; [right; split; [by apply not_ok_code|done]|done].
    + done.
  - rewrite (Hval ltac:(done)) in Hready. eapply wp_bind_attempt; [by apply (kv_remove_law key s w m)|..]; cbn beta.
    + intros _ s' w' _ Hh'. apply wp_ret. eexists. split; [by left|done].
    + intros e s' w' _ [He Hh']. apply wp_ret. exists m. split; [right; split; [by apply not_ok_code|done]|done].
    + done.
Qed.

(** * One pass over a connection *)

Section Pass.
Context (lk : Link) (s : S) (w : World) (m : gmap bytes bytes).
Hypothesis Hopen : sk_open (lk_sock lk) = true.
Hypothesis Hup : sk_down (lk_sock lk) = false.
Hypothesis Hholds : kv_holds s w m.
Let next := parse_frame (max_frame_ (lk_reader lk)) (ended (lk_sock lk)) (unread lk).
Hypothesis Hready : ∀ payload rest, next = PFrame payload rest → ready_for payload s w.

(** The request [payload] was answered with [r]; the link has moved past it. *)
Definition answered (payload : bytes) (r : Response) (lk1 : Link) (s' : S) (w' : World) : Prop :=
  follows lk lk1 ∧ next = PFrame payload (unread lk1) ∧ ∃ m', answers m payload r m' ∧ kv_holds s' w' m'.

(** What the pass did. *)
Definition passed (r : Served) (p : Link * S) (w' : World) : Prop :=
  match r with
  | GoesOn payload response => ∃ lk1 evs', answered payload response lk1 p.2 w' ∧ evs' `suffix_of` sk_events (lk_sock lk) ∧
      p.1 = set_sock (told (frame (protocol.encode_response response)) evs' (lk_sock lk1)) lk1 ∧
      sz (protocol.encode_response response) ≤ protocol.kMaxFrameSize
  | KeepsWaiting => next = PMore ∧ follows lk p.1 ∧ unread p.1 = unread lk ∧ p.2 = s ∧ w' = w ∧
      (0 < poll_timeout_ms (lk_reader lk) → cancelled (lk_reader lk) ≠ Some true)
  | Ends None => p.2 = s ∧ w' = w ∧ follows lk p.1 ∧
      (next = PEnd ∨ next = PBroken ∨ cancelled (lk_reader lk) = Some true ∨ ¬ net_ok (sk_events (lk_sock lk)))
  | Ends (Some (payload, response)) => ∃ lk1 evs' pre, answered payload response lk1 p.2 w' ∧
      p.1 = set_sock (told pre evs' (lk_sock lk1)) lk1 ∧ pre `prefix_of` frame (protocol.encode_response response) ∧
      (protocol.kMaxFrameSize < sz (protocol.encode_response response) ∨ ¬ net_ok (sk_events (lk_sock lk)))
  end.

Lemma wp_serve_pass :
  wp (serve_pass false) (lk, s) w passed (λ _ _ _, False)
    (λ w', ∃ payload rest, next = PFrame payload rest ∧ cut_short m payload w').
Proof.
  unfold serve_pass, on_link. eapply wp_bind_attempt_zoom; [apply (wp_read_frame lk w Hopen)|..]; cbn beta; [| |done].
  2: { intros e lk1 w1 _ (-> & Hf & Hr). apply wp_ret. cbn. split_and!; [done|done|done|]. destruct Hr as [[_ ?]|?]; auto. }
  intros r lk1 w1 _ (-> & Hf & Hc & Hwait & Hr). cbn [snd fst]. destruct r as [payload| | |]; cbn [reads_as] in Hr.
  2: { apply wp_ret. destruct Hr. cbn. auto. }
  2: { apply wp_ret. cbn. split_and!; auto. }
  2: { apply wp_ret. destruct Hr. cbn. split_and!; auto. }
  unfold on_kv. eapply wp_bind_zoom; [apply (wp_handle payload s w m Hholds (Hready _ _ Hr))|..]; cbn beta; [|done|].
  2: { intros w' _ Hcut. by exists payload, (unread lk1). }
  intros response s' w' _ (m' & Hans & Hh'). cbn [fst snd].
  assert (Hd1 : answered payload response lk1 s' w') by (split_and!; [done|done|by exists m']).
  eapply (wp_bind_attempt_zoom _ _ _ _ _ _
    (λ _ lk2 w2, w2 = w' ∧ sz (protocol.encode_response response) ≤ protocol.kMaxFrameSize ∧ ∃ evs', evs' `suffix_of` sk_events (lk_sock lk) ∧
       lk2 = set_sock (told (frame (protocol.encode_response response)) evs' (lk_sock lk1)) lk1)
    (λ _ lk2 w2, w2 = w' ∧ ∃ evs' pre, pre `prefix_of` frame (protocol.encode_response response) ∧ lk2 = set_sock (told pre evs' (lk_sock lk1)) lk1 ∧
       (protocol.kMaxFrameSize < sz (protocol.encode_response response) ∨ ¬ net_ok (sk_events (lk_sock lk)))) (λ _, False)); cbn beta.
  - cbn [fst]. unfold on_sock. apply wp_zoom. eapply wp_mono; [apply wp_write_frame; [by rewrite (fo_open _ _ Hf)|by rewrite (fo_down _ _ Hf)]|..]; cbn beta; [| |done].
    + intros _ s2 w2 _ (-> & Hfit & evs' & Hs & ->). split_and!; [done|done|]. exists evs'. split; [|done]. etrans; [done|by apply fo_events].
    + intros e s2 w2 _ (-> & [(Hbig & -> & _)|(Hbad & pre & evs' & Hpre & ->)]); (split; [done|]).
      * exists (sk_events (lk_sock lk1)), []. split_and!; [apply prefix_nil| |by left].
        destruct lk1 as [[] []]. unfold set_sock, told, sk_set_sent, sk_set_events. cbn. by rewrite app_nil_r.
      * exists evs', pre. split_and!; [done|done|]. right. intros Hok. apply Hbad. eapply net_ok_suffix; [by apply fo_events|done].
  - intros _ lk2 w2 _ (-> & Hfit & evs' & Hs & ->). apply wp_ret. cbn. by exists lk1, evs'.
  - intros e lk2 w2 _ (-> & evs' & pre & Hpre & -> & Hwhy). apply wp_ret. cbn. by exists lk1, evs', pre.
  - done.
Qed.
End Pass.
End Spec.

(** * Any store is as good as any other *)

Section Two.
Context {A B : Type} `{Platform} `{Contract A} `{Contract B}.




End Two.
