(* ===== verification/ServerRun.v ===== *)
(** The server with all its threads: passes of the accept loop and of the connections, rounds of
    the store's own thread, and a stop, in any order.  What clients see is one sequence of requests to the store. *)

From S2P Require Import Prelude Status FileNames World Wp Encoding Protocol Net Frames FrameSpec Stores Server ServerSpec.
Import FrameOps ServerOps.

Section Run.
Context {S : Type} `{Platform} `{Contract S}.

(** * The accept loop *)

Record took (sv sv' : Server S) : Prop := {
  tk_store : sv_store sv' = sv_store sv;
  tk_options : sv_options sv' = sv_options sv;
  tk_stopping : sv_stopping sv' = sv_stopping sv;
  tk_queue : ∀ s, s ∈ ls_queue (sv_listener sv') → s ∈ ls_queue (sv_listener sv);
  tk_conns : ∃ kept, kept `sublist_of` sv_conns sv ∧
    (sv_conns sv' = kept ∧ sv_accepted sv' = sv_accepted sv ∨
     sv_stopping sv = false ∧ sv_accepted sv' = u64 (sv_accepted sv + 1) ∧ ∃ sock, sock ∈ ls_queue (sv_listener sv) ∧
       sv_conns sv' = kept ++ [mkConnection (sv_accepted sv) (new_link (sv_options sv) false sock) false]);
}.

Lemma took_same sv sv' : sv_store sv' = sv_store sv → sv_options sv' = sv_options sv → sv_stopping sv' = sv_stopping sv →
  ls_queue (sv_listener sv') = ls_queue (sv_listener sv) → sv_accepted sv' = sv_accepted sv → sv_conns sv' `sublist_of` sv_conns sv → took sv sv'.
Proof. intros E1 E2 E3 E4 E5 Hs. split; [done|done|done|by rewrite E4|]. eexists. split; [exact Hs|]. by left. Qed.

Lemma wp_next_listen {A} (k : net_event → M Listener A) l w Q E D :
  (∀ e l', ls_open l' = ls_open l → ls_queue l' = ls_queue l → wp (k e) l' w Q E D) → wp (next_listen ≫= k) l w Q E D.
Proof.
  intros Hk. unfold next_listen. apply wp_bind_assoc, wp_bind_get. destruct (ls_events l).
  - apply wp_bind_ret. by apply Hk.
  - apply wp_bind_assoc, wp_bind_put, wp_bind_ret. by apply Hk.
Qed.

Lemma wp_check_listener {A} what (k : unit → M Listener A) l w Q (E : Status → Listener → World → Prop) D :
  (ls_open l = true → wp (k tt) l w Q E D) → (ls_open l = false → ∀ e, E e l w) → wp (ListenerOps.check_open what ≫= k) l w Q E D.
Proof.
  intros Hk He. unfold ListenerOps.check_open. apply wp_bind_assoc, wp_bind_get. destruct (ls_open l).
  - by apply wp_bind_ret, Hk.
  - apply wp_bind_fail. by apply He.
Qed.

Lemma wp_listener_wait l w :
  wp ListenerOps.wait_readable l w
    (λ b l' w', w' = w ∧ ls_open l' = ls_open l ∧ ls_queue l' = ls_queue l ∧ (b = true → ls_queue l ≠ []))
    (λ _ l' w', w' = w ∧ ls_queue l' = ls_queue l) (λ _, False).
Proof.
  unfold ListenerOps.wait_readable. apply wp_check_listener; [|done]. intros Ho. apply wp_next_listen. intros e l' Eo Eq.
  apply wp_bind_get. destruct e; [|by apply wp_fail| |by apply wp_ret]; apply wp_ret; (split_and!; [done|done|done|]).
  all: rewrite Eq; intros Hb%negb_true_iff%bool_decide_eq_false; done.
Qed.

Lemma wp_accept l w : ls_queue l ≠ [] →
  wp ListenerOps.accept l w
    (λ r l' w', w' = w ∧ ∃ s rest, r = Some s ∧ ls_queue l = s :: rest ∧ ls_queue l' = rest)
    (λ _ l' w', w' = w ∧ ls_queue l' = ls_queue l) (λ _, False).
Proof.
  intros Hq. unfold ListenerOps.accept. apply wp_check_listener; [|done]. intros Ho. apply wp_next_listen. intros e l' Eo Eq.
  apply wp_bind_get. rewrite Eq. destruct (ls_queue l) as [|s rest] eqn:El; [done|].
  assert (Hgo : wp (put (ls_set_queue rest l');; mret (Some s)) l' w
    (λ r l'' w', w' = w ∧ ∃ s' rest', r = Some s' ∧ s :: rest = s' :: rest' ∧ ls_queue l'' = rest')
    (λ _ l'' w', w' = w ∧ ls_queue l'' = s :: rest) (λ _, False)).
  { apply wp_bind_put, wp_ret. split; [done|]. by exists s, rest. }
  destruct e; [exact Hgo|by apply wp_fail|exact Hgo|exact Hgo].
Qed.

Lemma wp_accept_pass sv w :
  wp accept_pass sv w (λ _ sv' w', w' = w ∧ took sv sv' ∧ (sv_stopping sv = true → sv_accepting sv' = false ∧ sv_conns sv' = sv_conns sv))
    (λ _ _ _, False) (λ _, False).
Proof.
  unfold accept_pass. apply wp_bind_get. destruct (sv_stopping sv) eqn:Est.
  { apply wp_modify. split_and!; [done|by apply took_same|done]. }
  unfold on_listener. eapply wp_bind_attempt_zoom; [apply wp_listener_wait|..]; cbn beta; [| |done].
  2: { intros e l w' _ [-> Eq]. apply wp_modify. split_and!; [done|by apply took_same|done]. }
  intros ready l w' _ (-> & Eo & Eq & Hready). apply wp_bind_modify. set (sv1 := reap_finished (set_listener l sv)).
  assert (Hsub : sv_conns sv1 `sublist_of` sv_conns sv) by apply sublist_filter.
  assert (Ht1 : took sv sv1) by (by apply took_same).
  destruct ready; cbn [negb]; [|by apply wp_ret]. apply wp_bind_get. replace (sv_stopping sv1) with false by done.
  eapply wp_bind_attempt_zoom; [apply wp_accept; cbn; rewrite Eq; by apply Hready|..]; cbn beta; [| |done].
  - intros r l2 w2 _ (-> & s & rest & -> & Eq1 & Eq2). apply wp_modify. split_and!; [done| |done].
    change (ls_queue (sv_listener sv1)) with (ls_queue l) in Eq1. rewrite Eq in Eq1. split; try done.
    + intros s' Hin. change (s' ∈ ls_queue l2) in Hin. rewrite Eq1. rewrite Eq2 in Hin. by right.
    + exists (sv_conns sv1). split; [done|]. right. split_and!; [done|done|]. exists s. rewrite Eq1. split; [by left|].
      cbn. by rewrite Est.
  - intros e l2 w2 _ [-> Eq2]. apply wp_ret. split_and!; [done| |done]. apply took_same; try done. cbn. by rewrite Eq2.
Qed.
(** * Steps *)

(** A request that was answered: the connection it came in on, what it was, the answer. *)
Abbreviation exchange_ := (Z * bytes * Response)%type.

Definition handled (id : Z) (r : Served) : list exchange_ :=
  match r with
  | GoesOn payload response | Ends (Some (payload, response)) => [(id, payload, response)]
  | _ => []
  end.

Definition set_store (s : S) (sv : Server S) : Server S :=
  mkServer s (sv_options sv) (sv_listener sv) (sv_stopping sv) (sv_accepting sv) (sv_conns sv) (sv_accepted sv).

(** One step of one thread, and what was answered in it.  The store is within its limits
    whenever a connection's thread calls it or its own thread works. *)
Inductive server_step : Server S * World → list exchange_ → Server S * World → Prop :=
| step_accept sv w sv' w' : sv_accepting sv = true → sv_accepted sv < UINT64_MAX →
    accept_pass sv w = Ok tt sv' w' → server_step (sv, w) [] (sv', w')
| step_serve i c sv w r sv' w' : sv_conns sv !! i = Some c → cn_finished c = false →
    (sv_stopping sv = false → ∀ payload, sz payload ≤ max_frame_ (lk_reader (cn_link c)) → ready_for payload (sv_store sv) w) →
    connection_pass i sv w = Ok r sv' w' → server_step (sv, w) (handled (cn_id c) r) (sv', w')
| step_background sv w s' w' : kv_calm (sv_store sv) w → kv_round (sv_store sv) w = Ok tt s' w' →
    server_step (sv, w) [] (set_store s' sv, w')
| step_stop sv w sv' w' : stop_begin sv w = Ok tt sv' w' → server_step (sv, w) [] (sv', w')
| step_join sv w sv' w' : stop_end sv w = Ok tt sv' w' → server_step (sv, w) [] (sv', w').

Inductive server_run : Server S * World → list exchange_ → Server S * World → Prop :=
| server_run_nil a : server_run a [] a
| server_run_step a tr b tr' c : server_run a tr b → server_step b tr' c → server_run a (tr ++ tr') c.

(** * What every run keeps *)

(** The answers, one after the other, are those of a map. *)
Inductive chain (m0 : gmap bytes bytes) : list exchange_ → gmap bytes bytes → Prop :=
| chain_nil : chain m0 [] m0
| chain_snoc tr m x m' : chain m0 tr m → answers m x.1.2 x.2 m' → chain m0 (tr ++ [x]) m'.

(** The exchanges on one connection. *)
Definition mine (id : Z) (tr : list exchange_) : list exchange_ := filter (λ x, x.1.1 = id) tr.
Definition requests (xs : list exchange_) : bytes := concat ((λ x, frame x.1.2) <$> xs).
Definition replies (xs : list exchange_) : bytes := concat ((λ x, frame (protocol.encode_response x.2)) <$> xs).

(** What the other end sends on, it never takes back. *)
Definition peer_grows (p : bytes → bytes * bool) : Prop := ∀ a b, (p a).1 `prefix_of` (p (a ++ b)).1.

Definition stream (s : Socket) : bytes := (sk_peer s (sk_sent s)).1.

(** A connection that nobody has used yet. *)
Definition fresh_socket (s : Socket) : Prop :=
  sk_open s = true ∧ sk_down s = false ∧ sk_sent s = [] ∧ sk_taken s = 0%nat ∧ peer_grows (sk_peer s).

(** A connection: its client's stream is the requests answered on it and what is unread; what
    it has sent are their answers, in order, the last one perhaps cut short. *)
Record conn_ok (stopping : bool) (tr : list exchange_) (c : Connection) : Prop := {
  co_peer : peer_grows (sk_peer (lk_sock (cn_link c)));
  co_within : within (lk_sock (cn_link c));
  co_requests : stream (lk_sock (cn_link c)) = requests (mine (cn_id c) tr) ++ unread (cn_link c) ∨
    cn_finished c = true ∧ requests (mine (cn_id c) tr) `prefix_of` stream (lk_sock (cn_link c));
  co_replies : sk_sent (lk_sock (cn_link c)) = replies (mine (cn_id c) tr) ∨
    cn_finished c = true ∧ sk_sent (lk_sock (cn_link c)) `prefix_of` replies (mine (cn_id c) tr);
  co_up : cn_finished c = false → sk_open (lk_sock (cn_link c)) = true ∧ (stopping = false → sk_down (lk_sock (cn_link c)) = false);
}.

Record server_ok (m0 : gmap bytes bytes) (tr : list exchange_) (sv : Server S) (w : World) : Prop := {
  sk_map : ∃ m, chain m0 tr m ∧ kv_holds (sv_store sv) w m;
  sk_conns : Forall (conn_ok (sv_stopping sv) tr) (sv_conns sv);
  sk_ids : NoDup (cn_id <$> sv_conns sv);
  sk_below : Forall (λ c, 0 ≤ cn_id c < sv_accepted sv) (sv_conns sv) ∧ Forall (λ x, 0 ≤ x.1.1 < sv_accepted sv) tr;
  sk_count : 0 ≤ sv_accepted sv ≤ UINT64_MAX;
  sk_queue : Forall fresh_socket (ls_queue (sv_listener sv));
}.

Lemma mine_snoc_same id tr x : x.1.1 = id → mine id (tr ++ [x]) = mine id tr ++ [x].
Proof. intros E. unfold mine. rewrite filter_app, filter_cons_True, filter_nil by done. done. Qed.
Lemma mine_snoc_other id tr x : x.1.1 ≠ id → mine id (tr ++ [x]) = mine id tr.
Proof. intros E. unfold mine. rewrite filter_app, filter_cons_False, filter_nil, app_nil_r by done. done. Qed.
Lemma mine_none id tr : Forall (λ x, 0 ≤ x.1.1 < id) tr → mine id tr = [].
Proof.
  intros Hall. unfold mine. induction Hall as [|x tr Hx Hall IH]; [done|]. rewrite filter_cons_False; [done|lia].
Qed.

Lemma requests_snoc xs x : requests (xs ++ [x]) = requests xs ++ frame x.1.2.
Proof. unfold requests. rewrite fmap_app, concat_app. cbn. by rewrite app_nil_r. Qed.
Lemma replies_snoc xs x : replies (xs ++ [x]) = replies xs ++ frame (protocol.encode_response x.2).
Proof. unfold replies. rewrite fmap_app, concat_app. cbn. by rewrite app_nil_r. Qed.

Lemma fresh_conn stopping tr options id s : fresh_socket s → mine id tr = [] →
  conn_ok stopping tr (mkConnection id (new_link options false s) false).
Proof.
  intros (Ho & Hd & Hs & Ht & Hg) Hm. split; cbn; try done.
  - unfold within. rewrite Ht. lia.
  - left. rewrite Hm. unfold unread, arrived, stream. cbn. by rewrite Ht, drop_0.
  - left. by rewrite Hm.
Qed.

Lemma Forall_kept {A} (P : A → Prop) l1 l2 : l1 `sublist_of` l2 → Forall P l2 → Forall P l1.
Proof. intros Hs. rewrite !Forall_forall. intros HP x Hx. by eapply HP, elem_of_sublist. Qed.

Lemma accept_ok m0 tr sv sv' w : server_ok m0 tr sv w → sv_accepted sv < UINT64_MAX → took sv sv' → server_ok m0 tr sv' w.
Proof.
  intros [G1 G2 G3 [G4 G4'] G5 G6] Hmax [T1 T2 T3 T4 (kept & Hsub & Hcase)].
  assert (Hkept : Forall (conn_ok (sv_stopping sv) tr) kept) by (by eapply Forall_kept).
  assert (Hbelow : Forall (λ c, 0 ≤ cn_id c < sv_accepted sv) kept) by (by eapply Forall_kept).
  assert (Hids : NoDup (cn_id <$> kept)) by (eapply sublist_NoDup; [exact G3|]; by apply fmap_sublist).
  assert (Hq : Forall fresh_socket (ls_queue (sv_listener sv'))) by (rewrite Forall_forall in *; auto).
  destruct Hcase as [[Ec Ea]|(Est & Ea & sock & Hin & Ec)].
  - split; rewrite ?T1, ?T3, ?Ec, ?Ea; done.
  - rewrite u64_id in Ea by (unfold UINT64_MAX in *; lia).
    assert (Hw : ∀ c, 0 ≤ cn_id c < sv_accepted sv → 0 ≤ cn_id c < sv_accepted sv') by (intros; lia).
    split; rewrite ?T1, ?T3, ?Ec; try done.
    + apply Forall_app. split; [done|]. constructor; [|done]. apply fresh_conn; [rewrite Forall_forall in G6; by apply G6|by apply mine_none].
    + rewrite fmap_app. apply NoDup_app. split_and!; [done| |by apply NoDup_singleton].
      intros id Hid ->%list_elem_of_singleton. apply list_elem_of_fmap in Hid as (c & E & Hc). rewrite Forall_forall in Hbelow.
      specialize (Hbelow c Hc). cbn in E. lia.
    + rewrite Ea. split.
      * apply Forall_app. split; [eapply Forall_impl; [exact Hbelow|]; cbn; intros; lia|]. constructor; [cbn; lia|done].
      * eapply Forall_impl; [exact G4'|]. cbn. intros. lia.
    + lia.
Qed.
(** ** A pass over a connection *)

Lemma told_stream bs evs' s : peer_grows (sk_peer s) → within s → ∃ x,
  stream (told bs evs' s) = stream s ++ x ∧ arrived (told bs evs' s) = arrived s ++ x ∧ within (told bs evs' s).
Proof.
  intros Hg Hw. destruct (Hg (sk_sent s) bs) as [x Ex]. exists x. unfold stream, arrived, within in *. cbn. rewrite Ex.
  split_and!; [done|by rewrite drop_app_le|]. rewrite length_app. lia.
Qed.

Lemma follows_stream lk lk' : follows lk lk' → stream (lk_sock lk') = stream (lk_sock lk).
Proof. intros Hf. unfold stream. by rewrite (fo_peer _ _ Hf), (fo_sent _ _ Hf). Qed.

Lemma conn_finished stopping tr c lk : conn_ok stopping tr c → follows (cn_link c) lk → conn_ok stopping tr (mkConnection (cn_id c) lk true).
Proof.
  intros [C1 C2 C3 C4 C5] Hf. split; cbn [cn_link cn_id cn_finished]; rewrite ?(fo_peer _ _ Hf), ?(follows_stream _ _ Hf), ?(fo_sent _ _ Hf); try done.
  - by apply (fo_within _ _ Hf).
  - right. split; [done|]. destruct C3 as [->|[_ ?]]; [|done]. by apply prefix_app_r.
  - right. split; [done|]. by destruct C4 as [->|[_ ?]].
Qed.

Lemma conn_waits stopping tr c lk : conn_ok stopping tr c → cn_finished c = false → follows (cn_link c) lk → unread lk = unread (cn_link c) →
  conn_ok stopping tr (mkConnection (cn_id c) lk false).
Proof.
  intros [C1 C2 C3 C4 C5] Hn Hf Hu. specialize (C5 Hn). destruct C3 as [C3|[? _]]; [|congruence]. destruct C4 as [C4|[? _]]; [|congruence].
  split; cbn [cn_link cn_id cn_finished]; rewrite ?(fo_peer _ _ Hf), ?(follows_stream _ _ Hf), ?(fo_sent _ _ Hf), ?(fo_open _ _ Hf), ?(fo_down _ _ Hf), ?Hu; try done.
  - by apply (fo_within _ _ Hf).
  - by left.
  - by left.
Qed.

(** The connection after it answered [p] with [r], of which [bs] went out. *)
Lemma conn_answered stopping tr c lk1 p r bs evs' (fin : bool) : conn_ok stopping tr c → cn_finished c = false → follows (cn_link c) lk1 →
  unread (cn_link c) = frame p ++ unread lk1 → bs `prefix_of` frame (protocol.encode_response r) →
  (fin = false → bs = frame (protocol.encode_response r)) →
  conn_ok stopping (tr ++ [(cn_id c, p, r)]) (mkConnection (cn_id c) (set_sock (told bs evs' (lk_sock lk1)) lk1) fin).
Proof.
  intros [C1 C2 C3 C4 C5] Hn Hf Hu Hbs Hall. specialize (C5 Hn). destruct C3 as [C3|[? _]]; [|congruence]. destruct C4 as [C4|[? _]]; [|congruence].
  destruct (told_stream bs evs' (lk_sock lk1)) as (x & Es & Ea & Hw); [by rewrite (fo_peer _ _ Hf)|by apply (fo_within _ _ Hf)|].
  split; cbn [cn_link cn_id cn_finished lk_sock set_sock]; rewrite ?mine_snoc_same by done.
  - cbn. by rewrite (fo_peer _ _ Hf).
  - done.
  - left. rewrite requests_snoc, Es, (follows_stream _ _ Hf), C3, Hu. unfold unread. cbn [lk_reader lk_sock set_sock fst snd].
    by rewrite Ea, <-!app_assoc.
  - rewrite replies_snoc. cbn [told sk_sent sk_set_sent sk_set_events snd]. rewrite (fo_sent _ _ Hf), C4. destruct fin.
    + right. split; [done|]. by apply prefix_app.
    + left. by rewrite Hall.
  - intros _. cbn. by rewrite (fo_open _ _ Hf), (fo_down _ _ Hf).
Qed.

Lemma conn_other stopping tr c x : x.1.1 ≠ cn_id c → conn_ok stopping tr c → conn_ok stopping (tr ++ [x]) c.
Proof. intros E [C1 C2 C3 C4 C5]. by split; rewrite ?mine_snoc_other. Qed.

(** The other connections do not notice. *)
Lemma conns_step stopping tr xs cs i c c' : Forall (conn_ok stopping tr) cs → NoDup (cn_id <$> cs) → cs !! i = Some c →
  cn_id c' = cn_id c → (xs = [] ∨ ∃ x, xs = [x] ∧ x.1.1 = cn_id c) → conn_ok stopping (tr ++ xs) c' → Forall (conn_ok stopping (tr ++ xs)) (<[i := c']> cs).
Proof.
  intros Hall Hnd Hi Eid Hxs Hc'. apply Forall_lookup_2. intros j d Hj. apply list_lookup_insert_Some in Hj as [(-> & -> & _)|[Hne Hj]]; [done|].
  rewrite Forall_lookup in Hall. specialize (Hall j d Hj). destruct Hxs as [->|(x & -> & Ex)]; [by rewrite app_nil_r|].
  apply conn_other; [|done]. rewrite Ex. intros E. apply Hne. eapply (NoDup_lookup _ _ _ (cn_id c) Hnd); rewrite list_lookup_fmap; [by rewrite Hi|by rewrite Hj, E].
Qed.
Lemma handled_shape id r : handled id r = [] ∨ ∃ x, handled id r = [x] ∧ x.1.1 = id.
Proof. destruct r as [p x| |[[p x]|]]; cbn; eauto. Qed.

(** What one pass makes of the connection and of the store. *)
Lemma pass_ok m0 tr stopping c s w m r lk' s' w' : chain m0 tr m → kv_holds s w m → conn_ok stopping tr c → cn_finished c = false →
  (stopping = false → ∀ payload, sz payload ≤ max_frame_ (lk_reader (cn_link c)) → ready_for payload s w) →
  serve_pass stopping (cn_link c, s) w = Ok r (lk', s') w' →
  conn_ok stopping (tr ++ handled (cn_id c) r) (mkConnection (cn_id c) lk' (ends r)) ∧
  ∃ m', chain m0 (tr ++ handled (cn_id c) r) m' ∧ kv_holds s' w' m'.
Proof.
  intros Hch Hh Hc Hn Hready E. destruct (co_up _ _ _ Hc Hn) as [Ho Hd]. destruct stopping.
  { unfold serve_pass in E. injection E as <- <- <- <-. cbn. rewrite app_nil_r. split; [by apply conn_finished|]. by exists m. }
  assert (Hr : ∀ payload rest, parse_frame (max_frame_ (lk_reader (cn_link c))) (ended (lk_sock (cn_link c))) (unread (cn_link c)) = PFrame payload rest →
    ready_for payload s w) by (intros payload rest Hp; apply parse_frame_inv in Hp as [_ Hsz]; by apply Hready).
  pose proof (wp_serve_pass (cn_link c) s w m Ho (Hd eq_refl) Hh Hr) as Hw. unfold wp in Hw. rewrite E in Hw. destruct Hw as [_ Hp].
  destruct r as [p x| |[[p x]|]]; cbn [passed handled ends fst snd] in *.
  - destruct Hp as (lk1 & evs' & (Hf & Hnext & m' & Hans & Hh') & _ & -> & _). apply parse_frame_inv in Hnext as [Hu _].
    split; [by apply conn_answered|]. exists m'. split; [|done]. by eapply chain_snoc.
  - destruct Hp as (_ & Hf & Hu & -> & -> & _). rewrite app_nil_r. split; [by apply conn_waits|]. by exists m.
  - destruct Hp as (lk1 & evs' & pre & (Hf & Hnext & m' & Hans & Hh') & -> & Hpre & _). apply parse_frame_inv in Hnext as [Hu _].
    split; [by apply conn_answered|]. exists m'. split; [|done]. by eapply chain_snoc.
  - destruct Hp as (-> & -> & Hf & _). rewrite app_nil_r. split; [by apply conn_finished|]. by exists m.
Qed.

Lemma serve_ok m0 tr sv w i c r sv' w' : server_ok m0 tr sv w → sv_conns sv !! i = Some c → cn_finished c = false →
  (sv_stopping sv = false → ∀ payload, sz payload ≤ max_frame_ (lk_reader (cn_link c)) → ready_for payload (sv_store sv) w) →
  connection_pass i sv w = Ok r sv' w' → server_ok m0 (tr ++ handled (cn_id c) r) sv' w'.
Proof.
  intros [(m & Hch & Hh) G2 G3 [G4 G4'] G5 G6] Hi Hn Hready. unfold connection_pass. rewrite Hi.
  destruct (serve_pass (sv_stopping sv) (cn_link c, sv_store sv) w) as [r0 [lk' s'] w0|e [lk' s'] w0|w0|] eqn:E; [|done..]. intros [= -> <- ->].
  assert (Hc : conn_ok (sv_stopping sv) tr c) by (rewrite Forall_lookup in G2; by eapply G2).
  destruct (pass_ok m0 tr _ c _ w m r lk' s' w' Hch Hh Hc Hn Hready E) as [Hc' Hm'].
  assert (Hid : 0 ≤ cn_id c < sv_accepted sv) by (rewrite Forall_lookup in G4; by apply (G4 i)).
  split; cbn [sv_store sv_stopping sv_conns sv_accepted sv_listener set_conn]; [done| | | |done|done].
  - by eapply conns_step; [..|apply handled_shape|].
  - rewrite list_fmap_insert. cbn. rewrite list_insert_id; [done|]. by rewrite list_lookup_fmap, Hi.
  - split; [by apply Forall_insert|]. apply Forall_app. split; [done|].
    destruct (handled_shape (cn_id c) r) as [->|(x & -> & Ex)]; [done|]. constructor; [by rewrite Ex|done].
Qed.

(** ** Stopping *)

Lemma shut_facts c w : let c' := shut_connection c w in cn_id c' = cn_id c ∧ cn_finished c' = cn_finished c ∧
  lk_reader (cn_link c') = lk_reader (cn_link c) ∧ sk_peer (lk_sock (cn_link c')) = sk_peer (lk_sock (cn_link c)) ∧
  sk_sent (lk_sock (cn_link c')) = sk_sent (lk_sock (cn_link c)) ∧ sk_taken (lk_sock (cn_link c')) = sk_taken (lk_sock (cn_link c)) ∧
  sk_open (lk_sock (cn_link c')) = sk_open (lk_sock (cn_link c)).
Proof.
  destruct c as [id [[o p st tk d evs] rd] fin]. unfold shut_connection, SocketOps.shutdown, SocketOps.check_open, platform_socket.shutdown_both, next_net.
  unfold mbind, M_bind, get, put, modify, mret, M_ret, fail. cbn. destruct o; cbn; [|done]. destruct evs as [|[] evs]; cbn; done.
Qed.

Lemma conn_shut stopping tr c w : conn_ok stopping tr c → conn_ok true tr (shut_connection (raise_flag c) w).
Proof.
  intros [C1 C2 C3 C4 C5]. destruct (shut_facts (raise_flag c) w) as (E1 & E2 & E3 & E4 & E5 & E6 & E7). cbn zeta in *.
  set (c' := shut_connection (raise_flag c) w) in *. clearbody c'. cbn in E1, E2, E3, E4, E5, E6, E7.
  assert (Es : stream (lk_sock (cn_link c')) = stream (lk_sock (cn_link c))) by (unfold stream; by rewrite E4, E5).
  assert (Eu : unread (cn_link c') = unread (cn_link c)) by (unfold unread, arrived; by rewrite E3, E4, E5, E6).
  split; rewrite ?E1, ?E2, ?E4, ?E5, ?E7, ?Es, ?Eu; try done.
  - unfold within in *. by rewrite E4, E5, E6.
  - intros Hn. split; [by apply C5|done].
Qed.

Lemma stop_ok m0 tr sv w sv' w' : server_ok m0 tr sv w → stop_begin sv w = Ok tt sv' w' → server_ok m0 tr sv' w'.
Proof.
  intros Hok. unfold stop_begin. destruct (sv_stopping sv) eqn:Est; [by intros [= <- <-]|]. intros [= <- <-]. destruct Hok as [G1 G2 G3 [G4 G4'] G5 G6].
  assert (Eids : cn_id <$> ((λ c, shut_connection (raise_flag c) w) <$> sv_conns sv) = cn_id <$> sv_conns sv).
  { rewrite <-list_fmap_compose. apply list_fmap_ext. intros i c _. cbn. by destruct (shut_facts (raise_flag c) w) as (-> & _). }
  split; cbn [sv_store sv_stopping sv_conns sv_accepted sv_listener]; try done.
  - apply Forall_fmap. eapply Forall_impl; [exact G2|]. intros c Hc. by eapply conn_shut.
  - by rewrite Eids.
  - split; [|done]. apply Forall_fmap. eapply Forall_impl; [exact G4|]. intros c Hc. cbn. by destruct (shut_facts (raise_flag c) w) as (-> & _).
Qed.
Definition all_finished (cs : list Connection) : Prop := Forall (λ c, cn_finished c = true) cs.

Lemma all_finished_spec cs : existsb (λ c, negb (cn_finished c)) cs = false ↔ all_finished cs.
Proof.
  induction cs as [|c cs IH]; cbn; [split; [constructor|done]|]. unfold all_finished in *. rewrite orb_false_iff, negb_false_iff, Forall_cons, IH. done.
Qed.

Lemma wp_listener_close l w :
  wp ListenerOps.close l w (λ _ l' w', w' = w ∧ ls_open l' = false ∧ ls_queue l' = ls_queue l)
    (λ _ l' w', w' = w ∧ ls_open l' = false ∧ ls_queue l' = ls_queue l) (λ _, False).
Proof.
  unfold ListenerOps.close. apply wp_bind_get. destruct (ls_open l) eqn:Eo; cbn [negb]; [|by apply wp_ret].
  apply wp_next_listen. intros e l' Eo' Eq. apply wp_bind_modify. destruct e; try (by apply wp_ret). by apply wp_fail.
Qed.

(** The end of [stop], once the threads have returned. *)
Lemma wp_stop_end (sv : Server S) w : sv_accepting sv = false → all_finished (sv_conns sv) →
  wp stop_end sv w
    (λ _ sv' w', w' = w ∧ sv_conns sv' = [] ∧ ls_open (sv_listener sv') = false ∧ sv_accepting sv' = false ∧ sv_store sv' = sv_store sv ∧
       sv_stopping sv' = sv_stopping sv ∧ sv_accepted sv' = sv_accepted sv ∧ ls_queue (sv_listener sv') = ls_queue (sv_listener sv))
    (λ _ _ _, False) (λ _, False).
Proof.
  intros Ha Hf. unfold stop_end. apply wp_bind_get. rewrite Ha, (proj2 (all_finished_spec _)) by done. cbn [orb]. apply wp_bind_modify.
  unfold on_listener. eapply wp_bind_attempt_zoom; [apply wp_listener_close|..]; cbn beta; [| |done].
  all: intros r l' w' _ (-> & Eo & Eq); by apply wp_ret.
Qed.

Lemma stop_end_inv (sv : Server S) w (sv' : Server S) w' : stop_end sv w = Ok tt sv' w' → sv_accepting sv = false ∧ all_finished (sv_conns sv).
Proof.
  unfold stop_end, mbind, M_bind, get. destruct (sv_accepting sv || existsb (λ c, negb (cn_finished c)) (sv_conns sv)) eqn:E; [done|].
  intros _. apply orb_false_iff in E as [Ha Hf]. split; [done|by apply all_finished_spec].
Qed.

Lemma join_ok m0 tr sv w sv' w' : server_ok m0 tr sv w → stop_end sv w = Ok tt sv' w' → server_ok m0 tr sv' w'.
Proof.
  intros [G1 G2 G3 [G4 G4'] G5 G6] E. destruct (stop_end_inv _ _ _ _ E) as [Ha Hf]. pose proof (wp_stop_end sv w Ha Hf) as Hw.
  unfold wp in Hw. rewrite E in Hw. destruct Hw as (_ & -> & Ec & _ & _ & Es & Est & En & Eq).
  split; rewrite ?Ec, ?Es, ?Est, ?En, ?Eq; try done; constructor.
Qed.

(** A round of the store's own thread. *)
Lemma round_ok m0 tr sv w s' w' : server_ok m0 tr sv w → kv_calm (sv_store sv) w → kv_round (sv_store sv) w = Ok tt s' w' →
  server_ok m0 tr (set_store s' sv) w'.
Proof.
  intros [(m & Hch & Hh) G2 G3 G4 G5 G6] Hc E. split; try done. exists m. split; [done|].
  pose proof (kv_round_law _ w m Hh Hc) as Hw. unfold wp in Hw. rewrite E in Hw. by destruct Hw.
Qed.

Lemma step_ok m0 tr a tr' b : server_ok m0 tr a.1 a.2 → server_step a tr' b → server_ok m0 (tr ++ tr') b.1 b.2.
Proof.
  intros Hok Hs. destruct Hs as [sv w sv' w' Ha Hmax E|i c sv w r sv' w' Hi Hn Hr E|sv w s' w' Hc E|sv w sv' w' E|sv w sv' w' E];
    cbn [fst snd] in *; rewrite ?app_nil_r.
  - pose proof (wp_accept_pass sv w) as Hw. unfold wp in Hw. rewrite E in Hw. destruct Hw as (_ & -> & Ht & _). by eapply accept_ok.
  - by eapply serve_ok.
  - by eapply round_ok.
  - by eapply stop_ok.
  - by eapply join_ok.
Qed.

Lemma run_ok m0 a tr b : server_ok m0 [] a.1 a.2 → server_run a tr b → server_ok m0 tr b.1 b.2.
Proof. intros Hok Hrun. induction Hrun as [a|a tr b tr' c Hrun IH Hs]; [done|]. eapply step_ok; [by apply IH|done]. Qed.

(** A server that has just started, over a store that holds [m0]. *)
Definition starting (sv : Server S) (w : World) (m0 : gmap bytes bytes) : Prop :=
  kv_holds (sv_store sv) w m0 ∧ sv_conns sv = [] ∧ sv_accepted sv = 0 ∧ Forall fresh_socket (ls_queue (sv_listener sv)).

(** C13: However the threads of the server take turns, clients see one store.  The requests
    answered so far, over all connections, form one sequence that is a correct sequence of
    calls on the map the store held at the start, and the store holds the resulting map.
    On each connection, the requests are the frames its client sent, each once and in
    order, and what was sent back are their own answers in that order, except that a
    finished connection may have been cut off inside an answer. *)
Theorem server_serialises sv w m0 tr sv' w' : starting sv w m0 → server_run (sv, w) tr (sv', w') →
  (∃ m, chain m0 tr m ∧ kv_holds (sv_store sv') w' m) ∧
  ∀ c, c ∈ sv_conns sv' →
    requests (mine (cn_id c) tr) `prefix_of` stream (lk_sock (cn_link c)) ∧
    sk_sent (lk_sock (cn_link c)) `prefix_of` replies (mine (cn_id c) tr) ∧
    (cn_finished c = false → sk_sent (lk_sock (cn_link c)) = replies (mine (cn_id c) tr)).
Proof.
  intros (Hh & Ec & Ea & Hq) Hrun. destruct (run_ok m0 (sv, w) tr (sv', w')) as [G1 G2 _ _ _ _]; [|done|].
  - split; cbn; rewrite ?Ec, ?Ea; try done; [exists m0; split; [constructor|done]|constructor].
  - split; [done|]. intros c Hc. cbn in G2. rewrite Forall_forall in G2. destruct (G2 c Hc) as [_ _ C3 C4 _]. split_and!.
    + destruct C3 as [->|[_ ?]]; [by apply prefix_app_r|done].
    + by destruct C4 as [->|[_ ?]].
    + intros Hn. destruct C4 as [?|[? _]]; [done|congruence].
Qed.






End Run.
