(* ===== verification/Remote.v ===== *)
(** A client and a server at the two ends of a connection: together they are a store.

    The other end of the client's socket is the server: given the bytes the client has sent,
    it has sent back what [serve_connection] writes for them. *)

From S2P Require Import Prelude Status FileNames World Wp Encoding Protocol Net Frames FrameSpec Stores Server ServerSpec Client.
Import FrameOps ServerOps ClientOps.

#[local] Opaque std_to_string.

Section Remote.
Context {S : Type} `{Platform} `{Contract S}.

(** * Calls that go through *)

Lemma read_exact lk w p rest : sk_open (lk_sock lk) = true → net_ok (sk_events (lk_sock lk)) → cancelled (lk_reader lk) ≠ Some true →
  sz p ≤ max_frame_ (lk_reader lk) ≤ UINT32_MAX → unread lk = frame p ++ rest →
  ∃ lk1, read_frame lk w = Ok (Complete p) lk1 w ∧ follows lk lk1 ∧ unread lk1 = rest.
Proof.
  intros Ho Hn Hc Hp Hu. pose proof (wp_read_frame lk w Ho) as Hw. unfold wp in Hw.
  rewrite Hu, parse_frame_app in Hw by lia. destruct (read_frame lk w) as [r lk1 w1|e lk1 w1|w1|]; [|by destruct Hw as (_ & _ & _ & [[_ ?]|?])|by destruct Hw|done].
  destruct Hw as (_ & -> & Hf & Hcan & _ & Hr). destruct r as [q| | |]; cbn [reads_as] in Hr; rewrite ?parse_frame_app in Hr by lia.
  - injection Hr as -> Hu1. by exists lk1.
  - by destruct Hr.
  - by destruct Hc; apply Hcan.
  - by destruct Hr.
Qed.

Lemma read_waits lk w : sk_open (lk_sock lk) = true → net_ok (sk_events (lk_sock lk)) → cancelled (lk_reader lk) ≠ Some true →
  unread lk = [] → ended (lk_sock lk) = false → ∃ lk1, read_frame lk w = Ok StillWaits lk1 w ∧ follows lk lk1 ∧ unread lk1 = [].
Proof.
  intros Ho Hn Hc Hu He. pose proof (wp_read_frame lk w Ho) as Hw. unfold wp in Hw. rewrite Hu, He in Hw.
  destruct (read_frame lk w) as [r lk1 w1|e lk1 w1|w1|]; [|by destruct Hw as (_ & _ & _ & [[_ ?]|?])|by destruct Hw|done].
  destruct Hw as (_ & -> & Hf & Hcan & _ & Hr). destruct r as [q| | |]; cbn [reads_as] in Hr; [done|by destruct Hr|by destruct Hc; apply Hcan|].
  destruct Hr as [_ Hr]. by exists lk1.
Qed.

Lemma write_exact payload s w : sk_open s = true → sk_down s = false → net_ok (sk_events s) → sz payload ≤ protocol.kMaxFrameSize →
  ∃ evs', evs' `suffix_of` sk_events s ∧ write_frame payload s w = Ok tt (told (frame payload) evs' s) w.
Proof.
  intros Ho Hd Hn Hp. pose proof (wp_write_frame payload s w Ho Hd) as Hw. unfold wp in Hw.
  destruct (write_frame payload s w) as [[] s1 w1|e s1 w1|w1|]; [|destruct Hw as (_ & _ & [[? _]|[? _]]); [lia|done]|by destruct Hw|done].
  destruct Hw as (_ & -> & _ & evs' & Hs & ->). by exists evs'.
Qed.

(** * The server's end *)

(** The payloads [ps] are handled with the responses [rs]. *)
Inductive serves (s0 : S) (w0 : World) : list bytes → list Response → S → World → Prop :=
| serves_nil : serves s0 w0 [] [] s0 w0
| serves_snoc ps rs s w p r s' w' : serves s0 w0 ps rs s w → sz p ≤ protocol.kMaxFrameSize →
    handle p s w = Ok r s' w' → sz (protocol.encode_response r) ≤ protocol.kMaxFrameSize →
    serves s0 w0 (ps ++ [p]) (rs ++ [r]) s' w'.

Definition frames (ps : list bytes) : bytes := concat (frame <$> ps).
Definition reply_frames (rs : list Response) : bytes := frames (protocol.encode_response <$> rs).

Lemma frames_snoc ps p : frames (ps ++ [p]) = frames ps ++ frame p.
Proof. unfold frames. rewrite fmap_app, concat_app. cbn. by rewrite app_nil_r. Qed.
Lemma reply_frames_snoc rs r : reply_frames (rs ++ [r]) = reply_frames rs ++ frame (protocol.encode_response r).
Proof. unfold reply_frames. rewrite fmap_app. apply frames_snoc. Qed.

(** The server's socket when the client has sent [sent] and waits. *)
Definition server_link (sent : bytes) : Link :=
  new_link default_server_options false (mkSocket true (λ _, (sent, false)) [] 0 false []).

Definition server_peer (s0 : S) (w0 : World) (sent : bytes) : bytes * bool :=
  match serve_connection (Datatypes.S (length sent)) false (server_link sent, s0) w0 with
  | Ok KeepsWaiting p _ => (sk_sent (lk_sock p.1), false)
  | Ok _ p _ => (sk_sent (lk_sock p.1), true)
  | _ => ([], true)
  end.

(** The server's link between two passes. *)
Record serving_link (sent out : bytes) (lk : Link) (todo : bytes) : Prop := {
  sl_sock : sk_open (lk_sock lk) = true ∧ sk_down (lk_sock lk) = false ∧ sk_events (lk_sock lk) = [];
  sl_peer : sk_peer (lk_sock lk) = λ _, (sent, false);
  sl_sent : sk_sent (lk_sock lk) = out;
  sl_reader : max_frame_ (lk_reader lk) = protocol.kMaxFrameSize ∧ cancelled (lk_reader lk) = Some false;
  sl_unread : unread lk = todo;
}.

Lemma follows_serving sent out lk todo lk1 todo1 : serving_link sent out lk todo → follows lk lk1 → unread lk1 = todo1 → serving_link sent out lk1 todo1.
Proof.
  intros [(L1 & L2 & L3) L4 L5 [L6 L7] _] [F1 F2 F3 F4 F5 F6 F7 F8 _] Hu. rewrite L3 in F5. apply suffix_nil_inv in F5.
  split; [split_and!; congruence|congruence|congruence|split; congruence|done].
Qed.

Lemma pass_exact sent out lk p rest s w r s' w' : serving_link sent out lk (frame p ++ rest) → sz p ≤ protocol.kMaxFrameSize →
  handle p s w = Ok r s' w' → sz (protocol.encode_response r) ≤ protocol.kMaxFrameSize →
  ∃ lk', serve_pass false (lk, s) w = Ok (GoesOn p r) (lk', s') w' ∧ serving_link sent (out ++ frame (protocol.encode_response r)) lk' rest.
Proof.
  intros Hl Hp Hh Hr. pose proof Hl as [(L1 & L2 & L3) L4 L5 [L6 L7] L8].
  destruct (read_exact lk w p rest L1) as (lk1 & E1 & Hf & Hu); [rewrite L3; constructor|by rewrite L7|rewrite L6; unfold protocol.kMaxFrameSize, UINT32_MAX in *; lia|done|].
  pose proof (follows_serving _ _ _ _ _ _ Hl Hf Hu) as [(K1 & K2 & K3) K4 K5 K6 K7].
  destruct (write_exact (protocol.encode_response r) (lk_sock lk1) w' K1 K2) as (evs' & Hs & E2); [rewrite K3; constructor|done|].
  rewrite K3 in Hs. apply suffix_nil_inv in Hs as ->. eexists. split.
  - unfold serve_pass, on_link, on_kv, on_sock, attempt, zoom, mbind, M_bind. cbn [fst snd]. rewrite E1. cbn [fst snd]. rewrite Hh. cbn [fst snd].
    rewrite E2. reflexivity.
  - split; cbn; try done; [by rewrite K5|]. unfold unread, arrived in *. cbn. rewrite K4 in *. done.
Qed.

(** The passes over the requests, one after the other. *)
Lemma serves_runs s0 w0 ps rs s w : serves s0 w0 ps rs s w →
  ∀ sent lk rest out fuel, serving_link sent out lk (frames ps ++ rest) →
  ∃ lk', serving_link sent (out ++ reply_frames rs) lk' rest ∧
    serve_connection (length ps + fuel) false (lk, s0) w0 = serve_connection fuel false (lk', s) w.
Proof.
  induction 1 as [|ps rs s w p r s' w' _ IH Hp Hh Hr]; intros sent lk rest out fuel Hl.
  { exists lk. split; [|done]. unfold reply_frames, frames. cbn. by rewrite app_nil_r. }
  rewrite frames_snoc, <-app_assoc in Hl. destruct (IH _ _ _ _ (Datatypes.S fuel) Hl) as (lk1 & Hl1 & E1).
  destruct (pass_exact _ _ _ _ _ _ _ _ _ _ Hl1 Hp Hh Hr) as (lk2 & E2 & Hl2). exists lk2.
  rewrite reply_frames_snoc, app_assoc. split; [done|].
  replace (length (ps ++ [p]) + fuel)%nat with (length ps + Datatypes.S fuel)%nat by (rewrite length_app; cbn; lia).
  rewrite E1. cbn [serve_connection]. unfold mbind, M_bind. by rewrite E2.
Qed.

Lemma length_frames ps : (length ps ≤ length (frames ps))%nat.
Proof.
  induction ps as [|p ps IH]; [done|]. unfold frames in *. cbn [fmap list_fmap concat length]. rewrite length_app.
  pose proof (sz_frame p) as Hf. pose proof (sz_nonneg p). unfold sz in *. lia.
Qed.

(** The server answers what it is sent, and waits for more. *)
Lemma server_peer_frames s0 w0 ps rs s w : serves s0 w0 ps rs s w → server_peer s0 w0 (frames ps) = (reply_frames rs, false).
Proof.
  intros Hs. unfold server_peer. pose proof (length_frames ps) as Hlen.
  destruct (serves_runs _ _ _ _ _ _ Hs (frames ps) (server_link (frames ps)) [] [] (Datatypes.S (length (frames ps) - length ps))) as (lk' & Hl & E).
  { split; try done. unfold unread, arrived. cbn. by rewrite app_nil_r. }
  replace (Datatypes.S (length (frames ps))) with (length ps + Datatypes.S (length (frames ps) - length ps))%nat by lia. rewrite E.
  pose proof Hl as [(L1 & L2 & L3) L4 L5 [L6 L7] L8].
  destruct (read_waits lk' w L1) as (lk2 & E2 & Hf & Hu); [rewrite L3; constructor|by rewrite L7|done|unfold ended; by rewrite L4|].
  pose proof (follows_serving _ _ _ _ _ _ Hl Hf Hu) as [_ _ K5 _ _].
  cbn [serve_connection]. unfold serve_pass, on_link, attempt, zoom, mbind, M_bind. cbn [fst snd]. rewrite E2. cbn. by rewrite K5.
Qed.

(** * The client's end *)

Section Client.
Context (s0 : S) (w0 : World).

(** A client that has had [ps] answered with [rs]. *)
Record connected (c : Client) (ps : list bytes) (rs : list Response) : Prop := {
  ct_sock : sk_open (lk_sock (cl_link c)) = true ∧ sk_down (lk_sock (cl_link c)) = false;
  ct_peer : sk_peer (lk_sock (cl_link c)) = server_peer s0 w0;
  ct_sent : sk_sent (lk_sock (cl_link c)) = frames ps;
  ct_reader : max_frame_ (lk_reader (cl_link c)) = protocol.kMaxFrameSize ∧ cancelled (lk_reader (cl_link c)) = None;
  ct_read : buf_ (lk_reader (cl_link c)) = [] ∧ sk_taken (lk_sock (cl_link c)) = length (reply_frames rs);
}.

(** The map the client gives access to: the one the server's store holds. *)
Definition remote_holds (c : Client) (m : gmap bytes bytes) : Prop :=
  ∃ ps rs s w, serves s0 w0 ps rs s w ∧ connected c ps rs ∧ kv_holds s w m.

(** The network delivers, the messages are within the frame limit, and the store at the
    other end is within its own. *)
Definition remote_ready (q : Request) (c : Client) : Prop :=
  net_ok (sk_events (lk_sock (cl_link c))) ∧ sz (protocol.encode_request q) ≤ protocol.kMaxFrameSize ∧
  ∀ ps rs s w, serves s0 w0 ps rs s w → connected c ps rs → quiet w ∧ kv_ready q s w ∧
    ∀ r s' w', handle (protocol.encode_request q) s w = Ok r s' w' → sz (protocol.encode_response r) ≤ protocol.kMaxFrameSize.

Lemma fits_request_ok q : sz (protocol.encode_request q) ≤ protocol.kMaxFrameSize → (rq_op q ≠ OpPut → rq_value q = []) → protocol.request_ok q.
Proof.
  intros Hs Hv. split; [|done]. unfold protocol.encode_request, protocol.append_string in Hs.
  destruct (bool_decide (rq_op q = OpPut)); rewrite ?sz_app in Hs; unfold protocol.kMaxFrameSize, UINT32_MAX in *;
    pose proof (sz_nonneg (rq_value q)); unfold sz in *; lia.
Qed.

(** The client's link once it has sent one more request. *)
Lemma unread_reply c ps rs r evs' p : connected c ps rs → server_peer s0 w0 (frames (ps ++ [p])) = (reply_frames (rs ++ [r]), false) →
  unread (set_sock (told (frame p) evs' (lk_sock (cl_link c))) (cl_link c)) = frame (protocol.encode_response r) ++ [].
Proof.
  intros [_ C2 C3 _ [C5 C6]] E. unfold unread, arrived. cbn. rewrite C2, C3, C5, C6, <-frames_snoc, E. cbn [fst].
  by rewrite reply_frames_snoc, drop_app_length, app_nil_r.
Qed.

(** The client after the answer has been read. *)
Lemma connected_next c ps rs p r evs' lk2 : connected c ps rs → server_peer s0 w0 (frames (ps ++ [p])) = (reply_frames (rs ++ [r]), false) →
  follows (set_sock (told (frame p) evs' (lk_sock (cl_link c))) (cl_link c)) lk2 → unread lk2 = [] →
  connected (mkClient lk2) (ps ++ [p]) (rs ++ [r]).
Proof.
  intros [[C1 C1'] C2 C3 [C4 C4'] [C5 C6]] E [F1 F2 F3 F4 F5 F6 F7 F8 F9] Hu. cbn in *. apply app_nil in Hu as [Hb Ha].
  rewrite C2 in F2. rewrite C3, <-frames_snoc in F3. unfold arrived in Ha. rewrite F2, F3, E in Ha. cbn in Ha.
  unfold within in F9. cbn in F9. rewrite F2, F3, C2, C3, <-frames_snoc, E, C6 in F9. cbn in F9.
  split; cbn; [split; congruence|done|done|split; congruence|]. split; [done|].
  apply (f_equal length) in Ha. rewrite length_drop in Ha. cbn in Ha. rewrite reply_frames_snoc in *. rewrite !length_app in *.
  apply Nat.le_antisymm; [apply F9, Nat.le_add_r|by apply Nat.sub_0_le].
Qed.

(** A request and its answer. *)
Lemma wp_exchange q c w m : remote_holds c m → remote_ready q c → (rq_op q ≠ OpPut → rq_value q = []) →
  wp (exchange q) c w (λ r c' _, ∃ m', answers m (protocol.encode_request q) r m' ∧ remote_holds c' m') (λ _ _ _, False) (λ _, False).
Proof.
  intros (ps & rs & s & ws & Hs & Hc & Hh) (Hn & Hfit & Hready) Hv. set (p := protocol.encode_request q) in *.
  destruct (Hready _ _ _ _ Hs Hc) as (Hq & Hr & Hback). assert (Hdec : protocol.decode_request p = ROk q) by (by apply protocol.decode_encode_request, fits_request_ok).
  assert (Hrf : ready_for p s ws) by (intros q'; rewrite Hdec; by intros [= <-]).
  pose proof (wp_handle p s ws m Hh Hrf) as Hw. unfold wp in Hw.
  destruct (handle p s ws) as [r s' w'|e s' w'|w'|] eqn:Eh; [|by destruct Hw|by destruct Hw|done]. destruct Hw as (_ & m' & Hans & Hh').
  specialize (Hback _ _ _ eq_refl). assert (Hs' : serves s0 w0 (ps ++ [p]) (rs ++ [r]) s' w') by (by eapply serves_snoc).
  pose proof (server_peer_frames _ _ _ _ _ _ Hs') as Epeer. pose proof Hc as [[C1 C1'] C2 C3 [C4 C4'] [C5 C6]].
  destruct (write_exact p (lk_sock (cl_link c)) w C1 C1' Hn Hfit) as (evs' & Hev & E1).
  set (lk1 := set_sock (told (frame p) evs' (lk_sock (cl_link c))) (cl_link c)).
  destruct (read_exact lk1 w (protocol.encode_response r) []) as (lk2 & E2 & Hf & Hu);
    [done|by eapply net_ok_suffix|cbn; by rewrite C4'|cbn; rewrite C4; split; [exact Hback|done]|by eapply unread_reply|].
  assert (E3 : exchange q c w = Ok r (mkClient lk2) w).
  { unfold exchange, on_conn, on_sock, zoom, mbind, M_bind. cbn [cl_link]. fold p. rewrite E1. cbn [cl_link]. fold lk1. rewrite E2.
    by rewrite protocol.decode_encode_response. }
  unfold wp. rewrite E3. split; [done|]. exists m'. split; [done|]. exists (ps ++ [p]), (rs ++ [r]), s', w'. split_and!; [done| |done].
  by eapply connected_next.
Qed.

(** [return_status] on an answer to a write. *)
Lemma wp_return_status r c w (Q E : Client → Prop) : (rs_code r = COk → Q c) → (rs_code r ≠ COk → E c) →
  wp (return_status r) c w (λ _ c' _, Q c') (λ e c' _, is_ok e = false ∧ E c') (λ _, False).
Proof.
  intros HQ HE. unfold return_status, protocol.to_status. destruct (rs_code r); cbn [is_ok]; [apply wp_ret; by apply HQ|..];
    apply wp_fail; (split; [done|by apply HE]).
Qed.

Lemma wp_client_put k v c w m : remote_holds c m → remote_ready (mkRequest OpPut k v) c →
  wp (ClientOps.put k v) c w (λ _ c' _, k ≠ [] ∧ remote_holds c' (<[k := v]> m)) (λ e c' _, is_ok e = false ∧ remote_holds c' m) (λ _, False).
Proof.
  intros Hh Hr. unfold ClientOps.put. wp_call (wp_exchange (mkRequest OpPut k v) c w m Hh Hr ltac:(done)).
  intros r c1 w1 _ (m' & Ha & Hh'). unfold answers in Ha.
  rewrite protocol.decode_encode_request in Ha by (apply fits_request_ok; [apply Hr|done]). cbn [rq_op rq_key rq_value] in Ha.
  apply (wp_return_status r c1 w1 (λ c', k ≠ [] ∧ remote_holds c' (<[k := v]> m)) (λ c', remote_holds c' m));
    intros Hc; destruct Ha as [(-> & Hk & ->)|[Hc' ->]]; done.
Qed.

Lemma wp_client_remove k c w m : remote_holds c m → remote_ready (mkRequest OpDelete k []) c →
  wp (ClientOps.remove k) c w (λ _ c' _, remote_holds c' (delete k m)) (λ e c' _, is_ok e = false ∧ remote_holds c' m) (λ _, False).
Proof.
  intros Hh Hr. unfold ClientOps.remove. wp_call (wp_exchange (mkRequest OpDelete k []) c w m Hh Hr ltac:(done)).
  intros r c1 w1 _ (m' & Ha & Hh'). unfold answers in Ha.
  rewrite protocol.decode_encode_request in Ha by (apply fits_request_ok; [apply Hr|done]). cbn [rq_op rq_key rq_value] in Ha.
  apply (wp_return_status r c1 w1 (λ c', remote_holds c' (delete k m)) (λ c', remote_holds c' m));
    intros Hc; destruct Ha as [(-> & ->)|[Hc' ->]]; done.
Qed.

Lemma wp_client_get k c w m : remote_holds c m → remote_ready (mkRequest OpGet k []) c →
  wp (ClientOps.get k) c w (λ v c' _, m !! k = Some v ∧ remote_holds c' m) (λ e c' _, code_ e = NotFound ∧ m !! k = None ∧ remote_holds c' m) (λ _, False).
Proof.
  intros Hh Hr. unfold ClientOps.get. wp_call (wp_exchange (mkRequest OpGet k []) c w m Hh Hr ltac:(done)).
  intros r c1 w1 _ (m' & Ha & Hh'). unfold answers in Ha.
  rewrite protocol.decode_encode_request in Ha by (apply fits_request_ok; [apply Hr|done]). cbn [rq_op rq_key rq_value] in Ha.
  destruct Ha as [-> Ha]. destruct (m !! k) as [v|] eqn:Ek.
  - subst r. by apply wp_ret.
  - rewrite bool_decide_eq_false_2 by (by rewrite Ha). apply wp_fail. unfold protocol.to_status. by rewrite Ha.
Qed.

(** A client that has just connected. *)
Lemma connected_start sock : sk_open sock = true → sk_down sock = false → sk_peer sock = server_peer s0 w0 →
  sk_sent sock = [] → sk_taken sock = 0%nat → connected (mkClient (mkLink sock default_reader)) [] [].
Proof. intros. by split. Qed.

(** The client as a store, for its own clients. *)
Definition remote_contract : Contract Client := {|
  kv_holds c _ m := remote_holds c m;
  kv_left _ _ := False;
  kv_ready q c _ := remote_ready q c;
  kv_calm _ _ := True;
  kv_put_law k v c w m Hh Hr := wp_mono _ c w _ _ _ _ _ _ (wp_client_put k v c w m Hh Hr) (λ _ _ _ _ H, H) (λ _ _ _ _ H, H) (λ _ _ H, or_introl H);
  kv_get_law k c w m Hh Hr := wp_client_get k c w m Hh Hr;
  kv_round_law c w m Hh _ := wp_ret tt c w _ _ _ Hh;
  kv_remove_law k c w m Hh Hr := wp_mono _ c w _ _ _ _ _ _ (wp_client_remove k c w m Hh Hr) (λ _ _ _ _ H, H) (λ _ _ _ _ H, H) (λ _ _ H, or_introl H);
|}.
End Client.

(** C14: A client and a server at the two ends of a connection are a store like the one the
    server was started on.  A client that connects to a server whose store holds a map has
    that map; a put that returns Ok has bound the key in the server's store and one that
    fails has changed nothing there; a get returns exactly the value the server's store has
    for the key, and NotFound when it has none; a remove that returns Ok has unbound the
    key.  This holds however the network cuts the bytes of requests and answers into pieces,
    for every store the server may be given, and after each call the client has read its own
    answer to the last byte, so the next call starts from the same situation. *)
Theorem client_refines_store (s0 : S) (w0 : World) :
  (∀ sys host port sock m, platform_connect.connect_to sys host port = Some sock → sk_open sock = true → sk_down sock = false → sk_peer sock = server_peer s0 w0 → sk_sent sock = [] → sk_taken sock = 0%nat →
     kv_holds s0 w0 m → ∃ c, connect sys host port = ROk c ∧ remote_holds s0 w0 c m) ∧
  (∀ k v c w m, remote_holds s0 w0 c m → remote_ready s0 w0 (mkRequest OpPut k v) c →
     wp (ClientOps.put k v) c w (λ _ c' _, k ≠ [] ∧ remote_holds s0 w0 c' (<[k := v]> m))
       (λ e c' _, is_ok e = false ∧ remote_holds s0 w0 c' m) (λ _, False)) ∧
  (∀ k c w m, remote_holds s0 w0 c m → remote_ready s0 w0 (mkRequest OpGet k []) c →
     wp (ClientOps.get k) c w (λ v c' _, m !! k = Some v ∧ remote_holds s0 w0 c' m)
       (λ e c' _, code_ e = NotFound ∧ m !! k = None ∧ remote_holds s0 w0 c' m) (λ _, False)) ∧
  (∀ k c w m, remote_holds s0 w0 c m → remote_ready s0 w0 (mkRequest OpDelete k []) c →
     wp (ClientOps.remove k) c w (λ _ c' _, remote_holds s0 w0 c' (delete k m))
       (λ e c' _, is_ok e = false ∧ remote_holds s0 w0 c' m) (λ _, False)).
Proof.
  split; [|split_and!; [apply wp_client_put|apply wp_client_get|apply wp_client_remove]].
  intros sys host port sock m E Ho Hd Hp Hs Ht Hh. eexists. split; [unfold connect, SocketOps.connect; by rewrite E|]. exists [], [], s0, w0. split_and!; [constructor|by apply connected_start|done].
Qed.
End Remote.
