(* ===== verification/Apps.v ===== *)
(** The command line programs: [apps/cli_main.cpp], [apps/server_main.cpp].

    A program is given its arguments, without the name it was called by, and the system it
    asks for sockets.  Its state are the bytes it has
    written to its two output streams and the objects [main] owns. *)

From S2P Require Import Prelude Status FileNames World Wp Encoding LogFile Bitcask LsmState Lsm LsmOpen.
From S2P Require Import Protocol Net Frames Stores Server Client.
Import FrameOps.

(** * What the programs use of the C library *)

Definition is_space (b : byte) : bool := (byte.unsigned b =? 32) || (9 <=? byte.unsigned b) && (byte.unsigned b <=? 13).
Definition is_digit (b : byte) : bool := (48 <=? byte.unsigned b) && (byte.unsigned b <=? 57).

Fixpoint skip_spaces (s : bytes) : bytes :=
  match s with
  | b :: rest => if is_space b then skip_spaces rest else s
  | [] => []
  end.

Fixpoint read_digits (s : bytes) (n : Z) : Z :=
  match s with
  | b :: rest => if is_digit b then read_digits rest (10 * n + (byte.unsigned b - 48)) else n
  | [] => n
  end.

Definition LONG_MAX : Z := 9223372036854775807.
Definition LONG_MIN : Z := -9223372036854775808.

(** [strtol(s, nullptr, 10)], with a 64-bit [long]: 0 without digits, what follows the digits
    is ignored, a value out of range becomes the nearest one in range. *)
Definition strtol (s : bytes) : Z :=
  let s := skip_spaces s in
  let v := match s with
           | b :: rest => if byte.unsigned b =? 45 then - read_digits rest 0
                          else if byte.unsigned b =? 43 then read_digits rest 0
                          else read_digits s 0
           | [] => 0
           end in
  Z.max LONG_MIN (Z.min LONG_MAX v).

(** ["%ld"]. *)
Definition print_long (n : Z) : bytes := if n <? 0 then lit "-" ++ std_to_string (- n) else std_to_string n.

Definition newline : bytes := [byte.of_Z 10].

(** A running program: its output streams and, in kv-cli, [main]'s [client]. *)
Record Process : Type := mkProcess {
  pr_stdout : bytes;
  pr_stderr : bytes;
  pr_client : option Client;
}.

Definition print_err (bs : bytes) : M Process unit :=
  modify (λ p, mkProcess (pr_stdout p) (pr_stderr p ++ bs) (pr_client p)).
Definition print_out (bs : bytes) : M Process unit :=
  modify (λ p, mkProcess (pr_stdout p ++ bs) (pr_stderr p) (pr_client p)).
Definition set_client (c : Client) : M Process unit :=
  modify (λ p, mkProcess (pr_stdout p) (pr_stderr p) (Some c)).

(** * kv-cli *)

Module kv_cli.
Section kv_cli.
Context `{Platform}.

Record Args : Type := mkArgs { host : bytes; port : Z; command : list bytes; help : bool }.
Definition default_args : Args := mkArgs (lit "127.0.0.1") 7379 [] false.

Definition usage : bytes := lit
"usage: kv-cli [--host ADDR] [--port N] <command>

  get KEY
  put KEY VALUE
  delete KEY

The value of a successful get goes to stdout as raw bytes with
no trailing newline, so `kv-cli get k > file` writes exactly
what was stored. Everything else goes to stderr.

Exit status: 0 ok, 1 not found, 2 error.
".

Definition print_usage : M Process unit := print_err usage.

(** The argument is an option that is not known, or one that lacks its value, or it is where
    the command starts. *)
Definition parse_rest (arg : bytes) (tl : list bytes) (args : Args) : M Process (bool * Args) :=
  if bool_decide (lit "--" `prefix_of` arg) then
    print_err (lit "kv-cli: unrecognised option: " ++ arg ++ newline);; mret (false, args)
  else mret (true, mkArgs (host args) (port args) (command args ++ arg :: tl) (help args)).

(** [parse_args]: whether the arguments are well-formed, and what they say. *)
Fixpoint parse_args (argv : list bytes) (args : Args) : M Process (bool * Args) :=
  match argv with
  | [] => mret (true, args)
  | arg :: tl =>
      if bool_decide (arg = lit "--help") || bool_decide (arg = lit "-h") then
        mret (true, mkArgs (host args) (port args) (command args) true)
      else
        match tl with
        | [] => parse_rest arg tl args
        | v :: tl' =>
            if bool_decide (arg = lit "--host") then
              parse_args tl' (mkArgs v (port args) (command args) (help args))
            else if bool_decide (arg = lit "--port") then
              let value := strtol v in
              if (value <? 1) || (65535 <? value) then
                print_err (lit "kv-cli: port out of range: " ++ print_long value ++ newline);; mret (false, args)
              else parse_args tl' (mkArgs (host args) (value mod 65536) (command args) (help args))
            else parse_rest arg tl args
        end
  end.

(** [write_value]. *)
Definition write_value (value : bytes) : M Process unit := print_out value;; print_err newline.

(** [exit_code_for]. *)
Definition exit_code_for (status : Status) : Z :=
  if is_ok status then 0 else if bool_decide (code_ status = NotFound) then 1 else 2.

(** A call on the client. *)
Definition with_client {A : Type} (m : M Client A) : M Process A :=
  p ← get;
  match pr_client p with
  | None => stuck
  | Some c => r ← with_local c m; set_client r.2;; mret r.1
  end.

(** [~Client], when [main] returns. *)
Definition destroy_client : M Process unit := with_client (ClientOps.on_conn (on_sock SocketOps.close_if_open)).

(** The status is printed and becomes the exit code. *)
Definition report (status : Status) : M Process Z :=
  print_err (c_str (to_string status) ++ newline);;
  destroy_client;;
  mret (exit_code_for status).

(** [main] from the connected client on. *)
Definition run_command (verb key value : bytes) : M Process Z :=
  if bool_decide (verb = lit "get") then
    r ← with_client (attempt (ClientOps.get key));
    match r with
    | inl value => write_value value;; destroy_client;; mret (exit_code_for ok)
    | inr status => report status
    end
  else
    r ← with_client (attempt (if bool_decide (verb = lit "put") then ClientOps.put key value else ClientOps.remove key));
    report (match r with inl _ => ok | inr status => status end).

(** [main]. *)
Definition main (sys : NetSystem) (argv : list bytes) : M Process Z :=
  parsed ← parse_args argv default_args;
  let args := parsed.2 in
  if negb parsed.1 then print_usage;; mret 2
  else if help args || bool_decide (command args = []) then print_usage;; mret (if help args then 0 else 2)
  else
    let verb := nth 0 (command args) [] in
    let expected_args := if bool_decide (verb = lit "put") then 3 else 2 in
    if negb (bool_decide (verb = lit "get") || bool_decide (verb = lit "put") || bool_decide (verb = lit "delete")) ||
       negb (sz (command args) =? expected_args) then
      print_err (lit "kv-cli: bad command" ++ newline);; print_usage;; mret 2
    else
      match ClientOps.connect sys (host args) (port args) with
      | RErr status => print_err (lit "kv-cli: " ++ c_str (to_string status) ++ newline);; mret 2
      | Stuck => stuck
      | ROk client => set_client client;; run_command verb (nth 1 (command args) []) (nth 2 (command args) [])
      end.

End kv_cli.
End kv_cli.

(** * kvstore_server *)

(** [enum class Engine]. *)
Inductive Engine : Type := EngineBitcask | EngineLsm.
#[export] Instance Engine_eq : EqDecision Engine.
Proof. solve_decision. Defined.

(** What the server is started on: Bitcask behind a lock, or the LSM engine itself. *)
Definition served_store (e : Engine) : Type :=
  match e with EngineBitcask => LockedStore Bitcask | EngineLsm => LsmStore end.

Module kvstore_server.
Section kvstore_server.
Context `{Platform}.

#[export] Instance served_round (e : Engine) : Background (served_store e) :=
  match e with EngineBitcask => locked_round | EngineLsm => lsm_round end.
#[export] Instance served_kv (e : Engine) : KVStore (served_store e) :=
  match e with EngineBitcask => locked_store | EngineLsm => lsm_store end.

Record Args : Type := mkArgs {
  dir : bytes;
  host : bytes;
  port : Z;
  sync_mode : SyncMode;
  engine : Engine;
  help : bool;
}.
Definition default_args : Args := mkArgs (lit "kvstore-data") (lit "127.0.0.1") 7379 Always EngineBitcask false.

Definition usage : bytes := lit
"usage: kvstore_server [options]

  --dir PATH     database directory (default: kvstore-data)
  --engine NAME  bitcask or lsm (default: bitcask). The two
                 use incompatible on-disk layouts, so a
                 directory belongs to whichever wrote it
  --host ADDR    address to bind (default: 127.0.0.1)
  --port N       port to bind, 0 for any (default: 7379)
  --no-sync      do not fsync every write -- faster, and a
                 power cut loses whatever was still in the
                 page cache
  --help
".

Definition print_usage : M Process unit := print_err usage.

Definition unrecognised (arg : bytes) (args : Args) : M Process (bool * Args) :=
  print_err (lit "kvstore_server: unrecognised argument: " ++ arg ++ newline);; mret (false, args).

(** [parse_args]. *)
Fixpoint parse_args (argv : list bytes) (args : Args) : M Process (bool * Args) :=
  match argv with
  | [] => mret (true, args)
  | arg :: tl =>
      if bool_decide (arg = lit "--help") || bool_decide (arg = lit "-h") then
        mret (true, mkArgs (dir args) (host args) (port args) (sync_mode args) (engine args) true)
      else if bool_decide (arg = lit "--no-sync") then
        parse_args tl (mkArgs (dir args) (host args) (port args) Never (engine args) (help args))
      else
        match tl with
        | [] => unrecognised arg args
        | v :: tl' =>
            if bool_decide (arg = lit "--dir") then
              parse_args tl' (mkArgs v (host args) (port args) (sync_mode args) (engine args) (help args))
            else if bool_decide (arg = lit "--engine") then
              if bool_decide (v = lit "bitcask") then
                parse_args tl' (mkArgs (dir args) (host args) (port args) (sync_mode args) EngineBitcask (help args))
              else if bool_decide (v = lit "lsm") then
                parse_args tl' (mkArgs (dir args) (host args) (port args) (sync_mode args) EngineLsm (help args))
              else print_err (lit "kvstore_server: unknown engine: " ++ v ++ newline);; mret (false, args)
            else if bool_decide (arg = lit "--host") then
              parse_args tl' (mkArgs (dir args) v (port args) (sync_mode args) (engine args) (help args))
            else if bool_decide (arg = lit "--port") then
              let value := strtol v in
              if (value <? 0) || (65535 <? value) then
                print_err (lit "kvstore_server: port out of range: " ++ print_long value ++ newline);; mret (false, args)
              else parse_args tl' (mkArgs (dir args) (host args) (value mod 65536) (sync_mode args) (engine args) (help args))
            else unrecognised arg args
        end
  end.

(** [BitcaskOptions{sync_mode}] and the [LsmOptions] of [main]. *)
Definition bitcask_options (args : Args) : BitcaskOptions := mkOptions (sync_mode args) (Z.shiftl 64 20) false FailNone.
Definition lsm_options (args : Args) : LsmOptions :=
  let o := default_lsm_options in
  mkLsmOptions (sync_mode args) (lo_memtable_size o) (lo_block_size o) (lo_bits_per_key o) (lo_bloom_enabled o)
    (lo_read_mode o) (lo_l0_compaction_trigger o) (lo_level_base_bytes o) (lo_level_multiplier o)
    (lo_target_table_size o) (lo_max_levels o) (lo_fail_at o).

(** The engine is opened, and Bitcask put behind a lock. *)
Definition open_engine (args : Args) : M unit (served_store (engine args)) :=
  match engine args as e return M unit (served_store e) with
  | EngineBitcask => b ← BitcaskOps.open (dir args) (bitcask_options args); mret (mkLockedStore b false)
  | EngineLsm => LsmOpen.open (dir args) (lsm_options args)
  end.

(** [engine.describe]. *)
Definition describe (e : Engine) : served_store e → bytes :=
  match e return served_store e → bytes with
  | EngineBitcask => λ s, std_to_string (BitcaskOps.key_count (lk_inner s)) ++ lit " keys"
  | EngineLsm => λ s, std_to_string (LsmOpen.table_count s) ++ lit " tables, " ++
      std_to_string (LsmOpen.memtable_entries s) ++ lit " keys in the memtable"
  end.

(** [engine.shutdown], which goes past the lock. *)
Definition shutdown (e : Engine) : M (served_store e) unit :=
  match e return M (served_store e) unit with
  | EngineBitcask => zoom lk_inner (λ b s, mkLockedStore b (lk_held s)) BitcaskOps.sync
  | EngineLsm => LsmOps.flush;; LsmOps.sync
  end.

(** How [main] goes on from its arguments: it returns, or the server runs. *)
Inductive Begun : Type :=
| Exits (code : Z)
| Running (args : Args) (server : Server (served_store (engine args))).

(** The [ServerOptions] of [main]. *)
Definition server_options (args : Args) : ServerOptions :=
  let o := default_server_options in
  mkServerOptions (host args) (port args) (so_backlog o) (so_poll_timeout_ms o) (so_max_frame o).

(** [main] up to the loop that waits for a signal. *)
Definition main_begin (sys : NetSystem) (argv : list bytes) : M Process Begun :=
  parsed ← parse_args argv default_args;
  let args := parsed.2 in
  if negb parsed.1 then print_usage;; mret (Exits 2)
  else if help args then print_usage;; mret (Exits 0)
  else
    opened ← attempt (with_local tt (open_engine args));
    match opened with
    | inr status =>
        print_err (lit "kvstore_server: cannot open " ++ dir args ++ lit ": " ++ c_str (to_string status) ++ newline);;
        mret (Exits 1)
    | inl (store, _) =>
        match ServerOps.start sys store (server_options args) with
        | RErr status =>
            print_err (lit "kvstore_server: cannot listen: " ++ c_str (to_string status) ++ newline);; mret (Exits 1)
        | Stuck => stuck
        | ROk server =>
            print_err (lit "kvstore_server: " ++ dir args ++ lit " [" ++
              lit (if bool_decide (engine args = EngineBitcask) then "bitcask" else "lsm") ++ lit "], " ++
              describe (engine args) store ++ lit ", listening on " ++ host args ++ lit ":" ++
              std_to_string (ServerOps.port server) ++ lit " (Ctrl-C to stop)" ++ newline);;
            mret (Running args server)
        end
    end.

(** [main] from the signal on, [server->stop()] apart, which happens after the first line;
    the engine's files are closed by its destructor. *)
Definition main_end (e : Engine) (store : served_store e) : M Process (Z * served_store e) :=
  print_err (newline ++ lit "kvstore_server: stopping" ++ newline);;
  r ← with_local store (attempt (shutdown e));
  match r.1 with
  | inr status =>
      print_err (lit "kvstore_server: final sync failed: " ++ c_str (to_string status) ++ newline);; mret (1, r.2)
  | inl _ => mret (0, r.2)
  end.
End kvstore_server.
End kvstore_server.
