(* ===== verification/AppsSpec.v ===== *)
(** What the command line programs do: their arguments, one command of kv-cli against a
    server, and the life of kvstore_server. *)

From S2P Require Import Prelude Status FileNames World Wp Encoding Record LogFile LogScan.
From S2P Require Import Bitcask BitcaskState BitcaskSteps BitcaskServe BitcaskDisk BitcaskRecover BitcaskCompactDisk BitcaskCompaction BitcaskSession.
From S2P Require Import LsmState Lsm LsmServe LsmReads LsmWrite LsmCalls LsmOpen LsmOpened LsmProps.
From S2P Require Import Protocol Net Frames FrameSpec Stores Server Client ServerSpec ServerRun Remote Apps.
From Stdlib Require Import Eqdep_dec.
Import FrameOps.

#[local] Opaque std_to_string.

(** * Numbers *)

Lemma digit_byte d : 0 ≤ d < 10 → byte.unsigned (byte.of_Z (48 + d)) = 48 + d.
Proof. intros Hd. rewrite byte.unsigned_of_Z. unfold byte.wrap. rewrite Z.mod_small; lia. Qed.

Lemma read_digit d rest n : 0 ≤ d < 10 → read_digits (byte.of_Z (48 + d) :: rest) n = read_digits rest (10 * n + d).
Proof.
  intros Hd. cbn [read_digits]. unfold is_digit. rewrite digit_byte by done.
  rewrite !(proj2 (Z.leb_le _ _)) by lia. cbn [andb]. f_equal. lia.
Qed.

Lemma read_digits_printed fuel n rest : 0 ≤ n < 10 ^ Z.of_nat fuel → read_digits (to_string_loop fuel n rest) 0 = read_digits rest n.
Proof.
  revert n rest. induction fuel as [|fuel IH]; intros n rest Hn.
  { replace n with 0 by (simpl in Hn; lia). done. }
  cbn [to_string_loop]. pose proof (Z.mod_pos_bound n 10 eq_refl). pose proof (Z.div_mod n 10 ltac:(done)).
  destruct (Z.eqb_spec (n / 10) 0) as [E|E].
  - rewrite read_digit by lia. f_equal. lia.
  - rewrite Nat2Z.inj_succ, Z.pow_succ_r in Hn by lia. rewrite IH by lia. rewrite read_digit by lia. f_equal. lia.
Qed.

Lemma printed_head fuel n acc : 0 ≤ n → ∃ d rest, 0 ≤ d < 10 ∧ to_string_loop (S fuel) n acc = byte.of_Z (48 + d) :: rest.
Proof.
  revert n acc. induction fuel as [|fuel IH]; intros n acc Hn; pose proof (Z.mod_pos_bound n 10 eq_refl).
  - cbn [to_string_loop]. destruct (_ =? _); eauto.
  - remember (S fuel) as f. cbn [to_string_loop]. destruct (_ =? _); [eauto|]. subst f. apply IH. by apply Z.div_pos.
Qed.

#[local] Transparent std_to_string.
(** Printed in decimal and read again. *)
Lemma strtol_printed n : 0 ≤ n ≤ LONG_MAX → strtol (std_to_string n) = n.
Proof.
  intros Hn. unfold strtol, std_to_string. assert (Hr : read_digits (to_string_loop 20 n []) 0 = n).
  { rewrite read_digits_printed; [done|]. unfold LONG_MAX in *. lia. }
  destruct (printed_head 19 n []) as (d & rest & Hd & E); [lia|]. rewrite E in *. cbn [skip_spaces]. unfold is_space. rewrite !digit_byte by done.
  rewrite (proj2 (Z.eqb_neq _ 32)), (proj2 (Z.leb_gt _ 13)), andb_false_r by lia. cbn [orb].
  rewrite digit_byte by done. rewrite !(proj2 (Z.eqb_neq _ _)) by lia. rewrite Hr. unfold LONG_MIN, LONG_MAX in *. lia.
Qed.
#[local] Opaque std_to_string.

Section Args.
Context `{Platform}.

(** A call that prints at most to the error stream. *)
Definition says {A} (m : M Process A) (p : Process) (w : World) (Q : A → Prop) : Prop :=
  ∃ a err, m p w = Ok a (mkProcess (pr_stdout p) (pr_stderr p ++ err) (pr_client p)) w ∧ Q a.

Lemma says_ret {A} (a : A) p w (Q : A → Prop) : Q a → says (mret a) p w Q.
Proof. intros HQ. exists a, []. split; [|done]. rewrite app_nil_r. by destruct p. Qed.

Lemma says_print {A} bs (a : A) p w (Q : A → Prop) : Q a → says (print_err bs;; mret a) p w Q.
Proof. intros HQ. by exists a, bs. Qed.

Lemma port_kept v : 0 ≤ v ≤ 65535 → v mod 65536 = v.
Proof. intros Hv. apply Z.mod_small. lia. Qed.

Lemma cli_args argv : ∀ args p w, 1 ≤ kv_cli.port args ≤ 65535 →
  says (kv_cli.parse_args argv args) p w (λ r, 1 ≤ kv_cli.port r.2 ≤ 65535).
Proof.
  assert (Hrest : ∀ arg tl args p w, 1 ≤ kv_cli.port args ≤ 65535 → says (kv_cli.parse_rest arg tl args) p w (λ r, 1 ≤ kv_cli.port r.2 ≤ 65535)).
  { intros. unfold kv_cli.parse_rest. case_bool_decide; [by apply says_print|by apply says_ret]. }
  induction argv as [argv IH] using (induction_ltof1 _ length); unfold ltof in IH. intros args p w Hp.
  destruct argv as [|arg [|v tl]]; cbn [kv_cli.parse_args]; [by apply says_ret|destruct (_ || _); [by apply says_ret|by apply Hrest]|].
  destruct (_ || _); [by apply says_ret|]. case_bool_decide; [apply IH; [cbn; lia|done]|]. case_bool_decide; [|by apply Hrest].
  cbv zeta. destruct ((strtol v <? 1) || (65535 <? strtol v)) eqn:E; [by apply says_print|].
  apply orb_false_iff in E as [E1%Z.ltb_ge E2%Z.ltb_ge]. apply IH; [cbn; lia|]. cbn. rewrite port_kept by lia. lia.
Qed.

Lemma server_args argv : ∀ args p w, 0 ≤ kvstore_server.port args ≤ 65535 →
  says (kvstore_server.parse_args argv args) p w (λ r, 0 ≤ kvstore_server.port r.2 ≤ 65535).
Proof.
  induction argv as [argv IH] using (induction_ltof1 _ length); unfold ltof in IH. intros args p w Hp.
  destruct argv as [|arg tl]; cbn [kvstore_server.parse_args]; [by apply says_ret|]. destruct (_ || _); [by apply says_ret|].
  case_bool_decide; [apply IH; [cbn; lia|done]|]. destruct tl as [|v tl]; [by apply says_print|].
  repeat (case_bool_decide; [first [apply IH; [cbn; lia|done]|idtac]|]); try (by apply says_print).
  cbv zeta. destruct ((strtol v <? 0) || (65535 <? strtol v)) eqn:E; [by apply says_print|].
  apply orb_false_iff in E as [E1%Z.ltb_ge E2%Z.ltb_ge]. apply IH; [cbn; lia|]. cbn. rewrite port_kept by lia. lia.
Qed.

(** Whatever arguments the programs are called with, parsing them ends, prints at most to
    the error stream, and yields a port that fits its 16 bits (and is not 0 for kv-cli);
    a port number written in decimal is understood as that number. *)
Theorem arguments_typed argv p w :
  says (kv_cli.parse_args argv kv_cli.default_args) p w (λ r, 1 ≤ kv_cli.port r.2 ≤ 65535) ∧
  says (kvstore_server.parse_args argv kvstore_server.default_args) p w (λ r, 0 ≤ kvstore_server.port r.2 ≤ 65535) ∧
  (∀ n, 1 ≤ n ≤ 65535 → kv_cli.parse_args [lit "--port"; std_to_string n] kv_cli.default_args p w =
     Ok (true, kv_cli.mkArgs (lit "127.0.0.1") n [] false) p w) ∧
  (∀ n, 0 ≤ n ≤ 65535 → kvstore_server.parse_args [lit "--port"; std_to_string n] kvstore_server.default_args p w =
     Ok (true, kvstore_server.mkArgs (lit "kvstore-data") (lit "127.0.0.1") n Always EngineBitcask false) p w).
Proof.
  split_and!.
  - by apply cli_args.
  - by apply server_args.
  - intros n Hn. cbn -[Z.ltb]. rewrite strtol_printed by (unfold LONG_MAX; lia).
    rewrite !(proj2 (Z.ltb_ge _ _)) by lia. cbn. by rewrite port_kept by lia.
  - intros n Hn. cbn -[Z.ltb]. rewrite strtol_printed by (unfold LONG_MAX; lia).
    rewrite !(proj2 (Z.ltb_ge _ _)) by lia. cbn. by rewrite port_kept by lia.
Qed.
End Args.

(** * kv-cli against a server *)

Section Cli.
Context {S : Type} `{Platform} `{Contract S}.
Context (s0 : S) (w0 : World).

(** The command line that makes a request. *)
Definition words (q : Request) : list bytes :=
  match rq_op q with
  | OpGet => [lit "get"; rq_key q]
  | OpPut => [lit "put"; rq_key q; rq_value q]
  | OpDelete => [lit "delete"; rq_key q]
  end.

(** What the server has seen of a process, and the map its store holds after that. *)
Definition server_saw (p : Process) (m : gmap bytes bytes) : Prop :=
  ∃ c ps rs s w, pr_client p = Some c ∧ sk_sent (lk_sock (cl_link c)) = frames ps ∧ serves s0 w0 ps rs s w ∧ kv_holds s w m.

Lemma destroyed p w c m : pr_client p = Some c → remote_holds s0 w0 c m →
  ∃ p', kv_cli.destroy_client p w = Ok tt p' w ∧ pr_stdout p' = pr_stdout p ∧ server_saw p' m.
Proof.
  intros Ec (ps & rs & s & ws & Hs & [[C1 C1'] C2 C3 C4 C5] & Hh). destruct p as [po pe pc], c as [[[o pr st tk d evs] rd]]. cbn in *. subst pc o st.
  unfold kv_cli.destroy_client, kv_cli.with_client, ClientOps.on_conn, on_sock, SocketOps.close_if_open, platform_socket.close_socket, next_net, set_client.
  unfold with_local, zoom, mbind, M_bind, get, put, modify, mret, M_ret. cbn. destruct evs as [|[] evs]; cbn; eexists; (split; [reflexivity|]); (split; [done|]); by eexists _, ps, rs, s, ws.
Qed.

Lemma reported p w c m status : pr_client p = Some c → remote_holds s0 w0 c m →
  ∃ p', kv_cli.report status p w = Ok (kv_cli.exit_code_for status) p' w ∧ pr_stdout p' = pr_stdout p ∧ server_saw p' m.
Proof.
  intros Ec Hh. unfold kv_cli.report, mbind, M_bind, print_err at 1, modify.
  destruct (destroyed (mkProcess (pr_stdout p) (pr_stderr p ++ c_str (to_string status) ++ newline) (pr_client p)) w c m Ec Hh) as (p' & E & Eo & Hsaw).
  rewrite E. by exists p'.
Qed.

(** A call that cannot die, made through [main]'s client. *)
Lemma client_call {A} (m : M Client A) p w c Q E : pr_client p = Some c →
  wp m c w (λ a c' _, Q a c') (λ e c' _, E e c') (λ _, False) →
  ∃ r c' w', kv_cli.with_client (attempt m) p w = Ok r (mkProcess (pr_stdout p) (pr_stderr p) (Some c')) w' ∧
    match r with inl a => Q a c' | inr e => E e c' end.
Proof.
  intros Ec Hw. unfold kv_cli.with_client, mbind, M_bind, get. rewrite Ec. unfold with_local, attempt. unfold wp in Hw.
  destruct (m c w) as [a c' w'|e c' w'|w'|]; [| |by destruct Hw|done]; destruct Hw as [_ Hw].
  - by exists (inl a), c', w'.
  - by exists (inr e), c', w'.
Qed.

(** The exit code and the output for a request, by the map it met. *)
Definition cli_outcome (q : Request) (m : gmap bytes bytes) (code : Z) (out out' : bytes) (m' : gmap bytes bytes) : Prop :=
  match rq_op q with
  | OpGet => m' = m ∧ match m !! rq_key q with Some v => code = 0 ∧ out' = out ++ v | None => code = 1 ∧ out' = out end
  | OpPut => out' = out ∧ (code = 0 ∧ m' = <[rq_key q := rq_value q]> m ∨ code ≠ 0 ∧ m' = m)
  | OpDelete => out' = out ∧ (code = 0 ∧ m' = delete (rq_key q) m ∨ code ≠ 0 ∧ m' = m)
  end.

Lemma exit_code_bad e : is_ok e = false → kv_cli.exit_code_for e ≠ 0.
Proof. intros He. unfold kv_cli.exit_code_for. rewrite He. by case_bool_decide. Qed.

Lemma run_get key p w c m : pr_client p = Some c → remote_holds s0 w0 c m → remote_ready s0 w0 (mkRequest OpGet key []) c →
  ∃ code p' w' m', kv_cli.run_command (lit "get") key [] p w = Ok code p' w' ∧ server_saw p' m' ∧
    cli_outcome (mkRequest OpGet key []) m code (pr_stdout p) (pr_stdout p') m'.
Proof.
  intros Ec Hh Hr. unfold kv_cli.run_command. rewrite bool_decide_eq_true_2 by done.
  destruct (client_call _ p w c _ _ Ec (wp_client_get s0 w0 key c w m Hh Hr)) as (r & c' & w' & E & Hres).
  unfold mbind, M_bind. rewrite E. unfold cli_outcome. cbn [rq_op rq_key]. destruct r as [v|e].
  - destruct Hres as [Hk Hh']. rewrite Hk. unfold kv_cli.write_value, print_out, print_err, modify, mbind, M_bind.
    destruct (destroyed (mkProcess (pr_stdout p ++ v) (pr_stderr p ++ newline) (Some c')) w' c' m eq_refl Hh') as (p' & E' & Eo & Hsaw).
    cbn [pr_stdout pr_stderr pr_client] in *. rewrite E'. by exists 0, p', w', m.
  - destruct Hres as (He & Hk & Hh'). rewrite Hk.
    destruct (reported (mkProcess (pr_stdout p) (pr_stderr p) (Some c')) w' c' m e eq_refl Hh') as (p' & E' & Eo & Hsaw).
    rewrite E'. exists 1, p', w', m. split_and!; try done. unfold kv_cli.exit_code_for, is_ok. by rewrite He.
Qed.

(** A write: [m1] is the map when it succeeds. *)
Lemma run_write verb key value p w c m m1 : verb ≠ lit "get" → pr_client p = Some c →
  wp (if bool_decide (verb = lit "put") then ClientOps.put key value else ClientOps.remove key) c w
    (λ _ c' _, remote_holds s0 w0 c' m1) (λ e c' _, is_ok e = false ∧ remote_holds s0 w0 c' m) (λ _, False) →
  ∃ code p' w' m', kv_cli.run_command verb key value p w = Ok code p' w' ∧ server_saw p' m' ∧ pr_stdout p' = pr_stdout p ∧
    (code = 0 ∧ m' = m1 ∨ code ≠ 0 ∧ m' = m).
Proof.
  intros Hv Ec Hw. unfold kv_cli.run_command. rewrite bool_decide_eq_false_2 by done.
  destruct (client_call _ p w c _ _ Ec Hw) as (r & c' & w' & E & Hres). unfold mbind, M_bind. rewrite E. destruct r as [[]|e].
  - destruct (reported (mkProcess (pr_stdout p) (pr_stderr p) (Some c')) w' c' m1 ok eq_refl Hres) as (p' & E' & Eo & Hsaw).
    rewrite E'. exists 0, p', w', m1. split_and!; [done|done|done|by left].
  - destruct Hres as [He Hh']. destruct (reported (mkProcess (pr_stdout p) (pr_stderr p) (Some c')) w' c' m e eq_refl Hh') as (p' & E' & Eo & Hsaw).
    rewrite E'. exists (kv_cli.exit_code_for e), p', w', m. split_and!; try done. right. split; [by apply exit_code_bad|done].
Qed.

Lemma run_request q p w c m : (rq_op q ≠ OpPut → rq_value q = []) → pr_client p = Some c → remote_holds s0 w0 c m → remote_ready s0 w0 q c →
  ∃ code p' w' m', kv_cli.run_command (nth 0 (words q) []) (nth 1 (words q) []) (nth 2 (words q) []) p w = Ok code p' w' ∧ server_saw p' m' ∧
    cli_outcome q m code (pr_stdout p) (pr_stdout p') m'.
Proof.
  intros Hval Ec Hh Hr. destruct q as [op key value]. unfold words. cbn [rq_op rq_key rq_value nth] in *. destruct op.
  - rewrite (Hval ltac:(done)) in *. by eapply run_get.
  - destruct (run_write (lit "put") key value p w c m (<[key := value]> m)) as (code & p' & w' & m' & E & Hsaw & Ho & Hres); [done|done| |].
    + rewrite bool_decide_eq_true_2 by done. eapply wp_mono; [by apply wp_client_put|..]; cbn beta; naive_solver.
    + by exists code, p', w', m'.
  - rewrite (Hval ltac:(done)) in *.
    destruct (run_write (lit "delete") key [] p w c m (delete key m)) as (code & p' & w' & m' & E & Hsaw & Ho & Hres); [done|done| |].
    + rewrite bool_decide_eq_false_2 by done. by apply wp_client_remove.
    + by exists code, p', w', m'.
Qed.

(** C15: kv-cli, called with well-formed options and a command, on a server whose store holds
    a map: [get] of a key that is there exits with 0 and has written exactly the stored bytes
    to the standard output, [get] of one that is not exits with 1 and has written nothing;
    [put] and [delete] write nothing there and exit with 0 exactly when the server's store
    has been changed as asked, and otherwise leave it as it was. *)
Theorem cli_faithful sys argv args sock q p w m :
  (rq_op q ≠ OpPut → rq_value q = []) →
  kv_cli.parse_args argv kv_cli.default_args p w = Ok (true, args) p w →
  kv_cli.help args = false → kv_cli.command args = words q →
  platform_connect.connect_to sys (kv_cli.host args) (kv_cli.port args) = Some sock →
  sk_open sock = true → sk_down sock = false → sk_peer sock = server_peer s0 w0 → sk_sent sock = [] → sk_taken sock = 0%nat →
  kv_holds s0 w0 m → remote_ready s0 w0 q (mkClient (mkLink sock default_reader)) →
  ∃ code p' w' m', kv_cli.main sys argv p w = Ok code p' w' ∧ server_saw p' m' ∧
    cli_outcome q m code (pr_stdout p) (pr_stdout p') m'.
Proof.
  intros Hval Hparse Hhelp Hcmd Hdial Ho Hd Hp Hs Ht Hh Hready. unfold kv_cli.main, mbind, M_bind. rewrite Hparse. cbn [fst snd negb].
  rewrite Hhelp, Hcmd. unfold ClientOps.connect, SocketOps.connect. rewrite Hdial. cbn [orb]. set (c := mkClient (mkLink sock default_reader)) in *.
  assert (Hc : remote_holds s0 w0 c m) by (exists [], [], s0, w0; split_and!; [constructor|by apply connected_start|done]).
  destruct (run_request q (mkProcess (pr_stdout p) (pr_stderr p) (Some c)) w c m Hval eq_refl Hc Hready) as (code & p' & w' & m' & E & Hrest).
  exists code, p', w', m'. split; [|done]. rewrite <-E. destruct q as [[] key value]; reflexivity.
Qed.
End Cli.

(** * The life of kvstore_server *)

Section Program.
Context `{Platform}.
Import kvstore_server.

#[export] Instance served_contract (e : Engine) : Contract (served_store e) :=
  match e with EngineBitcask => locked_contract | EngineLsm => lsm_contract end.

(** The directory holds the database [m] of the engine. *)
Definition database_dir (e : Engine) (fs : gmap bytes file) (m : gmap bytes bytes) : Prop :=
  match e with
  | EngineBitcask => BitcaskRecover.recoverable fs m
  | EngineLsm => openable fs ∧ LsmServe.recoverable fs m
  end.

(** Limits of the engine at the end: the final flush needs ids for its tables. *)
Definition room_to_finish (e : Engine) : served_store e → World → Prop :=
  match e return served_store e → World → Prop with
  | EngineBitcask => λ _ _, True
  | EngineLsm => λ st w, room_for st (w_files w)
  end.

(** What a process that dies leaves. *)
Definition left_by (e : Engine) (w : World) (m : gmap bytes bytes) : Prop := @kv_left (served_store e) _ _ _ w m.

Lemma open_engine_holds args w m : reliable w → database_dir (engine args) (w_files w) m →
  wp (open_engine args) tt w (λ s _ w', kv_holds s w' m) (λ _ _ w', left_by (engine args) w' m) (λ w', left_by (engine args) w' m).
Proof.
  intros Hrel. unfold open_engine, database_dir, served_contract. destruct args as [d h p sm [] hp]; cbn [engine dir].
  - intros Hrec. wp_call (wp_open_internal d (bitcask_options (mkArgs d h p sm EngineBitcask hp)) w m Hrec).
    + intros b [] w' _ (Ho & _ & hs & Hr & Hm). apply wp_ret. split; [done|]. cbn [lk_inner]. split; [rewrite Ho; by split|]. exists hs. split; [done|by apply Hm].
    + intros w' _ (m' & Hrec' & Hm & _). rewrite (Hm Hrel) in Hrec'. exact Hrec'.
  - intros [Hok Hrec]. eapply wp_mono; [by apply (wp_lsm_open d _ tt w m)|..]; cbn beta; [|by intros e ? w' _ [_ ?]|done].
    intros st _ w' _ (_ & c & Hsv & Hdb & _ & Hb & _). split; [done|]. by exists c, [], None.
Qed.

Lemma holds_left e (s : served_store e) w m : kv_holds s w m → left_by e w m.
Proof.
  destruct e.
  - intros [_ [_ (hs & Hr & <-)]]. by eapply rep_recoverable.
  - intros (_ & c & xs & imm & Hs & <-). by eapply serving_recoverable.
Qed.

Lemma wp_shutdown e (s : served_store e) w m : kv_holds s w m → reliable w → room_to_finish e s w →
  wp (shutdown e) s w (λ _ s' w', kv_holds s' w' m) (λ _ s' w', e = EngineLsm ∧ kv_holds s' w' m) (λ w', left_by e w' m).
Proof.
  destruct e; cbn [shutdown served_store room_to_finish].
  - intros [Hl [Hsane (hs & Hr & <-)]] Hrel _. apply wp_zoom. eapply wp_mono; [by apply wp_sync_rep|..]; cbn beta;
      [|done|by intros w' _ Hs; eapply rep_recoverable].
    intros _ b' w' _ (-> & Hr' & _). split; [done|]. split; [done|]. by exists hs.
  - intros (Hb & c & xs & imm & Hs & <-) Hrel Hroom.
    eapply wp_bind; [by apply (wp_flush c xs imm s w Hs Hrel Hb (room_roomy _ _ _ _ _ Hs Hroom))|..]; cbn beta.
    + intros _ st1 w1 Hc [(c1 & xs1 & imm1 & Hs1 & _ & _ & Hb1 & <-) _].
      eapply wp_mono; [by eapply (wp_lsm_sync c1 xs1 imm1 st1 w1 Hs1); eauto with wp|..]; cbn beta; [|done|done].
      intros _ st2 w2 _ Hch. by eapply changed_engine.
    + intros e st1 w1 _ [_ Hch]. split; [done|]. by eapply changed_engine.
    + done.
Qed.

#[local] Instance SyncMode_eq : EqDecision SyncMode.
Proof. solve_decision. Defined.
#[local] Instance server_Args_eq : EqDecision Args.
Proof. solve_decision. Defined.

(** Where a listening socket comes from. *)
Lemma listening sys host port backlog l : platform_connect.listen_on sys host port backlog = Some l → ns_listen sys backlog = Some l.
Proof. unfold platform_connect.listen_on. by repeat case_match. Qed.

(** A start that gets as far as serving. *)
Lemma begun_inv sys argv p w args sv p1 w1 :
  main_begin sys argv p w = Ok (Running args sv) p1 w1 →
  ∃ s l, open_engine args tt w = Ok s tt w1 ∧ platform_connect.listen_on sys (host args) (port args) 128 = Some l ∧
    sv = mkServer s (server_options args) (mkListener true (platform_connect.local_port sys l mod 65536) (ls_queue l) (ls_events l)) false true [] 0.
Proof.
  unfold main_begin, mbind, M_bind. destruct (server_args argv default_args p w) as ([okay args0] & err & E & _); [done|]. rewrite E. cbn [fst snd].
  destruct okay; cbn [negb]; [|done]. destruct (help args0); [done|].
  unfold attempt, with_local. destruct (open_engine args0 tt w) as [s [] w2|e [] w2|w2|] eqn:Eo; [|done..].
  unfold ServerOps.start, ListenerOps.bind. cbn [server_options so_host so_port so_backlog default_server_options].
  destruct (platform_connect.listen_on sys (host args0) (port args0) 128) as [l|] eqn:El; [|done].
  cbv zeta. destruct (platform_connect.local_port sys l <? 0); cbn [mbind result_bind]; [done|]. unfold print_err, modify, mret, M_ret, result_ret. intros [= -> Esv _ ->].
  apply inj_pair2_eq_dec in Esv; [|intros; apply (decide_rel eq)]. by exists s, l.
Qed.

(** C5: What the clients of kvstore_server were shown is what the next start finds.  The
    program is started on a directory that holds a database, for either engine; its threads
    answer requests in any interleaving until the server has stopped; then [main] syncs the
    engine.  The answers given are those of one sequence of calls on that database, the
    directory holds the resulting database when [main] returns, also if the process dies
    during the final sync, and the exit code is 0, unless the LSM engine's flush reports
    that its background thread had failed. *)
Theorem server_program sys argv p w m args sv p1 w1 tr sv2 w2 p2 :
  reliable w → database_dir (engine args) (w_files w) m →
  (∀ backlog l, ns_listen sys backlog = Some l → Forall fresh_socket (ls_queue l)) →
  main_begin sys argv p w = Ok (Running args sv) p1 w1 →
  server_run (sv, w1) tr (sv2, w2) →
  reliable w2 → room_to_finish (engine args) (sv_store sv2) w2 →
  ∃ m', chain m tr m' ∧
    wp (main_end (engine args) (sv_store sv2)) p2 w2
      (λ r _ w', left_by (engine args) w' m' ∧ kv_holds r.2 w' m' ∧ (r.1 = 0 ∨ r.1 = 1 ∧ engine args = EngineLsm))
      (λ _ _ _, False) (λ w', left_by (engine args) w' m').
Proof.
  intros Hrel Hdir Hfresh Hbegin Hrun Hrel2 Hroom. destruct (begun_inv _ _ _ _ _ _ _ _ Hbegin) as (s & l & Eo & El & Esv).
  pose proof (open_engine_holds args w m Hrel Hdir) as Hw. unfold wp in Hw. rewrite Eo in Hw. destruct Hw as [_ Hh].
  assert (Hstart : server_ok m [] sv w1).
  { rewrite Esv. split; cbn; try done; [exists m; split; [constructor|done]|constructor|by eapply Hfresh, listening]. }
  destruct (run_ok m (sv, w1) tr (sv2, w2) Hstart Hrun) as [(m' & Hch & Hh') _ _ _ _ _]. cbn [fst snd] in *. exists m'. split; [done|].
  unfold main_end. apply wp_bind_modify.
  eapply (wp_bind_local _ _ _ _ _ (λ r s' w', kv_holds s' w' m' ∧ match r with inl _ => True | inr _ => engine args = EngineLsm end) (λ _ _ _, False)).
  - apply wp_attempt. eapply wp_mono; [by apply (wp_shutdown _ _ _ m')|..]; cbn beta; [done| |]; [by intros e s' w' _ [? ?]|].
    intros w' _ Hl. exact Hl.
  - intros [a|e] s' w' _ Hr; cbn [fst snd].
    + destruct Hr as [Hs' _]. apply wp_ret. cbn [fst snd]. split_and!; [by eapply holds_left|done|by left].
    + destruct Hr as [Hs' Ee]. apply wp_bind_modify, wp_ret. cbn [fst snd]. split_and!; [by eapply holds_left|done|by right].
  - done.
  - done.
Qed.
End Program.
