(* ===== verification/Bench.v ===== *)
(** The benchmarks: [bench/bench_env.hpp], [bench/bench_main.cpp], [bench/benchsuite_main.cpp].

    What the machine decides is given from outside: the readings of the clock, the draws of the
    random generator, what [uname], [statfs] and the files under [/proc] say. *)

From Stdlib Require Import Floats.SpecFloat.
From S2P Require Import Prelude Status FileNames World Wp LogFile SSTableFormat LsmStats SSTable Bitcask BitcaskCompact LsmState Lsm LsmOpen.
From S2P Require Import Protocol Stores Apps.

(** * Doubles

    [double] is binary64; [std::vector<double>] holds no NaN here. *)

Module dbl.

Definition of_Z (n : Z) : spec_float := binary_normalize 53 1024 n 0 false.
Definition mul := SFmul 53 1024.
Definition div := SFdiv 53 1024.
Definition add := SFadd 53 1024.
Definition zero : spec_float := S754_zero false.

(** The literals 0.50, 0.99 and 0.999. *)
Definition p50 : spec_float := S754_finite false 4503599627370496 (-53).
Definition p99 : spec_float := S754_finite false 8917127262193582 (-53).
Definition p999 : spec_float := S754_finite false 8998192055486251 (-53).

(** [static_cast<std::size_t>] of a non-negative double. *)
Definition trunc (x : spec_float) : Z :=
  match x with
  | S754_finite false m e => if 0 <=? e then Z.pos m * 2 ^ e else Z.pos m / 2 ^ (- e)
  | _ => 0
  end.

(** [std::sort]. *)
Definition le (a b : spec_float) : Prop := SFleb a b = true.
#[export] Instance le_dec : RelDecision le.
Proof. intros a b. unfold le. apply _. Defined.
Definition sort (l : list spec_float) : list spec_float := merge_sort le l.

(** The decimal digits of a number of any size. *)
Definition digits (n : Z) : bytes := to_string_loop (Z.to_nat (Z.log2 n) + 1) n [].

(** [n / d] rounded to an integer, halves to even. *)
Definition round_div (n d : Z) : Z :=
  let q := n / d in
  let r := n - q * d in
  if (2 * r <? d) || (2 * r =? d) && Z.even q then q else q + 1.

Definition pad_left (width : Z) (s : bytes) : bytes := replicate (Z.to_nat (width - sz s)) (byte.of_Z 48) ++ s.

(** ["%.Nf"]: the exact value, rounded to [places] decimals. *)
Definition fixed (places : Z) (x : spec_float) : bytes :=
  let show (s : bool) (n : Z) :=
    (if s then lit "-" else []) ++ digits (n / 10 ^ places) ++
    (if places =? 0 then [] else lit "." ++ pad_left places (digits (n mod 10 ^ places))) in
  match x with
  | S754_zero s => show s 0
  | S754_infinity s => (if s then lit "-" else []) ++ lit "inf"
  | S754_nan => lit "nan"
  | S754_finite s m e =>
      show s (if 0 <=? e then Z.pos m * 2 ^ e * 10 ^ places else round_div (Z.pos m * 10 ^ places) (2 ^ (- e)))
  end.

End dbl.

(** * What the programs use of the libraries *)

(** [strtoull(s, nullptr, 10)] and, with a 64-bit [long], [strtoul]: a value out of range
    becomes the largest one, a minus sign negates modulo 2^64. *)
Definition strtoull (s : bytes) : Z :=
  let s := skip_spaces s in
  let read (neg : bool) (s : bytes) :=
    let n := read_digits s 0 in
    if UINT64_MAX <? n then UINT64_MAX else if neg then u64 (- n) else n in
  match s with
  | b :: rest => if byte.unsigned b =? 45 then read true rest else if byte.unsigned b =? 43 then read false rest else read false s
  | [] => 0
  end.

(** [atoi], which is undefined when the value is no [int]. *)
Definition atoi (s : bytes) : result Z :=
  let s := skip_spaces s in
  let n := match s with
           | b :: rest => if byte.unsigned b =? 45 then - read_digits rest 0
                          else if byte.unsigned b =? 43 then read_digits rest 0
                          else read_digits s 0
           | [] => 0
           end in
  if (-2147483648 <=? n) && (n <=? 2147483647) then ROk n else Stuck.

(** [snprintf] into a buffer: the text, cut to what fits before the NUL. *)
Definition snprintf (size : Z) (text : bytes) : bytes := take (Z.to_nat (size - 1)) text.

(** ["%0<width>llu"]. *)
Definition zero_padded (width n : Z) : bytes := dbl.pad_left width (std_to_string n).

(** ["%llx"]. *)
Fixpoint hex_loop (fuel : nat) (n : Z) (acc : bytes) : bytes :=
  match fuel with
  | O => acc
  | S fuel =>
      let d := n mod 16 in
      let acc := byte.of_Z (if d <? 10 then 48 + d else 87 + d) :: acc in
      if n / 16 =? 0 then acc else hex_loop fuel (n / 16) acc
  end.
Definition hex (n : Z) : bytes := hex_loop 16 n [].

(** A running benchmark: its output streams, how often it has read the clock, and the status
    it exits with, once [std::exit] or [std::abort] is called. *)
Record Prog : Type := mkProg {
  pg_stdout : bytes;
  pg_stderr : bytes;
  pg_ticks : nat;
  pg_exit : option Z;
}.

Definition start_prog : Prog := mkProg [] [] 0 None.

Definition out (bs : bytes) : M Prog unit := modify (λ p, mkProg (pg_stdout p ++ bs) (pg_stderr p) (pg_ticks p) (pg_exit p)).
Definition err (bs : bytes) : M Prog unit := modify (λ p, mkProg (pg_stdout p) (pg_stderr p ++ bs) (pg_ticks p) (pg_exit p)).

(** [std::exit]: nothing of the program runs any more.  The status of the error stands for
    nothing. *)
Definition exit_program {A : Type} (code : Z) : M Prog A :=
  modify (λ p, mkProg (pg_stdout p) (pg_stderr p) (pg_ticks p) (Some code));; fail ok.

(** An exception that nobody catches: the process is aborted. *)
Definition uncaught {A : Type} : M Prog A := exit_program 134.

(** What the system tells a benchmark. *)
Record Machine : Type := mkMachine {
  mc_uname : option (bytes * bytes);        (* release and nodename *)
  mc_cpuinfo : bytes;                       (* the contents of /proc/cpuinfo *)
  mc_meminfo : bytes;                       (* the contents of /proc/meminfo *)
  mc_online : Z;                            (* sysconf(_SC_NPROCESSORS_ONLN) *)
  mc_statfs : bytes → option Z;             (* f_type of the file system of a path *)
  mc_stamp : bytes;                         (* the time, as strftime prints it *)
  mc_temp : bytes;                          (* temp_directory_path() *)
  mc_build_type : bytes;                    (* KVBENCH_BUILD_TYPE *)
  mc_sanitized : bool;                      (* __SANITIZE_ADDRESS__ *)
  mc_ndebug : bool;                         (* NDEBUG *)
  mc_now : nat → Z;                         (* the readings of steady_clock, in nanoseconds *)
  mc_pick : Z → Z → nat → Z;                (* the draws for a seed, up to a largest value *)
}.

(** A running benchmark and the store it has open. *)
Definition on_store {S A : Type} (m : M S A) : M (S * Prog) A := zoom fst (λ s x, (s, x.2)) m.
Definition prog {S A : Type} (m : M Prog A) : M (S * Prog) A := zoom snd (λ p x, (x.1, p)) m.
Definition with_store {S A : Type} (s : S) (m : M (S * Prog) A) : M Prog (A * S) := λ p w,
  match m (s, p) w with
  | Ok a x w' => Ok (a, x.1) x.2 w'
  | Err e x w' => Err e x.2 w'
  | Died w' => Died w'
  | MStuck => MStuck
  end.

(** [std::vector<double>::reserve], [std::string(n, 'x')]: what is longer than the longest
    vector or string throws. *)
Definition reserve (n : Z) : M Prog unit := if 1152921504606846975 <? n then uncaught else mret tt.
Definition filled (n : Z) : M Prog bytes :=
  if 9223372036854775807 <? n then uncaught else mret (replicate (Z.to_nat n) (byte.of_Z 120)).

(** [std::filesystem::create_directories(dir, ec)]: whether [ec] is set. *)
Definition create_directories : M Prog bool := e ← next_event; mret (match e with EvFail => true | _ => false end).

(** [std::filesystem::remove_all(dir, ec)]: the files go one by one, up to the first failure. *)
Fixpoint remove_each (names : list bytes) : M Prog unit :=
  match names with
  | [] => mret tt
  | name :: rest => ec ← platform.remove name; if ec : bool then mret tt else remove_each rest
  end.
Definition remove_all : M Prog unit :=
  names ← platform.list_directory;
  match names with None => mret tt | Some names => remove_each names end.

(** * [namespace kvbench] *)

Module kvbench.

(** [percentile], of sorted samples. *)
Definition percentile (sorted : list spec_float) (p : spec_float) : result spec_float :=
  match sorted with
  | [] => ROk dbl.zero
  | _ =>
      let scaled := dbl.mul p (dbl.of_Z (sz sorted - 1)) in
      let index := dbl.trunc scaled in
      let index := if sz sorted <=? index then sz sorted - 1 else index in
      match sorted !! Z.to_nat index with Some x => ROk x | None => Stuck end
  end.

(** [median]. *)
Definition median (values : list spec_float) : result spec_float :=
  match values with
  | [] => ROk dbl.zero
  | _ =>
      let values := dbl.sort values in
      let mid := sz values / 2 in
      if sz values mod 2 =? 1 then
        match values !! Z.to_nat mid with Some x => ROk x | None => Stuck end
      else
        match values !! Z.to_nat (mid - 1), values !! Z.to_nat mid with
        | Some a, Some b => ROk (dbl.div (dbl.add a b) (dbl.of_Z 2))
        | _, _ => Stuck
        end
  end.

Definition kExt4Magic : Z := 61267.
Definition kV9fsMagic : Z := 16914839.
Definition kTmpfsMagic : Z := 16914836.
Definition kOverlayfsMagic : Z := 2035054128.
Definition kBtrfsMagic : Z := 2435016766.
Definition kXfsMagic : Z := 1481003842.

(** [filesystem_name]. *)
Definition filesystem_name (magic : Z) : bytes :=
  if magic =? kExt4Magic then lit "ext4"
  else if magic =? kV9fsMagic then lit "9p"
  else if magic =? kTmpfsMagic then lit "tmpfs"
  else if magic =? kOverlayfsMagic then lit "overlayfs"
  else if magic =? kBtrfsMagic then lit "btrfs"
  else if magic =? kXfsMagic then lit "xfs"
  else lit "unknown".

(** [filesystem_magic]. *)
Definition filesystem_magic (m : Machine) (path : bytes) : Z :=
  match mc_statfs m path with None => 0 | Some f_type => u64 f_type end.

(** [struct Env]. *)
Record Env : Type := mkEnv {
  hostname : bytes;
  kernel : bytes;
  cpu_model : bytes;
  cores : Z;
  threads : Z;
  ram_bytes : Z;
  fs_type : bytes;
  fs_magic : Z;
}.

(** [std::getline] until the end: the lines of a file. *)
Fixpoint lines (text line : bytes) : list bytes :=
  match text with
  | [] => match line with [] => [] | _ => [line] end
  | b :: rest => if byte.unsigned b =? 10 then line :: lines rest [] else lines rest (line ++ [b])
  end.

Definition is_blank (b : byte) : bool := (byte.unsigned b =? 32) || (byte.unsigned b =? 9).

(** [line.find(':')]: what is before and after the first colon. *)
Fixpoint at_colon (line : bytes) : option (bytes * bytes) :=
  match line with
  | [] => None
  | b :: rest =>
      if byte.unsigned b =? 58 then Some ([], rest)
      else match at_colon rest with Some (name, value) => Some (b :: name, value) | None => None end
  end.

Fixpoint skip_blanks (s : bytes) : bytes :=
  match s with b :: rest => if is_blank b then skip_blanks rest else s | [] => [] end.

(** The loop of [detail::proc_field]. *)
Fixpoint proc_lines (ls : list bytes) (key : bytes) : bytes :=
  match ls with
  | [] => []
  | line :: rest =>
      match at_colon line with
      | None => proc_lines rest key
      | Some (name, value) =>
          if bool_decide (rev (skip_blanks (rev name)) = key) then skip_blanks value else proc_lines rest key
      end
  end.

(** [detail::proc_field], on the contents of the file. *)
Definition proc_field (file key : bytes) : bytes := proc_lines (lines file []) key.

(** [capture_env]. *)
Definition capture_env (m : Machine) (data_dir : bytes) : Env :=
  let unknown := lit "unknown" in
  let model := proc_field (mc_cpuinfo m) (lit "model name") in
  let cores := proc_field (mc_cpuinfo m) (lit "cpu cores") in
  let mem := proc_field (mc_meminfo m) (lit "MemTotal") in
  let magic := filesystem_magic m data_dir in
  mkEnv
    (match mc_uname m with Some (_, nodename) => nodename | None => unknown end)
    (match mc_uname m with Some (release, _) => release | None => unknown end)
    (match model with [] => unknown | _ => model end)
    (match cores with [] => 0 | _ => u32 (strtoull cores) end)
    (if 0 <? mc_online m then u32 (mc_online m) else 0)
    (match mem with [] => 0 | _ => u64 (strtoull mem * 1024) end)
    (filesystem_name magic)
    magic.

(** [assert_ext4], on Linux. *)
Definition assert_ext4 (m : Machine) (dir : bytes) (allow_non_ext4 : bool) : M Prog unit :=
  let magic := filesystem_magic m dir in
  let what := c_str dir ++ lit " is " ++ filesystem_name magic ++ lit " (0x" ++ hex magic ++ lit "), not ext4." in
  if magic =? kExt4Magic then mret tt
  else if allow_non_ext4 then
    err (lit "kv-benchsuite: WARNING: " ++ what ++ lit " Numbers from this run are not comparable." ++ newline)
  else
    err (lit "kv-benchsuite: refusing to run: " ++ what ++ newline);;
    (if magic =? kV9fsMagic then
       err (lit "  That is a Windows drive mounted into WSL. Every fsync crosses the" ++ newline ++
            lit "  interop layer, so this would measure 9p, not the engine." ++ newline ++
            lit "  Use a path under your Linux home instead, e.g. ~/kvbench/data." ++ newline)
     else mret tt);;
    err (lit "  Pass --allow-non-ext4 to override." ++ newline);;
    exit_program 2.

(** [std::chrono::steady_clock::now()]. *)
Definition now (m : Machine) : M Prog Z :=
  p ← get;
  put (mkProg (pg_stdout p) (pg_stderr p) (S (pg_ticks p)) (pg_exit p));;
  mret (mc_now m (pg_ticks p)).

Fixpoint read_clock (m : Machine) (n : nat) : M Prog unit :=
  match n with O => mret tt | S n => _ ← now m; read_clock m n end.

(** [clock_overhead_ns]. *)
Definition kIterations : Z := 200000.
Definition clock_overhead_ns (m : Machine) : M Prog spec_float :=
  start ← now m;
  read_clock m (Z.to_nat kIterations);;
  stop ← now m;
  mret (dbl.div (dbl.of_Z (stop - start)) (dbl.of_Z kIterations)).

(** [std::chrono::duration<double>] and [duration<double, std::micro>] of a difference. *)
Definition seconds (start stop : Z) : spec_float := dbl.div (dbl.of_Z (stop - start)) (dbl.of_Z 1000000000).
Definition micros (start stop : Z) : spec_float := dbl.div (dbl.of_Z (stop - start)) (dbl.of_Z 1000).

End kvbench.

(** * What both programs measure *)

(** The engine itself, without a lock. *)
Definition engine_store (e : Engine) : Type := match e with EngineBitcask => Bitcask | EngineLsm => LsmStore end.

(** [settle] and [sync] of kv-benchsuite's [Harness], which ignore what the engine returns. *)
Class Harness (S : Type) := {
  settle : M S unit;
  sync : M S unit;
}.

Definition ignored {S A : Type} (m : M S A) : M S unit := _ ← attempt m; mret tt.

Section Engines.
Context `{Platform}.

#[export] Instance engine_kv (e : Engine) : KVStore (engine_store e) :=
  match e with EngineBitcask => bitcask_store | EngineLsm => lsm_store end.

#[export] Instance bitcask_harness : Harness Bitcask := {
  settle := ignored BitcaskOps.sync;
  sync := ignored BitcaskOps.sync;
}.
#[export] Instance lsm_harness : Harness LsmStore := {
  settle := ignored LsmOps.flush;; ignored LsmOps.wait_for_background;
  sync := ignored LsmOps.sync;
}.
#[export] Instance engine_harness (e : Engine) : Harness (engine_store e) :=
  match e with EngineBitcask => bitcask_harness | EngineLsm => lsm_harness end.
End Engines.

(** * kv-benchsuite *)

Module benchsuite.

Definition kKeyBytes : Z := 16.
Definition kDefaultValueBytes : Z := 100.
Definition kRecoverySecondaryValueBytes : Z := 8192.

(** [user_bytes_per_entry], [keys_for]. *)
Definition user_bytes_per_entry (value_size : Z) : Z := u64 (kKeyBytes + value_size).
Definition keys_for (dataset_mb value_size : Z) : result Z :=
  let per_entry := user_bytes_per_entry value_size in
  if per_entry =? 0 then Stuck else ROk (u64 (dataset_mb * 1024 * 1024) / per_entry).

(** [present_key], [absent_key]. *)
Definition key_of (suffix : Z) : bytes := take (Z.to_nat kKeyBytes) (snprintf (kKeyBytes + 1) (lit "key_" ++ zero_padded 12 suffix)).
Definition present_key (index : Z) : bytes := key_of (u64 (index * 2)).
Definition absent_key (index : Z) : bytes := key_of (u64 (index * 2 + 1)).

(** [enum class Workload]. *)
Inductive Workload : Type := ReadPresent | ReadAbsent | WriteBatched | Recovery | All.
#[export] Instance Workload_eq : EqDecision Workload.
Proof. solve_decision. Defined.

Record Args : Type := mkArgs {
  a_engine : Engine;
  a_workload : Workload;
  a_bloom_enabled : bool;
  a_ignore_hints : bool;
  a_sync_mode : SyncMode;
  a_dataset_mb : Z;
  a_value_size : Z;
  a_recovery_secondary_value_size : Z;
  a_ops : Z;
  a_warmup_ops : Z;
  a_runs : Z;
  a_batch_size : Z;
  a_memtable_size : Z;
  a_bits_per_key : Z;
  a_seed : Z;
  a_dir : bytes;
  a_reuse_dir : bool;
  a_allow_non_ext4 : bool;
  a_no_header : bool;
  a_force : bool;
  a_help : bool;
}.

Definition default_args : Args :=
  mkArgs EngineLsm All true false Never 1500 kDefaultValueBytes kRecoverySecondaryValueBytes 1000000 0 5 1000 0 0 20260824
    [] false false false false false.

Definition set_engine (v : Engine) (a : Args) : Args :=
  mkArgs v (a_workload a) (a_bloom_enabled a) (a_ignore_hints a) (a_sync_mode a) (a_dataset_mb a) (a_value_size a) (a_recovery_secondary_value_size a) (a_ops a) (a_warmup_ops a)
    (a_runs a) (a_batch_size a) (a_memtable_size a) (a_bits_per_key a) (a_seed a) (a_dir a) (a_reuse_dir a) (a_allow_non_ext4 a) (a_no_header a) (a_force a) (a_help a).
Definition set_workload (v : Workload) (a : Args) : Args :=
  mkArgs (a_engine a) v (a_bloom_enabled a) (a_ignore_hints a) (a_sync_mode a) (a_dataset_mb a) (a_value_size a) (a_recovery_secondary_value_size a) (a_ops a) (a_warmup_ops a)
    (a_runs a) (a_batch_size a) (a_memtable_size a) (a_bits_per_key a) (a_seed a) (a_dir a) (a_reuse_dir a) (a_allow_non_ext4 a) (a_no_header a) (a_force a) (a_help a).
Definition set_bloom_enabled (v : bool) (a : Args) : Args :=
  mkArgs (a_engine a) (a_workload a) v (a_ignore_hints a) (a_sync_mode a) (a_dataset_mb a) (a_value_size a) (a_recovery_secondary_value_size a) (a_ops a) (a_warmup_ops a)
    (a_runs a) (a_batch_size a) (a_memtable_size a) (a_bits_per_key a) (a_seed a) (a_dir a) (a_reuse_dir a) (a_allow_non_ext4 a) (a_no_header a) (a_force a) (a_help a).
Definition set_ignore_hints (v : bool) (a : Args) : Args :=
  mkArgs (a_engine a) (a_workload a) (a_bloom_enabled a) v (a_sync_mode a) (a_dataset_mb a) (a_value_size a) (a_recovery_secondary_value_size a) (a_ops a) (a_warmup_ops a)
    (a_runs a) (a_batch_size a) (a_memtable_size a) (a_bits_per_key a) (a_seed a) (a_dir a) (a_reuse_dir a) (a_allow_non_ext4 a) (a_no_header a) (a_force a) (a_help a).
Definition set_sync_mode (v : SyncMode) (a : Args) : Args :=
  mkArgs (a_engine a) (a_workload a) (a_bloom_enabled a) (a_ignore_hints a) v (a_dataset_mb a) (a_value_size a) (a_recovery_secondary_value_size a) (a_ops a) (a_warmup_ops a)
    (a_runs a) (a_batch_size a) (a_memtable_size a) (a_bits_per_key a) (a_seed a) (a_dir a) (a_reuse_dir a) (a_allow_non_ext4 a) (a_no_header a) (a_force a) (a_help a).
Definition set_dataset_mb (v : Z) (a : Args) : Args :=
  mkArgs (a_engine a) (a_workload a) (a_bloom_enabled a) (a_ignore_hints a) (a_sync_mode a) v (a_value_size a) (a_recovery_secondary_value_size a) (a_ops a) (a_warmup_ops a)
    (a_runs a) (a_batch_size a) (a_memtable_size a) (a_bits_per_key a) (a_seed a) (a_dir a) (a_reuse_dir a) (a_allow_non_ext4 a) (a_no_header a) (a_force a) (a_help a).
Definition set_value_size (v : Z) (a : Args) : Args :=
  mkArgs (a_engine a) (a_workload a) (a_bloom_enabled a) (a_ignore_hints a) (a_sync_mode a) (a_dataset_mb a) v (a_recovery_secondary_value_size a) (a_ops a) (a_warmup_ops a)
    (a_runs a) (a_batch_size a) (a_memtable_size a) (a_bits_per_key a) (a_seed a) (a_dir a) (a_reuse_dir a) (a_allow_non_ext4 a) (a_no_header a) (a_force a) (a_help a).
Definition set_recovery_secondary_value_size (v : Z) (a : Args) : Args :=
  mkArgs (a_engine a) (a_workload a) (a_bloom_enabled a) (a_ignore_hints a) (a_sync_mode a) (a_dataset_mb a) (a_value_size a) v (a_ops a) (a_warmup_ops a)
    (a_runs a) (a_batch_size a) (a_memtable_size a) (a_bits_per_key a) (a_seed a) (a_dir a) (a_reuse_dir a) (a_allow_non_ext4 a) (a_no_header a) (a_force a) (a_help a).
Definition set_ops (v : Z) (a : Args) : Args :=
  mkArgs (a_engine a) (a_workload a) (a_bloom_enabled a) (a_ignore_hints a) (a_sync_mode a) (a_dataset_mb a) (a_value_size a) (a_recovery_secondary_value_size a) v (a_warmup_ops a)
    (a_runs a) (a_batch_size a) (a_memtable_size a) (a_bits_per_key a) (a_seed a) (a_dir a) (a_reuse_dir a) (a_allow_non_ext4 a) (a_no_header a) (a_force a) (a_help a).
Definition set_warmup_ops (v : Z) (a : Args) : Args :=
  mkArgs (a_engine a) (a_workload a) (a_bloom_enabled a) (a_ignore_hints a) (a_sync_mode a) (a_dataset_mb a) (a_value_size a) (a_recovery_secondary_value_size a) (a_ops a) v
    (a_runs a) (a_batch_size a) (a_memtable_size a) (a_bits_per_key a) (a_seed a) (a_dir a) (a_reuse_dir a) (a_allow_non_ext4 a) (a_no_header a) (a_force a) (a_help a).
Definition set_runs (v : Z) (a : Args) : Args :=
  mkArgs (a_engine a) (a_workload a) (a_bloom_enabled a) (a_ignore_hints a) (a_sync_mode a) (a_dataset_mb a) (a_value_size a) (a_recovery_secondary_value_size a) (a_ops a) (a_warmup_ops a)
    v (a_batch_size a) (a_memtable_size a) (a_bits_per_key a) (a_seed a) (a_dir a) (a_reuse_dir a) (a_allow_non_ext4 a) (a_no_header a) (a_force a) (a_help a).
Definition set_batch_size (v : Z) (a : Args) : Args :=
  mkArgs (a_engine a) (a_workload a) (a_bloom_enabled a) (a_ignore_hints a) (a_sync_mode a) (a_dataset_mb a) (a_value_size a) (a_recovery_secondary_value_size a) (a_ops a) (a_warmup_ops a)
    (a_runs a) v (a_memtable_size a) (a_bits_per_key a) (a_seed a) (a_dir a) (a_reuse_dir a) (a_allow_non_ext4 a) (a_no_header a) (a_force a) (a_help a).
Definition set_memtable_size (v : Z) (a : Args) : Args :=
  mkArgs (a_engine a) (a_workload a) (a_bloom_enabled a) (a_ignore_hints a) (a_sync_mode a) (a_dataset_mb a) (a_value_size a) (a_recovery_secondary_value_size a) (a_ops a) (a_warmup_ops a)
    (a_runs a) (a_batch_size a) v (a_bits_per_key a) (a_seed a) (a_dir a) (a_reuse_dir a) (a_allow_non_ext4 a) (a_no_header a) (a_force a) (a_help a).
Definition set_bits_per_key (v : Z) (a : Args) : Args :=
  mkArgs (a_engine a) (a_workload a) (a_bloom_enabled a) (a_ignore_hints a) (a_sync_mode a) (a_dataset_mb a) (a_value_size a) (a_recovery_secondary_value_size a) (a_ops a) (a_warmup_ops a)
    (a_runs a) (a_batch_size a) (a_memtable_size a) v (a_seed a) (a_dir a) (a_reuse_dir a) (a_allow_non_ext4 a) (a_no_header a) (a_force a) (a_help a).
Definition set_seed (v : Z) (a : Args) : Args :=
  mkArgs (a_engine a) (a_workload a) (a_bloom_enabled a) (a_ignore_hints a) (a_sync_mode a) (a_dataset_mb a) (a_value_size a) (a_recovery_secondary_value_size a) (a_ops a) (a_warmup_ops a)
    (a_runs a) (a_batch_size a) (a_memtable_size a) (a_bits_per_key a) v (a_dir a) (a_reuse_dir a) (a_allow_non_ext4 a) (a_no_header a) (a_force a) (a_help a).
Definition set_dir (v : bytes) (a : Args) : Args :=
  mkArgs (a_engine a) (a_workload a) (a_bloom_enabled a) (a_ignore_hints a) (a_sync_mode a) (a_dataset_mb a) (a_value_size a) (a_recovery_secondary_value_size a) (a_ops a) (a_warmup_ops a)
    (a_runs a) (a_batch_size a) (a_memtable_size a) (a_bits_per_key a) (a_seed a) v (a_reuse_dir a) (a_allow_non_ext4 a) (a_no_header a) (a_force a) (a_help a).
Definition set_reuse_dir (v : bool) (a : Args) : Args :=
  mkArgs (a_engine a) (a_workload a) (a_bloom_enabled a) (a_ignore_hints a) (a_sync_mode a) (a_dataset_mb a) (a_value_size a) (a_recovery_secondary_value_size a) (a_ops a) (a_warmup_ops a)
    (a_runs a) (a_batch_size a) (a_memtable_size a) (a_bits_per_key a) (a_seed a) (a_dir a) v (a_allow_non_ext4 a) (a_no_header a) (a_force a) (a_help a).
Definition set_allow_non_ext4 (v : bool) (a : Args) : Args :=
  mkArgs (a_engine a) (a_workload a) (a_bloom_enabled a) (a_ignore_hints a) (a_sync_mode a) (a_dataset_mb a) (a_value_size a) (a_recovery_secondary_value_size a) (a_ops a) (a_warmup_ops a)
    (a_runs a) (a_batch_size a) (a_memtable_size a) (a_bits_per_key a) (a_seed a) (a_dir a) (a_reuse_dir a) v (a_no_header a) (a_force a) (a_help a).
Definition set_no_header (v : bool) (a : Args) : Args :=
  mkArgs (a_engine a) (a_workload a) (a_bloom_enabled a) (a_ignore_hints a) (a_sync_mode a) (a_dataset_mb a) (a_value_size a) (a_recovery_secondary_value_size a) (a_ops a) (a_warmup_ops a)
    (a_runs a) (a_batch_size a) (a_memtable_size a) (a_bits_per_key a) (a_seed a) (a_dir a) (a_reuse_dir a) (a_allow_non_ext4 a) v (a_force a) (a_help a).
Definition set_force (v : bool) (a : Args) : Args :=
  mkArgs (a_engine a) (a_workload a) (a_bloom_enabled a) (a_ignore_hints a) (a_sync_mode a) (a_dataset_mb a) (a_value_size a) (a_recovery_secondary_value_size a) (a_ops a) (a_warmup_ops a)
    (a_runs a) (a_batch_size a) (a_memtable_size a) (a_bits_per_key a) (a_seed a) (a_dir a) (a_reuse_dir a) (a_allow_non_ext4 a) (a_no_header a) v (a_help a).
Definition set_help (v : bool) (a : Args) : Args :=
  mkArgs (a_engine a) (a_workload a) (a_bloom_enabled a) (a_ignore_hints a) (a_sync_mode a) (a_dataset_mb a) (a_value_size a) (a_recovery_secondary_value_size a) (a_ops a) (a_warmup_ops a)
    (a_runs a) (a_batch_size a) (a_memtable_size a) (a_bits_per_key a) (a_seed a) (a_dir a) (a_reuse_dir a) (a_allow_non_ext4 a) (a_no_header a) (a_force a) v.

Definition usage : bytes := lit
"usage: kv-benchsuite --dir PATH [options]

Emits CSV to stdout. Keys are 16 bytes, values 100 bytes, access
uniform random. Every configuration runs --runs times; all runs are
emitted plus a median row.

  --dir PATH            data directory (required; must be ext4)
  --engine NAME         bitcask or lsm (default: lsm)
  --workload NAME       read-present, read-absent, write-batched,
                        recovery, or all (default: all)

  --bloom on|off        consult bloom filters on reads (LSM; default on).
                        Filters are built either way -- only the probe is
                        skipped, so both arms read identical files.
  --recovery MODE       hints or full-replay (Bitcask; default hints).
                        full-replay ignores the hint files beside the data.

  --dataset-mb N        user bytes to load, in MiB (default: 1500)
  --value-size N        value bytes (default: 100). Dataset size is held
                        constant in bytes, so a bigger value means fewer
                        records. Keys are always 16 bytes.
  --recovery-secondary-value-size N
                        emit a second recovery pass at this value size
                        (default: 8192; 0 disables). Hints save value bytes
                        only, so the benefit scales with value size.
  --ops N               measured operations per run (default: 1000000)
  --warmup-ops N        discarded operations before each run (default: --ops)
  --runs N              repetitions (default: 5)
  --batch-size N        writes per explicit sync() (default: 1000)

  --sync always|never   fsync per write, or not (default: never)
  --memtable-size N     LSM memtable flush threshold, bytes
  --bits-per-key N      LSM bloom bits per key (default: 10)
  --seed N              RNG seed (default: fixed, for reproducibility)

  --reuse-dir           keep an existing dataset instead of rebuilding
  --allow-non-ext4      proceed on a non-ext4 filesystem (not advised)
  --no-header           omit the CSV header, for appending
  --force               run even from a non-Release build
  --help
".

Definition print_usage : M Prog unit := err usage.

(** A complaint that ends the parsing. *)
Definition refuse (text : bytes) (args : Args) : M Prog (bool * Args) :=
  err (lit "kv-benchsuite: " ++ text ++ newline);; mret (false, args).

Definition one_of {T : Type} (name : bytes) (table : list (string * T)) : option T :=
  snd <$> List.find (λ x, bool_decide (name = lit x.1)) table.

(** The options that take a value: [None] for an argument that is no such option, otherwise
    what the value makes of [args] or the complaint. *)
Definition parse_value (arg v : bytes) (args : Args) : option (result (Args + bytes)) :=
  let named (name : string) := bool_decide (arg = lit name) in
  let set (args : Args) : option (result (Args + bytes)) := Some (ROk (inl args)) in
  let choose (complaint : string) (table : list (string * (Args → Args))) : option (result (Args + bytes)) :=
    Some (ROk (match one_of v table with Some f => inl (f args) | None => inr (lit complaint ++ v) end)) in
  if named "--dir" then set (set_dir v args)
  else if named "--engine" then choose "unknown engine: " [("bitcask", set_engine EngineBitcask); ("lsm", set_engine EngineLsm)]
  else if named "--workload" then choose "unknown workload: "
    [("read-present", set_workload ReadPresent); ("read-absent", set_workload ReadAbsent);
     ("write-batched", set_workload WriteBatched); ("recovery", set_workload Recovery); ("all", set_workload All)]
  else if named "--bloom" then choose "--bloom takes on or off: " [("on", set_bloom_enabled true); ("off", set_bloom_enabled false)]
  else if named "--recovery" then choose "--recovery takes hints or full-replay: "
    [("hints", set_ignore_hints false); ("full-replay", set_ignore_hints true)]
  else if named "--sync" then choose "--sync takes always or never: " [("always", set_sync_mode Always); ("never", set_sync_mode Never)]
  else if named "--dataset-mb" then set (set_dataset_mb (strtoull v) args)
  else if named "--value-size" then set (set_value_size (strtoull v) args)
  else if named "--recovery-secondary-value-size" then set (set_recovery_secondary_value_size (strtoull v) args)
  else if named "--ops" then set (set_ops (strtoull v) args)
  else if named "--warmup-ops" then set (set_warmup_ops (strtoull v) args)
  else if named "--runs" then Some (n ← atoi v; ROk (inl (set_runs n args)))
  else if named "--batch-size" then set (set_batch_size (strtoull v) args)
  else if named "--memtable-size" then set (set_memtable_size (strtoull v) args)
  else if named "--bits-per-key" then set (set_bits_per_key (u32 (strtoull v)) args)
  else if named "--seed" then set (set_seed (strtoull v) args)
  else None.

(** The loop of [parse_args]. *)
Fixpoint parse_loop (argv : list bytes) (args : Args) : M Prog (bool * Args) :=
  match argv with
  | [] => mret (true, args)
  | arg :: tl =>
      if bool_decide (arg = lit "--help") || bool_decide (arg = lit "-h") then mret (true, set_help true args)
      else if bool_decide (arg = lit "--reuse-dir") then parse_loop tl (set_reuse_dir true args)
      else if bool_decide (arg = lit "--allow-non-ext4") then parse_loop tl (set_allow_non_ext4 true args)
      else if bool_decide (arg = lit "--no-header") then parse_loop tl (set_no_header true args)
      else if bool_decide (arg = lit "--force") then parse_loop tl (set_force true args)
      else
        let unrecognised := refuse (lit "unrecognised argument: " ++ arg) args in
        match tl with
        | [] => unrecognised
        | v :: tl' =>
            match parse_value arg v args with
            | None => unrecognised
            | Some (ROk (inl args')) => parse_loop tl' args'
            | Some (ROk (inr complaint)) => refuse complaint args
            | Some _ => stuck
            end
        end
  end.

(** The end of [parse_args]: the values have to make sense, and 0 becomes the default. *)
Definition check_args (args : Args) : M Prog (bool * Args) :=
  if bool_decide (a_dir args = []) then refuse (lit "--dir is required") args
  else if (a_dataset_mb args =? 0) || (a_ops args =? 0) || (a_runs args <=? 0) || (a_batch_size args =? 0) then
    refuse (lit "--dataset-mb, --ops, --runs and --batch-size must all be positive") args
  else if a_value_size args =? 0 then refuse (lit "--value-size must be positive") args
  else
    keys ← liftR (keys_for (a_dataset_mb args) (a_value_size args));
    if keys =? 0 then
      refuse (lit "--dataset-mb " ++ std_to_string (a_dataset_mb args) ++ lit " holds no records at --value-size " ++
              std_to_string (a_value_size args)) args
    else
      let args := if a_warmup_ops args =? 0 then set_warmup_ops (a_ops args) args else args in
      let args := if a_memtable_size args =? 0 then set_memtable_size (lo_memtable_size default_lsm_options) args else args in
      let args := if a_bits_per_key args =? 0 then set_bits_per_key (lo_bits_per_key default_lsm_options) args else args in
      mret (true, args).

(** [parse_args]. *)
Definition parse_args (argv : list bytes) : M Prog (bool * Args) :=
  parsed ← parse_loop argv default_args;
  if negb parsed.1 || a_help parsed.2 then mret parsed else check_args parsed.2.

(** [bitcask_options], [lsm_options]. *)
Definition bitcask_options (args : Args) : BitcaskOptions := mkOptions (a_sync_mode args) (Z.shiftl 64 20) (a_ignore_hints args) FailNone.
Definition lsm_options (args : Args) : LsmOptions :=
  let o := default_lsm_options in
  mkLsmOptions (a_sync_mode args) (a_memtable_size args) (lo_block_size o) (a_bits_per_key args) (a_bloom_enabled args)
    (lo_read_mode o) (lo_l0_compaction_trigger o) (lo_level_base_bytes o) (lo_level_multiplier o)
    (lo_target_table_size o) (lo_max_levels o) (lo_fail_at o).

(** [open_engine]. *)
Definition open_engine `{Platform} (args : Args) : M Prog (engine_store (a_engine args)) :=
  let opening : M unit (engine_store (a_engine args)) :=
    match a_engine args as e return M unit (engine_store e) with
    | EngineBitcask => BitcaskOps.open (a_dir args) (bitcask_options args)
    | EngineLsm => LsmOpen.open (a_dir args) (lsm_options args)
    end in
  opened ← attempt (with_local tt opening);
  match opened with
  | inl (store, _) => mret store
  | inr status => err (lit "kv-benchsuite: open: " ++ c_str (to_string status) ++ newline);; exit_program 1
  end.

(** ** CSV *)

Record Row : Type := mkRow {
  r_workload : bytes;
  r_run : bytes;
  r_ops : Z;
  r_elapsed_s : spec_float;
  r_throughput : spec_float;
  r_p50_us : spec_float;
  r_p99_us : spec_float;
  r_p999_us : spec_float;
}.

Record Context_ : Type := mkContext {
  c_env : kvbench.Env;
  c_args : Args;
  c_keys : Z;
  c_value_size : Z;
  c_clock_ns : spec_float;
  c_timestamp : bytes;
}.

Definition quote : byte := byte.of_Z 34.

(** [csv_quote]. *)
Definition needs_quotes (value : bytes) : bool :=
  existsb (λ b, (byte.unsigned b =? 44) || (byte.unsigned b =? 34) || (byte.unsigned b =? 10)) value.
Definition csv_quote (value : bytes) : bytes :=
  if negb (needs_quotes value) then value
  else quote :: (c ← value; if byte.unsigned c =? 34 then [quote; c] else [c]) ++ [quote].

Definition header : bytes :=
  lit "timestamp,host,kernel,cpu_model,cores,threads,ram_gb,fs_type,build_type,cache," ++
  lit "engine,workload,bloom_enabled,ignore_hints,sync_mode,batch_size,memtable_size," ++
  lit "bits_per_key,keys,key_bytes,value_bytes,dataset_bytes,run,ops,elapsed_s," ++
  lit "throughput_ops_s,p50_us,p99_us,p999_us,clock_overhead_ns" ++ newline.

(** [print_header]. *)
Definition print_header : M Prog unit := out header.

Definition flag (b : bool) : bytes := lit (if b then "1" else "0").

(** The columns of [print_row], as they are printed. *)
Definition columns (m : Machine) (ctx : Context_) (row : Row) : list bytes :=
  let a := c_args ctx in
  let env := c_env ctx in
  let is_lsm := bool_decide (a_engine a = EngineLsm) in
  let lsm_only (text : bytes) := if is_lsm then text else [] in
  [ c_str (c_timestamp ctx);
    c_str (csv_quote (kvbench.hostname env));
    c_str (csv_quote (kvbench.kernel env));
    c_str (csv_quote (kvbench.cpu_model env));
    std_to_string (kvbench.cores env);
    std_to_string (kvbench.threads env);
    dbl.fixed 2 (dbl.div (dbl.of_Z (kvbench.ram_bytes env)) (dbl.of_Z (1024 * 1024 * 1024)));
    kvbench.fs_type env;
    mc_build_type m;
    lit "warm";
    lit (if is_lsm then "lsm" else "bitcask");
    r_workload row;
    lsm_only (flag (a_bloom_enabled a));
    (if is_lsm then [] else flag (a_ignore_hints a));
    lit (match a_sync_mode a with Always => "always" | Never => "never" end);
    std_to_string (a_batch_size a);
    lsm_only (snprintf 32 (std_to_string (a_memtable_size a)));
    lsm_only (snprintf 16 (std_to_string (a_bits_per_key a)));
    std_to_string (c_keys ctx);
    std_to_string kKeyBytes;
    std_to_string (c_value_size ctx);
    std_to_string (u64 (c_keys ctx * user_bytes_per_entry (c_value_size ctx)));
    r_run row;
    std_to_string (r_ops row);
    dbl.fixed 6 (r_elapsed_s row);
    dbl.fixed 1 (r_throughput row);
    dbl.fixed 3 (r_p50_us row);
    dbl.fixed 3 (r_p99_us row);
    dbl.fixed 3 (r_p999_us row);
    dbl.fixed 1 (c_clock_ns ctx) ].

(** The columns with commas between them. *)
Fixpoint join (fields : list bytes) : bytes :=
  match fields with
  | [] => []
  | [field] => field
  | field :: rest => field ++ lit "," ++ join rest
  end.

(** [print_row]. *)
Definition print_row (m : Machine) (ctx : Context_) (row : Row) : M Prog unit := out (join (columns m ctx row) ++ newline).

(** [emit]. *)
Definition numbered (workload : bytes) (i : nat) (row : Row) : Row :=
  mkRow workload (std_to_string (Z.of_nat i + 1)) (r_ops row) (r_elapsed_s row) (r_throughput row) (r_p50_us row) (r_p99_us row) (r_p999_us row).
Fixpoint emit_rows (m : Machine) (ctx : Context_) (workload : bytes) (i : nat) (runs : list Row) : M Prog unit :=
  match runs with
  | [] => mret tt
  | row :: rest => print_row m ctx (numbered workload i row);; emit_rows m ctx workload (S i) rest
  end.
Definition summary_row (workload : bytes) (runs : list Row) : result Row :=
  elapsed ← kvbench.median (r_elapsed_s <$> runs);
  throughput ← kvbench.median (r_throughput <$> runs);
  p50 ← kvbench.median (r_p50_us <$> runs);
  p99 ← kvbench.median (r_p99_us <$> runs);
  p999 ← kvbench.median (r_p999_us <$> runs);
  ROk (mkRow workload (lit "median") (match runs with [] => 0 | row :: _ => r_ops row end) elapsed throughput p50 p99 p999).
Definition emit (m : Machine) (ctx : Context_) (workload : bytes) (runs : list Row) : M Prog unit :=
  emit_rows m ctx workload 0 runs;;
  summary ← liftR (summary_row workload runs);
  print_row m ctx summary.

(** [summarise]. *)
Definition summarise (samples_us : list spec_float) (elapsed_s : spec_float) (ops : Z) : result Row :=
  let sorted := dbl.sort samples_us in
  p50 ← kvbench.percentile sorted dbl.p50;
  p99 ← kvbench.percentile sorted dbl.p99;
  p999 ← kvbench.percentile sorted dbl.p999;
  ROk (mkRow [] [] ops elapsed_s (if SFltb dbl.zero elapsed_s then dbl.div (dbl.of_Z ops) elapsed_s else dbl.zero) p50 p99 p999).

(** [fail_op]. *)
Definition fail_op {A : Type} (what : bytes) (status : Status) : M Prog A :=
  err (lit "kv-benchsuite: " ++ what ++ lit " failed: " ++ c_str (to_string status) ++ newline);;
  exit_program 1.

(** ** Workloads *)

Section Workloads.
Context {St : Type} `{KVStore St} `{Harness St} (m : Machine).

(** [load_dataset]. *)
Fixpoint load_loop (n : nat) (i : Z) (value : bytes) : M (St * Prog) unit :=
  match n with
  | O => mret tt
  | S n =>
      r ← attempt (on_store (kv_put (present_key i) value));
      match r with
      | inr status => prog (fail_op (lit "load put") status)
      | inl _ => load_loop n (i + 1) value
      end
  end.
Definition load_dataset (keys : Z) (value : bytes) : M (St * Prog) unit :=
  start ← prog (kvbench.now m);
  load_loop (Z.to_nat keys) 0 value;;
  on_store settle;;
  stop ← prog (kvbench.now m);
  prog (err (lit "kv-benchsuite: loaded " ++ std_to_string keys ++ lit " keys in " ++
             dbl.fixed 1 (kvbench.seconds start stop) ++ lit "s" ++ newline)).

(** The [n]th draw of [pick(rng)]. *)
Definition pick (ctx : Context_) (n : nat) : Z := mc_pick m (a_seed (c_args ctx)) (u64 (c_keys ctx - 1)) n.

(** [measure_reads]. *)
Definition probe (expect_found : bool) (index : Z) : bytes := if expect_found then present_key index else absent_key index.
Fixpoint warm_reads (ctx : Context_) (expect_found : bool) (n drawn : nat) : M (St * Prog) unit :=
  match n with
  | O => mret tt
  | S n => on_store (ignored (kv_get (probe expect_found (pick ctx drawn))));; warm_reads ctx expect_found n (S drawn)
  end.

Definition check_read (expect_found : bool) (status : Status) : M Prog unit :=
  if expect_found then if is_ok status then mret tt else fail_op (lit "get (expected present)") status
  else if bool_decide (code_ status = NotFound) then mret tt else fail_op (lit "get (expected absent)") status.

Fixpoint read_loop (ctx : Context_) (expect_found : bool) (n drawn : nat) (samples : list spec_float) : M (St * Prog) (list spec_float) :=
  match n with
  | O => mret samples
  | S n =>
      op_start ← prog (kvbench.now m);
      r ← attempt (on_store (kv_get (probe expect_found (pick ctx drawn))));
      op_stop ← prog (kvbench.now m);
      prog (check_read expect_found (match r with inl _ => ok | inr status => status end));;
      read_loop ctx expect_found n (S drawn) (samples ++ [kvbench.micros op_start op_stop])
  end.

Definition measure_reads (ctx : Context_) (expect_found : bool) : M (St * Prog) Row :=
  let a := c_args ctx in
  let warmup := Z.to_nat (a_warmup_ops a) in
  warm_reads ctx expect_found warmup 0;;
  prog (reserve (a_ops a));;
  start ← prog (kvbench.now m);
  samples ← read_loop ctx expect_found (Z.to_nat (a_ops a)) warmup [];
  stop ← prog (kvbench.now m);
  liftR (summarise samples (kvbench.seconds start stop) (a_ops a)).

(** [measure_writes]. *)
Fixpoint warm_writes (ctx : Context_) (value : bytes) (n drawn : nat) : M (St * Prog) unit :=
  match n with
  | O => mret tt
  | S n => on_store (ignored (kv_put (present_key (pick ctx drawn)) value));; warm_writes ctx value n (S drawn)
  end.

Fixpoint write_loop (ctx : Context_) (value : bytes) (n drawn : nat) (i : Z) (samples : list spec_float) : M (St * Prog) (list spec_float) :=
  match n with
  | O => mret samples
  | S n =>
      op_start ← prog (kvbench.now m);
      r ← attempt (on_store (kv_put (present_key (pick ctx drawn)) value));
      (if (i + 1) mod a_batch_size (c_args ctx) =? 0 then on_store sync else mret tt);;
      op_stop ← prog (kvbench.now m);
      match r with
      | inr status => prog (fail_op (lit "put") status)
      | inl _ => write_loop ctx value n (S drawn) (i + 1) (samples ++ [kvbench.micros op_start op_stop])
      end
  end.

Definition measure_writes (ctx : Context_) : M (St * Prog) Row :=
  let a := c_args ctx in
  let warmup := Z.to_nat (a_warmup_ops a) in
  value ← prog (filled (c_value_size ctx));
  warm_writes ctx value warmup 0;;
  on_store sync;;
  prog (reserve (a_ops a));;
  start ← prog (kvbench.now m);
  samples ← write_loop ctx value (Z.to_nat (a_ops a)) warmup 0 [];
  on_store sync;;
  stop ← prog (kvbench.now m);
  liftR (summarise samples (kvbench.seconds start stop) (a_ops a)).
End Workloads.

(** ** The program *)

Section Program.
Context `{Platform} (m : Machine).

Fixpoint repeat_runs (n : nat) (run : M Prog Row) : M Prog (list Row) :=
  match n with
  | O => mret []
  | S n => row ← run; rows ← repeat_runs n run; mret (row :: rows)
  end.

(** The directory is emptied; nobody looks whether that worked. *)
Definition fresh_directory : M Prog unit := remove_all;; _ ← create_directories; mret tt.

(** [measure_recovery]. *)
Definition measure_recovery (ctx : Context_) : M Prog Row :=
  let a := c_args ctx in
  warm ← open_engine a;
  _ ← with_store warm (on_store settle);
  start ← kvbench.now m;
  _ ← open_engine a;
  stop ← kvbench.now m;
  let elapsed_s := kvbench.seconds start stop in
  liftR (summarise [dbl.mul elapsed_s (dbl.of_Z 1000000)] elapsed_s 1).

(** The runs of one read workload. *)
Fixpoint read_runs {St : Type} `{KVStore St} (n : nat) (ctx : Context_) (expect_found : bool) : M (St * Prog) (list Row) :=
  match n with
  | O => mret []
  | S n => row ← measure_reads m ctx expect_found; rows ← read_runs n ctx expect_found; mret (row :: rows)
  end.

Definition wants (a : Args) (workload : Workload) : bool :=
  bool_decide (a_workload a = All) || bool_decide (a_workload a = workload).

(** The read workloads of [main], on the store that was opened. *)
Definition read_phase {St : Type} `{KVStore St} `{Harness St} (ctx : Context_) (value : bytes) : M (St * Prog) unit :=
  let a := c_args ctx in
  (if a_reuse_dir a then mret tt else load_dataset m (c_keys ctx) value);;
  on_store settle;;
  (if wants a ReadPresent then
     runs ← read_runs (Z.to_nat (a_runs a)) ctx true; prog (emit m ctx (lit "read_present") runs)
   else mret tt);;
  (if wants a ReadAbsent then
     runs ← read_runs (Z.to_nat (a_runs a)) ctx false; prog (emit m ctx (lit "read_absent") runs)
   else mret tt).

(** One run of the write workload. *)
Definition write_run (ctx : Context_) (value : bytes) : M Prog Row :=
  fresh_directory;;
  store ← open_engine (c_args ctx);
  r ← with_store store (load_dataset m (c_keys ctx) value;; measure_writes m ctx);
  mret r.1.

(** [harness.bitcask->compact()], for Bitcask alone. *)
Definition compact_bitcask (e : Engine) : M (engine_store e) unit :=
  match e return M (engine_store e) unit with EngineBitcask => CompactOps.compact | EngineLsm => mret tt end.

(** One run of [recovery_phase]. *)
Definition recovery_run (phase : Context_) (phase_value : bytes) : M Prog Row :=
  let a := c_args phase in
  fresh_directory;;
  store ← open_engine a;
  _ ← with_store store
    (load_dataset m (c_keys phase) phase_value;;
     r ← attempt (on_store (compact_bitcask (a_engine a)));
     (match r with inr status => prog (fail_op (lit "compact") status) | inl _ => mret tt end);;
     on_store settle);
  measure_recovery phase.

(** [recovery_phase]. *)
Definition recovery_phase (ctx : Context_) (value_size : Z) (label : bytes) : M Prog unit :=
  let a := c_args ctx in
  keys ← liftR (keys_for (a_dataset_mb a) value_size);
  if keys =? 0 then
    err (lit "kv-benchsuite: skipping " ++ label ++ lit ": --dataset-mb " ++ std_to_string (a_dataset_mb a) ++
         lit " holds no records at " ++ std_to_string value_size ++ lit "-byte values" ++ newline)
  else
    let phase := mkContext (c_env ctx) a keys value_size (c_clock_ns ctx) (c_timestamp ctx) in
    phase_value ← filled value_size;
    runs ← repeat_runs (Z.to_nat (a_runs a)) (recovery_run phase phase_value);
    emit m phase label runs.

(** What stops [main] before it measures anything. *)
Definition refusal (args : Args) : option bytes :=
  let again := newline ++ lit "  Use the Release build, or --force." ++ newline in
  if a_force args then None
  else if mc_sanitized m then
    Some (lit "kv-benchsuite: refusing to run: built with AddressSanitizer, which costs 2-3x." ++ again)
  else if negb (mc_ndebug m) then
    Some (lit "kv-benchsuite: refusing to run: this is a debug build (NDEBUG unset)." ++ again)
  else if negb (bool_decide (mc_build_type m = lit "Release")) then
    Some (lit "kv-benchsuite: refusing to run: build type is " ++ mc_build_type m ++ lit ", not Release." ++ again)
  else None.

(** The measurements of [main]. *)
Definition measure (ctx : Context_) : M Prog unit :=
  let args := c_args ctx in
  value ← filled (c_value_size ctx);
  (if wants args ReadPresent || wants args ReadAbsent then
     (if a_reuse_dir args then mret tt else fresh_directory);;
     store ← open_engine args;
     _ ← with_store store (read_phase ctx value);
     mret tt
   else mret tt);;
  (if wants args WriteBatched then
     runs ← repeat_runs (Z.to_nat (a_runs args)) (write_run ctx value);
     emit m ctx (lit "write_batched") runs
   else mret tt);;
  (if wants args Recovery then
     recovery_phase ctx (c_value_size ctx) (lit "recovery");;
     if negb (a_recovery_secondary_value_size args =? 0) &&
        negb (a_recovery_secondary_value_size args =? c_value_size ctx) then
       recovery_phase ctx (a_recovery_secondary_value_size args) (lit "recovery_large_value")
     else mret tt
   else mret tt).

(** [main], where [std::exit] is not called. *)
Definition main_body (argv : list bytes) : M Prog Z :=
  parsed ← parse_args argv;
  let args := parsed.2 in
  if negb parsed.1 then print_usage;; mret 2
  else if a_help args then print_usage;; mret 0
  else
    match refusal args with
    | Some text => err text;; mret 2
    | None =>
        ec ← create_directories;
        if ec : bool then
          err (lit "kv-benchsuite: cannot create " ++ a_dir args ++ lit ": " ++ os_error_text ++ newline);; mret 1
        else
          kvbench.assert_ext4 m (a_dir args) (a_allow_non_ext4 args);;
          keys ← liftR (keys_for (a_dataset_mb args) (a_value_size args));
          err (lit "kv-benchsuite: measuring clock overhead..." ++ newline);;
          clock_ns ← kvbench.clock_overhead_ns m;
          err (lit "kv-benchsuite: steady_clock::now() = " ++ dbl.fixed 1 clock_ns ++ lit " ns" ++ newline);;
          (if a_no_header args then mret tt else print_header);;
          measure (mkContext (kvbench.capture_env m (a_dir args)) args keys (a_value_size args) clock_ns (mc_stamp m));;
          mret 0
    end.

(** [main]: the status the process exits with. *)
Definition main (argv : list bytes) : M Prog Z :=
  r ← attempt (main_body argv);
  match r with
  | inl code => mret code
  | inr _ => p ← get; match pg_exit p with Some code => mret code | None => stuck end
  end.
End Program.

End benchsuite.

(** * kv_bench *)

Module kv_bench.

Inductive Workload : Type := SeqWrite | RandWrite | RandRead | Missing | Mixed.

Record Args : Type := mkArgs {
  b_engine : Engine;
  b_read_mode : ReadMode;
  b_workload : Workload;
  b_keys : Z;
  b_value_size : Z;
  b_threads : Z;
  b_dir : bytes;
  b_help : bool;
}.
Definition default_args : Args := mkArgs EngineLsm Pread RandRead 200000 100 1 [] false.

Definition set_engine (v : Engine) (a : Args) : Args := mkArgs v (b_read_mode a) (b_workload a) (b_keys a) (b_value_size a) (b_threads a) (b_dir a) (b_help a).
Definition set_read_mode (v : ReadMode) (a : Args) : Args := mkArgs (b_engine a) v (b_workload a) (b_keys a) (b_value_size a) (b_threads a) (b_dir a) (b_help a).
Definition set_workload (v : Workload) (a : Args) : Args := mkArgs (b_engine a) (b_read_mode a) v (b_keys a) (b_value_size a) (b_threads a) (b_dir a) (b_help a).
Definition set_keys (v : Z) (a : Args) : Args := mkArgs (b_engine a) (b_read_mode a) (b_workload a) v (b_value_size a) (b_threads a) (b_dir a) (b_help a).
Definition set_value_size (v : Z) (a : Args) : Args := mkArgs (b_engine a) (b_read_mode a) (b_workload a) (b_keys a) v (b_threads a) (b_dir a) (b_help a).
Definition set_threads (v : Z) (a : Args) : Args := mkArgs (b_engine a) (b_read_mode a) (b_workload a) (b_keys a) (b_value_size a) v (b_dir a) (b_help a).
Definition set_dir (v : bytes) (a : Args) : Args := mkArgs (b_engine a) (b_read_mode a) (b_workload a) (b_keys a) (b_value_size a) (b_threads a) v (b_help a).
Definition set_help (v : bool) (a : Args) : Args := mkArgs (b_engine a) (b_read_mode a) (b_workload a) (b_keys a) (b_value_size a) (b_threads a) (b_dir a) v.

Definition usage : bytes := lit
"usage: kv_bench [options]

  --engine NAME     bitcask | lsm            (default: lsm)
  --read-mode NAME  pread | mmap             (default: pread)
  --workload NAME   seqwrite | randwrite | randread |
                    missing | mixed          (default: randread)
  --keys N          number of keys           (default: 200000)
  --value-size N    bytes per value          (default: 100)
  --threads N       concurrent readers       (default: 1)
  --dir PATH        where to build it        (default: a temp dir)
  --help
".

Definition print_usage : M Prog unit := err usage.

(** [key_at], of an [int] that is not negative. *)
Definition key_at (i : Z) : bytes := snprintf 32 (lit "key" ++ zero_padded 10 i).

(** [percentile]. *)
Definition percentile (sorted : list spec_float) (p : spec_float) : result spec_float :=
  match sorted with
  | [] => ROk dbl.zero
  | _ =>
      let index := dbl.trunc (dbl.mul p (dbl.of_Z (sz sorted - 1))) in
      match sorted !! Z.to_nat index with Some x => ROk x | None => Stuck end
  end.

(** [directory_bytes]. *)
Fixpoint sum_sizes (names : list bytes) (total : Z) : M Prog Z :=
  match names with
  | [] => mret total
  | name :: rest =>
      size ← platform.path_size name;
      sum_sizes rest (match size with Some size => u64 (total + size) | None => total end)
  end.
Definition directory_bytes : M Prog Z :=
  names ← platform.list_directory;
  match names with None => mret 0 | Some names => sum_sizes names 0 end.

Definition refuse (text : bytes) (args : Args) : M Prog (bool * Args) :=
  err (lit "kv_bench: " ++ text ++ newline);; mret (false, args).

(** The options of [parse_args], all of which take a value. *)
Definition parse_value (arg v : bytes) (args : Args) : option (result (Args + bytes)) :=
  let named (name : string) := bool_decide (arg = lit name) in
  let choose (complaint : string) (table : list (string * (Args → Args))) : option (result (Args + bytes)) :=
    Some (ROk (match benchsuite.one_of v table with Some f => inl (f args) | None => inr (lit complaint ++ v) end)) in
  if named "--engine" then choose "unknown engine: " [("bitcask", set_engine EngineBitcask); ("lsm", set_engine EngineLsm)]
  else if named "--read-mode" then choose "unknown read mode: " [("pread", set_read_mode Pread); ("mmap", set_read_mode Mmap)]
  else if named "--workload" then choose "unknown workload: "
    [("seqwrite", set_workload SeqWrite); ("randwrite", set_workload RandWrite); ("randread", set_workload RandRead);
     ("missing", set_workload Missing); ("mixed", set_workload Mixed)]
  else if named "--keys" then Some (n ← atoi v; ROk (inl (set_keys n args)))
  else if named "--value-size" then Some (n ← atoi v; ROk (inl (set_value_size n args)))
  else if named "--threads" then Some (n ← atoi v; ROk (inl (set_threads n args)))
  else if named "--dir" then Some (ROk (inl (set_dir v args)))
  else None.

Fixpoint parse_loop (argv : list bytes) (args : Args) : M Prog (bool * Args) :=
  match argv with
  | [] => mret (true, args)
  | arg :: tl =>
      if bool_decide (arg = lit "--help") || bool_decide (arg = lit "-h") then mret (true, set_help true args)
      else
        let unrecognised := refuse (lit "unrecognised argument: " ++ arg) args in
        match tl with
        | [] => unrecognised
        | v :: tl' =>
            match parse_value arg v args with
            | None => unrecognised
            | Some (ROk (inl args')) => parse_loop tl' args'
            | Some (ROk (inr complaint)) => refuse complaint args
            | Some _ => stuck
            end
        end
  end.

(** [parse_args]. *)
Definition parse_args (argv : list bytes) : M Prog (bool * Args) :=
  parsed ← parse_loop argv default_args;
  let args := parsed.2 in
  if negb parsed.1 || b_help args then mret parsed
  else if (b_keys args <=? 0) || (b_value_size args <? 0) || (b_threads args <=? 0) then
    refuse (lit "--keys, --value-size and --threads must be positive") args
  else mret (true, args).

Section Program.
Context `{Platform} (m : Machine).

(** [Harness::settle]. *)
Definition settle (e : Engine) : M (engine_store e) unit :=
  match e return M (engine_store e) unit with
  | EngineBitcask => mret tt
  | EngineLsm => LsmOps.flush;; LsmOps.wait_for_background
  end.

Definition bitcask_options : BitcaskOptions := mkOptions Never (Z.shiftl 64 20) false FailNone.
Definition lsm_options (args : Args) : LsmOptions :=
  let o := default_lsm_options in
  mkLsmOptions Never (lo_memtable_size o) (lo_block_size o) (lo_bits_per_key o) (lo_bloom_enabled o) (b_read_mode args)
    (lo_l0_compaction_trigger o) (lo_level_base_bytes o) (lo_level_multiplier o) (lo_target_table_size o) (lo_max_levels o) (lo_fail_at o).

(** [open_engine]. *)
Definition open_engine (args : Args) : M Prog (engine_store (b_engine args)) :=
  let opening : M unit (engine_store (b_engine args)) :=
    match b_engine args as e return M unit (engine_store e) with
    | EngineBitcask => BitcaskOps.open (b_dir args) bitcask_options
    | EngineLsm => LsmOpen.open (b_dir args) (lsm_options args)
    end in
  opened ← attempt (with_local tt opening);
  match opened with
  | inl (store, _) => mret store
  | inr status => err (lit "kv_bench: " ++ c_str (to_string status) ++ newline);; exit_program 1
  end.

(** The loop that loads the store: the status of the put that failed. *)
Fixpoint load_loop {St : Type} `{KVStore St} (n : nat) (i : Z) (value : bytes) : M (St * Prog) (option Status) :=
  match n with
  | O => mret None
  | S n =>
      r ← attempt (on_store (kv_put (key_at i) value));
      match r with
      | inr status => mret (Some status)
      | inl _ => load_loop n (i + 1) value
      end
  end.

(** ** The measured phase *)

(** One operation of a thread, its [n]th, with what [pick(rng)] gives it.  Two threads that
    change a Bitcask at the same time have no defined behaviour. *)
Definition writes (workload : Workload) (n : Z) : bool :=
  match workload with SeqWrite | RandWrite => true | RandRead | Missing => false | Mixed => n mod 4 =? 0 end.
Definition operation (args : Args) (value : bytes) (n picked : Z) : M (engine_store (b_engine args)) unit :=
  let put (key : bytes) := ignored (kv_put key value) in
  let get (key : bytes) := ignored (kv_get key) in
  if bool_decide (b_engine args = EngineBitcask) && (1 <? b_threads args) && writes (b_workload args) n then stuck
  else
    match b_workload args with
    | SeqWrite => put (key_at n)
    | RandWrite => put (key_at picked)
    | RandRead => get (key_at picked)
    | Missing => get (key_at picked ++ lit "z")
    | Mixed => if n mod 4 =? 0 then put (key_at picked) else get (key_at picked)
    end.

(** A thread: how many operations it has done, and their latencies. *)
Record Worker : Type := mkWorker { wk_done : Z; wk_latencies : list spec_float }.

(** The next round of the loop of thread [t]. *)
Definition worker_step (args : Args) (value : bytes) (t : nat) (worker : Worker) : M (engine_store (b_engine args) * Prog) Worker :=
  let n := wk_done worker in
  let seed := u32 (u32 (Z.of_nat t * 7919) + 17) in
  start ← prog (kvbench.now m);
  on_store (operation args value n (mc_pick m seed (b_keys args - 1) (Z.to_nat n)));;
  stop ← prog (kvbench.now m);
  mret (mkWorker (n + 1) (wk_latencies worker ++ [kvbench.micros start stop])).

(** The threads take turns as the schedule says; a thread that is done takes none. *)
Fixpoint run_schedule (args : Args) (value : bytes) (schedule : list nat) (workers : list Worker) : M (engine_store (b_engine args) * Prog) (list Worker) :=
  match schedule with
  | [] => mret workers
  | t :: rest =>
      match workers !! t with
      | Some worker =>
          if wk_done worker <? b_keys args then
            worker' ← worker_step args value t worker;
            run_schedule args value rest (<[t := worker']> workers)
          else run_schedule args value rest workers
      | None => run_schedule args value rest workers
      end
  end.

(** All of the work: the schedule first, then each thread to its end. *)
Definition full_schedule (args : Args) (schedule : list nat) : list nat :=
  schedule ++ (t ← seq 0 (Z.to_nat (b_threads args)); replicate (Z.to_nat (b_keys args)) t).
Definition run_threads (args : Args) (value : bytes) (schedule : list nat) : M (engine_store (b_engine args) * Prog) (list Worker) :=
  run_schedule args value (full_schedule args schedule) (replicate (Z.to_nat (b_threads args)) (mkWorker 0 [])).

(** ** The report *)

(** [harness.lsm]. *)
Definition as_lsm (e : Engine) : engine_store e → option LsmStore :=
  match e return engine_store e → option LsmStore with EngineBitcask => λ _, None | EngineLsm => Some end.

Definition stat (st : LsmStore) (c : counter) : Z := st_stats st c.

Definition ratio (a b : Z) : spec_float := if b =? 0 then dbl.zero else dbl.div (dbl.of_Z a) (dbl.of_Z b).

Definition workload_name (workload : Workload) : bytes :=
  lit (match workload with
       | SeqWrite => "seqwrite" | RandWrite => "randwrite" | RandRead => "randread" | Missing => "missing" | Mixed => "mixed"
       end).

(** What is read from the store once it is loaded. *)
Record Loaded : Type := mkLoaded {
  ld_seconds : spec_float;
  ld_bytes_on_disk : Z;
  ld_bytes_written : Z;
  ld_blocks_before : Z;
  ld_gets_before : Z;
}.

Definition num (n : Z) : bytes := std_to_string n.

Definition report_head (args : Args) (load_seconds seconds : spec_float) (operations : Z) (all : list spec_float) : result bytes :=
  p50 ← percentile all dbl.p50;
  p99 ← percentile all dbl.p99;
  p999 ← percentile all dbl.p999;
  ROk (
    lit "engine        " ++
    (match b_engine args with
     | EngineBitcask => lit "bitcask"
     | EngineLsm => lit "lsm (" ++ lit (match b_read_mode args with Mmap => "mmap" | Pread => "pread" end) ++ lit ")"
     end) ++ newline ++
    lit "workload      " ++ workload_name (b_workload args) ++ newline ++
    lit "keys          " ++ num (b_keys args) ++ lit " x " ++ num (b_value_size args) ++ lit "-byte values, " ++
    num (b_threads args) ++ lit " thread(s)" ++ newline ++
    newline ++
    lit "load          " ++ dbl.fixed 2 load_seconds ++ lit " s  (" ++
    dbl.fixed 0 (dbl.div (dbl.of_Z (b_keys args)) load_seconds) ++ lit " ops/s)" ++ newline ++
    lit "throughput    " ++ dbl.fixed 0 (dbl.div (dbl.of_Z operations) seconds) ++ lit " ops/s  (" ++ num operations ++
    lit " ops in " ++ dbl.fixed 2 seconds ++ lit " s)" ++ newline ++
    lit "latency       p50 " ++ dbl.fixed 1 p50 ++ lit " us   p99 " ++ dbl.fixed 1 p99 ++ lit " us   p999 " ++
    dbl.fixed 1 p999 ++ lit " us" ++ newline).

Definition space_line (loaded : Loaded) (user_bytes : Z) : bytes :=
  lit "space amp     " ++ dbl.fixed 2 (ratio (ld_bytes_on_disk loaded) user_bytes) ++ lit "x   (" ++
  num (ld_bytes_on_disk loaded) ++ lit " bytes on disk / " ++ num user_bytes ++ lit " bytes of data)" ++ newline.

Fixpoint level_words (st : LsmStore) (level n : nat) : bytes :=
  match n with
  | O => []
  | S n =>
      lit "L" ++ num (Z.of_nat level) ++ lit ":" ++ num (LsmOpen.tables_at st level) ++ lit " " ++ level_words st (S level) n
  end.

Definition report_lsm (st : LsmStore) (loaded : Loaded) (user_bytes : Z) : bytes :=
  let gets_ := u64 (stat st gets - ld_gets_before loaded) in
  let blocks := u64 (stat st block_reads - ld_blocks_before loaded) in
  let rejected := if stat st bloom_checks =? 0 then dbl.zero
                  else dbl.div (dbl.mul (dbl.of_Z 100) (dbl.of_Z (stat st bloom_rejects))) (dbl.of_Z (stat st bloom_checks)) in
  newline ++
  lit "write amp     " ++ dbl.fixed 2 (ratio (ld_bytes_written loaded) user_bytes) ++ lit "x   (" ++
  num (ld_bytes_written loaded) ++ lit " bytes written / " ++ num user_bytes ++ lit " bytes of data)" ++ newline ++
  lit "read amp      " ++ dbl.fixed 3 (ratio blocks gets_) ++ lit "    (" ++ num blocks ++ lit " block reads / " ++
  num gets_ ++ lit " gets)" ++ newline ++
  space_line loaded user_bytes ++
  newline ++
  lit "bloom         " ++ num (stat st bloom_checks) ++ lit " checks, " ++ num (stat st bloom_rejects) ++ lit " rejected (" ++
  dbl.fixed 1 rejected ++ lit "%)" ++ newline ++
  lit "compactions   " ++ num (stat st compactions) ++ lit "  (" ++ num (stat st compaction_bytes_read) ++ lit " bytes read, " ++
  num (stat st compaction_bytes_written) ++ lit " written)" ++ newline ++
  lit "levels        " ++ level_words st 0 (Z.to_nat (LsmOpen.level_count st)) ++ newline.

Definition report_bitcask (loaded : Loaded) (user_bytes : Z) : bytes :=
  newline ++ space_line loaded user_bytes ++ lit "(read and write amplification are LSM-only counters)" ++ newline.

(** ** The program *)

(** [main] from the open engine on: the status it returns. *)
Definition measure (args : Args) (value : bytes) (schedule : list nat) : M (engine_store (b_engine args) * Prog) Z :=
  let user_bytes := u64 (b_keys args * (sz (key_at 0) + sz value)) in
  load_start ← prog (kvbench.now m);
  failed ← load_loop (Z.to_nat (b_keys args)) 0 value;
  match failed with
  | Some status => prog (err (lit "kv_bench: put failed: " ++ c_str (to_string status) ++ newline));; mret 1
  | None =>
      settled ← attempt (on_store (settle (b_engine args)));
      match settled with
      | inr status => prog (err (lit "kv_bench: " ++ c_str (to_string status) ++ newline));; mret 1
      | inl _ =>
          load_end ← prog (kvbench.now m);
          bytes_on_disk ← prog directory_bytes;
          x ← get;
          let load_seconds := kvbench.seconds load_start load_end in
          let loaded :=
            match as_lsm _ x.1 with
            | Some st => mkLoaded load_seconds bytes_on_disk (u64 (stat st bytes_written + stat st compaction_bytes_written))
                           (stat st block_reads) (stat st gets)
            | None => mkLoaded load_seconds bytes_on_disk 0 0 0
            end in
          start ← prog (kvbench.now m);
          workers ← run_threads args value schedule;
          stop ← prog (kvbench.now m);
          let operations := foldl (λ total worker, u64 (total + wk_done worker)) 0 workers in
          let all := dbl.sort (concat (wk_latencies <$> workers)) in
          head ← liftR (report_head args load_seconds (kvbench.seconds start stop) operations all);
          prog (out head);;
          x ← get;
          prog (out (match as_lsm _ x.1 with
                     | Some st => report_lsm st loaded user_bytes
                     | None => report_bitcask loaded user_bytes
                     end));;
          mret 0
      end
  end.

(** The directory of a run that names none. *)
Definition temporary_directory : M Prog bytes :=
  t ← kvbench.now m;
  mret (mc_temp m ++ lit "/kv_bench_" ++ std_to_string t).

Definition main_body (argv : list bytes) (schedule : list nat) : M Prog Z :=
  parsed ← parse_args argv;
  let args := parsed.2 in
  if negb parsed.1 then print_usage;; mret 2
  else if b_help args then print_usage;; mret 0
  else
    let temporary := bool_decide (b_dir args = []) in
    dir ← (if temporary then temporary_directory else mret (b_dir args));
    let args := set_dir dir args in
    _ ← create_directories;
    value ← filled (b_value_size args);
    store ← open_engine args;
    r ← with_store store (measure args value schedule);
    (if temporary && (r.1 =? 0) then remove_all else mret tt);;
    mret r.1.

(** [main]. *)
Definition main (argv : list bytes) (schedule : list nat) : M Prog Z :=
  r ← attempt (main_body argv schedule);
  match r with
  | inl code => mret code
  | inr _ => p ← get; match pg_exit p with Some code => mret code | None => stuck end
  end.
End Program.

End kv_bench.
