(* ===== verification/BenchSpec.v ===== *)
(** What the benchmarks measure: the keys they probe, the rows they print, and that the
    checks they make of the store hold of every store that keeps its contract. *)

From Stdlib Require Import Floats.SpecFloat.
From S2P Require Import Prelude Status FileNames World Wp LogFile Bitcask BitcaskState BitcaskSteps BitcaskServe BitcaskDisk BitcaskSession LsmState Lsm LsmReads LsmProps.
From S2P Require Import Protocol Stores Apps Bench.

(** * Keys *)

(** The last [w] digits of a number. *)
Fixpoint dec (w : nat) (n : Z) : bytes :=
  match w with O => [] | S w => dec w (n / 10) ++ [byte.of_Z (48 + n mod 10)] end.

Lemma dec_length w : ∀ n, length (dec w n) = w.
Proof. induction w as [|w IH]; intros n; [done|]. cbn [dec]. rewrite length_app, IH. cbn. lia. Qed.

Lemma dec_zero w : dec w 0 = replicate w (byte.of_Z 48).
Proof. induction w as [|w IH]; [done|]. cbn [dec]. change (0 / 10) with 0. rewrite IH. symmetry. apply replicate_S_end. Qed.

Lemma to_string_acc fuel : ∀ n acc, to_string_loop fuel n acc = to_string_loop fuel n [] ++ acc.
Proof.
  induction fuel as [|fuel IH]; intros n acc; [done|]. cbn [to_string_loop]. destruct (n / 10 =? 0); [done|].
  rewrite IH. rewrite (IH _ [_]). by rewrite <-app_assoc.
Qed.

Lemma padded_dec w : ∀ fuel n, (w ≤ fuel)%nat → 0 ≤ n < 10 ^ Z.of_nat w → (0 < w)%nat →
  dbl.pad_left (Z.of_nat w) (to_string_loop fuel n []) = dec w n.
Proof.
  unfold dbl.pad_left. induction w as [|w IH]; intros fuel n Hf Hn Hw; [lia|].
  destruct fuel as [|fuel]; [lia|]. cbn [to_string_loop dec]. rewrite Nat2Z.inj_succ, Z.pow_succ_r in Hn by lia.
  pose proof (Z.div_mod n 10 ltac:(done)). pose proof (Z.mod_pos_bound n 10 eq_refl).
  destruct (Z.eqb_spec (n / 10) 0) as [E|E].
  - rewrite E, dec_zero. unfold sz. cbn [length]. do 2 f_equal. lia.
  - assert (Hw' : (0 < w)%nat) by (destruct w; [simpl in Hn; lia|lia]).
    rewrite to_string_acc, app_assoc, <-(IH fuel (n / 10)) by lia. do 2 f_equal. unfold sz. rewrite length_app. cbn [length]. f_equal. lia.
Qed.

Lemma klt_app_l p q r : klt q r → klt (p ++ q) (p ++ r).
Proof. intros Hq. unfold klt in *. induction p as [|x p IH]; [done|]. cbn. by rewrite Z.ltb_irrefl. Qed.

Lemma klt_app_r a b p q : length a = length b → klt a b → klt (a ++ p) (b ++ q).
Proof.
  unfold klt. revert b. induction a as [|x a IH]; intros [|y b] Hl Hlt; [done|done|done|]. cbn in *.
  destruct (_ <? _); [done|]. destruct (_ <? _); [done|]. apply IH; [lia|done].
Qed.

Lemma klt_digit x y : 0 ≤ x < y → y < 10 → klt [byte.of_Z (48 + x)] [byte.of_Z (48 + y)].
Proof.
  intros Hx Hy. unfold klt. cbn. rewrite !byte.unsigned_of_Z. unfold byte.wrap. rewrite !Z.mod_small by lia.
  by rewrite (proj2 (Z.ltb_lt _ _)) by lia.
Qed.

Lemma dec_lt w : ∀ a b, 0 ≤ a < b → b < 10 ^ Z.of_nat w → klt (dec w a) (dec w b).
Proof.
  induction w as [|w IH]; intros a b Ha Hb; [simpl in Hb; lia|]. cbn [dec]. rewrite Nat2Z.inj_succ, Z.pow_succ_r in Hb by lia.
  pose proof (Z.div_mod a 10 ltac:(done)). pose proof (Z.mod_pos_bound a 10 eq_refl).
  pose proof (Z.div_mod b 10 ltac:(done)). pose proof (Z.mod_pos_bound b 10 eq_refl).
  destruct (decide (a / 10 = b / 10)) as [E|E].
  - rewrite E. apply klt_app_l, klt_digit; lia.
  - apply klt_app_r; [by rewrite !dec_length|]. apply IH; lia.
Qed.

Section Keys.
Import benchsuite.

Definition key_limit : Z := 1000000000000.

Lemma key_of_dec n : 0 ≤ n < key_limit → key_of n = lit "key_" ++ dec 12 n.
Proof.
  intros Hn. unfold key_of, zero_padded, std_to_string, key_limit in *. change 12 with (Z.of_nat 12) at 1.
  rewrite padded_dec by (cbn; lia). unfold snprintf. rewrite take_take. apply take_ge. rewrite length_app, dec_length. by apply Nat.leb_le.
Qed.

Lemma key_of_lt a b : 0 ≤ a < b → b < key_limit → klt (key_of a) (key_of b).
Proof. intros Ha Hb. rewrite !key_of_dec by lia. by apply klt_app_l, dec_lt. Qed.

Lemma key_of_lt_iff a b : 0 ≤ a < key_limit → 0 ≤ b < key_limit → klt (key_of a) (key_of b) ↔ a < b.
Proof.
  intros Ha Hb. split; [|intros; apply key_of_lt; lia]. intros Hl. destruct (Z.lt_trichotomy a b) as [?|[->|Hg]]; [done|..]; exfalso.
  - by eapply klt_irrefl.
  - eapply klt_irrefl, klt_trans; [exact Hl|apply key_of_lt; lia].
Qed.

Lemma key_of_length n : 0 ≤ n < key_limit → sz (key_of n) = kKeyBytes.
Proof. intros Hn. rewrite key_of_dec by done. unfold sz. by rewrite length_app, dec_length. Qed.

Lemma key_of_inj a b : 0 ≤ a < key_limit → 0 ≤ b < key_limit → key_of a = key_of b → a = b.
Proof.
  intros Ha Hb E. pose proof (key_of_lt_iff a b Ha Hb). pose proof (key_of_lt_iff b a Hb Ha). pose proof (klt_irrefl (key_of a)).
  rewrite E in *. destruct (Z.lt_trichotomy a b) as [?|[?|?]]; [naive_solver|done|naive_solver].
Qed.
End Keys.

(** The keys that are probed: as many bytes as the program says, and an absent one lies
    right after its present neighbour. *)
Lemma probes_ordered keys i j : keys * 2 ≤ key_limit → 0 ≤ i < keys → 0 ≤ j < keys →
  benchsuite.present_key i = benchsuite.key_of (i * 2) ∧ benchsuite.absent_key i = benchsuite.key_of (i * 2 + 1) ∧
  (i ≤ j ↔ klt (benchsuite.present_key i) (benchsuite.absent_key j)) ∧
  (i < j ↔ klt (benchsuite.present_key i) (benchsuite.present_key j)) ∧
  (i < j ↔ klt (benchsuite.absent_key i) (benchsuite.present_key j)).
Proof.
  intros Hk Hi Hj. unfold benchsuite.present_key, benchsuite.absent_key, key_limit in *.
  rewrite !u64_id by (unfold UINT64_MAX; lia). rewrite !key_of_lt_iff by (unfold key_limit; lia). split_and!; [done|done|lia..].
Qed.

(** The same for kv_bench, whose absent keys are one byte longer. *)
Lemma key_at_dec i : 0 ≤ i ≤ 2147483647 → kv_bench.key_at i = lit "key" ++ dec 10 i.
Proof.
  intros Hi. unfold kv_bench.key_at, zero_padded, std_to_string. change 10 with (Z.of_nat 10) at 1.
  rewrite padded_dec by (cbn; lia). unfold snprintf. apply take_ge. rewrite length_app, dec_length. by apply Nat.leb_le.
Qed.

Lemma klt_longer a x r : klt a (a ++ x :: r).
Proof. unfold klt. induction a as [|y a IH]; [done|]. cbn. by rewrite Z.ltb_irrefl. Qed.

(** ** The dataset *)

(** What is in the store after [n] puts of the load. *)
Fixpoint dataset (n : nat) (value : bytes) : gmap bytes bytes :=
  match n with O => ∅ | S n => <[benchsuite.present_key (Z.of_nat n) := value]> (dataset n value) end.




(** * Statistics *)





(** * The store under measurement *)

Section Measured.
Context {St : Type} `{Contract St} (m : Machine).



(** ** Loading *)





(** ** Reading *)

(** The states a sequence of gets goes through. *)
Inductive reading (s0 : St) (w0 : World) : St → World → Prop :=
| reading_start : reading s0 w0 s0 w0
| reading_found s w k v s' w' : reading s0 w0 s w → kv_get k s w = Ok v s' w' → reading s0 w0 s' w'
| reading_missed s w k e s' w' : reading s0 w0 s w → kv_get k s w = Err e s' w' → reading s0 w0 s' w'.

(** Every get of a key is within the limits of the store. *)
Definition reads_ready (s0 : St) (w0 : World) : Prop :=
  ∀ s w k, reading s0 w0 s w → sz k = benchsuite.kKeyBytes → kv_ready (mkRequest OpGet k []) s w.

Section Reads.
Context (ctx : benchsuite.Context_) (value : bytes) (s0 : St) (w0 : World) (expect_found : bool).
Let keys := benchsuite.c_keys ctx.
Let db := dataset (Z.to_nat keys) value.
Hypothesis Hkeys : 0 < keys ∧ keys * 2 ≤ key_limit.
Hypothesis Hpick : ∀ n, 0 ≤ benchsuite.pick m ctx n < keys.
Hypothesis Hready : reads_ready s0 w0.







End Reads.

Lemma reading_inv (I : St → World → Prop) s0 w0 s w : reading s0 w0 s w → I s0 w0 →
  (∀ s w k, I s w → wp (kv_get k) s w (λ _, I) (λ _, I) (λ _, True)) → I s w.
Proof.
  intros Hr Hstart Hk. induction Hr as [|s w k v s' w' _ IH Eg|s w k e s' w' _ IH Eg]; [done|..];
    specialize (Hk s w k IH); unfold wp in Hk; rewrite Eg in Hk; by destruct Hk.
Qed.
End Measured.

(** ** The engines *)

Section Engines.
Context `{Platform}.

(** Reading takes nothing from an engine: it stays within the limits it started in. *)
Lemma bitcask_reads_ready (b : Bitcask) w db : kv_holds b w db → reliable w → active_id_ b ≠ UINT32_MAX → reads_ready b w.
Proof.
  intros Hh Hrel Hid b' w' k Hr Hk.
  assert (HI : (∃ db, kv_holds b' w' db) ∧ reliable w' ∧ active_id_ b' ≠ UINT32_MAX).
  { apply (reading_inv (λ b w, (∃ db, kv_holds b w db) ∧ reliable w ∧ active_id_ b ≠ UINT32_MAX) _ _ _ _ Hr); [eauto|].
    clear. intros b w k ([db [Hsane (hs & Hr & <-)]] & Hrel & Hid).
    assert (Hsame : ∀ w', calm w w' → same_files w w' → (∃ db, kv_holds b w' db) ∧ reliable w' ∧ active_id_ b ≠ UINT32_MAX).
    { intros w' Hc [Hw _]. split_and!; [|by eapply calm_reliable|done]. exists (map_of hs). split; [done|]. exists hs. split; [by eapply rep_files|done]. }
    eapply wp_mono; [by apply (wp_bitcask_get b w (map_of hs) k), rep_serves|..]; cbn beta; [| |done].
    - intros v b' w' Hc (_ & -> & Hs). by apply Hsame.
    - intros e b' w' Hc (-> & Hs & _). by apply Hsame. }
  destruct HI as (_ & Hrel' & Hid'). split_and!; [done|done|]. unfold request_size. cbn. rewrite Hk. done.
Qed.

Lemma lsm_reads_ready (st : LsmStore) w db : kv_holds st w db → reliable w → reads_ready st w.
Proof.
  intros Hh Hrel st' w' k Hr Hk.
  enough (HI : (∃ db, kv_holds st' w' db) ∧ reliable w').
  { destruct HI as [_ HI]. split; [exact HI|]. by intros []. }
  apply (reading_inv (λ st w, (∃ db, kv_holds st w db) ∧ reliable w) _ _ _ _ Hr); [eauto|].
  clear. intros st w k [[db Hh] Hrel].
  eapply wp_mono; [apply (kv_get_law k st w db Hh); split; [done|by intros []]|..]; cbn beta; [| |done].
  - intros v st' w' Hc [_ Hh']. split; [by exists db|by eapply calm_reliable].
  - intros e st' w' Hc (_ & _ & Hh'). split; [by exists db|by eapply calm_reliable].
Qed.
End Engines.

(** * Rows

    A reader of comma-separated values after RFC 4180, for one record. *)

Inductive csv_state : Type := AtStart | InBare | InQuoted | AfterQuote.

Definition comma : byte := byte.of_Z 44.
Definition plain_byte (b : byte) : bool := negb ((byte.unsigned b =? 44) || (byte.unsigned b =? 34) || (byte.unsigned b =? 10)).

Fixpoint csv_read (st : csv_state) (field text : bytes) : option (list bytes) :=
  match text with
  | [] => None
  | b :: rest =>
      if byte.unsigned b =? 44 then
        match st with InQuoted => csv_read InQuoted (field ++ [b]) rest | _ => cons field <$> csv_read AtStart [] rest end
      else if byte.unsigned b =? 34 then
        match st with
        | AtStart => csv_read InQuoted [] rest
        | InBare => None
        | InQuoted => csv_read AfterQuote field rest
        | AfterQuote => csv_read InQuoted (field ++ [b]) rest
        end
      else if byte.unsigned b =? 10 then
        match st with
        | InQuoted => csv_read InQuoted (field ++ [b]) rest
        | _ => match rest with [] => Some [field] | _ => None end
        end
      else
        match st with
        | AtStart => csv_read InBare [b] rest
        | InBare => csv_read InBare (field ++ [b]) rest
        | InQuoted => csv_read InQuoted (field ++ [b]) rest
        | AfterQuote => None
        end
  end.

Definition read_row (text : bytes) : option (list bytes) := csv_read AtStart [] text.

(** What may follow a field. *)
Definition delimited (text : bytes) : Prop := ∃ b rest, text = b :: rest ∧ (b = comma ∨ b = byte.of_Z 10).

(** The record goes on after a field that has been read. *)
Definition finish (field text : bytes) : option (list bytes) :=
  match text with
  | [] => None
  | b :: rest =>
      if byte.unsigned b =? 44 then cons field <$> csv_read AtStart [] rest
      else if byte.unsigned b =? 10 then match rest with [] => Some [field] | _ => None end
      else None
  end.

Lemma quotes_plain v : benchsuite.needs_quotes v = negb (forallb plain_byte v).
Proof. induction v as [|b v IH]; [done|]. cbn. unfold benchsuite.needs_quotes in IH. rewrite IH. unfold plain_byte. by rewrite negb_andb, negb_involutive. Qed.

Lemma read_delimiter st field text : delimited text → st ≠ InQuoted → csv_read st field text = finish field text.
Proof. intros (b & rest & -> & [-> | ->]) Hst; by destruct st. Qed.

Lemma plain_byte_spec b : plain_byte b = true → (byte.unsigned b =? 44) = false ∧ (byte.unsigned b =? 34) = false ∧ (byte.unsigned b =? 10) = false.
Proof. unfold plain_byte. by destruct (_ =? 44), (_ =? 34), (_ =? 10). Qed.

Lemma read_bare v : ∀ field rest, forallb plain_byte v = true → delimited rest → csv_read InBare field (v ++ rest) = finish (field ++ v) rest.
Proof.
  induction v as [|b v IH]; intros field rest Hv Hd; [by rewrite app_nil_r, read_delimiter|].
  cbn in Hv. apply andb_true_iff in Hv as [(E1 & E2 & E3)%plain_byte_spec Hv]. cbn [app csv_read]. rewrite E1, E2, E3.
  rewrite IH by done. by rewrite <-app_assoc.
Qed.

(** The steps of the reader inside quotes. *)
Lemma quoted_other field b rest : byte.unsigned b ≠ 34 → csv_read InQuoted field (b :: rest) = csv_read InQuoted (field ++ [b]) rest.
Proof. intros E. cbn [csv_read]. rewrite (proj2 (Z.eqb_neq _ 34) E). by repeat destruct (_ =? _). Qed.

Lemma quoted_twice field rest : csv_read InQuoted field (benchsuite.quote :: benchsuite.quote :: rest) = csv_read InQuoted (field ++ [benchsuite.quote]) rest.
Proof. reflexivity. Qed.

Lemma read_quoted v : ∀ field rest, delimited rest →
  csv_read InQuoted field ((c ← v; if byte.unsigned c =? 34 then [benchsuite.quote; c] else [c]) ++ benchsuite.quote :: rest) = finish (field ++ v) rest.
Proof.
  induction v as [|b v IH]; intros field rest Hd.
  { rewrite app_nil_r. by apply (read_delimiter AfterQuote). }
  cbn [mbind list_bind]. destruct (Z.eqb_spec (byte.unsigned b) 34) as [E|E].
  - assert (b = benchsuite.quote) as -> by by apply byte.unsigned_inj. cbn [app]. rewrite quoted_twice. etrans; [by apply IH|]. by rewrite <-app_assoc.
  - cbn [app]. rewrite quoted_other by done. etrans; [by apply IH|]. by rewrite <-app_assoc.
Qed.

(** A value that was quoted is read back. *)
Lemma read_field v rest : delimited rest → read_row (benchsuite.csv_quote v ++ rest) = finish v rest.
Proof.
  intros Hd. unfold benchsuite.csv_quote, read_row. rewrite quotes_plain. rewrite negb_involutive. destruct (forallb plain_byte v) eqn:Ev.
  - destruct v as [|b v]; [by apply read_delimiter|]. cbn in Ev. apply andb_true_iff in Ev as [(E1 & E2 & E3)%plain_byte_spec Hv].
    cbn [app csv_read]. rewrite E1, E2, E3. by rewrite read_bare.
  - rewrite <-app_comm_cons, <-app_assoc. by apply (read_quoted v []).
Qed.

Lemma read_values vs v : read_row (benchsuite.join (benchsuite.csv_quote <$> (vs ++ [v])) ++ newline) = Some (vs ++ [v]).
Proof.
  induction vs as [|u vs IH].
  { cbn [app fmap list_fmap benchsuite.join]. rewrite read_field; [done|]. exists (byte.of_Z 10), []. split; [done|by right]. }
  rewrite <-app_comm_cons, fmap_cons. set (texts := benchsuite.csv_quote <$> (vs ++ [v])) in *.
  assert (Hj : benchsuite.join (benchsuite.csv_quote u :: texts) = benchsuite.csv_quote u ++ comma :: benchsuite.join texts).
  { unfold texts. rewrite fmap_app. by destruct vs. }
  rewrite Hj, <-app_assoc, <-app_comm_cons, read_field by (eexists _, _; split; [reflexivity|by left]).
  unfold finish. change (byte.unsigned comma =? 44) with true. cbn iota. fold (read_row (benchsuite.join texts ++ newline)). by rewrite IH.
Qed.

(** ** What a row prints as it is *)

Definition plain (text : bytes) : Prop := forallb plain_byte text = true.

Lemma plain_quote t : plain t → benchsuite.csv_quote t = t.
Proof. unfold plain, benchsuite.csv_quote. rewrite quotes_plain. by intros ->. Qed.

Lemma plain_app a b : plain a → plain b → plain (a ++ b).
Proof. unfold plain. rewrite forallb_app. by intros -> ->. Qed.

Lemma plain_take n a : plain a → plain (take n a).
Proof. unfold plain. intros Ha. rewrite <-(take_drop n a), forallb_app in Ha. by apply andb_true_iff in Ha as [? _]. Qed.

Lemma plain_digit n : plain_byte (byte.of_Z (48 + n mod 10)) = true.
Proof.
  pose proof (Z.mod_pos_bound n 10 eq_refl). unfold plain_byte. rewrite byte.unsigned_of_Z. unfold byte.wrap. rewrite Z.mod_small by lia.
  by rewrite !(proj2 (Z.eqb_neq _ _)) by lia.
Qed.

Lemma plain_to_string fuel : ∀ n acc, plain acc → plain (to_string_loop fuel n acc).
Proof.
  induction fuel as [|fuel IH]; intros n acc Ha; [done|]. cbn [to_string_loop].
  assert (plain (byte.of_Z (48 + n mod 10) :: acc)) by (unfold plain; cbn; by rewrite plain_digit).
  by destruct (_ =? 0); [|apply IH].
Qed.

Lemma plain_number n : plain (std_to_string n).
Proof. by apply plain_to_string. Qed.

Lemma plain_fixed places x : plain (dbl.fixed places x).
Proof.
  assert (Hd : ∀ n, plain (dbl.digits n)) by (intros n; by apply plain_to_string).
  assert (Hs : ∀ s : bool, plain (if s then lit "-" else [])) by by intros [].
  assert (Hr : ∀ n, plain (replicate n (byte.of_Z 48))) by (unfold plain; by induction n).
  assert (Hn : ∀ (s : bool) n, plain ((if s then lit "-" else []) ++ dbl.digits (n / 10 ^ places) ++
    (if places =? 0 then [] else lit "." ++ dbl.pad_left places (dbl.digits (n mod 10 ^ places))))).
  { intros s n. apply plain_app; [done|]. apply plain_app; [done|]. destruct (places =? 0); [done|]. apply plain_app; [done|].
    by apply plain_app. }
  destruct x as [s|s| |s m e]; cbn [dbl.fixed]; [apply Hn|by apply plain_app|done|apply Hn].
Qed.

Lemma plain_filesystem magic : plain (kvbench.filesystem_name magic).
Proof. unfold kvbench.filesystem_name. by repeat destruct (_ =? _). Qed.

Create HintDb plain.
#[export] Hint Resolve plain_number plain_fixed plain_filesystem plain_take : plain.
#[export] Hint Extern 1 (plain (lit _)) => vm_compute; reflexivity : plain.

(** The values of a row: its columns, the three that are quoted apart. *)
Definition values (m : Machine) (ctx : benchsuite.Context_) (row : benchsuite.Row) : list bytes :=
  let env := benchsuite.c_env ctx in
  <[1%nat := kvbench.hostname env]> (<[2%nat := kvbench.kernel env]> (<[3%nat := kvbench.cpu_model env]> (benchsuite.columns m ctx row))).

Lemma values_length m ctx row : length (values m ctx row) = 30%nat.
Proof. unfold values. rewrite !length_insert. reflexivity. Qed.

Definition no_nul (s : bytes) : Prop := c_str s = s.

Lemma no_nul_elem s b : no_nul s → b ∈ s → byte.unsigned b ≠ 0.
Proof.
  unfold no_nul. induction s as [|c s IH]; cbn [c_str]; [intros _ Hb; by apply elem_of_nil in Hb|].
  destruct (Z.eqb_spec (byte.unsigned c) 0) as [E|E]; [done|]. intros [= Es] [->|Hb]%elem_of_cons; [done|by apply IH].
Qed.

Lemma no_nul_intro s : (∀ b, b ∈ s → byte.unsigned b ≠ 0) → no_nul s.
Proof.
  unfold no_nul. induction s as [|c s IH]; intros Hs; [done|]. cbn [c_str]. rewrite (proj2 (Z.eqb_neq _ _)) by (apply Hs; by left).
  f_equal. apply IH. intros b Hb. apply Hs. by right.
Qed.

Lemma no_nul_quote s : no_nul s → no_nul (benchsuite.csv_quote s).
Proof.
  intros Hs. unfold benchsuite.csv_quote. destruct (benchsuite.needs_quotes s); [|done]. apply no_nul_intro. cbn.
  intros b [->|[Hb|Hb%list_elem_of_singleton]%elem_of_app]%elem_of_cons; [done| |by subst b].
  apply list_elem_of_bind in Hb as (c & Hb & Hc). apply (no_nul_elem s) in Hc; [|done].
  destruct (_ =? 34); [apply elem_of_cons in Hb as [->|Hb]; [done|]|]; apply list_elem_of_singleton in Hb as ->; done.
Qed.

Section Row.
Context (m : Machine) (ctx : benchsuite.Context_) (row : benchsuite.Row).
Let env := benchsuite.c_env ctx.
Hypothesis Hstamp : plain (benchsuite.c_timestamp ctx) ∧ no_nul (benchsuite.c_timestamp ctx).
Hypothesis Hrow : plain (benchsuite.r_workload row) ∧ plain (benchsuite.r_run row).
Hypothesis Hfs : plain (kvbench.fs_type env).
Hypothesis Hbuild : plain (mc_build_type m).
Hypothesis Henv : no_nul (kvbench.hostname env) ∧ no_nul (kvbench.kernel env) ∧ no_nul (kvbench.cpu_model env).

Lemma columns_quoted : benchsuite.columns m ctx row = benchsuite.csv_quote <$> values m ctx row.
Proof.
  destruct Hstamp as [Hs1 Hs2], Hrow as [Hr1 Hr2], Henv as (He1 & He2 & He3). apply no_nul_quote in He1, He2, He3.
  unfold values, benchsuite.columns. cbn [insert list_insert fmap list_fmap].
  rewrite Hs2. fold env. rewrite He1, He2, He3.
  repeat match goal with
  | |- cons _ _ = cons _ _ => apply (f_equal2 cons)
  | |- [] = [] => reflexivity
  | |- benchsuite.csv_quote _ = benchsuite.csv_quote _ => reflexivity
  | |- _ = benchsuite.csv_quote _ => symmetry; apply plain_quote
  end; auto with plain.
  all: unfold benchsuite.flag, snprintf; try destruct (bool_decide _); try destruct (benchsuite.a_sync_mode _); auto with plain; try done.
  all: by destruct (_ : bool).
Qed.
End Row.

(** * The theorems *)

(** C38: kv-benchsuite's keys, for every dataset of at most 5 * 10^11 records.  Present and
    absent keys have 16 bytes, and the present ones are in the order of their indices.  An
    absent probe is no key of the dataset; it lies between its present key and the next one,
    except that the one of the last index lies after every present key. *)
Theorem benchsuite_keys keys i j : keys * 2 ≤ key_limit → 0 ≤ i < keys → 0 ≤ j < keys →
  sz (benchsuite.present_key i) = benchsuite.kKeyBytes ∧ sz (benchsuite.absent_key i) = benchsuite.kKeyBytes ∧
  (klt (benchsuite.present_key i) (benchsuite.present_key j) ↔ i < j) ∧
  benchsuite.absent_key i ≠ benchsuite.present_key j ∧
  (klt (benchsuite.present_key j) (benchsuite.absent_key i) ↔ j ≤ i) ∧
  (klt (benchsuite.absent_key i) (benchsuite.present_key j) ↔ i < j) ∧
  (i = keys - 1 → klt (benchsuite.present_key j) (benchsuite.absent_key i)).
Proof.
  intros Hk Hi Hj. destruct (probes_ordered keys i j Hk Hi Hj) as (Ep & Ea & _ & Hpp & Hap).
  destruct (probes_ordered keys j i Hk Hj Hi) as (Ep' & _ & Hpa & _ & _).
  split_and!; [rewrite Ep|rewrite Ea|done| |done|done|intros ->; apply Hpa; lia]; [apply key_of_length; lia|apply key_of_length; lia|].
  rewrite Ea, Ep'. intros E. apply key_of_inj in E; lia.
Qed.

Lemma benchsuite_keys_witness :
  klt (benchsuite.present_key 2) (benchsuite.absent_key 4) ∧
  (klt (benchsuite.present_key 2) (benchsuite.absent_key 4) ↔ 2 ≤ 4).
Proof. split; [vm_compute; reflexivity|]. apply (benchsuite_keys 5 4 2); [unfold key_limit|..]; lia. Defined.


(** A machine: its clock advances by a microsecond with every reading. *)
Definition sample_machine : Machine :=
  mkMachine (Some (lit "6.1.0", lit "bench-1"))
    (lit "processor	: 0" ++ newline ++ lit "model name	: Some CPU, 8 cores" ++ newline ++ lit "cpu cores	: 8" ++ newline)
    (lit "MemTotal:       16384 kB" ++ newline) 16 (λ _, Some kvbench.kExt4Magic) (lit "2026-01-01T00:00:00") (lit "/tmp") (lit "Release")
    false true (λ n, 1000 * Z.of_nat n) (λ _ largest n, Z.min largest (Z.of_nat n)).

Definition sample_context : benchsuite.Context_ :=
  benchsuite.mkContext (kvbench.capture_env sample_machine (lit "data"))
    (benchsuite.set_warmup_ops 1 (benchsuite.set_ops 4 benchsuite.default_args)) 3 100 dbl.zero (lit "2026-01-01T00:00:00").


(** C39: a row that kv-benchsuite prints is read back by a reader of comma-separated values:
    the host, the kernel and the processor's name as they were captured, whatever commas and
    quotes are in them, and every other column as it was printed.  It has thirty columns, and so
    has the header. *)
Theorem rows_read_back m dir ctx row p w :
  benchsuite.c_env ctx = kvbench.capture_env m dir →
  plain (benchsuite.c_timestamp ctx) → no_nul (benchsuite.c_timestamp ctx) → plain (mc_build_type m) →
  plain (benchsuite.r_workload row) → plain (benchsuite.r_run row) →
  no_nul (kvbench.hostname (benchsuite.c_env ctx)) → no_nul (kvbench.kernel (benchsuite.c_env ctx)) →
  no_nul (kvbench.cpu_model (benchsuite.c_env ctx)) →
  ∃ text, benchsuite.print_row m ctx row p w = Ok tt (mkProg (pg_stdout p ++ text) (pg_stderr p) (pg_ticks p) (pg_exit p)) w ∧
    read_row text = Some (values m ctx row) ∧ length (values m ctx row) = 30%nat ∧
    length <$> read_row benchsuite.header = Some 30%nat.
Proof.
  intros He Ht1 Ht2 Hb Hw Hr H1 H2 H3. eexists. split; [reflexivity|]. split; [|split; [apply values_length|vm_compute; reflexivity]].
  rewrite columns_quoted; [|done..|by rewrite He; apply plain_filesystem|done|done].
  destruct (exists_last (l := values m ctx row)) as (vs & v & E); [intros E; pose proof (values_length m ctx row) as Hl; by rewrite E in Hl|]. rewrite E. apply read_values.
Qed.

Lemma rows_read_back_witness :
  ∃ text, benchsuite.print_row sample_machine sample_context (benchsuite.mkRow (lit "read_present") (lit "1") 4 dbl.p50 dbl.zero dbl.zero dbl.zero dbl.zero)
      start_prog (mkWorld ∅ [] []) = Ok tt (mkProg (pg_stdout start_prog ++ text) (pg_stderr start_prog) (pg_ticks start_prog) (pg_exit start_prog)) (mkWorld ∅ [] []) ∧
    read_row text = Some (values sample_machine sample_context (benchsuite.mkRow (lit "read_present") (lit "1") 4 dbl.p50 dbl.zero dbl.zero dbl.zero dbl.zero)) ∧
    length (values sample_machine sample_context (benchsuite.mkRow (lit "read_present") (lit "1") 4 dbl.p50 dbl.zero dbl.zero dbl.zero dbl.zero)) = 30%nat ∧
    length <$> read_row benchsuite.header = Some 30%nat.
Proof. by apply (rows_read_back sample_machine (lit "data")); vm_compute. Defined.

(** C40: kv-benchsuite divides by zero when it is given the value size 2^64 - 16: the size
    of an entry, 16 bytes more, is 0 in 64 bits, and nothing has looked at the value size
    before.  With every other value size that fits 64 bits the number of records is defined. *)
Theorem benchsuite_divides_by_zero `{Platform} m w :
  benchsuite.main m [lit "--dir"; lit "data"; lit "--value-size"; lit "18446744073709551600"] start_prog w = MStuck ∧
  ∀ dataset_mb value_size, 0 ≤ value_size ≤ UINT64_MAX → value_size ≠ 18446744073709551600 →
    ∃ keys, benchsuite.keys_for dataset_mb value_size = ROk keys.
Proof.
  split; [vm_compute; reflexivity|]. intros mb vs Hvs Hne. unfold benchsuite.keys_for, benchsuite.user_bytes_per_entry, benchsuite.kKeyBytes.
  destruct (Z.eqb_spec (u64 (16 + vs)) 0) as [E|E]; [|eauto]. exfalso. unfold u64, UINT64_MAX in *.
  pose proof (Z.div_mod (16 + vs) 18446744073709551616 ltac:(done)). lia.
Qed.
