(* ===== verification/NetExamples.v ===== *)
(** Runs of the network half and of the programs on concrete inputs: instances of the
    theorems, and a client and a server that talk to each other. *)

From S2P Require Import Prelude Status FileNames World Wp Encoding Record LogFile LogScan.
From S2P Require Import Bitcask BitcaskState BitcaskSteps BitcaskServe BitcaskSession BitcaskExamples.
From S2P Require Import BitcaskRecover.
From S2P Require Import Protocol Net Frames FrameSpec Stores Server Client ServerSpec ServerRun Remote Apps AppsSpec.
Import FrameOps ServerOps.

#[local] Existing Instance reference_platform.

Definition still : World := mkWorld ∅ [] [].

(** * Frames *)

(** Two frames, cut up: one byte and then three bytes of the first arrive, then the rest. *)
Definition cut_up : Link :=
  mkLink (mkSocket true (λ _, (frame (lit "hello") ++ frame (lit "world"), true)) [] 0 false [NShort 1; NShort 3]) default_reader.

(** Both come out whole, and then the end. *)
Example reads_cut_up :
  match (a ← read_frame; b ← read_frame; c ← read_frame; mret (a, b, c)) cut_up still with
  | Ok r _ _ => bool_decide (r = (Complete (lit "hello"), Complete (lit "world"), PeerClosed))
  | _ => false
  end = true.
Proof. vm_compute. reflexivity. Qed.

Lemma frames_reassembled_witness :
  sk_open (lk_sock cut_up) = true ∧
  wp read_frame cut_up still
    (λ r lk' w', w' = still ∧ follows cut_up lk' ∧ (r = Cancelled → cancelled (lk_reader cut_up) = Some true) ∧
       (r = StillWaits → 0 < poll_timeout_ms (lk_reader cut_up) → cancelled (lk_reader cut_up) ≠ Some true) ∧
       reads_as (max_frame_ (lk_reader cut_up)) (ended (lk_sock cut_up)) (unread cut_up) r (unread lk'))
    (λ e lk' w', w' = still ∧ follows cut_up lk' ∧
       (code_ e = Corruption ∧ parse_frame (max_frame_ (lk_reader cut_up)) (ended (lk_sock cut_up)) (unread cut_up) = PBroken ∨
        ¬ net_ok (sk_events (lk_sock cut_up)))) (λ _, False).
Proof. split; [reflexivity|]. apply (frames_reassembled cut_up still). reflexivity. Defined.

(** * Stores *)

Definition small_map : gmap bytes bytes := {[ lit "k" := lit "v" ]}.
Definition get_k : bytes := protocol.encode_request (mkRequest OpGet (lit "k") []).


(** * A server with two clients *)

Definition put_k : bytes := protocol.encode_request (mkRequest OpPut (lit "k") (lit "v")).

(** A client that sends [sent] and waits, over a network that cuts transfers up. *)
Definition sender (sent : bytes) : Socket := mkSocket true (λ _, (sent, false)) [] 0 false [NTimeout; NOk; NShort 2; NShort 5].

Definition fresh_server : Server (LockedStore MemoryStore) :=
  mkServer (mkLockedStore (mkMemoryStore ∅) false) default_server_options
    (mkListener true 7379 [sender (frame put_k); sender (frame get_k)] []) false true [] 0.

Definition after {S A} (d : Server S * World) (o : out (Server S) A) : Server S * World :=
  match o with Ok _ s w => (s, w) | _ => d end.

(** The accept thread takes both, the first one's request is answered, then the second's;
    then [stop] is called. *)
Definition taken1 := after (fresh_server, still) (accept_pass fresh_server still).
Definition taken2 := after taken1 (accept_pass taken1.1 taken1.2).
Definition served1 := after taken2 (connection_pass 0 taken2.1 taken2.2).
Definition served2 := after served1 (connection_pass 1 served1.1 served1.2).

Definition ok_empty : Response := mkResponse COk [].
Definition ok_v : Response := mkResponse COk (lit "v").

Lemma sender_fresh sent : fresh_socket (sender sent).
Proof. split_and!; try done. intros a b. reflexivity. Qed.

Definition both_trace : list (Z * bytes * Response) := [(0, put_k, ok_empty); (1, get_k, ok_v)].

(** Steps between states given as pairs; the store in memory is always within its limits. *)
Lemma accept_from (a b : Server (LockedStore MemoryStore) * World) : sv_accepting a.1 = true → sv_accepted a.1 < UINT64_MAX →
  accept_pass a.1 a.2 = Ok tt b.1 b.2 → server_step a [] b.
Proof. destruct a, b. by apply step_accept. Qed.
Lemma serve_from (a b : Server (LockedStore MemoryStore) * World) i r : ∀ c, sv_conns a.1 !! i = Some c → cn_finished c = false →
  connection_pass i a.1 a.2 = Ok r b.1 b.2 → server_step a (handled (cn_id c) r) b.
Proof. intros c. destruct a, b. intros Hi Hf E. eapply step_serve; [exact Hi|exact Hf|intros _ p _ q _; exact I|exact E]. Qed.

Lemma both_served : server_run (fresh_server, still) both_trace served2.
Proof.
  change both_trace with (((([] ++ []) ++ []) ++ handled 0 (GoesOn put_k ok_empty)) ++ handled 1 (GoesOn get_k ok_v)).
  apply (server_run_step _ _ served1); [apply (server_run_step _ _ taken2); [apply (server_run_step _ _ taken1)|]|].
  - apply (server_run_step _ _ (fresh_server, still)); [constructor|]. apply accept_from; reflexivity.
  - apply accept_from; reflexivity.
  - apply (serve_from taken2 served1 0 (GoesOn put_k ok_empty)
      (mkConnection 0 (new_link default_server_options false (sender (frame put_k))) false)); vm_compute; reflexivity.
  - apply (serve_from served1 served2 1 (GoesOn get_k ok_v)
      (mkConnection 1 (new_link default_server_options false (sender (frame get_k))) false)); vm_compute; reflexivity.
Qed.

Lemma server_serialises_witness :
  (∃ m, chain ∅ both_trace m ∧ kv_holds (sv_store served2.1) served2.2 m) ∧
  ∀ c, c ∈ sv_conns served2.1 →
    requests (mine (cn_id c) both_trace) `prefix_of` stream (lk_sock (cn_link c)) ∧
    sk_sent (lk_sock (cn_link c)) `prefix_of` replies (mine (cn_id c) both_trace) ∧
    (cn_finished c = false → sk_sent (lk_sock (cn_link c)) = replies (mine (cn_id c) both_trace)).
Proof.
  apply (server_serialises fresh_server still ∅ both_trace served2.1 served2.2).
  - split; [split; reflexivity|]. split; [reflexivity|]. split; [reflexivity|]. repeat constructor; apply sender_fresh.
  - exact both_served.
Defined.


(** * A client and a server *)

Definition small_store : MemoryStore := mkMemoryStore small_map.

(** The client's socket; its network also cuts transfers up. *)
Definition client_socket : Socket := mkSocket true (server_peer small_store still) [] 0 false [NShort 3; NShort 4; NTimeout; NShort 1].
(** A system with one server to connect to and one client that connects; it knows one address. *)
Definition sample_system : NetSystem :=
  mkNetSystem (λ host, if bool_decide (host = lit "127.0.0.1") then Some 2130706433 else None) true (λ _ _, true)
    (λ _, Some (mkListener true 0 [sender (frame put_k)] [])) (λ _ _, Some client_socket) (λ _, Some 7379).

Definition new_client : Client := mkClient (mkLink client_socket default_reader).

(** Five calls and their results. *)
Example client_session :
  match (a ← ClientOps.get (lit "k"); ClientOps.put (lit "x") (lit "y");; b ← ClientOps.get (lit "x");
         ClientOps.remove (lit "k");; c ← attempt (ClientOps.get (lit "k")); mret (a, b, c)) new_client still with
  | Ok (a, b, inr e) _ _ => bool_decide (a = lit "v" ∧ b = lit "y" ∧ code_ e = NotFound)
  | _ => false
  end = true.
Proof. vm_compute. reflexivity. Qed.

Lemma frames_nil ps : frames ps = [] → ps = [].
Proof. destruct ps as [|p ps]; [done|]. intros E. apply (f_equal length) in E. unfold frames, frame in E. cbn in E. done. Qed.

(** A client that has asked nothing yet faces the server as it was started. *)
Lemma nothing_asked c ps rs s w : connected small_store still c ps rs → sk_sent (lk_sock (cl_link c)) = [] →
  serves small_store still ps rs s w → s = small_store ∧ w = still.
Proof.
  intros [_ _ Es _ _] E0 Hs. rewrite E0 in Es. symmetry in Es. apply frames_nil in Es as ->.
  inversion Hs as [|ps' rs' s1 w1 p r s2 w2 _ _ _ _ Eps]; [done|]. by destruct ps'.
Qed.

Lemma new_client_ready : remote_ready small_store still (mkRequest OpGet (lit "k") []) new_client.
Proof.
  split; [repeat constructor; done|]. split; [vm_compute; discriminate|]. intros ps rs s w Hs Hc.
  destruct (nothing_asked _ _ _ _ _ Hc eq_refl Hs) as [-> ->]. split_and!; [constructor|exact I|].
  intros r s' w' E. assert (E1 : handle get_k small_store still = Ok ok_v small_store still) by (vm_compute; reflexivity).
  change (handle get_k small_store still = Ok r s' w') in E. rewrite E1 in E. injection E as <- <- <-. vm_compute. discriminate.
Qed.

(** Connecting and asking for a key that is there. *)
Lemma client_refines_store_witness :
  ∃ c, ClientOps.connect sample_system (lit "127.0.0.1") 7379 = ROk c ∧ remote_holds small_store still c small_map ∧
  wp (ClientOps.get (lit "k")) c still (λ v c' _, small_map !! lit "k" = Some v ∧ remote_holds small_store still c' small_map)
    (λ e c' _, code_ e = NotFound ∧ small_map !! lit "k" = None ∧ remote_holds small_store still c' small_map) (λ _, False).
Proof.
  destruct (client_refines_store small_store still) as (Hconnect & _ & Hget & _).
  destruct (Hconnect sample_system (lit "127.0.0.1") 7379 client_socket small_map) as (c & Ec & Hc); [reflexivity..|].
  injection Ec as <-. exists new_client. split; [reflexivity|]. split; [exact Hc|].
  apply Hget; [exact Hc|exact new_client_ready].
Defined.

(** * The programs *)

Definition no_output : Process := mkProcess [] [] None.
Definition cli_argv : list bytes := [lit "--host"; lit "127.0.0.1"; lit "--port"; lit "7379"; lit "get"; lit "k"].
Definition cli_args_read : kv_cli.Args := kv_cli.mkArgs (lit "127.0.0.1") 7379 [lit "get"; lit "k"] false.

(** The value on the standard output and nothing else; without a command, the usage. *)
Example cli_gets :
  match kv_cli.main sample_system cli_argv no_output still with
  | Ok code p _ => bool_decide (code = 0 ∧ pr_stdout p = lit "v" ∧ pr_stderr p = newline)
  | _ => false
  end = true.
Proof. vm_compute. reflexivity. Qed.

Example cli_usage :
  match kv_cli.main sample_system [lit "--port"; lit "0x10"; lit "get"; lit "k"] no_output still with
  | Ok code p _ => bool_decide (code = 2 ∧ pr_stdout p = [])
  | _ => false
  end = true.
Proof. vm_compute. reflexivity. Qed.

Lemma cli_faithful_witness :
  ∃ code p' w' m', kv_cli.main sample_system cli_argv no_output still = Ok code p' w' ∧
    server_saw small_store still p' m' ∧
    cli_outcome (mkRequest OpGet (lit "k") []) small_map code (pr_stdout no_output) (pr_stdout p') m'.
Proof.
  apply (cli_faithful small_store still sample_system cli_argv cli_args_read client_socket
    (mkRequest OpGet (lit "k") []) no_output still small_map);
    [reflexivity|vm_compute; reflexivity|reflexivity..|exact new_client_ready].
Defined.

(** kvstore_server on an empty directory, one client that puts a key. *)
Definition server_argv : list bytes := [lit "--dir"; lit "db"].
Definition server_args_read : kvstore_server.Args :=
  kvstore_server.mkArgs (lit "db") (lit "127.0.0.1") 7379 Always EngineBitcask false.
Definition opened_engine : LockedStore Bitcask * World :=
  match kvstore_server.open_engine server_args_read tt empty_world with
  | Ok s _ w => (s, w)
  | _ => (mkLockedStore (new_bitcask [] sample_options) false, empty_world)
  end.

Definition running : Server (LockedStore Bitcask) :=
  mkServer opened_engine.1 (kvstore_server.server_options server_args_read) (mkListener true 7379 [sender (frame put_k)] []) false true [] 0.

Definition greeted : Process :=
  match kvstore_server.main_begin sample_system server_argv no_output empty_world with Ok _ p _ => p | _ => no_output end.

Definition accepted_one := after (running, opened_engine.2) (ServerOps.accept_pass running opened_engine.2).
Definition answered_one := after accepted_one (ServerOps.connection_pass 0 accepted_one.1 accepted_one.2).

(** A request is no larger than the frame it came in. *)
Lemma decoded_size p q : protocol.decode_request p = ROk q → request_size q ≤ sz p.
Proof.
  intros E. apply protocol.decode_request_inv in E as [[Hk Hv] <-]. rewrite protocol.encode_request_eq by done. unfold request_size.
  rewrite sz_cons, !sz_app. pose proof (sz_nonneg (protocol.be32 (sz (rq_key q)))). pose proof (sz_nonneg (rq_value q)).
  case_bool_decide as Hop; [lia|]. rewrite (Hv Hop). lia.
Qed.

Lemma answered_one_run : server_run (running, opened_engine.2) [(0, put_k, ok_empty)] answered_one.
Proof.
  change [(0, put_k, ok_empty)] with (([] ++ []) ++ handled 0 (GoesOn put_k ok_empty)).
  apply (server_run_step _ _ accepted_one); [apply (server_run_step _ _ (running, opened_engine.2)); [constructor|]|].
  - apply (step_accept running opened_engine.2 accepted_one.1 accepted_one.2); vm_compute; reflexivity.
  - apply (step_serve 0 (mkConnection 0 (new_link (kvstore_server.server_options server_args_read) false (sender (frame put_k))) false)
      accepted_one.1 accepted_one.2 (GoesOn put_k ok_empty) answered_one.1 answered_one.2); [vm_compute; reflexivity..| |vm_compute; reflexivity].
    intros _ payload Hp q Eq. split; [constructor|]. split; [vm_compute; discriminate|]. apply decoded_size in Eq.
    change (sz payload ≤ protocol.kMaxFrameSize) in Hp. unfold protocol.kMaxFrameSize, UINT64_MAX in *. lia.
Qed.

Lemma server_program_witness :
  ∃ m', chain ∅ [(0, put_k, ok_empty)] m' ∧
    wp (kvstore_server.main_end (kvstore_server.engine server_args_read) (sv_store (S := served_store (kvstore_server.engine server_args_read)) answered_one.1)) no_output answered_one.2
      (λ r _ w', left_by (kvstore_server.engine server_args_read) w' m' ∧ kv_holds r.2 w' m' ∧ (r.1 = 0 ∨ r.1 = 1 ∧ kvstore_server.engine server_args_read = EngineLsm))
      (λ _ _ _, False) (λ w', left_by (kvstore_server.engine server_args_read) w' m').
Proof.
  refine (server_program sample_system server_argv no_output empty_world ∅ server_args_read running greeted opened_engine.2
    [(0, put_k, ok_empty)] answered_one.1 answered_one.2 no_output _ _ _ _ _ _ _).
  - constructor.
  - exact empty_recoverable.
  - intros backlog l E. injection E as <-. constructor; [apply sender_fresh|constructor].
  - vm_compute. reflexivity.
  - exact answered_one_run.
  - vm_compute. constructor.
  - exact I.
Defined.
